(* ===== verification/_CoqProject ===== *)
-Q . S2P
Prelude.v
RingArray.v
WorkStealQueue.v
WorkStealConcurrent.v
QueueMemory.v
TripleBuffer.v
SharedBuffer.v
Numbers.v
Base64.v
EventCount.v
AtomicPark.v
EventCountMachine.v
Task.v
Scheduler.v
ExecutorSlot.v
SlotWord.v
WorkGroup.v
Executor.v
CpuHelper.v
Runtime.v
Promise.v
Ledger.v
AsyncSlot.v
GroupMachine.v
Channel.v
DataflowNotifier.v
Ports.v
Sink.v
ResourcePool.v
Process.v
Coroutine.v
Ticker.v
Profiler.v
ProfilerService.v
Kernel.v
KernelSafety.v
CppString.v
IoTask.v
IoSession.v
HttpSession.v
IoExecutor.v
HttpDigest.v
Logger.v
Platform.v
Trace.v
AsyncCalls.v
RuntimeMachine.v
AwaitRuntime.v
Metrics.v
Memory.v
Shutdown.v
Traits.v
