(* ===== verification/Prelude.v ===== *)
(** * async_runtime: a verification library

    async_runtime is a C++ runtime for asynchronous tasks and coroutines.  Tasks are posted to
    a [Runtime], which routes them by entity tag or work group to executors; an executor has work
    groups, a work group has slots, a slot has worker threads that take tasks from work-stealing
    queues and sleep on an eventcount; delayed tasks wait in a scheduler.  Coroutines are resumed by
    tasks and await futures.  On top of it are channels and dataflow kernels, coroutines that
    exchange messages through ports and buffers.

    ** Files, and the sources they model (under src/)

    - Prelude.v: machine integers at their width ([uwrap], [swrap] and the notations [u8] ... [i64]),
      bit fields, tactics and the lemmas several components share.
    - RingArray.v: the circular arrays of include/ar/array.hpp and task_queue.hpp, behind one
      interface, the class [RingArray] and its laws.
    - WorkStealQueue.v: the queues of include/ar/work_steal_queue.hpp and task_queue.hpp (the one
      with priorities) in sequential use, refining lists.
    - WorkStealConcurrent.v: the same queue with the owner's [push] and [pop] and any number of
      thieves' [steal] interleaved access by access; QueueMemory.v: the arrays it allocates, and its destructor.
    - TripleBuffer.v, SharedBuffer.v: include/ar/triple_buffer.hpp with a reader and a writer
      interleaved, and the buffers of include/ar/dataflow/*shared_buffer*.hpp.
    - Numbers.v, Base64.v: src/numbers.h (packing of tags) and src/base64.cpp.
    - EventCount.v, AtomicPark.v, EventCountMachine.v: the eventcounts of src/work_notifier.h and
      include/ar/notifier.hpp: the 64-bit state word and the operations on it, the parking of a thread in both
      variants, then all threads interleaved.
    - Task.v, Scheduler.v: include/ar/task.hpp, timestamp.hpp, object.hpp; include/ar/scheduler.hpp
      and src/scheduler.cpp, its thread, callers and destructor interleaved.
    - ExecutorSlot.v: src/executor_slot.h and .cpp: workers, posting threads and the destructor interleaved.
      SlotWord.v: the same over the machine of the eventcount, one access to the word at a time.
    - WorkGroup.v, Executor.v, CpuHelper.v, Runtime.v: src/executor.cpp, src/cpu_helper.cpp,
      src/runtime.cpp with their headers: construction, routing and entity counting, with the
      floating-point arithmetic of the code.
    - Promise.v: the interface of boost promises and futures and an implementation of it.
    - Ledger.v: the promises of tasks (include/ar/task.hpp), for the machines in which tasks wait and run.
    - AsyncSlot.v: tasks with promises, posted to the slot of SlotWord.v and executed by its workers.
    - GroupMachine.v: a work group at work: its routing, all its slots, its scheduler and the promises in one machine.
    - RuntimeMachine.v: the runtime at work: every group of every CPU executor with its threads, under the routing of Runtime.v.
    - AwaitRuntime.v: coroutines inside [Await] of the tasks of that runtime.
    - Channel.v: include/ar/channel.hpp.
    - DataflowNotifier.v, Ports.v, Sink.v: include/ar/dataflow/ notifier, kernel_events, port, consumer,
      source, sink, port_controller and the files of the same names under src/dataflow.
    - ResourcePool.v: src/resource_pool.cpp, and what include/ar/allocators.hpp and flat_buffer.hpp ask of it.
    - Process.v: the global runtime of every image of a process, the free functions that go to it (include/ar/runtime.hpp,
      src/runtime.cpp) and the owners of pools (include/ar/resource_pool.hpp).
    - Coroutine.v: include/ar/coroutine.hpp, and [Async] and [Await] of include/ar/runtime.hpp.
    - Ticker.v, Profiler.v, ProfilerService.v: src/ticker.cpp, src/profiler.cpp and their headers; the last one has the
      coroutine of the profiler, its starting and stopping and the answer it serves.
    - Kernel.v, KernelSafety.v: include/ar/dataflow/kernel.hpp, the machine and its theorems.
    - CppString.v: std::string and std::getline on lists of characters, for the files below.
    - IoTask.v: src/io/io_task.h, the methods of the tasks and their accesses interleaved.
    - IoSession.v: include/ar/io/tcp.hpp, udp.hpp, src/io/tcp.cpp, udp.cpp: the methods of the sessions, the thread of
      the service, completions and the timer interleaved.
    - HttpSession.v: include/ar/io/http.hpp, src/io/http.cpp, src/io/io_http_task.h.
    - IoExecutor.v: src/io/io_executor.h and .cpp, src/io/io.cpp: the pool of threads that runs the handlers.
    - HttpDigest.v: http_digest_authenticator.hpp and .cpp.
    - Logger.v: include/ar/logger.hpp, src/logger.cpp.
    - Platform.v: include/ar/os.hpp, src/os.cpp, include/ar/thread_executor.hpp, src/thread_executor.cpp.
    - Trace.v: src/trace.h, src/trace.cpp.
    - AsyncCalls.v: the templates and free functions of include/ar/runtime.hpp, and the way of a task through the parts.
    - Metrics.v: include/ar/metricer.hpp and the counters of runtime, groups, slots and coroutines.
    - Memory.v: include/ar/stack.hpp, pooled_stack.hpp, the objects of allocators.hpp, and the blocks and stacks of coroutines
      (include/ar/coroutine.hpp, src/coroutine.cpp).
    - Shutdown.v: [Runtime::Terminate] and the destructors of executors and work groups.
    - Traits.v: include/ar/traits.hpp, the templates as functions on lists of types.

    ** How the code is modelled

    A class is a record, an enumeration an inductive type, a method a function on the record
    under its name in the source; an integer is a [Z] with its wrap-around written out, a double or
    float a [spec_float] at its precision.  An error is a value: [None], an error type, or a constructor for
    undefined behaviour.  A clock is an argument, one per reading.  Objects behind shared pointers
    are in a heap under their address (Channel.v, Ports.v, Sink.v, Kernel.v).

    Concurrent components are machines: a step is one atomic access, or one critical section of
    a mutex, of one thread; reachability or the list of steps quantifies over interleavings.  Memory is
    sequentially consistent: the reorderings that [memory_order_relaxed] and
    [memory_order_release] allow are not modelled.  The machine of ExecutorSlot.v uses the
    abstract eventcount that EventCountMachine.v proves the words implement; SlotWord.v composes the two machines,
    AsyncSlot.v adds promises, GroupMachine.v puts the slots and the scheduler of a group together, RuntimeMachine.v the groups of all
    executors and AwaitRuntime.v the coroutines, so that their theorems are about the code down to the word.  A group is proved once, beside
    whatever else shares its book of promises ([GroupMachine.inv] with its frames), and the runtime is made of groups.

    Calls are followed past their [Post].  [Async] asks the task for its future only after it is posted (include/ar/runtime.hpp:155-156): in
    RuntimeMachine.v that is a step of its own ([get_future], label [LFuture]), and when a worker has executed and deleted the task before it, the
    machine records the use of the deleted object ([fault]) and stops; AsyncCalls.v has the two outcomes as [Future] and [Dangling].  A scheduler that sleeps keeps the
    clock at which it computed the time ([InWaitFor c us], [sleeps]), so that the theorems say until when it sleeps.  [async_read] of a
    TCP session commits to the stream buffer after every [read_some] ([ReadSome], [commit]); reads that a time-out has given up go on, can overlap the next
    one ([shared]), and write to the buffer of a destroyed session ([undefined]).  [OnProcess] of a kernel begins and returns in two steps, between which writers push; [offered] keeps
    the ports as it found them.

    Library code is behind interfaces with laws and at least one implementation, so that the theorems
    are proved for whatever satisfies the laws and can be evaluated: [RingArray], [PriorityQueue]
    (std::priority_queue), [Futures] (boost promises), [SpscQueue] (boost::lockfree::spsc_queue),
    [BoostPool] (boost::pool), [Malloc] (the C heap), [ResponseParser] (the parser of Boost.Beast), [IoService] (boost::asio::io_service), and [Consumer], the interface a sink port
    calls; [CoroutineHeap] is what coroutines ask of a memory, and a pool and the C heap are its instances.  The functions of coroutines, the methods a derived kernel defines, and the digest of the authenticator are
    arguments, and so is the version string of Boost.Beast.  Boost.Asio is the events of IoSession.v: what a read brings, which operation ends, with what, when a timer fires.
    [future::then] with [launch::sync] is its documented behaviour, [then_sync] and [fire] of Coroutine.v.
    The comparator of the scheduler's queue reads the clock for each of its two tasks ([less_than_by_delay]); it is an order only when both readings fall
    into one microsecond, which is what the laws of [PriorityQueue] ask, and Task.v shows what happens otherwise.

    ** What the theorems show

    - End to end: on a runtime that [Setup] leaves, with any number of executors, groups, slots and workers, a task is executed at most once and
      not before its delay is over, and the future of its promise gets the result of its function; when the runtime is at rest every future has its answer
      except those of tasks that a scheduler keeps, which fell asleep when they were not due and sleeps exactly until the first of them is; every [Await] of a coroutine has returned except those on such a task
      or without a future yet; and, as long as no deleted task is used and the clock does not go back within a turn, no call and no scheduler thread gets stuck.
    - Queues: the sequential queues refine lists; under every interleaving the work-stealing queue is
      linearizable, loses and repeats nothing, and every operation ends; its indices stay in range for 2^63 - 2
      pushes.  The triple buffer is linearizable and free of races; the FIFO buffer keeps order.
    - Waking: the eventcount word refines a list of pre-waiters and a stack of waiters; no wake-up is
      lost; a notified waiter returns.  In a slot a worker never sleeps with work in its queue, nor do
      all sleep with work in the shared one, and tasks are executed once, also with every access to the word interleaved.  Delayed tasks are never early
      and are dispatched when due, and a scheduler sleeps for exactly what the earliest has left.  [Await] in a coroutine loses no wake-up.
    - Routing: the tasks of an entity keep their slot, counters equal entities, tags route back to their executor; the
      counters of the metrics follow entities and coroutines from the moment the metricer is created.
    - Messages: channels deliver in order and wake their waiters; a notifier loses no event it watches; sinks
      broadcast; subscriptions behave as sets; while a kernel waits every message has been offered to a call of [OnProcess] begun after it came, and it returns
      within a bounded number of steps after it is told to end.
    - Input and output: the executor runs every handler at most once and loses none; a task settles its promise once however its handlers interleave; no exception leaves a handler of
      a session, no future is forgotten, deadlines settle what has one and waits on them; the bytes of a stream keep their order, partial and given-up reads included, as long as reads do not overlap, and a read reports what it brought; an
      HTTP request goes through its operations in order and reports its first error; the header and the parts of a multipart response
      are read as they stand, and when reading throws is decided; the answer to a digest challenge.
    - The way of a task: [Async] reaches a slot of the least loaded executor, a delayed call is never early, on every
      runtime that [Setup] or earlier calls leave.
    - Memory: blocks and stacks of coroutines share no byte and are all given back, also when an allocation fails; pools
      hand out disjoint memory; the end of the runtime deletes every slot once; the arrays of a queue are deleted once and
      never while a thief reads them; pools belong to one runtime and are deleted once.
    - Data: base64 round trips; ticks keep their period; the profiler's window
      is bounded and its answer is the whole state; the page of the tracer has all the work; the logger's level stays in its enumeration and a message is one line.

    Examples and lemmas next to them show where the code does not do what it means to.

    ** Bounds and fuel

    Loops that are not structural carry fuel, and a lemma shows that it is enough: Base64 decoding takes the
    length of its input, [SourcePort.Flush] the length of the queue.  Base64 lengths are below
    2^32 - 3, where the 32-bit arithmetic of the code is exact.  The eventcount is for less than 2^16 - 1 waiters,
    the width of its fields, and for interleavings in which no thread sleeps through 2^31 epochs between two of its
    accesses, so that the wrapping epoch is not ambiguous.  The splitting of processors is decided for up to 24 hardware
    threads, and the chunk counts of the default pool for up to 4096 bytes, by evaluation of the float
    arithmetic; Memory.v takes any size whose count is exact, such as a stack of 128 KiB.  A kernel with m source ports ends within 30 + 4m steps of its coroutine.  The loops over the lines of a buffer
    take its length as fuel, since each line takes a character at least; buffers are below 2^32 or 2^63 bytes, so that the
    wrap-around of positions only happens where the code makes it happen.  A stretch of the profiler's loop has fuel for the ticks that
    are due; the loop is shown not to reach its first tick at all.

    ** What is not modelled

    The internals of Boost.Asio and Boost.Beast, name resolution; the context switch itself and stacks mapped with mmap; system
    calls; the HTTP server of the profiler, which is not in the repository, and its viewer; weak memory.  In ExecutorSlot.v and the machines over it, [empty()] of a
    queue, two loads, is one instant, as is the end of a task: storing [execute], calling the task and deleting it; the queue itself is access by
    access in WorkStealConcurrent.v.  What [OnProcess] takes from the ports it takes at its return.  The theorems of GroupMachine.v and AsyncSlot.v speak of the state that
    promise and future share, whoever holds the future; RuntimeMachine.v adds who does.  src/notifier.cpp and
    src/stack.cpp are commented out.  Declarations, includes and the selection of headers by platform have nothing to model;
    [Sink::Add] with a deleter and [AsyncPostTask] name functions that do not exist, so that they cannot be instantiated.  In the machines of
    GroupMachine.v and RuntimeMachine.v the parts are in use: the destructors are in Scheduler.v, ExecutorSlot.v and Shutdown.v.  A task's function is one step:
    what it does besides its result, such as calling [Async], is a call of another thread.  A coroutine of AwaitRuntime.v is in one call of
    [Await]; its function between the calls is in Coroutine.v. *)
From stdpp Require Export prelude list gmap strings.
From Stdlib Require Export ZArith Lia.
From Stdlib Require Import Btauto.

Open Scope Z_scope.
Coercion Z.of_nat : nat >-> Z.

(** ** Machine integers

    A C++ integer of width [w] is a [Z]; [uwrap w] is the conversion to the
    unsigned type of that width, [swrap w] the conversion to the signed one. *)
Definition uwrap (w z : Z) : Z := z `mod` 2 ^ w.

Definition swrap (w z : Z) : Z := (z + 2 ^ (w - 1)) `mod` 2 ^ w - 2 ^ (w - 1).

Declare Scope ar_scope.
Delimit Scope ar_scope with ar.
Notation "'u8' z" := (uwrap 8 z) (at level 9, z at level 9) : ar_scope.
Notation "'u16' z" := (uwrap 16 z) (at level 9, z at level 9) : ar_scope.
Notation "'u32' z" := (uwrap 32 z) (at level 9, z at level 9) : ar_scope.
Notation "'u64' z" := (uwrap 64 z) (at level 9, z at level 9) : ar_scope.
Notation "'i16' z" := (swrap 16 z) (at level 9, z at level 9) : ar_scope.
Notation "'i32' z" := (swrap 32 z) (at level 9, z at level 9) : ar_scope.
Notation "'i64' z" := (swrap 64 z) (at level 9, z at level 9) : ar_scope.
Notation "x '.&' y" := (Z.land x y) (at level 40, left associativity) : ar_scope.
Notation "x '.|' y" := (Z.lor x y) (at level 50, left associativity) : ar_scope.
Open Scope ar_scope.

Create HintDb ar.

Lemma uwrap_range w z : 0 <= w → 0 <= uwrap w z < 2 ^ w.
Proof. intros. apply Z.mod_pos_bound, Z.pow_pos_nonneg; lia. Qed.

Lemma uwrap_small w z : 0 <= z < 2 ^ w → uwrap w z = z.
Proof. apply Z.mod_small. Qed.

Lemma uwrap_idemp w z : uwrap w (uwrap w z) = uwrap w z.
Proof. apply Zmod_mod. Qed.

Lemma swrap_small w z : - 2 ^ (w - 1) <= z < 2 ^ (w - 1) → 1 <= w → swrap w z = z.
Proof.
  intros Hz Hw. unfold swrap.
  assert (E : 2 ^ w = 2 * 2 ^ (w - 1)) by
    (rewrite <- Z.pow_succ_r by lia; f_equal; lia).
  rewrite Z.mod_small by lia. lia.
Qed.

(** Reading a signed conversion back as unsigned loses nothing. *)
Lemma uwrap_swrap w z : 1 <= w → uwrap w (swrap w z) = uwrap w z.
Proof.
  intros Hw. unfold uwrap, swrap.
  rewrite Zminus_mod_idemp_l. f_equal. lia.
Qed.

(** ** Bit fields as division and remainder *)
Lemma land_mask_mod x n : 0 <= n → x .& (2 ^ n - 1) = x `mod` 2 ^ n.
Proof. intros. rewrite <- Z.land_ones by lia. f_equal. rewrite Z.ones_equiv. lia. Qed.

Lemma lor_disjoint_add hi lo n :
  0 <= n → 0 <= lo < 2 ^ n → Z.lor (hi * 2 ^ n) lo = hi * 2 ^ n + lo.
Proof.
  intros Hn Hlo. rewrite <- Z.add_lor_land.
  enough (Z.land (hi * 2 ^ n) lo = 0) as -> by lia.
  apply Z.bits_inj'. intros i Hi.
  rewrite Z.land_spec, Z.bits_0.
  destruct (Z.ltb_spec i n) as [?|?].
  - rewrite Z.mul_pow2_bits_low by lia. done.
  - rewrite <- (Z.mod_small lo (2 ^ n)), Z.mod_pow2_bits_high by lia.
    apply andb_false_r.
Qed.

(** ** Integer ranges *)
Lemma seqZ_snoc m n : 0 <= n → seqZ m (n + 1) = seqZ m n ++ [m + n].
Proof.
  intros Hn. rewrite seqZ_app by lia. f_equal.
Qed.

(** A property of every integer below [n] follows by computing it on each. *)
Lemma range_enum (n : nat) (P : Z → bool) :
  forallb P (seqZ 0 n) = true → ∀ x, 0 <= x < n → P x = true.
Proof.
  intros H x Hx. rewrite forallb_forall in H. apply H.
  apply list_elem_of_In, elem_of_seqZ. lia.
Qed.

(** Induction that removes three elements at a time. *)
Lemma list_ind3 {A} (P : list A → Prop) :
  P [] → (∀ a, P [a]) → (∀ a b, P [a; b]) →
  (∀ a b c l, P l → P (a :: b :: c :: l)) → ∀ l, P l.
Proof.
  intros H0 H1 H2 H3. fix IH 1. intros [|a [|b [|c l]]]; [done..|]. apply H3, IH.
Qed.

(** The sum of a list after one element is replaced. *)
Lemma sum_list_update {A} (f : A → nat) (l : list A) (i : nat) (x y : A) :
  l !! i = Some x → (sum_list (f <$> <[i := y]> l) + f x = sum_list (f <$> l) + f y)%nat.
Proof.
  revert i. induction l as [|z l IH]; intros [|i] Hi; cbn in *; simplify_eq; [lia|].
  rewrite <- !Nat.add_assoc. exact (f_equal (Nat.add (f z)) (IH i Hi)).
Qed.

Lemma head_filter_elem {A} (f : A → bool) (l : list A) x : head (List.filter f l) = Some x → x ∈ l ∧ f x = true.
Proof.
  intros E. assert (In x (List.filter f l)) as [? ?]%filter_In by (destruct (List.filter f l); simplify_eq/=; auto).
  by rewrite list_elem_of_In.
Qed.

(** What the elements of a list hold together, after one element is looked up or replaced. *)
Lemma insert_Permutation {A} (l : list A) k x y : l !! k = Some x → <[k := y]> l ≡ₚ y :: delete k l.
Proof.
  revert k. induction l as [|u l IH]; intros [|k] Hk; try done; cbn in *. rewrite (IH k Hk). constructor.
Qed.

#[global] Instance concat_map_Permutation {A B} (f : A → list B) : Proper ((≡ₚ) ==> (≡ₚ)) (λ l, concat (map f l)).
Proof. intros l l'. induction 1; cbn; [done|by rewrite IHPermutation|by rewrite !(assoc_L (++)), (comm (++) (f y))|etrans; done]. Qed.

Lemma concat_map_lookup {A B} (f : A → list B) l k x : l !! k = Some x →
  concat (map f l) ≡ₚ f x ++ concat (map f (delete k l)).
Proof. intros Hk. exact (concat_map_Permutation f _ _ (delete_Permutation l k x Hk)). Qed.

Lemma concat_map_insert {A B} (f : A → list B) l k x y : l !! k = Some x →
  concat (map f (<[k := y]> l)) ≡ₚ f y ++ concat (map f (delete k l)).
Proof. intros Hk. exact (concat_map_Permutation f _ _ (insert_Permutation l k x y Hk)). Qed.

Lemma concat_map_nil {A B} (f : A → list B) l : (∀ x, x ∈ l → f x = []) → concat (map f l) = [].
Proof. induction l as [|x l IH]; intros Hf; [done|]. cbn. rewrite Hf, IH; [done| |left]. intros y Hy. apply Hf. by right. Qed.

Lemma app_mixed {A} (a b c d : list A) : (a ++ b) ++ (c ++ d) ≡ₚ (a ++ c) ++ (b ++ d).
Proof. solve_Permutation. Qed.

(** ** Tactics of the development *)
Ltac inv_all :=
  repeat match goal with
    | H : Some _ = Some _ |- _ => injection H as H
    | H : (_, _) = (_, _) |- _ => injection H as H
    | H : None = Some _ |- _ => discriminate H
    | H : Some _ = None |- _ => discriminate H
    | H : _ ∧ _ |- _ => destruct H
    | H : ∃ _, _ |- _ => destruct H
    end; subst.

(** Two hypotheses [x = Some a] and [x = Some b] give [a = b]. *)
Ltac same_some :=
  repeat match goal with
    | H1 : ?x = Some ?a, H2 : ?x = Some ?b |- _ =>
        rewrite H1 in H2; injection H2 as H2; try subst
    end.

(** Case analysis on every integer test of the goal and the hypotheses. *)
Ltac ztest :=
  repeat match goal with
    | |- context [?a <=? ?b] => destruct (Z.leb_spec a b)
    | |- context [?a <? ?b] => destruct (Z.ltb_spec a b)
    | |- context [?a =? ?b] => destruct (Z.eqb_spec a b)
    | H : context [?a <=? ?b] |- _ => destruct (Z.leb_spec a b)
    | H : context [?a <? ?b] |- _ => destruct (Z.ltb_spec a b)
    | H : context [?a =? ?b] |- _ => destruct (Z.eqb_spec a b)
    end.

(** A closed decidable statement, by evaluation. *)
Ltac by_evaluation := refine (bool_decide_unpack _ _); vm_compute; exact I.

#[export] Hint Resolve uwrap_range : ar.

(** Lists that carry the position they come from do not overlap. *)
Lemma NoDup_concat_imap {A B} (tag : B → nat) (f : nat → A → list B) (l : list A) : ∀ k,
  (∀ i x, l !! i = Some x → NoDup (f i x)) → (∀ i x b, b ∈ f i x → tag b = (k + i)%nat) →
  NoDup (concat (imap f l)).
Proof.
  revert f. induction l as [|x l IH]; intros f k Hn Ht; cbn; [constructor|].
  apply NoDup_app. split; [by apply (Hn 0%nat)|]. split; [|apply (IH (f ∘ S) (S k)); [intros i y; apply (Hn (S i))|]].
  - intros b Hb Hin. rewrite (list_elem_of_In), in_concat in Hin. destruct Hin as (bs & Hbs & Hin).
    apply list_elem_of_In in Hbs. apply elem_of_lookup_imap in Hbs as (i & y & -> & _).
    apply list_elem_of_In in Hin. cbn in Hin. pose proof (Ht _ _ _ Hb). pose proof (Ht _ _ _ Hin). lia.
  - intros i y b Hb. rewrite (Ht _ _ _ Hb). lia.
Qed.
