(* ===== verification/RingArray.v ===== *)
(** * The circular arrays behind the work-stealing queues

    [AtomicArray] is include/ar/array.hpp, [TaskArray] the nested [Array] of
    include/ar/task_queue.hpp.  Both hold [C] atomic slots and address slot
    [i & M] with [M = C - 1]; the first also counts its stores in [U].  The
    class [RingArray] states what the queues rely on, [RingArrayLaws] the laws,
    and both arrays are instances, so the queues are verified once.

    A slot is an [option T]: [None] is the indeterminate value that
    [new std::atomic<T>[C]] leaves in a slot that was never stored to. *)
From S2P Require Import Prelude.

(** The capacity is a power of two: the constructors of both queues assert
    [c && (!(c & (c - 1)))]. *)
Definition pow2 (c : Z) : Prop := ∃ k, 0 <= k ∧ c = 2 ^ k.

Lemma pow2_pos c : pow2 c → 0 < c.
Proof. intros (k & ? & ->). apply Z.pow_pos_nonneg; lia. Qed.

Lemma pow2_double c : pow2 c → pow2 (2 * c).
Proof. intros (k & ? & ->). exists (k + 1). split; [lia|]. rewrite Z.pow_add_r; lia. Qed.

(** Masking with [c - 1] is the remainder modulo [c]. *)
Lemma pow2_land c i : pow2 c → i .& (c - 1) = i `mod` c.
Proof. intros (k & ? & ->). by apply land_mask_mod. Qed.

(** The test the queue constructors assert accepts exactly the powers of two
    among the positive capacities. *)
Definition capacity_ok (c : Z) : bool := negb (c =? 0) && (c .& (c - 1) =? 0).

Lemma capacity_ok_pow2 c : pow2 c → capacity_ok c = true.
Proof.
  intros H. pose proof (pow2_pos c H). unfold capacity_ok.
  rewrite (pow2_land c c H), Z_mod_same_full. ztest; done || lia.
Qed.

(** ** The interface *)
Class RingArray (T A : Type) := {
  ra_new : Z → A;
  ra_capacity : A → Z;
  ra_store : A → Z → option T → A;
  ra_load : A → Z → option T;
}.

Class RingArrayLaws (T A : Type) `{RingArray T A} := {
  ra_wf : A → Prop;
  ra_wf_pow2 a : ra_wf a → pow2 (ra_capacity a);
  ra_new_wf c : pow2 c → ra_wf (ra_new c);
  ra_new_capacity c : ra_capacity (ra_new c) = c;
  ra_store_wf a i v : ra_wf a → ra_wf (ra_store a i v);
  ra_store_capacity a i v : ra_capacity (ra_store a i v) = ra_capacity a;
  ra_load_store a i j v : ra_wf a →
    ra_load (ra_store a i v) j =
      if decide (i `mod` ra_capacity a = j `mod` ra_capacity a) then v else ra_load a j;
}.

(** Two indices less than a capacity apart never share a slot. *)
Lemma mod_window_inj c i j : 0 < c → i < j < i + c → i `mod` c ≠ j `mod` c.
Proof.
  intros Hc Hij E.
  pose proof (Z.div_mod i c ltac:(lia)). pose proof (Z.div_mod j c ltac:(lia)).
  assert (j `div` c = i `div` c ∨ j `div` c >= i `div` c + 1 ∨ j `div` c <= i `div` c - 1)
    as [?|[?|?]] by lia; nia.
Qed.

Section resize.
Context {T A : Type} `{RingArray T A}.

(** [for (i = t; i != b; ++i) ptr->store(i, load(i))], with fuel; [None] is a
    loop that is still running when the fuel is spent. *)
Fixpoint resize_loop (fuel : nat) (src : A) (b i : Z) (ptr : A) : option A :=
  if i =? b then Some ptr
  else match fuel with
       | O => None
       | S fuel' => resize_loop fuel' src b (i + 1) (ra_store ptr i (ra_load src i))
       end.

(** [new Array{2 * C}] and the copy of the live indices [t, b). *)
Definition ra_resize (a : A) (b t : Z) : option A :=
  resize_loop (Z.to_nat (b - t)) a b t (ra_new (2 * ra_capacity a)).

Context `{!RingArrayLaws T A}.

Lemma ra_load_store_eq a i v : ra_wf a → ra_load (ra_store a i v) i = v.
Proof. intros. rewrite ra_load_store by done. by rewrite decide_True. Qed.

Lemma ra_load_store_ne a i j v :
  ra_wf a → i < j < i + ra_capacity a ∨ j < i < j + ra_capacity a →
  ra_load (ra_store a i v) j = ra_load a j.
Proof.
  intros Hwf Hij. rewrite ra_load_store by done. rewrite decide_False; [done|].
  pose proof (pow2_pos _ (ra_wf_pow2 a Hwf)).
  destruct Hij; [by apply mod_window_inj|].
  intros E. symmetry in E. revert E. by apply mod_window_inj.
Qed.

Lemma resize_loop_spec src b n : ∀ i ptr,
  ra_wf ptr → b - i = Z.of_nat n → b - i <= ra_capacity ptr →
  ∃ a', resize_loop n src b i ptr = Some a' ∧ ra_wf a' ∧
    ra_capacity a' = ra_capacity ptr ∧
    (∀ j, i <= j < b → ra_load a' j = ra_load src j) ∧
    (∀ j, j < i → b - j <= ra_capacity ptr → ra_load a' j = ra_load ptr j).
Proof.
  induction n as [|n IH]; intros i ptr Hwf Hn Hcap; simpl.
  - rewrite (proj2 (Z.eqb_eq i b)) by lia. exists ptr. split_and!; try done; lia.
  - rewrite (proj2 (Z.eqb_neq i b)) by lia.
    destruct (IH (i + 1) (ra_store ptr i (ra_load src i))) as (a' & E & Hw & Hc & Hin & Hout).
    { by apply ra_store_wf. } { lia. } { rewrite ra_store_capacity. lia. }
    rewrite ra_store_capacity in Hc, Hout.
    exists a'. split_and!; try done.
    + intros j Hj. destruct (decide (j = i)) as [->|].
      * rewrite Hout by lia. by apply ra_load_store_eq.
      * apply Hin. lia.
    + intros j Hj Hb. rewrite Hout by lia. apply ra_load_store_ne; [done|]. lia.
Qed.

(** Growing terminates, doubles the capacity and keeps every live index. *)
Lemma ra_resize_spec a b t :
  ra_wf a → t <= b → b - t <= 2 * ra_capacity a →
  ∃ a', ra_resize a b t = Some a' ∧ ra_wf a' ∧ ra_capacity a' = 2 * ra_capacity a ∧
    (∀ j, t <= j < b → ra_load a' j = ra_load a j).
Proof.
  intros Hwf Htb Hcap. unfold ra_resize.
  pose proof (ra_new_wf (T:=T) (A:=A) _ (pow2_double _ (ra_wf_pow2 a Hwf))) as Hnew.
  destruct (resize_loop_spec a b (Z.to_nat (b - t)) t _ Hnew) as (a' & E & Hw & Hc & Hin & _).
  { lia. } { rewrite ra_new_capacity. lia. }
  exists a'. rewrite ra_new_capacity in Hc. done.
Qed.
End resize.

(** ** include/ar/array.hpp *)
Module AtomicArray.
Record t (T : Type) := mk {
  C : Z;
  M : Z;
  U : Z;
  S : list (option T);
}.
Arguments mk {T}. Arguments C {T}. Arguments M {T}. Arguments U {T}. Arguments S {T}.

Section ops.
Context {T : Type}.

Definition make (c : Z) : t T := mk c (c - 1) 0 (replicate (Z.to_nat c) None).

Definition capacity (a : t T) : Z := C a.

Definition size (a : t T) : Z := U a.

Definition store (a : t T) (i : Z) (o : option T) : t T :=
  mk (C a) (M a) (u64 (U a + 1)) (<[Z.to_nat (i .& M a) := o]> (S a)).

Definition load (a : t T) (i : Z) : option T :=
  mjoin (S a !! Z.to_nat (i .& M a)).

#[global] Instance ring : RingArray T (t T) := {|
  ra_new := make; ra_capacity := capacity; ra_store := store; ra_load := load
|}.

Definition resize (a : t T) (b t : Z) : option (AtomicArray.t T) := ra_resize a b t.

Definition wf (a : t T) : Prop :=
  pow2 (C a) ∧ M a = C a - 1 ∧ length (S a) = Z.to_nat (C a).

(** Every access [S[i & M]] is inside the allocation. *)
Lemma slot_in_range a i : wf a → 0 <= i .& M a < C a.
Proof.
  intros (Hp & -> & _). rewrite pow2_land by done.
  apply Z.mod_pos_bound. by apply pow2_pos.
Qed.

#[global] Program Instance ring_laws : RingArrayLaws T (t T) := {| ra_wf := wf |}.
Next Obligation. intros a (H & _). exact H. Qed.
Next Obligation.
  intros c H. split_and!; [done..|]. simpl. by rewrite length_replicate.
Qed.
Next Obligation. done. Qed.
Next Obligation.
  intros a i v (H & HM & HS). split_and!; [done..|]. simpl. by rewrite length_insert.
Qed.
Next Obligation. done. Qed.
Next Obligation.
  intros a i j v Hwf. cbn. unfold load, store, capacity. simpl.
  pose proof (slot_in_range a i Hwf) as Hi. pose proof (slot_in_range a j Hwf) as Hj.
  destruct Hwf as (Hp & HM & HS).
  rewrite HM, !(pow2_land _ _ Hp) in *. case_decide as E.
  - rewrite E. rewrite list_lookup_insert_eq; [done|]. rewrite HS. lia.
  - rewrite list_lookup_insert_ne; [done|]. lia.
Qed.
End ops.
End AtomicArray.

(** ** TaskQueue::Array of include/ar/task_queue.hpp *)
Module TaskArray.
Record t (T : Type) := mk {
  C : Z;
  M : Z;
  S : list (option T);
}.
Arguments mk {T}. Arguments C {T}. Arguments M {T}. Arguments S {T}.

Section ops.
Context {T : Type}.

Definition make (c : Z) : t T := mk c (c - 1) (replicate (Z.to_nat c) None).

Definition capacity (a : t T) : Z := C a.

Definition push (a : t T) (i : Z) (o : option T) : t T :=
  mk (C a) (M a) (<[Z.to_nat (i .& M a) := o]> (S a)).

Definition pop (a : t T) (i : Z) : option T := mjoin (S a !! Z.to_nat (i .& M a)).

#[global] Instance ring : RingArray T (t T) := {|
  ra_new := make; ra_capacity := capacity; ra_store := push; ra_load := pop
|}.

Definition resize (a : t T) (b t : Z) : option (TaskArray.t T) := ra_resize a b t.

Definition wf (a : t T) : Prop :=
  pow2 (C a) ∧ M a = C a - 1 ∧ length (S a) = Z.to_nat (C a).

Lemma slot_in_bounds a i : wf a → 0 <= i .& M a < C a.
Proof.
  intros (Hp & -> & _). rewrite pow2_land by done.
  apply Z.mod_pos_bound. by apply pow2_pos.
Qed.

#[global] Program Instance ring_laws : RingArrayLaws T (t T) := {| ra_wf := wf |}.
Next Obligation. intros a (H & _). exact H. Qed.
Next Obligation.
  intros c H. split_and!; [done..|]. simpl. by rewrite length_replicate.
Qed.
Next Obligation. done. Qed.
Next Obligation.
  intros a i v (H & HM & HS). split_and!; [done..|]. simpl. by rewrite length_insert.
Qed.
Next Obligation. done. Qed.
Next Obligation.
  intros a i j v Hwf. cbn. unfold pop, push, capacity. simpl.
  pose proof (slot_in_bounds a i Hwf) as Hi. pose proof (slot_in_bounds a j Hwf) as Hj.
  destruct Hwf as (Hp & HM & HS).
  rewrite HM, !(pow2_land _ _ Hp) in *. case_decide as E.
  - rewrite E. rewrite list_lookup_insert_eq; [done|]. rewrite HS. lia.
  - rewrite list_lookup_insert_ne; [done|]. lia.
Qed.
End ops.
End TaskArray.
