(* ===== verification/WorkStealQueue.v ===== *)
(** * The work-stealing queues, run by one thread at a time

    [WorkStealQueue] is include/ar/work_steal_queue.hpp and [TaskQueue]
    include/ar/task_queue.hpp.  The operations here execute without
    interference; WorkStealConcurrent.v interleaves their atomic accesses.
    The indices are [int64_t] in the source; they are unbounded here and
    WorkStealConcurrent.v bounds them by the number of pushes.

    The reference definition is a list: oldest item first, [push] appends,
    [pop] takes the last item and [steal] the first. *)
From S2P Require Import Prelude RingArray.

(** [atomic::compare_exchange_strong]: whether it succeeded, and the value of
    the atomic afterwards. *)
Definition compare_exchange (cur expected desired : Z) : bool * Z :=
  if cur =? expected then (true, desired) else (false, cur).

(** ** The items of the live index range *)
Section holds.
Context {T A : Type} `{RingArrayLaws T A}.

(** Array [a] stores the items [l] at the indices [lo], [lo + 1], ... *)
Definition holds (a : A) (lo : Z) (l : list T) : Prop :=
  ∀ (k : nat) x, l !! k = Some x → ra_load a (lo + k) = Some x.

Lemma holds_nil a lo : holds a lo [].
Proof. intros k x Hk. by rewrite lookup_nil in Hk. Qed.

Lemma holds_head a lo x l : holds a lo (x :: l) → ra_load a lo = Some x.
Proof. intros Hh. rewrite <- (Hh O x) by done. f_equal. lia. Qed.

Lemma holds_tail a lo x l : holds a lo (x :: l) → holds a (lo + 1) l.
Proof.
  intros Hh k y Hk. rewrite <- (Hh (S k) y) by done. f_equal. lia.
Qed.

Lemma holds_snoc a lo l x :
  holds a lo (l ++ [x]) ↔ holds a lo l ∧ ra_load a (lo + length l) = Some x.
Proof.
  split.
  - intros Hh. split.
    + intros k y Hk. apply Hh. by apply lookup_app_l_Some.
    + apply Hh. by rewrite lookup_snoc_Some; right.
  - intros [Hh Hx] k y Hk.
    apply lookup_snoc_Some in Hk as [[? Hk]|[-> ->]]; [by apply Hh|done].
Qed.

(** A store at the first free index keeps the items and adds one. *)
Lemma holds_push a lo l x :
  ra_wf a → length l < ra_capacity a → holds a lo l →
  holds (ra_store a (lo + length l) (Some x)) lo (l ++ [x]).
Proof.
  intros Hwf Hlen Hh. apply holds_snoc. split; [|by apply ra_load_store_eq].
  intros k y Hk. pose proof (lookup_lt_Some _ _ _ Hk).
  rewrite ra_load_store_ne by (done || lia). by apply Hh.
Qed.

Lemma holds_resize a a' lo l b t :
  (∀ j, t <= j < b → ra_load a' j = ra_load a j) →
  t <= lo → lo + length l <= b → holds a lo l → holds a' lo l.
Proof.
  intros Hcp Ht Hb Hh k x Hk. pose proof (lookup_lt_Some _ _ _ Hk).
  rewrite Hcp by lia. by apply Hh.
Qed.

(** The items are determined by the array and the range. *)
Lemma holds_contents a lo l :
  holds a lo l → omap (ra_load a) (seqZ lo (length l)) = l.
Proof.
  revert lo. induction l as [|x l IH]; intros lo Hh; [done|].
  rewrite length_cons, seqZ_cons by lia. cbn [omap list_omap].
  rewrite (holds_head _ _ _ _ Hh). f_equal.
  replace (Z.pred (S (length l))) with (Z.of_nat (length l)) by lia.
  apply IH. replace (Z.succ lo) with (lo + 1) by lia. by eapply holds_tail.
Qed.
End holds.

(** ** WorkStealQueue *)
Module WorkStealQueue.
Record t (A : Type) := mk {
  _top : Z;
  _bottom : Z;
  _array : A;
  _garbage : list A;
}.
Arguments mk {A}. Arguments _top {A}. Arguments _bottom {A}.
Arguments _array {A}. Arguments _garbage {A}.

Section ops.
Context {T A : Type} `{RingArray T A}.

(** The constructor; [None] is the failed [assert] on the capacity. *)
Definition make (c : Z) : option (t A) :=
  if capacity_ok c then Some (mk 0 0 (ra_new c) []) else None.

Definition empty (q : t A) : bool :=
  let b := _bottom q in
  let t := _top q in
  b <=? t.

Definition size (q : t A) : Z :=
  let b := _bottom q in
  let t := _top q in
  u64 (if t <=? b then b - t else 0).

Definition capacity (q : t A) : Z := ra_capacity (_array q).

(** [None] is a call that does not return (a resize loop that never meets
    its bound). *)
Definition push (q : t A) (o : T) : option (t A) :=
  let b := _bottom q in
  let t := _top q in
  let a := _array q in
  if ra_capacity a - 1 <? b - t then
    tmp ← ra_resize a b t;
    Some (mk t (b + 1) (ra_store tmp b (Some o)) (_garbage q ++ [a]))
  else
    Some (mk t (b + 1) (ra_store a b (Some o)) (_garbage q)).

Definition pop (q : t A) : option T * t A :=
  let b := _bottom q - 1 in
  let a := _array q in
  let t := _top q in
  if t <=? b then
    let item := ra_load a b in
    if t =? b then
      let '(ok, t') := compare_exchange (_top q) t (t + 1) in
      (if ok then item else None, mk t' (b + 1) a (_garbage q))
    else (item, mk t b a (_garbage q))
  else (None, mk t (b + 1) a (_garbage q)).

Definition steal (q : t A) : option T * t A :=
  let t := _top q in
  let b := _bottom q in
  if t <? b then
    let a := _array q in
    let item := ra_load a t in
    let '(ok, t') := compare_exchange (_top q) t (t + 1) in
    (if ok then item else None, mk t' b a (_garbage q))
  else (None, q).

(** *** Representation *)
Definition contents (q : t A) : list T :=
  omap (ra_load (_array q)) (seqZ (_top q) (_bottom q - _top q)).

Context `{!RingArrayLaws T A}.

(** Queue [q] holds the items [l], oldest first. *)
Definition repr (q : t A) (l : list T) : Prop :=
  ra_wf (_array q) ∧ 0 <= _top q ∧ _bottom q = _top q + length l ∧
  length l <= ra_capacity (_array q) ∧ holds (_array q) (_top q) l.

Lemma repr_contents q l : repr q l → contents q = l.
Proof.
  intros (_ & _ & Hb & _ & Hh). unfold contents.
  replace (_bottom q - _top q) with (Z.of_nat (length l)) by lia.
  by apply holds_contents.
Qed.

Lemma make_repr c : pow2 c → ∃ q, make c = Some q ∧ repr q [] ∧ capacity q = c.
Proof.
  intros Hc. unfold make. rewrite capacity_ok_pow2 by done.
  eexists. split; [done|]. unfold repr, capacity. simpl.
  rewrite ra_new_capacity. pose proof (pow2_pos c Hc).
  split_and!; try done; try lia. by apply ra_new_wf.
Qed.

Lemma push_repr q l o : repr q l → ∃ q', push q o = Some q' ∧ repr q' (l ++ [o]).
Proof.
  intros (Hwf & Ht & Hb & Hcap & Hh). unfold push.
  pose proof (pow2_pos _ (ra_wf_pow2 _ Hwf)).
  replace (_bottom q - _top q) with (Z.of_nat (length l)) by lia.
  destruct (Z.ltb_spec (ra_capacity (_array q) - 1) (length l)) as [Hfull|Hroom].
  - destruct (ra_resize_spec (_array q) (_bottom q) (_top q))
      as (a' & -> & Hwf' & Hc' & Hcp); [done|lia|lia|].
    eexists. split; [done|]. unfold repr. cbn.
    rewrite ra_store_capacity, length_app. cbn [length].
    split_and!; try lia; [by apply ra_store_wf|].
    rewrite Hb. apply holds_push; [done|lia|]. rewrite Hb in Hcp.
    eapply holds_resize; [exact Hcp|lia|lia|done].
  - eexists. split; [done|]. unfold repr. cbn.
    rewrite ra_store_capacity, length_app. cbn [length].
    split_and!; try lia; [by apply ra_store_wf|].
    rewrite Hb. by apply holds_push; [|lia|].
Qed.

Lemma pop_repr_nil q : repr q [] → pop q = (None, q).
Proof.
  intros (_ & _ & Hb & _). unfold pop. cbn in Hb.
  ztest; try lia. destruct q; simpl in *. do 2 f_equal; lia.
Qed.

Lemma pop_repr_snoc q l x :
  repr q (l ++ [x]) → ∃ q', pop q = (Some x, q') ∧ repr q' l.
Proof.
  intros (Hwf & Ht & Hb & Hcap & [Hh Hx]%holds_snoc).
  rewrite length_app in Hb, Hcap. cbn in Hb, Hcap.
  unfold pop, compare_exchange. rewrite Z.eqb_refl.
  replace (_bottom q - 1) with (_top q + length l) by lia. rewrite Hx.
  ztest; try lia; (eexists; split; [done|]); unfold repr; cbn; split_and!; try done; try lia.
  assert (l = []) as -> by (apply length_zero_iff_nil; lia). apply holds_nil.
Qed.

Lemma steal_repr_nil q : repr q [] → steal q = (None, q).
Proof. intros (_ & _ & Hb & _). unfold steal. cbn in Hb. ztest; [lia|done]. Qed.

Lemma steal_repr_cons q x l :
  repr q (x :: l) → ∃ q', steal q = (Some x, q') ∧ repr q' l.
Proof.
  intros (Hwf & Ht & Hb & Hcap & Hh). rewrite length_cons in *.
  unfold steal, compare_exchange. rewrite Z.eqb_refl, (holds_head _ _ _ _ Hh).
  ztest; [|lia]. eexists; split; [done|]. unfold repr; cbn. split_and!; try done; try lia.
  by eapply holds_tail.
Qed.

Lemma empty_repr q l : repr q l → empty q = bool_decide (l = []).
Proof.
  intros (_ & _ & Hb & _). unfold empty. destruct l; cbn in *; ztest; try done; lia.
Qed.

Lemma size_repr q l : repr q l → length l < 2 ^ 64 → size q = length l.
Proof.
  intros (_ & _ & Hb & _) Hl. unfold size. ztest; [|lia].
  rewrite uwrap_small by lia. lia.
Qed.
End ops.

(** *** Refinement to the list, for any sequence of calls *)
Section refinement.
Context {T A : Type} `{RingArrayLaws T A}.

Inductive op := Push (o : T) | Pop | Steal | Empty.

Inductive result := RUnit | RItem (o : option T) | RBool (b : bool).

Definition exec (q : t A) (c : op) : option (result * t A) :=
  match c with
  | Push o => q' ← push q o; Some (RUnit, q')
  | Pop => let '(r, q') := pop q in Some (RItem r, q')
  | Steal => let '(r, q') := steal q in Some (RItem r, q')
  | Empty => Some (RBool (empty q), q)
  end.

(** The calls on the list. *)
Definition spec_exec (l : list T) (c : op) : result * list T :=
  match c with
  | Push o => (RUnit, l ++ [o])
  | Pop => (RItem (last l), removelast l)
  | Steal => (RItem (head l), tail l)
  | Empty => (RBool (bool_decide (l = [])), l)
  end.

Fixpoint run (q : t A) (cs : list op) : option (list result * t A) :=
  match cs with
  | [] => Some ([], q)
  | c :: cs =>
      '(r, q') ← exec q c;
      '(rs, q'') ← run q' cs;
      Some (r :: rs, q'')
  end.

Fixpoint spec_run (l : list T) (cs : list op) : list result * list T :=
  match cs with
  | [] => ([], l)
  | c :: cs =>
      let '(r, l') := spec_exec l c in
      let '(rs, l'') := spec_run l' cs in
      (r :: rs, l'')
  end.

Lemma exec_refines q l c : repr q l →
  ∃ q', exec q c = Some ((spec_exec l c).1, q') ∧ repr q' (spec_exec l c).2.
Proof.
  intros Hr. destruct c as [o| | |]; simpl.
  - destruct (push_repr q l o Hr) as (q' & -> & ?). by exists q'.
  - destruct l as [|x l _] using rev_ind.
    + rewrite pop_repr_nil by done. by exists q.
    + destruct (pop_repr_snoc q l x Hr) as (q' & -> & ?). exists q'.
      by rewrite last_snoc, removelast_last.
  - destruct l as [|x l].
    + rewrite steal_repr_nil by done. by exists q.
    + destruct (steal_repr_cons q x l Hr) as (q' & -> & ?). by exists q'.
  - rewrite (empty_repr q l Hr). by exists q.
Qed.

Lemma run_refines cs : ∀ q l, repr q l →
  ∃ q', run q cs = Some ((spec_run l cs).1, q') ∧ repr q' (spec_run l cs).2.
Proof.
  induction cs as [|c cs IH]; intros q l Hr; simpl; [by exists q|].
  destruct (exec_refines q l c Hr) as (q1 & -> & Hr1). simpl.
  destruct (spec_exec l c) as [r l1]. simpl in *.
  destruct (IH q1 l1 Hr1) as (q2 & -> & Hr2). simpl.
  destruct (spec_run l1 cs) as [rs l2]. simpl in *. by exists q2.
Qed.
End refinement.
Arguments op : clear implicits.
Arguments result : clear implicits.
End WorkStealQueue.

(** ** TaskQueue: one deque per priority *)
Module TaskQueue.
Abbreviation deque T := (WorkStealQueue.t (TaskArray.t T)).

Record t (T : Type) := mk { queues : list (deque T) }.
Arguments mk {T}. Arguments queues {T}.

Section ops.
Context {T : Type}.

(** The constructor with [TF_MAX_PRIORITY = n]. *)
Definition make (n : nat) (c : Z) : option (t T) :=
  if capacity_ok c
  then Some (mk (replicate n (WorkStealQueue.mk 0 0 (TaskArray.make c) [])))
  else None.

Definition empty_at (q : t T) (p : nat) : option bool :=
  WorkStealQueue.empty <$> queues q !! p.

(** [for (i = 0; i < TF_MAX_PRIORITY; i++) if (!empty(i)) return false;] *)
Definition empty (q : t T) : bool := forallb WorkStealQueue.empty (queues q).

Definition size_at (q : t T) (p : nat) : option Z :=
  WorkStealQueue.size <$> queues q !! p.

(** [s = i ? size(i) + s : size(i)] in [size_t]. *)
Definition size (q : t T) : Z :=
  foldl (λ s d, u64 (WorkStealQueue.size d + s)) 0 (queues q).

Definition capacity_at (q : t T) (p : nat) : option Z :=
  WorkStealQueue.capacity <$> queues q !! p.

Definition capacity (q : t T) : Z :=
  i64 (foldl (λ s d, u64 (WorkStealQueue.capacity d + s)) 0 (queues q)).

(** [resize_array]: the grown array becomes the current one, the old one
    is kept in [_garbage[p]]. *)
Definition resize_array (d : deque T) (a : TaskArray.t T) (b t : Z)
  : option (TaskArray.t T * list (TaskArray.t T)) :=
  tmp ← TaskArray.resize a b t;
  Some (tmp, WorkStealQueue._garbage d ++ [a]).

Definition push_deque (d : deque T) (o : T) : option (deque T) :=
  let b := WorkStealQueue._bottom d in
  let t := WorkStealQueue._top d in
  let a := WorkStealQueue._array d in
  '(a', g) ← (if TaskArray.capacity a - 1 <? b - t then resize_array d a b t
              else Some (a, WorkStealQueue._garbage d));
  Some (WorkStealQueue.mk t (b + 1) (TaskArray.push a' b (Some o)) g).

(** [push(o, p)]; [None] for a priority out of range. *)
Definition push (q : t T) (o : T) (p : nat) : option (t T) :=
  d ← queues q !! p;
  d' ← push_deque d o;
  Some (mk (<[p := d']> (queues q))).

Definition pop_at (q : t T) (p : nat) : option (option T * t T) :=
  d ← queues q !! p;
  let '(r, d') := WorkStealQueue.pop d in
  Some (r, mk (<[p := d']> (queues q))).

Definition steal_at (q : t T) (p : nat) : option (option T * t T) :=
  d ← queues q !! p;
  let '(r, d') := WorkStealQueue.steal d in
  Some (r, mk (<[p := d']> (queues q))).

(** The loop over the priorities, highest first, shared by [pop()] and
    [steal()]: stop at the first queue that gives an item. *)
Fixpoint take_first (f : deque T → option T * deque T) (ds : list (deque T))
  : option T * list (deque T) :=
  match ds with
  | [] => (None, [])
  | d :: ds =>
      let '(r, d') := f d in
      match r with
      | Some x => (Some x, d' :: ds)
      | None => let '(r', ds') := take_first f ds in (r', d' :: ds')
      end
  end.

Definition pop (q : t T) : option T * t T :=
  let '(r, ds) := take_first WorkStealQueue.pop (queues q) in (r, mk ds).

Definition steal (q : t T) : option T * t T :=
  let '(r, ds) := take_first WorkStealQueue.steal (queues q) in (r, mk ds).

(** *** Specification: a list per priority *)
Definition repr (q : t T) (ls : list (list T)) : Prop :=
  Forall2 WorkStealQueue.repr (queues q) ls.

Lemma push_deque_eq d o : push_deque d o = WorkStealQueue.push d o.
Proof.
  unfold push_deque, WorkStealQueue.push, resize_array, TaskArray.resize. simpl.
  unfold TaskArray.capacity.
  destruct (_ <? _); [|done].
  by destruct (ra_resize _ _ _).
Qed.

Lemma make_repr_tq n c : pow2 c → ∃ q, make n c = Some q ∧ repr q (replicate n []).
Proof.
  intros Hc. unfold make. rewrite capacity_ok_pow2 by done.
  eexists. split; [done|]. unfold repr. simpl. apply Forall2_replicate.
  destruct (WorkStealQueue.make_repr (T:=T) (A:=TaskArray.t T) c Hc) as (q & E & Hr & _).
  unfold WorkStealQueue.make in E. rewrite capacity_ok_pow2 in E by done. by inv_all.
Qed.

Lemma push_repr_tq q ls o p l :
  repr q ls → ls !! p = Some l →
  ∃ q', push q o p = Some q' ∧ repr q' (<[p := l ++ [o]]> ls).
Proof.
  intros Hr Hl. unfold push.
  destruct (Forall2_lookup_r _ _ _ _ _ Hr Hl) as (d & -> & Hd). simpl.
  rewrite push_deque_eq.
  destruct (WorkStealQueue.push_repr d l o Hd) as (d' & -> & Hd'). simpl.
  eexists. split; [done|]. by apply Forall2_insert.
Qed.

(** The list the two loops remove from: the first non-empty one. *)
Fixpoint first_nonempty (ls : list (list T)) : option nat :=
  match ls with
  | [] => None
  | [] :: ls => S <$> first_nonempty ls
  | (_ :: _) :: _ => Some O
  end.

(** [g] is what [f] does to a list: nothing when it is empty, an item
    otherwise. *)
Lemma take_first_repr f (out : list T → option T) (rest : list T → list T) ds ls :
  Forall2 WorkStealQueue.repr ds ls →
  (∀ d, WorkStealQueue.repr d [] → f d = (None, d)) →
  (∀ d l, WorkStealQueue.repr d l → l ≠ [] →
    is_Some (out l) ∧ ∃ d', f d = (out l, d') ∧ WorkStealQueue.repr d' (rest l)) →
  match first_nonempty ls with
  | None => (take_first f ds).1 = None ∧
      Forall2 WorkStealQueue.repr (take_first f ds).2 ls
  | Some p => ∃ l, ls !! p = Some l ∧ l ≠ [] ∧ (take_first f ds).1 = out l ∧
      Forall2 WorkStealQueue.repr (take_first f ds).2 (<[p := rest l]> ls)
  end.
Proof.
  intros Hr Hnil Hcons. induction Hr as [|d l ds ls Hd Hr IH]; simpl; [done|].
  destruct l as [|x l].
  - rewrite (Hnil d Hd). destruct (take_first f ds) as [r ds'].
    destruct (first_nonempty ls) as [p|]; simpl in *.
    + destruct IH as (l & ? & ? & ? & ?). exists l. split_and!; try done. by constructor.
    + destruct IH as [-> ?]. split; [done|by constructor].
  - destruct (Hcons d (x :: l) Hd) as ([y Hy] & d' & -> & Hd'); [done|].
    rewrite Hy. exists (x :: l). split_and!; try done. simpl. by constructor.
Qed.
Definition spec_take (out : list T → option T) (rest : list T → list T)
  (ls : list (list T)) : option T * list (list T) :=
  match first_nonempty ls with
  | None => (None, ls)
  | Some p =>
      let l := default [] (ls !! p) in (out l, <[p := rest l]> ls)
  end.

Lemma pop_repr_tq q ls : repr q ls →
  (pop q).1 = (spec_take last (@removelast T) ls).1 ∧
  repr (pop q).2 (spec_take last (@removelast T) ls).2.
Proof.
  intros Hr. unfold pop, spec_take.
  pose proof (take_first_repr WorkStealQueue.pop last (@removelast T) _ _ Hr
    (WorkStealQueue.pop_repr_nil)) as Hp.
  destruct (take_first _ _) as [r ds]. simpl in *.
  destruct (first_nonempty ls) as [p|]; [|apply Hp].
  1: destruct Hp as (l & -> & _ & -> & ?); [|done].
  all: intros d l Hd Hl; destruct l as [|x l _] using rev_ind; [done|];
    rewrite last_snoc, removelast_last; split; [done|];
    by apply WorkStealQueue.pop_repr_snoc.
Qed.

Lemma steal_repr_tq q ls : repr q ls →
  (steal q).1 = (spec_take head (@tail T) ls).1 ∧
  repr (steal q).2 (spec_take head (@tail T) ls).2.
Proof.
  intros Hr. unfold steal, spec_take.
  pose proof (take_first_repr WorkStealQueue.steal head (@tail T) _ _ Hr
    (WorkStealQueue.steal_repr_nil)) as Hp.
  destruct (take_first _ _) as [r ds]. simpl in *.
  destruct (first_nonempty ls) as [p|]; [|apply Hp].
  1: destruct Hp as (l & -> & _ & -> & ?); [|done].
  all: intros d [|x l] Hd Hl; [done|]; split; [done|];
    by apply WorkStealQueue.steal_repr_cons.
Qed.

Lemma empty_repr_tq q ls : repr q ls → empty q = bool_decide (first_nonempty ls = None).
Proof.
  unfold empty, repr. intros Hr. induction Hr as [|d l ds ls Hd Hr IH]; [done|].
  simpl. rewrite (WorkStealQueue.empty_repr _ _ Hd), IH.
  destruct l; simpl; [|done]. by destruct (first_nonempty ls).
Qed.

(** *** Any sequence of calls *)
Inductive op := Push (o : T) (p : nat) | Pop | Steal | Empty.

Inductive result := RUnit | RItem (o : option T) | RBool (b : bool).

Definition exec (q : t T) (c : op) : option (result * t T) :=
  match c with
  | Push o p => q' ← push q o p; Some (RUnit, q')
  | Pop => let '(r, q') := pop q in Some (RItem r, q')
  | Steal => let '(r, q') := steal q in Some (RItem r, q')
  | Empty => Some (RBool (empty q), q)
  end.

Definition spec_exec (ls : list (list T)) (c : op) : result * list (list T) :=
  match c with
  | Push o p => (RUnit, <[p := default [] (ls !! p) ++ [o]]> ls)
  | Pop => let '(r, ls') := spec_take last (@removelast T) ls in (RItem r, ls')
  | Steal => let '(r, ls') := spec_take head (@tail T) ls in (RItem r, ls')
  | Empty => (RBool (bool_decide (first_nonempty ls = None)), ls)
  end.

Fixpoint run (q : t T) (cs : list op) : option (list result * t T) :=
  match cs with
  | [] => Some ([], q)
  | c :: cs =>
      '(r, q') ← exec q c;
      '(rs, q'') ← run q' cs;
      Some (r :: rs, q'')
  end.

Fixpoint spec_run (ls : list (list T)) (cs : list op) : list result * list (list T) :=
  match cs with
  | [] => ([], ls)
  | c :: cs =>
      let '(r, ls') := spec_exec ls c in
      let '(rs, ls'') := spec_run ls' cs in
      (r :: rs, ls'')
  end.

(** The priority of every push is in range. *)
Definition op_ok (n : nat) (c : op) : Prop :=
  match c with Push _ p => (p < n)%nat | _ => True end.

Lemma spec_exec_length ls c : length (spec_exec ls c).2 = length ls.
Proof.
  destruct c; simpl; rewrite ?length_insert; try done;
    unfold spec_take; destruct (first_nonempty ls); simpl; by rewrite ?length_insert.
Qed.

Lemma exec_refines_tq q ls c : repr q ls → op_ok (length ls) c →
  ∃ q', exec q c = Some ((spec_exec ls c).1, q') ∧ repr q' (spec_exec ls c).2.
Proof.
  intros Hr Hc. destruct c as [o p| | |]; simpl in *.
  - destruct (lookup_lt_is_Some_2 ls p Hc) as [l Hl]. rewrite Hl. simpl.
    destruct (push_repr_tq q ls o p l Hr Hl) as (q' & -> & ?). by exists q'.
  - destruct (pop_repr_tq q ls Hr). destruct (pop q) as [r q'].
    destruct (spec_take _ _ _). simpl in *. subst. by exists q'.
  - destruct (steal_repr_tq q ls Hr). destruct (steal q) as [r q'].
    destruct (spec_take _ _ _). simpl in *. subst. by exists q'.
  - rewrite (empty_repr_tq q ls Hr). by exists q.
Qed.

Lemma run_refines_tq cs : ∀ q ls, repr q ls → Forall (op_ok (length ls)) cs →
  ∃ q', run q cs = Some ((spec_run ls cs).1, q') ∧ repr q' (spec_run ls cs).2.
Proof.
  induction cs as [|c cs IH]; intros q ls Hr Hok; simpl; [by exists q|].
  apply Forall_cons in Hok as [Hc Hcs].
  destruct (exec_refines_tq q ls c Hr Hc) as (q1 & -> & Hr1). simpl.
  pose proof (spec_exec_length ls c) as Hlen.
  destruct (spec_exec ls c) as [r ls1]. simpl in *. rewrite <- Hlen in Hcs.
  destruct (IH q1 ls1 Hr1 Hcs) as (q2 & -> & Hr2). simpl.
  destruct (spec_run ls1 cs) as [rs l2]. simpl in *. by exists q2.
Qed.
End ops.
Arguments op : clear implicits.
Arguments result : clear implicits.
End TaskQueue.

(** ** Properties *)

(** C12: for every sequence of [push], [pop], [steal] and [empty] on a fresh
    [WorkStealQueue] whose capacity is a power of two, every call returns (the
    resize loop terminates) and gives what the calls give on a list where [push]
    appends, [pop] takes the last item and [steal] the first; the array grown on
    the way never loses or reorders an item. *)
Theorem work_steal_queue_refines_list T (c : Z) (cs : list (WorkStealQueue.op T)) :
  pow2 c →
  ∃ q0 q', WorkStealQueue.make (A := AtomicArray.t T) c = Some q0 ∧
    WorkStealQueue.run q0 cs = Some ((WorkStealQueue.spec_run [] cs).1, q') ∧
    WorkStealQueue.contents q' = (WorkStealQueue.spec_run [] cs).2.
Proof.
  intros Hc. destruct (WorkStealQueue.make_repr (A := AtomicArray.t T) c Hc) as (q0 & E & Hr & _).
  destruct (WorkStealQueue.run_refines cs q0 [] Hr) as (q' & ? & Hr').
  exists q0, q'. split_and!; [done..|]. by apply WorkStealQueue.repr_contents.
Qed.

Example work_steal_queue_refines_list_witness :
  pow2 2 ∧ ∃ q0 q', WorkStealQueue.make (A := AtomicArray.t nat) 2 = Some q0 ∧
    WorkStealQueue.run q0
      [WorkStealQueue.Push 1%nat; WorkStealQueue.Push 2%nat; WorkStealQueue.Push 3%nat;
       WorkStealQueue.Steal; WorkStealQueue.Pop] =
      Some ([WorkStealQueue.RUnit; WorkStealQueue.RUnit; WorkStealQueue.RUnit;
        WorkStealQueue.RItem (Some 1%nat); WorkStealQueue.RItem (Some 3%nat)], q') ∧
    WorkStealQueue.contents q' = [2%nat].
Proof.
  assert (H : pow2 2) by (exists 1; split; [lia|reflexivity]).
  split; [exact H|].
  exact (work_steal_queue_refines_list nat 2
    [WorkStealQueue.Push 1%nat; WorkStealQueue.Push 2%nat; WorkStealQueue.Push 3%nat;
     WorkStealQueue.Steal; WorkStealQueue.Pop] H).
Defined.

(** C16: a [TaskQueue] with [n] priorities behaves, for every sequence of calls
    with priorities in range, as a list per priority: [push] appends to the list
    of its priority, [pop] takes the last and [steal] the first item of the
    non-empty list with the smallest priority number, and both give [nullptr]
    only when every list is empty. *)
Theorem task_queue_refines_priority_lists T (n : nat) (c : Z) (cs : list (TaskQueue.op T)) :
  pow2 c → Forall (TaskQueue.op_ok n) cs →
  ∃ q0 q', TaskQueue.make n c = Some q0 ∧
    TaskQueue.run q0 cs = Some ((TaskQueue.spec_run (replicate n []) cs).1, q') ∧
    WorkStealQueue.contents <$> TaskQueue.queues q' =
      (TaskQueue.spec_run (replicate n []) cs).2.
Proof.
  intros Hc Hok. destruct (TaskQueue.make_repr_tq (T := T) n c Hc) as (q0 & E & Hr).
  destruct (TaskQueue.run_refines_tq cs q0 _ Hr) as (q' & ? & Hr').
  { by rewrite length_replicate. }
  exists q0, q'. split_and!; [done..|].
  unfold TaskQueue.repr in Hr'. induction Hr' as [|d l ds ls Hd _ IH]; [done|].
  cbn. f_equal; [by apply WorkStealQueue.repr_contents|done].
Qed.

Example task_queue_refines_priority_lists_witness :
  pow2 2 ∧ ∃ q0 q', TaskQueue.make 3 2 = Some q0 ∧
    TaskQueue.run q0
      [TaskQueue.Push 1%nat 1; TaskQueue.Push 2%nat 0; TaskQueue.Push 3%nat 1;
       TaskQueue.Pop; TaskQueue.Pop; TaskQueue.Steal; TaskQueue.Empty] =
      Some ([TaskQueue.RUnit; TaskQueue.RUnit; TaskQueue.RUnit;
        TaskQueue.RItem (Some 2%nat); TaskQueue.RItem (Some 3%nat);
        TaskQueue.RItem (Some 1%nat); TaskQueue.RBool true], q') ∧
    WorkStealQueue.contents <$> TaskQueue.queues q' = [[]; []; []].
Proof.
  assert (H : pow2 2) by (exists 1; split; [lia|reflexivity]).
  split; [exact H|].
  refine (task_queue_refines_priority_lists nat 3 2
    [TaskQueue.Push 1%nat 1; TaskQueue.Push 2%nat 0; TaskQueue.Push 3%nat 1;
     TaskQueue.Pop; TaskQueue.Pop; TaskQueue.Steal; TaskQueue.Empty] H _).
  repeat constructor.
Defined.
