(* ===== verification/WorkStealConcurrent.v ===== *)
(** * The work-stealing queue under concurrent access

    The operations of include/ar/task_queue.hpp (and of
    include/ar/work_steal_queue.hpp, the same algorithm) split at every access
    to a shared atomic, and interleaved: one owner runs [push] and [pop], any
    number of thieves run [steal].  ExecutorSlot gives the queue a single owner
    at a time by holding a mutex around [push] and [pop].

    A step is one atomic access of one thread; the accesses are interleaved in
    one order (the fences and the [seq_cst] operations of the source are there to
    get this; weaker outcomes of the relaxed accesses are not modelled).  Filling
    the array of a resize touches no memory another thread can see before
    [_array.store], so it belongs to the step of that store.

    The arrays a queue ever allocated are kept in [arrs]: a resize pushes the old
    array to [_garbage] and does not free it, so a thief may still read it. *)
From S2P Require Import Prelude RingArray WorkStealQueue.

Module WorkStealConcurrent.
Section model.
Context {T A : Type} `{RingArray T A}.

(** Where the owner is in [push(o)] or [pop()]; the arguments are its local
    variables.  An array is named by its position in [arrs]. *)
Inductive owner_pc :=
| OIdle
| Push0 (o : T)
| Push1 (o : T) (b : Z)
| Push2 (o : T) (b t : Z)
| Push3 (o : T) (b t : Z) (a : nat)
| Push4 (o : T) (b : Z) (a : nat)
| Push5 (o : T) (b : Z)
| Pop0
| Pop1 (b : Z)
| Pop2 (b : Z) (a : nat)
| Pop3 (b : Z) (a : nat)
| Pop4 (b : Z) (a : nat) (t : Z)
| Pop5 (b t : Z) (item : option T)
| Pop6 (b : Z) (item : option T).

Inductive thief_pc :=
| TIdle
| Steal0
| Steal1 (t : Z)
| Steal2 (t b : Z)
| Steal3 (t : Z) (a : nat)
| Steal4 (t : Z) (item : option T).

Record state := mk {
  top : Z;
  bottom : Z;
  cur : nat;
  arrs : list A;
  owner : owner_pc;
  thieves : list thief_pc;
}.

(** What a step does to the abstract deque.  A pop and a steal take effect
    at the access that decides them, before the call returns. *)
Inductive event :=
| Tau
| EvPush (o : T)
| EvPop (r : option T)
| EvSteal (i : nat) (r : option T).

Definition set_owner (s : state) (pc : owner_pc) : state :=
  mk (top s) (bottom s) (cur s) (arrs s) pc (thieves s).
Definition set_thief (s : state) (i : nat) (pc : thief_pc) : state :=
  mk (top s) (bottom s) (cur s) (arrs s) (owner s) (<[i := pc]> (thieves s)).

(** One step of the owner inside a call; [None] outside a call or when the
    resize loop does not terminate. *)
Definition owner_step (s : state) : option (event * state) :=
  match owner s with
  | OIdle => None
  | Push0 o => Some (Tau, set_owner s (Push1 o (bottom s)))
  | Push1 o b => Some (Tau, set_owner s (Push2 o b (top s)))
  | Push2 o b t => Some (Tau, set_owner s (Push3 o b t (cur s)))
  | Push3 o b t a =>
      arr ← arrs s !! a;
      if ra_capacity arr - 1 <? b - t then
        arr' ← ra_resize arr b t;
        Some (Tau, mk (top s) (bottom s) (length (arrs s)) (arrs s ++ [arr'])
                      (Push4 o b (length (arrs s))) (thieves s))
      else Some (Tau, set_owner s (Push4 o b a))
  | Push4 o b a =>
      arr ← arrs s !! a;
      Some (Tau, mk (top s) (bottom s) (cur s) (<[a := ra_store arr b (Some o)]> (arrs s))
                    (Push5 o b) (thieves s))
  | Push5 o b => Some (EvPush o, mk (top s) (b + 1) (cur s) (arrs s) OIdle (thieves s))
  | Pop0 => Some (Tau, set_owner s (Pop1 (bottom s - 1)))
  | Pop1 b => Some (Tau, set_owner s (Pop2 b (cur s)))
  | Pop2 b a => Some (Tau, mk (top s) b (cur s) (arrs s) (Pop3 b a) (thieves s))
  | Pop3 b a => Some (Tau, set_owner s (Pop4 b a (top s)))
  | Pop4 b a t =>
      if t <=? b then
        arr ← arrs s !! a;
        let item := ra_load arr b in
        if t =? b then Some (Tau, set_owner s (Pop5 b t item))
        else Some (EvPop item, set_owner s OIdle)
      else Some (EvPop None, set_owner s (Pop6 b None))
  | Pop5 b t item =>
      let '(ok, top') := compare_exchange (top s) t (t + 1) in
      let item' := if ok : bool then item else None in
      Some (EvPop item', mk top' (bottom s) (cur s) (arrs s) (Pop6 b item') (thieves s))
  | Pop6 b item => Some (Tau, mk (top s) (b + 1) (cur s) (arrs s) OIdle (thieves s))
  end.

Definition thief_step (s : state) (i : nat) : option (event * state) :=
  pc ← thieves s !! i;
  match pc with
  | TIdle => None
  | Steal0 => Some (Tau, set_thief s i (Steal1 (top s)))
  | Steal1 t => Some (Tau, set_thief s i (Steal2 t (bottom s)))
  | Steal2 t b =>
      if t <? b then Some (Tau, set_thief s i (Steal3 t (cur s)))
      else Some (EvSteal i None, set_thief s i TIdle)
  | Steal3 t a =>
      arr ← arrs s !! a;
      Some (Tau, set_thief s i (Steal4 t (ra_load arr t)))
  | Steal4 t item =>
      let '(ok, top') := compare_exchange (top s) t (t + 1) in
      Some (EvSteal i (if ok : bool then item else None),
            mk top' (bottom s) (cur s) (arrs s) (owner s) (<[i := TIdle]> (thieves s)))
  end.

(** The scheduler's choices: a call begins or a thread takes a step. *)
Inductive action := CallPush (o : T) | CallPop | CallSteal (i : nat)
                  | OwnerStep | ThiefStep (i : nat).

Definition act (s : state) (x : action) : option (event * state) :=
  match x with
  | CallPush o => match owner s with OIdle => Some (Tau, set_owner s (Push0 o)) | _ => None end
  | CallPop => match owner s with OIdle => Some (Tau, set_owner s Pop0) | _ => None end
  | CallSteal i =>
      match thieves s !! i with Some TIdle => Some (Tau, set_thief s i Steal0) | _ => None end
  | OwnerStep => owner_step s
  | ThiefStep i => thief_step s i
  end.

Fixpoint exec (s : state) (xs : list action) : option (list event * state) :=
  match xs with
  | [] => Some ([], s)
  | x :: xs =>
      '(e, s') ← act s x;
      '(es, s'') ← exec s' xs;
      Some (e :: es, s'')
  end.

Definition init (c : Z) (n : nat) : state :=
  mk 0 0 0 [ra_new c] OIdle (replicate n TIdle).

(** ** The abstract deque *)
(** The end of the live range: between the decrement of [_bottom] in [pop]
    and the end of the call, the item at the new [_bottom] is still there. *)
Definition live_end (s : state) : Z :=
  match owner s with
  | Pop3 b _ | Pop4 b _ _ | Pop5 b _ _ | Pop6 b _ => b + 1
  | _ => bottom s
  end.

(** The items of the queue, oldest first. *)
Definition live (s : state) : list T :=
  match arrs s !! cur s with
  | Some a => omap (ra_load a) (seqZ (top s) (live_end s - top s))
  | None => []
  end.

(** The effect of an event on the list; [None] where the list does not
    allow it. *)
Definition deque_event (l : list T) (e : event) : option (list T) :=
  match e with
  | Tau => Some l
  | EvPush o => Some (l ++ [o])
  | EvPop None => match l with [] => Some [] | _ => None end
  | EvPop (Some _) => Some (removelast l)
  | EvSteal _ None => Some l
  | EvSteal _ (Some _) => Some (tail l)
  end.

(** The item an event reports is the one the list gives up. *)
Definition event_item_ok (l : list T) (e : event) : Prop :=
  match e with
  | EvPop (Some x) => last l = Some x
  | EvSteal _ (Some x) => head l = Some x
  | _ => True
  end.

Fixpoint deque_run (l : list T) (es : list event) (l' : list T) : Prop :=
  match es with
  | [] => l' = l
  | e :: es => ∃ l1, event_item_ok l e ∧ deque_event l e = Some l1 ∧ deque_run l1 es l'
  end.

Definition pushed_of (e : event) : list T :=
  match e with EvPush o => [o] | _ => [] end.
Definition taken_of (e : event) : list T :=
  match e with EvPop (Some x) | EvSteal _ (Some x) => [x] | _ => [] end.
End model.

Section invariant.
Context {T A : Type} `{RingArrayLaws T A}.
Implicit Types (s : state (T := T) (A := A)) (l : list T) (a : A).

(** The indices a thief may still win: once [pop] has read a [_top] below
    its index, that index is the owner's. *)
Definition steal_end s : Z :=
  match owner s with
  | Pop4 b _ t => if t <? b then b else b + 1
  | _ => live_end s
  end.

Definition owner_ok s a : Prop :=
  match owner s with
  | OIdle | Push0 _ | Pop0 => True
  | Push1 _ b => b = bottom s
  | Push2 _ b t => b = bottom s ∧ t <= top s ∧ b - t <= ra_capacity a
  | Push3 _ b t x => b = bottom s ∧ t <= top s ∧ b - t <= ra_capacity a ∧ x = cur s
  | Push4 _ b x => b = bottom s ∧ x = cur s ∧ b - top s < ra_capacity a
  | Push5 o b => b = bottom s ∧ b - top s < ra_capacity a ∧ ra_load a b = Some o
  | Pop1 b => bottom s = b + 1
  | Pop2 b x => bottom s = b + 1 ∧ x = cur s
  | Pop3 b x => bottom s = b ∧ x = cur s
  | Pop4 b x t => bottom s = b ∧ x = cur s ∧ t <= top s ∧ (t < b → top s <= b)
  | Pop5 b t item => bottom s = b ∧ t = b ∧ b <= top s ∧ (top s = b → item = ra_load a b)
  | Pop6 b _ => bottom s = b ∧ top s = b + 1
  end.

(** A thief whose [t] is the current [_top] can win only a live index, and
    holds the item of that index once it has read it. *)
Definition thief_ok s l (pc : thief_pc (T := T)) : Prop :=
  match pc with
  | TIdle | Steal0 => True
  | Steal1 t => t <= top s
  | Steal2 t b => t <= top s ∧ (t = top s → t < b → t < steal_end s)
  | Steal3 t x => t <= top s ∧ ∃ ax, arrs s !! x = Some ax ∧
      (t = top s → t < steal_end s ∧ ra_load ax t = head l)
  | Steal4 t item => t <= top s ∧ (t = top s → t < steal_end s ∧ item = head l)
  end.

Definition thieves_ok s l : Prop :=
  ∀ i pc, thieves s !! i = Some pc → thief_ok s l pc.

(** State [s] implements the deque [l]. *)
Record inv s l : Prop := mk_inv {
  inv_wf : Forall ra_wf (arrs s);
  inv_top : 0 <= top s;
  inv_end : live_end s = top s + length l;
  inv_cur : ∃ a, arrs s !! cur s = Some a ∧ length l <= ra_capacity a ∧
    holds a (top s) l ∧ owner_ok s a;
  inv_thieves : thieves_ok s l;
}.

Lemma inv_live s l : inv s l → live s = l.
Proof.
  intros [_ _ He (a & Ha & _ & Hh & _) _]. unfold live. rewrite Ha, He.
  replace (top s + length l - top s) with (Z.of_nat (length l)) by lia.
  by apply holds_contents.
Qed.

Lemma inv_cur_wf s l a : inv s l → arrs s !! cur s = Some a → ra_wf a.
Proof. intros Hi Ha. by eapply (Forall_lookup_1 _ _ _ _ (inv_wf _ _ Hi)). Qed.

Lemma head_load a lo l : holds a lo l → 0 < length l → ra_load a lo = head l.
Proof. destruct l; simpl; [lia|]. intros Hh _. by eapply holds_head. Qed.

(** A step that leaves [_top] alone and keeps the oldest item keeps what the
    thieves know. *)
Lemma thieves_keep s s' l l' :
  top s' = top s → thieves s' = thieves s →
  (top s < steal_end s → top s < steal_end s' ∧ head l' = head l) →
  (∀ x ax, arrs s !! x = Some ax → ∃ ax', arrs s' !! x = Some ax' ∧
     (top s < steal_end s → ra_load ax' (top s) = ra_load ax (top s))) →
  thieves_ok s l → thieves_ok s' l'.
Proof.
  intros Ht Hth Hse Harr Hok i pc Hpc. rewrite Hth in Hpc. specialize (Hok i pc Hpc).
  destruct pc; simpl in *; rewrite ?Ht; try done.
  - destruct Hok as [? Hok]. split; [done|]. intros -> Hb. by apply Hse, Hok.
  - destruct Hok as (? & ax & Hax & Hok). split; [done|].
    destruct (Harr _ _ Hax) as (ax' & Hax' & Hld). exists ax'. split; [done|].
    intros ->. destruct (Hok eq_refl) as [Hlt Hhd]. destruct (Hse Hlt) as [? ->].
    split; [done|]. by rewrite Hld.
  - destruct Hok as [? Hok]. split; [done|]. intros ->.
    destruct (Hok eq_refl) as [Hlt ->]. by destruct (Hse Hlt) as [? ->].
Qed.

(** After [_top] moved, every thief in flight holds a stale [t]. *)
Lemma thieves_bump s s' l l' :
  top s' = top s + 1 → arrs s' = arrs s → thieves s' = thieves s →
  thieves_ok s l → thieves_ok s' l'.
Proof.
  intros Ht Harr Hth Hok i pc Hpc. rewrite Hth in Hpc. specialize (Hok i pc Hpc).
  destruct pc; simpl in *; rewrite ?Ht, ?Harr; try done; try lia.
  destruct Hok as (? & ax & Hax & _). split; [lia|]. exists ax. split; [done|].
  intros; exfalso; lia.
Qed.

Lemma thieves_insert s l i pc :
  thieves_ok s l → thief_ok s l pc → thieves_ok (set_thief s i pc) l.
Proof.
  intros Hok Hpc j pc' Hj. simpl in Hj.
  assert (thief_ok s l pc') as Hres; [|by destruct pc'].
  apply list_lookup_insert_Some in Hj as [(-> & -> & _)|[_ Hj]]; [done|].
  by eapply Hok.
Qed.

(** What one step owes: the deque allows its event. *)
Definition simulated s l (e : event (T := T)) s' : Prop :=
  ∃ l', event_item_ok l e ∧ deque_event l e = Some l' ∧ inv s' l'.

(** A step that moves only the owner's program counter. *)
Lemma inv_set_owner s l pc :
  inv s l →
  live_end (set_owner s pc) = live_end s →
  (top s < steal_end s → top s < steal_end (set_owner s pc)) →
  (∀ a, arrs s !! cur s = Some a → ra_wf a → length l <= ra_capacity a →
    holds a (top s) l → owner_ok s a → owner_ok (set_owner s pc) a) →
  inv (set_owner s pc) l.
Proof.
  intros Hi He Hse Hok. destruct Hi as [Hwf Ht Hend (a & Ha & Hc & Hh & Ho) Hth].
  split; try done.
  - simpl in *. congruence.
  - exists a. split_and!; try done. apply Hok; try done. by eapply Forall_lookup_1.
  - eapply thieves_keep; [..|done]; try done; auto. intros x ax Hx. by exists ax.
Qed.

Lemma tau_set_owner s l pc :
  inv s l →
  live_end (set_owner s pc) = live_end s →
  (top s < steal_end s → top s < steal_end (set_owner s pc)) →
  (∀ a, arrs s !! cur s = Some a → ra_wf a → length l <= ra_capacity a →
    holds a (top s) l → owner_ok s a → owner_ok (set_owner s pc) a) →
  simulated s l Tau (set_owner s pc).
Proof. intros. exists l. split_and!; [done..|]. by apply inv_set_owner. Qed.

(** *** The steps of the owner that write shared memory *)
Section owner_writes.
Context (tp bt : Z) (c : nat) (ars : list A) (ths : list (thief_pc (T := T))).
Abbreviation st pc := (mk tp bt c ars pc ths).

Lemma push_grow_sim l o b t x arr :
  inv (st (Push3 o b t x)) l → ars !! x = Some arr →
  ra_capacity arr - 1 < b - t →
  ∃ arr', ra_resize arr b t = Some arr' ∧
    simulated (st (Push3 o b t x)) l Tau
      (mk tp bt (length ars) (ars ++ [arr']) (Push4 o b (length ars)) ths).
Proof.
  intros [Hwf Ht He (a & Ha & Hc & Hh & Ho) Hth] Hx Hfull. cbn in *.
  destruct Ho as (-> & Htt & Hbt & ->). assert (a = arr) as -> by congruence.
  assert (ra_wf arr) as Hw by (by eapply (Forall_lookup_1 _ _ _ _ Hwf)).
  pose proof (pow2_pos _ (ra_wf_pow2 _ Hw)).
  destruct (ra_resize_spec arr bt t Hw) as (a' & E & Hw' & Hc' & Hcp); [lia..|].
  exists a'. split; [done|]. exists l. split_and!; [done..|]. split; cbn; try done.
  - by apply Forall_app_2, Forall_singleton.
  - exists a'. split_and!; try lia.
    + by apply lookup_snoc_Some; right.
    + eapply holds_resize; [exact Hcp|lia|lia|done].
  - eapply thieves_keep; [..|exact Hth]; try done; cbn.
    intros y ay Hy. exists ay. split; [|done]. by apply lookup_app_l_Some.
Qed.

Lemma push_store_sim l o b x arr :
  inv (st (Push4 o b x)) l → ars !! x = Some arr →
  simulated (st (Push4 o b x)) l Tau
    (mk tp bt c (<[x := ra_store arr b (Some o)]> ars) (Push5 o b) ths).
Proof.
  intros [Hwf Ht He (a & Ha & Hc & Hh & Ho) Hth] Hx. cbn in *.
  destruct Ho as (-> & -> & Hroom). assert (a = arr) as -> by congruence.
  assert (ra_wf arr) as Hw by (by eapply (Forall_lookup_1 _ _ _ _ Hwf)).
  pose proof (lookup_lt_Some _ _ _ Hx).
  assert (ra_load (ra_store arr bt (Some o)) bt = Some o) as Hld
    by by apply ra_load_store_eq.
  assert (∀ j, tp <= j < bt → ra_load (ra_store arr bt (Some o)) j = ra_load arr j) as Hne
    by (intros; apply ra_load_store_ne; [done|lia]).
  exists l. split_and!; [done..|]. split; cbn; try done.
  - apply Forall_insert; [done|]. by apply ra_store_wf.
  - exists (ra_store arr bt (Some o)). rewrite list_lookup_insert_eq by done.
    rewrite ra_store_capacity. split_and!; try done.
    eapply holds_resize; [exact Hne|lia|lia|done].
  - eapply thieves_keep; [..|exact Hth]; try done; cbn. intros y ay Hy.
    destruct (decide (y = c)) as [->|].
    + exists (ra_store arr bt (Some o)). rewrite list_lookup_insert_eq by done.
      split; [done|]. intros. assert (ay = arr) as -> by congruence.
      apply Hne. unfold steal_end, live_end in *. cbn in *. lia.
    + exists ay. by rewrite list_lookup_insert_ne by done.
Qed.

Lemma push_publish_sim l o b :
  inv (st (Push5 o b)) l →
  simulated (st (Push5 o b)) l (EvPush o) (mk tp (b + 1) c ars OIdle ths).
Proof.
  intros [Hwf Ht He (a & Ha & Hc & Hh & Ho) Hth]. cbn in *.
  destruct Ho as (-> & Hroom & Hld).
  exists (l ++ [o]). split_and!; [done..|]. split; cbn; try done.
  - rewrite length_app. cbn. lia.
  - exists a. rewrite length_app. cbn. split_and!; try done; [lia|].
    apply holds_snoc. split; [done|]. by rewrite <- He.
  - eapply thieves_keep; [..|exact Hth]; try done; unfold steal_end, live_end in *; cbn in *.
    + intros. split; [lia|]. destruct l; [cbn in *; lia|done].
    + intros y ay Hy. by exists ay.
Qed.

Lemma pop_reserve_sim l b x :
  inv (st (Pop2 b x)) l →
  simulated (st (Pop2 b x)) l Tau (mk tp b c ars (Pop3 b x) ths).
Proof.
  intros [Hwf Ht He (a & Ha & Hc & Hh & Ho) Hth]. cbn in *. destruct Ho as (-> & ->).
  exists l. split_and!; [done..|]. split; cbn; try done. by exists a.
Qed.

Lemma pop_take_sim l b x t arr :
  inv (st (Pop4 b x t)) l → ars !! x = Some arr → t < b →
  simulated (st (Pop4 b x t)) l (EvPop (ra_load arr b)) (st OIdle).
Proof.
  intros [Hwf Ht He (a & Ha & Hc & Hh & Ho) Hth] Hx Htb. cbn in *.
  destruct Ho as (-> & -> & Htt & Htop). specialize (Htop Htb).
  assert (a = arr) as -> by congruence.
  destruct l as [|y l _] using rev_ind; [cbn in *; lia|].
  rewrite length_app in He, Hc. cbn in He, Hc.
  apply holds_snoc in Hh as [Hh Hy].
  replace (tp + length l) with b in Hy by lia. rewrite Hy.
  exists l. simpl. rewrite last_snoc, removelast_last. split_and!; [done..|].
  split; cbn; try done; [lia|..].
  - exists arr. split_and!; try done. lia.
  - eapply thieves_keep; [..|exact Hth]; try done; unfold steal_end, live_end in *; cbn in *.
    + destruct (Z.ltb_spec t b); [|lia]. intros. split; [done|].
      destruct l; [cbn in *; lia|done].
    + intros z az Hz. by exists az.
Qed.

Lemma pop_cas_sim l b t item :
  inv (st (Pop5 b t item)) l →
  let '(ok, top') := compare_exchange tp t (t + 1) in
  let item' := if ok : bool then item else None in
  simulated (st (Pop5 b t item)) l (EvPop item') (mk top' bt c ars (Pop6 b item') ths).
Proof.
  intros [Hwf Ht He (a & Ha & Hc & Hh & Ho) Hth]. cbn in *.
  destruct Ho as (-> & -> & Hbt & Hitem). unfold compare_exchange.
  destruct (Z.eqb_spec tp b) as [->|Hne].
  - rewrite (Hitem eq_refl). destruct l as [|y [|? ?]]; cbn in He; try lia.
    rewrite (holds_head _ _ _ _ Hh). exists []. cbn. split_and!; [done..|].
    split; cbn; try done; try lia.
    + exists a. split_and!; try done. cbn in *. lia.
    + by eapply thieves_bump; [..|exact Hth].
  - assert (l = []) as -> by (apply length_zero_iff_nil; lia).
    exists []. split_and!; [done..|]. split; cbn; try done.
    exists a. cbn in He. split_and!; try done; lia.
Qed.

Lemma pop_restore_sim l b item :
  inv (st (Pop6 b item)) l →
  simulated (st (Pop6 b item)) l Tau (mk tp (b + 1) c ars OIdle ths).
Proof.
  intros [Hwf Ht He (a & Ha & Hc & Hh & Ho) Hth]. cbn in *. destruct Ho as (-> & ->).
  exists l. split_and!; [done..|]. split; cbn; try done. by exists a.
Qed.
End owner_writes.

(** *** Every step is allowed by the deque *)
Ltac owner_tau :=
  eapply tau_set_owner; [eassumption|..]; unfold live_end, steal_end; cbn;
  [done || lia|try done; ztest; lia|
   intros ??????; unfold owner_ok in *; cbn in *; same_some; inv_all; split_and?; done || lia].

Lemma owner_step_sim s l e s' :
  inv s l → owner_step s = Some (e, s') → simulated s l e s'.
Proof.
  intros Hi Hs. destruct s as [tp bt c ars pc ths].
  pose proof (inv_end _ _ Hi) as He. cbn in He.
  destruct (inv_cur _ _ Hi) as (a & Ha & Hcap & Hh & Ho). cbn in Ha, Hcap, Hh.
  pose proof (inv_cur_wf _ _ _ Hi Ha) as Hw.
  destruct pc; cbn in Hs; cbn in Ho, He; inv_all; try owner_tau.
  - rewrite Ha in Hs. cbn in Hs.
    destruct (Z.ltb_spec (ra_capacity a - 1) (tp + length l - t)) as [Hfull|Hroom].
    + destruct (push_grow_sim _ _ _ _ _ _ _ _ _ _ _ Hi Ha Hfull) as (arr' & Hrs & Hsim).
      rewrite Hrs in Hs. cbn in Hs. by inv_all.
    + inv_all. owner_tau.
  - rewrite Ha in Hs. cbn in Hs. inv_all. by apply push_store_sim.
  - by apply push_publish_sim.
  - by apply pop_reserve_sim.
  - rewrite Ha in Hs. cbn in Hs. destruct (Z.leb_spec t b); [destruct (Z.eqb_spec t b)|].
    + inv_all. owner_tau.
    + inv_all. eapply pop_take_sim; [done|done|lia].
    + inv_all. assert (l = []) as -> by (apply length_zero_iff_nil; lia).
      exists []. split_and!; [done..|]. cbn in He.
      apply inv_set_owner; [done|done| |].
      * unfold steal_end; cbn. ztest; lia.
      * intros ??????. cbn. lia.
  - pose proof (pop_cas_sim _ _ _ _ _ _ _ _ _ Hi) as Hsim.
    destruct (compare_exchange tp b (b + 1)) as [ok top']. by inv_all.
  - by apply pop_restore_sim.
Qed.

Lemma tau_set_thief s l i pc :
  inv s l → thief_ok s l pc → simulated s l Tau (set_thief s i pc).
Proof.
  intros [Hwf Ht He Hc Hth] Hpc. exists l. split_and!; [done..|].
  split; try done. by apply thieves_insert.
Qed.

Lemma steal_cas_sim s l i t item :
  inv s l → thieves s !! i = Some (Steal4 t item) →
  let '(ok, top') := compare_exchange (top s) t (t + 1) in
  simulated s l (EvSteal i (if ok : bool then item else None))
    (mk top' (bottom s) (cur s) (arrs s) (owner s) (<[i := TIdle]> (thieves s))).
Proof.
  intros Hi Hpc. destruct (inv_thieves _ _ Hi _ _ Hpc) as [Htt Hwin]. unfold compare_exchange.
  destruct (Z.eqb_spec (top s) t) as [<-|Hne].
  - destruct (Hwin eq_refl) as [Hlt ->].
    assert (steal_end s <= live_end s) as Hle
      by (unfold steal_end, live_end; destruct (owner s); ztest; lia).
    destruct Hi as [Hwf Ht He (a & Ha & Hc & Hh & Ho) Hth].
    destruct l as [|y l]; [cbn in He; lia|]. cbn [head]. rewrite length_cons in He, Hc.
    exists l. split_and!; [done..|]. split; cbn; try done; try lia.
    + unfold live_end in *; cbn. destruct (owner s); lia.
    + exists a. split_and!; try done; [lia|by eapply holds_tail|].
      unfold owner_ok, steal_end, live_end in *. cbn. destruct (owner s); inv_all;
        split_and?; done || lia || (ztest; lia).
    + apply (thieves_insert (mk (top s + 1) (bottom s) (cur s) (arrs s) (owner s) (thieves s)));
        [|done].
      by eapply thieves_bump; [..|exact Hth].
  - exists l. split_and!; [by destruct item|by destruct item|].
    destruct Hi as [Hwf Ht He Hc Hth]. split; try done.
    by apply (thieves_insert s).
Qed.

Lemma thief_step_sim s l i e s' :
  inv s l → thief_step s i = Some (e, s') → simulated s l e s'.
Proof.
  intros Hi Hs. unfold thief_step in Hs.
  destruct (thieves s !! i) as [pc|] eqn:Hpc; [|done]. cbn in Hs.
  pose proof (inv_thieves _ _ Hi _ _ Hpc) as Hok.
  pose proof (inv_end _ _ Hi) as He.
  destruct (inv_cur _ _ Hi) as (a & Ha & Hcap & Hh & Ho).
  destruct pc; cbn in Hok; inv_all.
  - apply tau_set_thief; [done|]. cbn. lia.
  - apply tau_set_thief; [done|]. cbn. split; [lia|]. intros -> Hb.
    unfold owner_ok, steal_end, live_end in *.
    destruct (owner s); inv_all; ztest; lia.
  - destruct (Z.ltb_spec t b); inv_all.
    + apply tau_set_thief; [done|]. cbn. split; [lia|]. exists a. split; [done|].
      intros ->. assert (top s < steal_end s) as Hlt by auto. split; [done|].
      apply head_load; [done|].
      assert (steal_end s <= live_end s)
        by (unfold steal_end, live_end; destruct (owner s); ztest; lia).
      lia.
    + exists l. split_and!; [done..|]. destruct Hi as [Hwf Ht He' Hc Hth].
      split; try done. by apply (thieves_insert s).
  - rewrite H2 in Hs. cbn in Hs. inv_all. apply tau_set_thief; [done|]. cbn. auto.
  - pose proof (steal_cas_sim s l i t item Hi Hpc) as Hsim.
    destruct (compare_exchange _ _ _) as [ok top']. by inv_all.
Qed.

Lemma act_sim s l x e s' : inv s l → act s x = Some (e, s') → simulated s l e s'.
Proof.
  intros Hi Hs. destruct x; cbn in Hs.
  - destruct (owner s) eqn:Ho; inv_all.
    apply tau_set_owner; unfold live_end, steal_end, owner_ok, live_end; cbn; rewrite ?Ho; done.
  - destruct (owner s) eqn:Ho; inv_all.
    apply tau_set_owner; unfold live_end, steal_end, owner_ok, live_end; cbn; rewrite ?Ho; done.
  - destruct (thieves s !! i) as [[]|]; inv_all. by apply tau_set_thief.
  - by apply owner_step_sim.
  - by eapply thief_step_sim.
Qed.

Lemma exec_sim xs : ∀ s l es s', inv s l → exec s xs = Some (es, s') →
  ∃ l', deque_run l es l' ∧ inv s' l'.
Proof.
  induction xs as [|x xs IH]; intros s l es s' Hi Hs; cbn in Hs.
  - inv_all. by exists l.
  - destruct (act s x) as [[e s1]|] eqn:Hx; cbn in Hs; [|done].
    destruct (exec s1 xs) as [[es' s2]|] eqn:Hxs; cbn in Hs; [|done]. inv_all.
    destruct (act_sim _ _ _ _ _ Hi Hx) as (l1 & ? & ? & Hi1).
    destruct (IH _ _ _ _ Hi1 Hxs) as (l' & ? & ?). exists l'. split; [|done]. by exists l1.
Qed.

Lemma init_inv c n : pow2 c → inv (init c n) [].
Proof.
  intros Hc. pose proof (pow2_pos c Hc). split; cbn; try done.
  - apply Forall_singleton. by apply ra_new_wf.
  - exists (ra_new c). rewrite ra_new_capacity. split_and!; try done. lia.
  - intros i pc [-> _]%lookup_replicate. done.
Qed.

(** *** Conservation *)
Lemma deque_run_perm es : ∀ l l', deque_run l es l' →
  l ++ (es ≫= pushed_of) ≡ₚ (es ≫= taken_of) ++ l'.
Proof.
  induction es as [|e es IH]; intros l l' Hr; cbn in *; [by rewrite app_nil_r, Hr|].
  destruct Hr as (l1 & Hok & He & Hr). specialize (IH _ _ Hr).
  rewrite <- (assoc_L (++)), <- IH. clear IH Hr.
  destruct e as [|o|[x|]|i [x|]]; cbn in *; inv_all; try done.
  - by rewrite <- (assoc_L (++)).
  - destruct l as [|y l _] using rev_ind; [done|].
    rewrite last_snoc in Hok. inv_all. rewrite removelast_last, <- (assoc_L (++)).
    cbn. by rewrite Permutation_middle.
  - destruct l; [by inv_all|done].
  - destruct l; cbn in *; [done|]. by inv_all.
Qed.

(** *** Progress: the steps left in the call the owner is in *)
Definition owner_steps_left (pc : owner_pc (T := T)) : nat :=
  match pc with
  | OIdle => 0
  | Push0 _ => 6 | Push1 _ _ => 5 | Push2 _ _ _ => 4 | Push3 _ _ _ _ => 3
  | Push4 _ _ _ => 2 | Push5 _ _ => 1
  | Pop0 => 7 | Pop1 _ => 6 | Pop2 _ _ => 5 | Pop3 _ _ => 4 | Pop4 _ _ _ => 3
  | Pop5 _ _ _ => 2 | Pop6 _ _ => 1
  end.

Definition thief_steps_left (pc : thief_pc (T := T)) : nat :=
  match pc with
  | TIdle => 0 | Steal0 => 5 | Steal1 _ => 4 | Steal2 _ _ => 3
  | Steal3 _ _ => 2 | Steal4 _ _ => 1
  end.

Lemma owner_step_progress s l : inv s l → owner s ≠ OIdle →
  ∃ e s', owner_step s = Some (e, s') ∧
    (owner_steps_left (owner s') < owner_steps_left (owner s))%nat ∧
    thieves s' = thieves s.
Proof.
  intros Hi Hne. destruct s as [tp bt c ars pc ths]. cbn in Hne |- *.
  destruct (inv_cur _ _ Hi) as (a & Ha & Hcap & Hh & Ho). cbn in Ha, Ho.
  destruct pc; cbn in *; inv_all; try done;
    try (eexists _, _; split_and!; [done|cbn; lia|done]).
  - rewrite Ha. cbn. destruct (Z.ltb_spec (ra_capacity a - 1) (bt - t)) as [Hfull|].
    + destruct (push_grow_sim _ _ _ _ _ _ _ _ _ _ _ Hi Ha Hfull) as (arr' & Hrs & _).
      rewrite Hrs. cbn. eexists _, _; split_and!; [done|cbn; lia|done].
    + eexists _, _; split_and!; [done|cbn; lia|done].
  - rewrite Ha. cbn. eexists _, _; split_and!; [done|cbn; lia|done].
  - rewrite Ha. cbn. destruct (t <=? b); [destruct (t =? b)|];
      (eexists _, _; split_and!; [done|cbn; lia|done]).
  - unfold compare_exchange. destruct (tp =? b);
      (eexists _, _; split_and!; [done|cbn; lia|done]).
Qed.

Lemma thief_step_progress s l i pc : inv s l → thieves s !! i = Some pc → pc ≠ TIdle →
  ∃ e s' pc', thief_step s i = Some (e, s') ∧ thieves s' = <[i := pc']> (thieves s) ∧
    (thief_steps_left pc' < thief_steps_left pc)%nat ∧ owner s' = owner s.
Proof.
  intros Hi Hpc Hne. unfold thief_step. rewrite Hpc. cbn.
  pose proof (inv_thieves _ _ Hi _ _ Hpc) as Hok.
  destruct pc; cbn in Hok; inv_all; try done;
    try (eexists _, _, _; split_and!; [done|done|cbn; lia|done]).
  - destruct (t <? b); (eexists _, _, _; split_and!; [done|done|cbn; lia|done]).
  - rewrite H2. cbn. eexists _, _, _; split_and!; [done|done|cbn; lia|done].
  - unfold compare_exchange. destruct (top s =? t);
      (eexists _, _, _; split_and!; [done|done|cbn; lia|done]).
Qed.

(** *** Bounds: the indices never exceed the number of pushes *)
Lemma act_live_end s l x e s' : inv s l → act s x = Some (e, s') →
  live_end s' <= live_end s + length (pushed_of e).
Proof.
  intros Hi Hs. destruct s as [tp bt c ars pc ths].
  destruct (inv_cur _ _ Hi) as (a & Ha & _ & _ & Ho). cbn in Ho.
  destruct x; cbn in Hs.
  - destruct pc; inv_all; cbn; lia.
  - destruct pc; inv_all; cbn; lia.
  - destruct (ths !! i) as [[]|]; inv_all. destruct pc; cbn; lia.
  - destruct pc; cbn in Hs, Ho; inv_all; try (cbn; lia).
    all: try (destruct (ars !! _) as [arr|] eqn:Hx; cbn in Hs; [|try done]).
    all: try (destruct (ra_capacity arr - 1 <? bt - t)).
    all: try (destruct (ra_resize _ _ _); cbn in Hs).
    all: try (unfold compare_exchange in Hs; destruct (tp =? b)).
    all: try (destruct (t <=? b); [destruct (t =? b)|]).
    all: inv_all; cbn; lia.
  - unfold thief_step in Hs. cbn in Hs. destruct (ths !! i) as [tpc|]; cbn in Hs; [|done].
    destruct tpc; inv_all; try (destruct pc; cbn; lia).
    + destruct (t <? b); inv_all; destruct pc; cbn; lia.
    + destruct (ars !! a0); cbn in Hs; inv_all; destruct pc; cbn; lia.
    + unfold compare_exchange in Hs. destruct (tp =? t); inv_all; destruct pc; cbn; lia.
Qed.

Lemma exec_live_end xs : ∀ s l es s', inv s l → exec s xs = Some (es, s') →
  live_end s' <= live_end s + length (es ≫= pushed_of).
Proof.
  induction xs as [|x xs IH]; intros s l es s' Hi Hs; cbn in Hs.
  - inv_all. cbn. lia.
  - destruct (act s x) as [[e s1]|] eqn:Hx; cbn in Hs; [|done].
    destruct (exec s1 xs) as [[es' s2]|] eqn:Hxs; cbn in Hs; [|done]. inv_all.
    destruct (act_sim _ _ _ _ _ Hi Hx) as (l1 & _ & _ & Hi1).
    pose proof (act_live_end _ _ _ _ _ Hi Hx). specialize (IH _ _ _ _ Hi1 Hxs).
    cbn. rewrite length_app. lia.
Qed.

Lemma inv_bottom s l : inv s l → live_end s - 1 <= bottom s <= live_end s.
Proof.
  intros Hi. destruct (inv_cur _ _ Hi) as (a & _ & _ & _ & Ho).
  unfold owner_ok, live_end in *. destruct (owner s); inv_all; lia.
Qed.
End invariant.
Arguments owner_pc : clear implicits.
Arguments thief_pc : clear implicits.
Arguments state : clear implicits.
Arguments event : clear implicits.
Arguments action : clear implicits.

#[global] Instance event_eq_dec `{EqDecision T} : EqDecision (event T).
Proof. solve_decision. Defined.
End WorkStealConcurrent.

Import WorkStealConcurrent.

Abbreviation wsc_state := (WorkStealConcurrent.state nat (TaskArray.t nat)).

(** An interleaving used by the witnesses: two pushes, a thief that reads the
    indices, a pop of the second item, the thief's steal of the first. *)
Definition sample_schedule : list (action nat) :=
  [CallPush 7%nat; OwnerStep; OwnerStep; OwnerStep; OwnerStep; OwnerStep; OwnerStep;
   CallPush 8%nat; OwnerStep; OwnerStep; OwnerStep; OwnerStep; OwnerStep; OwnerStep;
   CallSteal 0; ThiefStep 0; ThiefStep 0;
   CallPop; OwnerStep; OwnerStep; OwnerStep; ThiefStep 0; OwnerStep; OwnerStep;
   ThiefStep 0; ThiefStep 0].

(** C2: linearizability of the work-stealing queue.  In every interleaving of
    the atomic accesses of [push], [pop] and [steal] by an owner and any number of
    thieves, from a fresh queue, the pushes, pops and steals take effect one by one
    on a list: [push] appends, a pop that gives an item gives the last one, a steal
    that gives an item gives the first one, and a pop that gives [nullptr] finds
    the list empty.  The list reached is the live content of the array. *)
Theorem work_steal_linearizable T A `{RingArrayLaws T A} (c : Z) (n : nat)
    (xs : list (action T)) (es : list (event T)) (s : state T A) :
  pow2 c → exec (init c n) xs = Some (es, s) → deque_run [] es (live s).
Proof.
  intros Hc Hs. destruct (exec_sim _ _ _ _ _ (init_inv c n Hc) Hs) as (l & Hr & Hi).
  by rewrite (inv_live _ _ Hi).
Qed.

Example work_steal_linearizable_witness :
  ∃ es (s : wsc_state), exec (init 2 1) sample_schedule = Some (es, s) ∧
    filter (λ e, e ≠ Tau) es = [EvPush 7%nat; EvPush 8%nat; EvPop (Some 8%nat); EvSteal 0 (Some 7%nat)] ∧
    deque_run [] es (live s).
Proof.
  destruct (exec (init 2 1) sample_schedule : option (list (event nat) * wsc_state))
    as [[es s]|] eqn:E; [|vm_compute in E; discriminate E].
  exists es, s. split; [reflexivity|]. split.
  - vm_compute in E. injection E as <- _. reflexivity.
  - apply (work_steal_linearizable nat (TaskArray.t nat) 2 1 sample_schedule);
      [exists 1; split; [lia|reflexivity]|exact E].
Defined.

(** C7: no task is lost and none is taken twice.  In every interleaving, the
    items pushed so far are, up to order, the items taken so far together with the
    items still in the queue. *)
Theorem work_steal_conservation T A `{RingArrayLaws T A} (c : Z) (n : nat)
    (xs : list (action T)) (es : list (event T)) (s : state T A) :
  pow2 c → exec (init c n) xs = Some (es, s) →
  (es ≫= pushed_of) ≡ₚ (es ≫= taken_of) ++ live s.
Proof.
  intros Hc Hs. destruct (exec_sim _ _ _ _ _ (init_inv c n Hc) Hs) as (l & Hr & Hi).
  rewrite (inv_live _ _ Hi). exact (deque_run_perm _ _ _ Hr).
Qed.

Example work_steal_conservation_witness :
  ∃ es (s : wsc_state), exec (init 2 1) sample_schedule = Some (es, s) ∧
    (es ≫= pushed_of) ≡ₚ (es ≫= taken_of) ++ live s ∧ (es ≫= taken_of) = [8; 7]%nat.
Proof.
  destruct (exec (init 2 1) sample_schedule : option (list (event nat) * wsc_state))
    as [[es s]|] eqn:E; [|vm_compute in E; discriminate E].
  exists es, s. split; [reflexivity|]. split.
  - apply (work_steal_conservation nat (TaskArray.t nat) 2 1 sample_schedule);
      [exists 1; split; [lia|reflexivity]|exact E].
  - vm_compute in E. injection E as <- _. reflexivity.
Defined.

(** C37: the queue operations are wait-free.  In every reachable state a thread
    that is inside [push], [pop] or [steal] can take its next step whatever the
    other threads did, its step brings it closer to its return ([push] takes 6
    steps, [pop] at most 7, [steal] at most 5), and no step of another thread
    moves it back. *)
Theorem work_steal_wait_free T A `{RingArrayLaws T A} (c : Z) (n : nat)
    (xs : list (action T)) (es : list (event T)) (s : state T A) :
  pow2 c → exec (init c n) xs = Some (es, s) →
  (owner s ≠ OIdle → ∃ e s', owner_step s = Some (e, s') ∧
    (owner_steps_left (owner s') < owner_steps_left (owner s))%nat ∧ thieves s' = thieves s) ∧
  (∀ i pc, thieves s !! i = Some pc → pc ≠ TIdle →
    ∃ e s' pc', thief_step s i = Some (e, s') ∧ thieves s' = <[i := pc']> (thieves s) ∧
      (thief_steps_left pc' < thief_steps_left pc)%nat ∧ owner s' = owner s).
Proof.
  intros Hc Hs. destruct (exec_sim _ _ _ _ _ (init_inv c n Hc) Hs) as (l & _ & Hi).
  split; [by eapply owner_step_progress|]. intros. by eapply thief_step_progress.
Qed.

Example work_steal_wait_free_witness :
  ∃ es (s : wsc_state), exec (init 2 1) (take 20 sample_schedule) = Some (es, s) ∧
    owner s = Pop2 1 0 ∧ ∃ e s', owner_step s = Some (e, s') ∧
      (owner_steps_left (owner s') < 5)%nat.
Proof.
  destruct (exec (init 2 1) (take 20 sample_schedule) : option (list (event nat) * wsc_state))
    as [[es s]|] eqn:E; [|vm_compute in E; discriminate E].
  destruct (work_steal_wait_free nat (TaskArray.t nat) 2 1 (take 20 sample_schedule) es s) as [Ho _];
    [exists 1; split; [lia|reflexivity]|exact E|].
  exists es, s. split; [reflexivity|].
  assert (owner s = Pop2 1 0) as Hpc by (vm_compute in E; injection E as _ <-; reflexivity).
  split; [exact Hpc|]. destruct Ho as (e & s' & H1 & H2 & _); [rewrite Hpc; discriminate|].
  exists e, s'. split; [exact H1|]. rewrite Hpc in H2. exact H2.
Defined.

(** C40: the 64-bit indices do not overflow.  After an interleaving with fewer
    than [2^63 - 1] pushes, [_top], [_bottom] and the values [b + 1], [t + 1] and
    [b - 1] computed from them are in the range of [int64_t]. *)
Theorem work_steal_indices_in_range T A `{RingArrayLaws T A} (c : Z) (n : nat)
    (xs : list (action T)) (es : list (event T)) (s : state T A) :
  pow2 c → exec (init c n) xs = Some (es, s) →
  length (es ≫= pushed_of) < 2 ^ 63 - 1 →
  0 <= top s <= length (es ≫= pushed_of) ∧ -1 <= bottom s <= length (es ≫= pushed_of) ∧
  i64 (top s + 1) = top s + 1 ∧ i64 (bottom s + 1) = bottom s + 1 ∧
  i64 (bottom s - 1) = bottom s - 1.
Proof.
  intros Hc Hs Hlen.
  destruct (exec_sim _ _ _ _ _ (init_inv c n Hc) Hs) as (l & _ & Hi).
  pose proof (exec_live_end _ _ _ _ _ (init_inv c n Hc) Hs) as Hle. cbn in Hle.
  pose proof (inv_bottom _ _ Hi). pose proof (inv_top _ _ Hi). pose proof (inv_end _ _ Hi).
  split_and!; try lia; apply swrap_small; lia.
Qed.

Example work_steal_indices_in_range_witness :
  ∃ es (s : wsc_state), exec (init 2 1) sample_schedule = Some (es, s) ∧
    top s = 1 ∧ i64 (top s + 1) = 2.
Proof.
  destruct (exec (init 2 1) sample_schedule : option (list (event nat) * wsc_state))
    as [[es s]|] eqn:E; [|vm_compute in E; discriminate E].
  destruct (work_steal_indices_in_range nat (TaskArray.t nat) 2 1 sample_schedule es s)
    as (_ & _ & H1 & _); [exists 1; split; [lia|reflexivity]|exact E| |].
  { vm_compute in E. injection E as <- _. vm_compute. reflexivity. }
  assert (top s = 1) as Ht by (vm_compute in E; injection E as _ <-; reflexivity).
  exists es, s. split; [reflexivity|]. split; [exact Ht|]. rewrite H1, Ht. reflexivity.
Defined.
