(* ===== verification/QueueMemory.v ===== *)
(** * The arrays of the work-stealing queues (include/ar/work_steal_queue.hpp,
      include/ar/task_queue.hpp, include/ar/array.hpp)

    A [push] into a full array stores a new array of twice the size and keeps the old one
    in [_garbage], because a thief that has loaded the old pointer may still read through
    it; the destructor deletes the garbage and the current array.  The machine is that of
    WorkStealConcurrent.v with the garbage written down: whatever the interleaving, no
    array is deleted while the queue lives, and the destructor deletes each once. *)
From S2P Require Import Prelude RingArray WorkStealQueue WorkStealConcurrent.

Module QueueMemory.
Import WorkStealConcurrent.

Section memory.
Context {T A : Type} `{RingArrayLaws T A}.

Record t := mk { queue : state T A; garbage : list nat }.

(** [_garbage.push_back(a)], in the branch of [push] that has found the array full. *)
Definition discarded (s : state T A) (x : action T) : list nat :=
  match x, owner s with
  | OwnerStep, Push3 _ b t a =>
      match arrs s !! a with
      | Some arr => if ra_capacity arr - 1 <? b - t then [a] else []
      | None => []
      end
  | _, _ => []
  end.

Definition step (m : t) (x : action T) : option t :=
  '(_, s') ← act (queue m) x;
  Some (mk s' (garbage m ++ discarded (queue m) x)).

Fixpoint run (m : t) (xs : list (action T)) : option t :=
  match xs with
  | [] => Some m
  | x :: xs' => m' ← step m x; run m' xs'
  end.

Definition make (c : Z) (n : nat) : t := mk (init c n) [].

(** [~WorkStealQueue]: the arrays it deletes, in order. *)
Definition destroy (m : t) : list nat := garbage m ++ [cur (queue m)].

(** [~TaskQueue], the queues of the priorities one after the other. *)
Definition destroy_all (ms : list t) : list (nat * nat) :=
  concat (imap (λ p m, (λ a, (p, a)) <$> destroy m) ms).

(** The arrays the threads hold a pointer to. *)
Definition owner_holds (pc : owner_pc T) : list nat :=
  match pc with
  | Push3 _ _ _ a | Push4 _ _ a | Pop2 _ a | Pop3 _ a | Pop4 _ a _ => [a]
  | _ => []
  end.

Definition thief_holds (pc : thief_pc T) : list nat :=
  match pc with Steal3 _ a => [a] | _ => [] end.

Definition held (s : state T A) : list nat :=
  owner_holds (owner s) ++ (thieves s ≫= thief_holds).

(** ** The invariant *)
Record inv_mem (c : Z) (m : t) : Prop := {
  im_queue : ∃ l, inv (queue m) l;
  im_garbage : garbage m = seq 0 (cur (queue m));
  im_cur : length (arrs (queue m)) = S (cur (queue m));
  im_capacity : ∀ (i : nat) (a : A), arrs (queue m) !! i = Some a → ra_capacity a = c * 2 ^ i
}.

Lemma resize_capacity a b t a' : ra_wf a → 0 <= b - t <= ra_capacity a → ra_resize a b t = Some a' →
  ra_capacity a' = 2 * ra_capacity a.
Proof.
  intros Hw Hb E. pose proof (pow2_pos _ (ra_wf_pow2 _ Hw)).
  destruct (ra_resize_spec a b t Hw) as (a1 & E1 & _ & Hc & _); [lia..|].
  rewrite E in E1. by injection E1 as <-.
Qed.

(** A step grows the list of arrays by one when it discards the current one, and else
    keeps their capacities. *)
Lemma act_arrays s l x e s' : inv s l → act s x = Some (e, s') →
  (discarded s x = [cur s] ∧ cur s' = length (arrs s) ∧ ∃ a a', arrs s !! cur s = Some a ∧
    arrs s' = arrs s ++ [a'] ∧ ra_capacity a' = 2 * ra_capacity a) ∨
  (discarded s x = [] ∧ cur s' = cur s ∧ ra_capacity <$> arrs s' = ra_capacity <$> arrs s).
Proof.
  intros Hi Hst. destruct x as [o| |i| |i]; cbn in Hst.
  - right. destruct (owner s); simplify_eq. done.
  - right. destruct (owner s); simplify_eq. done.
  - right. destruct (thieves s !! i) as [[]|]; simplify_eq. done.
  - destruct (inv_cur _ _ Hi) as (a & Ha & _ & _ & Ho). unfold owner_step in Hst. unfold discarded, owner_ok in *.
    destruct (owner s) eqn:Hpc; simplify_eq; try (right; done).
    + destruct Ho as (-> & Ht & Hb & ->). rewrite Ha in *. cbn in Hst.
      destruct (Z.ltb_spec (ra_capacity a - 1) (bottom s - t0)); [|right; simplify_eq; done].
      destruct (ra_resize a (bottom s) t0) as [a'|] eqn:Hr; [|done]. cbn in Hst. simplify_eq. left.
      split; [done|]. split; [done|]. exists a, a'. split; [done|]. split; [done|].
      pose proof (inv_cur_wf _ _ _ Hi Ha) as Hwf. pose proof (pow2_pos _ (ra_wf_pow2 _ Hwf)).
      by apply (resize_capacity a (bottom s) t0 a'); [|lia|].
    + right. destruct (arrs s !! a0) as [arr|] eqn:Harr; [|done]. cbn in Hst. simplify_eq. cbn.
      split; [done|]. split; [done|]. rewrite list_fmap_insert, ra_store_capacity.
      apply list_insert_id. by rewrite list_lookup_fmap, Harr.
    + right. destruct (_ <=? _); [|by simplify_eq]. destruct (arrs s !! a0); [|done].
      cbn in Hst. destruct (_ =? _); by simplify_eq.
    + right. destruct (compare_exchange _ _ _) as [ok top']. by simplify_eq.
  - right. unfold thief_step in Hst. destruct (thieves s !! i) as [pc|]; [|done]. cbn in Hst.
    destruct pc; simplify_eq; try done.
    + destruct (_ <? _); by simplify_eq.
    + destruct (arrs s !! a) as [arr|]; [|done]. cbn in Hst. by simplify_eq.
    + destruct (compare_exchange _ _ _) as [ok top']. by simplify_eq.
Qed.

Lemma inv_mem_step c m x m' : inv_mem c m → step m x = Some m' → inv_mem c m'.
Proof.
  intros [[l Hi] Hg Hc Hcap]. unfold step. destruct (act (queue m) x) as [[e s']|] eqn:Hst; [|done].
  intros [= <-]. destruct (act_sim _ _ _ _ _ Hi Hst) as (l' & _ & _ & Hi').
  destruct (act_arrays _ _ _ _ _ Hi Hst) as [(Hd & Hcur & a & a' & Ha & Harr & Hca)|(Hd & Hcur & Harr)];
    split; cbn [queue garbage]; eauto; rewrite ?Hd, ?Hcur.
  - rewrite Hg, Hc, seq_S. done.
  - rewrite Harr, length_app, Hc. cbn. lia.
  - intros i b Hb. rewrite Harr in Hb. apply lookup_snoc_Some in Hb as [[_ Hb]|[-> <-]]; [by eapply Hcap|].
    rewrite Hca, (Hcap _ _ Ha), Hc, Nat2Z.inj_succ, Z.pow_succ_r by lia. lia.
  - by rewrite app_nil_r.
  - rewrite <- Hc, <- (length_fmap ra_capacity), Harr. by rewrite length_fmap.
  - intros i b Hb. assert ((ra_capacity <$> arrs s') !! i = Some (ra_capacity b)) as Hb'
      by (by rewrite list_lookup_fmap, Hb).
    rewrite Harr, list_lookup_fmap in Hb'. destruct (arrs (queue m) !! i) as [b0|] eqn:Hb0; [|done].
    injection Hb' as <-. by eapply Hcap.
Qed.

Lemma inv_mem_run c xs : ∀ m m', inv_mem c m → run m xs = Some m' → inv_mem c m'.
Proof.
  induction xs as [|x xs IH]; intros m m' Hi; cbn [run]; [by intros [= <-]|].
  destruct (step m x) as [m1|] eqn:Hst; [|done]. apply IH. by eapply inv_mem_step.
Qed.

Lemma inv_mem_make c n : pow2 c → inv_mem c (make c n).
Proof.
  intros Hc. split; cbn; eauto using init_inv. intros [|i] a [= <-]. rewrite ra_new_capacity. lia.
Qed.

(** A pointer a thread holds is to an array of the list. *)
Lemma held_allocated s l a : inv s l → a ∈ held s → (a < length (arrs s))%nat.
Proof.
  intros Hi Hin. unfold held in Hin. apply elem_of_app in Hin as [Hin|Hin].
  - destruct (inv_cur _ _ Hi) as (b & Hb & _ & _ & Ho). apply lookup_lt_Some in Hb. unfold owner_ok in Ho.
    destruct (owner s); cbn in Hin; try (by apply not_elem_of_nil in Hin);
      apply list_elem_of_singleton in Hin as ->; naive_solver.
  - apply list_elem_of_bind in Hin as (pc & Hpc & Hin). apply list_elem_of_lookup_1 in Hin as [i Hin].
    pose proof (inv_thieves _ _ Hi i pc Hin) as Ht. destruct pc; cbn in Hpc; try (by apply not_elem_of_nil in Hpc).
    apply list_elem_of_singleton in Hpc as ->. destruct Ht as (_ & b & Hb & _). by eapply lookup_lt_Some.
Qed.

(** The capacities of the first [k] arrays. *)
Lemma sum_capacities c (arr : list A) : (∀ (i : nat) (a : A), arr !! i = Some a → ra_capacity a = c * 2 ^ i) →
  foldr Z.add 0 (ra_capacity <$> arr) = c * (2 ^ length arr - 1).
Proof.
  induction arr as [|a arr IH] using rev_ind; intros Hc; [cbn; lia|].
  rewrite fmap_app, foldr_app. cbn. rewrite Z.add_0_r.
  assert (∀ (l : list Z) z, foldr Z.add z l = foldr Z.add 0 l + z) as Hf
    by (induction l as [|y l IHl]; intros z; cbn; [lia|rewrite IHl; lia]).
  rewrite Hf, IH by (intros i b Hb; apply Hc; by apply lookup_app_l_Some).
  rewrite (Hc (length arr) a) by (by apply list_lookup_middle).
  rewrite length_app, Nat.add_comm. cbn [length]. rewrite Nat2Z.inj_succ, Z.pow_succ_r by lia. lia.
Qed.

Lemma destroy_seq c m : inv_mem c m → destroy m = seq 0 (length (arrs (queue m))).
Proof. intros Hi. unfold destroy. by rewrite (im_garbage _ _ Hi), (im_cur _ _ Hi), seq_S. Qed.

(** The destructor of a task queue, like that of each of its deques, deletes no array
    twice. *)
Lemma destroy_all_NoDup c ms : Forall (inv_mem c) ms → NoDup (destroy_all ms).
Proof.
  intros Hms. apply (NoDup_concat_imap fst _ _ 0).
  - intros p m Hm. apply NoDup_fmap_2; [by intros ? ? [=]|].
    rewrite (destroy_seq c) by (by eapply Forall_lookup_1). apply NoDup_seq.
  - intros p m b (a & -> & _)%list_elem_of_fmap. done.
Qed.
End memory.

Arguments t : clear implicits.
End QueueMemory.
Import WorkStealConcurrent QueueMemory.

(** C34: the arrays of a queue are safe to read and are freed once: in every interleaving
    of [push], [pop] and [steal], each array a thread still holds a pointer to is one the
    destructor is yet to delete; the destructor deletes every array ever allocated, each
    once; and the arrays kept as garbage together are smaller than the current one. *)
Theorem work_steal_memory T A `{RingArrayLaws T A} (c : Z) (n : nat) (xs : list (action T))
    (m : QueueMemory.t T A) :
  pow2 c → QueueMemory.run (QueueMemory.make c n) xs = Some m →
  destroy m = seq 0 (length (arrs (queue m))) ∧
  (∀ a, a ∈ held (queue m) → a ∈ destroy m) ∧
  (∀ a, arrs (queue m) !! cur (queue m) = Some a →
    foldr Z.add 0 (ra_capacity <$> take (cur (queue m)) (arrs (queue m))) < ra_capacity a).
Proof.
  intros Hc Hr. pose proof (inv_mem_run c xs _ _ (inv_mem_make c n Hc) Hr) as Hi.
  pose proof (destroy_seq c m Hi) as Hd. split; [done|]. split.
  - intros a Ha. rewrite Hd, elem_of_seq. destruct (im_queue _ _ Hi) as [l Hl].
    pose proof (held_allocated _ _ _ Hl Ha). lia.
  - intros a Ha. rewrite (im_capacity _ _ Hi _ _ Ha), (sum_capacities c).
    + rewrite length_take, (im_cur _ _ Hi), Nat.min_l by lia. pose proof (pow2_pos c Hc). lia.
    + intros i b [Hb _]%lookup_take_Some. by eapply (im_capacity _ _ Hi).
Qed.

(** A thief holds the first array while the owner pushes into the second. *)
Definition grow_schedule : list (action nat) :=
  [CallPush 7%nat; OwnerStep; OwnerStep; OwnerStep; OwnerStep; OwnerStep; OwnerStep;
   CallSteal 0; ThiefStep 0; ThiefStep 0; ThiefStep 0;
   CallPush 8%nat; OwnerStep; OwnerStep; OwnerStep; OwnerStep].

Definition grown : QueueMemory.t nat (TaskArray.t nat) :=
  default (QueueMemory.make 1 1) (QueueMemory.run (QueueMemory.make 1 1) grow_schedule).

Lemma work_steal_memory_witness :
  held (queue grown) = [1%nat; 0%nat] ∧ destroy grown = [0%nat; 1%nat] ∧
  (∀ a, a ∈ held (queue grown) → a ∈ destroy grown).
Proof.
  destruct (work_steal_memory nat (TaskArray.t nat) 1 1 grow_schedule grown) as (_ & H & _);
    [exists 0; split; [lia|reflexivity]|vm_compute; reflexivity|].
  split; [vm_compute; reflexivity|]. split; [vm_compute; reflexivity|exact H].
Defined.
