(* ===== verification/TripleBuffer.v ===== *)
(** * The lock-free triple buffer

    [AsyncRuntime::TripleBuffer] (include/ar/triple_buffer.hpp) and its copy
    behind the dataflow [SharedBuffer] interface
    (include/ar/dataflow/triple_shared_buffer.hpp): one writer, one reader, three
    slots, and one flag byte that says which slot is dirty (the writer's), clean
    (the exchange) and snap (the reader's).

    The operations are split at every access to the flag byte and to the slots
    and interleaved; the slot accesses are not atomic in C++, so the model keeps
    them as steps of their own and the development shows that the two threads are
    never in the same slot. *)
From S2P Require Import Prelude.

Module TripleBuffer.

(** ** The flag byte *)
Definition isNewWrite (flags : Z) : bool := negb (flags .& 0x40 =? 0).

Definition swapSnapWithClean (flags : Z) : Z :=
  u8 ((flags .& 0x30) .| Z.shiftl (flags .& 0x3) 2 .| Z.shiftr (flags .& 0xC) 2).

Definition newWriteSwapCleanWithDirty (flags : Z) : Z :=
  u8 (0x40 .| Z.shiftl (flags .& 0xC) 2 .| Z.shiftr (flags .& 0x30) 2 .| (flags .& 0x3)).

(** The slot indices packed in the byte. *)
Definition dirtyIndex (flags : Z) : nat := Z.to_nat (Z.shiftr (flags .& 0x30) 4).
Definition cleanIndex (flags : Z) : nat := Z.to_nat (Z.shiftr (flags .& 0xC) 2).
Definition snapIndex (flags : Z) : nat := Z.to_nat (flags .& 0x3).

(** The flag bytes whose three indices are a permutation of the slots, with the
    unused bit clear. *)
Definition flags_ok (f : Z) : bool :=
  (0 <=? f) && (f <? 128) &&
  bool_decide (NoDup [dirtyIndex f; cleanIndex f; snapIndex f]) &&
  forallb (λ i, Nat.ltb i 3) [dirtyIndex f; cleanIndex f; snapIndex f].

(** What one swap does, as a test on a byte. *)
Definition swap_check (f : Z) : bool :=
  let r := swapSnapWithClean f in
  let n := newWriteSwapCleanWithDirty f in
  flags_ok r && negb (isNewWrite r) &&
  (dirtyIndex r =? dirtyIndex f)%nat && (cleanIndex r =? snapIndex f)%nat &&
  (snapIndex r =? cleanIndex f)%nat &&
  flags_ok n && isNewWrite n &&
  (dirtyIndex n =? cleanIndex f)%nat && (cleanIndex n =? dirtyIndex f)%nat &&
  (snapIndex n =? snapIndex f)%nat.

Lemma flags_ok_enum (P : Z → bool) :
  forallb (λ k, let f := Z.of_nat k in negb (flags_ok f) || P f) (seq 0 128) = true →
  ∀ f, flags_ok f = true → P f = true.
Proof.
  intros H f Hf. rewrite forallb_forall in H.
  assert (0 <= f < 128) as Hr.
  { unfold flags_ok in Hf. ztest; rewrite ?andb_false_r, ?andb_false_l in Hf; done || lia. }
  specialize (H (Z.to_nat f)). cbv zeta in H. rewrite Z2Nat.id in H by lia.
  rewrite Hf in H. apply H. apply in_seq. lia.
Qed.

Lemma swap_check_ok f : flags_ok f = true → swap_check f = true.
Proof. apply flags_ok_enum. vm_compute. reflexivity. Qed.

Lemma swap_facts f : flags_ok f = true →
  let r := swapSnapWithClean f in
  flags_ok r = true ∧ isNewWrite r = false ∧ dirtyIndex r = dirtyIndex f ∧
  cleanIndex r = snapIndex f ∧ snapIndex r = cleanIndex f.
Proof.
  intros Hf. pose proof (swap_check_ok f Hf) as Hc. unfold swap_check in Hc.
  rewrite !andb_true_iff, !Nat.eqb_eq, !negb_true_iff in Hc. cbv zeta. tauto.
Qed.

Lemma publish_facts f : flags_ok f = true →
  let r := newWriteSwapCleanWithDirty f in
  flags_ok r = true ∧ isNewWrite r = true ∧ dirtyIndex r = cleanIndex f ∧
  cleanIndex r = dirtyIndex f ∧ snapIndex r = snapIndex f.
Proof.
  intros Hf. pose proof (swap_check_ok f Hf) as Hc. unfold swap_check in Hc.
  rewrite !andb_true_iff, !Nat.eqb_eq, !negb_true_iff in Hc. cbv zeta. tauto.
Qed.

Lemma flags_distinct f : flags_ok f = true →
  (dirtyIndex f < 3)%nat ∧ (cleanIndex f < 3)%nat ∧ (snapIndex f < 3)%nat ∧
  dirtyIndex f ≠ cleanIndex f ∧ dirtyIndex f ≠ snapIndex f ∧ cleanIndex f ≠ snapIndex f.
Proof.
  unfold flags_ok. rewrite !andb_true_iff, bool_decide_eq_true. cbn [forallb].
  rewrite !andb_true_iff, !Nat.ltb_lt, !NoDup_cons. intros ([? (?&?&_)] & (?&?&?&_)).
  split_and!; try done; set_solver.
Qed.

(** ** The buffer and its threads *)
Section model.
Context {T : Type}.

(** The writer inside [write(item)]: it has read the dirty index, stored the
    item, or holds the flag byte it will try to exchange. *)
Inductive writer_pc :=
| WIdle
| Write0 (item : T)
| Write1 (item : T) (idx : nat)
| Write2 (item : T)
| Write3 (item : T) (flagsNow : Z).

Inductive reader_pc :=
| RIdle
| Read0
| Read1 (flagsNow : Z)
| Read2
| Read3 (idx : nat).

Record state := mk {
  flags : Z;
  buffer : list T;
  writer : writer_pc;
  reader : reader_pc;
}.

Inductive event := Tau | EvPublish (x : T) | EvTake | EvReturn (x : T).

(** The constructor: dirty = 0, clean = 1, snap = 2. *)
Definition init (dummy : T) : state := mk 0x6 [dummy; dummy; dummy] WIdle RIdle.

Definition set_writer (s : state) pc := mk (flags s) (buffer s) pc (reader s).
Definition set_reader (s : state) pc := mk (flags s) (buffer s) (writer s) pc.

(** One step of [write]; [weak] is a spurious failure of
    [compare_exchange_weak]. *)
Definition writer_step (s : state) (weak : bool) : option (event * state) :=
  match writer s with
  | WIdle => None
  | Write0 item => Some (Tau, set_writer s (Write1 item (dirtyIndex (flags s))))
  | Write1 item idx =>
      Some (Tau, mk (flags s) (<[idx := item]> (buffer s)) (Write2 item) (reader s))
  | Write2 item => Some (Tau, set_writer s (Write3 item (flags s)))
  | Write3 item flagsNow =>
      if (flags s =? flagsNow) && negb weak then
        Some (EvPublish item,
              mk (newWriteSwapCleanWithDirty flagsNow) (buffer s) WIdle (reader s))
      else Some (Tau, set_writer s (Write3 item (flags s)))
  end.

(** The test [isNewWrite] of the loop follows the load that filled [flagsNow]. *)
Definition after_load (s : state) (flagsNow : Z) : event * state :=
  if isNewWrite flagsNow then (Tau, set_reader s (Read1 flagsNow))
  else (EvTake, set_reader s Read2).

(** One step of [read]; [None] also for a slot index out of range. *)
Definition reader_step (s : state) (weak : bool) : option (event * state) :=
  match reader s with
  | RIdle => None
  | Read0 => Some (after_load s (flags s))
  | Read1 flagsNow =>
      if (flags s =? flagsNow) && negb weak then
        Some (EvTake, mk (swapSnapWithClean flagsNow) (buffer s) (writer s) Read2)
      else Some (after_load s (flags s))
  | Read2 => Some (Tau, set_reader s (Read3 (snapIndex (flags s))))
  | Read3 idx =>
      x ← buffer s !! idx;
      Some (EvReturn x, set_reader s RIdle)
  end.

Definition isUpdate (s : state) : bool := isNewWrite (flags s).

Inductive action := CallWrite (x : T) | CallRead | WriterStep (weak : bool) | ReaderStep (weak : bool).

Definition act (s : state) (a : action) : option (event * state) :=
  match a with
  | CallWrite x => match writer s with WIdle => Some (Tau, set_writer s (Write0 x)) | _ => None end
  | CallRead => match reader s with RIdle => Some (Tau, set_reader s Read0) | _ => None end
  | WriterStep w => writer_step s w
  | ReaderStep w => reader_step s w
  end.

Fixpoint exec (s : state) (xs : list action) : option (list event * state) :=
  match xs with
  | [] => Some ([], s)
  | x :: xs =>
      '(e, s') ← act s x;
      '(es, s'') ← exec s' xs;
      Some (e :: es, s'')
  end.

(** ** Specification: a register

    [latest] is the last item whose [write] took effect, [taken] the item the
    current [read] will return. *)
Record register := mk_register { latest : T; taken : T }.

Definition register_event (r : register) (e : event) : register :=
  match e with
  | EvPublish x => mk_register x (taken r)
  | EvTake => mk_register (latest r) (latest r)
  | _ => r
  end.

Fixpoint register_run (r : register) (es : list event) : Prop :=
  match es with
  | [] => True
  | e :: es =>
      (∀ x, e = EvReturn x → x = taken r) ∧ register_run (register_event r e) es
  end.

(** ** Invariant *)
Definition writer_ok (s : state) : Prop :=
  match writer s with
  | WIdle | Write0 _ => True
  | Write1 _ idx => idx = dirtyIndex (flags s)
  | Write2 item | Write3 item _ => buffer s !! dirtyIndex (flags s) = Some item
  end.

Definition reader_ok (s : state) : Prop :=
  match reader s with
  | Read1 flagsNow => isNewWrite flagsNow = true
  | Read3 idx => idx = snapIndex (flags s)
  | _ => True
  end.

(** State [s] implements the register [r]. *)
Record inv (s : state) (r : register) : Prop := mk_inv {
  inv_flags : flags_ok (flags s) = true;
  inv_length : length (buffer s) = 3%nat;
  inv_snap : buffer s !! snapIndex (flags s) = Some (taken r);
  inv_clean : if isNewWrite (flags s) then buffer s !! cleanIndex (flags s) = Some (latest r)
              else latest r = taken r;
  inv_writer : writer_ok s;
  inv_reader : reader_ok s;
}.

Lemma init_inv_tb dummy : inv (init dummy) (mk_register dummy dummy).
Proof. split; vm_compute; done. Qed.

Lemma writer_step_inv s r w e s' :
  inv s r → writer_step s w = Some (e, s') →
  inv s' (register_event r e) ∧ ∀ x, e ≠ EvReturn x.
Proof.
  intros [Hf Hl Hs Hc Hw Hr] E. unfold writer_step in E.
  pose proof (flags_distinct _ Hf) as (?&?&?&?&?&?).
  destruct s as [f buf wpc rpc]. cbn in *. unfold writer_ok, reader_ok in *. cbn in *.
  destruct wpc as [|item|item idx|item|item fn]; cbn in *; inv_all.
  - split; [|done]. by split.
  - split; [|done]. split; cbn; try done; unfold writer_ok, reader_ok; cbn.
    + by rewrite length_insert.
    + by rewrite list_lookup_insert_ne by done.
    + destruct (isNewWrite f); [|done]. by rewrite list_lookup_insert_ne by done.
    + apply list_lookup_insert_eq. lia.
  - split; [|done]. by split.
  - destruct (Z.eqb_spec f fn) as [->|]; cbn in *.
    2: inv_all; split; [by split|done].
    destruct w; cbn in *; inv_all; [split; [by split|done]|].
    pose proof (publish_facts _ Hf) as (Hf' & Hn & Hd & Hcl & Hsn).
    split; [|done]. split; cbn; try done; unfold writer_ok, reader_ok; cbn.
    + by rewrite Hsn.
    + by rewrite Hn, Hcl.
    + by rewrite Hsn.
Qed.

Lemma after_load_inv s r e s' :
  inv s r → after_load s (flags s) = (e, s') →
  inv s' (register_event r e) ∧ ∀ x, e ≠ EvReturn x.
Proof.
  intros [Hf Hl Hs Hc Hw Hr] E. unfold after_load in E.
  destruct (isNewWrite (flags s)) eqn:Hn; inv_all; (split; [|done]).
  - split; try done. cbn. by rewrite Hn.
  - split; try done; cbn; by rewrite ?Hn, ?Hc.
Qed.

Lemma reader_step_inv s r w e s' :
  inv s r → reader_step s w = Some (e, s') →
  inv s' (register_event r e) ∧ ∀ x, e = EvReturn x → x = taken r.
Proof.
  intros Hi E. pose proof Hi as [Hf Hl Hs Hc Hw Hr]. unfold reader_step in E.
  pose proof (flags_distinct _ Hf) as (?&?&?&?&?&?).
  destruct (reader s) as [| |fn| |idx] eqn:Hpc; inv_all.
  - edestruct after_load_inv as [? Hne]; [done|done|]. split; [done|]. intros x ->. by edestruct Hne.
  - destruct (Z.eqb_spec (flags s) fn) as [<-|]; cbn in *.
    2: inv_all; edestruct after_load_inv as [? Hne]; [done|done|]; split; [done|];
       intros x ->; by edestruct Hne.
    destruct w; cbn in *; inv_all.
    { edestruct after_load_inv as [? Hne]; [done|done|]. split; [done|]. intros x ->. by edestruct Hne. }
    unfold reader_ok in Hr. rewrite Hpc in Hr. rewrite Hr in Hc.
    pose proof (swap_facts _ Hf) as (Hf' & Hn & Hd & Hcl & Hsn).
    split; [|done]. split; cbn; try done; unfold writer_ok, reader_ok in *; cbn.
    + by rewrite Hsn.
    + by rewrite Hn.
    + by rewrite Hd.
  - split; [|done]. split; try done.
  - unfold reader_ok in Hr. rewrite Hpc in Hr. subst idx. rewrite Hs in E. cbn in E. inv_all.
    split; [by split|]. intros x Hx. by injection Hx.
Qed.

Lemma act_inv_tb s r a e s' :
  inv s r → act s a = Some (e, s') →
  inv s' (register_event r e) ∧ ∀ x, e = EvReturn x → x = taken r.
Proof.
  intros Hi E. destruct a; cbn in E.
  - destruct (writer s) eqn:?; inv_all. split; [|done]. by destruct Hi; split.
  - destruct (reader s) eqn:?; inv_all. split; [|done]. by destruct Hi; split.
  - destruct (writer_step_inv _ _ _ _ _ Hi E) as [? Hne]. split; [done|].
    intros x ->. by edestruct Hne.
  - by eapply reader_step_inv.
Qed.

Lemma exec_inv_tb xs : ∀ s r es s', inv s r → exec s xs = Some (es, s') →
  register_run r es ∧ ∃ r', inv s' r'.
Proof.
  induction xs as [|x xs IH]; intros s r es s' Hi E; cbn in E.
  - inv_all. split; [done|by exists r].
  - destruct (act s x) as [[e s1]|] eqn:Hx; cbn in E; [|done].
    destruct (exec s1 xs) as [[es' s2]|] eqn:Hxs; cbn in E; [|done]. inv_all.
    destruct (act_inv_tb _ _ _ _ _ Hi Hx) as [Hi1 Hret].
    destruct (IH _ _ _ _ Hi1 Hxs) as [Hr Hex]. by split.
Qed.

(** The slots the two threads are accessing. *)
Definition writer_slot (s : state) : option nat :=
  match writer s with Write1 _ idx => Some idx | _ => None end.
Definition reader_slot (s : state) : option nat :=
  match reader s with Read3 idx => Some idx | _ => None end.

Lemma inv_no_race s r i j :
  inv s r → writer_slot s = Some i → reader_slot s = Some j →
  i ≠ j ∧ (i < 3)%nat ∧ (j < 3)%nat.
Proof.
  intros [Hf _ _ _ Hw Hr] Hi Hj. pose proof (flags_distinct _ Hf).
  unfold writer_slot, reader_slot, writer_ok, reader_ok in *.
  destruct (writer s); try done. destruct (reader s); try done. inv_all. by split_and!.
Qed.

End model.
Arguments writer_pc : clear implicits.
Arguments reader_pc : clear implicits.
Arguments state : clear implicits.
Arguments event : clear implicits.
Arguments action : clear implicits.
Arguments register : clear implicits.

End TripleBuffer.

Import TripleBuffer.

(** Two writes overlapping a read. *)
Definition sample_schedule_tb : list (TripleBuffer.action nat) :=
  [CallWrite 5%nat; WriterStep false; WriterStep false; WriterStep false; WriterStep false;
   CallRead; ReaderStep false; CallWrite 6%nat; WriterStep false; WriterStep false;
   WriterStep true; ReaderStep false; ReaderStep false; WriterStep false; WriterStep false;
   ReaderStep false].

(** C17: the triple buffer is a register.  In every interleaving of one writer and
    one reader, spurious failures of the weak exchange included, a [read] returns
    the item of the last [write] that took effect before the read chose its slot:
    never a torn, stale or skipped-over item. *)
Theorem triple_buffer_linearizable T (dummy : T) xs es s :
  TripleBuffer.exec (TripleBuffer.init dummy) xs = Some (es, s) →
  register_run (mk_register dummy dummy) es.
Proof. intros E. by destruct (exec_inv_tb _ _ _ _ _ (init_inv_tb dummy) E). Qed.

Example triple_buffer_linearizable_witness :
  ∃ es s, TripleBuffer.exec (TripleBuffer.init 0%nat) sample_schedule_tb = Some (es, s) ∧
    last es = Some (EvReturn 5%nat) ∧ register_run (mk_register 0%nat 0%nat) es.
Proof.
  destruct (TripleBuffer.exec (TripleBuffer.init 0%nat) sample_schedule_tb)
    as [[es s]|] eqn:E; [|vm_compute in E; discriminate E].
  exists es, s. split; [reflexivity|]. split.
  - vm_compute in E. injection E as <- _. reflexivity.
  - exact (triple_buffer_linearizable nat 0%nat sample_schedule_tb es s E).
Defined.

(** C38: the triple buffer has no data race.  In every reachable state, while the
    writer stores into its slot and the reader copies from its slot, the two slots
    are different and inside the array. *)
Theorem triple_buffer_no_race T (dummy : T) xs es s i j :
  TripleBuffer.exec (TripleBuffer.init dummy) xs = Some (es, s) →
  writer_slot s = Some i → reader_slot s = Some j →
  i ≠ j ∧ (i < 3)%nat ∧ (j < 3)%nat.
Proof.
  intros E. destruct (exec_inv_tb _ _ _ _ _ (init_inv_tb dummy) E) as [_ [r Hi]].
  by apply (inv_no_race s r).
Qed.

Definition race_schedule : list (TripleBuffer.action nat) :=
  [CallWrite 5%nat; WriterStep false; WriterStep false; WriterStep false; WriterStep false;
   CallRead; ReaderStep false; ReaderStep false; ReaderStep false; CallWrite 6%nat; WriterStep false].

Example triple_buffer_no_race_witness :
  ∃ es s, TripleBuffer.exec (TripleBuffer.init 0%nat) race_schedule = Some (es, s) ∧
    writer_slot s = Some 1%nat ∧ reader_slot s = Some 0%nat ∧ 1%nat ≠ 0%nat.
Proof.
  destruct (TripleBuffer.exec (TripleBuffer.init 0%nat) race_schedule)
    as [[es s]|] eqn:E; [|vm_compute in E; discriminate E].
  assert (writer_slot s = Some 1%nat) as Hw by (vm_compute in E; injection E as _ <-; reflexivity).
  assert (reader_slot s = Some 0%nat) as Hr by (vm_compute in E; injection E as _ <-; reflexivity).
  exists es, s. split; [reflexivity|]. split; [exact Hw|]. split; [exact Hr|].
  exact (proj1 (triple_buffer_no_race nat 0%nat race_schedule es s 1%nat 0%nat E Hw Hr)).
Defined.
