(* ===== verification/SharedBuffer.v ===== *)
(** * The buffers of the dataflow ports

    include/ar/dataflow/shared_buffer.hpp (the interface and its error codes),
    fifo_shared_buffer.hpp, triple_shared_buffer.hpp and
    shared_buffer_factory.hpp.  Every operation of [FIFOBuffer] holds the mutex,
    so a concurrent use is a sequence of operations; the triple buffer under
    interference is TripleBuffer.v, here are its calls without interference. *)
From S2P Require Import Prelude TripleBuffer.

Inductive SharedBufferType := kFIFO_BUFFER | kTRIPLE_BUFFER.

Inductive SharedBufferError := kNO_ERROR | kBUFFER_OVERFLOW | kBUFFER_NOT_FOUND.

#[global] Instance SharedBufferError_eq_dec : EqDecision SharedBufferError.
Proof. solve_decision. Defined.

(** ** FIFOBuffer *)
Module FIFOBuffer.
Section ops.
Context {T : Type}.

(** [skip_counter] counts the [Increment] calls on the attached counter, when one
    is attached. *)
Record t := mk { capacity : Z; queue : list T; skip_counter : option Z }.

(** [explicit FIFOBuffer(size_t cap)]: the member is an [int]. *)
Definition make (cap : Z) : t := mk (i32 cap) [] None.

Definition SetSkipCounter (b : t) : t := mk (capacity b) (queue b) (Some 0).

(** [queue.size() < capacity] compares as [size_t]. *)
Definition has_room (b : t) : bool := length (queue b) <? u64 (capacity b).

Definition Write (b : t) (msg : T) : SharedBufferError * t :=
  if has_room b then (kNO_ERROR, mk (capacity b) (queue b ++ [msg]) (skip_counter b))
  else (kBUFFER_OVERFLOW, mk (capacity b) (queue b) ((λ n, n + 1) <$> skip_counter b)).

Definition Read (b : t) : option T * t :=
  match queue b with
  | msg :: q => (Some msg, mk (capacity b) q (skip_counter b))
  | [] => (None, b)
  end.

(** [TryRead(res)]: the flag and, when it is true, the value stored in [res]. *)
Definition TryRead (b : t) : bool * option T * t :=
  match queue b with
  | msg :: q => (true, Some msg, mk (capacity b) q (skip_counter b))
  | [] => (false, None, b)
  end.

Definition Empty (b : t) : bool := match queue b with [] => true | _ => false end.

(** [while (!queue.empty()) queue.pop()]. *)
Fixpoint drain (q : list T) : list T :=
  match q with [] => [] | _ :: q' => drain q' end.

Definition Flush (b : t) : t := mk (capacity b) (drain (queue b)) (skip_counter b).

(** *** Sequences of calls *)
Inductive op := OpWrite (x : T) | OpRead | OpTryRead.

(** The run keeps what was accepted, what was delivered and how many writes were
    refused. *)
Record log := mk_log { accepted : list T; delivered : list T; refused : Z }.

Definition exec (b : t) (g : log) (o : op) : t * log :=
  match o with
  | OpWrite x =>
      let '(e, b') := Write b x in
      (b', if decide (e = kNO_ERROR) then mk_log (accepted g ++ [x]) (delivered g) (refused g)
           else mk_log (accepted g) (delivered g) (refused g + 1))
  | OpRead =>
      let '(r, b') := Read b in
      (b', mk_log (accepted g) (delivered g ++ option_list r) (refused g))
  | OpTryRead =>
      let '(ok, r, b') := TryRead b in
      (b', mk_log (accepted g) (delivered g ++ option_list r) (refused g))
  end.

Definition run (b : t) (g : log) (os : list op) : t * log :=
  foldl (λ '(b, g) o, exec b g o) (b, g) os.

Definition run_inv (cap : Z) (b : t) (g : log) : Prop :=
  capacity b = cap ∧ accepted g = delivered g ++ queue b ∧ length (queue b) <= u64 cap ∧
  (∀ n, skip_counter b = Some n → n = refused g).

Lemma exec_inv_fifo cap b g o :
  run_inv cap b g → let '(b', g') := exec b g o in run_inv cap b' g'.
Proof.
  intros (Hc & Ha & Hl & Hs). destruct b as [c q sk]. cbn in *. subst c.
  destruct o; cbn; unfold Write, Read, TryRead, has_room; cbn.
  - destruct (Z.ltb_spec (length q) (u64 cap)); cbn.
    + unfold run_inv; cbn. rewrite Ha, length_app. cbn. split_and!; try done.
      * by rewrite (assoc_L (++)).
      * lia.
    + unfold run_inv; cbn. split_and!; try done.
      intros n Hn. destruct sk as [k|]; cbn in Hn; [|done]. inv_all.
      by rewrite (Hs k eq_refl).
  - destruct q as [|m q]; cbn; unfold run_inv; cbn in *; rewrite ?app_nil_r in *; split_and!; try done.
    + rewrite Ha. by rewrite <- (assoc_L (++)).
    + lia.
  - destruct q as [|m q]; cbn; unfold run_inv; cbn in *; rewrite ?app_nil_r in *; split_and!; try done.
    + rewrite Ha. by rewrite <- (assoc_L (++)).
    + lia.
Qed.

Lemma run_inv_fifo cap os : ∀ b g,
  run_inv cap b g → let '(b', g') := run b g os in run_inv cap b' g'.
Proof.
  induction os as [|o os IH]; intros b g Hi; cbn; [done|].
  pose proof (exec_inv_fifo cap b g o Hi) as Hi'.
  destruct (exec b g o) as [b1 g1]. unfold run in IH. by apply IH.
Qed.

Lemma drain_nil q : drain q = [].
Proof. by induction q. Qed.

End ops.
Arguments t : clear implicits.
Arguments op : clear implicits.
Arguments log : clear implicits.
End FIFOBuffer.

(** ** The triple buffer behind the interface *)
Module SharedTripleBuffer.
Section ops.
Context {T : Type}.
Implicit Types s : TripleBuffer.state T.

Definition IsNewWrite (flags : Z) : bool := negb (flags .& 0x40 =? 0).

Definition SwapSnapWithClean (flags : Z) : Z :=
  u8 ((flags .& 0x30) .| Z.shiftl (flags .& 0x3) 2 .| Z.shiftr (flags .& 0xC) 2).

Definition NewWriteSwapCleanWithDirty (flags : Z) : Z :=
  u8 (0x40 .| Z.shiftl (flags .& 0xC) 2 .| Z.shiftr (flags .& 0x30) 2 .| (flags .& 0x3)).

(** The constructor; [dummy] is the default value of [T]. *)
Definition make (dummy : T) : TripleBuffer.state T :=
  TripleBuffer.mk 0x6 [dummy; dummy; dummy] TripleBuffer.WIdle TripleBuffer.RIdle.

(** The class is a copy of include/ar/triple_buffer.hpp behind another interface. *)
Lemma shared_triple_twin (flags : Z) (dummy : T) :
  IsNewWrite flags = TripleBuffer.isNewWrite flags ∧
  SwapSnapWithClean flags = TripleBuffer.swapSnapWithClean flags ∧
  NewWriteSwapCleanWithDirty flags = TripleBuffer.newWriteSwapCleanWithDirty flags ∧
  make dummy = TripleBuffer.init dummy.
Proof. done. Qed.

Definition Write s (item : T) : SharedBufferError * TripleBuffer.state T :=
  let idx := TripleBuffer.dirtyIndex (TripleBuffer.flags s) in
  let buf := <[idx := item]> (TripleBuffer.buffer s) in
  let flagsNow := TripleBuffer.flags s in
  (kNO_ERROR, TripleBuffer.mk (NewWriteSwapCleanWithDirty flagsNow) buf
     (TripleBuffer.writer s) (TripleBuffer.reader s)).

Definition Read s : option T * TripleBuffer.state T :=
  let flagsNow := TripleBuffer.flags s in
  let f := if IsNewWrite flagsNow then SwapSnapWithClean flagsNow else flagsNow in
  (TripleBuffer.buffer s !! TripleBuffer.snapIndex f,
   TripleBuffer.mk f (TripleBuffer.buffer s) (TripleBuffer.writer s) (TripleBuffer.reader s)).

Definition TryRead s : bool := false.

Definition Empty s : bool := false.

Definition Flush s : TripleBuffer.state T := s.
End ops.
End SharedTripleBuffer.

(** ** The factory *)
Inductive AnyBuffer (T : Type) :=
| Fifo (b : FIFOBuffer.t T)
| Triple (s : TripleBuffer.state T).
Arguments Fifo {T}. Arguments Triple {T}.

(** [SharedBufferFactory::Make(type, args...)] with [args] the capacity; the
    triple buffer takes none and starts with default-constructed slots. *)
Definition Make {T} (type : SharedBufferType) (cap : Z) (dummy : T) : AnyBuffer T :=
  match type with
  | kFIFO_BUFFER => Fifo (FIFOBuffer.make cap)
  | kTRIPLE_BUFFER => Triple (SharedTripleBuffer.make dummy)
  end.

(** The virtual calls of [SharedBuffer<T>]. *)
Definition buffer_write {T} (b : AnyBuffer T) (x : T) : SharedBufferError * AnyBuffer T :=
  match b with
  | Fifo b => let '(e, b') := FIFOBuffer.Write b x in (e, Fifo b')
  | Triple s => let '(e, s') := SharedTripleBuffer.Write s x in (e, Triple s')
  end.

Definition buffer_read {T} (b : AnyBuffer T) : option T * AnyBuffer T :=
  match b with
  | Fifo b => let '(r, b') := FIFOBuffer.Read b in (r, Fifo b')
  | Triple s => let '(r, s') := SharedTripleBuffer.Read s in (r, Triple s')
  end.

(** ** Properties *)

(** C29: a [FIFOBuffer] of capacity [cap] delivers the accepted messages in order:
    after any sequence of writes and reads, the messages accepted are those
    delivered followed by those queued, at most [cap] are queued, a write is
    refused exactly when [cap] messages are queued, and the skip counter counts the
    refused writes. *)
Theorem fifo_buffer_in_order T (cap : Z) (os : list (FIFOBuffer.op T)) (x : T) :
  0 <= cap < 2 ^ 31 →
  let b0 := FIFOBuffer.SetSkipCounter (FIFOBuffer.make cap) in
  let '(b, g) := FIFOBuffer.run b0 (FIFOBuffer.mk_log [] [] 0) os in
  FIFOBuffer.accepted g = FIFOBuffer.delivered g ++ FIFOBuffer.queue b ∧
  length (FIFOBuffer.queue b) <= cap ∧
  (∀ n, FIFOBuffer.skip_counter b = Some n → n = FIFOBuffer.refused g) ∧
  ((FIFOBuffer.Write b x).1 = kBUFFER_OVERFLOW ↔ Z.of_nat (length (FIFOBuffer.queue b)) = cap).
Proof.
  intros Hcap b0. unfold b0, FIFOBuffer.SetSkipCounter, FIFOBuffer.make. cbn [FIFOBuffer.capacity FIFOBuffer.queue].
  rewrite swrap_small by lia.
  pose proof (FIFOBuffer.run_inv_fifo cap os (FIFOBuffer.mk cap [] (Some 0))
    (FIFOBuffer.mk_log [] [] 0)) as H.
  destruct (FIFOBuffer.run _ _ os) as [b g].
  destruct H as (Hc & Ha & Hl & Hs).
  { unfold FIFOBuffer.run_inv; cbn. split_and!; try done; [|by intros; inv_all].
    by apply uwrap_range. }
  rewrite uwrap_small in Hl by lia.
  split_and!; try done.
  unfold FIFOBuffer.Write, FIFOBuffer.has_room. rewrite Hc, uwrap_small by lia.
  destruct (Z.ltb_spec (length (FIFOBuffer.queue b)) cap); cbn; split; try done; lia.
Qed.

Example fifo_buffer_in_order_witness :
  0 <= 1 < 2 ^ 31 ∧
  let b0 := FIFOBuffer.SetSkipCounter (FIFOBuffer.make 1) in
  let '(b, g) := FIFOBuffer.run b0 (FIFOBuffer.mk_log [] [] 0)
      [FIFOBuffer.OpWrite 4%nat; FIFOBuffer.OpWrite 5%nat; FIFOBuffer.OpRead; FIFOBuffer.OpWrite 6%nat] in
  FIFOBuffer.accepted g = FIFOBuffer.delivered g ++ FIFOBuffer.queue b ∧ FIFOBuffer.queue b = [6%nat].
Proof.
  split; [lia|].
  assert (0 <= 1 < 2 ^ 31) as H by lia.
  pose proof (fifo_buffer_in_order nat 1
    [FIFOBuffer.OpWrite 4%nat; FIFOBuffer.OpWrite 5%nat; FIFOBuffer.OpRead; FIFOBuffer.OpWrite 6%nat]
    7%nat H) as [H1 _].
  split; [exact H1|reflexivity].
Defined.
