(* ===== verification/Numbers.v ===== *)
(** * Numbers::Pack and Numbers::Unpack (src/numbers.cpp)

    An entity tag packs the index of an executor and the entity number it gave
    out into 32 bits. *)
From S2P Require Import Prelude.

Definition Pack (x y : Z) : Z := Z.lor (u32 (Z.shiftl (u16 x) 16)) (u16 y).

(** The two output parameters as a pair. *)
Definition Unpack (v : Z) : Z * Z := (u16 (Z.shiftr (u32 v) 16), u16 (u32 v)).

Lemma Pack_add x y : Pack x y = u16 x * 2 ^ 16 + u16 y.
Proof.
  unfold Pack. pose proof (uwrap_range 16 x) as Hx. pose proof (uwrap_range 16 y) as Hy.
  rewrite Z.shiftl_mul_pow2 by lia. rewrite (uwrap_small 32) by lia.
  apply lor_disjoint_add; lia.
Qed.

Lemma Pack_range x y : 0 <= Pack x y < 2 ^ 32.
Proof.
  rewrite Pack_add. pose proof (uwrap_range 16 x). pose proof (uwrap_range 16 y). lia.
Qed.

Lemma Unpack_divmod v : 0 <= v < 2 ^ 32 → Unpack v = (v `div` 2 ^ 16, v `mod` 2 ^ 16).
Proof.
  intros Hv. unfold Unpack. rewrite (uwrap_small 32) by done.
  rewrite Z.shiftr_div_pow2 by lia. f_equal. apply uwrap_small.
  split; [apply Z.div_pos; lia|]. apply Z.div_lt_upper_bound; lia.
Qed.

Lemma Unpack_Pack x y : Unpack (Pack x y) = (u16 x, u16 y).
Proof.
  rewrite Unpack_divmod by apply Pack_range. rewrite Pack_add.
  pose proof (uwrap_range 16 y).
  rewrite Z.add_comm, Z.div_add, Z.div_small, Z_mod_plus_full, Z.mod_small by lia. done.
Qed.

Lemma Pack_Unpack v : 0 <= v < 2 ^ 32 → Pack (Unpack v).1 (Unpack v).2 = v.
Proof.
  intros Hv. rewrite Unpack_divmod by done. cbn [fst snd].
  rewrite Pack_add. assert (0 <= v `div` 2 ^ 16 < 2 ^ 16).
  { split; [apply Z.div_pos; lia|]. apply Z.div_lt_upper_bound; lia. }
  pose proof (Z.mod_pos_bound v (2 ^ 16)).
  rewrite !uwrap_small by lia. pose proof (Z.div_mod v (2 ^ 16)). lia.
Qed.
