(* ===== verification/Base64.v ===== *)
(** * Base64 (src/base64.cpp)

    Strings and byte buffers are lists of codes in [0, 255].  The loops keep
    their index variables; [None] is a loop that has not returned within its fuel.
    The structural functions [enc_chunks] and [dec_chunks] are the reference the
    loops are compared with. *)
From S2P Require Import Prelude.
From Stdlib Require Import Ascii String.

Definition code (c : ascii) : Z := Z.of_N (N_of_ascii c).

Definition codes (s : string) : list Z := map code (list_ascii_of_string s).

Definition base64_chars (url : bool) : list Z :=
  if url then codes "ABCDEFGHIJKLMNOPQRSTUVWXYZabcdefghijklmnopqrstuvwxyz0123456789-_"
  else codes "ABCDEFGHIJKLMNOPQRSTUVWXYZabcdefghijklmnopqrstuvwxyz0123456789+/".

Definition chr (c : ascii) : Z := code c.

(** [None] is the [std::runtime_error] of the source. *)
Definition pos_of_char (c : Z) : option Z :=
  if (chr "A" <=? c) && (c <=? chr "Z") then Some (c - chr "A")
  else if (chr "a" <=? c) && (c <=? chr "z") then Some (c - chr "a" + (chr "Z" - chr "A") + 1)
  else if (chr "0" <=? c) && (c <=? chr "9") then
    Some (c - chr "0" + (chr "Z" - chr "A") + (chr "z" - chr "a") + 2)
  else if (c =? chr "+") || (c =? chr "-") then Some 62
  else if (c =? chr "/") || (c =? chr "_") then Some 63
  else None.

(** [base64_chars_[k]]. *)
Definition char_at (url : bool) (k : Z) : Z := default 0 (base64_chars url !! Z.to_nat k).

Definition trailing_char (url : bool) : Z := if url then chr "." else chr "=".

(** Indexing a buffer; index [size] of a [std::string] reads the terminating
    zero, and no access goes past it. *)
Definition byte_at (s : list Z) (i : Z) : Z := default 0 (s !! Z.to_nat i).

(** ** Encoding *)
(** One iteration of the loop at [pos]. *)
Definition encode_step (url : bool) (bs : list Z) (in_len pos : Z) : list Z :=
  let b0 := byte_at bs pos in
  let b1 := byte_at bs (u32 (pos + 1)) in
  let b2 := byte_at bs (u32 (pos + 2)) in
  [char_at url (Z.shiftr (b0 .& 0xfc) 2)] ++
  (if u32 (pos + 1) <? in_len then
     [char_at url (Z.shiftl (b0 .& 0x03) 4 + Z.shiftr (b1 .& 0xf0) 4)] ++
     (if u32 (pos + 2) <? in_len then
        [char_at url (Z.shiftl (b1 .& 0x0f) 2 + Z.shiftr (b2 .& 0xc0) 6);
         char_at url (b2 .& 0x3f)]
      else [char_at url (Z.shiftl (b1 .& 0x0f) 2); trailing_char url])
   else [char_at url (Z.shiftl (b0 .& 0x03) 4); trailing_char url; trailing_char url]).

(** [while (pos < in_len) { ...; pos += 3; }] with [unsigned int pos]. *)
Fixpoint encode_loop (fuel : nat) (url : bool) (bs : list Z) (in_len pos : Z) (ret : list Z)
  : option (list Z) :=
  if pos <? in_len then
    match fuel with
    | O => None
    | S fuel' =>
        encode_loop fuel' url bs in_len (u32 (pos + 3)) (ret ++ encode_step url bs in_len pos)
    end
  else Some ret.

Definition base64_encode (bs : list Z) (url : bool) : option (list Z) :=
  encode_loop (S (List.length bs)) url bs (List.length bs) 0 [].

(** ** Line breaks *)
(** [while (pos < str.size()) { str.insert(pos, newline); pos += distance + 1; }]. *)
Fixpoint insert_loop (fuel : nat) (str : list Z) (distance pos : Z) : option (list Z) :=
  if pos <? List.length str then
    match fuel with
    | O => None
    | S fuel' =>
        insert_loop fuel' (take (Z.to_nat pos) str ++ [10] ++ drop (Z.to_nat pos) str)
          distance (pos + distance + 1)
    end
  else Some str.

Definition insert_linebreaks (str : list Z) (distance : Z) : option (list Z) :=
  match str with
  | [] => Some []
  | _ => insert_loop (List.length str) str distance distance
  end.

Definition encode_with_line_breaks (line_length : Z) (s : list Z) : option (list Z) :=
  e ← base64_encode s false;
  insert_linebreaks e line_length.

Definition base64_encode_pem (s : list Z) : option (list Z) := encode_with_line_breaks 64 s.

Definition base64_encode_mime (s : list Z) : option (list Z) := encode_with_line_breaks 76 s.

(** ** Decoding *)
Inductive result := Ok (s : list Z) | Invalid.

Definition is_pad (c : Z) : bool := (c =? chr "=") || (c =? chr ".").

(** One iteration at [pos]: the bytes it appends, or the exception. *)
Definition decode_step (s : list Z) (len pos : Z) : option (list Z) :=
  p1 ← pos_of_char (byte_at s (pos + 1));
  p0 ← pos_of_char (byte_at s pos);
  let o0 := u8 (Z.shiftl p0 2 + Z.shiftr (p1 .& 0x30) 4) in
  if (pos + 2 <? len) && negb (is_pad (byte_at s (pos + 2))) then
    p2 ← pos_of_char (byte_at s (pos + 2));
    let o1 := u8 (Z.shiftl (p1 .& 0x0f) 4 + Z.shiftr (p2 .& 0x3c) 2) in
    if (pos + 3 <? len) && negb (is_pad (byte_at s (pos + 3))) then
      p3 ← pos_of_char (byte_at s (pos + 3));
      Some [o0; o1; u8 (Z.shiftl (p2 .& 0x03) 6 + p3)]
    else Some [o0; o1]
  else Some [o0].

Fixpoint decode_loop (fuel : nat) (s : list Z) (len pos : Z) (ret : list Z) : option result :=
  if pos <? len then
    match fuel with
    | O => None
    | S fuel' =>
        match decode_step s len pos with
        | Some o => decode_loop fuel' s len (pos + 4) (ret ++ o)
        | None => Some Invalid
        end
    end
  else Some (Ok ret).

(** The erase-remove of the newlines. *)
Definition strip_newlines (s : list Z) : list Z := List.filter (λ c, negb (c =? 10)) s.

Definition decode_plain (s : list Z) : option result :=
  match s with
  | [] => Some (Ok [])
  | _ => decode_loop (List.length s) s (List.length s) 0 []
  end.

Definition base64_decode (s : list Z) (remove_linebreaks : bool) : option result :=
  match s with
  | [] => Some (Ok [])
  | _ => if remove_linebreaks then decode_plain (strip_newlines s) else decode_plain s
  end.

Example encode_vector :
  base64_encode (codes "Many hands") false = Some (codes "TWFueSBoYW5kcw==").
Proof. vm_compute. reflexivity. Qed.

Example decode_vector :
  base64_decode (codes "TWFueSBoYW5kcw==") false = Some (Ok (codes "Many hands")).
Proof. vm_compute. reflexivity. Qed.

(** ** The reference functions *)
Definition sextets3 (a b c : Z) : list Z :=
  [a `div` 4; (a `mod` 4) * 16 + b `div` 16; (b `mod` 16) * 4 + c `div` 64; c `mod` 64].

Fixpoint enc_chunks (url : bool) (bs : list Z) : list Z :=
  match bs with
  | [] => []
  | [a] => [char_at url (a `div` 4); char_at url ((a `mod` 4) * 16);
            trailing_char url; trailing_char url]
  | [a; b] => [char_at url (a `div` 4); char_at url ((a `mod` 4) * 16 + b `div` 16);
               char_at url ((b `mod` 16) * 4); trailing_char url]
  | a :: b :: c :: r => map (char_at url) (sextets3 a b c) ++ enc_chunks url r
  end.

(** ** Bit-level facts, by enumeration *)
Definition byte_bits (x : Z) : bool :=
  (Z.shiftr (x .& 0xfc) 2 =? x `div` 4) && (Z.shiftl (x .& 0x03) 4 =? (x `mod` 4) * 16) &&
  (Z.shiftr (x .& 0xf0) 4 =? x `div` 16) && (Z.shiftl (x .& 0x0f) 2 =? (x `mod` 16) * 4) &&
  (Z.shiftr (x .& 0xc0) 6 =? x `div` 64) && (x .& 0x3f =? x `mod` 64).

Lemma byte_bits_ok x : 0 <= x < 256 → byte_bits x = true.
Proof. apply (range_enum 256). vm_compute. reflexivity. Qed.

Definition sextet_bits (k : Z) : bool :=
  (Z.shiftl k 2 =? k * 4) && (Z.shiftr (k .& 0x30) 4 =? k `div` 16) &&
  (Z.shiftl (k .& 0x0f) 4 =? (k `mod` 16) * 16) && (Z.shiftr (k .& 0x3c) 2 =? k `div` 4) &&
  (Z.shiftl (k .& 0x03) 6 =? (k `mod` 4) * 64).

Lemma sextet_bits_ok k : 0 <= k < 64 → sextet_bits k = true.
Proof. apply (range_enum 64). vm_compute. reflexivity. Qed.

Definition char_check (url : bool) (k : Z) : bool :=
  bool_decide (pos_of_char (char_at url k) = Some k) &&
  negb (is_pad (char_at url k)) && negb (char_at url k =? 10).

Lemma char_check_ok url k : 0 <= k < 64 → char_check url k = true.
Proof. apply (range_enum 64). destruct url; vm_compute; reflexivity. Qed.

Lemma char_facts url k : 0 <= k < 64 →
  pos_of_char (char_at url k) = Some k ∧ is_pad (char_at url k) = false ∧ char_at url k ≠ 10.
Proof.
  intros Hk. pose proof (char_check_ok url k Hk) as H. unfold char_check in H.
  rewrite !andb_true_iff, bool_decide_eq_true, !negb_true_iff, Z.eqb_neq in H. tauto.
Qed.

Lemma pad_is_pad url : is_pad (trailing_char url) = true.
Proof. by destruct url. Qed.

Ltac byte_rw x Hx :=
  let H := fresh in
  pose proof (byte_bits_ok x Hx) as H; unfold byte_bits in H;
  rewrite !andb_true_iff, !Z.eqb_eq in H; destruct H as (((((?&?)&?)&?)&?)&?).

Ltac sextet_rw k Hk :=
  let H := fresh in
  pose proof (sextet_bits_ok k Hk) as H; unfold sextet_bits in H;
  rewrite !andb_true_iff, !Z.eqb_eq in H; destruct H as ((((?&?)&?)&?)&?).

Ltac solve_bits :=
  repeat match goal with
    | H : Z.shiftl _ _ = _ |- _ => rewrite H; clear H
    | H : Z.shiftr _ _ = _ |- _ => rewrite H; clear H
    end; unfold uwrap in *; Z.div_mod_to_equations; lia.

Definition is_byte (x : Z) : Prop := 0 <= x < 256.

(** ** The loops read the list they have left *)
Lemma byte_at_drop s pos l i :
  0 <= pos → drop (Z.to_nat pos) s = l → 0 <= i → byte_at s (pos + i) = byte_at l i.
Proof.
  intros Hp <- Hi. unfold byte_at. rewrite lookup_drop. do 3 f_equal. lia.
Qed.

Lemma drop_step (s : list Z) pos n l :
  0 <= pos → 0 <= n → drop (Z.to_nat pos) s = l →
  drop (Z.to_nat (pos + n)) s = drop (Z.to_nat n) l.
Proof. intros Hp Hn <-. rewrite drop_drop. f_equal. lia. Qed.

Lemma drop_length_eq (s : list Z) pos l :
  0 <= pos → drop (Z.to_nat pos) s = l → l ≠ [] → pos + List.length l = List.length s.
Proof.
  intros Hp <- Hl. rewrite length_drop.
  assert (Z.to_nat pos < List.length s)%nat; [|lia].
  destruct (decide (Z.to_nat pos < List.length s)%nat); [done|].
  rewrite drop_ge in Hl by lia. done.
Qed.

Lemma byte_at_0 a l : byte_at (a :: l) 0 = a.
Proof. done. Qed.

Lemma byte_at_1 a b l : byte_at (a :: b :: l) 1 = b.
Proof. done. Qed.

Lemma byte_at_2 a b c l : byte_at (a :: b :: c :: l) 2 = c.
Proof. done. Qed.

Lemma byte_at_3 a b c d l : byte_at (a :: b :: c :: d :: l) 3 = d.
Proof. done. Qed.

Lemma encode_step_chunk url bs pos l :
  0 <= pos → List.length bs < 2 ^ 32 - 3 → drop (Z.to_nat pos) bs = l → l ≠ [] →
  Forall is_byte l →
  encode_step url bs (List.length bs) pos = enc_chunks url (take 3 l).
Proof.
  intros Hp Hl Hd Hne Hb. pose proof (drop_length_eq _ _ _ Hp Hd Hne) as Hlen.
  unfold encode_step. rewrite !uwrap_small by lia.
  replace (byte_at bs pos) with (byte_at bs (pos + 0)) by (by rewrite Z.add_0_r).
  rewrite !(byte_at_drop _ _ _ _ Hp Hd) by lia.
  destruct l as [|a [|b [|c l]]]; [done|..];
    rewrite ?Forall_cons in Hb; cbn [List.length] in Hlen;
    rewrite ?byte_at_0, ?byte_at_1, ?byte_at_2, ?byte_at_3;
    ztest; try lia; destruct Hb as (Ha & Hb); byte_rw a Ha; [|destruct Hb as (Hb & Hc); byte_rw b Hb..].
  - cbn [take enc_chunks sextets3 map app]. congruence.
  - cbn [take enc_chunks sextets3 map app]. congruence.
  - destruct Hc as (Hc & _). byte_rw c Hc. rewrite !firstn_cons, firstn_O. cbn [enc_chunks sextets3 map app]. congruence.
Qed.

Lemma take3_split url l : enc_chunks url l = enc_chunks url (take 3 l) ++ enc_chunks url (drop 3 l).
Proof. by destruct l as [|a [|b [|c l]]]. Qed.

Lemma encode_loop_spec url bs (fuel : nat) : ∀ pos ret,
  Forall is_byte bs → List.length bs < 2 ^ 32 - 3 → 0 <= pos < 2 ^ 32 →
  List.length bs - pos <= 3 * fuel →
  encode_loop fuel url bs (List.length bs) pos ret =
    Some (ret ++ enc_chunks url (drop (Z.to_nat pos) bs)).
Proof.
  induction fuel as [|fuel IH]; intros pos ret Hb Hlen Hp Hf; cbn [encode_loop].
  - destruct (Z.ltb_spec pos (List.length bs)); [lia|].
    rewrite drop_ge by lia. by rewrite app_nil_r.
  - destruct (Z.ltb_spec pos (List.length bs)).
    2: { rewrite drop_ge by lia. by rewrite app_nil_r. }
    rewrite uwrap_small by lia. rewrite IH by (done || lia). f_equal.
    rewrite <- (assoc_L (++)). f_equal.
    rewrite (encode_step_chunk url bs pos _ (proj1 Hp) Hlen eq_refl).
    + rewrite (drop_step bs pos 3 _ (proj1 Hp)) by (done || lia).
      symmetry. apply take3_split.
    + intros E%(f_equal List.length). rewrite length_drop in E. cbn in E. lia.
    + by apply Forall_drop.
Qed.

(** Encoding returns, and gives the reference encoding. *)
Lemma base64_encode_ref bs url :
  Forall is_byte bs → List.length bs < 2 ^ 32 - 3 →
  base64_encode bs url = Some (enc_chunks url bs).
Proof. intros Hb Hl. unfold base64_encode. by rewrite encode_loop_spec by (done || lia). Qed.

Lemma enc_chunks_length url bs :
  Z.of_nat (List.length (enc_chunks url bs)) = (List.length bs + 2) `div` 3 * 4.
Proof.
  induction bs as [|a|a b|a b c l IH] using list_ind3; [done..|].
  cbn [enc_chunks sextets3 map app List.length]. rewrite !Nat2Z.inj_succ, IH.
  replace (Z.succ (Z.succ (Z.succ (List.length l))) + 2) with ((List.length l + 2) + 1 * 3) by lia.
  rewrite Z.div_add by lia. lia.
Qed.

(** ** Decoding what was encoded *)
Lemma sextets_range a b c : is_byte a → is_byte b → is_byte c →
  0 <= a `div` 4 < 64 ∧ 0 <= (a `mod` 4) * 16 < 64 ∧
  0 <= (a `mod` 4) * 16 + b `div` 16 < 64 ∧ 0 <= (b `mod` 16) * 4 < 64 ∧
  0 <= (b `mod` 16) * 4 + c `div` 64 < 64 ∧ 0 <= c `mod` 64 < 64.
Proof. unfold is_byte. intros. split_and!; Z.div_mod_to_equations; lia. Qed.

(** The three output bytes the decoder puts together from adjacent sextets. *)
Lemma first_byte a b : is_byte a → is_byte b →
  u8 (Z.shiftl (a `div` 4) 2 + Z.shiftr (((a `mod` 4) * 16 + b `div` 16) .& 0x30) 4) = a.
Proof.
  intros Ha Hb. pose proof (sextets_range a b a Ha Hb Ha) as (R1 & _ & R3 & _).
  sextet_rw (a `div` 4) R1. sextet_rw ((a `mod` 4) * 16 + b `div` 16) R3.
  unfold is_byte in *. solve_bits.
Qed.

Lemma second_byte a b c : is_byte a → is_byte b → is_byte c →
  u8 (Z.shiftl (((a `mod` 4) * 16 + b `div` 16) .& 0x0f) 4
      + Z.shiftr (((b `mod` 16) * 4 + c `div` 64) .& 0x3c) 2) = b.
Proof.
  intros Ha Hb Hc. pose proof (sextets_range a b c Ha Hb Hc) as (_ & _ & R3 & _ & R5 & _).
  sextet_rw ((a `mod` 4) * 16 + b `div` 16) R3. sextet_rw ((b `mod` 16) * 4 + c `div` 64) R5.
  unfold is_byte in *. solve_bits.
Qed.

Lemma third_byte b c : is_byte b → is_byte c →
  u8 (Z.shiftl (((b `mod` 16) * 4 + c `div` 64) .& 0x03) 6 + c `mod` 64) = c.
Proof.
  intros Hb Hc. pose proof (sextets_range b b c Hb Hb Hc) as (_ & _ & _ & _ & R5 & _).
  sextet_rw ((b `mod` 16) * 4 + c `div` 64) R5. unfold is_byte in *. solve_bits.
Qed.

Lemma first_byte_0 a : is_byte a →
  u8 (Z.shiftl (a `div` 4) 2 + Z.shiftr (((a `mod` 4) * 16) .& 0x30) 4) = a.
Proof.
  intros Ha. rewrite <- (first_byte a 0) at 3 by (done || by cbv).
  by rewrite Z.div_0_l, Z.add_0_r.
Qed.

Lemma second_byte_0 a b : is_byte a → is_byte b →
  u8 (Z.shiftl (((a `mod` 4) * 16 + b `div` 16) .& 0x0f) 4
      + Z.shiftr (((b `mod` 16) * 4) .& 0x3c) 2) = b.
Proof.
  intros Ha Hb. rewrite <- (second_byte a b 0) at 3 by (done || by cbv).
  by rewrite Z.div_0_l, Z.add_0_r.
Qed.

Lemma decode_step_chunk url s pos l :
  0 <= pos → drop (Z.to_nat pos) s = enc_chunks url l → l ≠ [] → Forall is_byte l →
  decode_step s (List.length s) pos = Some (take 3 l).
Proof.
  intros Hp Hd Hne Hb.
  assert (enc_chunks url l ≠ []) as Hne' by (by destruct l as [|? [|? [|? ?]]]).
  pose proof (drop_length_eq _ _ _ Hp Hd Hne') as Hlen.
  unfold decode_step.
  replace (byte_at s pos) with (byte_at s (pos + 0)) by (by rewrite Z.add_0_r).
  rewrite !(byte_at_drop _ _ _ _ Hp Hd) by lia.
  destruct l as [|a [|b [|c l]]]; [done|..];
    rewrite ?Forall_cons in Hb; cbn [enc_chunks sextets3 map app List.length] in *;
    rewrite ?byte_at_0, ?byte_at_1, ?byte_at_2, ?byte_at_3.
  - destruct Hb as (Ha & _). pose proof (sextets_range a a a Ha Ha Ha) as (R1 & R2 & _).
    rewrite (proj1 (char_facts url _ R1)), (proj1 (char_facts url _ R2)). cbn [mbind option_bind].
    rewrite pad_is_pad, andb_false_r. by rewrite first_byte_0.
  - destruct Hb as (Ha & Hb & _). pose proof (sextets_range a b a Ha Hb Ha) as (R1 & _ & R3 & R4 & _).
    rewrite (proj1 (char_facts url _ R1)), (proj1 (char_facts url _ R3)). cbn [mbind option_bind].
    destruct (char_facts url _ R4) as (E4 & N4 & _). rewrite N4, E4.
    rewrite pad_is_pad, andb_false_r. cbn [negb mbind option_bind].
    destruct (Z.ltb_spec (pos + 2) (List.length s)); [|lia]. cbn [andb].
    by rewrite first_byte, second_byte_0.
  - destruct Hb as (Ha & Hb & Hc & _).
    pose proof (sextets_range a b c Ha Hb Hc) as (R1 & _ & R3 & _ & R5 & R6).
    rewrite (proj1 (char_facts url _ R1)), (proj1 (char_facts url _ R3)). cbn [mbind option_bind].
    destruct (char_facts url _ R5) as (E5 & N5 & _). destruct (char_facts url _ R6) as (E6 & N6 & _).
    rewrite N5, E5, N6, E6. cbn [negb mbind option_bind].
    destruct (Z.ltb_spec (pos + 2) (List.length s)); [|lia].
    destruct (Z.ltb_spec (pos + 3) (List.length s)); [|lia]. cbn [andb].
    by rewrite first_byte, second_byte, third_byte.
Qed.

Lemma drop_enc_chunks url l : drop 4 (enc_chunks url l) = enc_chunks url (drop 3 l).
Proof. by destruct l as [|a [|b [|c l]]]. Qed.

Lemma decode_loop_spec url s (fuel : nat) : ∀ pos l ret,
  0 <= pos → drop (Z.to_nat pos) s = enc_chunks url l → Forall is_byte l →
  (List.length l <= fuel)%nat →
  decode_loop fuel s (List.length s) pos ret = Some (Ok (ret ++ l)).
Proof.
  induction fuel as [|fuel IH]; intros pos l ret Hp Hd Hb Hf;
    (destruct (decide (l = [])) as [->|Hne];
     [ cbn in Hd; apply (f_equal List.length) in Hd as Hl; rewrite length_drop in Hl; cbn in Hl;
       cbn [decode_loop]; destruct (Z.ltb_spec pos (List.length s)); [lia|];
       by rewrite app_nil_r |]).
  - destruct l; [done|cbn in Hf; lia].
  - cbn [decode_loop]. 
    assert (enc_chunks url l ≠ []) as Hne' by (by destruct l as [|? [|? [|? ?]]]).
    pose proof (drop_length_eq _ _ _ Hp Hd Hne') as Hlen.
    assert (0 < List.length (enc_chunks url l)) by (destruct (enc_chunks url l); [done|cbn; lia]).
    destruct (Z.ltb_spec pos (List.length s)); [|lia].
    rewrite (decode_step_chunk url s pos l Hp Hd Hne Hb).
    rewrite (IH (pos + 4) (drop 3 l)).
    + by rewrite <- (assoc_L (++)), take_drop.
    + lia.
    + rewrite (drop_step s pos 4 _ Hp) by (done || lia). change (Z.to_nat 4) with 4%nat.
      by rewrite drop_enc_chunks.
    + by apply Forall_drop.
    + rewrite length_drop. destruct l; cbn in *; [done|lia].
Qed.

Lemma decode_plain_ref url bs :
  Forall is_byte bs → decode_plain (enc_chunks url bs) = Some (Ok bs).
Proof.
  intros Hb. destruct (decide (bs = [])) as [->|Hne]; [done|].
  assert (enc_chunks url bs ≠ []) by (by destruct bs as [|? [|? [|? ?]]]).
  assert (decode_plain (enc_chunks url bs) =
          decode_loop (List.length (enc_chunks url bs)) (enc_chunks url bs)
            (List.length (enc_chunks url bs)) 0 []) as ->
    by (destruct (enc_chunks url bs); done).
  rewrite (decode_loop_spec url _ _ 0 bs); [done|lia|done|done|].
  pose proof (enc_chunks_length url bs). Z.div_mod_to_equations; lia.
Qed.

(** ** Line breaks come out again *)
Lemma enc_chunks_no_newline url bs :
  Forall is_byte bs → Forall (λ c, c ≠ 10) (enc_chunks url bs).
Proof.
  assert (trailing_char url ≠ 10) by (by destruct url).
  induction bs as [|a|a b|a b c l IH] using list_ind3; intros Hb; [done|..];
    rewrite ?Forall_cons in Hb; cbn [enc_chunks sextets3 map app].
  - destruct Hb as (Ha & _). destruct (sextets_range a a a Ha Ha Ha) as (R1 & R2 & _).
    rewrite !Forall_cons. split_and!; (done || by apply char_facts).
  - destruct Hb as (Ha & Hb & _). destruct (sextets_range a b a Ha Hb Ha) as (R1 & _ & R3 & R4 & _).
    rewrite !Forall_cons. split_and!; (done || by apply char_facts).
  - destruct Hb as (Ha & Hb & Hc & Hl).
    destruct (sextets_range a b c Ha Hb Hc) as (R1 & _ & R3 & _ & R5 & R6).
    rewrite !Forall_cons. split_and!; (by apply IH) || (by apply char_facts).
Qed.

Lemma strip_newlines_id s : Forall (λ c, c ≠ 10) s → strip_newlines s = s.
Proof.
  unfold strip_newlines. induction 1 as [|c s Hc Hs IH]; [done|]. cbn.
  destruct (Z.eqb_spec c 10); [done|]. cbn. by rewrite IH.
Qed.

Lemma strip_newlines_app s t : strip_newlines (s ++ t) = strip_newlines s ++ strip_newlines t.
Proof. apply List.filter_app. Qed.

(** Inserting line breaks returns; it adds newlines and nothing else. *)
Lemma insert_loop_strip (fuel : nat) : ∀ str distance pos,
  0 < distance → 0 <= pos → List.length str - pos <= fuel →
  ∃ out, insert_loop fuel str distance pos = Some out ∧ strip_newlines out = strip_newlines str.
Proof.
  induction fuel as [|fuel IH]; intros str d pos Hd Hp Hf; cbn [insert_loop].
  - destruct (Z.ltb_spec pos (List.length str)); [lia|]. eauto.
  - destruct (Z.ltb_spec pos (List.length str)); [|eauto].
    edestruct (IH (take (Z.to_nat pos) str ++ [10] ++ drop (Z.to_nat pos) str) d (pos + d + 1))
      as (out & -> & Ho); [done|lia|rewrite !length_app, length_take, length_drop; cbn; lia|].
    exists out. split; [done|]. rewrite Ho, !strip_newlines_app. cbn [app].
    change (strip_newlines [10]) with (@nil Z). cbn [app].
    by rewrite <- strip_newlines_app, take_drop.
Qed.

Lemma insert_linebreaks_strip str distance :
  0 < distance →
  ∃ out, insert_linebreaks str distance = Some out ∧ strip_newlines out = strip_newlines str.
Proof.
  intros Hd. unfold insert_linebreaks. destruct str as [|c str]; [eauto|].
  apply insert_loop_strip; lia.
Qed.

(** ** Decoding any input *)
Lemma decode_loop_total (fuel : nat) : ∀ s len pos ret,
  len - pos <= 4 * fuel → ∃ r, decode_loop fuel s len pos ret = Some r.
Proof.
  induction fuel as [|fuel IH]; intros s len pos ret Hf; cbn [decode_loop].
  - destruct (Z.ltb_spec pos len); [lia|eauto].
  - destruct (Z.ltb_spec pos len); [|eauto].
    destruct (decode_step s len pos); [apply IH; lia|eauto].
Qed.

(** A last chunk of one character reads the terminating zero, which is no base64
    character. *)
Lemma decode_step_single s pos :
  pos + 1 = List.length s → decode_step s (List.length s) pos = None.
Proof.
  intros Hp. unfold decode_step.
  assert (byte_at s (pos + 1) = 0) as -> by
    (unfold byte_at; by rewrite lookup_ge_None_2 by lia).
  done.
Qed.

Lemma decode_loop_single (fuel : nat) : ∀ s pos ret r,
  pos `mod` 4 = 0 → List.length s `mod` 4 = 1 → pos < List.length s →
  decode_loop fuel s (List.length s) pos ret = Some r → r = Invalid.
Proof.
  induction fuel as [|fuel IH]; intros s pos ret r Hp Hl Hlt; cbn [decode_loop];
    (destruct (Z.ltb_spec pos (List.length s)); [|lia]); [done|].
  destruct (decide (pos + 1 = List.length s)) as [E|E].
  - rewrite decode_step_single by done. by intros [= <-].
  - destruct (decode_step s (List.length s) pos); [|by intros [= <-]].
    apply IH; [..|done|]; Z.div_mod_to_equations; lia.
Qed.

Lemma base64_decode_encode (bs : list Z) (url rm : bool) :
  Forall is_byte bs → List.length bs < 2 ^ 32 - 3 →
  base64_encode bs url = Some (enc_chunks url bs) ∧ base64_decode (enc_chunks url bs) rm = Some (Ok bs).
Proof.
  intros Hb Hl. split; [by apply base64_encode_ref|].
  unfold base64_decode. rewrite (strip_newlines_id (enc_chunks url bs))
    by by apply enc_chunks_no_newline.
  rewrite (decode_plain_ref url bs Hb).
  destruct (enc_chunks url bs) eqn:E; [|by destruct rm].
  by destruct bs as [|? [|? [|? ?]]].
Qed.

(** ** Properties *)
(** C23: decoding an encoding gives the input back, in both alphabets and with either
    treatment of line breaks: for every byte string shorter than 2^32 - 3 bytes,
    [base64_encode] returns, its output is 4 characters per started group of three
    bytes, and [base64_decode] of that output returns exactly the bytes. *)
Theorem base64_roundtrip (bs : list Z) (url rm : bool) :
  Forall is_byte bs → List.length bs < 2 ^ 32 - 3 →
  ∃ s, base64_encode bs url = Some s ∧
    Z.of_nat (List.length s) = (List.length bs + 2) `div` 3 * 4 ∧
    base64_decode s rm = Some (Ok bs).
Proof.
  intros Hb Hl. destruct (base64_decode_encode bs url rm Hb Hl) as [He Hd].
  exists (enc_chunks url bs). split; [done|]. split; [apply enc_chunks_length|done].
Qed.

Lemma base64_roundtrip_witness :
  ∃ s, base64_encode [0; 255; 62; 7] true = Some s ∧
    Z.of_nat (List.length s) = 8 ∧ base64_decode s false = Some (Ok [0; 255; 62; 7]).
Proof.
  apply (base64_roundtrip [0; 255; 62; 7] true false).
  - repeat constructor; lia.
  - cbn; lia.
Defined.

(** the PEM and MIME encodings (line breaks every 64 and every 76 characters)
    return, and decode to the input when the decoder is asked to remove line breaks. *)
Theorem base64_linebreaks_roundtrip (bs : list Z) (mime : bool) :
  Forall is_byte bs → List.length bs < 2 ^ 32 - 3 →
  ∃ s, (if mime then base64_encode_mime bs else base64_encode_pem bs) = Some s ∧
    base64_decode s true = Some (Ok bs).
Proof.
  intros Hb Hl.
  destruct (insert_linebreaks_strip (enc_chunks false bs) (if mime then 76 else 64))
    as (s & Hs & Hstrip); [destruct mime; lia|].
  exists s. split.
  - unfold base64_encode_mime, base64_encode_pem, encode_with_line_breaks.
    rewrite base64_encode_ref by done. by destruct mime.
  - rewrite (strip_newlines_id (enc_chunks false bs)) in Hstrip
      by by apply enc_chunks_no_newline.
    unfold base64_decode. rewrite Hstrip, (decode_plain_ref false bs Hb).
    destruct s; [|done].
    cbn in Hstrip. by destruct bs as [|? [|? [|? ?]]].
Qed.

Lemma base64_linebreaks_roundtrip_witness :
  ∃ s, base64_encode_pem (replicate 100 65) = Some s ∧
    base64_decode s true = Some (Ok (replicate 100 65)).
Proof.
  apply (base64_linebreaks_roundtrip (replicate 100 65) false).
  - apply Forall_replicate. by split.
  - rewrite length_replicate. lia.
Defined.

(** decoding returns on every input, with the bytes or with the exception, and
    an unpadded input whose length is 1 modulo 4 is always refused. *)
Theorem base64_decode_total (s : list Z) (rm : bool) :
  ∃ r, base64_decode s rm = Some r ∧
    (rm = false ∧ List.length s `mod` 4 = 1 → r = Invalid).
Proof.
  assert (∀ t, ∃ r, decode_plain t = Some r) as Ht.
  { intros [|c t]; [eauto|]. apply decode_loop_total; lia. }
  destruct s as [|c s]; [exists (Ok []); split; [done|]; by intros [? [=]]|].
  destruct rm; cbn [base64_decode].
  - destruct (Ht (strip_newlines (c :: s))) as (r & ->). exists r. split; [done|]. by intros [? ?].
  - destruct (Ht (c :: s)) as (r & Hr). exists r. split; [done|]. intros [_ Hm].
    eapply decode_loop_single; [| |
      |exact Hr]; [done|done|cbn; lia].
Qed.

(** [base64_encode] counts its position in 32 bits: for an input of 2^32 bytes or
    more the loop never ends, whatever the number of iterations. *)
Theorem base64_encode_diverges (bs : list Z) (url : bool) (in_len : Z) (fuel : nat) (ret : list Z) :
  2 ^ 32 <= in_len → encode_loop fuel url bs in_len 0 ret = None.
Proof.
  intros Hl. assert (∀ pos ret, 0 <= pos < 2 ^ 32 → encode_loop fuel url bs in_len pos ret = None) as H;
    [|by apply H].
  clear ret. induction fuel as [|fuel IH]; intros pos ret Hp; cbn [encode_loop];
    (destruct (Z.ltb_spec pos in_len); [|lia]); [done|].
  apply IH, uwrap_range. lia.
Qed.

Lemma base64_encode_diverges_witness : encode_loop 5 false [1; 2; 3] (2 ^ 32) 0 [] = None.
Proof. apply (base64_encode_diverges [1; 2; 3] false (2 ^ 32) 5 []). lia. Defined.
