(* ===== verification/EventCount.v ===== *)
(** * The eventcount of the worker threads (src/work_notifier.h, include/ar/notifier.hpp)

    [WorkNotifier] keeps one 64-bit word (stack of committed waiters, number of
    pre-waiters, epoch) and an array of waiters linked through [next].  This file
    translates the operations, interleaves any number of waiter and notifier
    threads over them one access to shared memory at a time, and compares the
    machine with an abstract eventcount (a queue of pre-waiters, a stack of
    sleepers, a set of sleepers being woken).  Accesses are sequentially
    consistent; the code path is the one without [__cpp_lib_atomic_wait]. *)
From S2P Require Import Prelude.

Module WorkNotifier.

(** ** The state word *)
Definition kStackBits : Z := 16.

Definition kStackMask : Z := Z.shiftl 1 kStackBits - 1.

Definition kWaiterBits : Z := 16.

Definition kWaiterShift : Z := 16.

Definition kWaiterMask : Z := Z.shiftl (Z.shiftl 1 kWaiterBits - 1) kWaiterShift.

Definition kWaiterInc : Z := Z.shiftl 1 kWaiterBits.

Definition kEpochBits : Z := 32.

Definition kEpochShift : Z := 32.

Definition kEpochMask : Z := Z.shiftl (Z.shiftl 1 kEpochBits - 1) kEpochShift.

Definition kEpochInc : Z := Z.shiftl 1 kEpochShift.

(** [enum : unsigned { kNotSignaled = 0, kWaiting, kSignaled }]. *)
Inductive signal := kNotSignaled | kWaiting | kSignaled.

#[global] Instance signal_eq_dec : EqDecision signal.
Proof. solve_decision. Defined.

(** [struct Waiter]; a [Waiter*] is an index of [_waiters], [None] is [nullptr]. *)
Record Waiter := mkWaiter {
  next : option nat;
  epoch : Z;
  state : signal
}.

(** The constructor's initial word, for [N] waiters. *)
Definition init_state (N : nat) : Z :=
  kStackMask .| u64 (kEpochMask - u64 (u64 (kEpochInc * N) * 2)).

(** The constructor's and destructor's assertions. *)
Definition ctor_assert (N : nat) : bool := N <? Z.shiftl 1 kWaiterBits - 1.

Definition dtor_assert (s : Z) : bool := s .& (kStackMask .| kWaiterMask) =? kStackMask.

(** [w->epoch]'s modification epoch, computed alike in [commit_wait] and [cancel_wait]. *)
Definition ticket (e : Z) : Z :=
  u64 ((e .& kEpochMask) + u64 (Z.shiftl (Z.shiftr (e .& kWaiterMask) kWaiterShift) kEpochShift)).

(** [int64_t((state & kEpochMask) - epoch)]. *)
Definition lag (s t : Z) : Z := i64 (u64 ((s .& kEpochMask) - t)).

(** [state - kWaiterInc + kEpochInc]. *)
Definition leave_prewait (s : Z) : Z := u64 (s - kWaiterInc + kEpochInc).

(** The word [commit_wait] installs: off the pre-wait counter, onto the stack. *)
Definition commit_word (s : Z) (w : nat) : Z := Z.ldiff (leave_prewait s) kStackMask .| w.

(** The pointer [commit_wait] stores in [w->next]. *)
Definition commit_next (s : Z) : option nat :=
  if s .& kStackMask =? kStackMask then None else Some (Z.to_nat (s .& kStackMask)).

(** ** Waiter threads *)
(** Where the thread that owns waiter [w] is; the argument is its local [state]. *)
Inductive wpc :=
| WOut                       (* not waiting *)
| WPrepared                  (* prepare_wait has returned *)
| WCommitLoad                (* commit_wait, before the first load *)
| WCommit (s : Z)            (* commit_wait, at the head of the loop *)
| WCommitCas (s : Z)         (* commit_wait, w->next stored, before the exchange *)
| WCancelLoad                (* cancel_wait, before the first load *)
| WCancel (s : Z)            (* cancel_wait, at the head of the loop *)
| WPark                      (* _park, about to test w->state with the mutex *)
| WBlocked.                  (* _park, inside cv.wait *)

(** [prepare_wait]: the word it leaves and the waiter. *)
Definition prepare_wait (st : Z) (w : Waiter) : Z * Waiter :=
  (u64 (st + kWaiterInc), mkWaiter (next w) st (state w)).

(** The entry of [commit_wait]. *)
Definition commit_begin (w : Waiter) : Waiter := mkWaiter (next w) (epoch w) kNotSignaled.

(** [compare_exchange_weak]: on success the new word, else the reloaded value;
    [weak] is a spurious failure. *)
Definition cas_weak (st expected desired : Z) (weak : bool) : Z + Z :=
  if (st =? expected) && negb weak then inl desired else inr st.

(** One access of the waiter thread of index [i]. *)
Definition waiter_step (st : Z) (i : nat) (w : Waiter) (pc : wpc) (weak : bool)
  : Z * Waiter * wpc :=
  match pc with
  | WCommitLoad => (st, w, WCommit st)
  | WCommit s =>
      if lag s (ticket (epoch w)) <? 0 then (st, w, WCommit st)
      else if 0 <? lag s (ticket (epoch w)) then (st, w, WOut)
      else (st, mkWaiter (commit_next s) (epoch w) (state w), WCommitCas s)
  | WCommitCas s =>
      match cas_weak st s (commit_word s i) weak with
      | inl st' => (st', w, WPark)
      | inr s' => (st, w, WCommit s')
      end
  | WCancelLoad => (st, w, WCancel st)
  | WCancel s =>
      if lag s (ticket (epoch w)) <? 0 then (st, w, WCancel st)
      else if 0 <? lag s (ticket (epoch w)) then (st, w, WOut)
      else match cas_weak st s (leave_prewait s) weak with
           | inl st' => (st', w, WOut)
           | inr s' => (st, w, WCancel s')
           end
  | WPark =>
      match state w with
      | kSignaled => (st, w, WOut)
      | _ => (st, mkWaiter (next w) (epoch w) kWaiting, WBlocked)
      end
  | WOut | WPrepared | WBlocked => (st, w, pc)
  end.

(** ** Notifier threads *)
Inductive npc :=
| NOut (ret : option nat)                      (* no call, or the last one returned [ret] *)
| NLoad (all : bool)                           (* notify, before the first load *)
| NLoop (all : bool) (s : Z)                   (* notify, at the head of the loop *)
| NPop (s : Z) (wnext : option nat)            (* w->next loaded, before the exchange *)
| NUnlink (w : nat)                            (* popped [w], before w->next = nullptr *)
| NUnpark (r : nat) (w : option nat)           (* _unpark, at the head of its loop *)
| NSignal (r w : nat) (next : option nat)      (* next loaded, before the mutex of [w] *)
| NWake (r w : nat) (next : option nat)        (* signalled, before cv.notify_one *)
| NCrash.                                      (* an index out of [_waiters] was used *)

(** [(state & kWaiterMask) >> kWaiterShift]. *)
Definition prewaiters (s : Z) : Z := Z.shiftr (s .& kWaiterMask) kWaiterShift.

(** [notify]'s test for no waiters. *)
Definition no_waiters (s : Z) : bool :=
  (s .& kStackMask =? kStackMask) && (s .& kWaiterMask =? 0).

(** The new words of [notify]'s three branches. *)
Definition notify_all_word (s : Z) : Z :=
  u64 ((s .& kEpochMask) + u64 (kEpochInc * prewaiters s) + kStackMask).

Definition notify_pre_word (s : Z) : Z := u64 (s + kEpochInc - kWaiterInc).

Definition notify_pop_word (s : Z) (wnext : option nat) : Z :=
  u64 ((s .& kEpochMask) + match wnext with Some n => n | None => kStackMask end).

(** After a successful exchange from [s]. *)
Definition notify_after (all : bool) (s : Z) : npc :=
  if negb all && negb (prewaiters s =? 0) then NOut None
  else if s .& kStackMask =? kStackMask then NOut None
  else let w := Z.to_nat (s .& kStackMask) in
       if all then NUnpark w (Some w) else NUnlink w.

Definition set_next (w : Waiter) (n : option nat) : Waiter := mkWaiter n (epoch w) (state w).

Definition set_signal (w : Waiter) (sg : signal) : Waiter := mkWaiter (next w) (epoch w) sg.

(** One access of a notifier thread: the word, the waiters, where it is next, and
    the waiter whose condition variable it notifies. *)
Definition notify_step (st : Z) (ws : list Waiter) (pc : npc) (weak : bool)
  : Z * list Waiter * npc * option nat :=
  match pc with
  | NOut _ | NCrash => (st, ws, pc, None)
  | NLoad all => (st, ws, NLoop all st, None)
  | NLoop all s =>
      if no_waiters s then (st, ws, NOut None, None)
      else if all || negb (prewaiters s =? 0) then
        match cas_weak st s (if all then notify_all_word s else notify_pre_word s) weak with
        | inl st' => (st', ws, notify_after all s, None)
        | inr s' => (st, ws, NLoop all s', None)
        end
      else match ws !! Z.to_nat (s .& kStackMask) with
           | Some w => (st, ws, NPop s (next w), None)
           | None => (st, ws, NCrash, None)
           end
  | NPop s wnext =>
      match cas_weak st s (notify_pop_word s wnext) weak with
      | inl st' => (st', ws, notify_after false s, None)
      | inr s' => (st, ws, NLoop false s', None)
      end
  | NUnlink w => (st, alter (λ x, set_next x None) w ws, NUnpark w (Some w), None)
  | NUnpark r None => (st, ws, NOut (Some r), None)
  | NUnpark r (Some w) =>
      match ws !! w with
      | Some x => (st, ws, NSignal r w (next x), None)
      | None => (st, ws, NCrash, None)
      end
  | NSignal r w nx =>
      match ws !! w with
      | Some x =>
          (st, alter (λ x, set_signal x kSignaled) w ws,
           match state x with kWaiting => NWake r w nx | _ => NUnpark r nx end, None)
      | None => (st, ws, NCrash, None)
      end
  | NWake r w nx => (st, ws, NUnpark r nx, Some w)
  end.

(** The calls [notify_n] makes. *)
Definition notify_n_calls (size n : nat) : list bool :=
  if (size <=? n)%nat then [true] else replicate n false.

(** [notify_waiter]: what it calls next, from the values its calls of [notify(true)]
    have returned so far; [None] when it returns. *)
Definition notify_waiter_next (size w : nat) (returned : list (option nat)) : option bool :=
  if bool_decide (last returned = Some (Some w)) then None
  else if (List.length returned <? size)%nat then Some true
  else if (List.length returned =? size)%nat then Some false
  else None.

(** ** The fields of a word *)
Definition word (top k e : Z) : Z := top + k * 2 ^ 16 + e * 2 ^ 32.

Definition fields (top k e : Z) : Prop :=
  0 <= top < 2 ^ 16 ∧ 0 <= k < 2 ^ 16 ∧ 0 <= e < 2 ^ 32.

Lemma land_field x n m : 0 <= n → 0 <= m →
  x .& Z.shiftl (Z.shiftl 1 n - 1) m = (x `div` 2 ^ m) `mod` 2 ^ n * 2 ^ m.
Proof.
  intros Hn Hm. rewrite Z.shiftl_1_l, <- land_mask_mod by done.
  rewrite <- Z.shiftr_div_pow2, <- (Z.shiftl_mul_pow2 _ m) by done.
  apply Z.bits_inj'. intros i Hi. rewrite Z.land_spec, !Z.shiftl_spec by done.
  rewrite Z.land_spec. destruct (Z.ltb_spec i m).
  - rewrite !(Z.testbit_neg_r _ (i - m)) by lia. by rewrite andb_false_r.
  - rewrite Z.shiftr_spec by lia. do 2 f_equal. lia.
Qed.

Section fields.
Context (top k e : Z) (H : fields top k e).

Ltac fld := unfold word, fields in *; Z.div_mod_to_equations; lia.

Lemma word_range : 0 <= word top k e < 2 ^ 64.
Proof using H. fld. Qed.

Lemma word_stack : word top k e .& kStackMask = top.
Proof using H.
  unfold kStackMask, kStackBits. rewrite Z.shiftl_1_l, land_mask_mod by lia. fld.
Qed.

Lemma word_waiters : word top k e .& kWaiterMask = k * 2 ^ 16.
Proof using H.
  unfold kWaiterMask, kWaiterBits, kWaiterShift. rewrite land_field by lia. fld.
Qed.

Lemma word_epoch : word top k e .& kEpochMask = e * 2 ^ 32.
Proof using H.
  unfold kEpochMask, kEpochBits, kEpochShift. rewrite land_field by lia. fld.
Qed.

Lemma word_prewaiters : prewaiters (word top k e) = k.
Proof using H.
  unfold prewaiters. rewrite word_waiters, Z.shiftr_div_pow2 by done.
  unfold kWaiterShift. fld.
Qed.
End fields.

Lemma word_inj t k e t' k' e' : fields t k e → fields t' k' e' →
  word t k e = word t' k' e' → t = t' ∧ k = k' ∧ e = e'.
Proof. unfold fields, word. intros. lia. Qed.

(** ** The operations on words, with the epoch counted without wrap-around *)
Definition eword (top k E : Z) : Z := word top k (E `mod` 2 ^ 32).

(** [kStackMask] as the empty stack. *)
Definition top_of (stk : list nat) : Z := match stk with [] => 2 ^ 16 - 1 | w :: _ => w end.

Section words.
Context (top k E : Z) (Ht : 0 <= top < 2 ^ 16) (Hk : 0 <= k < 2 ^ 16).

Lemma eword_fields : fields top k (E `mod` 2 ^ 32).
Proof using Ht Hk. unfold fields. pose proof (Z.mod_pos_bound E (2 ^ 32)). lia. Qed.

Local Hint Resolve eword_fields : core.

Lemma mod32_shift x : x `mod` 2 ^ 32 * 2 ^ 32 = (x * 2 ^ 32) `mod` 2 ^ 64.
Proof. change (2 ^ 64) with (2 ^ 32 * 2 ^ 32). by rewrite Zmult_mod_distr_r. Qed.

Lemma eword_mod : eword top k E = (top + k * 2 ^ 16 + E * 2 ^ 32) `mod` 2 ^ 64.
Proof using Ht Hk.
  unfold eword, word. Z.div_mod_to_equations. lia.
Qed.

Lemma ticket_eword : ticket (eword top k E) = (E + k) `mod` 2 ^ 32 * 2 ^ 32.
Proof using Ht Hk.
  unfold ticket, eword. rewrite word_epoch, word_waiters by done.
  rewrite Z.shiftr_div_pow2, Z.shiftl_mul_pow2 by done. unfold kWaiterShift, kEpochShift.
  rewrite Z.div_mul by done. unfold uwrap. rewrite !mod32_shift, <- Zplus_mod. f_equal. lia.
Qed.

Lemma lag_eword T : -2 ^ 31 <= E - T < 2 ^ 31 →
  lag (eword top k E) (T `mod` 2 ^ 32 * 2 ^ 32) = (E - T) * 2 ^ 32.
Proof using Ht Hk.
  intros HT. unfold lag, eword. rewrite word_epoch by done.
  unfold uwrap. rewrite !mod32_shift, <- Zminus_mod.
  replace (E * 2 ^ 32 - T * 2 ^ 32) with ((E - T) * 2 ^ 32) by lia.
  unfold swrap. rewrite Zplus_mod_idemp_l, Z.mod_small by lia. lia.
Qed.

Lemma prepare_eword : k + 1 < 2 ^ 16 → u64 (eword top k E + kWaiterInc) = eword top (k + 1) E.
Proof using Ht Hk.
  intros. unfold uwrap. change kWaiterInc with (2 ^ 16). unfold eword, word.
  Z.div_mod_to_equations. lia.
Qed.

Lemma leave_prewait_eword : 0 < k → leave_prewait (eword top k E) = eword top (k - 1) (E + 1).
Proof using Ht Hk.
  intros. unfold leave_prewait, uwrap. change kWaiterInc with (2 ^ 16).
  change kEpochInc with (2 ^ 32). unfold eword, word. Z.div_mod_to_equations. lia.
Qed.

Lemma commit_word_eword (w : nat) : 0 < k → w < 2 ^ 16 →
  commit_word (eword top k E) w = eword w (k - 1) (E + 1).
Proof using Ht Hk.
  intros. unfold commit_word. rewrite leave_prewait_eword by done.
  unfold kStackMask, kStackBits. change (Z.shiftl 1 16 - 1) with (Z.ones 16). rewrite Z.ldiff_ones_r by lia.
  rewrite Z.shiftr_div_pow2, Z.shiftl_mul_pow2, lor_disjoint_add by lia.
  unfold eword, word. Z.div_mod_to_equations. lia.
Qed.

Lemma notify_all_eword : notify_all_word (eword top k E) = eword (2 ^ 16 - 1) 0 (E + k).
Proof using Ht Hk.
  unfold notify_all_word, eword. rewrite word_epoch, word_prewaiters by done.
  change kEpochInc with (2 ^ 32). change kStackMask with (2 ^ 16 - 1). unfold uwrap, word.
  Z.div_mod_to_equations. lia.
Qed.

Lemma notify_pre_eword : 0 < k → notify_pre_word (eword top k E) = eword top (k - 1) (E + 1).
Proof using Ht Hk.
  intros. rewrite <- leave_prewait_eword by done. unfold notify_pre_word, leave_prewait.
  f_equal. lia.
Qed.

Lemma no_waiters_eword : no_waiters (eword top k E) = (top =? 2 ^ 16 - 1) && (k =? 0).
Proof using Ht Hk.
  unfold no_waiters, eword. rewrite word_stack, word_waiters by done.
  change kStackMask with (2 ^ 16 - 1). f_equal. ztest; lia.
Qed.

Lemma eword_stack : eword top k E .& kStackMask = top.
Proof using Ht Hk. by apply word_stack. Qed.

Lemma eword_prewaiters : prewaiters (eword top k E) = k.
Proof using Ht Hk. by apply word_prewaiters. Qed.

Lemma eword_epoch : Z.shiftr (eword top k E) 32 = E `mod` 2 ^ 32.
Proof using Ht Hk.
  rewrite Z.shiftr_div_pow2 by lia. unfold eword, word. Z.div_mod_to_equations. lia.
Qed.
End words.

Lemma notify_pop_eword top k E (rest : list nat) :
  0 <= top < 2 ^ 16 → 0 <= k < 2 ^ 16 → (∀ x : nat, x ∈ rest → x < 2 ^ 16) →
  notify_pop_word (eword top k E) (head rest) = eword (top_of rest) 0 E.
Proof.
  intros Ht Hk Hr. unfold notify_pop_word, eword. rewrite word_epoch by by apply eword_fields.
  assert (match head rest with Some n => Z.of_nat n | None => kStackMask end = top_of rest) as ->
    by (by destruct rest).
  assert (0 <= top_of rest < 2 ^ 16).
  { destruct rest as [|x r]; cbn [top_of]; [lia|]. pose proof (Hr x (list_elem_of_here x r)). lia. }
  unfold uwrap, word. Z.div_mod_to_equations. lia.
Qed.

End WorkNotifier.

(** ** The twin class [Notifier] (include/ar/notifier.hpp)

    Its text is that of [WorkNotifier], with a [notify] that returns nothing and
    without [notify_waiter]; a thread that has left [notify] keeps no result. *)
Module Notifier.
Import WorkNotifier.

(** The layout of the word and the values of [Waiter::state]. *)
Definition kStackBits : Z := 16.

Definition kStackMask : Z := Z.shiftl 1 kStackBits - 1.

Definition kWaiterBits : Z := 16.

Definition kWaiterShift : Z := 16.

Definition kWaiterMask : Z := Z.shiftl (Z.shiftl 1 kWaiterBits - 1) kWaiterShift.

Definition kWaiterInc : Z := Z.shiftl 1 kWaiterBits.

Definition kEpochBits : Z := 32.

Definition kEpochShift : Z := 32.

Definition kEpochMask : Z := Z.shiftl (Z.shiftl 1 kEpochBits - 1) kEpochShift.

Definition kEpochInc : Z := Z.shiftl 1 kEpochShift.

Definition Waiter : Type := WorkNotifier.Waiter.

Definition init_state (N : nat) : Z := kStackMask .| u64 (kEpochMask - u64 (u64 (kEpochInc * N) * 2)).

Definition ctor_assert (N : nat) : bool := N <? Z.shiftl 1 kWaiterBits - 1.

Definition dtor_assert (s : Z) : bool := s .& (kStackMask .| kWaiterMask) =? kStackMask.

Definition size (waiters : list Waiter) : nat := List.length waiters.

(** [_park], one turn of its loop with the mutex held. *)
Definition _park (w : Waiter) : Waiter * wpc :=
  match state w with
  | kSignaled => (w, WOut)
  | _ => (mkWaiter (next w) (epoch w) kWaiting, WBlocked)
  end.

(** [_unpark], one access of its loop. *)
Definition _unpark (st : Z) (ws : list Waiter) (pc : npc) : Z * list Waiter * npc * option nat :=
  match pc with
  | NUnpark r None => (st, ws, NOut (Some r), None)
  | NUnpark r (Some w) =>
      match ws !! w with
      | Some x => (st, ws, NSignal r w (next x), None)
      | None => (st, ws, NCrash, None)
      end
  | NSignal r w nx =>
      match ws !! w with
      | Some x =>
          (st, alter (λ x, set_signal x kSignaled) w ws,
           match state x with kWaiting => NWake r w nx | _ => NUnpark r nx end, None)
      | None => (st, ws, NCrash, None)
      end
  | NWake r w nx => (st, ws, NUnpark r nx, Some w)
  | _ => (st, ws, pc, None)
  end.

Definition prepare_wait (st : Z) (w : Waiter) : Z * Waiter := WorkNotifier.prepare_wait st w.

Definition waiter_step (st : Z) (i : nat) (w : Waiter) (pc : wpc) (weak : bool)
  : Z * Waiter * wpc := WorkNotifier.waiter_step st i w pc weak.

Definition forget (pc : npc) : npc := match pc with NOut _ => NOut None | _ => pc end.

Definition notify_step (st : Z) (ws : list Waiter) (pc : npc) (weak : bool)
  : Z * list Waiter * npc * option nat :=
  let '(st', ws', pc', wk) := WorkNotifier.notify_step st ws pc weak in (st', ws', forget pc', wk).

Definition notify_n_calls (size n : nat) : list bool := WorkNotifier.notify_n_calls size n.

(** The two classes lay out the word alike, start from the same word and park and unpark
    alike, so that what is proved of the one holds of the other. *)
Lemma notifier_twin (N : nat) (s : Z) :
  init_state N = WorkNotifier.init_state N ∧ ctor_assert N = WorkNotifier.ctor_assert N ∧
  dtor_assert s = WorkNotifier.dtor_assert s ∧
  (∀ i w weak, (let '(w', pc') := _park w in (s, w', pc')) = WorkNotifier.waiter_step s i w WPark weak) ∧
  (∀ ws pc weak, (∃ r o, pc = NUnpark r o) ∨ (∃ r w nx, pc = NSignal r w nx) ∨ (∃ r w nx, pc = NWake r w nx) →
    _unpark s ws pc = WorkNotifier.notify_step s ws pc weak).
Proof.
  split_and!; [done..| |].
  - intros i w weak. unfold _park. cbn. by destruct (state w).
  - intros ws pc weak [(r & [w|] & ->)|[(r & w & nx & ->)|(r & w & nx & ->)]]; done.
Qed.

End Notifier.
