(* ===== verification/AtomicPark.v ===== *)
(** * Parking with [std::atomic::wait] (src/work_notifier.h, include/ar/notifier.hpp)

    Compiled with [__cpp_lib_atomic_wait], [_park] and [_unpark] use one atomic of three
    values and no mutex.  EventCountMachine.v runs the variant with a condition variable;
    here one waiter that has pushed itself on the stack meets the one notifier that has
    taken it off (the eventcount gives a sleeper to one notifier only), each access
    interleaved. *)
From S2P Require Import Prelude.
From S2P Require Import EventCount.
Import WorkNotifier.

Module AtomicPark.

(** [_park]: before the exchange, inside [wait] about to compare, blocked, returned. *)
Inductive parker := PExchange | PCompare | PBlocked | PReturned.

(** [_unpark] for this waiter: not yet there, about to notify, done. *)
Inductive unparker := UExchange | UNotify | UDone.

Record t := mk { state : signal; park : parker; unpark : unparker }.

(** [commit_wait] has stored [kNotSignaled]. *)
Definition start : t := mk kNotSignaled PExchange UExchange.

(** [compare_exchange_strong(target, kWaiting)], then [wait(kWaiting)]. *)
Definition park_step (s : t) : option t :=
  match park s with
  | PExchange =>
      Some (if bool_decide (state s = kNotSignaled) then mk kWaiting PCompare (unpark s)
            else mk (state s) PReturned (unpark s))
  | PCompare =>
      Some (mk (state s) (if bool_decide (state s = kWaiting) then PBlocked else PReturned) (unpark s))
  | PBlocked | PReturned => None
  end.

(** [exchange(kSignaled)], then [notify_one] if the waiter was waiting. *)
Definition unpark_step (s : t) : option t :=
  match unpark s with
  | UExchange => Some (mk kSignaled (park s) (if bool_decide (state s = kWaiting) then UNotify else UDone))
  | UNotify => Some (mk (state s) (match park s with PBlocked => PCompare | p => p end) UDone)
  | UDone => None
  end.

Inductive label := Park | Unpark | Spurious.

Definition step (s : t) (l : label) : option t :=
  match l with
  | Park => park_step s
  | Unpark => unpark_step s
  | Spurious => match park s with PBlocked => Some (mk (state s) PCompare (unpark s)) | _ => None end
  end.

Inductive reachable : t → Prop :=
| reach_start : reachable start
| reach_step s l s' : reachable s → step s l = Some s' → reachable s'.

(** What the atomic says of the two threads. *)
Definition ok (s : t) : Prop :=
  match unpark s with
  | UExchange =>
      (state s = kNotSignaled ∧ park s = PExchange) ∨
      (state s = kWaiting ∧ (park s = PCompare ∨ park s = PBlocked))
  | UNotify => state s = kSignaled ∧ park s ≠ PExchange
  | UDone => state s = kSignaled ∧ park s ≠ PBlocked
  end.

Lemma ok_reachable s : reachable s → ok s.
Proof.
  induction 1 as [|[st p u] l s' _ IH Hst]; [by left|].
  destruct l, st, p, u; vm_compute in Hst; simplify_eq; cbn in *; intuition congruence.
Qed.

(** The steps the waiter is still to take once nobody else moves. *)
Definition left_to_do (p : parker) : nat :=
  match p with PExchange | PBlocked => 2 | PCompare => 1 | PReturned => 0 end.

(** A blocked waiter is not signalled yet, or the notifier is about to notify it. *)
Lemma atomic_park_no_lost_wakeup s : reachable s → park s = PBlocked →
  (unpark s = UExchange ∧ state s = kWaiting) ∨ unpark s = UNotify.
Proof. intros Hr Hb. pose proof (ok_reachable s Hr) as Hok. unfold ok in Hok. destruct (unpark s); intuition congruence. Qed.

(** Once the notifier is done, every step of the waiter brings it closer to its return,
    and only a return stops it. *)
Lemma atomic_park_returns s : reachable s → unpark s = UDone → park s ≠ PReturned →
  ∃ s', park_step s = Some s' ∧ unpark s' = UDone ∧ (left_to_do (park s') < left_to_do (park s))%nat.
Proof.
  intros Hr Hu Hp. pose proof (ok_reachable s Hr) as Hok. destruct s as [st p u]. cbn in *. subst u.
  destruct Hok as [Hst Hb]. cbn in Hst, Hb. subst st.
  destruct p; try done; (eexists; split; [reflexivity|]; split; [done|]; vm_compute; lia).
Qed.

End AtomicPark.
