(* ===== verification/EventCountMachine.v ===== *)
(** * Interleaved waiters and notifiers

    The machine runs the accesses of [EventCount] in any order.  Beside the program's
    variables it carries ghost counters that no step reads: [gE], the epoch without
    wrap-around, each waiter's ticket [tk], and for every thread the value of [gE]
    when it last loaded the word.  The 32-bit epoch of the word is ambiguous when a
    thread sleeps through 2^31 epochs between two of its own accesses; [lap_ok] says
    that this has not happened. *)
From stdpp Require Import functions.
From S2P Require Import Prelude.
From S2P Require Import EventCount.
Import WorkNotifier.

Module EventCountMachine.

Record wthread := mkW { wt : Waiter; wp : wpc; tk : Z; wse : Z }.

Record nthread := mkN { np : npc; nse : Z }.

Record cfg := mkCfg {
  _state : Z;
  wthreads : list wthread;
  nthreads : list nthread;
  gE : Z
}.

Inductive label :=
| LPrepare (i : nat)                  (* the owner of waiter i calls prepare_wait *)
| LCommit (i : nat)                   (* ... then commit_wait *)
| LCancel (i : nat)                   (* ... or cancel_wait *)
| LWaiter (i : nat) (weak : bool)     (* its next access *)
| LSpurious (i : nat)                 (* a spurious wakeup of its condition variable *)
| LNotify (j : nat) (all : bool)      (* thread j calls notify(all) *)
| LNotifier (j : nat) (weak : bool).  (* its next access *)

#[global] Instance label_eq_dec : EqDecision label.
Proof. solve_decision. Defined.

(** The epoch field of a word. *)
Definition epoch_field (st : Z) : Z := Z.shiftr st 32.

Definition next_gE (c : cfg) (st' : Z) : Z :=
  gE c + (epoch_field st' - epoch_field (_state c)) `mod` 2 ^ 32.

(** Storing the waiters back in their threads; a notified blocked thread runs again. *)
Definition put_waiters (ts : list wthread) (ws : list Waiter) : list wthread :=
  zip_with (λ t w, mkW w (wp t) (tk t) (wse t)) ts ws.

Definition wake (t : wthread) : wthread :=
  match wp t with
  | WBlocked => mkW (wt t) WPark (tk t) (wse t)
  | _ => t
  end.

Definition wake_waiter (o : option nat) (ts : list wthread) : list wthread :=
  match o with Some i => alter wake i ts | None => ts end.

Definition waiter_loads (pc pc' : wpc) : bool :=
  match pc, pc' with WCommit _, WCommitCas _ => false | _, _ => true end.

Definition notifier_loads (pc pc' : npc) : bool :=
  match pc, pc' with NLoop _ _, NPop _ _ => false | _, _ => true end.

Definition step_waiter (c : cfg) (i : nat) (t : wthread) (weak : bool) : cfg :=
  let '(st', w', pc') := waiter_step (_state c) i (wt t) (wp t) weak in
  let E' := next_gE c st' in
  mkCfg st'
    (<[i := mkW w' pc' (tk t) (if waiter_loads (wp t) pc' then E' else wse t)]> (wthreads c))
    (nthreads c) E'.

Definition step_notifier (c : cfg) (j : nat) (n : nthread) (weak : bool) : cfg :=
  let '(st', ws', pc', wk) := notify_step (_state c) (map wt (wthreads c)) (np n) weak in
  let E' := next_gE c st' in
  mkCfg st' (wake_waiter wk (put_waiters (wthreads c) ws'))
    (<[j := mkN pc' (if notifier_loads (np n) pc' then E' else nse n)]> (nthreads c)) E'.

Definition step (c : cfg) (l : label) : option cfg :=
  match l with
  | LPrepare i =>
      t ← wthreads c !! i;
      match wp t with
      | WOut =>
          let '(st', w') := prepare_wait (_state c) (wt t) in
          Some (mkCfg st'
                  (<[i := mkW w' WPrepared (gE c + prewaiters (_state c)) (wse t)]> (wthreads c))
                  (nthreads c) (gE c))
      | _ => None
      end
  | LCommit i =>
      t ← wthreads c !! i;
      match wp t with
      | WPrepared =>
          Some (mkCfg (_state c) (<[i := mkW (commit_begin (wt t)) WCommitLoad (tk t) (wse t)]>
                  (wthreads c)) (nthreads c) (gE c))
      | _ => None
      end
  | LCancel i =>
      t ← wthreads c !! i;
      match wp t with
      | WPrepared =>
          Some (mkCfg (_state c) (<[i := mkW (wt t) WCancelLoad (tk t) (wse t)]>
                  (wthreads c)) (nthreads c) (gE c))
      | _ => None
      end
  | LWaiter i weak => t ← wthreads c !! i; Some (step_waiter c i t weak)
  | LSpurious i =>
      t ← wthreads c !! i;
      Some (mkCfg (_state c) (<[i := wake t]> (wthreads c)) (nthreads c) (gE c))
  | LNotify j all =>
      n ← nthreads c !! j;
      match np n with
      | NOut _ => Some (mkCfg (_state c) (wthreads c) (<[j := mkN (NLoad all) (nse n)]> (nthreads c)) (gE c))
      | _ => None
      end
  | LNotifier j weak => n ← nthreads c !! j; Some (step_notifier c j n weak)
  end.

Definition init (N M : nat) : cfg :=
  mkCfg (init_state N)
    (replicate N (mkW (mkWaiter None 0 kNotSignaled) WOut 0 0))
    (replicate M (mkN (NOut None) 0)) (2 ^ 32 - 1 - 2 * N).

(** Between [prepare_wait] and the end of [commit_wait] or [cancel_wait]. *)
Definition active (p : wpc) : bool :=
  match p with WOut | WPark | WBlocked => false | _ => true end.

Definition parked (p : wpc) : bool :=
  match p with WPark | WBlocked => true | _ => false end.

Definition looping (p : npc) : bool :=
  match p with NLoop _ _ | NPop _ _ => true | _ => false end.

(** No thread has slept through 2^31 epochs with a ticket, or 2^32 with a loaded word. *)
Definition lap_ok (c : cfg) : Prop :=
  (∀ i t, wthreads c !! i = Some t → active (wp t) = true → gE c - tk t < 2 ^ 31) ∧
  (∀ j n, nthreads c !! j = Some n → looping (np n) = true → gE c - nse n < 2 ^ 32).

Inductive reachable (N M : nat) : cfg → Prop :=
| reach_init : reachable N M (init N M)
| reach_step c l c' :
    reachable N M c → step c l = Some c' → lap_ok c' → reachable N M c'.

(** ** The abstract eventcount *)
Record spec := mkSpec {
  pre : list nat;            (* pre-waiters, in the order of prepare_wait *)
  stk : list nat;            (* sleepers, last one first *)
  ch : nat → list nat        (* sleepers notifier j has taken and not yet signalled *)
}.

Inductive event :=
| EPrepare (i : nat) | ECommit (i : nat) | ECancel (i : nat)
| ENotifyAll (j : nat) | ENotifyPre (j i : nat) | ENotifyPop (j i : nat) | ESignal (j i : nat).

Definition spec_init : spec := mkSpec [] [] (λ _, []).

Inductive spec_step : spec → event → spec → Prop :=
| s_prepare p s h i : i ∉ p → i ∉ s → (∀ j, i ∉ h j) →
    spec_step (mkSpec p s h) (EPrepare i) (mkSpec (p ++ [i]) s h)
| s_commit p s h i : spec_step (mkSpec (i :: p) s h) (ECommit i) (mkSpec p (i :: s) h)
| s_cancel p s h i : spec_step (mkSpec (i :: p) s h) (ECancel i) (mkSpec p s h)
| s_all p s h j : h j = [] →
    spec_step (mkSpec p s h) (ENotifyAll j) (mkSpec [] [] (<[j := s]> h))
| s_pre p s h j i : spec_step (mkSpec (i :: p) s h) (ENotifyPre j i) (mkSpec p s h)
| s_pop s h j i : h j = [] →
    spec_step (mkSpec [] (i :: s) h) (ENotifyPop j i) (mkSpec [] s (<[j := [i]]> h))
| s_signal p s h j i l : h j = i :: l →
    spec_step (mkSpec p s h) (ESignal j i) (mkSpec p s (<[j := l]> h)).

(** ** The simulation relation *)
Fixpoint link (ts : list wthread) (start : option nat) (l : list nat) : Prop :=
  match l with
  | [] => start = None
  | x :: l' => start = Some x ∧ ∃ t, ts !! x = Some t ∧ link ts (next (wt t)) l'
  end.

(** [s] is a word that was in memory when the epoch was [e]. *)
Definition past (E s e : Z) : Prop :=
  ∃ top k, 0 <= top < 2 ^ 16 ∧ 0 <= k < 2 ^ 16 ∧ s = eword top k e ∧ e <= E.

Definition owned (a : spec) (i : nat) : Prop := i ∈ stk a ∨ ∃ j, i ∈ ch a j.

Definition waking (ns : list nthread) (i : nat) : Prop :=
  ∃ j n r nx, ns !! j = Some n ∧ np n = NWake r i nx.

Definition committing (p : wpc) : bool :=
  match p with WCommitLoad | WCommit _ | WCommitCas _ => true | _ => false end.

Definition loc (p : wpc) : option Z :=
  match p with WCommit s | WCommitCas s | WCancel s => Some s | _ => None end.

(** What the state of thread [i] says. *)
Record winv (E : Z) (p : list nat) (own wak : Prop) (i : nat) (t : wthread) : Prop := {
  wi_ticket : active (wp t) = true →
    ticket (epoch (wt t)) = tk t `mod` 2 ^ 32 * 2 ^ 32 ∧
    (tk t < E ∨ ∃ n : nat, tk t = E + n ∧ p !! n = Some i);
  wi_pre : ∀ n : nat, p !! n = Some i → active (wp t) = true ∧ tk t = E + n;
  wi_loc : ∀ s, loc (wp t) = Some s → past E s (wse t) ∧ tk t < wse t + 2 ^ 16;
  wi_cas : ∀ s, wp t = WCommitCas s → next (wt t) = commit_next s ∧ wse t = tk t;
  wi_sig : committing (wp t) = true → state (wt t) = kNotSignaled;
  wi_own : own ↔ parked (wp t) = true ∧ state (wt t) ≠ kSignaled;
  wi_blk : wp t = WBlocked → state (wt t) ≠ kNotSignaled ∧ (state (wt t) = kSignaled → wak)
}.

Definition next_of (ts : list wthread) (i : nat) : option (option nat) :=
  (λ t, next (wt t)) <$> ts !! i.

Definition ninv (E : Z) (ts : list wthread) (s : list nat) (chj : list nat) (n : nthread) : Prop :=
  match np n with
  | NOut _ | NLoad _ => chj = []
  | NLoop _ w =>
      chj = [] ∧ past E w (nse n) ∧
      (w .& kStackMask = 2 ^ 16 - 1 ∨ w .& kStackMask < List.length ts)
  | NPop w nx =>
      chj = [] ∧ past E w (nse n) ∧ prewaiters w = 0 ∧ w .& kStackMask ≠ 2 ^ 16 - 1 ∧
      (nse n = E → ∀ x : nat, w .& kStackMask = x → x ∈ s → next_of ts x = Some nx)
  | NCrash => False
  | NUnlink w => chj = [w]
  | NUnpark _ o => link ts o chj
  | NSignal _ w nx => ∃ l, chj = w :: l ∧ link ts nx l
  | NWake _ w nx => link ts nx chj
  end.

Record sim (c : cfg) (a : spec) : Prop := {
  sim_size : List.length (wthreads c) < 2 ^ 16 - 1;
  sim_word : _state c = eword (top_of (stk a)) (List.length (pre a)) (gE c);
  sim_w : ∀ i t, wthreads c !! i = Some t →
    winv (gE c) (pre a) (owned a i) (waking (nthreads c) i) i t;
  sim_n : ∀ j n, nthreads c !! j = Some n → ninv (gE c) (wthreads c) (stk a) (ch a j) n;
  sim_ch : ∀ j, nthreads c !! j = None → ch a j = [];
  sim_stk : link (wthreads c) (head (stk a)) (stk a);
  sim_nd : NoDup (stk a) ∧ ∀ j, NoDup (ch a j);
  sim_disj : (∀ j x, x ∈ stk a → x ∉ ch a j) ∧ (∀ j j' x, x ∈ ch a j → x ∈ ch a j' → j = j');
  sim_dom : ∀ x, x ∈ pre a ∨ owned a x → is_Some (wthreads c !! x)
}.

(** ** Frame lemmas *)
Lemma link_ext ts ts' l : ∀ st,
  (∀ x, x ∈ l → next_of ts' x = next_of ts x) → link ts st l → link ts' st l.
Proof.
  induction l as [|x l IH]; intros st Hx; [done|]. intros (-> & t & Ht & Hl).
  split; [done|]. specialize (Hx x (list_elem_of_here _ _)) as E.
  unfold next_of in E. rewrite Ht in E. cbn in E.
  destruct (ts' !! x) as [t'|] eqn:Ht'; [|done]. injection E as E. exists t'. split; [done|].
  rewrite E. apply IH; [|done]. intros y Hy. apply Hx. by constructor.
Qed.

Lemma link_head ts o l : link ts o l → o = head l.
Proof. destruct l; cbn; [done|]. by intros [-> _]. Qed.

Lemma past_mono E E' s e : past E s e → E <= E' → past E' s e.
Proof. intros (t & k & ? & ? & ? & ?) ?. exists t, k. split_and!; (done || lia). Qed.

(** What a thread knows survives [d] more epochs in which the other threads move. *)
Lemma winv_shift (d : nat) E p p' own own' (wak wak' : Prop) i t :
  winv E p own wak i t → (own ↔ own') → (wak → wak') →
  (∀ n : nat, p' !! n = Some i ↔ p !! (n + d)%nat = Some i) →
  winv (E + d) p' own' wak' i t.
Proof.
  intros [Ht Hp Hl Hc Hg Ho Hb] Hown Hwak Hpp. split.
  - intros Ha. destruct (Ht Ha) as [? Hor]. split; [done|].
    destruct Hor as [?|(n & ? & Hn)]; [lia|].
    destruct (decide (n < d)%nat) as [?|?]; [lia|]. right. exists (n - d)%nat. split; [lia|].
    apply Hpp. by replace (n - d + d)%nat with n by lia.
  - intros n Hn%Hpp. apply Hp in Hn as [? ?]. split; [done|lia].
  - intros s Hs. destruct (Hl s Hs) as [? ?]. split; [|done]. eapply past_mono; [done|lia].
  - done.
  - done.
  - by rewrite <- Hown.
  - intros Hblk. destruct (Hb Hblk) as [? ?]. auto.
Qed.

Lemma winv_same E p own own' (wak wak' : Prop) i t :
  winv E p own wak i t → (own ↔ own') → (wak → wak') → winv E p own' wak' i t.
Proof.
  intros H Ho Hw. rewrite <- (Z.add_0_r E). apply (winv_shift 0 E p p own own' wak wak'); try done.
  intros n. by rewrite Nat.add_0_r.
Qed.

Lemma ninv_shift E E' ts ts' s s' chj n :
  ninv E ts s chj n → E <= E' → (E' = E → s' ⊆ s) → List.length ts' = List.length ts →
  (∀ x, x ∈ chj ∨ x ∈ s → next_of ts' x = next_of ts x) → ninv E' ts' s' chj n.
Proof.
  intros H HE Hs Hlen Hn. unfold ninv in *. destruct (np n); try done.
  - destruct H as (? & ? & ?). rewrite Hlen. split_and!; [done|by eapply past_mono|done].
  - destruct H as (? & Hp & ? & ? & Hx). split_and!; try done; [by eapply past_mono|].
    intros He x Hw Hin. destruct Hp as (? & ? & ? & ? & ? & ?).
    assert (E' = E) as HEE by lia. rewrite Hn by (right; by apply Hs). apply Hx; [lia|done|].
    by apply Hs.
  - eapply link_ext; [|done]. auto.
  - destruct H as (l & -> & Hl). exists l. split; [done|]. eapply link_ext; [|done].
    intros x Hx. apply Hn. left. by constructor.
  - eapply link_ext; [|done]. auto.
Qed.

Lemma next_of_insert ts i t t' x :
  ts !! i = Some t → (x = i → next (wt t') = next (wt t)) →
  next_of (<[i := t']> ts) x = next_of ts x.
Proof.
  intros Hi Hx. unfold next_of. destruct (decide (i = x)) as [->|Hne].
  - rewrite list_lookup_insert_eq by (by eapply lookup_lt_Some). rewrite Hi. cbn. by rewrite Hx.
  - by rewrite list_lookup_insert_ne.
Qed.

Lemma waking_insert ns j n n' i :
  ns !! j = Some n → (∀ r nx, np n = NWake r i nx → ∃ r' nx', np n' = NWake r' i nx') →
  waking ns i → waking (<[j := n']> ns) i.
Proof.
  intros Hj Hn (j' & m & r & nx & Hm & Hp). destruct (decide (j = j')) as [->|Hne].
  - rewrite Hj in Hm. injection Hm as ->. destruct (Hn _ _ Hp) as (r' & nx' & Hp').
    exists j', n', r', nx'. by rewrite list_lookup_insert_eq by (by eapply lookup_lt_Some).
  - exists j', m, r, nx. by rewrite list_lookup_insert_ne.
Qed.

(** ** One thread moves and the abstract state stays *)
Lemma sim_waiter_local c a i t t' :
  sim c a → wthreads c !! i = Some t →
  winv (gE c) (pre a) (owned a i) (waking (nthreads c) i) i t' →
  (owned a i → next (wt t') = next (wt t)) →
  sim (mkCfg (_state c) (<[i := t']> (wthreads c)) (nthreads c) (gE c)) a.
Proof.
  intros [Hsz Hst Hw Hn Hc Hs Hnd Hd Hdom] Hi Ht' Hnx.
  assert (∀ x, owned a x → next_of (<[i := t']> (wthreads c)) x = next_of (wthreads c) x) as Hsame.
  { intros x Hx. eapply next_of_insert; [done|]. intros ->. auto. }
  split; cbn [wthreads _state nthreads gE]; try done.
  - by rewrite length_insert.
  - intros x u. destruct (decide (i = x)) as [->|Hne].
    + rewrite list_lookup_insert_eq by (by eapply lookup_lt_Some). by intros [= <-].
    + rewrite list_lookup_insert_ne by done. apply Hw.
  - intros j n Hj. eapply ninv_shift; [by apply Hn|done|done|by rewrite ?length_insert|].
    intros x [Hx|Hx]; apply Hsame; [right; eauto|by left].
  - eapply link_ext; [|done]. intros x Hx. apply Hsame. by left.
  - intros x Hx. apply Hdom in Hx. destruct (decide (i = x)) as [->|Hne].
    + rewrite list_lookup_insert_eq by (by eapply lookup_lt_Some). eauto.
    + by rewrite list_lookup_insert_ne.
Qed.

Lemma sim_notifier_local c a j n n' :
  sim c a → nthreads c !! j = Some n →
  ninv (gE c) (wthreads c) (stk a) (ch a j) n' →
  (∀ r i nx, np n = NWake r i nx → is_Some (wthreads c !! i) →
    ∃ r' nx', np n' = NWake r' i nx') →
  sim (mkCfg (_state c) (wthreads c) (<[j := n']> (nthreads c)) (gE c)) a.
Proof.
  intros [Hsz Hst Hw Hn Hc Hs Hnd Hd Hdom] Hj Hn' Hwk.
  split; cbn [wthreads _state nthreads gE]; try done.
  - intros i t Hi. eapply winv_same; [by apply Hw|done|]. eapply waking_insert; eauto.
  - intros x u. destruct (decide (j = x)) as [->|Hne].
    + rewrite list_lookup_insert_eq by (by eapply lookup_lt_Some). by intros [= <-].
    + rewrite list_lookup_insert_ne by done. apply Hn.
  - intros x. destruct (decide (j = x)) as [->|Hne].
    + rewrite list_lookup_insert_eq by (by eapply lookup_lt_Some). done.
    + rewrite list_lookup_insert_ne by done. apply Hc.
Qed.

(** ** The word of a simulated configuration *)
Lemma sim_pre_nodup c a : sim c a → NoDup (pre a).
Proof.
  intros Hs. apply NoDup_alt. intros n m i Hn Hm.
  destruct (sim_dom _ _ Hs i) as [t Ht]; [left; by eapply list_elem_of_lookup_2|].
  pose proof (sim_w _ _ Hs i t Ht) as W.
  destruct (wi_pre _ _ _ _ _ _ W n Hn), (wi_pre _ _ _ _ _ _ W m Hm). lia.
Qed.

Lemma sim_top c a : sim c a → 0 <= top_of (stk a) < 2 ^ 16.
Proof.
  intros Hs. pose proof (sim_size _ _ Hs). unfold top_of. destruct (stk a) as [|x s] eqn:E; [lia|].
  destruct (sim_dom _ _ Hs x) as [t Ht]; [right; left; rewrite E; by constructor|].
  apply lookup_lt_Some in Ht. lia.
Qed.

Lemma sim_top_empty c a : sim c a → top_of (stk a) = 2 ^ 16 - 1 → stk a = [].
Proof.
  intros Hs. pose proof (sim_size _ _ Hs). unfold top_of. destruct (stk a) as [|x s] eqn:E; [done|].
  destruct (sim_dom _ _ Hs x) as [t Ht]; [right; left; rewrite E; by constructor|].
  apply lookup_lt_Some in Ht. lia.
Qed.

Lemma sim_len c a : sim c a → List.length (pre a) < 2 ^ 16 - 1.
Proof.
  intros Hs. pose proof (sim_size _ _ Hs).
  assert (List.length (pre a) <= List.length (wthreads c))%nat; [|lia].
  rewrite <- (length_seq (List.length (wthreads c)) 0).
  apply submseteq_length, NoDup_submseteq; [by eapply sim_pre_nodup|].
  intros x Hx. destruct (sim_dom _ _ Hs x) as [t Ht]; [by left|].
  apply lookup_lt_Some in Ht. apply elem_of_seq. lia.
Qed.

Lemma sim_past c a : sim c a → past (gE c) (_state c) (gE c).
Proof.
  intros Hs. pose proof (sim_len _ _ Hs). pose proof (sim_top _ _ Hs).
  exists (top_of (stk a)), (List.length (pre a)). rewrite (sim_word _ _ Hs). split_and!; try done; lia.
Qed.

(** A loaded word that is still in memory was loaded in this epoch. *)
Lemma sim_cas c a s e :
  sim c a → past (gE c) s e → gE c - e < 2 ^ 32 → _state c = s → e = gE c.
Proof.
  intros Hs (t & k & Ht & Hk & -> & He) Hlap Hst. rewrite (sim_word _ _ Hs) in Hst.
  pose proof (sim_len _ _ Hs). pose proof (sim_top _ _ Hs).
  apply word_inj in Hst as (_ & _ & Heq); [|apply eword_fields; lia..].
  Z.div_mod_to_equations. nia.
Qed.

(** The current word names a waiter that exists, or none. *)
Lemma sim_valid c a : sim c a →
  _state c .& kStackMask = 2 ^ 16 - 1 ∨ _state c .& kStackMask < List.length (wthreads c).
Proof.
  intros Hs. pose proof (sim_len _ _ Hs). pose proof (sim_top _ _ Hs).
  rewrite (sim_word _ _ Hs), eword_stack by lia. destruct (stk a) as [|x s] eqn:E; [by left|right].
  destruct (sim_dom _ _ Hs x) as [t Ht]; [right; left; rewrite E; by constructor|].
  apply lookup_lt_Some in Ht. cbn [top_of]. lia.
Qed.

Lemma next_gE_same c : next_gE c (_state c) = gE c.
Proof. unfold next_gE. rewrite Z.sub_diag, Z.mod_0_l by done. lia. Qed.

Lemma next_gE_add c a top k d :
  sim c a → 0 <= top < 2 ^ 16 → 0 <= k < 2 ^ 16 → 0 <= d < 2 ^ 32 →
  next_gE c (eword top k (gE c + d)) = gE c + d.
Proof.
  intros Hs Ht Hk Hd. pose proof (sim_len _ _ Hs). pose proof (sim_top _ _ Hs).
  unfold next_gE, epoch_field. rewrite (sim_word _ _ Hs), !eword_epoch by lia.
  rewrite <- Zminus_mod. replace (gE c + d - gE c) with d by lia. rewrite Z.mod_small by lia. done.
Qed.

(** ** The abstract steps *)
Lemma sim_prepare c a i t :
  sim c a → wthreads c !! i = Some t → wp t = WOut →
  sim (mkCfg (u64 (_state c + kWaiterInc))
         (<[i := mkW (mkWaiter (next (wt t)) (_state c) (state (wt t))) WPrepared
                  (gE c + prewaiters (_state c)) (wse t)]> (wthreads c))
         (nthreads c) (gE c))
      (mkSpec (pre a ++ [i]) (stk a) (ch a)) ∧
  (i ∉ pre a) ∧ (¬ owned a i).
Proof.
  intros Hs Hi Hpc. pose proof (sim_len _ _ Hs) as Hlen. pose proof (sim_top _ _ Hs) as Htop.
  pose proof (sim_w _ _ Hs i t Hi) as W.
  assert (i ∉ pre a) as Hnp.
  { intros [n Hn]%list_elem_of_lookup_1. apply (wi_pre _ _ _ _ _ _ W) in Hn as [Hn _].
    by rewrite Hpc in Hn. }
  assert (¬ owned a i) as Hno.
  { intros Ho. apply (wi_own _ _ _ _ _ _ W) in Ho as [Ho _]. by rewrite Hpc in Ho. }
  split; [|done]. destruct Hs as [Hsz Hst Hw Hn Hc Hs Hnd Hd Hdom].
  assert (∀ x, next_of (<[i := mkW (mkWaiter (next (wt t)) (_state c) (state (wt t))) WPrepared
            (gE c + prewaiters (_state c)) (wse t)]> (wthreads c)) x = next_of (wthreads c) x) as Hsame
    by (intros x; by eapply next_of_insert).
  rewrite Hst, eword_prewaiters by lia.
  split; cbn [wthreads _state nthreads gE pre stk ch]; try done.
  - by rewrite length_insert.
  - rewrite prepare_eword by lia. rewrite length_app. cbn [List.length]. f_equal. lia.
  - intros x u. destruct (decide (i = x)) as [->|Hne].
    + rewrite list_lookup_insert_eq by (by eapply lookup_lt_Some). intros [= <-].
      split; cbn [wp wt tk wse next epoch state active parked loc committing]; try done.
      * intros _. rewrite ticket_eword by lia. split; [done|]. right. exists (List.length (pre a)).
        split; [done|]. by rewrite lookup_app_r, Nat.sub_diag by lia.
      * intros n Hn'. split; [done|]. apply lookup_app_Some in Hn' as [Hn'|[Hn' Hn'']].
        -- by apply list_elem_of_lookup_2 in Hn'.
        -- apply list_lookup_singleton_Some in Hn'' as [? _]. lia.
      * split; [done|]. by intros [? _].
    + rewrite list_lookup_insert_ne by done. intros Hx. rewrite <- (Z.add_0_r (gE c)).
      eapply (winv_shift 0); [by apply Hw|done|done|]. intros n. rewrite Nat.add_0_r.
      rewrite lookup_app_Some, list_lookup_singleton_Some. naive_solver.
  - intros j n Hj. eapply ninv_shift; [by apply Hn|done|done|by rewrite ?length_insert|]. intros x _.
    rewrite <- Hsame. by rewrite Hst, eword_prewaiters by lia.
  - eapply link_ext; [|done]. intros x _. rewrite <- Hsame.
    by rewrite Hst, eword_prewaiters by lia.
  - intros x Hx. destruct (decide (i = x)) as [->|Hne].
    + rewrite list_lookup_insert_eq by (by eapply lookup_lt_Some). eauto.
    + rewrite list_lookup_insert_ne by done. apply Hdom. unfold owned in *. set_solver.
Qed.

(** The head of the pre-wait queue leaves it, and the epoch advances. *)
Lemma sim_pop_pre c a i0 p :
  sim c a → pre a = i0 :: p →
  sim (mkCfg (eword (top_of (stk a)) (List.length p) (gE c + 1)) (wthreads c) (nthreads c) (gE c + 1))
      (mkSpec p (stk a) (ch a)).
Proof.
  intros [Hsz Hst Hw Hn Hc Hs Hnd Hd Hdom] Hp.
  split; cbn [wthreads _state nthreads gE pre stk ch]; try done.
  - intros i t Hi. eapply (winv_shift 1); [by apply Hw|done|done|]. intros n.
    rewrite Hp, Nat.add_1_r. done.
  - intros j n Hj. eapply ninv_shift; [by apply Hn|lia|done|done|done].
  - intros x Hx. apply Hdom. unfold owned in *. rewrite Hp. set_solver.
Qed.

(** Leaving the queue, a thread is on the stack. *)
Lemma sim_commit c a i t t' p :
  sim c a → wthreads c !! i = Some t → pre a = i :: p →
  wp t' = WPark → state (wt t') = state (wt t) → state (wt t) ≠ kSignaled →
  next (wt t') = head (stk a) →
  sim (mkCfg (eword i (List.length p) (gE c + 1)) (<[i := t']> (wthreads c)) (nthreads c) (gE c + 1))
      (mkSpec p (i :: stk a) (ch a)).
Proof.
  intros Hsim Hi Hp Hpc Hsg Hsg' Hnx. pose proof (sim_pre_nodup _ _ Hsim) as Hndp.
  destruct Hsim as [Hsz Hst Hw Hn Hc Hs Hnd Hd Hdom].
  assert (¬ owned a i) as Hno.
  { intros Ho. destruct (wi_pre _ _ _ _ _ _ (Hw i t Hi) 0%nat) as [Ha _]; [by rewrite Hp|].
    apply (wi_own _ _ _ _ _ _ (Hw i t Hi)) in Ho as [Ho _]. by destruct (wp t). }
  assert (∀ x, owned a x → next_of (<[i := t']> (wthreads c)) x = next_of (wthreads c) x) as Hsame.
  { intros x Hx. eapply next_of_insert; [done|]. intros ->. done. }
  rewrite Hp, NoDup_cons in Hndp. destruct Hndp as [Hip _].
  split; cbn [wthreads _state nthreads gE pre stk ch]; try done.
  - by rewrite length_insert.
  - intros x u. destruct (decide (i = x)) as [->|Hne].
    + rewrite list_lookup_insert_eq by (by eapply lookup_lt_Some). intros [= <-].
      split; rewrite ?Hpc; cbn [active loc parked committing]; try done.
      * intros n Hn'%list_elem_of_lookup_2. done.
      * split; [intros _; split; [done|by rewrite Hsg]|]. intros _. left. cbn. by constructor.
    + rewrite list_lookup_insert_ne by done. intros Hx.
      eapply (winv_shift 1); [by apply Hw| |done|].
      * unfold owned. cbn [stk ch]. set_solver.
      * intros n. rewrite Hp, Nat.add_1_r. done.
  - intros j n Hj. eapply ninv_shift; [by apply Hn|lia|lia|by rewrite length_insert|].
    intros x [Hx|Hx]; apply Hsame; [right; eauto|by left].
  - cbn [head link]. split; [done|]. exists t'.
    rewrite list_lookup_insert_eq by (by eapply lookup_lt_Some). split; [done|]. rewrite Hnx.
    eapply link_ext; [|done]. intros x Hx. apply Hsame. by left.
  - split; [|apply Hnd]. apply NoDup_cons. split; [|apply Hnd]. intros Hx. apply Hno. by left.
  - split; [|apply Hd]. intros j x [->|Hx]%elem_of_cons; [|by apply Hd].
    intros Hx. apply Hno. right. eauto.
  - intros x Hx. destruct (decide (i = x)) as [->|Hne].
    + rewrite list_lookup_insert_eq by (by eapply lookup_lt_Some). eauto.
    + rewrite list_lookup_insert_ne by done. apply Hdom. unfold owned in *. cbn in Hx.
      rewrite Hp. set_solver.
Qed.

(** A notifier takes [l] off the abstract state into its chain. *)
Lemma sim_take c a j n n' (d : nat) p' s' l st' :
  sim c a → nthreads c !! j = Some n → ch a j = [] →
  stk a = l ++ s' → p' = drop d (pre a) →
  (d <= List.length (pre a))%nat →
  link (wthreads c) (head s') s' →
  st' = eword (top_of s') (List.length p') (gE c + d) →
  (∀ r i nx, np n ≠ NWake r i nx) →
  ninv (gE c + d) (wthreads c) s' l n' →
  sim (mkCfg st' (wthreads c) (<[j := n']> (nthreads c)) (gE c + d))
      (mkSpec p' s' (<[j := l]> (ch a))).
Proof.
  intros [Hsz Hst Hw Hn Hc Hs Hnd Hd Hdom] Hj Hchj Hstk -> Hlen Hlk -> Hnw Hn'.
  rewrite Hstk in *. destruct Hnd as [Hnd Hndc]. apply NoDup_app in Hnd as (Hnl & Hnls & Hns).
  destruct Hd as [Hd1 Hd2].
  assert (∀ x, owned a x ↔ owned (mkSpec (drop d (pre a)) s' (<[j := l]> (ch a))) x) as Hown.
  { intros x. unfold owned. cbn [stk ch]. rewrite Hstk, elem_of_app. split.
    - intros [[Hx|Hx]|[j' Hx]].
      + right. exists j. by rewrite fn_lookup_insert.
      + by left.
      + right. exists j'. rewrite fn_lookup_insert_ne; [done|]. intros ->. rewrite Hchj in Hx. set_solver.
    - intros [Hx|[j' Hx]]; [auto|]. destruct (decide (j = j')) as [->|Hne].
      + rewrite fn_lookup_insert in Hx. auto.
      + rewrite fn_lookup_insert_ne in Hx by done. eauto. }
  split; cbn [wthreads _state nthreads gE pre stk ch]; try done.
  - intros i t Hi. eapply (winv_shift d); [by apply Hw|by rewrite Hown| |].
    + eapply waking_insert; [done|]. intros r nx E. by apply Hnw in E.
    + intros m. rewrite lookup_drop. by rewrite Nat.add_comm.
  - intros x u. destruct (decide (j = x)) as [->|Hne].
    + rewrite list_lookup_insert_eq by (by eapply lookup_lt_Some). intros [= <-].
      by rewrite fn_lookup_insert.
    + rewrite list_lookup_insert_ne, fn_lookup_insert_ne by done. intros Hx.
      eapply ninv_shift; [by apply Hn|lia|set_solver|done|done].
  - intros x. destruct (decide (j = x)) as [->|Hne].
    + by rewrite list_lookup_insert_eq by (by eapply lookup_lt_Some).
    + rewrite list_lookup_insert_ne, fn_lookup_insert_ne by done. apply Hc.
  - split; [done|]. intros x. destruct (decide (j = x)) as [->|Hne].
    + by rewrite fn_lookup_insert.
    + by rewrite fn_lookup_insert_ne.
  - split.
    + intros j' x Hx. destruct (decide (j = j')) as [->|Hne].
      * rewrite fn_lookup_insert. set_solver.
      * rewrite fn_lookup_insert_ne by done. apply Hd1. set_solver.
    + intros j1 j2 x. destruct (decide (j = j1)) as [<-|Hne1], (decide (j = j2)) as [<-|Hne2];
        rewrite ?fn_lookup_insert, ?fn_lookup_insert_ne by done; intros H1 H2; try done.
      * destruct (Hd1 j2 x); set_solver.
      * destruct (Hd1 j1 x); set_solver.
      * by eapply Hd2.
  - intros x Hx. apply Hdom. rewrite <- Hown in Hx. destruct Hx as [Hx|Hx]; [left|by right].
    cbn in Hx. eapply subseteq_drop; eauto.
Qed.

(** A notifier works on one waiter, of its chain or not, and the chain loses at most
    that waiter. *)
Lemma sim_both c a w t t' j n n' h' :
  sim c a → wthreads c !! w = Some t → nthreads c !! j = Some n →
  (∀ j', j' ≠ j → h' j' = ch a j') → (h' j = ch a j ∨ ch a j = w :: h' j) →
  winv (gE c) (pre a) (owned (mkSpec (pre a) (stk a) h') w)
    (waking (<[j := n']> (nthreads c)) w) w t' →
  ninv (gE c) (<[w := t']> (wthreads c)) (stk a) (h' j) n' →
  (next (wt t') = next (wt t) ∨ w ∈ ch a j) →
  (∀ r x nx, np n = NWake r x nx → x = w) →
  sim (mkCfg (_state c) (<[w := t']> (wthreads c)) (<[j := n']> (nthreads c)) (gE c))
      (mkSpec (pre a) (stk a) h').
Proof.
  intros [Hsz Hst Hw Hn Hc Hs [Hnd Hndc] [Hd1 Hd2] Hdom] Hwt Hj Ho Hj' Ht' Hn' Hnx Hwk.
  assert (∀ x, x ∈ h' j → x ∈ ch a j) as Hsub by (intros x; destruct Hj' as [->| ->]; set_solver).
  assert (∀ j' x, x ∈ h' j' → x ∈ ch a j') as Hsub'.
  { intros j' x. destruct (decide (j' = j)) as [->|Hne]; [auto|by rewrite Ho]. }
  assert (∀ j' x, x ≠ w → x ∈ ch a j' → x ∈ h' j') as Hsup.
  { intros j' x Hx. destruct (decide (j' = j)) as [->|Hne]; [|by rewrite Ho].
    destruct Hj' as [->| ->]; [done|]. set_solver. }
  assert (∀ x, x ∈ stk a ∨ (∃ j', j' ≠ j ∧ x ∈ ch a j') →
    next_of (<[w := t']> (wthreads c)) x = next_of (wthreads c) x) as Hsame.
  { intros x Hx. eapply next_of_insert; [done|]. intros ->. destruct Hnx as [?|Hin]; [done|].
    destruct Hx as [Hx|(j' & Hne & Hx)]; [by destruct (Hd1 j w)|by destruct Hne; eapply Hd2]. }
  split; cbn [wthreads _state nthreads gE pre stk ch]; try done.
  - by rewrite length_insert.
  - intros x u. destruct (decide (w = x)) as [->|Hne].
    + rewrite list_lookup_insert_eq by (by eapply lookup_lt_Some). by intros [= <-].
    + rewrite list_lookup_insert_ne by done. intros Hx. eapply winv_same; [by apply Hw| |].
      * unfold owned. cbn [stk ch]. split; (intros [?|[j' ?]]; [by left|right; exists j']; auto).
      * eapply waking_insert; [done|]. intros r nx E. by apply Hwk in E.
  - intros x u. destruct (decide (j = x)) as [->|Hne].
    + rewrite list_lookup_insert_eq by (by eapply lookup_lt_Some). by intros [= <-].
    + rewrite list_lookup_insert_ne by done. intros Hx. rewrite Ho by done.
      eapply ninv_shift; [by apply Hn|lia|done|by rewrite length_insert|]. intros y [Hy|Hy]; apply Hsame; eauto.
  - intros x. destruct (decide (j = x)) as [->|Hne].
    + by rewrite list_lookup_insert_eq by (by eapply lookup_lt_Some).
    + rewrite list_lookup_insert_ne, Ho by done. apply Hc.
  - eapply link_ext; [|done]. intros x Hx. apply Hsame. by left.
  - split; [done|]. intros x. destruct (decide (x = j)) as [->|Hne]; [|by rewrite Ho].
    destruct Hj' as [->|Hj']; [done|]. specialize (Hndc j). rewrite Hj', NoDup_cons in Hndc. tauto.
  - split; [intros j' x Hx Hx'; by eapply Hd1, Hsub'|].
    intros j1 j2 x H1%Hsub' H2%Hsub'. by eapply Hd2.
  - intros x Hx. assert (is_Some (wthreads c !! x)) as Hx'.
    { apply Hdom. destruct Hx as [Hx|[Hx|[j' Hx]]]; [by left|right; by left|].
      right. right. exists j'. by apply Hsub'. }
    destruct (decide (w = x)) as [->|Hne]; [|by rewrite list_lookup_insert_ne].
    rewrite list_lookup_insert_eq by (by eapply lookup_lt_Some). eauto.
Qed.

(** ** Storing the waiters back *)
Lemma put_waiters_id ts : put_waiters ts (map wt ts) = ts.
Proof.
  unfold put_waiters. induction ts as [|t ts IH]; [done|]. cbn. rewrite IH. by destruct t.
Qed.

Lemma put_waiters_alter f w ts t :
  ts !! w = Some t →
  put_waiters ts (alter f w (map wt ts)) = <[w := mkW (f (wt t)) (wp t) (tk t) (wse t)]> ts.
Proof.
  unfold put_waiters. revert w. induction ts as [|u ts IH]; intros [|w]; try done; cbn.
  - intros [= ->]. f_equal. apply put_waiters_id.
  - intros Hw. rewrite IH by done. by destruct u.
Qed.

Lemma lookup_map_wt ts w : map wt ts !! w = wt <$> ts !! w.
Proof. apply list_lookup_fmap. Qed.

(** ** Steps of a waiter *)
Section waiter.
Context (c : cfg) (a : spec) (i : nat) (t : wthread).
Context (Hsim : sim c a) (Hlap : lap_ok c) (Hi : wthreads c !! i = Some t).

Let W : winv (gE c) (pre a) (owned a i) (waking (nthreads c) i) i t := sim_w _ _ Hsim i t Hi.

Lemma active_not_owned : parked (wp t) = false → ¬ owned a i.
Proof using Hsim Hi. intros Hp Ho. apply (wi_own _ _ _ _ _ _ W) in Ho as [Ho _]. congruence. Qed.

Lemma active_tk : active (wp t) = true → tk t < gE c + 2 ^ 16.
Proof using Hsim Hi.
  intros Ha. pose proof (sim_len _ _ Hsim).
  destruct (wi_ticket _ _ _ _ _ _ W Ha) as [_ [?|(n & ? & Hn)]]; [lia|].
  apply lookup_lt_Some in Hn. lia.
Qed.

Lemma loc_active s : loc (wp t) = Some s → active (wp t) = true.
Proof using Type. by destruct (wp t). Qed.

Lemma waiter_lag s : loc (wp t) = Some s →
  lag s (ticket (epoch (wt t))) = (wse t - tk t) * 2 ^ 32.
Proof using Hsim Hlap Hi.
  intros Hl. pose proof (loc_active s Hl) as Ha.
  destruct (wi_loc _ _ _ _ _ _ W s Hl) as [(top & k & Ht & Hk & -> & He) Htk].
  destruct (wi_ticket _ _ _ _ _ _ W Ha) as [-> _].
  pose proof (proj1 Hlap i t Hi Ha). apply lag_eword; lia.
Qed.

(** A waiter whose ticket is in the past is not in the queue. *)
Lemma notified_not_pre n : tk t < gE c → pre a !! n = Some i → False.
Proof using Hsim Hi. intros Ht Hn. apply (wi_pre _ _ _ _ _ _ W) in Hn as [_ ?]. lia. Qed.

Lemma winv_out e : (active (wp t) = true → tk t < gE c) →
  parked (wp t) = false ∨ state (wt t) = kSignaled →
  winv (gE c) (pre a) (owned a i) (waking (nthreads c) i) i (mkW (wt t) WOut (tk t) e).
Proof using Hsim Hi.
  intros Ht Hp. split; cbn [wp wt tk wse active loc parked committing]; try done.
  - intros n Hn. exfalso. destruct (wi_pre _ _ _ _ _ _ W n Hn) as [Ha ?].
    specialize (Ht Ha). lia.
  - split; [|by intros []]. intros Ho. apply (wi_own _ _ _ _ _ _ W) in Ho as [? ?].
    destruct Hp; congruence.
Qed.

Lemma winv_reload p' : active (wp t) = true →
  p' = WCancel (_state c) ∨ (p' = WCommit (_state c) ∧ committing (wp t) = true) →
  winv (gE c) (pre a) (owned a i) (waking (nthreads c) i) i (mkW (wt t) p' (tk t) (gE c)).
Proof using Hsim Hi.
  intros Ha Hp'. pose proof (active_tk Ha). destruct W as [Ht Hp Hl Hc Hg Ho Hb].
  assert (active p' = true ∧ parked p' = false ∧ loc p' = Some (_state c)) as (Ha' & Hpk & Hloc)
    by (by destruct Hp' as [->|[-> _]]).
  split; cbn [wp wt tk wse].
  - intros _. by apply Ht.
  - intros n Hn. split; [done|]. by apply Hp.
  - rewrite Hloc. intros s [= <-]. split; [by eapply sim_past|lia].
  - intros s ->. destruct Hp' as [?|[? _]]; done.
  - intros Hcm. apply Hg. destruct Hp' as [->|[_ ?]]; done.
  - rewrite Hpk. split; [|by intros []]. intros Hown. by destruct (wp t); apply Ho in Hown as [? _].
  - intros ->. destruct Hp' as [?|[? _]]; done.
Qed.

(** The first in the queue finds its ticket equal to the epoch. *)
Lemma ticket_turn s :
  loc (wp t) = Some s → wse t = tk t → _state c = s →
  tk t = gE c ∧ ∃ p, pre a = i :: p.
Proof using Hsim Hlap Hi.
  intros Hl He Hs. pose proof (loc_active s Hl) as Ha. pose proof (proj1 Hlap i t Hi Ha).
  destruct (wi_loc _ _ _ _ _ _ W s Hl) as [Hp Htk].
  assert (wse t = gE c) as Hwse by (eapply sim_cas; [done|done|lia|done]).
  split; [lia|]. destruct (wi_ticket _ _ _ _ _ _ W Ha) as [_ [?|(n & Hn & Hpn)]]; [lia|].
  assert (n = 0%nat) as -> by lia. clear W. destruct (pre a) as [|x p]; [done|].
  injection Hpn as ->. eauto.
Qed.
End waiter.

Lemma commit_next_head c a : sim c a → commit_next (_state c) = head (stk a).
Proof.
  intros Hs. pose proof (sim_top _ _ Hs). pose proof (sim_len _ _ Hs). unfold commit_next.
  rewrite (sim_word _ _ Hs), eword_stack by lia. change kStackMask with (2 ^ 16 - 1).
  destruct (Z.eqb_spec (top_of (stk a)) (2 ^ 16 - 1)) as [E|E].
  - by rewrite (sim_top_empty _ _ Hs E).
  - destruct (stk a); [done|]. cbn. by rewrite Nat2Z.id.
Qed.

(** A thread's step is matched by no abstract step, which needs [quiet], or by one of [es]. *)
Definition matched (quiet : Prop) (es : event → Prop) (c' : cfg) (a : spec) : Prop :=
  ∃ a', sim c' a' ∧ ((quiet ∧ a' = a) ∨ ∃ e, es e ∧ spec_step a e a').

Lemma matched_same (quiet : Prop) es c' a : quiet → sim c' a → matched quiet es c' a.
Proof. intros Hq H. exists a. auto. Qed.

Lemma matched_step quiet (es : event → Prop) c' a e a' : sim c' a' → es e → spec_step a e a' → matched quiet es c' a.
Proof. intros H He Hst. exists a'. eauto. Qed.

Lemma matched_weaken quiet es c' a : matched quiet es c' a → matched True (λ _, True) c' a.
Proof. intros (a' & Hs & [[_ ->]|(e & _ & He)]); [exists a|exists a']; eauto. Qed.

(** A waiter's step from [p] to [p'] is an event when its exchange succeeds. *)
Definition waiter_quiet (p p' : wpc) : Prop := match p, p' with WCommitCas _, WPark => False | _, _ => True end.

Definition waiter_event (i : nat) (p p' : wpc) (e : event) : Prop :=
  match p, p', e with
  | WCommitCas _, WPark, ECommit i' => i' = i
  | WCancel _, WOut, ECancel i' => i' = i
  | _, _, _ => False
  end.

(** What a call of [notify] will return, once that is settled. *)
Definition outcome (p : npc) : option (option nat) :=
  match p with
  | NOut r => Some r
  | NLoop _ s => if no_waiters s then Some None else None
  | NUnlink w => Some (Some w)
  | NUnpark r _ | NSignal r _ _ | NWake r _ _ => Some (Some r)
  | NLoad _ | NPop _ _ | NCrash => None
  end.

(** A notifier's step without an event: nothing is settled, or it has loaded a word without waiters. *)
Definition notifier_quiet (st : Z) (p p' : npc) : Prop :=
  outcome p' = outcome p ∨ (outcome p = None ∧ outcome p' = Some None ∧ no_waiters st = true).

Definition notifier_event (j : nat) (s : list nat) (p p' : npc) (e : event) : Prop :=
  match e with
  | ENotifyAll j' => j' = j ∧ (∃ w, p = NLoop true w) ∧ outcome p = None ∧ outcome p' = Some (head s)
  | ENotifyPre j' _ => j' = j ∧ (∃ w, p = NLoop false w) ∧ outcome p = None ∧ outcome p' = Some None
  | ENotifyPop j' i => j' = j ∧ (∃ w nx, p = NPop w nx) ∧ outcome p = None ∧ outcome p' = Some (Some i)
  | ESignal j' _ => j' = j ∧ outcome p' = outcome p
  | _ => False
  end.

Lemma notifier_quiet_load st p all : outcome p = None → notifier_quiet st p (NLoop all st).
Proof. intros Hp. unfold notifier_quiet. cbn. rewrite Hp. destruct (no_waiters st); auto. Qed.

Lemma spec_eta a : a = mkSpec (pre a) (stk a) (ch a).
Proof. by destruct a. Qed.

(** The exchange of [commit_wait] at its turn. *)
Lemma commit_matched c a i t :
  sim c a → lap_ok c → wthreads c !! i = Some t → wp t = WCommitCas (_state c) →
  matched False (eq (ECommit i)) (mkCfg (commit_word (_state c) i)
    (<[i := mkW (wt t) WPark (tk t) (next_gE c (commit_word (_state c) i))]> (wthreads c))
    (nthreads c) (next_gE c (commit_word (_state c) i))) a.
Proof.
  intros Hs Hlap Hi Hpc. pose proof (sim_w _ _ Hs i t Hi) as W.
  destruct (wi_cas _ _ _ _ _ _ W _ Hpc) as [Hnx He].
  assert (committing (wp t) = true) as Hcm by (by rewrite Hpc).
  destruct (ticket_turn c a i t Hs Hlap Hi (_state c)) as (_ & p & Hp); [by rewrite Hpc|done|done|].
  pose proof (sim_len _ _ Hs) as Hlen. pose proof (sim_top _ _ Hs) as Htop.
  pose proof (lookup_lt_Some _ _ _ Hi). pose proof (sim_size _ _ Hs).
  rewrite Hp in Hlen. cbn [List.length] in Hlen.
  assert (commit_word (_state c) i = eword i (List.length p) (gE c + 1)) as ->.
  { rewrite (sim_word _ _ Hs), Hp. cbn [List.length].
    rewrite commit_word_eword by (cbn [List.length]; lia). f_equal. lia. }
  rewrite (next_gE_add c a) by (done || lia).
  eapply (matched_step _ _ _ _ (ECommit i)); [eapply sim_commit; try done|done|].
  - by rewrite (wi_sig _ _ _ _ _ _ W Hcm).
  - cbn [wt]. rewrite Hnx. by apply commit_next_head.
  - rewrite (spec_eta a) at 1. rewrite Hp. constructor.
Qed.

(** The exchange of [cancel_wait] at its turn. *)
Lemma cancel_matched c a i t :
  sim c a → lap_ok c → wthreads c !! i = Some t → wp t = WCancel (_state c) → wse t = tk t →
  matched False (eq (ECancel i)) (mkCfg (leave_prewait (_state c))
    (<[i := mkW (wt t) WOut (tk t) (next_gE c (leave_prewait (_state c)))]> (wthreads c))
    (nthreads c) (next_gE c (leave_prewait (_state c)))) a.
Proof.
  intros Hs Hlap Hi Hpc He.
  destruct (ticket_turn c a i t Hs Hlap Hi (_state c)) as (Htk & p & Hp); [by rewrite Hpc|done|done|].
  pose proof (sim_len _ _ Hs) as Hlen. pose proof (sim_top _ _ Hs) as Htop.
  rewrite Hp in Hlen. cbn [List.length] in Hlen.
  assert (leave_prewait (_state c) = eword (top_of (stk a)) (List.length p) (gE c + 1)) as ->.
  { rewrite (sim_word _ _ Hs), Hp. rewrite leave_prewait_eword by (cbn [List.length]; lia).
    f_equal. cbn [List.length]. lia. }
  rewrite (next_gE_add c a) by (done || lia).
  pose proof (sim_pop_pre c a i p Hs Hp) as Hs'.
  eapply (matched_step _ _ _ _ (ECancel i)); [|done|].
  - refine (sim_waiter_local _ _ i t _ Hs' Hi _ _); [|done].
    apply (winv_out _ _ i t Hs' Hi); cbn [gE]; [lia|]. left. by rewrite Hpc.
  - rewrite (spec_eta a) at 1. rewrite Hp. apply s_cancel.
Qed.

Ltac unfold_cas := unfold cas_weak;
  match goal with |- context [?x =? ?y] => destruct (Z.eqb_spec x y) as [<-|?] end;
  cbn [andb negb].

Lemma step_waiter_matched c a i t weak :
  sim c a → lap_ok c → wthreads c !! i = Some t →
  let p' := (waiter_step (_state c) i (wt t) (wp t) weak).2 in
  matched (waiter_quiet (wp t) p') (waiter_event i (wp t) p') (step_waiter c i t weak) a.
Proof.
  intros Hs Hlap Hi p'. subst p'. pose proof (sim_w _ _ Hs i t Hi) as W.
  assert (∀ w' p' e, waiter_quiet (wp t) p' → winv (gE c) (pre a) (owned a i) (waking (nthreads c) i) i (mkW w' p' (tk t) e) →
    (owned a i → next w' = next (wt t)) →
    matched (waiter_quiet (wp t) p') (waiter_event i (wp t) p')
      (mkCfg (_state c) (<[i := mkW w' p' (tk t) e]> (wthreads c)) (nthreads c) (gE c)) a) as Hloc.
  { intros w' p' e Hq H1 H2. apply matched_same; [done|]. by apply (sim_waiter_local c a i t). }
  unfold step_waiter. destruct (wp t) as [| | |s|s| |s| |] eqn:Hpc; cbn [waiter_step].
  - rewrite next_gE_same. apply Hloc; [done| |done]. apply (winv_out c a i t Hs Hi); rewrite Hpc; [done|auto].
  - rewrite next_gE_same. apply Hloc; [done| |done]. destruct W as [Ht Hp Hl Hc Hg Ho Hb].
    rewrite Hpc in *. by split.
  - rewrite next_gE_same. apply Hloc; [done| |done].
    apply (winv_reload c a i t Hs Hi); rewrite Hpc; auto.
  - rewrite (waiter_lag c a i t Hs Hlap Hi s) by by rewrite Hpc.
    destruct (Z.ltb_spec ((wse t - tk t) * 2 ^ 32) 0); [|destruct (Z.ltb_spec 0 ((wse t - tk t) * 2 ^ 32))];
      rewrite next_gE_same; cbn [waiter_loads].
    + apply Hloc; [done| |done]. apply (winv_reload c a i t Hs Hi); rewrite Hpc; auto.
    + apply Hloc; [done| |done]. apply (winv_out c a i t Hs Hi); rewrite Hpc; [|auto].
      destruct (wi_loc _ _ _ _ _ _ W s) as [(?&?&?&?&?&?) _]; [by rewrite Hpc|]. lia.
    + apply Hloc; [done| |].
      * destruct W as [Ht Hp Hl Hc Hg Ho Hb]. rewrite Hpc in *.
        split; cbn [wp wt tk wse next epoch state]; try done. intros s' [= <-].
        split; [done|lia].
      * intros Ho. by destruct (active_not_owned c a i t Hs Hi); [rewrite Hpc|].
  - unfold_cas; [destruct weak; cbn [andb negb]|].
    + rewrite next_gE_same. apply Hloc; [done| |done]. apply (winv_reload c a i t Hs Hi); rewrite Hpc; auto.
    + destruct (commit_matched c a i t Hs Hlap Hi Hpc) as (a' & Hs' & [[[] _]|(e & <- & He)]).
      eapply (matched_step _ _ _ _ (ECommit i)); [exact Hs'|exact eq_refl|exact He].
    + rewrite next_gE_same. apply Hloc; [done| |done]. apply (winv_reload c a i t Hs Hi); rewrite Hpc; auto.
  - rewrite next_gE_same. apply Hloc; [done| |done].
    apply (winv_reload c a i t Hs Hi); rewrite Hpc; auto.
  - rewrite (waiter_lag c a i t Hs Hlap Hi s) by by rewrite Hpc.
    destruct (Z.ltb_spec ((wse t - tk t) * 2 ^ 32) 0); [|destruct (Z.ltb_spec 0 ((wse t - tk t) * 2 ^ 32))].
    + rewrite next_gE_same. apply Hloc; [done| |done]. apply (winv_reload c a i t Hs Hi); rewrite Hpc; auto.
    + rewrite next_gE_same. apply Hloc; [done| |done]. apply (winv_out c a i t Hs Hi); rewrite Hpc; [|auto].
      destruct (wi_loc _ _ _ _ _ _ W s) as [(?&?&?&?&?&?) _]; [by rewrite Hpc|]. lia.
    + unfold_cas; [destruct weak; cbn [andb negb]|].
      * rewrite next_gE_same. apply Hloc; [done| |done]. apply (winv_reload c a i t Hs Hi); rewrite Hpc; auto.
      * destruct (cancel_matched c a i t Hs Hlap Hi Hpc) as (a' & Hs' & [[[] _]|(e & <- & He)]); [lia|].
        eapply (matched_step _ _ _ _ (ECancel i)); [exact Hs'|exact eq_refl|exact He].
      * rewrite next_gE_same. apply Hloc; [done| |done]. apply (winv_reload c a i t Hs Hi); rewrite Hpc; auto.
  - destruct (state (wt t)) eqn:Hsg; rewrite next_gE_same; (apply Hloc; [done| |done]).
    1,2: destruct W as [Ht Hp Hl Hc Hg Ho Hb]; rewrite Hpc, Hsg in *;
      split; cbn [wp wt tk wse next epoch state parked]; try done; rewrite Ho; cbn; naive_solver.
    apply (winv_out c a i t Hs Hi); rewrite ?Hpc; auto. done.
  - rewrite next_gE_same. apply Hloc; [done| |done]. destruct W as [Ht Hp Hl Hc Hg Ho Hb].
    rewrite Hpc in *. by split.
Qed.

(** ** Steps of a notifier *)
Section notifier.
Context (c : cfg) (a : spec) (j : nat) (n : nthread).
Context (Hsim : sim c a) (Hlap : lap_ok c) (Hj : nthreads c !! j = Some n).

Lemma notifier_local quiet es n' : quiet →
  ninv (gE c) (wthreads c) (stk a) (ch a j) n' → (∀ r i nx, np n ≠ NWake r i nx) →
  matched quiet es (mkCfg (_state c) (wthreads c) (<[j := n']> (nthreads c)) (gE c)) a.
Proof using Hsim Hj.
  intros Hq Hn' Hw. apply matched_same; [done|]. eapply sim_notifier_local; [done..|].
  intros r i nx E. by apply Hw in E.
Qed.

Lemma notify_all_matched e :
  np n = NLoop true (_state c) → outcome (np n) = None →
  matched False (notifier_event j (stk a) (np n) (notify_after true (_state c))) (mkCfg (notify_all_word (_state c)) (wthreads c)
    (<[j := mkN (notify_after true (_state c)) e]> (nthreads c))
    (next_gE c (notify_all_word (_state c)))) a.
Proof using Hsim Hj.
  intros Hpc Ho. pose proof (sim_n _ _ Hsim j n Hj) as Nj.
  assert (ch a j = []) as Hch by (unfold ninv in Nj; rewrite Hpc in Nj; tauto).
  pose proof (sim_len _ _ Hsim) as Hlen. pose proof (sim_top _ _ Hsim) as Htop.
  assert (notify_all_word (_state c) = eword (2 ^ 16 - 1) 0 (gE c + List.length (pre a))) as ->.
  { rewrite (sim_word _ _ Hsim). apply notify_all_eword; lia. }
  rewrite (next_gE_add c a) by (done || lia). eapply (matched_step _ _ _ _ (ENotifyAll j)).
  - eapply (sim_take c a j n _ (List.length (pre a)) [] [] (stk a)); try done.
    + by rewrite app_nil_r.
    + by rewrite drop_all.
    + by rewrite Hpc.
    + unfold notify_after, ninv. cbn [negb andb np].
      rewrite (sim_word _ _ Hsim), eword_stack by lia. change kStackMask with (2 ^ 16 - 1).
      destruct (Z.eqb_spec (top_of (stk a)) (2 ^ 16 - 1)) as [E|E].
      * by rewrite (sim_top_empty _ _ Hsim E).
      * pose proof (sim_stk _ _ Hsim) as Hst. destruct (stk a) as [|x s]; [done|].
        cbn [top_of]. by rewrite Nat2Z.id.
  - split; [done|]. split; [eauto|]. split; [done|]. unfold notify_after. cbn [negb andb].
    rewrite (sim_word _ _ Hsim), eword_stack by lia. change kStackMask with (2 ^ 16 - 1).
    destruct (Z.eqb_spec (top_of (stk a)) (2 ^ 16 - 1)) as [E|E]; [by rewrite (sim_top_empty _ _ Hsim E)|].
    destruct (stk a) as [|x s]; [done|]. cbn [top_of outcome head]. by rewrite Nat2Z.id.
  - rewrite (spec_eta a) at 1. by constructor.
Qed.

Lemma notify_pre_matched e :
  np n = NLoop false (_state c) → outcome (np n) = None → prewaiters (_state c) ≠ 0 →
  matched False (notifier_event j (stk a) (np n) (notify_after false (_state c))) (mkCfg (notify_pre_word (_state c)) (wthreads c)
    (<[j := mkN (notify_after false (_state c)) e]> (nthreads c))
    (next_gE c (notify_pre_word (_state c)))) a.
Proof using Hsim Hj.
  intros Hpc Ho Hk. pose proof (sim_n _ _ Hsim j n Hj) as Nj.
  assert (ch a j = []) as Hch by (unfold ninv in Nj; rewrite Hpc in Nj; tauto).
  pose proof (sim_len _ _ Hsim) as Hlen. pose proof (sim_top _ _ Hsim) as Htop.
  assert (notify_after false (_state c) = NOut None) as ->
    by (unfold notify_after; by apply Z.eqb_neq in Hk as ->).
  rewrite (sim_word _ _ Hsim), eword_prewaiters in Hk by lia.
  destruct (pre a) as [|i p] eqn:Hp; [done|]. clear Hk. cbn [List.length] in Hlen.
  assert (notify_pre_word (_state c) = eword (top_of (stk a)) (List.length p) (gE c + 1)) as ->.
  { rewrite (sim_word _ _ Hsim), Hp. rewrite notify_pre_eword by (cbn [List.length]; lia).
    f_equal. cbn [List.length]. lia. }
  rewrite (next_gE_add c a) by (done || lia).
  pose proof (sim_pop_pre c a i p Hsim Hp) as Hs'.
  eapply (matched_step _ _ _ _ (ENotifyPre j i)); [|split; [done|]; split; [eauto|done]|].
  - refine (sim_notifier_local _ _ j n _ Hs' Hj _ _); [done|]. intros r x nx E. congruence.
  - rewrite (spec_eta a) at 1. rewrite Hp. by apply (s_pre p (stk a) (ch a) j i).
Qed.

Lemma notify_pop_matched nx e :
  np n = NPop (_state c) nx → nse n = gE c →
  matched False (notifier_event j (stk a) (np n) (notify_after false (_state c))) (mkCfg (notify_pop_word (_state c) nx) (wthreads c)
    (<[j := mkN (notify_after false (_state c)) e]> (nthreads c))
    (next_gE c (notify_pop_word (_state c) nx))) a.
Proof using Hsim Hj.
  intros Hpc He. pose proof (sim_n _ _ Hsim j n Hj) as Nj. unfold ninv in Nj. rewrite Hpc in Nj.
  destruct Nj as (Hch & _ & Hk & Ht & Hx). specialize (Hx He).
  pose proof (sim_len _ _ Hsim) as Hlen. pose proof (sim_top _ _ Hsim) as Htop.
  rewrite (sim_word _ _ Hsim) in Hk, Ht, Hx. rewrite eword_prewaiters in Hk by lia.
  rewrite eword_stack in Ht, Hx by lia.
  assert (pre a = []) as Hp by (destruct (pre a); [done|cbn in Hk; lia]).
  pose proof (sim_stk _ _ Hsim) as Hst. pose proof (sim_dom _ _ Hsim) as Hdom.
  pose proof (sim_size _ _ Hsim) as Hsz. unfold owned in Hdom.
  destruct (stk a) as [|x s] eqn:Hstk; [done|]. cbn [top_of] in *.
  specialize (Hx x eq_refl (list_elem_of_here _ _)).
  destruct Hst as (_ & t & Htx & Hlk). unfold next_of in Hx. rewrite Htx in Hx. injection Hx as <-.
  pose proof (link_head _ _ _ Hlk) as Hhd. rewrite Hhd in *.
  assert (notify_pop_word (_state c) (head s) = eword (top_of s) 0 (gE c)) as ->.
  { rewrite (sim_word _ _ Hsim), Hstk, Hp. apply notify_pop_eword; [cbn; lia|cbn; lia|].
    intros y Hy. destruct (Hdom y) as [u Hu%lookup_lt_Some]; [right; left; by constructor|]. lia. }
  assert (0 <= top_of s < 2 ^ 16).
  { destruct s as [|y s]; cbn [top_of]; [lia|].
    destruct (Hdom y) as [u Hu%lookup_lt_Some]; [right; left; by do 2 constructor|]. lia. }
  rewrite <- (Z.add_0_r (gE c)) at 1 2. rewrite (next_gE_add c a) by (done || lia).
  assert (notify_after false (_state c) = NUnlink x) as Hafter.
  { unfold notify_after. cbn [negb andb].
    rewrite (sim_word _ _ Hsim), Hp, Hstk, eword_stack, eword_prewaiters by (cbn; lia).
    change kStackMask with (2 ^ 16 - 1). cbn [List.length top_of Z.of_nat Z.eqb negb].
    apply Z.eqb_neq in Ht as ->. by rewrite Nat2Z.id. }
  rewrite Hafter. eapply (matched_step _ _ _ _ (ENotifyPop j x)).
  - eapply (sim_take c a j n _ 0 [] s [x]); try done.
    + by rewrite Hp.
    + by rewrite Hpc.
  - split; [done|]. split; [eauto|]. by rewrite Hpc.
  - rewrite (spec_eta a) at 1. rewrite Hp, Hstk. by constructor.
Qed.
End notifier.

Lemma step_unlink_matched c a j n w t e :
  sim c a → nthreads c !! j = Some n → np n = NUnlink w → wthreads c !! w = Some t →
  matched True (λ _, False) (mkCfg (_state c) (<[w := mkW (set_next (wt t) None) (wp t) (tk t) (wse t)]> (wthreads c))
    (<[j := mkN (NUnpark w (Some w)) e]> (nthreads c)) (gE c)) a.
Proof.
  intros Hs Hj Hpc Ht. pose proof (sim_n _ _ Hs j n Hj) as Nj. unfold ninv in Nj. rewrite Hpc in Nj.
  pose proof (sim_w _ _ Hs w t Ht) as W.
  assert (owned a w) as Ho by (right; exists j; rewrite Nj; by constructor).
  apply matched_same; [done|]. rewrite (spec_eta a). eapply sim_both; try done.
  - by left.
  - rewrite <- spec_eta. eapply winv_same; [|done|].
    2: { eapply waking_insert; [done|]. intros ? ? E. congruence. }
    apply (wi_own _ _ _ _ _ _ W) in Ho as [Hpk _].
    destruct W as [Hti Hp Hl Hc Hg Ho Hb]. split; cbn [wp wt tk wse next epoch state set_next]; try done.
    intros s Hcas. by rewrite Hcas in Hpk.
  - unfold ninv. cbn [np]. rewrite Nj. split; [done|]. eexists.
    rewrite list_lookup_insert_eq by (by eapply lookup_lt_Some). by split.
  - right. rewrite Nj. by constructor.
  - intros ? ? ? E. congruence.
Qed.

Lemma step_signal_matched c a j n r w nx t e :
  sim c a → nthreads c !! j = Some n → np n = NSignal r w nx → wthreads c !! w = Some t →
  matched False (eq (ESignal j w)) (mkCfg (_state c) (<[w := mkW (set_signal (wt t) kSignaled) (wp t) (tk t) (wse t)]> (wthreads c))
    (<[j := mkN (match state (wt t) with kWaiting => NWake r w nx | _ => NUnpark r nx end) e]>
       (nthreads c)) (gE c)) a.
Proof.
  intros Hs Hj Hpc Ht. pose proof (sim_n _ _ Hs j n Hj) as Nj. unfold ninv in Nj. rewrite Hpc in Nj.
  destruct Nj as (l & Hch & Hl). pose proof (sim_w _ _ Hs w t Ht) as W.
  assert (owned a w) as Ho by (right; exists j; rewrite Hch; by constructor).
  pose proof (sim_nd _ _ Hs) as [_ Hnd]. specialize (Hnd j). rewrite Hch, NoDup_cons in Hnd.
  destruct Hnd as [Hwl _]. pose proof (sim_disj _ _ Hs) as [Hd1 Hd2].
  assert (¬ owned (mkSpec (pre a) (stk a) (<[j := l]> (ch a))) w) as Hno.
  { intros [Hx|[j' Hx]]; cbn [stk ch] in Hx; [apply (Hd1 j) in Hx; rewrite Hch in Hx; set_solver|].
    destruct (decide (j = j')) as [<-|Hne]; [by rewrite fn_lookup_insert in Hx|].
    rewrite fn_lookup_insert_ne in Hx by done. apply Hne. eapply Hd2; [|done].
    rewrite Hch. by constructor. }
  eapply (matched_step _ _ _ _ (ESignal j w) (mkSpec (pre a) (stk a) (<[j := l]> (ch a)))); [|done|].
  2: { rewrite (spec_eta a) at 1. by constructor. }
  apply (sim_both c a w t _ j n); try done.
  - intros j' Hne. by rewrite fn_lookup_insert_ne.
  - right. by rewrite fn_lookup_insert.
  - apply (wi_own _ _ _ _ _ _ W) in Ho as [Hpk Hsg].
    destruct W as [Hti Hp Hlo Hc Hg Ho Hb].
    split; cbn [wp wt tk wse next epoch state set_signal]; try done.
    + intros Hcm. by destruct (wp t).
    + split; [done|]. intros [_ ?]. done.
    + intros Hblk. split; [done|]. intros _. destruct (Hb Hblk) as [Hb' _].
      exists j. rewrite list_lookup_insert_eq by (by eapply lookup_lt_Some).
      destruct (state (wt t)); try done. by eexists _, _, _.
  - rewrite fn_lookup_insert. assert (link (<[w := mkW (set_signal (wt t) kSignaled) (wp t) (tk t) (wse t)]>
      (wthreads c)) nx l) as Hl'.
    { eapply link_ext; [|done]. intros x Hx. by eapply next_of_insert. }
    unfold ninv. cbn [np]. by destruct (state (wt t)).
  - by left.
  - intros ? ? ? E. congruence.
Qed.

Lemma alter_wake_some (ts : list wthread) w t : ts !! w = Some t → alter wake w ts = <[w := wake t]> ts.
Proof.
  intros Ht. apply list_eq. intros x. destruct (decide (w = x)) as [->|Hne].
  - by rewrite list_lookup_alter_eq, Ht, list_lookup_insert_eq by (by eapply lookup_lt_Some).
  - by rewrite list_lookup_alter_ne, list_lookup_insert_ne.
Qed.

Lemma alter_wake_none (ts : list wthread) w : ts !! w = None → alter wake w ts = ts.
Proof.
  intros Ht. apply list_eq. intros x. destruct (decide (w = x)) as [->|Hne].
  - by rewrite list_lookup_alter_eq, Ht.
  - by rewrite list_lookup_alter_ne.
Qed.

Lemma step_wake_matched c a j n r w nx e :
  sim c a → nthreads c !! j = Some n → np n = NWake r w nx →
  matched True (λ _, False) (mkCfg (_state c) (alter wake w (wthreads c))
    (<[j := mkN (NUnpark r nx) e]> (nthreads c)) (gE c)) a.
Proof.
  intros Hs Hj Hpc. pose proof (sim_n _ _ Hs j n Hj) as Nj. unfold ninv in Nj. rewrite Hpc in Nj.
  apply matched_same; [done|]. destruct (wthreads c !! w) as [t|] eqn:Ht.
  - rewrite (alter_wake_some _ _ _ Ht). pose proof (sim_w _ _ Hs w t Ht) as W.
    assert (next (wt (wake t)) = next (wt t)) as Hnx by (unfold wake; by destruct (wp t)).
    rewrite (spec_eta a). apply (sim_both c a w t _ j n); try done; [by left| | |by left|].
    + rewrite <- spec_eta. destruct W as [Hti Hp Hlo Hc Hg Ho Hb]. unfold wake.
      destruct (wp t) eqn:Hpt; rewrite ?Hpt in *;
        split; cbn [wp wt tk wse]; rewrite ?Hpt; try done.
    + unfold ninv. cbn [np]. eapply link_ext; [|done]. intros x _. by eapply next_of_insert.
    + intros ? ? ? E. congruence.
  - rewrite (alter_wake_none _ _ Ht). eapply sim_notifier_local; [done..|].
    intros ? ? ? E [u Hu]. congruence.
Qed.

(** The exchange of [notify], and the one that takes a waiter off the stack. *)
Lemma step_notifier_loop c a j n weak all s :
  sim c a → lap_ok c → nthreads c !! j = Some n → np n = NLoop all s →
  let p' := (notify_step (_state c) (map wt (wthreads c)) (NLoop all s) weak).1.2 in
  matched (notifier_quiet (_state c) (NLoop all s) p') (notifier_event j (stk a) (NLoop all s) p') (step_notifier c j n weak) a.
Proof.
  intros Hs Hlap Hj Hpc p'. subst p'. pose proof (sim_n _ _ Hs j n Hj) as Nj.
  pose proof (λ quiet es n', notifier_local c a j n Hs Hj quiet es n') as Hloc.
  unfold step_notifier. rewrite Hpc in Hloc |- *. cbn [notify_step]. unfold ninv in Nj. rewrite Hpc in Nj.
  destruct Nj as (Hch & Hp & Hval). pose proof (sim_past _ _ Hs) as Hpast.
  pose proof (sim_valid _ _ Hs) as Hvalid.
  assert (_state c = s → nse n = gE c) as Hnse.
  { intros Hst. eapply sim_cas; [done|done| |done]. apply (proj2 Hlap j n Hj). by rewrite Hpc. }
  destruct (no_waiters s) eqn:Hnw; cbn [wake_waiter].
  { rewrite put_waiters_id, next_gE_same. apply Hloc; [left; cbn; by rewrite Hnw|done..]. }
  assert (outcome (NLoop all s) = None) as Hout by (cbn; by rewrite Hnw).
  destruct (all || negb (prewaiters s =? 0)) eqn:Hall.
  - unfold_cas; [destruct weak; cbn [andb negb]|]; cbn [wake_waiter]; rewrite put_waiters_id.
    + rewrite next_gE_same. apply Hloc; [by apply notifier_quiet_load|done..].
    + rewrite <- Hpc in Hout |- *. destruct all.
      *  destruct (notify_all_matched c a j n Hs Hj (if notifier_loads (np n) (notify_after true (_state c))
           then next_gE c (notify_all_word (_state c)) else nse n) Hpc Hout) as (a' & Hs' & [[[] _]|(ev & He & Hst)]).
         by eapply matched_step.
      *  cbn in Hall. apply negb_true_iff, Z.eqb_neq in Hall.
         destruct (notify_pre_matched c a j n Hs Hj (if notifier_loads (np n) (notify_after false (_state c))
           then next_gE c (notify_pre_word (_state c)) else nse n) Hpc Hout Hall) as (a' & Hs' & [[[] _]|(ev & He & Hst)]).
         by eapply matched_step.
    + rewrite next_gE_same. apply Hloc; [by apply notifier_quiet_load|done..].
  - apply orb_false_iff in Hall as [-> Hk]. apply negb_false_iff, Z.eqb_eq in Hk.
    rewrite lookup_map_wt. destruct (wthreads c !! Z.to_nat (s .& kStackMask)) as [t|] eqn:Ht;
      cbn [fmap option_fmap option_map wake_waiter]; rewrite put_waiters_id, next_gE_same.
    + apply Hloc; [by left| |done]. unfold ninv. cbn [np nse notifier_loads]. split_and!; try done.
      *  destruct Hp as (top & k & Htop & Hk' & -> & He). rewrite eword_stack by lia.
         rewrite eword_prewaiters in Hk by lia. subst k. rewrite no_waiters_eword in Hnw by lia.
         destruct (Z.eqb_spec top (2 ^ 16 - 1)); done.
      *  intros _ x Hx _. unfold next_of. rewrite Hx, Nat2Z.id in Ht. by rewrite Ht.
    + exfalso. apply lookup_ge_None in Ht. destruct Hp as (top & k & Htop & Hk' & -> & He).
      rewrite eword_stack in * by lia. rewrite eword_prewaiters in Hk by lia.
      rewrite no_waiters_eword, Hk, andb_true_r in Hnw by lia. apply Z.eqb_neq in Hnw. lia.
Qed.

Lemma step_notifier_pop c a j n weak s nx :
  sim c a → lap_ok c → nthreads c !! j = Some n → np n = NPop s nx →
  let p' := (notify_step (_state c) (map wt (wthreads c)) (NPop s nx) weak).1.2 in
  matched (notifier_quiet (_state c) (NPop s nx) p') (notifier_event j (stk a) (NPop s nx) p') (step_notifier c j n weak) a.
Proof.
  intros Hs Hlap Hj Hpc p'. subst p'. pose proof (sim_n _ _ Hs j n Hj) as Nj.
  pose proof (λ quiet es n', notifier_local c a j n Hs Hj quiet es n') as Hloc.
  unfold step_notifier. rewrite Hpc in Hloc |- *. cbn [notify_step]. unfold ninv in Nj. rewrite Hpc in Nj.
  assert (_state c = s → nse n = gE c) as Hnse.
  { intros Hst. eapply sim_cas; [done|apply Nj| |done]. apply (proj2 Hlap j n Hj). by rewrite Hpc. }
  pose proof (sim_past _ _ Hs) as Hpast. pose proof (sim_valid _ _ Hs) as Hvalid.
  unfold_cas; [destruct weak; cbn [andb negb]|]; cbn [wake_waiter]; rewrite put_waiters_id.
  - rewrite next_gE_same. apply Hloc; [by apply notifier_quiet_load| |done]. split; [apply Nj|by split].
  - rewrite <- Hpc. destruct (notify_pop_matched c a j n Hs Hj nx (if notifier_loads (np n) (notify_after false (_state c))
      then next_gE c (notify_pop_word (_state c) nx) else nse n) Hpc (Hnse eq_refl)) as (a' & Hs' & [[[] _]|(ev & He & Hst)]).
    by eapply matched_step.
  - rewrite next_gE_same. apply Hloc; [by apply notifier_quiet_load| |done]. split; [apply Nj|by split].
Qed.

Lemma step_notifier_matched c a j n weak :
  sim c a → lap_ok c → nthreads c !! j = Some n →
  let p' := (notify_step (_state c) (map wt (wthreads c)) (np n) weak).1.2 in
  matched (notifier_quiet (_state c) (np n) p') (notifier_event j (stk a) (np n) p') (step_notifier c j n weak) a.
Proof.
  intros Hs Hlap Hj p'. subst p'. pose proof (sim_n _ _ Hs j n Hj) as Nj.
  pose proof (λ quiet es n', notifier_local c a j n Hs Hj quiet es n') as Hloc.
  destruct (np n) as [r|all|all s|s nx|w|r [w|]|r w nx|r w nx|] eqn:Hpc.
  3: by apply step_notifier_loop.
  3: by apply step_notifier_pop.
  all: unfold step_notifier; rewrite Hpc; cbn [notify_step]; unfold ninv in Nj; rewrite Hpc in Nj.
  - cbn [wake_waiter]. rewrite put_waiters_id, next_gE_same. apply Hloc; [by left|done..].
  - cbn [wake_waiter]. rewrite put_waiters_id, next_gE_same. apply Hloc; [by apply notifier_quiet_load| |done].
    split_and!; [done|by eapply sim_past|by eapply sim_valid].
  - cbn [wake_waiter]. rewrite next_gE_same.
    destruct (sim_dom _ _ Hs w) as [t Ht]; [right; right; exists j; rewrite Nj; by constructor|].
    rewrite (put_waiters_alter _ _ _ _ Ht).
    destruct (step_unlink_matched c a j n w t (gE c) Hs Hj Hpc Ht) as (a' & Hs' & [[_ ->]|(ev & [] & _)]).
    apply matched_same; [by left|]. exact Hs'.
  - destruct (ch a j) as [|x l] eqn:Hch; [done|]. destruct Nj as ([= <-] & t & Ht & Hl).
    rewrite lookup_map_wt, Ht. cbn [fmap option_fmap option_map wake_waiter].
    rewrite put_waiters_id, next_gE_same. apply Hloc; [by left| |done].
    unfold ninv. cbn [np]. eauto.
  - cbn [wake_waiter]. rewrite put_waiters_id, next_gE_same. apply Hloc; [by left| |done].
    destruct (ch a j) as [|x l]; [done|]. by destruct Nj.
  - destruct Nj as (l & Hch & Hl).
    destruct (sim_dom _ _ Hs w) as [t Ht]; [right; right; exists j; rewrite Hch; by constructor|].
    rewrite lookup_map_wt, Ht. cbn [fmap option_fmap option_map wake_waiter].
    rewrite (put_waiters_alter _ _ _ _ Ht), next_gE_same.
    destruct (step_signal_matched c a j n r w nx t (gE c) Hs Hj Hpc Ht) as (a' & Hs' & [[[] _]|(ev & <- & Hst)]).
    eapply (matched_step _ _ _ _ (ESignal j w)); [|split; [done|]; by destruct (state (wt t))|exact Hst].
    by destruct (state (wt t)).
  - cbn [wake_waiter]. rewrite put_waiters_id, next_gE_same.
    destruct (step_wake_matched c a j n r w nx (gE c) Hs Hj Hpc) as (a' & Hs' & [[_ ->]|(ev & [] & _)]).
    apply matched_same; [by left|]. exact Hs'.
  - done.
Qed.

(** Entering [commit_wait] or [cancel_wait] and a spurious wakeup are silent. *)
Lemma step_silent c a i l c' :
  sim c a → l = LCommit i ∨ l = LCancel i ∨ l = LSpurious i → step c l = Some c' → sim c' a.
Proof.
  intros Hs Hl Hst. assert (∃ t, wthreads c !! i = Some t) as [t Ht].
  { destruct Hl as [->|[->| ->]]; cbn [step] in Hst; destruct (wthreads c !! i); try done; eauto. }
  destruct (sim_w _ _ Hs i t Ht) as [Hti Hp Hlo Hc Hg Ho Hb].
  destruct Hl as [->|[->| ->]]; cbn [step] in Hst; rewrite Ht in Hst; cbn [mbind option_bind] in Hst.
  - destruct (wp t) eqn:Hpc; try done. injection Hst as <-. eapply sim_waiter_local; [done..| |done].
    split; cbn [wp wt tk wse commit_begin next epoch state]; try done. rewrite Ho. cbn. naive_solver.
  - destruct (wp t) eqn:Hpc; try done. injection Hst as <-. eapply sim_waiter_local; [done..| |done]. by split.
  - injection Hst as <-. eapply sim_waiter_local; [done..| |].
    + unfold wake. destruct (wp t) eqn:Hpt; rewrite ?Hpt in *; split; cbn [wp wt tk wse]; rewrite ?Hpt; done.
    + unfold wake. by destruct (wp t).
Qed.

Lemma step_matched c a l c' :
  sim c a → lap_ok c → step c l = Some c' → matched True (λ _, True) c' a.
Proof.
  intros Hs Hlap Hst.
  destruct l as [i|i|i|i weak|i|j all|j weak];
    try (apply matched_same; [done|]; eapply step_silent; [done| |done]; by eauto);
    cbn [step] in Hst; (destruct (_ !! _) as [t|] eqn:Ht; [|done]); cbn [mbind option_bind] in Hst; revert Hst.
  - destruct (wp t) eqn:Hpc; try done. intros [= <-].
    destruct (sim_prepare c a i t Hs Ht Hpc) as (Hs' & Hnp & Hno).
    eapply (matched_step _ _ _ _ (EPrepare i)); [done|done|]. rewrite (spec_eta a) at 1. constructor; [done|..];
      [by intros ?; apply Hno; left|intros j ?; apply Hno; right; eauto].
  - intros [= <-]. by eapply matched_weaken, step_waiter_matched.
  - destruct (np t) eqn:Hpc; try done. intros [= <-].
    apply (notifier_local c a j t Hs Ht); [done| |by rewrite Hpc].
    pose proof (sim_n _ _ Hs j t Ht) as Nj. unfold ninv in *. by rewrite Hpc in Nj.
  - intros [= <-]. by eapply matched_weaken, step_notifier_matched.
Qed.

(** ** Every reachable configuration *)
Lemma init_word (N : nat) : N < 2 ^ 16 - 1 → init_state N = eword (2 ^ 16 - 1) 0 (2 ^ 32 - 1 - 2 * N).
Proof.
  intros HN. unfold init_state, eword, word. change kStackMask with (2 ^ 16 - 1).
  change kEpochMask with ((2 ^ 32 - 1) * 2 ^ 32). change kEpochInc with (2 ^ 32).
  rewrite (uwrap_small 64 (2 ^ 32 * N)) by lia. rewrite (uwrap_small 64 (2 ^ 32 * N * 2)) by lia.
  rewrite uwrap_small by lia.
  replace ((2 ^ 32 - 1) * 2 ^ 32 - 2 ^ 32 * N * 2) with ((2 ^ 32 - 1 - 2 * N) * 2 ^ 32) by lia.
  rewrite Z.lor_comm, lor_disjoint_add, Z.mod_small by lia. lia.
Qed.

Lemma sim_init (N M : nat) : N < 2 ^ 16 - 1 → sim (init N M) spec_init.
Proof.
  intros HN. unfold init, spec_init.
  split; cbn [wthreads _state nthreads gE pre stk ch]; try done.
  - by rewrite length_replicate.
  - by apply init_word.
  - intros i t [-> _]%lookup_replicate. split; cbn; try done.
    unfold owned. cbn. set_solver.
  - intros j n [-> _]%lookup_replicate. done.
  - split; [apply NoDup_nil_2|]. intros j. apply NoDup_nil_2.
  - split; [set_solver|]. set_solver.
  - unfold owned. cbn. set_solver.
Qed.

Lemma lap_init (N M : nat) : lap_ok (init N M).
Proof.
  split; intros i t [-> _]%lookup_replicate; done.
Qed.

Lemma reachable_lap N M c : reachable N M c → lap_ok c.
Proof. destruct 1; [apply lap_init|done]. Qed.

Definition spec_steps : spec → spec → Prop := rtc (λ a a', ∃ e, spec_step a e a').

Lemma reachable_sim (N M : nat) c : N < 2 ^ 16 - 1 → reachable N M c →
  ∃ a, spec_steps spec_init a ∧ sim c a.
Proof.
  intros HN. induction 1 as [|c l c' Hr (a & Ha & Hs) Hst Hl]; [exists spec_init; split; [constructor|by apply sim_init]|].
  destruct (step_matched c a l c' Hs (reachable_lap _ _ _ Hr) Hst) as (a' & Hs' & [[_ ->]|(e & _ & He)]);
    [by exists a|]. exists a'. split; [|done]. eapply rtc_r; eauto.
Qed.

(** ** What the thread of a waiter can count on *)
(** The stack as the code finds it: from the word, along [next]. *)
Definition on_stack (c : cfg) (i : nat) : Prop :=
  ∃ l, link (wthreads c) (commit_next (_state c)) l ∧ i ∈ l.

(** Notifier [n] is inside [notify] and has still to signal waiter [i]. *)
Definition will_signal (c : cfg) (n : nthread) (i : nat) : Prop :=
  match np n with
  | NUnlink w => w = i
  | NUnpark _ o => ∃ l, link (wthreads c) o l ∧ i ∈ l
  | NSignal _ w nx => ∃ l, link (wthreads c) nx l ∧ i ∈ w :: l
  | NWake _ _ nx => ∃ l, link (wthreads c) nx l ∧ i ∈ l
  | _ => False
  end.

Lemma chain_will_signal c a i j :
  sim c a → i ∈ ch a j → ∃ n, nthreads c !! j = Some n ∧ will_signal c n i.
Proof.
  intros Hs Hin. destruct (nthreads c !! j) as [n|] eqn:Hj.
  2: { rewrite (sim_ch _ _ Hs j Hj) in Hin. set_solver. }
  exists n. split; [done|]. pose proof (sim_n _ _ Hs j n Hj) as Nj. unfold ninv, will_signal in *.
  destruct (np n).
  - rewrite Nj in Hin. set_solver.
  - rewrite Nj in Hin. set_solver.
  - rewrite (proj1 Nj) in Hin. set_solver.
  - rewrite (proj1 Nj) in Hin. set_solver.
  - rewrite Nj in Hin. set_solver.
  - eauto.
  - destruct Nj as (l & E & Hl). rewrite E in Hin. eauto.
  - eauto.
  - done.
Qed.

Lemma stk_on_stack c a i : sim c a → i ∈ stk a → on_stack c i.
Proof.
  intros Hs Hi. exists (stk a). rewrite (commit_next_head _ _ Hs). split; [|done]. apply Hs.
Qed.

Lemma wake_active t : active (wp t) = true → wake t = t.
Proof. unfold wake. by destruct (wp t). Qed.

Lemma step_other_thread c l c' i t :
  step c l = Some c' → wthreads c !! i = Some t → active (wp t) = true →
  (∀ weak, l ≠ LWaiter i weak) → l ≠ LCommit i → l ≠ LCancel i →
  ∃ t', wthreads c' !! i = Some t' ∧ wp t' = wp t ∧ tk t' = tk t.
Proof.
  intros Hst Hi Ha Hw Hc Hx.
  assert (∀ k u, k ≠ i → <[k := u]> (wthreads c) !! i = Some t) as Hne
    by (intros k u ?; by rewrite list_lookup_insert_ne).
  destruct l as [k|k|k|k weak|k|k all|k weak]; cbn [step] in Hst;
    (destruct (_ !! k) as [u|] eqn:Hk; [|done]); cbn [mbind option_bind] in Hst.
  1-3: destruct (wp u) eqn:Hu; try done; injection Hst as <-; cbn [wthreads];
    destruct (decide (k = i)) as [->|?]; [|rewrite Hne by done; by eauto];
    try congruence; rewrite Hk in Hi; injection Hi as ->; by rewrite Hu in Ha.
  - injection Hst as <-. unfold step_waiter.
    destruct (waiter_step _ _ _ _ _) as [[? ?] ?]. cbn [wthreads].
    destruct (decide (k = i)) as [->|?]; [by destruct (Hw weak)|]. rewrite Hne by done. eauto.
  - injection Hst as <-. cbn [wthreads]. destruct (decide (k = i)) as [->|?]; [|rewrite Hne by done; by eauto].
    rewrite list_lookup_insert_eq by (by eapply lookup_lt_Some). rewrite Hk in Hi. injection Hi as ->.
    rewrite wake_active by done. eauto.
  - destruct (np u); try done. injection Hst as <-. cbn [wthreads]. eauto.
  - injection Hst as <-. unfold step_notifier.
    destruct (notify_step _ _ _ _) as [[[st' ws'] pc'] wk] eqn:Hns. cbn [wthreads].
    assert (∃ w', ws' !! i = Some w') as [w' Hw'].
    { apply lookup_lt_is_Some. assert (List.length ws' = List.length (map wt (wthreads c))) as ->.
      - unfold notify_step in Hns. repeat case_match; simplify_eq; by rewrite ?length_alter.
      - rewrite length_map. by eapply lookup_lt_Some. }
    assert (put_waiters (wthreads c) ws' !! i = Some (mkW w' (wp t) (tk t) (wse t))) as Hp.
    { unfold put_waiters. by rewrite lookup_zip_with, Hi, Hw'. }
    destruct wk as [x|]; cbn [wake_waiter]; [|rewrite Hp; eauto].
    destruct (decide (x = i)) as [->|?].
    + rewrite list_lookup_alter_eq, Hp. cbn. rewrite wake_active by done. eauto.
    + rewrite list_lookup_alter_ne by done. rewrite Hp. eauto.
Qed.

Lemma step_gE_mono c a l c' : sim c a → step c l = Some c' → gE c <= gE c'.
Proof.
  intros Hs Hst. assert (∀ st', gE c <= next_gE c st') as Hn.
  { intros st'. unfold next_gE. pose proof (Z.mod_pos_bound (epoch_field st' - epoch_field (_state c)) (2 ^ 32)).
    lia. }
  destruct l; cbn [step] in Hst; (destruct (_ !! _) as [u|]; [|done]); cbn [mbind option_bind] in Hst;
    unfold step_waiter, step_notifier in Hst; repeat case_match; simplify_eq; cbn [gE]; (done || lia).
Qed.

(** A step of a waiter whose ticket is in the past does not push it on the stack. *)
Lemma notified_no_park c a i t weak st' w' p' :
  sim c a → lap_ok c → wthreads c !! i = Some t → active (wp t) = true → tk t < gE c →
  waiter_step (_state c) i (wt t) (wp t) weak = (st', w', p') → p' = WOut ∨ active p' = true.
Proof.
  intros Hs Hlap Hi Ha Htk Hws. pose proof (sim_w _ _ Hs i t Hi) as W.
  unfold waiter_step, cas_weak in Hws. destruct (wp t) eqn:Hpc; try done;
    repeat case_match; simplify_eq; auto.
  exfalso. match goal with H : _ && _ = true |- _ => apply andb_true_iff in H as [H%Z.eqb_eq _] end.
  destruct (ticket_turn c a i t Hs Hlap Hi s) as [? _]; [by rewrite Hpc| |done|lia].
  by apply (wi_cas _ _ _ _ _ _ W s).
Qed.

Lemma notified_own_step c a l c' i t :
  sim c a → lap_ok c → wthreads c !! i = Some t → active (wp t) = true → tk t < gE c →
  step c l = Some c' → l = LCommit i ∨ l = LCancel i ∨ (∃ weak, l = LWaiter i weak) →
  ∃ t', wthreads c' !! i = Some t' ∧ tk t' = tk t ∧ (wp t' = WOut ∨ active (wp t') = true).
Proof.
  intros Hs Hlap Hi Ha Htk Hst Hl.
  assert (∀ p' w' e, ∃ t', <[i := mkW w' p' (tk t) e]> (wthreads c) !! i = Some t' ∧ wp t' = p' ∧ tk t' = tk t)
    as Hins by (intros; rewrite list_lookup_insert_eq by (by eapply lookup_lt_Some); eauto).
  destruct Hl as [->|[->|[weak ->]]]; cbn [step] in Hst; rewrite Hi in Hst; cbn in Hst.
  1,2: destruct (wp t); try done; injection Hst as <-;
    edestruct Hins as (t' & Ht' & Hp' & Hk'); exists t'; cbn [wthreads]; split; [exact Ht'|];
    rewrite Hp', Hk'; by auto.
  injection Hst as <-. unfold step_waiter.
  destruct (waiter_step _ _ _ _ _) as [[st' w'] p'] eqn:Hws. cbn [wthreads].
  edestruct (Hins p' w') as (t' & Ht' & Hp' & Hk'). exists t'. split; [exact Ht'|].
  rewrite Hp'. split; [done|]. by eapply notified_no_park.
Qed.

(** ** Running the machine on a list of labels *)
Definition lap_okb (c : cfg) : bool :=
  forallb (λ t, negb (active (wp t)) || (gE c - tk t <? 2 ^ 31)) (wthreads c) &&
  forallb (λ n, negb (looping (np n)) || (gE c - nse n <? 2 ^ 32)) (nthreads c).

Lemma lap_okb_ok c : lap_okb c = true → lap_ok c.
Proof.
  unfold lap_okb. rewrite andb_true_iff, !forallb_forall. intros [H1 H2].
  split; intros i t Hi Ha; apply list_elem_of_lookup_2, list_elem_of_In in Hi.
  - apply H1 in Hi. rewrite Ha in Hi. by apply Z.ltb_lt.
  - apply H2 in Hi. rewrite Ha in Hi. by apply Z.ltb_lt.
Qed.

Fixpoint run (c : cfg) (ls : list label) : option cfg :=
  match ls with
  | [] => Some c
  | l :: ls' =>
      match step c l with
      | Some c' => if lap_okb c' then run c' ls' else None
      | None => None
      end
  end.

Lemma run_reachable N M ls : ∀ c c', reachable N M c → run c ls = Some c' → reachable N M c'.
Proof.
  induction ls as [|l ls IH]; intros c c' Hr; cbn [run]; [by intros [= <-]|].
  destruct (step c l) as [c1|] eqn:Hst; [|done]. destruct (lap_okb c1) eqn:Hl; [|done].
  apply IH. eapply reach_step; [done..|]. by apply lap_okb_ok.
Qed.

(** Waiter 0 sleeps, waiter 1 has prepared, and notifier 0 is inside [notify(true)]. *)
Definition demo_labels : list label :=
  [LPrepare 0; LCommit 0; LWaiter 0 false; LWaiter 0 false; LWaiter 0 false; LWaiter 0 false;
   LPrepare 1; LNotify 0 true; LNotifier 0 false].

Definition demo : cfg := default (init 2 1) (run (init 2 1) demo_labels).

Lemma demo_reachable : reachable 2 1 demo.
Proof. apply (run_reachable 2 1 demo_labels (init 2 1)); [constructor|vm_compute; reflexivity]. Qed.

Definition demo_next : cfg := default demo (step demo (LNotifier 0 false)).

Lemma demo_next_reachable : reachable 2 1 demo_next.
Proof.
  apply (run_reachable 2 1 (demo_labels ++ [LNotifier 0 false]) (init 2 1));
    [constructor|vm_compute; reflexivity].
Qed.

End EventCountMachine.
Import EventCountMachine.

(** C3: the lock-free eventcount implements the abstract one: in every interleaving of
    any number of waiters and notifiers in which no thread sleeps through 2^31 epochs,
    the word, the [next] pointers and the threads' positions simulate a state the
    abstract eventcount can reach, and no access leaves the array of waiters. *)
Theorem eventcount_refines (N M : nat) (c : cfg) :
  N < 2 ^ 16 - 1 → reachable N M c →
  ∃ a, spec_steps spec_init a ∧ sim c a ∧
    (∀ j n, nthreads c !! j = Some n → np n ≠ NCrash).
Proof.
  intros HN Hr. destruct (reachable_sim N M c HN Hr) as (a & Ha & Hs).
  exists a. split_and!; [done..|]. intros j n Hj E.
  pose proof (sim_n _ _ Hs j n Hj) as Nj. unfold ninv in Nj. by rewrite E in Nj.
Qed.

(** C6: no wakeup is lost: a thread blocked in [_park] is on the stack the state word
    points to, or a notifier inside [notify] has yet to signal it, or it is signalled
    and a notifier is about to notify its condition variable. *)
Theorem eventcount_no_lost_wakeup (N M : nat) (c : cfg) (i : nat) (t : wthread) :
  N < 2 ^ 16 - 1 → reachable N M c → wthreads c !! i = Some t → wp t = WBlocked →
  on_stack c i ∨ (∃ j n, nthreads c !! j = Some n ∧ will_signal c n i) ∨
  (state (wt t) = kSignaled ∧ waking (nthreads c) i).
Proof.
  intros HN Hr Hi Hpc. destruct (reachable_sim N M c HN Hr) as (a & Ha & Hs).
  pose proof (sim_w _ _ Hs i t Hi) as W. destruct (wi_blk _ _ _ _ _ _ W Hpc) as [_ Hb].
  destruct (decide (state (wt t) = kSignaled)) as [E|E]; [auto|].
  assert (owned a i) as [Hstk|[j Hj]] by (apply W; by rewrite Hpc).
  - left. by eapply stk_on_stack.
  - right. left. exists j. by eapply chain_will_signal.
Qed.

(** a successful [notify(true)] leaves no waiter: the word it installs has no
    pre-waiter and no sleeper, every thread between [prepare_wait] and the end of its
    wait holds a ticket of a past epoch, and every blocked thread is signalled or about
    to be signalled by a notifier. *)
Theorem eventcount_notify_all (N M : nat) (c c' : cfg) (j : nat) (n : nthread) (s : Z) :
  N < 2 ^ 16 - 1 → reachable N M c → nthreads c !! j = Some n → np n = NLoop true s →
  _state c = s → no_waiters s = false → step c (LNotifier j false) = Some c' → lap_ok c' →
  no_waiters (_state c') = true ∧ dtor_assert (_state c') = true ∧
  (∀ i t, wthreads c' !! i = Some t → active (wp t) = true → tk t < gE c') ∧
  (∀ i t, wthreads c' !! i = Some t → parked (wp t) = true → state (wt t) ≠ kSignaled →
    ∃ j' n', nthreads c' !! j' = Some n' ∧ will_signal c' n' i).
Proof.
  intros HN Hr Hj Hpc Hst Hnw Hstep Hlap. destruct (reachable_sim N M c HN Hr) as (a & Ha & Hs).
  destruct (step_matched c a _ c' Hs (reachable_lap _ _ _ Hr) Hstep) as (a' & Hs' & _).
  cbn [step] in Hstep. rewrite Hj in Hstep. cbn in Hstep. injection Hstep as <-.
  pose proof (sim_len _ _ Hs) as Hlen. pose proof (sim_top _ _ Hs) as Htop.
  assert (_state (step_notifier c j n false) = eword (2 ^ 16 - 1) 0 (gE c + List.length (pre a))) as Hw'.
  { unfold step_notifier. rewrite Hpc. cbn [notify_step orb]. rewrite Hnw. unfold cas_weak.
    rewrite Hst, Z.eqb_refl. cbn [andb negb _state]. rewrite <- Hst, (sim_word _ _ Hs).
    apply notify_all_eword; lia. }
  pose proof (sim_word _ _ Hs') as Hw. rewrite Hw' in Hw.
  pose proof (sim_len _ _ Hs') as Hlen'. pose proof (sim_top _ _ Hs') as Htop'.
  apply word_inj in Hw as (Htp & Hk & _); [|apply eword_fields; lia..].
  symmetry in Htp. pose proof (sim_top_empty _ _ Hs' Htp) as Hse.
  assert (pre a' = []) as Hpe by (destruct (pre a'); [done|cbn in Hk; lia]).
  split_and!.
  - rewrite Hw', no_waiters_eword by lia. done.
  - unfold dtor_assert. rewrite Hw'. unfold eword, word. apply Z.eqb_eq.
    change (kStackMask .| kWaiterMask) with (Z.shiftl (Z.shiftl 1 32 - 1) 0).
    rewrite land_field by lia. change kStackMask with (2 ^ 16 - 1). Z.div_mod_to_equations. lia.
  - intros i t Hi Hact. destruct (wi_ticket _ _ _ _ _ _ (sim_w _ _ Hs' i t Hi) Hact) as [_ [?|(m & _ & Hm)]];
      [done|]. by rewrite Hpe in Hm.
  - intros i t Hi Hpk Hsg. assert (owned a' i) as [Hx|[j' Hx]].
    { apply (wi_own _ _ _ _ _ _ (sim_w _ _ Hs' i t Hi)). done. }
    + rewrite Hse in Hx. set_solver.
    + exists j'. by eapply chain_will_signal.
Qed.

(** a notified pre-waiter does not sleep: once its ticket is in the past, each step
    of the machine either leaves it before the end of its wait, with the ticket still in
    the past, or lets it return. *)
Theorem eventcount_notified_returns (N M : nat) (c c' : cfg) (l : label) (i : nat) (t : wthread) :
  N < 2 ^ 16 - 1 → reachable N M c → wthreads c !! i = Some t → active (wp t) = true →
  tk t < gE c → step c l = Some c' →
  ∃ t', wthreads c' !! i = Some t' ∧
    (wp t' = WOut ∨ (active (wp t') = true ∧ tk t' = tk t ∧ tk t' < gE c')).
Proof.
  intros HN Hr Hi Ha Htk Hst. destruct (reachable_sim N M c HN Hr) as (a & _ & Hs).
  pose proof (reachable_lap _ _ _ Hr) as Hlap. pose proof (step_gE_mono _ _ _ _ Hs Hst) as Hmono.
  assert (l = LCommit i ∨ l = LCancel i ∨ (∃ weak, l = LWaiter i weak) ∨
    (l ≠ LCommit i ∧ l ≠ LCancel i ∧ ∀ weak, l ≠ LWaiter i weak)) as Hl.
  { destruct (decide (l = LCommit i)); [auto|]. destruct (decide (l = LCancel i)); [auto|].
    destruct (decide (l = LWaiter i true)); [eauto|]. destruct (decide (l = LWaiter i false)); [eauto|].
    right; right; right. split_and!; [done..|]. by intros []. }
  assert (∃ t', wthreads c' !! i = Some t' ∧ tk t' = tk t ∧ (wp t' = WOut ∨ active (wp t') = true))
    as (t' & Ht' & Hk' & Hp').
  { destruct Hl as [?|[?|[?|(H1 & H2 & H3)]]]; [by eapply notified_own_step; eauto..|].
    destruct (step_other_thread c l c' i t Hst Hi Ha H3 H1 H2) as (t' & Ht' & Hp' & Hk').
    exists t'. rewrite Hp'. auto. }
  exists t'. split; [done|]. destruct Hp' as [?|?]; [auto|right]. split_and!; [done..|lia].
Qed.

(** an idle eventcount is empty: when every thread is outside its wait, the
    destructor's assertion holds. *)
Theorem eventcount_quiescent (N M : nat) (c : cfg) :
  N < 2 ^ 16 - 1 → reachable N M c → (∀ i t, wthreads c !! i = Some t → wp t = WOut) →
  dtor_assert (_state c) = true.
Proof.
  intros HN Hr Hout. destruct (reachable_sim N M c HN Hr) as (a & _ & Hs).
  assert (∀ x, ¬ (x ∈ pre a ∨ owned a x)) as Hno.
  { intros x Hx. assert (is_Some (wthreads c !! x)) as [t Ht] by (by apply Hs). pose proof (sim_w _ _ Hs x t Ht) as W.
    destruct Hx as [[n Hn]%list_elem_of_lookup_1|Ho].
    - destruct (wi_pre _ _ _ _ _ _ W n Hn) as [Ha _]. by rewrite (Hout x t Ht) in Ha.
    - destruct (proj1 (wi_own _ _ _ _ _ _ W) Ho) as [Hpk _]. by rewrite (Hout x t Ht) in Hpk. }
  rewrite (sim_word _ _ Hs).
  assert (pre a = []) as -> by (destruct (pre a) as [|x p]; [done|]; destruct (Hno x); left; by constructor).
  assert (stk a = []) as -> by
    (destruct (stk a) as [|x p] eqn:E; [done|]; destruct (Hno x); right; left; rewrite E; by constructor).
  unfold dtor_assert, eword, word. apply Z.eqb_eq. cbn [top_of List.length].
  change (kStackMask .| kWaiterMask) with (Z.shiftl (Z.shiftl 1 32 - 1) 0).
  rewrite land_field by lia. change kStackMask with (2 ^ 16 - 1). Z.div_mod_to_equations. lia.
Qed.

Lemma eventcount_refines_witness :
  ∃ a, spec_steps spec_init a ∧ sim demo a ∧ (∀ j n, nthreads demo !! j = Some n → np n ≠ NCrash).
Proof. apply (eventcount_refines 2 1 demo); [lia|apply demo_reachable]. Defined.

Lemma eventcount_no_lost_wakeup_witness :
  ∃ t, wthreads demo !! 0%nat = Some t ∧ wp t = WBlocked ∧
  (on_stack demo 0 ∨ (∃ j n, nthreads demo !! j = Some n ∧ will_signal demo n 0) ∨
   (state (wt t) = kSignaled ∧ waking (nthreads demo) 0)).
Proof.
  eexists. split; [vm_compute; reflexivity|]. split; [reflexivity|].
  eapply (eventcount_no_lost_wakeup 2 1 demo 0);
    [lia|apply demo_reachable|vm_compute; reflexivity|reflexivity].
Defined.

Lemma eventcount_notify_all_witness :
  no_waiters (_state demo_next) = true ∧ dtor_assert (_state demo_next) = true ∧
  (∀ i t, wthreads demo_next !! i = Some t → active (wp t) = true → tk t < gE demo_next) ∧
  (∀ i t, wthreads demo_next !! i = Some t → parked (wp t) = true → state (wt t) ≠ kSignaled →
    ∃ j' n', nthreads demo_next !! j' = Some n' ∧ will_signal demo_next n' i).
Proof.
  eapply (eventcount_notify_all 2 1 demo demo_next 0 _ (_state demo));
    [lia|apply demo_reachable|vm_compute; reflexivity|vm_compute; reflexivity|reflexivity|
     vm_compute; reflexivity|vm_compute; reflexivity|].
  apply lap_okb_ok. vm_compute. reflexivity.
Defined.

Lemma eventcount_notified_returns_witness :
  ∃ t c', wthreads demo_next !! 1%nat = Some t ∧ step demo_next (LCommit 1) = Some c' ∧
  ∃ t', wthreads c' !! 1%nat = Some t' ∧
    (wp t' = WOut ∨ (active (wp t') = true ∧ tk t' = tk t ∧ tk t' < gE c')).
Proof.
  do 2 eexists. split; [vm_compute; reflexivity|]. split; [vm_compute; reflexivity|].
  eapply (eventcount_notified_returns 2 1 demo_next _ (LCommit 1) 1);
    [lia|apply demo_next_reachable|vm_compute; reflexivity|reflexivity|vm_compute; reflexivity|
     vm_compute; reflexivity].
Defined.

Lemma eventcount_quiescent_witness : dtor_assert (_state (init 3 2)) = true.
Proof.
  apply (eventcount_quiescent 3 2 (init 3 2)); [lia|constructor|].
  intros i t [-> _]%lookup_replicate. reflexivity.
Defined.
