(* ===== verification/Task.v ===== *)
(** * Tasks and time (include/ar/task.hpp, include/ar/timestamp.hpp, include/ar/object.hpp)

    A clock reading is a number of nanoseconds since the epoch, and every function that
    reads the clock takes it as an argument.  A promise is a library object: [execute]
    returns the calls it makes on it. *)
From S2P Require Import Prelude.

(** [INVALID_OBJECT_ID], [UINT_MAX]. *)
Definition INVALID_OBJECT_ID : Z := 2 ^ 32 - 1.

Module Timestamp.

(** A [std::ratio] period, in seconds. *)
Record period := mkPeriod { num : Z; den : Z }.

Definition Milli : period := mkPeriod 1 1000.

Definition Micro : period := mkPeriod 1 1000000.

Definition Sec : period := mkPeriod 1 1.

(** [std::chrono::duration_cast<To>(From(time)).count()]: the factor is a reduced
    ratio, and the division truncates. *)
Definition Cast (from to : period) (time : Z) : Z :=
  let n := num from * den to in
  let d := den from * num to in
  let g := Z.gcd n d in
  Z.quot (time * (n `div` g)) (d `div` g).

Definition Now (clock : Z) : Z := Z.quot clock 1000000.

Definition NowMicro (clock : Z) : Z := Z.quot clock 1000.

Definition NowSec (clock : Z) : Z := Z.quot clock 1000000000.

Definition CastMicro (p : period) (count : Z) : Z := Cast p Micro count.

Definition CastMilli (p : period) (count : Z) : Z := Cast p Milli count.

Lemma Cast_milli_micro t : Cast Milli Micro t = t * 1000.
Proof. unfold Cast. cbn. apply Z.quot_1_r. Qed.

Lemma NowMicro_mono c c' : 0 <= c <= c' → NowMicro c <= NowMicro c'.
Proof.
  intros. unfold NowMicro. rewrite !Z.quot_div_nonneg by lia. by apply Z.div_le_mono; lia.
Qed.

End Timestamp.

(** [task::execution_state]; an executor is named by a number. *)
Record execution_state := mkES {
  es_tag : Z;
  es_work_group : Z;
  es_processor : Z;
  es_executor : option nat
}.

#[global] Instance execution_state_eq_dec : EqDecision execution_state.
Proof. solve_decision. Defined.

Definition default_state : execution_state :=
  mkES INVALID_OBJECT_ID INVALID_OBJECT_ID INVALID_OBJECT_ID None.

(** The base class; [task_id] stands for the object's address. *)
Record task := mkTask {
  task_id : nat;
  task_state : execution_state;
  delay : Z;
  created_at : Z
}.

#[global] Instance task_eq_dec : EqDecision task.
Proof. solve_decision. Defined.

Definition new_task (id : nat) (clock : Z) : task :=
  mkTask id default_state 0 (Timestamp.NowMicro clock).

Definition set_delay (p : Timestamp.period) (time clock : Z) (t : task) : task :=
  let d := Timestamp.Cast p Timestamp.Micro time in
  mkTask (task_id t) (task_state t) d (Timestamp.NowMicro clock + d).

Definition get_delay (clock : Z) (t : task) : Z := created_at t - Timestamp.NowMicro clock.

Definition set_execution_state (s : execution_state) (t : task) : task :=
  mkTask (task_id t) s (delay t) (created_at t).

Definition set_execution_state_wg (wg : Z) (t : task) : task :=
  let s := task_state t in
  set_execution_state (mkES (es_tag s) wg (es_processor s) (es_executor s)) t.

Definition set_execution_state_tag (tag : Z) (t : task) : task :=
  let s := task_state t in
  set_execution_state (mkES tag (es_work_group s) (es_processor s) (es_executor s)) t.

Definition delayed (t : task) : bool := 0 <? delay t.

(** [task::less_than_by_delay_ptr]: every [get_delay] reads the clock, [cl] for the left task and [cr] for the right one. *)
Definition less_than_by_delay (cl cr : Z) (l r : task) : bool :=
  get_delay cr r <? get_delay cl l.

(** ** Executing a task *)
(** What the user's function does. *)
Inductive outcome (T : Type) := Returns (v : T) | ThrowsStd | ThrowsOther.
Arguments Returns {T} v.
Arguments ThrowsStd {T}.
Arguments ThrowsOther {T}.

Inductive promise_call (T : Type) := SetValue (v : T) | SetException.
Arguments SetValue {T} v.
Arguments SetException {T}.

(** [base_task::execute]: the task with its new state, the calls on the promise, and
    whether an exception leaves the call. *)
Definition base_task_execute {T} (fn : outcome T) (s : execution_state) (t : task)
  : task * list (promise_call T) * bool :=
  let t' := set_execution_state s t in
  match fn with
  | Returns v => (t', [SetValue v], false)
  | ThrowsStd => (t', [SetException], false)
  | ThrowsOther => (t', [], true)
  end.

(** [dummy_task::execute]. *)
Definition dummy_task_execute (s : execution_state) (t : task)
  : task * list (promise_call unit) * bool :=
  (set_execution_state s t, [SetValue tt], false).

(** A delay of [ms] milliseconds ends [ms * 1000] microseconds after the call. *)
Lemma get_delay_set_delay ms clock clock' t :
  get_delay clock' (set_delay Timestamp.Milli ms clock t) =
  ms * 1000 - (Timestamp.NowMicro clock' - Timestamp.NowMicro clock).
Proof. unfold get_delay, set_delay. cbn [created_at]. rewrite Timestamp.Cast_milli_micro. lia. Qed.

(** The comparison orders tasks by their deadline, at whatever time it is made, when both readings fall in the
    same microsecond. *)
Lemma less_than_by_delay_deadline cl cr l r : Timestamp.NowMicro cl = Timestamp.NowMicro cr →
  less_than_by_delay cl cr l r = (created_at r <? created_at l).
Proof. intros E. unfold less_than_by_delay, get_delay. rewrite E. ztest; lia. Qed.

(** With a microsecond between the two readings it is no order: a task precedes itself. *)
Example less_than_by_delay_not_irreflexive :
  less_than_by_delay 0 1000 (new_task 1 0) (new_task 1 0) = true.
Proof. reflexivity. Qed.
