(* ===== verification/Scheduler.v ===== *)
(** * The scheduler of delayed tasks (include/ar/scheduler.hpp, src/scheduler.cpp)

    The scheduler thread, the callers of [Post] and the destructor are interleaved, one
    critical section at a time.  The priority queue of the standard library is an
    interface with the laws of [std::priority_queue]; a list searched for its minimum implements it.  The
    library promises these laws for a comparison that is an order, which [less_than_by_delay_ptr] is as
    long as its two readings of the clock fall in the same microsecond (Task.v). *)
From S2P Require Import Prelude.
From S2P Require Import Task.

(** ** The priority queue the scheduler needs *)
Class PriorityQueue (Q : Type) := {
  pq_empty : Q;
  pq_push : task → Q → Q;
  pq_top : Q → option task;
  pq_pop : Q → Q
}.

(** [pq_top] is a task no other one precedes. *)
Class PriorityQueueLaws (Q : Type) `{PriorityQueue Q} := {
  pq_elems : Q → list task;
  pq_elems_empty : pq_elems pq_empty = [];
  pq_elems_push t q : pq_elems (pq_push t q) ≡ₚ t :: pq_elems q;
  pq_top_None q : pq_top q = None ↔ pq_elems q = [];
  pq_top_Some q t : pq_top q = Some t →
    pq_elems q ≡ₚ t :: pq_elems (pq_pop q) ∧
    ∀ u clock, u ∈ pq_elems q → less_than_by_delay clock clock t u = false
}.

(** ** A list from which the earliest task is taken *)
Module ListQueue.

(** The earliest task of [x :: l] and the others. *)
Fixpoint extract (x : task) (l : list task) : task * list task :=
  match l with
  | [] => (x, [])
  | y :: l' =>
      let '(m, r) := extract y l' in
      if created_at x <=? created_at m then (x, l) else (m, x :: r)
  end.

Lemma extract_spec l : ∀ x,
  x :: l ≡ₚ (extract x l).1 :: (extract x l).2 ∧
  ∀ u, u ∈ x :: l → created_at (extract x l).1 <= created_at u.
Proof.
  induction l as [|y l IH]; intros x; cbn.
  - split; [done|]. intros u ->%list_elem_of_singleton. lia.
  - destruct (IH y) as [Hp Hm]. destruct (extract y l) as [m r]. cbn in *.
    destruct (Z.leb_spec (created_at x) (created_at m)); cbn.
    + split; [done|]. intros u [->|Hu]%elem_of_cons; [lia|]. specialize (Hm u Hu). lia.
    + split; [rewrite Hp; constructor|]. intros u [->|Hu]%elem_of_cons; [lia|auto].
Qed.

#[global] Instance list_queue : PriorityQueue (list task) := {|
  pq_empty := [];
  pq_push x q := x :: q;
  pq_top q := match q with [] => None | x :: l => Some (extract x l).1 end;
  pq_pop q := match q with [] => [] | x :: l => (extract x l).2 end
|}.

#[global] Instance list_queue_laws : PriorityQueueLaws (list task).
Proof.
  refine {| pq_elems q := q |}; try done.
  - intros []; done.
  - intros [|x l] t; [done|]. cbn. intros [= <-]. destruct (extract_spec l x) as [Hp Hm].
    split; [done|]. intros u clock Hu. rewrite less_than_by_delay_deadline by done. by apply Z.ltb_ge, Hm.
Defined.

End ListQueue.

Module Scheduler.
Section scheduler.
Context {Q : Type} `{PriorityQueueLaws Q}.

(** Where the scheduler thread is in [SchedulerLoop]. *)
Inductive pc :=
| AtLoop                   (* before the test of is_continue *)
| AtLock                   (* before the lock *)
| InWait                   (* delayed_task_cv.wait *)
| InWaitFor (c us : Z)     (* delayed_task_cv.wait_for us microseconds, computed at clock c *)
| Returned                 (* the loop has ended *)
| Deadlocked.              (* locking a mutex the thread already holds *)

(** The destructor: before it, after the store, after the notification (in [Join]), done. *)
Inductive dtor := NotStarted | Stored | Joining | Destroyed.

Record t := mk {
  is_continue : bool;
  delayed_task : Q;
  thread : pc;
  destructor : dtor;
  dispatched : list (Z * task)    (* the tasks handed to task_callback, with the clock, last first *)
}.

(** The constructor. *)
Definition make : t := mk true pq_empty AtLoop NotStarted [].

(** [task_callback] is [ExecutorWorkGroup::Post], which comes back to [Scheduler::Post] when
    it finds the delay positive. *)
Definition callback_reenters (clock : Z) (x : task) : bool := negb (get_delay clock x <=? 0).

(** The body of the loop with the lock held; [c] is the clock of [get_delay] and [c']
    the clock in the callback. *)
Definition loop_body (c c' : Z) (s : t) : t :=
  match pq_top (delayed_task s) with
  | Some x =>
      if get_delay c x <=? 0 then
        if callback_reenters c' x then
          mk (is_continue s) (delayed_task s) Deadlocked (destructor s) (dispatched s)
        else mk (is_continue s) (pq_pop (delayed_task s)) AtLoop (destructor s) ((c, x) :: dispatched s)
      else mk (is_continue s) (delayed_task s) (InWaitFor c (get_delay c x)) (destructor s) (dispatched s)
  | None => mk (is_continue s) (delayed_task s) InWait (destructor s) (dispatched s)
  end.

Definition set_thread (p : pc) (s : t) : t :=
  mk (is_continue s) (delayed_task s) p (destructor s) (dispatched s).

(** [notify_one]: the thread leaves a wait and tests [is_continue] again. *)
Definition notify_one (s : t) : t :=
  match thread s with
  | InWait | InWaitFor _ _ => set_thread AtLoop s
  | _ => s
  end.

(** [Post], once it has the lock. *)
Definition Post (x : task) (s : t) : t :=
  notify_one (mk (is_continue s) (pq_push x (delayed_task s)) (thread s) (destructor s) (dispatched s)).

Inductive label :=
| LThread (c c' : Z)       (* the scheduler thread runs to its next lock or wait *)
| LTimeout                 (* wait_for expires, or a wait returns spuriously *)
| LPost (x : task)
| LDestroy.                (* the destructor's next statement *)

Definition step (s : t) (l : label) : option t :=
  match l with
  | LThread c c' =>
      match thread s with
      | AtLoop => Some (set_thread (if is_continue s then AtLock else Returned) s)
      | AtLock => Some (loop_body c c' s)
      | _ => None
      end
  | LTimeout =>
      match thread s with
      | InWait | InWaitFor _ _ => Some (set_thread AtLoop s)
      | _ => None
      end
  | LPost x => match thread s with Deadlocked => None | _ => Some (Post x s) end
  | LDestroy =>
      match destructor s with
      | NotStarted => Some (mk false (delayed_task s) (thread s) Stored (dispatched s))
      | Stored =>
          Some (notify_one (mk (is_continue s) (delayed_task s) (thread s) Joining (dispatched s)))
      | Joining =>
          match thread s with
          | Returned => Some (mk (is_continue s) (delayed_task s) (thread s) Destroyed (dispatched s))
          | _ => None
          end
      | Destroyed => None
      end
  end.

Fixpoint run (s : t) (ls : list label) : option t :=
  match ls with
  | [] => Some s
  | l :: ls' => match step s l with Some s' => run s' ls' | None => None end
  end.

(** The tasks posted by a run, last first. *)
Fixpoint posted (ls : list label) : list task :=
  match ls with
  | [] => []
  | LPost x :: ls' => posted ls' ++ [x]
  | _ :: ls' => posted ls'
  end.

(** The two clock readings of an iteration follow each other. *)
Definition monotone (l : label) : Prop :=
  match l with LThread c c' => 0 <= c <= c' | _ => True end.

(** The clock of the last turn of the scheduler thread. *)
Definition reading (r : option Z) (l : label) : option Z := match l with LThread c _ => Some c | _ => r end.

Definition last_reading (ls : list label) : option Z := fold_left reading ls None.

(** The thread sleeps for [us] microseconds from clock [c] on, which is exactly the delay that the
    earliest pending task had left then. *)
Record sleeps (c us : Z) (s : t) : Prop := {
  sl_thread : thread s = InWaitFor c us;
  sl_positive : 0 < us;
  sl_earliest : ∃ x, x ∈ pq_elems (delayed_task s) ∧ get_delay c x = us;
  sl_least u : u ∈ pq_elems (delayed_task s) → us <= get_delay c u
}.

(** ** Invariant of a run *)
Record inv (p : list task) (s : t) : Prop := {
  inv_all : p ≡ₚ map snd (dispatched s) ++ pq_elems (delayed_task s);
  inv_due : ∀ c x, (c, x) ∈ dispatched s → get_delay c x <= 0;
  inv_alive : thread s ≠ Deadlocked;
  inv_wait : ∀ c us, thread s = InWaitFor c us → sleeps c us s;
  inv_idle : thread s = InWait → pq_elems (delayed_task s) = []
}.

Lemma callback_no_reenter c c' x :
  0 <= c <= c' → get_delay c x <= 0 → callback_reenters c' x = false.
Proof.
  intros Hc Hx. pose proof (Timestamp.NowMicro_mono c c' Hc).
  unfold callback_reenters, get_delay in *. apply negb_false_iff, Z.leb_le. lia.
Qed.

Lemma top_minimal q x u c :
  pq_top q = Some x → u ∈ pq_elems q → get_delay c x <= get_delay c u.
Proof.
  intros Hx Hu. destruct (pq_top_Some q x Hx) as [_ Hm]. specialize (Hm u c Hu).
  unfold less_than_by_delay in Hm. apply Z.ltb_ge in Hm. done.
Qed.

Lemma top_in q x : pq_top q = Some x → x ∈ pq_elems q.
Proof. intros Hx. destruct (pq_top_Some q x Hx) as [-> _]. by constructor. Qed.

Lemma inv_set_thread p s pc' :
  inv p s → pc' ≠ Deadlocked → (∀ c us, pc' ≠ InWaitFor c us) → pc' ≠ InWait →
  inv p (set_thread pc' s).
Proof. intros [H1 H2 H3 H4 H5] ? Hw ?. split; cbn; try done. intros c us E. by apply Hw in E. Qed.

(** A sleep is broken off by nothing that leaves thread and queue alone. *)
Lemma sleeps_frame c us s s' : sleeps c us s → thread s' = thread s → delayed_task s' = delayed_task s → sleeps c us s'.
Proof. intros [H1 H2 H3 H4] Et Eq. split; rewrite ?Et, ?Eq; done. Qed.

Lemma inv_post p s x : inv p s → inv (x :: p) (Post x s).
Proof.
  intros [H1 H2 H3 H4 H5]. unfold Post, notify_one. cbn [thread].
  assert (x :: p ≡ₚ map snd (dispatched s) ++ pq_elems (pq_push x (delayed_task s))) as Hp.
  { rewrite H1, pq_elems_push. apply Permutation_middle. }
  destruct (thread s) eqn:E; split; cbn; try done; rewrite E; done.
Qed.

Lemma inv_loop_body p s c c' :
  inv p s → 0 <= c <= c' → inv p (loop_body c c' s).
Proof.
  intros [H1 H2 H3 H4 H5] Hc. unfold loop_body.
  destruct (pq_top (delayed_task s)) as [x|] eqn:Hx.
  - destruct (Z.leb_spec (get_delay c x) 0) as [Hd|Hd].
    + rewrite (callback_no_reenter c c' x Hc Hd). destruct (pq_top_Some _ _ Hx) as [Hp _].
      split; cbn; try done.
      * rewrite H1, Hp. by rewrite <- Permutation_middle.
      * intros c0 y [[= -> ->]|Hin]%elem_of_cons; [done|by apply H2].
    + split; cbn; try done. intros c0 us [= <- <-]. split; [done|done| |].
      * exists x. split; [by apply top_in|done].
      * intros u Hu. by apply (top_minimal (delayed_task s)).
  - split; cbn; try done. intros _. by apply pq_top_None.
Qed.

Lemma inv_step p s l s' :
  inv p s → monotone l → step s l = Some s' →
  inv (match l with LPost x => x :: p | _ => p end) s'.
Proof.
  intros Hi Hm Hst. destruct l as [c c'| |x|]; cbn [step] in Hst.
  - destruct (thread s) eqn:E; simplify_eq.
    + apply inv_set_thread; [done|..]; by destruct (is_continue s).
    + by apply inv_loop_body.
  - destruct (thread s); simplify_eq; by apply inv_set_thread.
  - destruct (thread s) eqn:E; simplify_eq; by apply inv_post.
  - destruct (destructor s); simplify_eq.
    + destruct Hi as [H1 H2 H3 H4 H5]. split; cbn; try done. intros c us Ht. by eapply sleeps_frame; [apply H4|..].
    + unfold notify_one. cbn [thread]. destruct Hi as [H1 H2 H3 H4 H5].
      destruct (thread s) eqn:E; split; cbn; rewrite ?E; done.
    + destruct (thread s) eqn:E; simplify_eq. destruct Hi as [H1 H2 H3 H4 H5].
      split; cbn; rewrite ?E; done.
Qed.

Lemma inv_run ls : ∀ p s s',
  inv p s → Forall monotone ls → run s ls = Some s' → inv (posted ls ++ p) s'.
Proof.
  induction ls as [|l ls IH]; intros p s s' Hi Hm Hr; cbn in Hr; [by injection Hr as <-|].
  apply Forall_cons in Hm as [Hl Hm]. destruct (step s l) as [s1|] eqn:Hst; [|done].
  pose proof (IH _ _ _ (inv_step p s l s1 Hi Hl Hst) Hm Hr) as Hi'.
  destruct l; cbn [posted]; try done. by rewrite <- (assoc_L (++)).
Qed.

(** The clock of a sleep is the one of the thread's last turn. *)
Lemma reading_run ls : ∀ r s s',
  (∀ c us, thread s = InWaitFor c us → r = Some c) → run s ls = Some s' →
  ∀ c us, thread s' = InWaitFor c us → fold_left reading ls r = Some c.
Proof.
  induction ls as [|l ls IH]; intros r s s' Hs Hr; cbn in *; [by injection Hr as <-|].
  destruct (step s l) as [s1|] eqn:E; [|done]. apply (IH _ s1); [|done]. clear IH Hr s' ls. intros c us Ht.
  destruct l as [c1 c1'| |x|]; cbn [reading]; cbn [step] in E.
  - destruct (thread s) eqn:Eth; simplify_eq; [by destruct (is_continue s)|]. unfold loop_body in Ht.
    repeat case_match; cbn in Ht; by simplify_eq.
  - destruct (thread s); by simplify_eq.
  - unfold Post, notify_one in E. cbn [thread] in E. destruct (thread s) eqn:Eth; simplify_eq; cbn in Ht; congruence.
  - unfold notify_one in E. cbn [thread] in E. destruct (destructor s), (thread s) eqn:Eth; simplify_eq; cbn in Ht; try congruence; eauto.
Qed.

Lemma inv_make : inv [] make.
Proof.
  split; cbn; try done; [by rewrite pq_elems_empty|].
  intros c x Hx. by apply not_elem_of_nil in Hx.
Qed.

(** ** Progress *)
(** [n] turns of the loop with the clock at [c]. *)
Fixpoint turns (n : nat) (c : Z) : list label :=
  match n with O => [] | S n' => LThread c c :: LThread c c :: turns n' c end.

Lemma loop_body_due c s x :
  0 <= c → pq_top (delayed_task s) = Some x → get_delay c x <= 0 →
  loop_body c c s = mk (is_continue s) (pq_pop (delayed_task s)) AtLoop (destructor s) ((c, x) :: dispatched s).
Proof.
  intros Hc Hx Hd. unfold loop_body. rewrite Hx.
  destruct (Z.leb_spec (get_delay c x) 0); [|lia]. by rewrite (callback_no_reenter c c x) by (done || lia).
Qed.

Lemma turns_dispatch c n : ∀ s,
  0 <= c → is_continue s = true → thread s = AtLoop → List.length (pq_elems (delayed_task s)) = n →
  (∀ x, x ∈ pq_elems (delayed_task s) → get_delay c x <= 0) →
  ∃ s', run s (turns n c) = Some s' ∧ pq_elems (delayed_task s') = [] ∧
    map snd (dispatched s') ≡ₚ map snd (dispatched s) ++ pq_elems (delayed_task s).
Proof.
  induction n as [|n IH]; intros s Hc Hk Hpc Hn Hdue.
  - apply nil_length_inv in Hn. exists s. rewrite Hn, app_nil_r. done.
  - destruct (pq_top (delayed_task s)) as [x|] eqn:Hx.
    2: { apply pq_top_None in Hx. by rewrite Hx in Hn. }
    destruct (pq_top_Some _ _ Hx) as [Hp _].
    cbn [turns run step]. rewrite Hpc, Hk. cbn [step thread set_thread].
    pose proof (Hdue x (top_in _ _ Hx)) as Hd.
    rewrite (loop_body_due c (set_thread AtLock s) x Hc Hx Hd).
    destruct (IH (mk (is_continue s) (pq_pop (delayed_task s)) AtLoop (destructor s) ((c, x) :: dispatched s)))
      as (s' & Hr & He & Hd'); cbn [is_continue thread delayed_task]; try done.
    + rewrite Hp in Hn. cbn in Hn. lia.
    + intros u Hu. apply Hdue. rewrite Hp. by constructor.
    + exists s'. split; [exact Hr|]. split; [done|].
      rewrite Hd', Hp. cbn. by rewrite <- Permutation_middle.
Qed.

End scheduler.
End Scheduler.
Import Scheduler.

(** A task due at microsecond [d]. *)
Definition sample_task (id : nat) (d : Z) : task := mkTask id default_state d d.

Definition sample_run : list label :=
  [LPost (sample_task 1 50); LPost (sample_task 2 20); LThread 30000 30000; LThread 30000 30000;
   LThread 31000 31000; LThread 31000 31000].

(** Where it ends: task 2 was dispatched, and the thread sleeps for the 19 microseconds that task 1 has left. *)
Definition sample_end : t (Q := list task) :=
  mk true [sample_task 1 50] (InWaitFor 31000 19) NotStarted [(30000, sample_task 2 20)].

(** C22: no delayed task is lost, repeated or early: after any interleaving of posts, of
    the scheduler thread, of timeouts and of the destructor, with a clock that does not
    go back between the two readings of an iteration, the posted tasks are the dispatched ones and the
    pending ones, every dispatched task had reached its deadline, and the thread has not
    blocked itself.  When it sleeps for a time, that time was computed at the clock of its last turn and is
    exactly the delay the earliest of the pending tasks had left then; when it sleeps without a
    limit no task is pending. *)
Theorem scheduler_safe Q `{PriorityQueueLaws Q} (ls : list label) (s : t (Q := Q)) :
  Forall monotone ls → run make ls = Some s →
  posted ls ≡ₚ map snd (dispatched s) ++ pq_elems (delayed_task s) ∧
  (∀ c x, (c, x) ∈ dispatched s → get_delay c x <= 0) ∧
  thread s ≠ Deadlocked ∧
  (∀ c us, thread s = InWaitFor c us →
    last_reading ls = Some c ∧ 0 < us ∧
    (∃ x, x ∈ pq_elems (delayed_task s) ∧ get_delay c x = us) ∧
    ∀ u, u ∈ pq_elems (delayed_task s) → us <= get_delay c u) ∧
  (thread s = InWait → pq_elems (delayed_task s) = []).
Proof.
  intros Hm Hr. destruct (inv_run ls [] make s inv_make Hm Hr) as [H1 H2 H3 H4 H5].
  rewrite app_nil_r in H1. split_and!; try done. intros c us Hw. destruct (H4 c us Hw) as [_ ? ? ?].
  split; [by eapply (reading_run ls None make s)|done].
Qed.

Lemma scheduler_safe_witness :
  run make sample_run = Some sample_end ∧
  posted sample_run ≡ₚ [sample_task 2 20; sample_task 1 50] ∧
  last_reading sample_run = Some 31000 ∧ ∃ x, x ∈ [sample_task 1 50] ∧ get_delay 31000 x = 19.
Proof.
  assert (E : run make sample_run = Some sample_end) by (vm_compute; reflexivity). split; [exact E|].
  destruct (scheduler_safe (list task) sample_run sample_end ltac:(repeat constructor; lia) E) as (Hp & _ & _ & Hw & _).
  split; [exact Hp|]. destruct (Hw 31000 19 eq_refl) as (Hr & _ & Hx & _). split; [exact Hr|exact Hx].
Defined.

(** due tasks are dispatched: a scheduler whose [n] pending tasks are all due hands
    every one of them to the callback in [n] turns of its loop. *)
Theorem scheduler_dispatches_due Q `{PriorityQueueLaws Q} (c : Z) (s : t (Q := Q)) :
  0 <= c → is_continue s = true → thread s = AtLoop →
  (∀ x, x ∈ pq_elems (delayed_task s) → get_delay c x <= 0) →
  ∃ s', run s (turns (List.length (pq_elems (delayed_task s))) c) = Some s' ∧
    pq_elems (delayed_task s') = [] ∧
    map snd (dispatched s') ≡ₚ map snd (dispatched s) ++ pq_elems (delayed_task s).
Proof. intros. by apply turns_dispatch. Qed.

Lemma scheduler_dispatches_due_witness :
  ∃ s', run (Post (sample_task 1 50) (Post (sample_task 2 20) (make (Q := list task))))
          (turns 2 100000) = Some s' ∧
    pq_elems (delayed_task s') = [] ∧
    map snd (dispatched s') ≡ₚ [sample_task 1 50; sample_task 2 20].
Proof.
  refine (scheduler_dispatches_due (list task) 100000
           (Post (sample_task 1 50) (Post (sample_task 2 20) (make (Q := list task)))) _ eq_refl eq_refl _);
    [lia|].
  intros x Hx. cbn in Hx.
  apply elem_of_cons in Hx as [->|Hx]; [vm_compute; discriminate|].
  apply elem_of_cons in Hx as [->|Hx]; [vm_compute; discriminate|]. by apply not_elem_of_nil in Hx.
Defined.

(** The interleaving of a destructor with a thread that has already tested [is_continue]. *)
Definition late_destroy : list label :=
  [LThread 0 0; LDestroy; LDestroy; LThread 0 0].

(** the destructor can wait for ever: it stores [is_continue] and notifies without the
    mutex, so both can fall between the thread's test and its wait; the thread then
    sleeps on an empty queue, the destructor is in [Join], and neither can move. *)
Theorem scheduler_destructor_can_hang Q `{PriorityQueueLaws Q} :
  ∃ s : t (Q := Q), run make late_destroy = Some s ∧ thread s = InWait ∧ destructor s = Joining ∧
    step s LDestroy = None ∧ ∀ c c', step s (LThread c c') = None.
Proof.
  eexists. split.
  - unfold late_destroy, make. cbn [run step thread is_continue set_thread destructor notify_one].
    unfold loop_body, notify_one. cbn [thread delayed_task set_thread].
    rewrite (proj2 (pq_top_None pq_empty) pq_elems_empty). reflexivity.
  - cbn. done.
Qed.

(** a clock that goes back between the two readings of one iteration blocks the
    scheduler: the callback posts the task to the scheduler again, with the mutex held. *)
Theorem scheduler_clock_back_deadlocks Q `{PriorityQueueLaws Q} (s : t (Q := Q)) (x : task) (c c' : Z) :
  pq_top (delayed_task s) = Some x → get_delay c x <= 0 → 0 < get_delay c' x →
  thread (loop_body c c' s) = Deadlocked ∧ ∀ l, l ≠ LDestroy → step (loop_body c c' s) l = None.
Proof.
  intros Hx Hc Hc'. unfold loop_body. rewrite Hx.
  destruct (Z.leb_spec (get_delay c x) 0); [|lia].
  assert (callback_reenters c' x = true) as -> by (unfold callback_reenters; ztest; [lia|done]).
  split; [done|]. by intros [].
Qed.

Lemma scheduler_clock_back_deadlocks_witness :
  thread (loop_body 20000 19000 (Post (sample_task 1 20) (make (Q := list task)))) = Deadlocked ∧
  ∀ l, l ≠ LDestroy → step (loop_body 20000 19000 (Post (sample_task 1 20) (make (Q := list task)))) l = None.
Proof.
  apply (scheduler_clock_back_deadlocks (list task) (Post (sample_task 1 20) make) (sample_task 1 20));
    [reflexivity|vm_compute; discriminate|vm_compute; reflexivity].
Defined.
