(* ===== verification/ExecutorSlot.v ===== *)
(** * Executor slots (src/executor_slot.h, src/executor_slot.cpp)

    A slot is a set of worker threads with a queue each, a shared queue and an
    eventcount.  The machine interleaves the workers, any number of threads inside
    [post] and the destructor.  Queues are the lists their operations refine (push and
    pop at the end, steal at the front; a steal may fail under contention), and the
    eventcount is the abstract one its word refines: a queue of pre-waiters and a stack of
    sleepers, a sleeper being free to go as soon as it is off the stack. *)
From S2P Require Import Prelude.
From S2P Require Import Task.
From S2P Require Import EventCount.

Module ExecutorSlot.

Definition MAX_STEALS : nat := 24.

(** Where a worker thread is. *)
Inductive wpc :=
| AtWhile                       (* the test of done *)
| ExploitOwn                    (* exploit_task: pop from its own queue *)
| ExploitShared                 (* ... steal from the slot's queue *)
| ExploitOther (k : nat)        (* ... at worker k in the loop over the others *)
| AtPrepare                     (* prepare_wait *)
| ExploreOwn (i : nat)          (* explore_task, iteration i: its own queue *)
| ExploreShared (i : nat)       (* ... the slot's queue *)
| ExploreOther (i k : nat)      (* ... at worker k *)
| AtCancel                      (* cancel_wait *)
| AtNotify                      (* notify(false) before continue *)
| AtRun (x : task)              (* a task in hand *)
| AtCommit                      (* commit_wait, before the stack *)
| Asleep                        (* commit_wait, parked *)
| Exited.

Record Worker := mkWorker {
  cpu_id : Z;
  wsq : list task;
  execute : bool;
  pc : wpc
}.

(** A thread inside [post], after its push; [returned] are the results of the calls of
    [notify(true)] that [notify_waiter] has made. *)
Inductive poster :=
| Idle
| NotifyOne
| NotifyWaiter (k : nat) (returned : list (option nat)).

Inductive dtor := NotStarted | Marked | Joining | Destroyed.

Record t := mk {
  workers : list Worker;
  shared : list task;
  pre : list nat;              (* the eventcount: pre-waiters in order *)
  stk : list nat;              (* the eventcount: sleepers, last one first *)
  done : bool;
  posters : list poster;
  destructor : dtor;
  executed : list (nat * task) (* the tasks run, with the worker, last first *)
}.

(** [spawn]: the workers at the start of their loop. *)
Definition make (cpus : list Z) (nposters : nat) : t :=
  mk (map (λ c, mkWorker c [] false AtWhile) cpus) [] [] [] false (replicate nposters Idle)
    NotStarted [].

Definition num_workers (s : t) : nat := List.length (workers s).

(** ** Updates *)
Definition set_worker (k : nat) (w : Worker) (s : t) : t :=
  mk (<[k := w]> (workers s)) (shared s) (pre s) (stk s) (done s) (posters s) (destructor s) (executed s).

Definition set_pc (w : Worker) (p : wpc) : Worker := mkWorker (cpu_id w) (wsq w) (execute w) p.

Definition set_wsq (w : Worker) (q : list task) : Worker := mkWorker (cpu_id w) q (execute w) (pc w).

Definition set_shared (q : list task) (s : t) : t :=
  mk (workers s) q (pre s) (stk s) (done s) (posters s) (destructor s) (executed s).

Definition set_ec (p st : list nat) (s : t) : t :=
  mk (workers s) (shared s) p st (done s) (posters s) (destructor s) (executed s).

Definition set_poster (j : nat) (p : poster) (s : t) : t :=
  mk (workers s) (shared s) (pre s) (stk s) (done s) (<[j := p]> (posters s)) (destructor s) (executed s).

(** [notify(false)] and [notify(true)] of the eventcount. *)
Definition notify_one (s : t) : t :=
  match pre s, stk s with
  | _ :: p, st => set_ec p st s
  | [], _ :: st => set_ec [] st s
  | [], [] => s
  end.

Definition notify_all (s : t) : t := set_ec [] [] s.

(** ** The worker's thread *)
(** [invoke]: the task runs with the worker's processor in its state. *)
Definition invoke (w : Worker) (x : task) : task :=
  let st := task_state x in
  set_execution_state (mkES (es_tag st) (es_work_group st) (cpu_id w) (es_executor st)) x.

(** [w.id != other_w.id && other_w.execute.load()]. *)
Definition other_busy (k o : nat) (w : Worker) : bool := negb (k =? o)%nat && execute w.

(** One step of worker [k]; [fails] makes a steal fail. *)
Definition worker_step (k : nat) (w : Worker) (fails : bool) (s : t) : option t :=
  let goto p := Some (set_worker k (set_pc w p) s) in
  match pc w with
  | AtWhile => goto (if done s then Exited else ExploitOwn)
  | ExploitOwn =>
      match last (wsq w) with
      | Some x => Some (set_worker k (set_pc (set_wsq w (removelast (wsq w))) (AtRun x)) s)
      | None => goto ExploitShared
      end
  | ExploitShared =>
      match shared s with
      | x :: q => if fails then goto (ExploitOther 0)
                  else Some (set_shared q (set_worker k (set_pc w (AtRun x)) s))
      | [] => goto (ExploitOther 0)
      end
  | ExploitOther o =>
      match workers s !! o with
      | None => goto AtPrepare
      | Some v =>
          match wsq v with
          | x :: q => if negb (other_busy k o v) || fails then goto (ExploitOther (S o))
                      else Some (set_worker o (set_wsq v q) (set_worker k (set_pc w (AtRun x)) s))
          | [] => goto (ExploitOther (S o))
          end
      end
  | AtPrepare => Some (set_ec (pre s ++ [k]) (stk s) (set_worker k (set_pc w (ExploreOwn 0)) s))
  | ExploreOwn i => goto (match wsq w with [] => ExploreShared i | _ => AtCancel end)
  | ExploreShared i => goto (match shared s with [] => ExploreOther i 0 | _ => AtCancel end)
  | ExploreOther i o =>
      match workers s !! o with
      | None =>
          if (S i <? MAX_STEALS)%nat then goto (ExploreOwn (S i))
          else Some (set_worker k (mkWorker (cpu_id w) (wsq w) false AtCommit) s)
      | Some v =>
          goto (if other_busy k o v && match wsq v with [] => false | _ => true end
                then AtCancel else ExploreOther i (S o))
      end
  | AtCancel =>
      match pre s with
      | h :: p => if (h =? k)%nat then Some (set_ec p (stk s) (set_worker k (set_pc w AtNotify) s))
                  else if bool_decide (k ∈ p) then None else goto AtNotify
      | [] => goto AtNotify
      end
  | AtNotify => Some (notify_one (set_worker k (set_pc w AtWhile) s))
  | AtRun x =>
      Some (mk (<[k := mkWorker (cpu_id w) (wsq w) true AtWhile]> (workers s)) (shared s) (pre s) (stk s)
              (done s) (posters s) (destructor s) ((k, invoke w x) :: executed s))
  | AtCommit =>
      match pre s with
      | h :: p => if (h =? k)%nat then Some (set_ec p (k :: stk s) (set_worker k (set_pc w Asleep) s))
                  else if bool_decide (k ∈ p) then None else goto AtWhile
      | [] => goto AtWhile
      end
  | Asleep => if bool_decide (k ∈ stk s) then None else goto AtWhile
  | Exited => None
  end.

(** ** Posting *)
(** The first worker on the task's processor. *)
Fixpoint find_worker (p : Z) (ws : list Worker) (k : nat) : option nat :=
  match ws with
  | [] => None
  | w :: ws' => if cpu_id w =? p then Some k else find_worker p ws' (S k)
  end.

(** [post], up to its push: the queue the task goes to and the notification to make. *)
Definition post (x : task) (s : t) : t * poster :=
  let p := es_processor (task_state x) in
  let to_shared := (set_shared (shared s ++ [x]) s, NotifyOne) in
  if p =? INVALID_OBJECT_ID then to_shared
  else match find_worker p (workers s) 0 with
       | Some k =>
           match workers s !! k with
           | Some w => (set_worker k (set_wsq w (wsq w ++ [x])) s, NotifyWaiter k [])
           | None => to_shared
           end
       | None => to_shared
       end.

(** The next call of a thread inside [post]. *)
Definition poster_step (j : nat) (p : poster) (s : t) : option t :=
  match p with
  | Idle => None
  | NotifyOne => Some (set_poster j Idle (notify_one s))
  | NotifyWaiter k returned =>
      match WorkNotifier.notify_waiter_next (num_workers s) k returned with
      | Some true => Some (set_poster j (NotifyWaiter k (returned ++ [head (stk s)])) (notify_all s))
      | Some false => Some (set_poster j (NotifyWaiter k (returned ++ [None])) (notify_one s))
      | None => Some (set_poster j Idle s)
      end
  end.

Inductive label :=
| LWorker (k : nat) (fails : bool)
| LPost (j : nat) (x : task)
| LPoster (j : nat)
| LDestroy.

Definition step (s : t) (l : label) : option t :=
  match l with
  | LWorker k fails => w ← workers s !! k; worker_step k w fails s
  | LPost j x =>
      match posters s !! j with
      | Some Idle => let '(s', p) := post x s in Some (set_poster j p s')
      | _ => None
      end
  | LPoster j => p ← posters s !! j; poster_step j p s
  | LDestroy =>
      match destructor s with
      | NotStarted =>
          Some (mk (workers s) (shared s) (pre s) (stk s) true (posters s) Marked (executed s))
      | Marked =>
          Some (mk (workers s) (shared s) [] [] (done s) (posters s) Joining (executed s))
      | Joining =>
          if forallb (λ w, match pc w with Exited => true | _ => false end) (workers s)
          then Some (mk (workers s) (shared s) (pre s) (stk s) (done s) (posters s) Destroyed (executed s))
          else None
      | Destroyed => None
      end
  end.

Fixpoint run (s : t) (ls : list label) : option t :=
  match ls with
  | [] => Some s
  | l :: ls' => match step s l with Some s' => run s' ls' | None => None end
  end.

Inductive reachable (cpus : list Z) (n : nat) : t → Prop :=
| reach_make : reachable cpus n (make cpus n)
| reach_step s l s' : reachable cpus n s → step s l = Some s' → reachable cpus n s'.

Lemma slot_run_reachable cpus n ls : ∀ s s', reachable cpus n s → run s ls = Some s' → reachable cpus n s'.
Proof.
  induction ls as [|l ls IH]; intros s s' Hr; cbn [run]; [by intros [= <-]|].
  destruct (step s l) as [s1|] eqn:E; [|done]. apply IH. by eapply reach_step.
Qed.

(** ** Structural invariant *)
Definition prewait (p : wpc) : bool :=
  match p with ExploreOwn _ | ExploreShared _ | ExploreOther _ _ | AtCancel | AtCommit => true | _ => false end.

Record sinv (s : t) : Prop := {
  si_nd : NoDup (pre s ++ stk s);
  si_pre : ∀ k, k ∈ pre s → ∃ w, workers s !! k = Some w ∧ prewait (pc w) = true;
  si_stk : ∀ k, k ∈ stk s → ∃ w, workers s !! k = Some w ∧ pc w = Asleep;
  si_exit : ∀ k w, workers s !! k = Some w → pc w = Exited → done s = true
}.

(** What a transition does to the worker [v] of index [o] when worker [k] moves: only
    the queue of another worker may change. *)
Definition same_pc (s s' : t) (k : nat) : Prop :=
  ∀ o, o ≠ k → pc <$> workers s' !! o = pc <$> workers s !! o.

Lemma lookup_insert_pc (ws : list Worker) k w o v :
  ws !! k = Some w → <[k := v]> ws !! o = if decide (o = k) then Some v else ws !! o.
Proof.
  intros Hk. destruct (decide (o = k)) as [->|Hne].
  - apply list_lookup_insert_eq. by eapply lookup_lt_Some.
  - by rewrite list_lookup_insert_ne.
Qed.

(** The structural invariant after worker [k] moves to [p'], given what became of the
    eventcount. *)
Lemma sinv_move s s' k w w' :
  sinv s → workers s !! k = Some w → workers s' !! k = Some w' → same_pc s s' k →
  (done s' = done s) → (pc w' = Exited → done s = true) →
  NoDup (pre s' ++ stk s') →
  (∀ o, o ≠ k → o ∈ pre s' → o ∈ pre s) → (∀ o, o ≠ k → o ∈ stk s' → o ∈ stk s) →
  (k ∈ pre s' → prewait (pc w') = true) → (k ∈ stk s' → pc w' = Asleep) → sinv s'.
Proof.
  intros [Hnd Hp Hs He] Hk Hk' Hpc Hd Hex Hnd' Hp' Hs' Hkp Hks. split.
  - done.
  - intros o Ho. destruct (decide (o = k)) as [->|Hne]; [eauto|].
    destruct (Hp o (Hp' o Hne Ho)) as (v & Hv & Hpv). specialize (Hpc o Hne). rewrite Hv in Hpc.
    destruct (workers s' !! o) as [v'|]; [|done]. injection Hpc as Hpc. exists v'. by rewrite Hpc.
  - intros o Ho. destruct (decide (o = k)) as [->|Hne]; [eauto|].
    destruct (Hs o (Hs' o Hne Ho)) as (v & Hv & Hpv). specialize (Hpc o Hne). rewrite Hv in Hpc.
    destruct (workers s' !! o) as [v'|]; [|done]. injection Hpc as Hpc. exists v'. by rewrite Hpc.
  - intros o v' Hv' Hx. rewrite Hd. destruct (decide (o = k)) as [->|Hne].
    + rewrite Hk' in Hv'. injection Hv' as ->. auto.
    + specialize (Hpc o Hne). rewrite Hv' in Hpc. destruct (workers s !! o) as [v|] eqn:Hv; [|done].
      injection Hpc as Hpc. apply (He o v Hv). congruence.
Qed.

Lemma same_pc_set s k w v : workers s !! k = Some w → same_pc s (set_worker k v s) k.
Proof.
  intros Hk o Hne. cbn. rewrite (lookup_insert_pc _ _ _ _ _ Hk). by rewrite decide_False.
Qed.

Lemma same_pc_set2 s k w v o x q :
  workers s !! k = Some w → workers s !! o = Some x → o ≠ k →
  same_pc s (set_worker o (set_wsq x q) (set_worker k v s)) k.
Proof.
  intros Hk Ho Hne o' Hne'. cbn.
  assert (<[k := v]> (workers s) !! o = Some x) as Ho' by (by rewrite list_lookup_insert_ne).
  rewrite (lookup_insert_pc _ _ _ _ _ Ho'). destruct (decide (o' = o)) as [->|?].
  - rewrite Ho. by destruct x.
  - by rewrite list_lookup_insert_ne.
Qed.

Lemma worker_at s k w v : workers s !! k = Some w → workers (set_worker k v s) !! k = Some v.
Proof. intros Hk. cbn. rewrite (lookup_insert_pc _ _ _ _ _ Hk). by rewrite decide_True. Qed.

(** A notification only takes threads out of the eventcount. *)
Lemma notify_one_sub s : (∀ o, o ∈ pre (notify_one s) → o ∈ pre s) ∧ (∀ o, o ∈ stk (notify_one s) → o ∈ stk s).
Proof.
  unfold notify_one. destruct (pre s) as [|h p] eqn:Hp, (stk s) as [|x st] eqn:Hs; cbn; rewrite ?Hp, ?Hs; set_solver.
Qed.

Lemma notify_one_nd s : NoDup (pre s ++ stk s) → NoDup (pre (notify_one s) ++ stk (notify_one s)).
Proof.
  unfold notify_one. destruct (pre s) as [|h p] eqn:Hp, (stk s) as [|x st] eqn:Hs; cbn; rewrite ?Hp, ?Hs; cbn; try done.
  all: rewrite NoDup_cons; by intros [].
Qed.

Lemma notify_one_frame s : workers (notify_one s) = workers s ∧ shared (notify_one s) = shared s ∧
  done (notify_one s) = done s ∧ posters (notify_one s) = posters s ∧ executed (notify_one s) = executed s ∧
  destructor (notify_one s) = destructor s.
Proof. unfold notify_one. by destruct (pre s), (stk s). Qed.

Lemma sinv_notify_one s : sinv s → sinv (notify_one s).
Proof.
  intros [Hnd Hp Hs He]. destruct (notify_one_sub s) as [Sp Ss].
  destruct (notify_one_frame s) as (Fw & _ & Fd & _). split; rewrite ?Fw, ?Fd.
  - by apply notify_one_nd.
  - auto.
  - auto.
  - done.
Qed.

Lemma sinv_sub_ec s p st : sinv s → p = [] → st = [] → sinv (set_ec p st s).
Proof. intros [Hnd Hp Hs He] -> ->. split; cbn; [apply NoDup_nil_2|set_solver|set_solver|done]. Qed.

Lemma NoDup_head_out (h : nat) p st : NoDup ((h :: p) ++ st) → NoDup (p ++ st) ∧ (h ∉ p) ∧ (h ∉ st).
Proof. cbn. rewrite NoDup_cons, not_elem_of_app. tauto. Qed.

(** A worker that moves without touching the eventcount. *)
Lemma sinv_goto s k w w' :
  sinv s → workers s !! k = Some w →
  (k ∈ pre s → prewait (pc w) = true → prewait (pc w') = true) → (k ∈ stk s → pc w = Asleep → pc w' = Asleep) →
  (pc w' = Exited → done s = true) → sinv (set_worker k w' s).
Proof.
  intros Hi Hk Hp Hs Hx.
  eapply (sinv_move s _ k w w'); try done.
  - by eapply worker_at.
  - by eapply same_pc_set.
  - apply Hi.
  - cbn. intros Hin. apply Hp; [done|]. destruct (si_pre _ Hi k Hin) as (v & Hv & ?). congruence.
  - cbn. intros Hin. apply Hs; [done|]. destruct (si_stk _ Hi k Hin) as (v & Hv & ?). congruence.
Qed.

Lemma sinv_set_shared s q : sinv s → sinv (set_shared q s).
Proof. intros [? ? ? ?]. by split. Qed.

(** The head of the queue of pre-waiters moves. *)
Lemma sinv_head s k w w' p st' :
  sinv s → workers s !! k = Some w → pre s = k :: p → (st' = stk s ∧ pc w' = AtNotify ∨ st' = k :: stk s ∧ pc w' = Asleep) →
  sinv (set_ec p st' (set_worker k w' s)).
Proof.
  intros Hi Hk Hp Hst. pose proof (si_nd _ Hi) as Hnd. rewrite Hp in Hnd.
  destruct (NoDup_head_out _ _ _ Hnd) as (Hnd' & Hkp & Hks).
  eapply (sinv_move s _ k w w'); try done.
  - by eapply worker_at.
  - by eapply same_pc_set.
  - intros E. destruct Hst as [[_ ?]|[_ ?]]; congruence.
  - cbn. destruct Hst as [[-> _]|[-> _]]; [done|].
    apply NoDup_app in Hnd' as (? & ? & ?). apply NoDup_app. rewrite NoDup_cons. set_solver.
  - cbn. rewrite Hp. set_solver.
  - cbn. destruct Hst as [[-> _]|[-> _]]; set_solver.
  - cbn. destruct Hst as [[-> _]|[_ ->]]; done.
Qed.

Lemma sinv_prepare s k w i :
  sinv s → workers s !! k = Some w → pc w = AtPrepare →
  sinv (set_ec (pre s ++ [k]) (stk s) (set_worker k (set_pc w (ExploreOwn i)) s)).
Proof.
  intros Hi Hk Hpc.
  assert (k ∉ pre s) as Hnp.
  { intros Hin. destruct (si_pre _ Hi k Hin) as (v & Hv & Hpv). rewrite Hk in Hv. injection Hv as <-. by rewrite Hpc in Hpv. }
  assert (k ∉ stk s) as Hns.
  { intros Hin. destruct (si_stk _ Hi k Hin) as (v & Hv & Hpv). rewrite Hk in Hv. injection Hv as <-. by rewrite Hpc in Hpv. }
  eapply (sinv_move s _ k w _); try done.
  - by eapply worker_at.
  - by eapply same_pc_set.
  - by cbn.
  - cbn. pose proof (si_nd _ Hi) as Hnd. apply NoDup_app in Hnd as (? & ? & ?).
    rewrite <- (assoc_L (++)). apply NoDup_app. split; [done|]. cbn. split; [set_solver|].
    by rewrite NoDup_cons.
  - cbn. set_solver.
  - by cbn.
Qed.

Lemma worker_step_sinv s k w fails s' :
  sinv s → workers s !! k = Some w → worker_step k w fails s = Some s' → sinv s'.
Proof.
  intros Hi Hk. unfold worker_step. destruct (pc w) eqn:Hpc; intros Hst.
  - injection Hst as <-. eapply sinv_goto; [done..| | |]; rewrite ?Hpc; cbn; try done.
    by destruct (done s).
  - destruct (last (wsq w)); injection Hst as <-; eapply sinv_goto; try done; by rewrite ?Hpc.
  - destruct (shared s); [|destruct fails]; injection Hst as <-; try apply sinv_set_shared;
      eapply sinv_goto; try done; by rewrite ?Hpc.
  - destruct (workers s !! k0) as [v|] eqn:Hv.
    2: { injection Hst as <-. eapply sinv_goto; try done; by rewrite ?Hpc. }
    destruct (wsq v) as [|x q]; [injection Hst as <-; eapply sinv_goto; try done; by rewrite ?Hpc|].
    destruct (negb (other_busy k k0 v) || fails) eqn:Hb;
      [injection Hst as <-; eapply sinv_goto; try done; by rewrite ?Hpc|].
    injection Hst as <-. apply orb_false_iff in Hb as [Hb _]. apply negb_false_iff in Hb.
    unfold other_busy in Hb. apply andb_true_iff in Hb as [Hne%negb_true_iff%Nat.eqb_neq _].
    assert (sinv (set_worker k (set_pc w (AtRun x)) s)) as Hi'
      by (eapply sinv_goto; try done; by rewrite ?Hpc).
    eapply (sinv_goto _ k0 v); [done| | | |]; cbn; try done; [by rewrite list_lookup_insert_ne|].
    intros E. by apply (si_exit _ Hi k0 v).
  - injection Hst as <-. by apply sinv_prepare.
  - injection Hst as <-. eapply sinv_goto; try done; rewrite ?Hpc; cbn; destruct (wsq w); done.
  - injection Hst as <-. eapply sinv_goto; try done; rewrite ?Hpc; cbn; destruct (shared s); done.
  - destruct (workers s !! k0) as [v|] eqn:Hv.
    + injection Hst as <-. eapply sinv_goto; try done; rewrite ?Hpc; cbn; by destruct (_ && _).
    + destruct (S i <? MAX_STEALS)%nat; injection Hst as <-; eapply sinv_goto; try done; by rewrite ?Hpc.
  - destruct (pre s) as [|h p] eqn:Hp.
    { injection Hst as <-. eapply sinv_goto; try done; [rewrite Hp; set_solver|by rewrite ?Hpc]. }
    destruct (Nat.eqb_spec h k) as [->|Hne].
    + injection Hst as <-. eapply sinv_head; eauto.
    + destruct (bool_decide_reflect (k ∈ p)); [done|]. injection Hst as <-.
      eapply sinv_goto; try done; [rewrite Hp; set_solver|by rewrite ?Hpc].
  - injection Hst as <-. apply sinv_notify_one. eapply sinv_goto; try done; by rewrite ?Hpc.
  - injection Hst as <-.
    assert (sinv (set_worker k (mkWorker (cpu_id w) (wsq w) true AtWhile) s)) as []
      by (eapply sinv_goto; try done; by rewrite ?Hpc). by split.
  - destruct (pre s) as [|h p] eqn:Hp.
    { injection Hst as <-. eapply sinv_goto; try done; [rewrite Hp; set_solver|by rewrite ?Hpc]. }
    destruct (Nat.eqb_spec h k) as [->|Hne].
    + injection Hst as <-. eapply sinv_head; eauto.
    + destruct (bool_decide_reflect (k ∈ p)); [done|]. injection Hst as <-.
      eapply sinv_goto; try done; [rewrite Hp; set_solver|by rewrite ?Hpc].
  - destruct (bool_decide_reflect (k ∈ stk s)); [done|]. injection Hst as <-.
    eapply sinv_goto; try done; by rewrite ?Hpc.
  - done.
Qed.

(** ** Who will look at a queue *)
(** A worker in the queue of pre-waiters that has still to look at the slot's queue, and
    one that has still to look at its own. *)
Definition fresh_shared (p : wpc) : bool :=
  match p with
  | ExploreOwn _ | ExploreShared _ | AtCancel => true
  | ExploreOther i _ => (S i <? MAX_STEALS)%nat
  | _ => false
  end.

Definition fresh_own (p : wpc) : bool :=
  match p with
  | ExploreOwn _ | AtCancel => true
  | ExploreShared i | ExploreOther i _ => (S i <? MAX_STEALS)%nat
  | _ => false
  end.

(** Worker [k] is awake, or will look before it sleeps. *)
Definition good (fresh : wpc → bool) (s : t) (k : nat) : Prop :=
  ∃ w, workers s !! k = Some w ∧ ((k ∉ pre s) ∧ (k ∉ stk s) ∨ k ∈ pre s ∧ fresh (pc w) = true).

Lemma good_other fresh s s' k :
  sinv s → good fresh s k → pc <$> workers s' !! k = pc <$> workers s !! k →
  (k ∈ pre s' → k ∈ pre s) → (k ∈ stk s' → k ∈ stk s) → good fresh s' k.
Proof.
  intros Hi (w & Hk & Hg) Hpc Hp Hs. rewrite Hk in Hpc.
  destruct (workers s' !! k) as [w'|] eqn:Hk'; [|done]. injection Hpc as Hpc.
  exists w'. split; [done|]. destruct Hg as [[? ?]|[Hin Hf]]; [left; split; auto|].
  destruct (decide (k ∈ pre s')) as [?|?]; [right; by rewrite Hpc|left].
  split; [done|]. intros Hst%Hs. pose proof (si_nd _ Hi) as Hnd.
  apply NoDup_app in Hnd as (_ & Hd & _). by apply (Hd k).
Qed.

(** After a notification some worker is awake. *)
Lemma notify_one_good fresh s :
  sinv s → workers s ≠ [] → ∃ k, good fresh (notify_one s) k.
Proof.
  intros Hi Hw. pose proof (si_nd _ Hi) as Hnd. unfold good.
  destruct (notify_one_frame s) as (-> & _). unfold notify_one.
  destruct (pre s) as [|h p] eqn:Hp.
  - destruct (stk s) as [|x st] eqn:Hs.
    + destruct (workers s) as [|w ws] eqn:Hws; [done|]. exists 0%nat, w. rewrite Hp, Hs.
      split; [done|left]; set_solver.
    + exists x. destruct (si_stk _ Hi x) as (w & Hx & _); [rewrite Hs; by constructor|]. exists w.
      split; [done|]. left. cbn. cbn in Hnd. rewrite NoDup_cons in Hnd. set_solver.
  - exists h. destruct (si_pre _ Hi h) as (w & Hh & _); [rewrite Hp; by constructor|]. exists w.
    split; [done|]. left. cbn. destruct (NoDup_head_out _ _ _ Hnd) as (_ & ? & ?). done.
Qed.

Lemma notify_all_good fresh s k w : workers s !! k = Some w → good fresh (notify_all s) k.
Proof. intros Hk. exists w. split; [done|]. left. cbn. set_solver. Qed.

(** ** Frame of a worker's step *)
Record frame (s s' : t) (k : nat) : Prop := {
  fr_pc : same_pc s s' k;
  fr_pre : ∀ o, o ≠ k → o ∈ pre s' → o ∈ pre s;
  fr_stk : ∀ o, o ≠ k → o ∈ stk s' → o ∈ stk s;
  fr_done : done s' = done s;
  fr_posters : posters s' = posters s;
  fr_len : num_workers s' = num_workers s;
  fr_shared : shared s' ≠ [] → shared s ≠ [];
  fr_wsq : ∀ o w', workers s' !! o = Some w' → wsq w' ≠ [] →
    ∃ w, workers s !! o = Some w ∧ wsq w ≠ []
}.

Lemma frame_set s k w w' :
  workers s !! k = Some w → (wsq w' ≠ [] → wsq w ≠ []) → frame s (set_worker k w' s) k.
Proof.
  intros Hk Hq. split; try done.
  - by eapply same_pc_set.
  - unfold num_workers. cbn. by rewrite length_insert.
  - intros o v Ho Hv. cbn in Ho. rewrite (lookup_insert_pc _ _ _ _ _ Hk) in Ho.
    destruct (decide (o = k)) as [->|?]; [|eauto]. injection Ho as <-. eauto.
Qed.

Lemma frame_ec s s' k p st :
  frame s s' k → (∀ o, o ≠ k → o ∈ p → o ∈ pre s) → (∀ o, o ≠ k → o ∈ st → o ∈ stk s) →
  frame s (set_ec p st s') k.
Proof. intros [] ? ?. by split. Qed.

Lemma removelast_nonempty {A} (l : list A) : removelast l ≠ [] → l ≠ [].
Proof. by destruct l. Qed.

Lemma worker_step_frame s k w fails s' :
  workers s !! k = Some w → worker_step k w fails s = Some s' → frame s s' k.
Proof.
  intros Hk. unfold worker_step.
  assert (∀ p, frame s (set_worker k (set_pc w p) s) k) as Hgo by (intros; by eapply frame_set).
  destruct (pc w) eqn:Hpc; intros Hst.
  - by injection Hst as <-.
  - destruct (last (wsq w)); injection Hst as <-; [|done].
    eapply frame_set; [done|]. cbn. apply removelast_nonempty.
  - destruct (shared s) eqn:Hsh; [|destruct fails]; injection Hst as <-; try done.
    destruct (Hgo (AtRun t0)). split; try done. intros _. by rewrite Hsh.
  - destruct (workers s !! k0) as [v|] eqn:Hv; [|by injection Hst as <-].
    destruct (wsq v) as [|x q] eqn:Hq; [by injection Hst as <-|].
    destruct (negb (other_busy k k0 v) || fails) eqn:Hb; [by injection Hst as <-|].
    injection Hst as <-. apply orb_false_iff in Hb as [Hb _]. apply negb_false_iff in Hb.
    unfold other_busy in Hb. apply andb_true_iff in Hb as [Hne%negb_true_iff%Nat.eqb_neq _].
    assert (<[k := set_pc w (AtRun x)]> (workers s) !! k0 = Some v) as Hv'
      by (by rewrite list_lookup_insert_ne).
    destruct (Hgo (AtRun x)) as [? ? ? ? ? Hlen ? Hqs]. split; try done.
    + eapply same_pc_set2; done.
    + unfold num_workers in *. cbn in *. by rewrite length_insert.
    + intros o u Ho Hu. cbn in Ho. rewrite (lookup_insert_pc _ _ _ _ _ Hv') in Ho.
      destruct (decide (o = k0)) as [->|?]; [exists v; by rewrite Hq|]. by eapply Hqs.
  - injection Hst as <-. apply frame_ec; [done|set_solver|done].
  - by injection Hst as <-.
  - by injection Hst as <-.
  - destruct (workers s !! k0); [by injection Hst as <-|].
    destruct (S i <? MAX_STEALS)%nat; injection Hst as <-; [done|]. by eapply frame_set.
  - destruct (pre s) as [|h p] eqn:Hp; [by injection Hst as <-|].
    destruct (h =? k)%nat; [|destruct (bool_decide _)]; simplify_eq; try done.
    apply frame_ec; [done|rewrite Hp; set_solver|done].
  - injection Hst as <-. set (s1 := set_worker k (set_pc w AtWhile) s).
    destruct (notify_one_sub s1) as [Sp Ss]. destruct (notify_one_frame s1) as (F1 & F2 & F3 & F4 & _).
    destruct (Hgo AtWhile) as [H1 H2 H3 H4 H5 H6 H7 H8].
    split; unfold same_pc, num_workers; rewrite ?F1, ?F2, ?F3, ?F4; auto.
  - injection Hst as <-.
    destruct (frame_set s k w (mkWorker (cpu_id w) (wsq w) true AtWhile) Hk) as [H1 H2 H3 H4 H5 H6 H7 H8];
      [done|]. by split.
  - destruct (pre s) as [|h p] eqn:Hp; [by injection Hst as <-|].
    destruct (h =? k)%nat; [|destruct (bool_decide _)]; simplify_eq; try done.
    apply frame_ec; [done|rewrite Hp; set_solver|set_solver].
  - destruct (bool_decide _); simplify_eq. done.
  - done.
Qed.

Lemma good_at fresh s k w :
  workers s !! k = Some w → ((k ∉ pre s) ∧ (k ∉ stk s) ∨ k ∈ pre s ∧ fresh (pc w) = true) → good fresh s k.
Proof. intros. exists w. auto. Qed.

(** A worker that is awake stays so, or starts to look at every queue. *)
Lemma awake_step fresh s k w fails s' :
  workers s !! k = Some w → worker_step k w fails s = Some s' →
  fresh (ExploreOwn 0) = true → k ∉ pre s → k ∉ stk s → good fresh s' k.
Proof.
  intros Hk Hst Hf Hp Hs. pose proof (worker_step_frame _ _ _ _ _ Hk Hst) as Fr.
  assert (∃ w', workers s' !! k = Some w') as [w' Hw'].
  { apply lookup_lt_is_Some. pose proof (fr_len _ _ _ Fr) as Hl. unfold num_workers in Hl. rewrite Hl.
    by eapply lookup_lt_Some. }
  unfold worker_step in Hst. destruct (pc w) eqn:Hpc.
  all: try (repeat case_match; simplify_eq; (eapply good_at; [exact Hw'|]); left; cbn; set_solver).
  - injection Hst as <-. eapply good_at; [by eapply worker_at|]. right. cbn. set_solver.
  - destruct (pre s) as [|h p] eqn:E; [|destruct (Nat.eqb_spec h k) as [->|?]; [set_solver|]; case_match];
      simplify_eq; (eapply good_at; [exact Hw'|]); left; cbn; rewrite ?E; done.
  - injection Hst as <-. destruct (notify_one_sub (set_worker k (set_pc w AtWhile) s)) as [Sp Ss].
    eapply good_at; [exact Hw'|]. left. cbn in Sp, Ss. split; intros ?; [apply Hp|apply Hs]; auto.
  - destruct (pre s) as [|h p] eqn:E; [|destruct (Nat.eqb_spec h k) as [->|?]; [set_solver|]; case_match];
      simplify_eq; (eapply good_at; [exact Hw'|]); left; cbn; rewrite ?E; done.
Qed.

Lemma good_self_shared s k w fails s' :
  sinv s → workers s !! k = Some w → worker_step k w fails s = Some s' → shared s ≠ [] →
  good fresh_shared s k → good fresh_shared s' k.
Proof.
  intros Hi Hk Hst Hq (w0 & Hk0 & Hg). rewrite Hk in Hk0. injection Hk0 as <-.
  destruct Hg as [[? ?]|[Hin Hf]]; [by eapply awake_step|].
  unfold worker_step in Hst. destruct (pc w) eqn:Hpc; try done; cbn [fresh_shared fresh_own] in Hf.
  - injection Hst as <-. eapply good_at; [by eapply worker_at|]. right. cbn. by destruct (wsq w).
  - injection Hst as <-. eapply good_at; [by eapply worker_at|]. right. cbn. by destruct (shared s).
  - rewrite Hf in Hst. destruct (workers s !! k0); injection Hst as <-;
      (eapply good_at; [by eapply worker_at|]); right; cbn; [|done]. by destruct (_ && _).
  - destruct (pre s) as [|h p] eqn:Hp; [set_solver|]. pose proof (si_nd _ Hi) as Hnd. rewrite Hp in Hnd.
    destruct (NoDup_head_out _ _ _ Hnd) as (_ & ? & ?).
    destruct (Nat.eqb_spec h k) as [->|Hne].
    + injection Hst as <-. eapply good_at; [by eapply worker_at|]. left. done.
    + rewrite bool_decide_eq_true_2 in Hst by set_solver. done.
Qed.

Lemma good_self_own s k w fails s' :
  sinv s → workers s !! k = Some w → worker_step k w fails s = Some s' → wsq w ≠ [] →
  good fresh_own s k → good fresh_own s' k.
Proof.
  intros Hi Hk Hst Hq (w0 & Hk0 & Hg). rewrite Hk in Hk0. injection Hk0 as <-.
  destruct Hg as [[? ?]|[Hin Hf]]; [by eapply awake_step|].
  unfold worker_step in Hst. destruct (pc w) eqn:Hpc; try done; cbn [fresh_shared fresh_own] in Hf.
  - injection Hst as <-. eapply good_at; [by eapply worker_at|]. right. cbn. by destruct (wsq w).
  - injection Hst as <-. eapply good_at; [by eapply worker_at|]. right. cbn. by destruct (shared s).
  - rewrite Hf in Hst. destruct (workers s !! k0); injection Hst as <-;
      (eapply good_at; [by eapply worker_at|]); right; cbn; [|done]. by destruct (_ && _).
  - destruct (pre s) as [|h p] eqn:Hp; [set_solver|]. pose proof (si_nd _ Hi) as Hnd. rewrite Hp in Hnd.
    destruct (NoDup_head_out _ _ _ Hnd) as (_ & ? & ?).
    destruct (Nat.eqb_spec h k) as [->|Hne].
    + injection Hst as <-. eapply good_at; [by eapply worker_at|]. left. done.
    + rewrite bool_decide_eq_true_2 in Hst by set_solver. done.
Qed.

(** ** The invariant *)
Record inv (s : t) : Prop := {
  iv_s : sinv s;
  iv_waiter : ∀ j k r, posters s !! j = Some (NotifyWaiter k r) → (k < num_workers s)%nat;
  iv_shared : done s = false → workers s ≠ [] → shared s ≠ [] →
    (∃ j, posters s !! j = Some NotifyOne) ∨ ∃ k, good fresh_shared s k;
  iv_own : done s = false → ∀ k w, workers s !! k = Some w → wsq w ≠ [] →
    (∃ j, posters s !! j = Some (NotifyWaiter k [])) ∨ good fresh_own s k
}.

Lemma inv_worker s k w fails s' :
  inv s → workers s !! k = Some w → worker_step k w fails s = Some s' → inv s'.
Proof.
  intros [Hi Hw Hsh Hown] Hk Hst. pose proof (worker_step_frame _ _ _ _ _ Hk Hst) as Fr.
  pose proof (worker_step_sinv _ _ _ _ _ Hi Hk Hst) as Hi'.
  destruct Fr as [Fpc Fpre Fstk Fd Fp Fl Fsh Fq]. unfold num_workers in *. split.
  - done.
  - rewrite Fp. unfold num_workers. by rewrite Fl.
  - rewrite Fd, Fp. intros Hd Hne Hq.
    assert (workers s ≠ []) as Hne' by (intros E; by rewrite E in Hk).
    destruct (Hsh Hd Hne' (Fsh Hq)) as [?|[o Ho]]; [auto|right]. exists o.
    destruct (decide (o = k)) as [->|Hok]; [exact (good_self_shared s k w fails s' Hi Hk Hst (Fsh Hq) Ho)|].
    apply (good_other _ s); auto.
  - rewrite Fd, Fp. intros Hd o w' Ho Hq. destruct (Fq o w' Ho Hq) as (v & Hv & Hvq).
    destruct (Hown Hd o v Hv Hvq) as [?|Hg]; [auto|right].
    destruct (decide (o = k)) as [->|Hok].
    + rewrite Hk in Hv. injection Hv as <-. exact (good_self_own s k w fails s' Hi Hk Hst Hvq Hg).
    + apply (good_other _ s); auto.
Qed.

Lemma inv_notify_one_good s : inv s → inv (notify_one s) ∧
  (workers s ≠ [] → ∃ k, good fresh_shared (notify_one s) k).
Proof.
  intros [Hi Hw Hsh Hown]. destruct (notify_one_sub s) as [Sp Ss].
  destruct (notify_one_frame s) as (F1 & F2 & F3 & F4 & _).
  split; [|by apply notify_one_good]. split; unfold num_workers; rewrite ?F1, ?F2, ?F3, ?F4.
  - by apply sinv_notify_one.
  - done.
  - intros Hd Hne Hq. right. by apply notify_one_good.
  - intros Hd k w Hk Hq. destruct (Hown Hd k w Hk Hq) as [?|Hg]; [auto|right].
    apply (good_other _ s); auto. by rewrite F1.
Qed.

Lemma inv_notify_all s : inv s → inv (notify_all s).
Proof.
  intros [Hi Hw Hsh Hown]. split; cbn; try done.
  - by apply sinv_sub_ec.
  - intros _ Hne _. right. destruct (workers s) as [|w ws] eqn:E; [done|].
    exists 0%nat. eapply notify_all_good. by rewrite E.
  - intros Hd k w Hk Hq. right. by eapply notify_all_good.
Qed.

Lemma good_posters fresh s j p k : good fresh (set_poster j p s) k ↔ good fresh s k.
Proof. done. Qed.

(** A poster whose pending notification is made good by the workers moves on. *)
Lemma inv_set_poster s j p0 p :
  inv s → posters s !! j = Some p0 →
  (∀ k r, p = NotifyWaiter k r → (k < num_workers s)%nat) →
  (p0 = NotifyOne → p = NotifyOne ∨ (workers s ≠ [] → ∃ k, good fresh_shared s k)) →
  (∀ k, p0 = NotifyWaiter k [] → p = NotifyWaiter k [] ∨ good fresh_own s k) →
  inv (set_poster j p s).
Proof.
  intros [Hi Hw Hsh Hown] Hj Hk H1 H2.
  assert (posters s !! j = Some p0 → (j < List.length (posters s))%nat) as Hlt by apply lookup_lt_Some.
  specialize (Hlt Hj). split; cbn.
  - destruct Hi. by split.
  - intros j' k r Hj'. destruct (decide (j = j')) as [->|Hne].
    + rewrite list_lookup_insert_eq in Hj' by done. injection Hj' as ->. by eapply Hk.
    + rewrite list_lookup_insert_ne in Hj' by done. by eapply Hw.
  - intros Hd Hne Hq. destruct (Hsh Hd Hne Hq) as [[j' Hj']|Hg]; [|auto].
    destruct (decide (j = j')) as [->|Hne'].
    + rewrite Hj in Hj'. injection Hj' as ->. destruct (H1 eq_refl) as [->|?]; [|auto].
      left. exists j'. by rewrite list_lookup_insert_eq.
    + left. exists j'. by rewrite list_lookup_insert_ne.
  - intros Hd k w Hkw Hq. destruct (Hown Hd k w Hkw Hq) as [[j' Hj']|Hg]; [|auto].
    destruct (decide (j = j')) as [->|Hne'].
    + rewrite Hj in Hj'. injection Hj' as ->. destruct (H2 k eq_refl) as [->|?]; [|auto].
      left. exists j'. by rewrite list_lookup_insert_eq.
    + left. exists j'. by rewrite list_lookup_insert_ne.
Qed.

Lemma inv_poster s j p s' :
  inv s → posters s !! j = Some p → poster_step j p s = Some s' → inv s'.
Proof.
  intros Hi Hj Hst. destruct p as [| |k r]; cbn [poster_step] in Hst; [done|..].
  - injection Hst as <-. destruct (inv_notify_one_good s Hi) as [Hi' Hg].
    destruct (notify_one_frame s) as (F1 & _ & _ & F4 & _).
    eapply inv_set_poster; [done|by rewrite F4|done|right; by rewrite F1|done].
  - pose proof (iv_waiter _ Hi j k r Hj) as Hk.
    destruct (WorkNotifier.notify_waiter_next (num_workers s) k r) as [[]|] eqn:Hn; injection Hst as <-.
    + eapply inv_set_poster; [by apply inv_notify_all|done| |done|].
      * by intros k' r' [= -> <-].
      * intros k' [= <- ->]. right. apply lookup_lt_is_Some in Hk as [w Hkw]. by eapply notify_all_good.
    + destruct (inv_notify_one_good s Hi) as [Hi' Hg].
      destruct (notify_one_frame s) as (F1 & _ & _ & F4 & _).
      eapply inv_set_poster; [done|by rewrite F4| |done|].
      * intros k' r' [= -> <-]. unfold num_workers. by rewrite F1.
      * intros k' [= <- ->]. exfalso. unfold WorkNotifier.notify_waiter_next in Hn. cbn in Hn.
        destruct (num_workers s) eqn:E; [lia|done].
    + eapply inv_set_poster; [done|done|done|done|].
      intros k' [= <- ->]. exfalso. unfold WorkNotifier.notify_waiter_next in Hn. cbn in Hn.
      destruct (num_workers s) eqn:E; [lia|done].
Qed.

Lemma inv_post_shared s j x :
  inv s → posters s !! j = Some Idle → inv (set_poster j NotifyOne (set_shared (shared s ++ [x]) s)).
Proof.
  intros [Hi Hw Hsh Hown] Hj. pose proof (lookup_lt_Some _ _ _ Hj) as Hlt.
  split; cbn.
  - destruct Hi. by split.
  - intros j' k r Hj'. destruct (decide (j = j')) as [->|Hne].
    + by rewrite list_lookup_insert_eq in Hj' by done.
    + rewrite list_lookup_insert_ne in Hj' by done. by eapply Hw.
  - intros _ _ _. left. exists j. by rewrite list_lookup_insert_eq.
  - intros Hd k w Hk Hq. destruct (Hown Hd k w Hk Hq) as [[j' Hj']|?]; [|auto]. left. exists j'.
    rewrite list_lookup_insert_ne; [done|]. congruence.
Qed.

Lemma inv_post_own s j x k w :
  inv s → posters s !! j = Some Idle → workers s !! k = Some w →
  inv (set_poster j (NotifyWaiter k []) (set_worker k (set_wsq w (wsq w ++ [x])) s)).
Proof.
  intros [Hi Hw Hsh Hown] Hj Hk. pose proof (lookup_lt_Some _ _ _ Hj) as Hlt.
  set (s1 := set_worker k (set_wsq w (wsq w ++ [x])) s).
  assert (sinv s1) as Hi1.
  { eapply sinv_goto; [done|done|by destruct w|by destruct w|].
    cbn. intros E. by apply (si_exit _ Hi k w). }
  assert (∀ o, pc <$> workers s1 !! o = pc <$> workers s !! o) as Hpc.
  { intros o. destruct (decide (o = k)) as [->|?]; [|by eapply same_pc_set].
    unfold s1. rewrite (worker_at s k w), Hk by done. by destruct w. }
  assert (∀ fresh o, good fresh s o → good fresh s1 o) as Hg by (intros; by apply (good_other _ s)).
  assert (num_workers s1 = num_workers s) as Hn by (unfold num_workers, s1; cbn; by rewrite length_insert).
  split; cbn [set_poster workers posters shared done].
  - destruct Hi1. by split.
  - intros j' k' r Hj'. unfold num_workers in *. cbn [set_poster workers].
    change (workers (set_poster j (NotifyWaiter k []) s1)) with (workers s1). rewrite Hn.
    destruct (decide (j = j')) as [->|Hne].
    + rewrite list_lookup_insert_eq in Hj' by done. injection Hj' as <- _. by eapply lookup_lt_Some.
    + rewrite list_lookup_insert_ne in Hj' by done. by eapply Hw.
  - intros Hd Hne Hq. assert (workers s ≠ []) as Hne' by (intros E; by rewrite E in Hk).
    destruct (Hsh Hd Hne' Hq) as [[j' Hj']|[o Ho]].
    + left. exists j'. rewrite list_lookup_insert_ne; [done|]. congruence.
    + right. exists o. by apply Hg.
  - intros Hd o v Ho Hq. destruct (decide (o = k)) as [->|Hne].
    + left. exists j. by rewrite list_lookup_insert_eq.
    + unfold s1 in Ho. cbn in Ho. rewrite list_lookup_insert_ne in Ho by done.
      destruct (Hown Hd o v Ho Hq) as [[j' Hj']|?]; [|right; by apply Hg].
      left. exists j'. rewrite list_lookup_insert_ne; [done|]. congruence.
Qed.

(** [post] pushes to the queue of the first worker on the task's processor, or to the
    slot's queue. *)
Lemma post_cases x s :
  post x s = (set_shared (shared s ++ [x]) s, NotifyOne) ∨
  ∃ k w, workers s !! k = Some w ∧
    post x s = (set_worker k (set_wsq w (wsq w ++ [x])) s, NotifyWaiter k []).
Proof.
  unfold post. destruct (_ =? _); [auto|]. destruct (find_worker _ _ _) as [k|]; [|auto].
  destruct (workers s !! k) as [w|] eqn:E; eauto.
Qed.

Lemma slot_inv_step s l s' : inv s → step s l = Some s' → inv s'.
Proof.
  intros Hi Hst. destruct l as [k fails|j x|j|]; cbn [step] in Hst.
  - destruct (workers s !! k) as [w|] eqn:Hk; [|done]. by eapply inv_worker.
  - destruct (posters s !! j) as [[]|] eqn:Hj; try done.
    destruct (post_cases x s) as [E|(k & w & Hk & E)]; rewrite E in Hst; injection Hst as <-.
    + by apply inv_post_shared.
    + by apply inv_post_own.
  - destruct (posters s !! j) as [p|] eqn:Hj; [|done]. by eapply inv_poster.
  - destruct Hi as [Hi Hw Hsh Hown]. destruct (destructor s); try done.
    + injection Hst as <-. split; cbn; try done. destruct Hi. by split.
    + injection Hst as <-. destruct (inv_notify_all s ltac:(by split)) as [Hi' ? ? ?].
      split; try done. destruct Hi'. by split.
    + destruct (forallb _ _); [|done]. injection Hst as <-. split; try done. destruct Hi. by split.
Qed.

Lemma slot_inv_make cpus n : inv (make cpus n).
Proof.
  split; cbn; try done.
  - split; cbn; [apply NoDup_nil_2|set_solver|set_solver|].
    intros k w Hk. rewrite list_lookup_fmap in Hk. destruct (cpus !! k); [|done]. by injection Hk as <-.
  - intros j k r [Hj _]%lookup_replicate. done.
  - intros _ k w Hk. rewrite list_lookup_fmap in Hk. destruct (cpus !! k); [|done]. by injection Hk as <-.
Qed.

Lemma reachable_inv cpus n s : reachable cpus n s → inv s.
Proof. induction 1; [apply slot_inv_make|by eapply slot_inv_step]. Qed.

(** [done] is set by the destructor and by nothing else. *)
Lemma reachable_done cpus n s : reachable cpus n s → done s = false → destructor s = NotStarted.
Proof.
  induction 1 as [|s l s' Hr IH Hst]; [done|]. destruct l as [k fails|j x|j|]; cbn [step] in Hst.
  - destruct (workers s !! k) as [w|] eqn:Hk; [|done]. cbn in Hst.
    unfold worker_step, notify_one in Hst. repeat case_match; simplify_eq; cbn; auto; congruence.
  - destruct (posters s !! j) as [[]|]; try done.
    destruct (post_cases x s) as [E|(k & w & _ & E)]; rewrite E in Hst; injection Hst as <-; done.
  - destruct (posters s !! j) as [p|]; [|done]. cbn in Hst.
    unfold poster_step, notify_one in Hst. repeat case_match; simplify_eq; cbn; auto.
  - destruct (destructor s) eqn:Hd; try done; repeat case_match; simplify_eq; cbn;
      intros H'; (done || by apply IH in H').
Qed.

(** ** Where a task is *)
Definition in_hand (p : wpc) : list task := match p with AtRun x => [x] | _ => [] end.

Definition held (w : Worker) : list task := wsq w ++ in_hand (pc w).

(** The tasks of the slot that have not run. *)
Definition waiting (s : t) : list task := shared s ++ concat (map held (workers s)).

Definition ran (s : t) : list nat := map (λ e, task_id (snd e)) (executed s).

Lemma last_removelast {A} (l : list A) x : last l = Some x → l = removelast l ++ [x].
Proof.
  intros H. destruct l as [|a l _] using rev_ind; [done|].
  rewrite last_snoc in H. injection H as ->. by rewrite removelast_last.
Qed.

(** Replacing worker [w] by [v] exchanges what it holds. *)
Lemma waiting_set s k w v :
  workers s !! k = Some w →
  waiting s ≡ₚ held w ++ shared s ++ concat (map held (delete k (workers s))) ∧
  waiting (set_worker k v s) ≡ₚ held v ++ shared s ++ concat (map held (delete k (workers s))).
Proof.
  intros Hk. unfold waiting. cbn [set_worker workers shared].
  rewrite (concat_map_lookup held _ _ _ Hk), (concat_map_insert held _ _ _ v Hk). split; solve_Permutation.
Qed.

Lemma waiting_goto s k w v :
  workers s !! k = Some w → held v = held w → waiting (set_worker k v s) ≡ₚ waiting s.
Proof. intros Hk E. destruct (waiting_set s k w v Hk) as [-> ->]. by rewrite E. Qed.

Lemma waiting_notify_one s : waiting (notify_one s) = waiting s.
Proof. unfold waiting. destruct (notify_one_frame s) as (-> & -> & _). done. Qed.

(** A steal moves a task from one worker's queue to another's hand. *)
Lemma waiting_steal s k w o v x q :
  workers s !! k = Some w → workers s !! o = Some v → o ≠ k → wsq v = x :: q → in_hand (pc w) = [] →
  waiting (set_worker o (set_wsq v q) (set_worker k (set_pc w (AtRun x)) s)) ≡ₚ waiting s.
Proof.
  intros Hk Hv Hne Hq Hw. set (s1 := set_worker k (set_pc w (AtRun x)) s).
  assert (workers s1 !! o = Some v) as Hv1 by (unfold s1; cbn; by rewrite list_lookup_insert_ne).
  destruct (waiting_set s k w (set_pc w (AtRun x)) Hk) as [E1 E2]. fold s1 in E2.
  destruct (waiting_set s1 o v (set_wsq v q) Hv1) as [E3 E4].
  unfold held in E1, E2, E3, E4. cbn [set_wsq set_pc wsq pc in_hand] in E1, E2, E3, E4.
  rewrite Hq in E3. rewrite Hw, app_nil_r in E1.
  apply (Permutation_cons_inv (a := x)). transitivity (waiting s1).
  - rewrite E3, E4. done.
  - rewrite E1, E2. solve_Permutation.
Qed.

Lemma worker_step_conserves s k w fails s' :
  workers s !! k = Some w → worker_step k w fails s = Some s' →
  ran s' ++ map task_id (waiting s') ≡ₚ ran s ++ map task_id (waiting s).
Proof.
  intros Hk. unfold worker_step.
  assert (∀ p, in_hand p = in_hand (pc w) → ran (set_worker k (set_pc w p) s) ++
    map task_id (waiting (set_worker k (set_pc w p) s)) ≡ₚ ran s ++ map task_id (waiting s)) as Hgo.
  { intros p Hp. rewrite (waiting_goto s k w) by (done || (unfold held; cbn; by rewrite Hp)). done. }
  destruct (pc w) eqn:Hpc; intros Hst.
  - injection Hst as <-. apply Hgo. by destruct (done s).
  - destruct (last (wsq w)) as [x|] eqn:Hl; injection Hst as <-; [|by apply Hgo].
    rewrite (waiting_goto s k w); [done|done|]. unfold held. cbn. rewrite Hpc.
    cbn. rewrite app_nil_r. symmetry. by apply last_removelast.
  - destruct (shared s) as [|x q] eqn:Hsh; [|destruct fails]; injection Hst as <-; try by apply Hgo.
    destruct (waiting_set s k w (set_pc w (AtRun x)) Hk) as [-> _].
    unfold waiting. cbn [set_shared set_worker shared workers].
    rewrite (concat_map_insert held _ _ _ _ Hk), Hsh. unfold held, ran. cbn. rewrite Hpc. cbn [in_hand].
    rewrite app_nil_r. apply Permutation_app_head, Permutation_map. solve_Permutation.
  - destruct (workers s !! k0) as [v|] eqn:Hv; [|injection Hst as <-; by apply Hgo].
    destruct (wsq v) as [|x q] eqn:Hq; [injection Hst as <-; by apply Hgo|].
    destruct (negb (other_busy k k0 v) || fails) eqn:Hb; [injection Hst as <-; by apply Hgo|].
    injection Hst as <-. apply orb_false_iff in Hb as [Hb _]. apply negb_false_iff in Hb.
    unfold other_busy in Hb. apply andb_true_iff in Hb as [Hne%negb_true_iff%Nat.eqb_neq _].
    unfold ran. cbn. apply Permutation_app_head, Permutation_map.
    apply waiting_steal; try done. by rewrite Hpc.
  - injection Hst as <-. by apply (Hgo (ExploreOwn 0)).
  - injection Hst as <-. apply Hgo. by destruct (wsq w).
  - injection Hst as <-. apply Hgo. by destruct (shared s).
  - destruct (workers s !! k0); [injection Hst as <-; apply Hgo; by destruct (_ && _)|].
    destruct (S i <? MAX_STEALS)%nat; injection Hst as <-; [by apply Hgo|].
    rewrite (waiting_goto s k w); [done|done|]. unfold held. cbn. by rewrite Hpc.
  - destruct (pre s) as [|h p]; [injection Hst as <-; by apply Hgo|].
    destruct (h =? k)%nat; [|destruct (bool_decide _)]; simplify_eq; by apply (Hgo AtNotify).
  - injection Hst as <-. rewrite waiting_notify_one. unfold ran.
    destruct (notify_one_frame (set_worker k (set_pc w AtWhile) s)) as (_ & _ & _ & _ & -> & _).
    by apply (Hgo AtWhile).
  - injection Hst as <-. destruct (waiting_set s k w (mkWorker (cpu_id w) (wsq w) true AtWhile) Hk) as [-> E].
    unfold ran. cbn [executed map snd]. unfold waiting in E |- *. cbn [set_worker workers shared] in E |- *.
    rewrite E. unfold held. cbn [wsq pc in_hand]. rewrite Hpc. cbn [in_hand].
    change (task_id (invoke w x)) with (task_id x). rewrite !map_app. cbn. solve_Permutation.
  - destruct (pre s) as [|h p]; [injection Hst as <-; by apply Hgo|].
    destruct (h =? k)%nat; [|destruct (bool_decide _)]; simplify_eq; [by apply (Hgo Asleep)|by apply (Hgo AtWhile)].
  - destruct (bool_decide _); simplify_eq. by apply Hgo.
  - done.
Qed.

(** The tasks a sequence of steps posts, last first. *)
Definition posted1 (l : label) : list nat := match l with LPost _ x => [task_id x] | _ => [] end.

Fixpoint posted (ls : list label) : list nat :=
  match ls with [] => [] | l :: ls' => posted ls' ++ posted1 l end.

Lemma step_conserves s l s' :
  step s l = Some s' →
  ran s' ++ map task_id (waiting s') ≡ₚ posted1 l ++ ran s ++ map task_id (waiting s).
Proof.
  destruct l as [k fails|j x|j|]; cbn [step posted1].
  - destruct (workers s !! k) as [w|] eqn:Hk; [|done]. apply worker_step_conserves. done.
  - destruct (posters s !! j) as [[]|]; try done.
    destruct (post_cases x s) as [->|(k & w & Hk & ->)]; intros [= <-].
    + unfold waiting, ran. cbn. rewrite !map_app. cbn. solve_Permutation.
    + change (waiting (set_poster j (NotifyWaiter k []) (set_worker k (set_wsq w (wsq w ++ [x])) s)))
        with (waiting (set_worker k (set_wsq w (wsq w ++ [x])) s)).
      destruct (waiting_set s k w (set_wsq w (wsq w ++ [x])) Hk) as [-> ->].
      unfold ran, held. cbn [set_poster set_worker executed set_wsq wsq pc].
      rewrite !map_app. cbn. solve_Permutation.
  - destruct (posters s !! j) as [p|]; [|done]. cbn. destruct p as [| |k r]; cbn; [done|..].
    + intros [= <-]. unfold ran, waiting. cbn.
      destruct (notify_one_frame s) as (-> & -> & _ & _ & -> & _). done.
    + destruct (WorkNotifier.notify_waiter_next _ _ _) as [[]|]; intros [= <-]; try done.
      unfold ran, waiting. cbn. destruct (notify_one_frame s) as (-> & -> & _ & _ & -> & _). done.
  - destruct (destructor s); try done; [by intros [= <-]..|]. destruct (forallb _ _); [|done]. by intros [= <-].
Qed.

Lemma run_conserves ls : ∀ s s',
  run s ls = Some s' →
  ran s' ++ map task_id (waiting s') ≡ₚ posted ls ++ ran s ++ map task_id (waiting s).
Proof.
  induction ls as [|l ls IH]; intros s s'; cbn [run posted]; [by intros [= <-]|].
  destruct (step s l) as [s1|] eqn:Hst; [|done]. intros Hr. rewrite (IH _ _ Hr).
  rewrite (step_conserves _ _ _ Hst). by rewrite !(assoc_L (++)).
Qed.

Lemma make_empty cpus n : ran (make cpus n) = [] ∧ waiting (make cpus n) = [].
Proof.
  split; [done|]. unfold waiting. cbn. induction cpus as [|c cpus IH]; [done|]. cbn. done.
Qed.

(** ** The entity counter of a slot ([add_entity], [delete_entity], [get_util]) *)
Definition add_entity (entities_count : Z) : Z := i32 (entities_count + 1).

Definition delete_entity (entities_count : Z) : Z :=
  if entities_count <=? 0 then 0 else entities_count - 1.

Definition get_util (entities_count : Z) : Z := entities_count.

End ExecutorSlot.
Import ExecutorSlot.

(** A slot never sleeps on a task: while the destructor has not run and no thread is
    inside [post], a worker that is asleep on the eventcount has an empty queue, and when
    every worker is asleep the slot's own queue is empty too. *)
Lemma slot_no_stranded_task (cpus : list Z) (n : nat) (s : ExecutorSlot.t) :
  reachable cpus n s → done s = false → (∀ j p, posters s !! j = Some p → p = Idle) →
  (∀ k w, workers s !! k = Some w → pc w = Asleep → k ∈ stk s → wsq w = []) ∧
  (workers s ≠ [] → (∀ k w, workers s !! k = Some w → k ∈ stk s) → shared s = []).
Proof.
  intros Hr Hd Hp. destruct (reachable_inv _ _ _ Hr) as [Hi _ Hsh Hown].
  pose proof (si_nd _ Hi) as Hnd. apply NoDup_app in Hnd as (_ & Hdj & _).
  split.
  - intros k w Hk Hpc Hin. destruct (decide (wsq w = [])) as [?|Hq]; [done|exfalso].
    destruct (Hown Hd k w Hk Hq) as [[j Hj]|(w' & Hk' & [[_ ?]|[Hpre _]])]; [by apply Hp in Hj|done|].
    by apply (Hdj k).
  - intros Hne Hall. destruct (decide (shared s = [])) as [?|Hq]; [done|exfalso].
    destruct (Hsh Hd Hne Hq) as [[j Hj]|(k & w & Hk & [[_ Hn]|[Hpre _]])]; [by apply Hp in Hj| |].
    + by apply Hn, (Hall k w).
    + by apply (Hdj k), (Hall k w).
Qed.

(** Two workers, one post to the slot's queue, everyone asleep again. *)
Definition sleepy (k : nat) : list label :=
  [LWorker k false; LWorker k false; LWorker k false] ++ replicate 3 (LWorker k false)
  ++ [LWorker k false] ++ mjoin (replicate 24 (replicate 5 (LWorker k false))) ++ [LWorker k false].

Definition slot_demo : ExecutorSlot.t :=
  default (make [10; 11] 1) (run (make [10; 11] 1) (sleepy 0 ++ sleepy 1)).

Example slot_demo_asleep : stk slot_demo = [1%nat; 0%nat].
Proof. vm_compute. reflexivity. Qed.

(** Every task posted to a slot runs at most once and none disappears: after any
    interleaving of posts, workers, steals and the destructor, the posted tasks are
    the ones that have run and the ones in a queue or in a worker's hand. *)
Theorem slot_conserves_tasks (cpus : list Z) (n : nat) (ls : list label) (s : ExecutorSlot.t) :
  run (make cpus n) ls = Some s → posted ls ≡ₚ ran s ++ map task_id (waiting s).
Proof.
  intros Hr. rewrite (run_conserves _ _ _ Hr). destruct (make_empty cpus n) as [-> ->].
  cbn. by rewrite app_nil_r.
Qed.

Lemma slot_conserves_tasks_witness :
  ∃ s, run (make [10] 1) [LPost 0 (new_task 7 0); LWorker 0 false; LWorker 0 false; LWorker 0 false] = Some s ∧
  posted [LPost 0 (new_task 7 0); LWorker 0 false; LWorker 0 false; LWorker 0 false] ≡ₚ
    ran s ++ map task_id (waiting s).
Proof.
  eexists. split; [vm_compute; reflexivity|].
  apply (slot_conserves_tasks [10] 1). vm_compute. reflexivity.
Defined.

(** The destructor's store and notification fall after worker 0's test of [done]. *)
Definition late_done : list label :=
  [LWorker 0 false; LDestroy; LDestroy] ++ replicate 5 (LWorker 0 false) ++ replicate 96 (LWorker 0 false)
  ++ [LWorker 0 false].

(** the destructor of a slot can wait for ever: between [prepare_wait] and
    [commit_wait] a worker looks at the queues and not at [done], so a worker that has
    already passed the test of [done] goes to sleep after the destructor's only
    notification; no step is then possible but a new post. *)
Theorem slot_destructor_can_hang :
  ∃ s, run (make [0] 1) late_done = Some s ∧ done s = true ∧ destructor s = Joining ∧
    stk s = [0%nat] ∧ (∀ l, (∀ j x, l ≠ LPost j x) → step s l = None).
Proof.
  eexists. split; [vm_compute; reflexivity|]. split; [done|]. split; [done|]. split; [done|].
  intros [[|k] fails|j x|[|j]|] Hl; try done.
  by destruct (Hl j x).
Qed.

(** the destructor does not look into the queues: a task that is still queued when the
    threads have left is neither run nor deleted, so its future never gets ready. *)
Theorem slot_destructor_drops_tasks :
  ∃ s, run (make [0] 1) [LPost 0 (new_task 7 0); LDestroy; LPoster 0; LDestroy; LWorker 0 false; LDestroy] = Some s ∧
    destructor s = Destroyed ∧ executed s = [] ∧ map task_id (waiting s) = [7%nat].
Proof. eexists. split; [vm_compute; reflexivity|]. done. Qed.
