(* ===== verification/SlotWord.v ===== *)
(** * A slot over the eventcount's word (src/executor_slot.cpp with src/work_notifier.h)

    [ExecutorSlot] runs its threads over an abstract eventcount, and
    [EventCountMachine] interleaves the accesses of any callers to the word.  Here the
    workers, the threads inside [post] and the destructor are those callers: every call
    of the eventcount is run one access at a time, interleaved with everything else.
    Worker [k] waits with waiter [k] and notifies as thread [k]; the threads inside
    [post] and then the destructor follow the workers.  The composition implements the
    abstract slot, so what is proved of the slot holds of the code down to the word. *)
From stdpp Require Import functions.
From S2P Require Import Prelude.
From S2P Require Import Task.
From S2P Require Import EventCount.
From S2P Require Import EventCountMachine.
From S2P Require Import ExecutorSlot.

Module SlotWord.
Module S := ExecutorSlot.
Module E := EventCountMachine.
Import WorkNotifier.

Record t := mk { slot : S.t; ec : E.cfg }.

(** ** Who is thread [j] *)
Inductive role := Worker (w : S.Worker) | Poster (i : nat) (p : S.poster) | Destructor.

Definition role_of (s : S.t) (j : nat) : role :=
  match S.workers s !! j with
  | Some w => Worker w
  | None =>
      match S.posters s !! (j - S.num_workers s)%nat with
      | Some p => Poster (j - S.num_workers s) p
      | None => Destructor
      end
  end.

(** The argument of the call of [notify] thread [j] is at. *)
Definition call_of (s : S.t) (j : nat) : option bool :=
  match role_of s j with
  | Worker w => match S.pc w with S.AtNotify => Some false | _ => None end
  | Poster _ S.Idle => None
  | Poster _ S.NotifyOne => Some false
  | Poster _ (S.NotifyWaiter k returned) => notify_waiter_next (S.num_workers s) k returned
  | Destructor => match S.destructor s with S.Marked => Some true | _ => None end
  end.

Definition set_destructor (d : S.dtor) (s : S.t) : S.t :=
  S.mk (S.workers s) (S.shared s) (S.pre s) (S.stk s) (S.done s) (S.posters s) d (S.executed s).

(** [notify_waiter] uses the result of [notify(true)] only. *)
Definition result (all : bool) (r : option nat) : option nat := if all then r else None.

(** Thread [j] returns from [notify]. *)
Definition finish (s : S.t) (j : nat) (r : option nat) : S.t :=
  match role_of s j with
  | Worker w => S.set_worker j (S.set_pc w S.AtWhile) s
  | Poster i (S.NotifyWaiter k returned) => S.set_poster i (S.NotifyWaiter k (returned ++ [r])) s
  | Poster i _ => S.set_poster i S.Idle s
  | Destructor => set_destructor S.Joining s
  end.

(** ** Steps *)
(** The next access of a worker in [cancel_wait] or [commit_wait]: [call] enters it, and
    [after] is the slot when the waiter has come to a place. *)
Definition wait (c : t) (k : nat) (weak : bool) (call : E.label) (after : wpc → S.t) : option t :=
  u ← E.wthreads (ec c) !! k;
  let l := match E.wp u with WPrepared => call | _ => E.LWaiter k weak end in
  ec' ← E.step (ec c) l;
  u' ← E.wthreads ec' !! k;
  Some (mk (after (E.wp u')) ec').

Definition worker_step (c : t) (k : nat) (w : S.Worker) (fails weak : bool) : option t :=
  let goto p := S.set_worker k (S.set_pc w p) (slot c) in
  match S.pc w with
  | S.AtPrepare => ec' ← E.step (ec c) (E.LPrepare k); Some (mk (goto (S.ExploreOwn 0)) ec')
  | S.AtCancel => wait c k weak (E.LCancel k) (λ p, match p with WOut => goto S.AtNotify | _ => slot c end)
  | S.AtCommit =>
      wait c k weak (E.LCommit k)
        (λ p, match p with WOut => goto S.AtWhile | WPark => goto S.Asleep | _ => slot c end)
  | S.Asleep =>
      wait c k weak (E.LWaiter k weak) (λ p, match p with WOut => goto S.AtWhile | _ => slot c end)
  | S.AtNotify => None
  | _ => s' ← S.worker_step k w fails (slot c); Some (mk s' (ec c))
  end.

(** The next access of thread [j] in [notify]. *)
Definition notify (c : t) (j : nat) (weak : bool) : option t :=
  all ← call_of (slot c) j;
  n ← E.nthreads (ec c) !! j;
  match E.np n with
  | NOut _ => ec' ← E.step (ec c) (E.LNotify j all); Some (mk (slot c) ec')
  | _ =>
      ec' ← E.step (ec c) (E.LNotifier j weak);
      n' ← E.nthreads ec' !! j;
      Some (mk (match E.np n' with NOut r => finish (slot c) j (result all r) | _ => slot c end) ec')
  end.

Inductive label :=
| LWorker (k : nat) (fails weak : bool)   (* worker k, outside notify *)
| LSpurious (k : nat)                     (* a spurious wakeup of worker k *)
| LNotify (j : nat) (weak : bool)         (* thread j, inside notify *)
| LPost (j : nat) (x : task)              (* a thread enters post and pushes *)
| LReturn (j : nat)                       (* ... leaves notify_waiter *)
| LDestroy.                               (* the destructor, outside notify *)

Definition step (c : t) (l : label) : option t :=
  match l with
  | LWorker k fails weak => w ← S.workers (slot c) !! k; worker_step c k w fails weak
  | LSpurious k => ec' ← E.step (ec c) (E.LSpurious k); Some (mk (slot c) ec')
  | LNotify j weak => notify c j weak
  | LPost j x => s' ← S.step (slot c) (S.LPost j x); Some (mk s' (ec c))
  | LReturn j =>
      match S.posters (slot c) !! j with
      | Some (S.NotifyWaiter k returned) =>
          match notify_waiter_next (S.num_workers (slot c)) k returned with
          | None => Some (mk (S.set_poster j S.Idle (slot c)) (ec c))
          | Some _ => None
          end
      | _ => None
      end
  | LDestroy =>
      match S.destructor (slot c) with
      | S.Marked => None
      | _ => s' ← S.step (slot c) S.LDestroy; Some (mk s' (ec c))
      end
  end.

Definition make (cpus : list Z) (nposters : nat) : t :=
  mk (S.make cpus nposters) (E.init (List.length cpus) (List.length cpus + nposters + 1)).

Inductive reachable (cpus : list Z) (n : nat) : t → Prop :=
| reach_make : reachable cpus n (make cpus n)
| reach_step c l c' :
    reachable cpus n c → step c l = Some c' → E.lap_ok (ec c') → reachable cpus n c'.

Fixpoint run (c : t) (ls : list label) : option t :=
  match ls with
  | [] => Some c
  | l :: ls' =>
      match step c l with
      | Some c' => if E.lap_okb (ec c') then run c' ls' else None
      | None => None
      end
  end.

Lemma slot_word_run_reachable cpus n ls : ∀ c c',
  reachable cpus n c → run c ls = Some c' → reachable cpus n c'.
Proof.
  induction ls as [|l ls IH]; intros c c' Hr; cbn [run]; [by intros [= <-]|].
  destruct (step c l) as [c1|] eqn:Hst; [|done]. destruct (E.lap_okb (ec c1)) eqn:Hl; [|done].
  apply IH. eapply reach_step; [done..|]. by apply E.lap_okb_ok.
Qed.

(** ** The abstract slot of a state *)
(** What the call a thread is inside will return, once its exchange has settled it. *)
Definition settled (p : npc) : option (option nat) :=
  match p with NOut _ => None | _ => E.outcome p end.

Definition view (ns : list E.nthread) (j : nat) : option (option nat) :=
  n ← ns !! j; settled (E.np n).

(** A thread whose call is settled has left it already. *)
Definition abs_worker (o : option (option nat)) (w : S.Worker) : S.Worker :=
  match o, S.pc w with Some _, S.AtNotify => S.set_pc w S.AtWhile | _, _ => w end.

Definition abs_poster (size : nat) (o : option (option nat)) (p : S.poster) : S.poster :=
  match o, p with
  | Some r, S.NotifyWaiter k returned =>
      match notify_waiter_next size k returned with
      | Some all => S.NotifyWaiter k (returned ++ [result all r])
      | None => p
      end
  | Some _, _ => S.Idle
  | None, _ => p
  end.

Definition abs_dtor (o : option (option nat)) (d : S.dtor) : S.dtor :=
  match o, d with Some _, S.Marked => S.Joining | _, _ => d end.

Definition abs (s : S.t) (v : nat → option (option nat)) (a : E.spec) : S.t :=
  S.mk (imap (λ k, abs_worker (v k)) (S.workers s)) (S.shared s) (E.pre a) (E.stk a) (S.done s)
    (imap (λ i, abs_poster (S.num_workers s) (v (S.num_workers s + i)%nat)) (S.posters s))
    (abs_dtor (v (S.num_workers s + List.length (S.posters s))%nat) (S.destructor s)) (S.executed s).

Lemma imap_insert {A B} (f : nat → A → B) l k x : imap f (<[k := x]> l) = <[k := f k x]> (imap f l).
Proof.
  apply list_eq. intros i. rewrite list_lookup_imap. destruct (decide (k = i)) as [->|Hne].
  - destruct (decide (i < length l)%nat).
    + by rewrite !list_lookup_insert_eq by (rewrite ?length_imap; done).
    + rewrite !(proj2 (lookup_ge_None _ i)); [done|rewrite length_insert, ?length_imap; lia..].
  - by rewrite !list_lookup_insert_ne, list_lookup_imap by done.
Qed.

Lemma num_workers_insert s k w : S.num_workers (S.set_worker k w s) = S.num_workers s.
Proof. unfold S.num_workers. cbn. by rewrite length_insert. Qed.

(** [abs] and the updates of a slot. *)
Lemma abs_set_worker s k w v a : abs (S.set_worker k w s) v a = S.set_worker k (abs_worker (v k) w) (abs s v a).
Proof. unfold abs. rewrite num_workers_insert. unfold S.set_worker. cbn. by rewrite imap_insert. Qed.

Lemma abs_set_poster s i p v a : abs (S.set_poster i p s) v a =
  S.set_poster i (abs_poster (S.num_workers s) (v (S.num_workers s + i)%nat) p) (abs s v a).
Proof.
  unfold abs. change (S.num_workers (S.set_poster i p s)) with (S.num_workers s).
  unfold S.set_poster. cbn. by rewrite imap_insert, length_insert.
Qed.

Lemma abs_ext s v v' a : (∀ j, v j = v' j) → abs s v a = abs s v' a.
Proof.
  intros H. unfold abs. rewrite H. f_equal; apply imap_ext; intros; by rewrite H.
Qed.

Lemma abs_set_ec s v a a' : E.pre a' = E.pre a → E.stk a' = E.stk a → abs s v a' = abs s v a.
Proof. intros Hp Hs. unfold abs. by rewrite Hp, Hs. Qed.

Lemma view_insert ns j n' i : (j < length ns)%nat →
  view (<[j := n']> ns) i = <[j := settled (E.np n')]> (view ns) i.
Proof.
  intros Hj. unfold view. destruct (decide (j = i)) as [<-|Hne].
  - by rewrite list_lookup_insert_eq, fn_lookup_insert by done.
  - by rewrite list_lookup_insert_ne, fn_lookup_insert_ne by done.
Qed.

(** ** Threads and the abstract slot *)
Definition num_threads (s : S.t) : nat := S.num_workers s + List.length (S.posters s) + 1.

Inductive role_spec (s : S.t) (j : nat) : role → Prop :=
| role_worker w : S.workers s !! j = Some w → role_spec s j (Worker w)
| role_poster i p : j = (S.num_workers s + i)%nat → S.posters s !! i = Some p → role_spec s j (Poster i p)
| role_destructor : j = (S.num_workers s + List.length (S.posters s))%nat → role_spec s j Destructor.

Lemma role_ofP s j : (j < num_threads s)%nat → role_spec s j (role_of s j).
Proof.
  unfold num_threads, role_of. intros Hj. destruct (S.workers s !! j) as [w|] eqn:Hw; [by constructor|].
  apply lookup_ge_None in Hw. unfold S.num_workers in *.
  destruct (S.posters s !! _) as [p|] eqn:Hp.
  - apply role_poster; [|done]. unfold S.num_workers. lia.
  - apply role_destructor. unfold S.num_workers. apply lookup_ge_None in Hp. lia.
Qed.

Lemma role_of_worker s j w : S.workers s !! j = Some w → role_of s j = Worker w.
Proof. unfold role_of. by intros ->. Qed.

Lemma role_of_poster s i p : S.posters s !! i = Some p → role_of s (S.num_workers s + i) = Poster i p.
Proof.
  unfold role_of. intros Hp. rewrite (proj2 (lookup_ge_None (S.workers s) _)) by (unfold S.num_workers; lia).
  replace (S.num_workers s + i - S.num_workers s)%nat with i by lia. by rewrite Hp.
Qed.

Lemma role_of_destructor s : role_of s (S.num_workers s + List.length (S.posters s)) = Destructor.
Proof.
  unfold role_of. rewrite (proj2 (lookup_ge_None (S.workers s) _)) by (unfold S.num_workers; lia).
  rewrite (proj2 (lookup_ge_None (S.posters s) _)) by lia. done.
Qed.

Lemma abs_num_workers s v a : S.num_workers (abs s v a) = S.num_workers s.
Proof. unfold S.num_workers. cbn. by rewrite length_imap. Qed.

Lemma abs_role s v a j : (j < num_threads s)%nat → v j = None → role_of (abs s v a) j = role_of s j.
Proof.
  intros Hj Hv. destruct (role_ofP s j Hj) as [w Hw|i p -> Hp| ->].
  - apply role_of_worker. cbn. by rewrite list_lookup_imap, Hw, Hv.
  - rewrite <- (abs_num_workers s v a). apply role_of_poster. cbn. rewrite list_lookup_imap, Hp.
    cbn. by rewrite Hv.
  - rewrite <- (abs_num_workers s v a). rewrite <- (length_imap (λ i, abs_poster (S.num_workers s) (v (S.num_workers s + i)%nat)) (S.posters s)).
    apply role_of_destructor.
Qed.

Lemma abs_call s v a j : (j < num_threads s)%nat → v j = None → call_of (abs s v a) j = call_of s j.
Proof.
  intros Hj Hv. unfold call_of. rewrite abs_role, abs_num_workers by done.
  destruct (role_ofP s j Hj) as [w Hw|i p -> Hp| ->]; try done. cbn. by rewrite Hv.
Qed.

Lemma imap_view_worker s v j w o : S.workers s !! j = Some w →
  imap (λ k, abs_worker (<[j := o]> v k)) (S.workers s) =
  <[j := abs_worker o w]> (imap (λ k, abs_worker (v k)) (S.workers s)).
Proof.
  intros Hw. apply list_eq. intros i. rewrite list_lookup_imap. destruct (decide (j = i)) as [<-|Hne].
  - rewrite list_lookup_insert_eq by (rewrite length_imap; by eapply lookup_lt_Some).
    rewrite Hw. cbn. by rewrite fn_lookup_insert.
  - rewrite list_lookup_insert_ne, list_lookup_imap by done.
    destruct (S.workers s !! i); [|done]. cbn. by rewrite fn_lookup_insert_ne.
Qed.

Lemma imap_view_other {A} (f : option (option nat) → A → A) (m j : nat) v o (l : list A) :
  (∀ i, (i < length l)%nat → j ≠ m + i)%nat →
  imap (λ i, f (<[j := o]> v (m + i)%nat)) l = imap (λ i, f (v (m + i)%nat)) l.
Proof.
  intros Hj. apply imap_ext. intros i x Hx%lookup_lt_Some. rewrite fn_lookup_insert_ne; [done|]. auto.
Qed.

Lemma imap_view_poster s v i p o : S.posters s !! i = Some p →
  imap (λ k, abs_poster (S.num_workers s) (<[(S.num_workers s + i)%nat := o]> v (S.num_workers s + k)%nat)) (S.posters s) =
  <[i := abs_poster (S.num_workers s) o p]> (imap (λ k, abs_poster (S.num_workers s) (v (S.num_workers s + k)%nat)) (S.posters s)).
Proof.
  intros Hp. apply list_eq. intros k. rewrite list_lookup_imap. destruct (decide (i = k)) as [<-|Hne].
  - rewrite list_lookup_insert_eq by (rewrite length_imap; by eapply lookup_lt_Some).
    rewrite Hp. cbn. by rewrite fn_lookup_insert.
  - rewrite list_lookup_insert_ne, list_lookup_imap by done.
    destruct (S.posters s !! k); [|done]. cbn. rewrite fn_lookup_insert_ne by lia. done.
Qed.

(** Settling the call of thread [j] makes the abstract thread return. *)
Lemma abs_settled s v a j all r :
  (j < num_threads s)%nat → call_of s j = Some all → v j = None →
  abs s (<[j := Some r]> v) a = finish (abs s v a) j (result all r).
Proof.
  intros Hj Hc Hv. unfold finish. rewrite abs_role by done. unfold call_of in Hc.
  destruct (role_ofP s j Hj) as [w Hw|i p -> Hp| ->].
  - destruct (S.pc w) eqn:Hpc; try done. unfold abs, S.set_worker. cbn.
    rewrite (imap_view_worker _ _ _ w) by done. unfold abs_worker at 1. rewrite Hpc.
    apply lookup_lt_Some in Hw. fold (S.num_workers s) in Hw.
    f_equal; [by apply imap_view_other; lia|]. rewrite fn_lookup_insert_ne by lia. done.
  - pose proof (lookup_lt_Some _ _ _ Hp) as Hlt. unfold abs at 1. rewrite (imap_view_poster s v i p) by done.
    rewrite (imap_view_other abs_worker 0) by (unfold S.num_workers; lia).
    rewrite fn_lookup_insert_ne by lia.
    destruct p as [| |k ret]; [done|done|]. cbn [abs_poster]. by rewrite Hc.
  - destruct (S.destructor s) eqn:Hd; try done. unfold abs, set_destructor. cbn.
    rewrite (imap_view_other abs_worker 0) by (unfold S.num_workers; lia).
    rewrite (imap_view_other (abs_poster (S.num_workers s))) by lia.
    by rewrite fn_lookup_insert, Hd.
Qed.

(** A thread that returns, returns in the abstract slot. *)
Lemma abs_returned s v a j all r :
  (j < num_threads s)%nat → call_of s j = Some all → v j = None →
  abs (finish s j r) v a = finish (abs s v a) j r.
Proof.
  intros Hj Hc Hv. unfold finish. rewrite abs_role by done. unfold call_of in Hc.
  destruct (role_ofP s j Hj) as [w Hw|i p -> Hp| ->].
  - rewrite abs_set_worker. by rewrite Hv.
  - destruct p; rewrite abs_set_poster; by rewrite Hv.
  - unfold abs, set_destructor, S.num_workers in *. cbn. by rewrite Hv.
Qed.

(** ** A call of [notify] in the abstract slot *)
Definition effect (all : bool) (s : S.t) : S.t := if all then S.notify_all s else S.notify_one s.

Definition slot_label (s : S.t) (j : nat) : S.label :=
  match role_of s j with
  | Worker _ => S.LWorker j false
  | Poster i _ => S.LPoster i
  | Destructor => S.LDestroy
  end.

Lemma effect_frame all s : S.workers (effect all s) = S.workers s ∧ S.posters (effect all s) = S.posters s.
Proof. destruct all; [done|]. destruct (S.notify_one_frame s) as (? & _ & _ & ? & _). done. Qed.

Lemma notify_one_set_worker k w s : S.notify_one (S.set_worker k w s) = S.set_worker k w (S.notify_one s).
Proof. unfold S.notify_one. cbn. by destruct (S.pre s), (S.stk s). Qed.

Lemma step_call s j all : (j < num_threads s)%nat → call_of s j = Some all →
  S.step s (slot_label s j) = Some (finish (effect all s) j (result all (head (S.stk s)))).
Proof.
  intros Hj Hc. unfold slot_label, finish. assert (role_of (effect all s) j = role_of s j) as ->.
  { unfold role_of, S.num_workers. by destruct (effect_frame all s) as [-> ->]. }
  unfold call_of in Hc. destruct (role_ofP s j Hj) as [w Hw|i p -> Hp| ->]; cbn [S.step].
  - rewrite Hw. cbn. unfold S.worker_step. destruct (S.pc w); try done. injection Hc as <-.
    by rewrite notify_one_set_worker.
  - rewrite Hp. cbn. destruct p as [| |k ret]; [done|by injection Hc as <-|]. cbn. rewrite Hc. by destruct all.
  - destruct (S.destructor s); try done. by injection Hc as <-.
Qed.

(** ** Where the two machines are together *)
(** Inside a call of [notify(all)]. *)
Definition calls (all : bool) (p : npc) : Prop :=
  match p with
  | NLoad b | NLoop b _ => b = all
  | NPop _ _ | NUnlink _ => all = false
  | NUnpark _ _ | NSignal _ _ _ | NWake _ _ _ => True
  | NOut _ | NCrash => False
  end.

Definition ncoupled (call : option bool) (p : npc) : Prop :=
  (∃ r, p = NOut r) ∨ ∃ all, call = Some all ∧ calls all p.

Definition wcoupled (p : S.wpc) (q : wpc) : Prop :=
  match p with
  | S.ExploreOwn _ | S.ExploreShared _ | S.ExploreOther _ _ => q = WPrepared
  | S.AtCancel => match q with WPrepared | WCancelLoad | WCancel _ => True | _ => False end
  | S.AtCommit => match q with WPrepared | WCommitLoad | WCommit _ | WCommitCas _ => True | _ => False end
  | S.Asleep => E.parked q = true
  | _ => q = WOut
  end.

Record inv (c : t) (a : E.spec) : Prop := {
  iv_sim : E.sim (ec c) a;
  iv_wlen : List.length (E.wthreads (ec c)) = S.num_workers (slot c);
  iv_nlen : List.length (E.nthreads (ec c)) = num_threads (slot c);
  iv_w : ∀ k w u, S.workers (slot c) !! k = Some w → E.wthreads (ec c) !! k = Some u →
    wcoupled (S.pc w) (E.wp u);
  iv_n : ∀ j n, E.nthreads (ec c) !! j = Some n → ncoupled (call_of (slot c) j) (E.np n)
}.

(** The abstract slot that [c] stands for. *)
Definition slot_of (c : t) (a : E.spec) : S.t := abs (slot c) (view (E.nthreads (ec c))) a.

Lemma calls_step st ws p weak all :
  calls all p → let p' := (notify_step st ws p weak).1.2 in
  calls all p' ∨ (∃ r, p' = NOut r) ∨ p' = NCrash.
Proof.
  unfold notify_step, cas_weak, notify_after. destruct p as [r|b|b s|s nx|w|r [w|]|r w nx|r w nx|];
    cbn [calls]; intros Hc; subst; try done; repeat case_match; cbn; eauto.
  left. by match goal with H : all || _ = false |- _ => apply orb_false_iff in H as [? _] end.
Qed.

(** A call whose thread has not been settled has not signalled anyone. *)
Lemma settled_calls all p : calls all p → settled p = E.outcome p.
Proof. by destruct p. Qed.

Lemma sim_no_waiters c a : E.sim c a → no_waiters (E._state c) = true → E.pre a = [] ∧ E.stk a = [].
Proof.
  intros Hs. pose proof (E.sim_len _ _ Hs). pose proof (E.sim_top _ _ Hs).
  rewrite (E.sim_word _ _ Hs), no_waiters_eword, andb_true_iff, !Z.eqb_eq by lia. intros [Ht Hp].
  split; [destruct (E.pre a); [done|cbn in Hp; lia]|]. by eapply E.sim_top_empty.
Qed.

(** The two ways a step of [notify] looks from the abstract eventcount. *)
Definition effect_on (all : bool) (a a' : E.spec) : Prop :=
  if all then E.pre a' = [] ∧ E.stk a' = []
  else match E.pre a, E.stk a with
       | _ :: p, st => E.pre a' = p ∧ E.stk a' = st
       | [], _ :: st => E.pre a' = [] ∧ E.stk a' = st
       | [], [] => E.pre a' = [] ∧ E.stk a' = []
       end.

Lemma effect_on_abs all a a' s v : effect_on all a a' → abs s v a' = effect all (abs s v a).
Proof.
  unfold effect_on, effect. destruct all; [intros [Hp Hs]; unfold abs; by rewrite Hp, Hs|].
  unfold S.notify_one. cbn. destruct (E.pre a) as [|x p] eqn:Ep, (E.stk a) as [|y st] eqn:Es; intros [Hp Hs];
    unfold abs, S.set_ec; cbn; rewrite ?Hp, ?Hs, ?Ep, ?Es; done.
Qed.

Lemma notify_effect c a a' j p p' all :
  E.sim c a → calls all p →
  (E.notifier_quiet (E._state c) p p' ∧ a' = a) ∨ (∃ e, E.notifier_event j (E.stk a) p p' e ∧ E.spec_step a e a') →
  (E.outcome p' = E.outcome p ∧ E.pre a' = E.pre a ∧ E.stk a' = E.stk a) ∨
  (E.outcome p = None ∧ ∃ r, E.outcome p' = Some r ∧ effect_on all a a' ∧ result all r = result all (head (E.stk a))).
Proof.
  intros Hs Hc [[[Hq|(Ho & Ho' & Hnw)] ->]|(e & He & Hst)].
  - by left.
  - right. split; [done|]. exists None. destruct (sim_no_waiters _ _ Hs Hnw) as [Hp Hk].
    split; [done|]. unfold effect_on. rewrite Hp, Hk. by destruct all.
  - destruct Hst as [| | |p0 s h j0 Hh|p0 s h j0 i|s h j0 i Hh|p0 s h j0 i l Hh]; cbn in He; try done.
    + destruct He as (-> & [w ->] & Ho & Ho'). cbn in Hc. subst all. right. split; [done|]. by exists (head s).
    + destruct He as (-> & [w ->] & Ho & Ho'). cbn in Hc. subst all. right. split; [done|]. by exists None.
    + destruct He as (-> & (w & nx & ->) & Ho & Ho'). cbn in Hc. subst all. right. split; [done|].
      exists (Some i). done.
    + left. by destruct He.
Qed.

(** ** A step of [notify] *)
(** The slot when the call of thread [j] has come to [p]. *)
Definition after_call (s : S.t) (j : nat) (all : bool) (p : npc) : S.t :=
  match p with NOut r => finish s j (result all r) | _ => s end.

Section call.
Context (s : S.t) (v : nat → option (option nat)) (a : E.spec) (j : nat) (all : bool).
Context (Hj : (j < num_threads s)%nat) (Hc : call_of s j = Some all).

(** The abstract slot while thread [j] is inside its call. *)
Definition in_call (o : option (option nat)) : S.t :=
  match o with
  | Some r => finish (abs s (<[j := None]> v) a) j (result all r)
  | None => abs s (<[j := None]> v) a
  end.

Lemma abs_in_call : abs s v a = in_call (v j).
Proof using Hj Hc.
  unfold in_call. destruct (v j) as [r|] eqn:Hv.
  - rewrite <- abs_settled by (done || by rewrite fn_lookup_insert).
    apply abs_ext. intros i. destruct (decide (j = i)) as [<-|Hne].
    + by rewrite fn_lookup_insert.
    + by rewrite !fn_lookup_insert_ne.
  - apply abs_ext. intros i. destruct (decide (j = i)) as [<-|Hne].
    + by rewrite fn_lookup_insert.
    + by rewrite !fn_lookup_insert_ne.
Qed.

Lemma abs_after_call p : (∃ r, p = NOut r) ∨ calls all p →
  abs (after_call s j all p) (<[j := settled p]> v) a = in_call (E.outcome p).
Proof using Hj Hc.
  intros [[r ->]|Hp].
  - cbn. by rewrite (abs_returned s (<[j := None]> v) a j all) by (done || by rewrite fn_lookup_insert).
  - rewrite (settled_calls _ _ Hp). assert (after_call s j all p = s) as -> by by destruct p.
    unfold in_call. destruct (E.outcome p) as [r|]; [|done].
    rewrite <- abs_settled by (done || by rewrite fn_lookup_insert). apply abs_ext. intros i.
    destruct (decide (j = i)) as [<-|Hne]; [by rewrite !fn_lookup_insert|by rewrite !fn_lookup_insert_ne].
Qed.
End call.

Lemma call_of_ext s s' i : S.num_workers s' = S.num_workers s → S.posters s' = S.posters s →
  S.destructor s' = S.destructor s → S.pc <$> S.workers s' !! i = S.pc <$> S.workers s !! i →
  call_of s' i = call_of s i.
Proof.
  intros Hn Hp Hd Hw. unfold call_of, role_of. rewrite Hn, Hp, Hd.
  destruct (S.workers s' !! i), (S.workers s !! i); try done. cbn in Hw. by injection Hw as ->.
Qed.

Lemma finish_frame s j r : S.num_workers (finish s j r) = S.num_workers s ∧
  num_threads (finish s j r) = num_threads s.
Proof.
  unfold num_threads, finish, S.num_workers. destruct (role_of s j) as [w|i []|]; cbn; by rewrite ?length_insert.
Qed.

Lemma call_of_finish s j r i : (j < num_threads s)%nat → i ≠ j → (i < num_threads s)%nat →
  call_of (finish s j r) i = call_of s i.
Proof.
  intros Hj Hne Hi. unfold finish. destruct (role_ofP s j Hj) as [w Hw|k p -> Hp| ->].
  - apply call_of_ext; [apply num_workers_insert|done|done|]. cbn. by rewrite list_lookup_insert_ne.
  - assert (∀ q, call_of (S.set_poster k q s) i = call_of s i) as Hset; [|by destruct p].
    intros q. unfold call_of, role_of. cbn. change (S.num_workers (S.set_poster k q s)) with (S.num_workers s).
    destruct (S.workers s !! i) as [w|] eqn:Hw; [done|]. apply lookup_ge_None in Hw.
    assert (k ≠ i - S.num_workers s)%nat by (unfold S.num_workers in *; lia).
    by rewrite list_lookup_insert_ne.
  - unfold call_of, role_of. cbn. change (S.num_workers (set_destructor _ _)) with (S.num_workers s).
    destruct (S.workers s !! i) as [w|] eqn:Hw; [done|]. apply lookup_ge_None in Hw.
    destruct (S.posters s !! _) eqn:Hp; [done|]. apply lookup_ge_None in Hp.
    unfold num_threads, S.num_workers in *. lia.
Qed.

(** The workers around a return from [notify]. *)
Lemma finish_workers s j r all k w' : (j < num_threads s)%nat → call_of s j = Some all →
  S.workers (finish s j r) !! k = Some w' →
  ∃ w, S.workers s !! k = Some w ∧ (∀ q, wcoupled (S.pc w) q → wcoupled (S.pc w') q).
Proof.
  intros Hj Hc. unfold finish, call_of in *. destruct (role_ofP s j Hj) as [w Hw|i p -> Hp| ->].
  - cbn. intros Hk. rewrite (S.lookup_insert_pc _ _ _ _ _ Hw) in Hk. destruct (decide (k = j)) as [->|?]; [|eauto].
    injection Hk as <-. exists w. split; [done|]. by destruct (S.pc w).
  - destruct p; cbn; eauto.
  - cbn. eauto.
Qed.

Definition woken (q q' : wpc) : Prop := q' = q ∨ (E.parked q = true ∧ E.parked q' = true).

Lemma woken_refl q : woken q q.
Proof. unfold woken. auto. Qed.

Lemma wcoupled_woken p q q' : wcoupled p q → woken q q' → wcoupled p q'.
Proof. intros Hw [->|[Hq Hq']]; [done|]. by destruct p, q. Qed.

Lemma wake_woken u : woken (E.wp u) (E.wp (E.wake u)).
Proof. unfold E.wake, woken. destruct (E.wp u) eqn:Hq; cbn; rewrite ?Hq; auto. Qed.

Lemma step_notifier_frame c j n weak : let c' := E.step_notifier c j n weak in
  (∃ e, E.nthreads c' = <[j := E.mkN (notify_step (E._state c) (map E.wt (E.wthreads c)) (E.np n) weak).1.2 e]> (E.nthreads c)) ∧
  List.length (E.wthreads c') = List.length (E.wthreads c) ∧
  ∀ k u', E.wthreads c' !! k = Some u' → ∃ u, E.wthreads c !! k = Some u ∧ woken (E.wp u) (E.wp u').
Proof.
  unfold E.step_notifier. destruct (notify_step _ _ _ _) as [[[st' ws'] p'] wk] eqn:Hns. cbn.
  assert (List.length ws' = List.length (E.wthreads c)) as Hlen.
  { rewrite <- (length_map E.wt). unfold notify_step in Hns. repeat case_match; simplify_eq; by rewrite ?length_alter. }
  split; [eauto|]. split.
  - destruct wk; cbn; rewrite ?length_alter; unfold E.put_waiters; rewrite length_zip_with; lia.
  - assert (∀ k u', E.put_waiters (E.wthreads c) ws' !! k = Some u' →
      ∃ u, E.wthreads c !! k = Some u ∧ E.wp u' = E.wp u) as Hput.
    { intros k u'. unfold E.put_waiters. rewrite lookup_zip_with_Some. intros (u & w & -> & Hu & _). eauto. }
    intros k u' Hu'. destruct wk as [x|]; cbn in Hu'.
    + rewrite list_lookup_alter in Hu'. destruct (decide (x = k)) as [->|Hne].
      2: { apply Hput in Hu' as (u & ? & ->). exists u. split; [done|apply woken_refl]. }
      apply fmap_Some in Hu' as (u1 & Hu1 & ->). apply Hput in Hu1 as (u & ? & E1). exists u. split; [done|].
      rewrite <- E1. apply wake_woken.
    + apply Hput in Hu' as (u & ? & ->). exists u. split; [done|apply woken_refl].
Qed.

(** ** The simulation *)
(** The abstract slot stutters or takes one step. *)
Definition slot_next (s s' : S.t) : Prop := s' = s ∨ ∃ l, S.step s l = Some s'.

Definition simulated (c c' : t) (a : E.spec) : Prop :=
  ∃ a', inv c' a' ∧ slot_next (slot_of c a) (slot_of c' a').

Lemma notify_enter c a j all n n' :
  inv c a → E.nthreads (ec c) !! j = Some n → call_of (slot c) j = Some all →
  (∃ r, E.np n = NOut r) → E.np n' = NLoad all →
  simulated c (mk (slot c) (E.mkCfg (E._state (ec c)) (E.wthreads (ec c)) (<[j := n']> (E.nthreads (ec c))) (E.gE (ec c)))) a.
Proof.
  intros [Hs Hwl Hnl Hw Hn] Hj Hc [r Hr] Hn'. exists a. split.
  - split; cbn [slot ec E.wthreads E.nthreads]; rewrite ?length_insert; try done.
    + eapply E.sim_notifier_local; [done..| |].
      * pose proof (E.sim_n _ _ Hs j n Hj) as Nj. unfold E.ninv in *. by rewrite Hr in Nj; rewrite Hn'.
      * intros r' i nx E. congruence.
    + intros i m Hm. destruct (decide (j = i)) as [<-|Hne].
      * rewrite list_lookup_insert_eq in Hm by (by eapply lookup_lt_Some). injection Hm as <-.
        right. exists all. by rewrite Hn'.
      * rewrite list_lookup_insert_ne in Hm by done. by apply Hn.
  - left. apply abs_ext. intros i. cbn. rewrite view_insert by (by eapply lookup_lt_Some). rewrite Hn'.
    destruct (decide (j = i)) as [<-|Hne]; [rewrite fn_lookup_insert|by rewrite fn_lookup_insert_ne].
    unfold view. rewrite Hj. cbn. by rewrite Hr.
Qed.

Lemma notify_access c a j all n weak n' :
  inv c a → E.lap_ok (ec c) → E.nthreads (ec c) !! j = Some n → call_of (slot c) j = Some all →
  calls all (E.np n) → let ec' := E.step_notifier (ec c) j n weak in
  E.nthreads ec' !! j = Some n' → simulated c (mk (after_call (slot c) j all (E.np n')) ec') a.
Proof.
  intros [Hs Hwl Hnl Hw Hn] Hlap Hj Hc Hcalls ec' Hn'.
  destruct (E.step_notifier_matched (ec c) a j n weak Hs Hlap Hj) as (a' & Hs' & Hm).
  destruct (step_notifier_frame (ec c) j n weak) as ((e & Hns) & Hwl' & Hws). fold ec' in Hs', Hns, Hwl', Hws.
  set (p' := (notify_step (E._state (ec c)) (map E.wt (E.wthreads (ec c))) (E.np n) weak).1.2) in *.
  pose proof (lookup_lt_Some _ _ _ Hj) as Hlt.
  assert (n' = E.mkN p' e) as ->.
  { rewrite Hns, list_lookup_insert_eq in Hn' by done. by injection Hn' as <-. }
  assert ((∃ r, p' = NOut r) ∨ calls all p') as Hp'.
  { destruct (calls_step (E._state (ec c)) (map E.wt (E.wthreads (ec c))) _ weak _ Hcalls) as [?|[?|Hcr]];
      [by right|by left|exfalso].
    pose proof (E.sim_n _ _ Hs' j _ Hn') as Nj. unfold E.ninv in Nj. cbn [E.np] in Nj. unfold p' in Nj.
    by rewrite Hcr in Nj. }
  rewrite Hnl in Hlt. exists a'. split.
  - assert (S.num_workers (after_call (slot c) j all p') = S.num_workers (slot c) ∧
      num_threads (after_call (slot c) j all p') = num_threads (slot c)) as [Fw Ft]
      by (unfold after_call; destruct p'; (done || apply finish_frame)).
    split; cbn [slot ec E.np]; rewrite ?Fw, ?Ft; [done|congruence|by rewrite Hns, length_insert| |].
    + intros k w' u' Hk Hu'. destruct (Hws k u' Hu') as (u & Hu & Hwk).
      assert (∃ w, S.workers (slot c) !! k = Some w ∧ (∀ q, wcoupled (S.pc w) q → wcoupled (S.pc w') q))
        as (w & Hk0 & Himp).
      { cbn [E.np] in Hk. unfold after_call in Hk. destruct p'; eauto. by eapply finish_workers. }
      apply Himp. eapply wcoupled_woken; [by eapply Hw|done].
    + intros i m. cbn [E.np]. rewrite Hns. destruct (decide (j = i)) as [<-|Hne].
      * rewrite list_lookup_insert_eq by by rewrite Hnl. intros [= <-]. cbn [E.np].
        destruct Hp' as [[r Hr]|Hp']; [left; eauto|]. right. exists all. split; [|done].
        unfold after_call. by destruct p'.
      * rewrite list_lookup_insert_ne by done. intros Hm'. pose proof (lookup_lt_Some _ _ _ Hm') as Hi.
        rewrite Hnl in Hi. assert (call_of (after_call (slot c) j all p') i = call_of (slot c) i) as ->; [|by apply Hn].
        unfold after_call. destruct p'; try done. by apply call_of_finish.
  - unfold slot_of. cbn [slot ec E.np]. rewrite Hns.
    rewrite (abs_ext (after_call _ _ _ _) _ (<[j := settled p']> (view (E.nthreads (ec c))))) by (intros i; apply view_insert; by rewrite Hnl).
    rewrite (abs_after_call _ _ _ _ _ Hlt Hc _ Hp'), (abs_in_call _ _ _ _ _ Hlt Hc).
    unfold view at 2. rewrite Hj. cbn [mbind option_bind]. rewrite (settled_calls _ _ Hcalls).
    destruct (notify_effect _ _ _ _ _ _ _ Hs Hcalls Hm) as [(-> & Hp & Hst)|(-> & r & -> & Hef & Hr)].
    + left. unfold in_call. by rewrite (abs_set_ec _ _ a a' Hp Hst).
    + right. exists (slot_label (slot c) j). unfold in_call.
      rewrite (effect_on_abs _ _ _ _ _ Hef), Hr.
      set (s0 := abs (slot c) (<[j := None]> (view (E.nthreads (ec c)))) a).
      change (E.stk a) with (S.stk s0).
      assert (slot_label (slot c) j = slot_label s0 j) as ->
        by (unfold slot_label, s0; by rewrite abs_role by (done || by rewrite fn_lookup_insert)).
      apply step_call; [|unfold s0; by rewrite abs_call by (done || by rewrite fn_lookup_insert)].
      unfold s0, num_threads. rewrite abs_num_workers. cbn. rewrite length_imap. exact Hlt.
Qed.

Lemma notify_simulated c a j weak c' :
  inv c a → E.lap_ok (ec c) → notify c j weak = Some c' → simulated c c' a.
Proof.
  intros Hi Hlap. unfold notify. destruct (call_of (slot c) j) as [all|] eqn:Hc; [|done].
  cbn [mbind option_bind]. destruct (E.nthreads (ec c) !! j) as [n|] eqn:Hj; [|done].
  cbn [mbind option_bind E.step]. rewrite Hj. cbn [mbind option_bind].
  destruct (iv_n _ _ Hi j n Hj) as [[r Hr]|(all' & Hc' & Hcalls)].
  - rewrite Hr. intros [= <-]. by eapply notify_enter; eauto.
  - rewrite Hc in Hc'. injection Hc' as <-. intros Hst.
    assert ((n' ← E.nthreads (E.step_notifier (ec c) j n weak) !! j;
      Some (mk (after_call (slot c) j all (E.np n')) (E.step_notifier (ec c) j n weak))) = Some c') as Hst'
      by (destruct (E.np n); done).
    destruct (E.nthreads (E.step_notifier _ _ _ _) !! j) as [n'|] eqn:Hn'; [|done]. injection Hst' as <-.
    by apply (notify_access c a j all n weak n').
Qed.

(** ** Worker [k] moves *)
Section worker.
Context (c : t) (a : E.spec) (k : nat) (w : S.Worker).
Context (Hi : inv c a) (Hk : S.workers (slot c) !! k = Some w) (Hpc : S.pc w ≠ S.AtNotify).

(** It is outside [notify]. *)
Lemma worker_outside n : E.nthreads (ec c) !! k = Some n → ∃ r, E.np n = NOut r.
Proof using Hi Hk Hpc.
  intros Hn. destruct (iv_n _ _ Hi k n Hn) as [?|(all & Hc & _)]; [done|exfalso].
  unfold call_of in Hc. rewrite (role_of_worker _ _ _ Hk) in Hc. by destruct (S.pc w).
Qed.

Lemma worker_view : view (E.nthreads (ec c)) k = None.
Proof using Hi Hk Hpc.
  unfold view. destruct (E.nthreads (ec c) !! k) as [n|] eqn:Hn; [|done].
  destruct (worker_outside n Hn) as [r Hr]. cbn. by rewrite Hr.
Qed.

Lemma worker_abs : S.workers (slot_of c a) !! k = Some w.
Proof using Hi Hk Hpc. cbn. rewrite list_lookup_imap, Hk. cbn. by rewrite worker_view. Qed.

Lemma worker_thread : ∃ u, E.wthreads (ec c) !! k = Some u ∧ wcoupled (S.pc w) (E.wp u).
Proof using Hi Hk.
  destruct (E.wthreads (ec c) !! k) as [u|] eqn:Hu; [exists u; split; [done|by eapply iv_w]|exfalso].
  apply lookup_ge_None in Hu. rewrite (iv_wlen _ _ Hi) in Hu. apply lookup_lt_Some in Hk.
  unfold S.num_workers in Hu. lia.
Qed.

(** The invariant when only worker [k] and its waiter have changed. *)
Lemma worker_moves_inv w' u' ec' a' :
  E.sim ec' a' → E.nthreads ec' = E.nthreads (ec c) → E.wthreads ec' = <[k := u']> (E.wthreads (ec c)) →
  wcoupled (S.pc w') (E.wp u') → inv (mk (S.set_worker k w' (slot c)) ec') a'.
Proof using Hi Hk Hpc.
  intros Hs' Hns Hws Hc. destruct worker_thread as (u & Hu & _).
  assert (num_threads (S.set_worker k w' (slot c)) = num_threads (slot c)) as Ht
    by (unfold num_threads; by rewrite num_workers_insert).
  split; cbn [slot ec]; rewrite ?num_workers_insert, ?Hns, ?Hws, ?Ht, ?length_insert; try apply Hi; [done| |].
  - intros o v x. cbn. rewrite (S.lookup_insert_pc _ _ _ _ _ Hk). destruct (decide (o = k)) as [->|Hne].
    + intros [= <-]. rewrite list_lookup_insert_eq by (by eapply lookup_lt_Some). by intros [= <-].
    + rewrite list_lookup_insert_ne by done. apply Hi.
  - intros o n Hn. destruct (decide (o = k)) as [->|Hne]; [left; by apply worker_outside|].
    rewrite (call_of_ext (slot c)); [by apply Hi|apply num_workers_insert|done|done|].
    cbn. by rewrite list_lookup_insert_ne.
Qed.

(** The abstract slot then. *)
Lemma slot_of_worker w' ec' a' : E.nthreads ec' = E.nthreads (ec c) →
  slot_of (mk (S.set_worker k w' (slot c)) ec') a' =
  S.set_ec (E.pre a') (E.stk a') (S.set_worker k w' (slot_of c a)).
Proof using Hi Hk Hpc.
  intros Hns. unfold slot_of. cbn [slot ec]. rewrite Hns, abs_set_worker, worker_view. done.
Qed.

Lemma stay w0 : w0 = w → S.set_worker k w0 (slot c) = slot c.
Proof using Hk. intros ->. unfold S.set_worker. rewrite list_insert_id by done. by destruct (slot c). Qed.

Lemma slot_of_stay : S.set_worker k w (slot_of c a) = slot_of c a.
Proof using Hi Hk Hpc.
  unfold S.set_worker. rewrite list_insert_id by apply worker_abs. by destruct (slot_of c a).
Qed.

(** Nothing but the waiter has moved. *)
Lemma stutter u' ec' :
  E.sim ec' a → E.nthreads ec' = E.nthreads (ec c) → E.wthreads ec' = <[k := u']> (E.wthreads (ec c)) →
  wcoupled (S.pc w) (E.wp u') → simulated c (mk (slot c) ec') a.
Proof using Hi Hk Hpc.
  intros Hs' Hns Hws Hc. rewrite <- (stay w eq_refl). exists a. split; [by eapply worker_moves_inv|left].
  rewrite slot_of_worker by done. rewrite slot_of_stay. by unfold slot_of, abs, S.set_ec.
Qed.

(** Worker and waiter move together, and so does the abstract worker. *)
Lemma move w' u' ec' a' :
  E.sim ec' a' → E.nthreads ec' = E.nthreads (ec c) → E.wthreads ec' = <[k := u']> (E.wthreads (ec c)) →
  wcoupled (S.pc w') (E.wp u') →
  S.worker_step k w false (slot_of c a) = Some (S.set_ec (E.pre a') (E.stk a') (S.set_worker k w' (slot_of c a))) →
  simulated c (mk (S.set_worker k w' (slot c)) ec') a.
Proof using Hi Hk Hpc.
  intros Hs' Hns Hws Hc Hst. exists a'. split; [by eapply worker_moves_inv|right].
  exists (S.LWorker k false). cbn [S.step]. rewrite worker_abs. cbn [mbind option_bind].
  by rewrite slot_of_worker.
Qed.

(** A waiter that is out is neither in the queue nor on the stack. *)
Lemma out_absent ec' u' a' : E.sim ec' a' → E.wthreads ec' !! k = Some u' → E.wp u' = WOut →
  (k ∉ E.pre a') ∧ (k ∉ E.stk a').
Proof.
  intros Hs Hu Hp. pose proof (E.sim_w _ _ Hs k u' Hu) as W. split.
  - intros [m Hm]%list_elem_of_lookup_1. apply (E.wi_pre _ _ _ _ _ _ W) in Hm as [Ha _]. by rewrite Hp in Ha.
  - intros Hin. assert (E.owned a' k) as Ho by by left.
    apply (E.wi_own _ _ _ _ _ _ W) in Ho as [Ha _]. by rewrite Hp in Ha.
Qed.

Lemma prepare_simulated ec' :
  S.pc w = S.AtPrepare → E.step (ec c) (E.LPrepare k) = Some ec' →
  simulated c (mk (S.set_worker k (S.set_pc w (S.ExploreOwn 0)) (slot c)) ec') a.
Proof using Hi Hk Hpc.
  intros Hp. cbn [E.step]. destruct worker_thread as (u & Hu & Hcp). rewrite Hu. cbn [mbind option_bind].
  rewrite Hp in Hcp. cbn in Hcp. rewrite Hcp. intros [= <-].
  destruct (E.sim_prepare (ec c) a k u (iv_sim _ _ Hi) Hu Hcp) as (Hs' & _ & _).
  eapply move; [exact Hs'|done|done|done|]. unfold S.worker_step. by rewrite Hp.
Qed.
End worker.

(** ** Waiting *)
(** What an access of [wait] does to the waiter [u] of worker [k] and to the eventcount. *)
Definition entered (call : E.label) : wpc :=
  match call with E.LCommit _ => WCommitLoad | E.LCancel _ => WCancelLoad | _ => WPrepared end.

Definition waited (st : Z) (k : nat) (weak : bool) (call : E.label) (a : E.spec) (u u' : E.wthread) (a' : E.spec) : Prop :=
  (E.wp u = WPrepared ∧ E.wp u' = entered call ∧ a' = a) ∨
  (E.wp u' = (waiter_step st k (E.wt u) (E.wp u) weak).2 ∧
   ((E.waiter_quiet (E.wp u) (E.wp u') ∧ a' = a) ∨
    (∃ e, E.waiter_event k (E.wp u) (E.wp u') e ∧ E.spec_step a e a'))).

(** The configuration after it differs in that waiter and the word only. *)
Definition wait_frame (c c' : E.cfg) (k : nat) (u' : E.wthread) : Prop :=
  E.nthreads c' = E.nthreads c ∧ E.wthreads c' = <[k := u']> (E.wthreads c).

Lemma waiter_access c a k u weak :
  E.sim c a → E.lap_ok c → E.wthreads c !! k = Some u →
  ∃ u' a', wait_frame c (E.step_waiter c k u weak) k u' ∧ E.sim (E.step_waiter c k u weak) a' ∧
    ∀ call, waited (E._state c) k weak call a u u' a'.
Proof.
  intros Hs Hlap Hu. destruct (E.step_waiter_matched c a k u weak Hs Hlap Hu) as (a' & Hs' & Hm).
  unfold E.step_waiter, waited in *. destruct (waiter_step _ _ _ _ _) as [[st' w''] p']. cbn [snd] in *.
  eexists _, a'. split; [by split|]. split; [exact Hs'|]. intros call. right. by split.
Qed.

Lemma wait_enter c a k u call c' :
  E.sim c a → E.wthreads c !! k = Some u → E.wp u = WPrepared →
  call = E.LCommit k ∨ call = E.LCancel k → E.step c call = Some c' →
  ∃ u', wait_frame c c' k u' ∧ E.sim c' a ∧ E.wp u' = entered call.
Proof.
  intros Hs Hu Hp Hcall Hst.
  assert (E.sim c' a) as Hs' by (eapply (E.step_silent c a k call); [done| |done]; destruct Hcall; auto).
  destruct Hcall as [->| ->]; cbn [E.step] in Hst; rewrite Hu in Hst; cbn in Hst; rewrite Hp in Hst;
    injection Hst as <-; eexists; split; [by split|done|by split|done].
Qed.

Lemma wait_inv c a k weak call after c' w :
  inv c a → E.lap_ok (ec c) → call = E.LCommit k ∨ call = E.LCancel k ∨ call = E.LWaiter k weak →
  S.workers (slot c) !! k = Some w → wait c k weak call after = Some c' →
  ∃ u u' a' ec', c' = mk (after (E.wp u')) ec' ∧ wcoupled (S.pc w) (E.wp u) ∧ wait_frame (ec c) ec' k u' ∧
    E.sim ec' a' ∧ waited (E._state (ec c)) k weak call a u u' a'.
Proof.
  intros Hi Hlap Hcall Hk Hst. pose proof (iv_sim _ _ Hi) as Hs. unfold wait in Hst.
  destruct (E.wthreads (ec c) !! k) as [u|] eqn:Hu; [|done]. cbn [mbind option_bind] in Hst.
  assert (∀ ec', E.step (ec c) (match E.wp u with WPrepared => call | _ => E.LWaiter k weak end) = Some ec' →
    ∃ u' a', wait_frame (ec c) ec' k u' ∧ E.sim ec' a' ∧ waited (E._state (ec c)) k weak call a u u' a') as Hstep.
  { intros ec' He.
    assert ((E.wp u = WPrepared ∧ (call = E.LCommit k ∨ call = E.LCancel k) ∧ E.step (ec c) call = Some ec') ∨
      E.step (ec c) (E.LWaiter k weak) = Some ec') as [(Hp & Hc & Hst')|Hst'].
    { destruct (E.wp u); try (by right). destruct Hcall as [->|[->| ->]]; auto. }
    - destruct (wait_enter (ec c) a k u call ec' Hs Hu Hp Hc Hst') as (u' & Hf & Hs' & Hu').
      exists u', a. split; [done|]. split; [done|]. by left.
    - cbn [E.step] in Hst'. rewrite Hu in Hst'. cbn in Hst'. injection Hst' as <-.
      destruct (waiter_access (ec c) a k u weak Hs Hlap Hu) as (u' & a' & Hf & Hs' & Hw). eauto. }
  destruct (E.step _ _) as [ec'|]; [|done]. cbn [mbind option_bind] in Hst.
  destruct (Hstep ec' eq_refl) as (u' & a' & Hf & Hs' & Hw). exists u, u', a', ec'.
  assert (E.wthreads ec' !! k = Some u') as Hu'.
  { destruct Hf as [_ ->]. by rewrite list_lookup_insert_eq by (by eapply lookup_lt_Some). }
  rewrite Hu' in Hst. injection Hst as <-. split; [done|]. split; [by eapply iv_w|done].
Qed.

Lemma cancel_pc st k w p weak : wcoupled S.AtCancel p →
  let p' := (waiter_step st k w p weak).2 in wcoupled S.AtCancel p' ∨ p' = WOut.
Proof. unfold waiter_step. destruct p; try done; cbn; intros _; repeat case_match; cbn in *; simplify_eq; auto. Qed.

Lemma commit_pc st k w p weak : wcoupled S.AtCommit p →
  let p' := (waiter_step st k w p weak).2 in wcoupled S.AtCommit p' ∨ p' = WOut ∨ p' = WPark.
Proof. unfold waiter_step. destruct p; try done; cbn; intros _; repeat case_match; cbn in *; simplify_eq; auto. Qed.

Lemma asleep_pc st k w p weak : wcoupled S.Asleep p →
  let p' := (waiter_step st k w p weak).2 in wcoupled S.Asleep p' ∨ p' = WOut.
Proof. unfold waiter_step. destruct p; try done; cbn; intros _; repeat case_match; cbn in *; simplify_eq; auto. Qed.

(** Leaving the queue of the abstract slot. *)
Lemma worker_step_absent k w s p : (k ∉ S.pre s) →
  (S.pc w = S.AtCancel ∧ p = S.AtNotify) ∨ (S.pc w = S.AtCommit ∧ p = S.AtWhile) →
  S.worker_step k w false s = Some (S.set_worker k (S.set_pc w p) s).
Proof.
  intros Hk Hp. unfold S.worker_step. destruct Hp as [[-> ->]|[-> ->]]; destruct (S.pre s) as [|h q]; try done;
    apply not_elem_of_cons in Hk as [Hne Hq]; (destruct (Nat.eqb_spec h k); [by subst|]);
    by rewrite bool_decide_eq_false_2.
Qed.

Section waiting.
Context (c : t) (a : E.spec) (k : nat) (w : S.Worker) (weak : bool) (c' : t).
Context (Hi : inv c a) (Hlap : E.lap_ok (ec c)) (Hk : S.workers (slot c) !! k = Some w).

Let goto p := S.set_worker k (S.set_pc w p) (slot c).

Lemma set_ec_same s : S.set_ec (S.pre s) (S.stk s) s = s.
Proof. by destruct s. Qed.

(** A waiter that came out without an event was out of the queue. *)
Lemma out_simulated u' ec' p :
  S.pc w ≠ S.AtNotify → E.sim ec' a → wait_frame (ec c) ec' k u' → E.wp u' = WOut →
  (S.pc w = S.AtCancel ∧ p = S.AtNotify) ∨ (S.pc w = S.AtCommit ∧ p = S.AtWhile) ∨ (S.pc w = S.Asleep ∧ p = S.AtWhile) →
  simulated c (mk (goto p) ec') a.
Proof using Hi Hk.
  intros Hpc Hs' [Hns Hws] Hu' Hp.
  assert (E.wthreads ec' !! k = Some u') as Hlook.
  { destruct (worker_thread c a k w Hi Hk) as (u & Hu & _).
    rewrite Hws. by rewrite list_lookup_insert_eq by (by eapply lookup_lt_Some). }
  destruct (out_absent k ec' u' a Hs' Hlook Hu') as [Hnp Hnk].
  eapply (move c a k w Hi Hk Hpc); [exact Hs'|done|done| |].
  - rewrite Hu'. destruct Hp as [[_ ->]|[[_ ->]|[_ ->]]]; done.
  - change (E.pre a) with (S.pre (S.set_worker k (S.set_pc w p) (slot_of c a))).
    change (E.stk a) with (S.stk (S.set_worker k (S.set_pc w p) (slot_of c a))). rewrite set_ec_same.
    destruct Hp as [Hp|[Hp|[Hp ->]]]; [apply worker_step_absent; auto..|].
    unfold S.worker_step. rewrite Hp. by rewrite bool_decide_eq_false_2.
Qed.

Lemma cancel_simulated : S.pc w = S.AtCancel →
  wait c k weak (E.LCancel k) (λ p, match p with WOut => goto S.AtNotify | _ => slot c end) = Some c' →
  simulated c c' a.
Proof using Hi Hlap Hk.
  intros Hpc Hst. assert (S.pc w ≠ S.AtNotify) as Hnn by (by rewrite Hpc).
  destruct (wait_inv c a k weak (E.LCancel k) _ c' w Hi Hlap ltac:(auto) Hk Hst)
    as (u & u' & a' & ec' & -> & Hcp & Hf & Hs' & Hw).
  rewrite Hpc in Hcp. pose proof Hf as [Hns Hws].
  assert (∀ p', E.wp u' = p' → wcoupled S.AtCancel p' → a' = a → 
    simulated c (mk (match E.wp u' with WOut => goto S.AtNotify | _ => slot c end) ec') a) as Hstay.
  { intros p' Hp' Hcp' ->. rewrite Hp'. destruct p'; try done;
      apply (stutter c a k w Hi Hk Hnn u'); try done; by rewrite Hpc, Hp'. }
  destruct Hw as [(_ & Hp' & ->)|[Hp' Hev]]; [by eapply Hstay|].
  destruct (cancel_pc (E._state (ec c)) k (E.wt u) _ weak Hcp) as [Hcp'|Hout].
  - rewrite <- Hp' in Hcp'. eapply Hstay; [exact eq_refl|exact Hcp'|]. destruct Hev as [[_ ?]|(e & He & _)]; [done|].
    destruct (E.wp u), (E.wp u'), e; done.
  - rewrite Hout in Hp'. rewrite Hp' in *. destruct Hev as [[_ ->]|(e & He & Hsp)].
    + eapply out_simulated; eauto.
    + destruct (E.wp u); try done. destruct e; try done. cbn in He. subst i. inversion Hsp; subst.
      eapply (move c _ k w Hi Hk Hnn); [exact Hs'|done|done|by rewrite Hp'|].
      unfold S.worker_step. rewrite Hpc. cbn. by rewrite Nat.eqb_refl.
Qed.

Lemma commit_simulated : S.pc w = S.AtCommit →
  wait c k weak (E.LCommit k)
    (λ p, match p with WOut => goto S.AtWhile | WPark => goto S.Asleep | _ => slot c end) = Some c' →
  simulated c c' a.
Proof using Hi Hlap Hk.
  intros Hpc Hst. assert (S.pc w ≠ S.AtNotify) as Hnn by (by rewrite Hpc).
  destruct (wait_inv c a k weak (E.LCommit k) _ c' w Hi Hlap ltac:(auto) Hk Hst)
    as (u & u' & a' & ec' & -> & Hcp & Hf & Hs' & Hw).
  rewrite Hpc in Hcp. pose proof Hf as [Hns Hws].
  assert (∀ p', E.wp u' = p' → wcoupled S.AtCommit p' → a' = a → 
    simulated c (mk (match E.wp u' with WOut => goto S.AtWhile | WPark => goto S.Asleep | _ => slot c end) ec') a) as Hstay.
  { intros p' Hp' Hcp' ->. rewrite Hp'. destruct p'; try done;
      apply (stutter c a k w Hi Hk Hnn u'); try done; by rewrite Hpc, Hp'. }
  destruct Hw as [(_ & Hp' & ->)|[Hp' Hev]]; [by eapply Hstay|].
  destruct (commit_pc (E._state (ec c)) k (E.wt u) _ weak Hcp) as [Hcp'|[Hout|Hpark]].
  - rewrite <- Hp' in Hcp'. eapply Hstay; [exact eq_refl|exact Hcp'|]. destruct Hev as [[_ ?]|(e & He & _)]; [done|].
    destruct (E.wp u), (E.wp u'), e; done.
  - rewrite Hout in Hp'. rewrite Hp' in *. destruct Hev as [[_ ->]|(e & He & Hsp)].
    + eapply out_simulated; eauto.
    + destruct (E.wp u), e; done.
  - rewrite Hpark in Hp'. rewrite Hp' in *. destruct Hev as [[Hq ->]|(e & He & Hsp)].
    + exfalso. destruct (E.wp u) as [| | |s|s| |s| |]; try done; cbn in Hpark; repeat case_match; done.
    + destruct (E.wp u); try done. destruct e; try done. cbn in He. subst i. inversion Hsp; subst.
      eapply (move c _ k w Hi Hk Hnn); [exact Hs'|done|done|by rewrite Hp'|].
      unfold S.worker_step. rewrite Hpc. cbn. by rewrite Nat.eqb_refl.
Qed.

Lemma asleep_simulated : S.pc w = S.Asleep →
  wait c k weak (E.LWaiter k weak) (λ p, match p with WOut => goto S.AtWhile | _ => slot c end) = Some c' →
  simulated c c' a.
Proof using Hi Hlap Hk.
  intros Hpc Hst. assert (S.pc w ≠ S.AtNotify) as Hnn by (by rewrite Hpc).
  destruct (wait_inv c a k weak (E.LWaiter k weak) _ c' w Hi Hlap ltac:(auto) Hk Hst)
    as (u & u' & a' & ec' & -> & Hcp & Hf & Hs' & Hw).
  rewrite Hpc in Hcp. pose proof Hf as [Hns Hws].
  destruct Hw as [(Hp & _)|[Hp' Hev]]; [by rewrite Hp in Hcp|].
  assert (a' = a) as -> by (destruct Hev as [[_ ?]|(e & He & _)]; [done|destruct (E.wp u), e; done]).
  destruct (asleep_pc (E._state (ec c)) k (E.wt u) _ weak Hcp) as [Hcp'|Hout].
  - rewrite <- Hp' in Hcp'. assert (simulated c (mk (slot c) ec') a) as Hstay.
    { apply (stutter c a k w Hi Hk Hnn u'); try done. by rewrite Hpc. }
    by destruct (E.wp u').
  - rewrite Hout in Hp'. rewrite Hp' in *. eapply out_simulated; eauto.
Qed.
End waiting.

(** ** Steps that leave the eventcount alone *)
Definition silent (p : S.wpc) : bool :=
  match p with S.AtPrepare | S.AtCancel | S.AtNotify | S.AtCommit | S.Asleep => false | _ => true end.

Lemma abs_worker_fields o w : S.wsq (abs_worker o w) = S.wsq w ∧ S.execute (abs_worker o w) = S.execute w ∧
  S.cpu_id (abs_worker o w) = S.cpu_id w ∧ ∀ q, S.set_wsq (abs_worker o w) q = abs_worker o (S.set_wsq w q).
Proof. unfold abs_worker. destruct o; [|done]. cbn. by destruct (S.pc w). Qed.

Lemma abs_other_busy k o w v : S.other_busy k o (abs_worker v w) = S.other_busy k o w.
Proof. unfold S.other_busy. by destruct (abs_worker_fields v w) as (_ & -> & _). Qed.

Lemma abs_set_shared q s v a : abs (S.set_shared q s) v a = S.set_shared q (abs s v a).
Proof. done. Qed.

Lemma abs_worker_step s v a k w fails s' :
  S.workers s !! k = Some w → v k = None → silent (S.pc w) = true →
  S.worker_step k w fails s = Some s' → S.worker_step k w fails (abs s v a) = Some (abs s' v a).
Proof.
  intros Hk Hv Hp.
  assert (∀ w', abs (S.set_worker k w' s) v a = S.set_worker k w' (abs s v a)) as Hset
    by (intros w'; by rewrite abs_set_worker, Hv).
  assert (∀ o, S.workers (abs s v a) !! o = abs_worker (v o) <$> S.workers s !! o) as Hlook
    by (intros o; cbn; by rewrite list_lookup_imap).
  unfold S.worker_step. destruct (S.pc w) eqn:Hpc; try done; rewrite ?Hlook;
    change (S.shared (abs s v a)) with (S.shared s); change (S.done (abs s v a)) with (S.done s).
  - intros [= <-]. by rewrite Hset.
  - destruct (last _); intros [= <-]; by rewrite Hset.
  - destruct (S.shared s); [|destruct fails]; intros [= <-]; by rewrite ?abs_set_shared, Hset.
  - destruct (S.workers s !! k0) as [x|]; cbn [fmap option_fmap option_map]; [|intros [= <-]; by rewrite Hset].
    destruct (abs_worker_fields (v k0) x) as (Hq & _ & _ & Hwq). rewrite Hq, abs_other_busy.
    destruct (S.wsq x) as [|y q]; [intros [= <-]; by rewrite Hset|].
    destruct (_ || fails); intros [= <-]; [by rewrite Hset|]. by rewrite abs_set_worker, Hset, Hwq.
  - intros [= <-]. by rewrite Hset.
  - intros [= <-]. by rewrite Hset.
  - destruct (S.workers s !! k0) as [x|]; cbn [fmap option_fmap option_map].
    + destruct (abs_worker_fields (v k0) x) as (-> & _). rewrite abs_other_busy. intros [= <-]. by rewrite Hset.
    + destruct (Nat.ltb _ _); intros [= <-]; by rewrite Hset.
  - intros [= <-]. unfold abs, S.num_workers. cbn. rewrite imap_insert, length_insert. cbn. by rewrite Hv.
Qed.

(** Where a silent step leads, and what it keeps. *)
Lemma silent_step s k w fails s' w' :
  S.workers s !! k = Some w → silent (S.pc w) = true → S.worker_step k w fails s = Some s' →
  S.workers s' !! k = Some w' →
  S.destructor s' = S.destructor s ∧ ∀ q, wcoupled (S.pc w) q → wcoupled (S.pc w') q.
Proof.
  intros Hk Hp Hst Hk'.
  assert (∀ v, S.workers (S.set_worker k v s) !! k = Some v) as Hat by (intros v; by eapply S.worker_at).
  unfold S.worker_step in Hst. destruct (S.pc w) eqn:Hpc; try done;
    repeat case_match; simplify_eq; cbn [S.set_shared S.workers S.destructor S.set_worker] in *;
    try (rewrite Hat in Hk'; injection Hk' as <-; split; [done|intros q ->; done]).
  - unfold S.other_busy in *. apply orb_false_iff in H1 as [Hb%negb_false_iff _].
    apply andb_true_iff in Hb as [Hne%negb_true_iff%Nat.eqb_neq _].
    rewrite list_lookup_insert_ne in Hk' by done. cbn in Hat. rewrite Hat in Hk'. injection Hk' as <-. by split.
Qed.

(** The slot changes and the eventcount does not; [j] is the thread that moved, if its
    call did. *)
Lemma inv_slot c a s' j :
  inv c a → S.num_workers s' = S.num_workers (slot c) → num_threads s' = num_threads (slot c) →
  (∀ k w', S.workers s' !! k = Some w' → ∃ w, S.workers (slot c) !! k = Some w ∧
    ∀ q, wcoupled (S.pc w) q → wcoupled (S.pc w') q) →
  (call_of (slot c) j = None ∨ call_of s' j = call_of (slot c) j) →
  (∀ i, (i < num_threads s')%nat → i ≠ j → call_of s' i = call_of (slot c) i) → inv (mk s' (ec c)) a.
Proof.
  intros [Hs Hwl Hnl Hw Hn] En Et Hws Hj Ho. split; cbn [slot ec]; try congruence.
  - intros k w' u Hk Hu. destruct (Hws k w' Hk) as (w & Hk0 & Himp). eauto.
  - intros i n Hi. pose proof (lookup_lt_Some _ _ _ Hi) as Hlt.
    destruct (decide (i = j)) as [->|Hne]; [|rewrite Ho by (congruence || lia); by apply Hn].
    destruct (Hn j n Hi) as [?|(all & Hc & Hcl)]; [by left|]. destruct Hj as [?|E]; [congruence|].
    right. exists all. by rewrite E.
Qed.

Lemma silent_simulated c a k w fails s' :
  inv c a → S.workers (slot c) !! k = Some w → silent (S.pc w) = true →
  S.worker_step k w fails (slot c) = Some s' → simulated c (mk s' (ec c)) a.
Proof.
  intros Hi Hk Hp Hst. assert (S.pc w ≠ S.AtNotify) as Hnn by (intros E; by rewrite E in Hp).
  destruct (S.worker_step_frame _ _ _ _ _ Hk Hst) as [Fpc _ _ _ Fp Fn _ _].
  assert (∃ w', S.workers s' !! k = Some w') as [w' Hk'].
  { apply lookup_lt_is_Some. apply lookup_lt_Some in Hk. unfold S.num_workers in Fn. lia. }
  destruct (silent_step _ _ _ _ _ _ Hk Hp Hst Hk') as [Fd Hcp]. exists a. split.
  - apply (inv_slot c a s' k Hi Fn); [unfold num_threads; by rewrite Fn, Fp| | |].
    + intros o v Ho. destruct (decide (o = k)) as [->|Hne]; [rewrite Hk' in Ho; injection Ho as <-; eauto|].
      specialize (Fpc o Hne). rewrite Ho in Fpc. destruct (S.workers (slot c) !! o) as [v0|] eqn:Hv0; [|done].
      injection Fpc as Fpc. exists v0. by rewrite Fpc.
    + left. unfold call_of. rewrite (role_of_worker _ _ _ Hk). by destruct (S.pc w).
    + intros i _ Hne. apply call_of_ext; try done. by apply Fpc.
  - right. exists (S.LWorker k fails). cbn [S.step]. rewrite (worker_abs c a k w Hi Hk Hnn). cbn [mbind option_bind].
    apply abs_worker_step; try done. by apply (worker_view c a k w).
Qed.

Lemma spurious_simulated c a k ec' :
  inv c a → E.step (ec c) (E.LSpurious k) = Some ec' → simulated c (mk (slot c) ec') a.
Proof.
  intros Hi Hst. assert (E.sim ec' a) as Hs' by (eapply E.step_silent; [apply Hi| |done]; auto).
  cbn [E.step] in Hst. destruct (E.wthreads (ec c) !! k) as [u|] eqn:Hu; [|done]. injection Hst as <-.
  exists a. split; [|by left]. destruct Hi as [_ Hwl Hnl Hw Hn].
  split; cbn [slot ec E.wthreads E.nthreads] in *; rewrite ?length_insert; try done.
  intros o w x Ho Hx. destruct (decide (k = o)) as [->|Hne].
  - rewrite list_lookup_insert_eq in Hx by (by eapply lookup_lt_Some). injection Hx as <-.
    eapply wcoupled_woken; [by eapply Hw|apply wake_woken].
  - rewrite list_lookup_insert_ne in Hx by done. by eapply Hw.
Qed.

(** A thread without a pending call is as it is in the abstract slot. *)
Lemma view_outside c a j : inv c a → call_of (slot c) j = None → view (E.nthreads (ec c)) j = None.
Proof.
  intros Hi Hc. unfold view. destruct (E.nthreads (ec c) !! j) as [n|] eqn:Hn; [|done].
  destruct (iv_n _ _ Hi j n Hn) as [[r Hr]|(all & Hc' & _)]; [|congruence]. cbn. by rewrite Hr.
Qed.

Lemma call_of_set_poster s j p i : i ≠ (S.num_workers s + j)%nat → call_of (S.set_poster j p s) i = call_of s i.
Proof.
  intros Hne. unfold call_of, role_of. cbn. change (S.num_workers (S.set_poster j p s)) with (S.num_workers s).
  destruct (S.workers s !! i) as [w|] eqn:Hw; [done|]. apply lookup_ge_None in Hw.
  assert (j ≠ i - S.num_workers s)%nat by (unfold S.num_workers in *; lia). by rewrite list_lookup_insert_ne.
Qed.

Lemma call_of_poster s j p : S.posters s !! j = Some p →
  call_of s (S.num_workers s + j) =
  match p with S.Idle => None | S.NotifyOne => Some false
  | S.NotifyWaiter k returned => notify_waiter_next (S.num_workers s) k returned end.
Proof. intros Hj. unfold call_of. rewrite (role_of_poster _ _ _ Hj). by destruct p. Qed.

Lemma poster_abs c a j p : S.posters (slot c) !! j = Some p →
  view (E.nthreads (ec c)) (S.num_workers (slot c) + j) = None → S.posters (slot_of c a) !! j = Some p.
Proof. intros Hj Hv. cbn. rewrite list_lookup_imap, Hj. cbn. by rewrite Hv. Qed.

Lemma return_simulated c a j k returned :
  inv c a → S.posters (slot c) !! j = Some (S.NotifyWaiter k returned) →
  notify_waiter_next (S.num_workers (slot c)) k returned = None →
  simulated c (mk (S.set_poster j S.Idle (slot c)) (ec c)) a.
Proof.
  intros Hi Hj Hn. pose proof (call_of_poster _ _ _ Hj) as Hc. cbn in Hc. rewrite Hn in Hc.
  pose proof (view_outside _ _ _ Hi Hc) as Hv. exists a. split.
  - apply (inv_slot c a _ (S.num_workers (slot c) + j) Hi); [done| |cbn; eauto|by left|].
    + unfold num_threads, S.num_workers. cbn. by rewrite length_insert.
    + intros i _ Hne. by apply call_of_set_poster.
  - right. exists (S.LPoster j). cbn [S.step]. rewrite (poster_abs c a j _ Hj Hv). cbn [mbind option_bind S.poster_step].
    unfold slot_of. rewrite abs_num_workers, Hn. cbn [slot ec]. by rewrite abs_set_poster, Hv.
Qed.

(** ** Posting *)
Lemma find_worker_ext p ws ws' k : map S.cpu_id ws = map S.cpu_id ws' → S.find_worker p ws k = S.find_worker p ws' k.
Proof.
  revert ws' k. induction ws as [|w ws IH]; intros [|w' ws'] k E; try done. injection E as E1 E2. cbn.
  by rewrite E1, (IH ws').
Qed.

Lemma abs_cpus s v a : map S.cpu_id (S.workers (abs s v a)) = map S.cpu_id (S.workers s).
Proof.
  apply list_eq. intros i. rewrite !list_lookup_fmap. cbn. rewrite list_lookup_imap.
  destruct (S.workers s !! i) as [w|]; [|done]. cbn. by destruct (abs_worker_fields (v i) w) as (_ & _ & -> & _).
Qed.

Lemma abs_post x s v a : S.post x (abs s v a) = (abs (S.post x s).1 v a, (S.post x s).2).
Proof.
  unfold S.post. rewrite (find_worker_ext _ _ _ _ (abs_cpus s v a)).
  destruct (_ =? INVALID_OBJECT_ID); [done|]. destruct (S.find_worker _ _ _) as [k|]; [|done].
  cbn [S.workers abs]. rewrite list_lookup_imap. destruct (S.workers s !! k) as [w|]; [|done].
  cbn [fmap option_fmap option_map fst snd]. rewrite abs_set_worker.
  by destruct (abs_worker_fields (v k) w) as (-> & _ & _ & ->).
Qed.

Lemma post_frame x s : S.num_workers (S.post x s).1 = S.num_workers s ∧ S.posters (S.post x s).1 = S.posters s ∧
  S.destructor (S.post x s).1 = S.destructor s ∧ ∀ k, S.pc <$> S.workers (S.post x s).1 !! k = S.pc <$> S.workers s !! k.
Proof.
  destruct (S.post_cases x s) as [->|(k & w & Hk & ->)]; [done|]. cbn [fst].
  split; [apply num_workers_insert|]. split; [done|]. split; [done|]. intros o. cbn.
  rewrite (S.lookup_insert_pc _ _ _ _ _ Hk). destruct (decide (o = k)) as [->|?]; [|done]. by rewrite Hk.
Qed.

Lemma post_simulated c a j x s' :
  inv c a → S.step (slot c) (S.LPost j x) = Some s' → simulated c (mk s' (ec c)) a.
Proof.
  intros Hi. cbn [S.step]. destruct (S.posters (slot c) !! j) as [[]|] eqn:Hj; try done.
  pose proof (call_of_poster _ _ _ Hj) as Hc. pose proof (view_outside _ _ _ Hi Hc) as Hv.
  destruct (post_frame x (slot c)) as (Fn & Fp & Fd & Fw). pose proof (abs_post x (slot c) (view (E.nthreads (ec c))) a) as Ha.
  destruct (S.post x (slot c)) as [s1 p] eqn:Hpost. cbn [fst snd] in *. intros [= <-]. exists a. split.
  - apply (inv_slot c a _ (S.num_workers (slot c) + j) Hi); [done| | |by left|].
    + unfold num_threads. change (S.num_workers (S.set_poster j p s1)) with (S.num_workers s1).
      cbn. by rewrite length_insert, Fn, Fp.
    + intros k w' Hk. cbn in Hk. specialize (Fw k). rewrite Hk in Fw.
      destruct (S.workers (slot c) !! k) as [w|]; [|done]. injection Fw as Fw. exists w. by rewrite Fw.
    + intros i _ Hne. rewrite call_of_set_poster by (by rewrite Fn). by apply call_of_ext.
  - right. exists (S.LPost j x). cbn [S.step]. rewrite (poster_abs c a j _ Hj Hv). fold (slot_of c a) in Ha.
    rewrite Ha. unfold slot_of. cbn [slot ec]. by rewrite abs_set_poster, Fn, Hv.
Qed.

(** ** The destructor *)
Lemma call_of_destructor s : call_of s (S.num_workers s + List.length (S.posters s)) =
  match S.destructor s with S.Marked => Some true | _ => None end.
Proof. unfold call_of. by rewrite role_of_destructor. Qed.

Lemma forallb_exited s v a : forallb (λ w, match S.pc w with S.Exited => true | _ => false end) (S.workers s) = true →
  forallb (λ w, match S.pc w with S.Exited => true | _ => false end) (S.workers (abs s v a)) = true.
Proof.
  rewrite !forallb_forall. intros H w Hw%list_elem_of_In. cbn in Hw.
  apply elem_of_lookup_imap in Hw as (i & w0 & -> & Hi).
  apply list_elem_of_lookup_2, list_elem_of_In, H in Hi. unfold abs_worker. destruct (v i), (S.pc w0) eqn:E; by rewrite ?E.
Qed.

Lemma destroy_simulated c a s' :
  inv c a → S.destructor (slot c) ≠ S.Marked → S.step (slot c) S.LDestroy = Some s' →
  simulated c (mk s' (ec c)) a.
Proof.
  intros Hi Hd Hst. pose proof (call_of_destructor (slot c)) as Hc.
  assert (call_of (slot c) (S.num_workers (slot c) + List.length (S.posters (slot c))) = None) as Hc'
    by (by destruct (S.destructor (slot c))). clear Hc.
  pose proof (view_outside _ _ _ Hi Hc') as Hv.
  assert (∃ dn d, s' = S.mk (S.workers (slot c)) (S.shared (slot c)) (S.pre (slot c)) (S.stk (slot c)) dn
    (S.posters (slot c)) d (S.executed (slot c)) ∧
    S.step (slot_of c a) S.LDestroy = Some (S.mk (S.workers (slot_of c a)) (S.shared (slot c)) (E.pre a) (E.stk a) dn
      (S.posters (slot_of c a)) d (S.executed (slot c)))) as (dn & d & -> & Hst').
  { cbn [S.step] in *. unfold slot_of at 1. cbn [abs S.destructor]. rewrite Hv.
    destruct (S.destructor (slot c)); try done.
    - injection Hst as <-. by eexists _, _.
    - destruct (forallb _ _) eqn:Hf; [|done]. injection Hst as <-. eexists _, _. split; [done|].
      cbn [abs_dtor]. unfold slot_of. by rewrite forallb_exited. }
  exists a. split.
  - apply (inv_slot c a _ (S.num_workers (slot c) + List.length (S.posters (slot c))) Hi); [done|done|cbn; eauto|by left|].
    intros i Hlt Hne. unfold num_threads in Hlt. cbn in Hlt. unfold S.num_workers in *. cbn in Hlt.
    unfold call_of, role_of, S.num_workers. cbn. destruct (S.workers (slot c) !! i) as [w|] eqn:Hw; [done|].
    apply lookup_ge_None in Hw. destruct (S.posters (slot c) !! _) eqn:Hp; [done|]. apply lookup_ge_None in Hp. lia.
  - right. exists S.LDestroy. rewrite Hst'. unfold slot_of, abs, S.num_workers in *. cbn in *. by rewrite Hv.
Qed.

(** ** Every step *)
Lemma step_simulated c a l c' :
  inv c a → E.lap_ok (ec c) → step c l = Some c' → simulated c c' a.
Proof.
  intros Hi Hlap. destruct l as [k fails weak|k|j weak|j x|j|]; cbn [step].
  - destruct (S.workers (slot c) !! k) as [w|] eqn:Hk; [|done]. cbn [mbind option_bind]. unfold worker_step.
    assert (silent (S.pc w) = true → (s' ← S.worker_step k w fails (slot c); Some (mk s' (ec c))) = Some c' →
      simulated c c' a) as Hsil.
    { intros Hp. destruct (S.worker_step _ _ _ _) as [s'|] eqn:Hst; [|done]. intros [= <-].
      by eapply silent_simulated. }
    destruct (S.pc w) eqn:Hpc; try (by apply Hsil); try done.
    + destruct (E.step _ _) as [ec'|] eqn:He; [|done]. intros [= <-].
      apply prepare_simulated; try done. by rewrite Hpc.
    + by apply cancel_simulated.
    + by apply commit_simulated.
    + by apply asleep_simulated.
  - destruct (E.step _ _) as [ec'|] eqn:He; [|done]. intros [= <-]. by eapply spurious_simulated.
  - by apply notify_simulated.
  - destruct (S.step _ _) as [s'|] eqn:Hst; [|done]. intros [= <-]. by eapply post_simulated.
  - destruct (S.posters (slot c) !! j) as [[| |k ret]|] eqn:Hj; try done.
    destruct (notify_waiter_next _ _ _) eqn:Hn; [done|]. intros [= <-]. by eapply return_simulated.
  - intros Hst. assert (S.destructor (slot c) ≠ S.Marked ∧ (s' ← S.step (slot c) S.LDestroy; Some (mk s' (ec c))) = Some c')
      as [Hd Hst'] by (by destruct (S.destructor (slot c))).
    destruct (S.step _ _) as [s'|] eqn:He; [|done]. injection Hst' as <-. by eapply destroy_simulated.
Qed.

Lemma view_replicate m j : view (replicate m (E.mkN (NOut None) 0)) j = None.
Proof. unfold view. destruct (_ !! j) as [n|] eqn:Hn; [|done]. by apply lookup_replicate in Hn as [-> _]. Qed.

Lemma slot_word_make_inv cpus n : List.length cpus < 2 ^ 16 - 1 → inv (make cpus n) E.spec_init.
Proof.
  intros Hn. split; cbn.
  - by apply E.sim_init.
  - unfold S.num_workers. cbn. by rewrite length_replicate, length_map.
  - unfold num_threads, S.num_workers. cbn. by rewrite !length_replicate, length_map.
  - intros k w u Hk [-> _]%lookup_replicate. rewrite list_lookup_fmap in Hk.
    destruct (cpus !! k); [|done]. by injection Hk as <-.
  - intros j m [-> _]%lookup_replicate. left. by eexists.
Qed.

Lemma slot_of_make cpus n : slot_of (make cpus n) E.spec_init = S.make cpus n.
Proof.
  unfold slot_of. cbn [make slot ec E.init E.nthreads].
  rewrite (abs_ext _ _ (λ _, None)) by apply view_replicate. unfold abs, S.make. cbn. f_equal.
  - apply list_eq. intros i. rewrite list_lookup_imap. by destruct (_ !! i).
  - apply list_eq. intros i. rewrite list_lookup_imap. by destruct (_ !! i).
Qed.

Lemma slot_word_reachable_lap cpus n c : reachable cpus n c → E.lap_ok (ec c).
Proof. destruct 1; [apply E.lap_init|done]. Qed.

Lemma reachable_simulated cpus n c : List.length cpus < 2 ^ 16 - 1 → reachable cpus n c →
  ∃ a, inv c a ∧ S.reachable cpus n (slot_of c a).
Proof.
  intros Hn. induction 1 as [|c l c' Hr (a & Hi & Ha) Hst Hl].
  - exists E.spec_init. split; [by apply slot_word_make_inv|]. rewrite slot_of_make. constructor.
  - destruct (step_simulated c a l c' Hi (slot_word_reachable_lap _ _ _ Hr) Hst) as (a' & Hi' & [E|[l' E]]); exists a'.
    + split; [done|]. by rewrite E.
    + split; [done|]. by eapply S.reach_step.
Qed.

Lemma link_unique ts l l' : ∀ o, E.link ts o l → E.link ts o l' → l = l'.
Proof.
  revert l'. induction l as [|x l IH]; intros [|y l'] o; cbn; try done; [by intros -> [? _]|by intros [-> _] ?|].
  intros (-> & u & Hu & Hl) ([= ->] & u' & Hu' & Hl'). rewrite Hu in Hu'. injection Hu' as <-. f_equal. eauto.
Qed.

Lemma on_stack_stk c a k : E.sim c a → E.on_stack c k → k ∈ E.stk a.
Proof.
  intros Hs (l & Hl & Hin). rewrite (E.commit_next_head _ _ Hs) in Hl.
  by rewrite <- (link_unique _ _ _ _ Hl (E.sim_stk _ _ Hs)).
Qed.

(** Every waiter blocked and no thread inside [notify]: the waiters are on the stack. *)
Lemma all_blocked c a : inv c a → S.destructor (slot c) = S.NotStarted →
  (∀ j p, S.posters (slot c) !! j = Some p → p = S.Idle) →
  (∀ k u, E.wthreads (ec c) !! k = Some u → E.wp u = WBlocked) →
  ∀ k u, E.wthreads (ec c) !! k = Some u → k ∈ E.stk a.
Proof.
  intros Hi Hd Hp Hb k u Hu.
  assert (∀ j n, E.nthreads (ec c) !! j = Some n → ∃ r, E.np n = NOut r) as Hout.
  { intros j n Hj. destruct (iv_n _ _ Hi j n Hj) as [?|(all & Hc & _)]; [done|exfalso].
    apply lookup_lt_Some in Hj. rewrite (iv_nlen _ _ Hi) in Hj. unfold call_of in Hc.
    destruct (role_ofP _ _ Hj) as [w Hw|i p _ Hip|_].
    - destruct (worker_thread c a j w Hi Hw) as (x & Hx & Hcp). rewrite (Hb j x Hx) in Hcp. by destruct (S.pc w).
    - by rewrite (Hp i p Hip) in Hc.
    - by rewrite Hd in Hc. }
  pose proof (iv_sim _ _ Hi) as Hs. pose proof (E.sim_w _ _ Hs k u Hu) as W.
  destruct (E.wi_blk _ _ _ _ _ _ W (Hb k u Hu)) as [_ Hwk].
  assert (E.owned a k) as [?|[j Hj]]; [|done|exfalso].
  - apply (E.wi_own _ _ _ _ _ _ W). rewrite (Hb k u Hu). split; [done|]. intros Hsg.
    destruct (Hwk Hsg) as (j & n & r & nx & Hn & Hnp). destruct (Hout j n Hn) as [r' Hr']. congruence.
  - destruct (E.nthreads (ec c) !! j) as [n|] eqn:Hn; [|by rewrite (E.sim_ch _ _ Hs j Hn) in Hj; set_solver].
    pose proof (E.sim_n _ _ Hs j n Hn) as Nj. destruct (Hout j n Hn) as [r Hr]. unfold E.ninv in Nj.
    rewrite Hr in Nj. rewrite Nj in Hj. set_solver.
Qed.

Lemma idle_abs c a : (∀ j p, S.posters (slot c) !! j = Some p → p = S.Idle) →
  ∀ j p, S.posters (slot_of c a) !! j = Some p → p = S.Idle.
Proof.
  intros Hp j p. cbn. rewrite list_lookup_imap. destruct (S.posters (slot c) !! j) as [q|] eqn:Hq; [|done].
  rewrite (Hp j q Hq). cbn. intros [= <-]. by destruct (view _ _).
Qed.

Lemma not_started_abs c a : S.destructor (slot_of c a) = S.NotStarted → S.destructor (slot c) = S.NotStarted.
Proof. cbn. unfold abs_dtor. by destruct (view _ _), (S.destructor (slot c)). Qed.

Lemma workers_abs c a k w : S.workers (slot c) !! k = Some w →
  S.workers (slot_of c a) !! k = Some (abs_worker (view (E.nthreads (ec c)) k) w).
Proof. intros Hk. cbn. by rewrite list_lookup_imap, Hk. Qed.

(** ** Runs *)
(** One worker over its word, with a post: the worker finds nothing, prepares, scans 24
    times and commits. *)
Definition to_sleep : list label :=
  replicate 5 (LWorker 0 false false) ++ mjoin (replicate 24 (replicate 4 (LWorker 0 false false)))
  ++ replicate 6 (LWorker 0 false false).

Definition asleep : t := default (make [10] 1) (run (make [10] 1) to_sleep).

(** ... then a task is posted while it is blocked, and the poster is inside [notify]. *)
Definition posted : t :=
  default asleep (run asleep [LPost 0 (new_task 7 0); LNotify 1 false; LNotify 1 false; LNotify 1 false; LNotify 1 false]).

Lemma asleep_reachable : reachable [10] 1 asleep.
Proof. apply (slot_word_run_reachable [10] 1 to_sleep (make [10] 1)); [constructor|vm_compute; reflexivity]. Qed.

Lemma posted_reachable : reachable [10] 1 posted.
Proof.
  eapply (slot_word_run_reachable [10] 1 [LPost 0 (new_task 7 0); LNotify 1 false; LNotify 1 false; LNotify 1 false; LNotify 1 false] asleep);
    [apply asleep_reachable|vm_compute; reflexivity].
Qed.

Example asleep_blocked : map E.wp (E.wthreads (ec asleep)) = [WBlocked].
Proof. vm_compute. reflexivity. Qed.

(** The poster is past its exchange: the abstract slot has the worker off the stack and
    the poster idle, while the worker is still blocked. *)
Example posted_settled : map E.wp (E.wthreads (ec posted)) = [WBlocked] ∧
  view (E.nthreads (ec posted)) 1 = Some (Some 0%nat) ∧ S.posters (slot posted) = [S.NotifyOne].
Proof. vm_compute. auto. Qed.

End SlotWord.
Import SlotWord.

(** A worker on the stack has nothing in its queue. *)
Lemma stacked_queue_empty (cpus : list Z) (n : nat) (c : SlotWord.t) a :
  inv c a → S.reachable cpus n (slot_of c a) → S.done (slot c) = false →
  (∀ j p, S.posters (slot c) !! j = Some p → p = S.Idle) →
  ∀ k w, S.workers (slot c) !! k = Some w → k ∈ E.stk a → S.wsq w = [].
Proof.
  intros Hi Ha Hd Hp k w Hk Hin. destruct (slot_no_stranded_task cpus n (slot_of c a) Ha Hd (idle_abs c a Hp)) as [Hown _].
  destruct (S.si_stk _ (S.iv_s _ (S.reachable_inv _ _ _ Ha)) k Hin) as (w' & Hw' & Hpc).
  destruct (abs_worker_fields (view (E.nthreads (ec c)) k) w) as (<- & _).
  rewrite (workers_abs c a k w Hk) in Hw'. injection Hw' as <-. eapply Hown; [by apply workers_abs|done|done].
Qed.

(** When every worker is blocked all of them are on the stack and no queue has a task. *)
Lemma blocked_queues_empty (cpus : list Z) (n : nat) (c : SlotWord.t) a :
  inv c a → S.reachable cpus n (slot_of c a) → S.done (slot c) = false →
  (∀ j p, S.posters (slot c) !! j = Some p → p = S.Idle) → S.workers (slot c) ≠ [] →
  (∀ k u, E.wthreads (ec c) !! k = Some u → E.wp u = WorkNotifier.WBlocked) →
  S.shared (slot c) = [] ∧ ∀ k w, S.workers (slot c) !! k = Some w → S.wsq w = [].
Proof.
  intros Hi Ha Hd Hp Hne Hb.
  assert (∀ k w, S.workers (slot c) !! k = Some w → k ∈ E.stk a) as Hall.
  { intros k w Hk. destruct (worker_thread c a k w Hi Hk) as (u & Hu & _).
    eapply all_blocked; [done| |done..]. eapply not_started_abs, S.reachable_done; done. }
  split; [|intros k w Hk; by eapply stacked_queue_empty, Hall].
  apply (slot_no_stranded_task cpus n (slot_of c a) Ha Hd (idle_abs c a Hp)).
  - intros E. apply Hne. apply length_zero_iff_nil. apply (f_equal List.length) in E. cbn in E.
    by rewrite length_imap in E.
  - intros k w Hk. cbn in Hk. rewrite list_lookup_imap in Hk.
    destruct (S.workers (slot c) !! k) as [w0|] eqn:Hk0; [|done]. by eapply Hall.
Qed.

(** C13: a slot never sleeps on a task, down to the accesses of the eventcount's word: in
    every interleaving of workers, posting threads and accesses, in a state in which the destructor has
    not begun and no thread is inside [post] (between its push and the end of its [notify] a task may well lie there while the workers sleep), a worker on the stack the word points to has
    an empty queue, and when every worker is blocked in its condition variable all queues
    of the slot are empty. *)
Theorem slot_word_no_stranded_task (cpus : list Z) (n : nat) (c : SlotWord.t) :
  List.length cpus < 2 ^ 16 - 1 → reachable cpus n c → S.done (slot c) = false →
  (∀ j p, S.posters (slot c) !! j = Some p → p = S.Idle) →
  (∀ k w, S.workers (slot c) !! k = Some w → E.on_stack (ec c) k → S.wsq w = []) ∧
  (S.workers (slot c) ≠ [] → (∀ k u, E.wthreads (ec c) !! k = Some u → E.wp u = WorkNotifier.WBlocked) →
    S.shared (slot c) = [] ∧ ∀ k w, S.workers (slot c) !! k = Some w → S.wsq w = []).
Proof.
  intros Hn Hr Hd Hp. destruct (reachable_simulated cpus n c Hn Hr) as (a & Hi & Ha). split.
  - intros k w Hk Hon. eapply stacked_queue_empty; [done..|]. by eapply on_stack_stk; [apply Hi|].
  - by apply (blocked_queues_empty cpus n c a).
Qed.

Lemma slot_word_no_stranded_task_witness :
  (∀ k w, S.workers (slot asleep) !! k = Some w → E.on_stack (ec asleep) k → S.wsq w = []) ∧
  (S.workers (slot asleep) ≠ [] → (∀ k u, E.wthreads (ec asleep) !! k = Some u → E.wp u = WorkNotifier.WBlocked) →
    S.shared (slot asleep) = [] ∧ ∀ k w, S.workers (slot asleep) !! k = Some w → S.wsq w = []).
Proof.
  apply (slot_word_no_stranded_task [10] 1 asleep); [cbn; lia|apply asleep_reachable|vm_compute; reflexivity|].
  intros j p. assert (S.posters (slot asleep) = [S.Idle]) as -> by (vm_compute; reflexivity).
  intros Hj. apply list_lookup_singleton_Some in Hj as [_ <-]. reflexivity.
Defined.

(** C8: the slot over the eventcount's word implements the slot over the abstract
    eventcount: every interleaving of workers, posting threads, destructor and accesses
    to the word, with spurious failures and wakeups, stands for a reachable state of the
    abstract slot in which a thread inside [notify] has returned as soon as its exchange
    has settled what it returns. *)
Theorem slot_word_refines (cpus : list Z) (n : nat) (c : SlotWord.t) :
  List.length cpus < 2 ^ 16 - 1 → reachable cpus n c →
  ∃ a, E.sim (ec c) a ∧ ExecutorSlot.reachable cpus n (slot_of c a).
Proof.
  intros Hn Hr. destruct (reachable_simulated cpus n c Hn Hr) as (a & Hi & Ha).
  exists a. split; [apply Hi|done].
Qed.

Lemma slot_word_refines_witness :
  ∃ a, E.sim (ec posted) a ∧ ExecutorSlot.reachable [10] 1 (slot_of posted a).
Proof. apply (slot_word_refines [10] 1 posted); [cbn; lia|apply posted_reachable]. Defined.
