(* ===== verification/WorkGroup.v ===== *)
(** * Work groups (ExecutorWorkGroup in include/ar/executor.hpp and src/executor.cpp)

    A work group shares its processors between slots and routes tasks to them.  Doubles
    are the binary64 numbers of the standard library's [SpecFloat]; [None] is undefined
    behaviour of the code (dereferencing the end iterator, an index out of a vector, a
    double that does not fit an int). *)
From Stdlib Require Import SpecFloat.
From S2P Require Import Prelude.
From S2P Require Import Task.
From S2P Require Import Numbers.
From S2P Require Import ExecutorSlot.

(** [struct CPU]. *)
Record CPU := mkCPU { c_id : Z; numa_node_id : Z }.

(** ** Doubles *)
Definition double_of_Z (z : Z) : spec_float := binary_normalize 53 1024 z 0 false.

Definition ddiv (a b : spec_float) : spec_float := SFdiv 53 1024 a b.

Definition dmul (a b : spec_float) : spec_float := SFmul 53 1024 a b.

(** The conversion to [int], towards zero; undefined out of range. *)
Definition double_to_int (f : spec_float) : option Z :=
  let v := match f with
           | S754_zero _ => Some 0
           | S754_finite s m e =>
               let a := if 0 <=? e then Zpos m * 2 ^ e else Zpos m `div` 2 ^ (- e) in
               Some (if s then - a else a)
           | _ => None
           end in
  z ← v; if (- 2 ^ 31 <=? z) && (z <? 2 ^ 31) then Some z else None.

Record WorkGroupOption := mkOption {
  wo_name : string;
  cap : spec_float;
  util : spec_float;
  slot_concurrency : Z
}.

Module WorkGroup.

(** A slot as its group sees it: its processors and its number of entities. *)
Record slot := mkSlot { slot_cpus : list CPU; entities_count : Z }.

Record t := mk {
  g_id : Z;
  name : string;
  entities_peer_slot : gmap Z Z;
  cpus_peer_slot : gmap Z Z;
  slots : list slot
}.

(** ** The constructor *)
Definition concurrency (hardware_concurrency : Z) (o : WorkGroupOption) : Z :=
  if 0 <? slot_concurrency o then slot_concurrency o else hardware_concurrency.

(** [(int)((double)cpus.size() * (1.0 / (option.cap / option.util)))], then clamped. *)
Definition max_cpus (n : Z) (o : WorkGroupOption) : option Z :=
  m ← double_to_int (dmul (double_of_Z n) (ddiv (double_of_Z 1) (ddiv (cap o) (util o))));
  Some (Z.min (Z.max 1 m) n).

(** [std::min_element]: the first index of a smallest value. *)
Fixpoint min_from (best : nat) (v : Z) (i : nat) (l : list Z) : nat :=
  match l with
  | [] => best
  | x :: l' => if x <? v then min_from i x (S i) l' else min_from best v (S i) l'
  end.

Definition min_index (l : list Z) : option nat :=
  match l with [] => None | x :: l' => Some (min_from 0 x 1 l') end.

(** The state of the construction: the load of each processor and what has been built. *)
Record build := mkBuild { load : list Z; peer : gmap Z Z; taken : list CPU }.

(** One turn of the inner loop, for slot [i]. *)
Definition take_cpu (cpus : list CPU) (i : Z) (b : build) : option build :=
  k ← min_index (load b);
  c ← cpus !! k;
  Some (mkBuild (alter (λ x, x + 1) k (load b)) (<[i32 (c_id c) := i]> (peer b)) (taken b ++ [c])).

Fixpoint take_cpus (n : nat) (cpus : list CPU) (i : Z) (b : build) : option build :=
  match n with
  | O => Some b
  | S n' => b' ← take_cpu cpus i b; take_cpus n' cpus i b'
  end.

(** The outer loop, from slot [i] on. *)
Fixpoint make_slots (n c : nat) (cpus : list CPU) (i : Z) (load0 : list Z) (p : gmap Z Z) (ss : list slot)
  : option (list Z * gmap Z Z * list slot) :=
  match n with
  | O => Some (load0, p, ss)
  | S n' =>
      b ← take_cpus c cpus i (mkBuild load0 p []);
      make_slots n' c cpus (i + 1) (load b) (peer b) (ss ++ [mkSlot (taken b) 0])
  end.

Definition slots_count (hw n : Z) (o : WorkGroupOption) : option Z :=
  if concurrency hw o =? 0 then None
  else m ← max_cpus n o; Some (Z.max 1 (Z.quot m (concurrency hw o))).

Definition make (hw : Z) (id : Z) (o : WorkGroupOption) (cpus : list CPU) (cpus_wg : list Z)
  : option (t * list Z) :=
  n ← slots_count hw (List.length cpus) o;
  '(wg, p, ss) ← make_slots (Z.to_nat n) (Z.to_nat (concurrency hw o)) cpus 0 cpus_wg ∅ [];
  Some (mk id (wo_name o) ∅ p ss, wg).

(** ** Routing *)
Inductive target := ToSlot (i : Z) (x : task) | ToScheduler (x : task).

Definition set_slots (ss : list slot) (g : t) : t :=
  mk (g_id g) (name g) (entities_peer_slot g) (cpus_peer_slot g) ss.

Definition set_entities (m : gmap Z Z) (g : t) : t :=
  mk (g_id g) (name g) m (cpus_peer_slot g) (slots g).

Definition add_entity_at (k : nat) (g : t) : t :=
  set_slots (alter (λ s, mkSlot (slot_cpus s) (ExecutorSlot.add_entity (entities_count s))) k (slots g)) g.

Definition delete_entity_at (k : nat) (g : t) : t :=
  set_slots (alter (λ s, mkSlot (slot_cpus s) (ExecutorSlot.delete_entity (entities_count s))) k (slots g)) g.

(** The part of [Post] for a task without a known processor. *)
Definition post_by_tag (x : task) (g : t) : option (t * target) :=
  let tag := es_tag (task_state x) in
  if tag =? INVALID_OBJECT_ID then
    if decide (slots g = []) then None else Some (g, ToSlot 0 x)
  else
    let entity := snd (Unpack tag) in
    match entities_peer_slot g !! entity with
    | Some i => if (0 <=? i) && (i <? List.length (slots g)) then Some (g, ToSlot i x) else None
    | None =>
        k ← min_index (map (λ s, ExecutorSlot.get_util (entities_count s)) (slots g));
        Some (set_entities (<[entity := Z.of_nat k]> (entities_peer_slot g)) (add_entity_at k g),
              ToSlot k x)
    end.

Definition Post (clock : Z) (x : task) (g : t) : option (t * target) :=
  let x := set_execution_state_wg (g_id g) x in
  if get_delay clock x <=? 0 then
    let p := es_processor (task_state x) in
    if p =? INVALID_OBJECT_ID then post_by_tag x g
    else match cpus_peer_slot g !! i32 p with
         | Some i => if (0 <=? i) && (i <? List.length (slots g)) then Some (g, ToSlot i x) else None
         | None => post_by_tag x g
         end
  else Some (g, ToScheduler x).

Definition DeleteEntity (id : Z) (g : t) : option t :=
  match entities_peer_slot g !! id with
  | Some i =>
      if (0 <=? i) && (i <? List.length (slots g)) then
        Some (set_entities (base.delete id (entities_peer_slot g)) (delete_entity_at (Z.to_nat i) g))
      else None
  | None => Some g
  end.

(** ** The least loaded element *)
Lemma min_from_spec l : ∀ best v i (pre : list Z),
  List.length pre = i → pre !! best = Some v → (∀ x, x ∈ pre → v <= x) →
  ∃ u, (pre ++ l) !! min_from best v i l = Some u ∧ ∀ x, x ∈ pre ++ l → u <= x.
Proof.
  induction l as [|y l IH]; intros best v i pre Hi Hb Hm; cbn [min_from].
  - rewrite app_nil_r. eauto.
  - replace (pre ++ y :: l) with ((pre ++ [y]) ++ l) by (by rewrite <- (assoc_L (++))).
    destruct (Z.ltb_spec y v); apply IH; rewrite ?length_app; cbn; try lia.
    + by rewrite lookup_app_r, Hi, Nat.sub_diag by lia.
    + intros x [Hx| ->%list_elem_of_singleton]%elem_of_app; [apply Hm in Hx; lia|lia].
    + by apply lookup_app_l_Some.
    + intros x [Hx| ->%list_elem_of_singleton]%elem_of_app; [by apply Hm|lia].
Qed.

Lemma min_index_spec l k : min_index l = Some k → ∃ v, l !! k = Some v ∧ ∀ x, x ∈ l → v <= x.
Proof.
  destruct l as [|x l]; [done|]. intros [= <-].
  apply (min_from_spec l 0 x 1 [x]); [done|done|]. intros y ->%list_elem_of_singleton. lia.
Qed.

Lemma min_index_some l : l ≠ [] → ∃ k, min_index l = Some k.
Proof. destruct l; [done|]. cbn. eauto. Qed.

(** ** Construction *)
(** No processor carries two more workers than another. *)
Definition balanced (l : list Z) : Prop := ∀ x y, x ∈ l → y ∈ l → x <= y + 1.

Lemma balanced_alter l k v :
  balanced l → l !! k = Some v → (∀ x, x ∈ l → v <= x) → balanced (alter (λ x, x + 1) k l).
Proof.
  intros Hb Hk Hm x y [i Hi]%list_elem_of_lookup_1 [j Hj]%list_elem_of_lookup_1.
  assert (∀ i x, alter (λ x, x + 1) k l !! i = Some x → x = v + 1 ∨ x ∈ l) as Hin.
  { intros i0 x0 H. destruct (decide (i0 = k)) as [->|Hne].
    - rewrite list_lookup_alter_eq, Hk in H. injection H as <-. auto.
    - rewrite list_lookup_alter_ne in H by done. right. by eapply list_elem_of_lookup_2. }
  assert (v ∈ l) as Hv by (by eapply list_elem_of_lookup_2).
  destruct (Hin _ _ Hi) as [->|Hx], (Hin _ _ Hj) as [->|Hy].
  - lia.
  - specialize (Hm y Hy). lia.
  - specialize (Hb x v Hx Hv). lia.
  - by apply Hb.
Qed.

(** What has been built before slot [i] is complete, and what is being built. *)
Record built (cpus : list CPU) (ss : list slot) (i : Z) (b : build) : Prop := {
  bu_len : List.length (load b) = List.length cpus;
  bu_bal : balanced (load b);
  bu_sub : ∀ c, c ∈ taken b → c ∈ cpus;
  bu_peer : ∀ p v, peer b !! p = Some v →
    (v = i ∧ ∃ c, c ∈ taken b ∧ i32 (c_id c) = p) ∨
    (0 <= v < i ∧ ∃ s, ss !! Z.to_nat v = Some s ∧ ∃ c, c ∈ slot_cpus s ∧ i32 (c_id c) = p)
}.

Lemma take_cpu_ok cpus ss i b :
  built cpus ss i b → cpus ≠ [] →
  ∃ b', take_cpu cpus i b = Some b' ∧ built cpus ss i b' ∧ List.length (taken b') = S (List.length (taken b)).
Proof.
  intros [Hl Hb Hs Hp] Hne.
  assert (load b ≠ []) as Hlne by (intros E; rewrite E in Hl; by destruct cpus).
  destruct (min_index_some _ Hlne) as [k Hk]. destruct (min_index_spec _ _ Hk) as (v & Hv & Hm).
  destruct (lookup_lt_is_Some_2 cpus k) as [c Hc];
    [rewrite <- Hl; by eapply lookup_lt_Some|].
  unfold take_cpu. rewrite Hk. cbn. rewrite Hc. cbn. eexists. split; [done|].
  split; [|cbn; rewrite length_app; cbn; lia]. split; cbn.
  - by rewrite length_alter.
  - by eapply balanced_alter.
  - intros c' [?| ->%list_elem_of_singleton]%elem_of_app; [auto|by eapply list_elem_of_lookup_2].
  - intros p u. rewrite lookup_insert_Some. intros [[<- <-]|[_ Hpu]].
    + left. split; [done|]. exists c. set_solver.
    + destruct (Hp p u Hpu) as [(-> & c' & ? & ?)|?]; [left|by right].
      split; [done|]. exists c'. set_solver.
Qed.

Lemma take_cpus_ok n cpus ss i : ∀ b,
  built cpus ss i b → cpus ≠ [] →
  ∃ b', take_cpus n cpus i b = Some b' ∧ built cpus ss i b' ∧
    List.length (taken b') = (n + List.length (taken b))%nat.
Proof.
  induction n as [|n IH]; intros b Hb Hne; cbn [take_cpus]; [eauto|].
  destruct (take_cpu_ok cpus ss i b Hb Hne) as (b1 & -> & Hb1 & Hl1). cbn.
  destruct (IH b1 Hb1 Hne) as (b2 & -> & Hb2 & Hl2). exists b2. split_and!; [done..|lia].
Qed.

(** The complete slots. *)
Record complete (c : nat) (cpus : list CPU) (wg : list Z) (p : gmap Z Z) (ss : list slot) : Prop := {
  co_len : List.length wg = List.length cpus;
  co_bal : balanced wg;
  co_slots : ∀ s, s ∈ ss → List.length (slot_cpus s) = c ∧ entities_count s = 0 ∧
    ∀ x, x ∈ slot_cpus s → x ∈ cpus;
  co_peer : ∀ q v, p !! q = Some v →
    0 <= v < List.length ss ∧ ∃ s, ss !! Z.to_nat v = Some s ∧ ∃ x, x ∈ slot_cpus s ∧ i32 (c_id x) = q
}.

Lemma make_slots_ok n c cpus : ∀ wg p ss,
  complete c cpus wg p ss → cpus ≠ [] →
  ∃ wg' p' ss', make_slots n c cpus (List.length ss) wg p ss = Some (wg', p', ss') ∧
    complete c cpus wg' p' ss' ∧ List.length ss' = (n + List.length ss)%nat.
Proof.
  induction n as [|n IH]; intros wg p ss [Hl Hb Hs Hp] Hne; cbn [make_slots].
  { eexists _, _, _. split; [done|]. split; [by split|done]. }
  destruct (take_cpus_ok c cpus ss (List.length ss) (mkBuild wg p [])) as (b & -> & [Hl' Hb' Hs' Hp'] & Hn); [|done|].
  { split; cbn; [done|done|set_solver|]. intros q v Hq. right. apply Hp in Hq. tauto. }
  cbn. cbn in Hn. rewrite Nat.add_0_r in Hn.
  replace (List.length ss + 1) with (Z.of_nat (List.length (ss ++ [mkSlot (taken b) 0])))
    by (rewrite length_app; cbn; lia).
  destruct (IH (load b) (peer b) (ss ++ [mkSlot (taken b) 0])) as (wg' & p' & ss' & -> & Hc & Hlen); [|done|].
  - split; [done|done| |].
    + intros s [?| ->%list_elem_of_singleton]%elem_of_app; [auto|]. cbn. auto.
    + intros q v Hq. rewrite length_app. cbn [List.length].
      destruct (Hp' q v Hq) as [(-> & x & ? & ?)|(? & s & Hss & x & ? & ?)].
      * split; [lia|]. exists (mkSlot (taken b) 0). rewrite lookup_app_r by lia.
        rewrite Nat2Z.id, Nat.sub_diag. split; [done|]. cbn. eauto.
      * split; [lia|]. exists s. split; [by apply lookup_app_l_Some|]. eauto.
  - eexists _, _, _. split; [done|]. split; [done|]. rewrite Hlen, length_app. cbn. lia.
Qed.

(** Every slot has as many workers as asked for. *)
Lemma take_cpus_length n cpus i : ∀ b b', take_cpus n cpus i b = Some b' →
  List.length (taken b') = (n + List.length (taken b))%nat.
Proof.
  induction n as [|n IH]; intros b b'; cbn [take_cpus]; [by intros [= <-]|].
  unfold take_cpu. destruct (min_index _); [|done]. cbn [mbind option_bind]. destruct (cpus !! _); [|done]. cbn [mbind option_bind].
  intros ->%IH. cbn. rewrite length_app. cbn. lia.
Qed.

Lemma make_slots_workers n c cpus : ∀ i wg p ss wg' p' ss', make_slots n c cpus i wg p ss = Some (wg', p', ss') →
  (∀ s, s ∈ ss → List.length (slot_cpus s) = c) → ∀ s, s ∈ ss' → List.length (slot_cpus s) = c.
Proof.
  induction n as [|n IH]; intros i wg p ss wg' p' ss'; cbn [make_slots]; [by intros [= _ _ <-]|].
  destruct (take_cpus _ _ _ _) as [b|] eqn:Eb; [|done]. cbn [mbind option_bind]. intros E Hss. eapply IH; [exact E|].
  intros s [Hs| ->%list_elem_of_singleton]%elem_of_app; [by apply Hss|]. cbn. rewrite (take_cpus_length _ _ _ _ _ Eb). cbn. lia.
Qed.

Lemma make_workers hw id o cpus wg g wg' : make hw id o cpus wg = Some (g, wg') →
  ∀ s, s ∈ slots g → List.length (slot_cpus s) = Z.to_nat (concurrency hw o).
Proof.
  unfold make. destruct (slots_count _ _ _) as [n|]; [|done]. cbn [mbind option_bind].
  destruct (make_slots _ _ _ _ _ _ _) as [[[wg1 p] ss]|] eqn:E; [|done]. cbn. intros [= <- <-]. cbn.
  eapply make_slots_workers; [exact E|]. by intros s ?%not_elem_of_nil.
Qed.

(** ** Entities *)
(** The number of entities the map sends to slot [k]. *)
Definition load_of (m : gmap Z Z) (k : Z) : nat := size (filter (λ kv, kv.2 = k) m).

Record wf (g : t) : Prop := {
  wf_slots : slots g ≠ [];
  wf_keys : ∀ e i, entities_peer_slot g !! e = Some i → 0 <= e < 2 ^ 16 ∧ 0 <= i < List.length (slots g);
  wf_count : ∀ (k : nat) s, slots g !! k = Some s → entities_count s = load_of (entities_peer_slot g) k;
  wf_cpus : ∀ p i, cpus_peer_slot g !! p = Some i → 0 <= i < List.length (slots g)
}.

Lemma load_of_insert m e i k :
  m !! e = None → load_of (<[e := i]> m) k = (if decide (i = k) then S (load_of m k) else load_of m k).
Proof.
  intros He. unfold load_of. destruct (decide (i = k)) as [->|Hne].
  - rewrite map_filter_insert_True by done. apply map_size_insert_None.
    rewrite map_lookup_filter_None. auto.
  - rewrite map_filter_insert_False by done. by rewrite delete_id.
Qed.

Lemma load_of_delete m e i k :
  m !! e = Some i →
  load_of m k = (if decide (i = k) then S (load_of (base.delete e m) k) else load_of (base.delete e m) k).
Proof.
  intros He. rewrite <- (insert_delete_id m e i He) at 1. rewrite load_of_insert; [done|].
  apply lookup_delete_eq.
Qed.

Lemma load_of_bound m k :
  (∀ e i, m !! e = Some i → 0 <= e < 2 ^ 16) → load_of m k <= 2 ^ 16.
Proof.
  intros Hk. unfold load_of. rewrite <- (size_dom (D := gset Z)).
  assert (dom (filter (λ kv, kv.2 = k) m) ⊆ list_to_set (C := gset Z) (seqZ 0 (2 ^ 16))) as Hsub.
  { intros e [i Hi]%elem_of_dom. apply map_lookup_filter_Some in Hi as [Hi _].
    apply elem_of_list_to_set, elem_of_seqZ. apply Hk in Hi. lia. }
  apply subseteq_size in Hsub. rewrite size_list_to_set in Hsub by apply NoDup_seqZ.
  rewrite length_seqZ in Hsub. lia.
Qed.

Lemma lookup_alter_slots (ss : list slot) k f j s :
  alter f k ss !! j = Some s → ∃ s0, ss !! j = Some s0 ∧ s = if decide (j = k) then f s0 else s0.
Proof.
  destruct (decide (j = k)) as [->|Hne].
  - rewrite list_lookup_alter_eq. destruct (ss !! k) as [s0|]; [|done]. intros [= <-]. eauto.
  - rewrite list_lookup_alter_ne by done. eauto.
Qed.

Lemma min_slot_some g : wf g →
  ∃ k s, min_index (map (λ s, ExecutorSlot.get_util (entities_count s)) (slots g)) = Some k ∧
    slots g !! k = Some s ∧ ∀ s', s' ∈ slots g → entities_count s <= entities_count s'.
Proof.
  intros Hw. destruct (min_index_some (map (λ s, ExecutorSlot.get_util (entities_count s)) (slots g))) as [k Hk].
  { intros E%map_eq_nil. by apply (wf_slots _ Hw). }
  destruct (min_index_spec _ _ Hk) as (v & Hv & Hm). rewrite list_lookup_fmap in Hv.
  destruct (slots g !! k) as [s|] eqn:Hs; [|done]. injection Hv as <-. exists k, s.
  split_and!; [done..|]. intros s' Hs'. apply Hm. apply list_elem_of_fmap. eauto.
Qed.

Lemma Unpack_snd_range v : 0 <= (Unpack v).2 < 2 ^ 16.
Proof. apply uwrap_range. lia. Qed.

(** What a task with a tag does to the group. *)
Lemma post_by_tag_ok x g :
  wf g → es_tag (task_state x) ≠ INVALID_OBJECT_ID →
  ∃ g' i, post_by_tag x g = Some (g', ToSlot i x) ∧ wf g' ∧
    entities_peer_slot g' !! (Unpack (es_tag (task_state x))).2 = Some i ∧
    (∀ e j, entities_peer_slot g !! e = Some j → entities_peer_slot g' !! e = Some j) ∧
    cpus_peer_slot g' = cpus_peer_slot g ∧
    (entities_peer_slot g !! (Unpack (es_tag (task_state x))).2 = None →
      ∃ s, slots g !! Z.to_nat i = Some s ∧ ∀ s', s' ∈ slots g → entities_count s <= entities_count s').
Proof.
  intros Hw Ht. unfold post_by_tag. rewrite (proj2 (Z.eqb_neq _ _) Ht).
  set (e := (Unpack (es_tag (task_state x))).2).
  destruct (entities_peer_slot g !! e) as [i|] eqn:He.
  - destruct (wf_keys _ Hw e i He) as [_ Hi].
    rewrite (proj2 (Z.leb_le 0 i)), (proj2 (Z.ltb_lt i _)) by lia. cbn. exists g, i. by split_and!.
  - destruct (min_slot_some g Hw) as (k & s & -> & Hs & Hm). cbn.
    eexists _, (Z.of_nat k). split; [done|]. cbn. split_and!.
    + destruct Hw as [H1 H2 H3 H4]. split; cbn.
      * intros E%(f_equal List.length). rewrite length_alter in E. by destruct (slots g).
      * intros e' i'. rewrite lookup_insert_Some, length_alter. intros [[<- <-]|[_ ?]]; [|by apply H2].
        split; [apply Unpack_snd_range|]. apply lookup_lt_Some in Hs. lia.
      * intros k' s' (s0 & Hs0 & ->)%lookup_alter_slots. rewrite load_of_insert by done.
        pose proof (H3 k' s0 Hs0) as Hc. pose proof (load_of_bound (entities_peer_slot g) k') as Hb.
        destruct (decide (k' = k)) as [->|Hne].
        -- rewrite decide_True by done. cbn. unfold ExecutorSlot.add_entity.
           rewrite Hc, swrap_small; [lia| |lia].
           specialize (Hb ltac:(intros ? ? ?; eapply H2; eauto)). lia.
        -- rewrite decide_False by lia. done.
      * intros p i' ?. rewrite length_alter. by eapply H4.
    + by rewrite lookup_insert_eq.
    + intros e' j Hj. rewrite lookup_insert_ne; [done|]. intros E. subst e'. by pose proof (eq_trans (eq_sym He) Hj).
    + done.
    + intros _. exists s. by rewrite Nat2Z.id.
Qed.

Lemma DeleteEntity_ok e g :
  wf g → ∃ g', DeleteEntity e g = Some g' ∧ wf g' ∧ entities_peer_slot g' = base.delete e (entities_peer_slot g) ∧
    cpus_peer_slot g' = cpus_peer_slot g.
Proof.
  intros Hw. unfold DeleteEntity. destruct (entities_peer_slot g !! e) as [i|] eqn:He.
  2: { exists g. rewrite delete_id by done. done. }
  destruct (wf_keys _ Hw e i He) as [_ Hi].
  rewrite (proj2 (Z.leb_le 0 i)), (proj2 (Z.ltb_lt i _)) by lia. cbn.
  eexists. split; [done|]. split; [|done]. destruct Hw as [H1 H2 H3 H4]. split; cbn.
  - intros E%(f_equal List.length). rewrite length_alter in E. by destruct (slots g).
  - intros e' i' [_ ?]%lookup_delete_Some. rewrite length_alter. by apply H2.
  - intros k s (s0 & Hs0 & ->)%lookup_alter_slots.
    pose proof (H3 k s0 Hs0) as Hc. rewrite (load_of_delete _ e i) in Hc by done.
    destruct (decide (k = Z.to_nat i)) as [->|Hne].
    + rewrite decide_True in Hc by lia. cbn. unfold ExecutorSlot.delete_entity.
      destruct (Z.leb_spec (entities_count s0) 0); lia.
    + rewrite decide_False in Hc by lia. done.
  - intros p i' ?. rewrite length_alter. by eapply H4.
Qed.

Lemma Post_ok clock x g :
  wf g → ∃ g' tg, Post clock x g = Some (g', tg) ∧ wf g' ∧
    (∀ e j, entities_peer_slot g !! e = Some j → entities_peer_slot g' !! e = Some j) ∧
    cpus_peer_slot g' = cpus_peer_slot g.
Proof.
  intros Hw. unfold Post. destruct (_ <=? 0); [|by eexists _, _].
  assert (∀ x, ∃ g' tg, post_by_tag x g = Some (g', tg) ∧ wf g' ∧
    (∀ e j, entities_peer_slot g !! e = Some j → entities_peer_slot g' !! e = Some j) ∧
    cpus_peer_slot g' = cpus_peer_slot g) as Htag.
  { intros y. destruct (decide (es_tag (task_state y) = INVALID_OBJECT_ID)) as [E|E].
    - unfold post_by_tag. rewrite E, Z.eqb_refl. rewrite decide_False by apply Hw. by eexists _, _.
    - destruct (post_by_tag_ok y g Hw E) as (g' & i & ? & ? & ? & ? & ? & _). by eexists _, _. }
  destruct (_ =? INVALID_OBJECT_ID); [apply Htag|].
  destruct (cpus_peer_slot g !! _) as [i|] eqn:Hi; [|apply Htag].
  pose proof (wf_cpus _ Hw _ _ Hi).
  rewrite (proj2 (Z.leb_le 0 i)), (proj2 (Z.ltb_lt i _)) by lia. cbn. by eexists _, _.
Qed.

(** ** Sequences of calls *)
Inductive op := OpPost (clock : Z) (x : task) | OpDelete (e : Z).

Definition exec (g : t) (o : op) : option t :=
  match o with
  | OpPost clock x => fst <$> Post clock x g
  | OpDelete e => DeleteEntity e g
  end.

Fixpoint run (g : t) (os : list op) : option t :=
  match os with
  | [] => Some g
  | o :: os' => g' ← exec g o; run g' os'
  end.

Lemma run_ok os : ∀ g, wf g → ∃ g', run g os = Some g' ∧ wf g' ∧ cpus_peer_slot g' = cpus_peer_slot g ∧
  ∀ e j, entities_peer_slot g !! e = Some j → (OpDelete e ∉ os) → entities_peer_slot g' !! e = Some j.
Proof.
  induction os as [|o os IH]; intros g Hw; cbn [run]; [by exists g|].
  assert (∃ g1, exec g o = Some g1 ∧ wf g1 ∧ cpus_peer_slot g1 = cpus_peer_slot g ∧
    ∀ e j, entities_peer_slot g !! e = Some j → o ≠ OpDelete e → entities_peer_slot g1 !! e = Some j)
    as (g1 & -> & Hw1 & Hc1 & He1).
  { destruct o as [clock x|e]; cbn [exec].
    - destruct (Post_ok clock x g Hw) as (g1 & tg & -> & ? & ? & ?). exists g1. cbn. auto.
    - destruct (DeleteEntity_ok e g Hw) as (g1 & -> & ? & E & ?). exists g1. split_and!; try done.
      intros e' j Hj Hne. rewrite E, lookup_delete_ne by congruence. done. }
  cbn. destruct (IH g1 Hw1) as (g2 & -> & Hw2 & Hc2 & He2). exists g2. split_and!; [done..|congruence|].
  intros e j Hj Hn. apply He2; [|set_solver]. apply He1; [done|]. set_solver.
Qed.

Lemma make_complete hw id o cpus wg n :
  cpus ≠ [] → List.length wg = List.length cpus → balanced wg →
  slots_count hw (List.length cpus) o = Some n →
  ∃ g wg', make hw id o cpus wg = Some (g, wg') ∧ 1 <= n ∧ Z.of_nat (List.length (slots g)) = n ∧
    complete (Z.to_nat (concurrency hw o)) cpus wg' (cpus_peer_slot g) (slots g) ∧ wf g.
Proof.
  intros Hne Hl Hb Hn.
  assert (1 <= n) as Hn1.
  { unfold slots_count in Hn. destruct (_ =? 0); [done|]. destruct (max_cpus _ _); [|done].
    cbn in Hn. injection Hn as <-. lia. }
  destruct (make_slots_ok (Z.to_nat n) (Z.to_nat (concurrency hw o)) cpus wg ∅ []) as (wg' & p & ss & Hm & Hc & Hlen);
    [split; try done; set_solver|done|].
  exists (mk id (wo_name o) ∅ p ss), wg'. cbn in Hlen. split_and!; try done.
  - unfold make. rewrite Hn. cbn. change (Z.of_nat (List.length (@nil slot))) with 0 in Hm. by rewrite Hm.
  - cbn. lia.
  - destruct Hc as [_ _ C3 C4]. split; cbn; try done.
    + intros E. rewrite E in Hlen. cbn in Hlen. lia.
    + intros k s Hs. apply list_elem_of_lookup_2, C3 in Hs as (_ & -> & _).
      unfold load_of. by rewrite map_filter_empty.
    + intros q i Hq. by apply C4 in Hq as [? _].
Qed.

(** A task whose delay is over goes to a slot. *)
Lemma post_due clock x g :
  wf g → get_delay clock x <= 0 →
  ∃ g' i, Post clock x g = Some (g', ToSlot i (set_execution_state_wg (g_id g) x)).
Proof.
  intros Hw Hd. destruct (Post_ok clock x g Hw) as (g' & tg & E & _). rewrite E.
  unfold Post in E. change (get_delay clock (set_execution_state_wg (g_id g) x)) with (get_delay clock x) in E.
  rewrite (proj2 (Z.leb_le _ _) Hd) in E. unfold post_by_tag in E.
  repeat (case_match || (destruct (min_index _); cbn in E)); simplify_eq; eauto.
Qed.

(** Where [Post] sends a task: the task has the group's number, a slot is one of the group's, and only a
    task whose delay is not over goes to the scheduler. *)
Lemma post_by_tag_target x g g' tg : wf g → post_by_tag x g = Some (g', tg) →
  List.length (slots g') = List.length (slots g) ∧ ∃ i, tg = ToSlot i x ∧ 0 <= i < List.length (slots g).
Proof.
  intros Hw. unfold post_by_tag. destruct (_ =? _).
  - destruct (decide _) as [|Hne]; [done|]. intros [= <- <-]. split; [done|]. exists 0. split; [done|].
    destruct (slots g); [done|cbn; lia].
  - destruct (entities_peer_slot g !! _) as [i|] eqn:He.
    + destruct (_ && _); [|done]. intros [= <- <-]. split; [done|]. exists i. split; [done|]. by apply (wf_keys _ Hw) in He as [_ ?].
    + destruct (min_slot_some g Hw) as (k & s & -> & Hk & _). cbn. intros [= <- <-]. cbn. rewrite length_alter.
      split; [done|]. exists k. split; [done|]. apply lookup_lt_Some in Hk. lia.
Qed.

Lemma Post_target clock x g g' tg : wf g → Post clock x g = Some (g', tg) →
  List.length (slots g') = List.length (slots g) ∧
  match tg with
  | ToSlot i y => y = set_execution_state_wg (g_id g) x ∧ get_delay clock x <= 0 ∧ 0 <= i < List.length (slots g)
  | ToScheduler y => y = set_execution_state_wg (g_id g) x ∧ 0 < get_delay clock x
  end.
Proof.
  intros Hw. unfold Post. set (y := set_execution_state_wg (g_id g) x).
  change (get_delay clock y) with (get_delay clock x). destruct (Z.leb_spec (get_delay clock x) 0) as [Hd|Hd].
  2: { intros [= <- <-]. done. }
  assert (post_by_tag y g = Some (g', tg) → List.length (slots g') = List.length (slots g) ∧
    match tg with ToSlot i z => z = y ∧ get_delay clock x <= 0 ∧ 0 <= i < List.length (slots g)
                | ToScheduler z => z = y ∧ 0 < get_delay clock x end) as Ht.
  { intros (Hl & i & -> & Hi)%post_by_tag_target; done. }
  destruct (_ =? _); [done|]. destruct (cpus_peer_slot g !! _) as [i|] eqn:Hi; [|done].
  destruct (_ && _); [|done]. intros [= <- <-]. split; [done|]. split; [done|]. split; [done|]. by apply (wf_cpus _ Hw) in Hi.
Qed.

Lemma DeleteEntity_length e g g' : DeleteEntity e g = Some g' → List.length (slots g') = List.length (slots g).
Proof.
  unfold DeleteEntity. intros E. repeat case_match; simplify_eq; cbn; by rewrite ?length_alter.
Qed.

End WorkGroup.
Import WorkGroup.

Lemma find_worker_some p ws : ∀ k w, w ∈ ws → ExecutorSlot.cpu_id w = p → is_Some (ExecutorSlot.find_worker p ws k).
Proof.
  induction ws as [|v ws IH]; intros k w Hin Hp; [set_solver|]. cbn.
  destruct (Z.eqb_spec (ExecutorSlot.cpu_id v) p); [eauto|].
  apply elem_of_cons in Hin as [->|Hin]; [done|by eapply IH].
Qed.

Definition plain_option (n : string) (c : Z) : WorkGroupOption :=
  mkOption n (double_of_Z 1) (double_of_Z 1) c.

Definition four_cpus : list CPU := [mkCPU 0 0; mkCPU 1 0; mkCPU 2 0; mkCPU 3 0].

(** a work group is built completely: on a non-empty set of processors whose loads
    differ by at most one, the constructor makes the computed number of slots (at least
    one), each with the requested number of workers on processors of the set; the loads
    it leaves still differ by at most one; and every processor of [cpus_peer_slot] leads
    to a slot that has a worker on it. *)
Theorem workgroup_make (hw id : Z) (o : WorkGroupOption) (cpus : list CPU) (wg : list Z) (n : Z) :
  cpus ≠ [] → List.length wg = List.length cpus → balanced wg →
  (∀ c, c ∈ cpus → 0 <= c_id c < 2 ^ 31) →
  slots_count hw (List.length cpus) o = Some n →
  ∃ g wg', make hw id o cpus wg = Some (g, wg') ∧
    1 <= n ∧ Z.of_nat (List.length (slots g)) = n ∧
    (∀ s, s ∈ slots g → List.length (slot_cpus s) = Z.to_nat (concurrency hw o) ∧ slot_cpus s ⊆ cpus) ∧
    List.length wg' = List.length cpus ∧ balanced wg' ∧ wf g ∧
    (∀ p i, cpus_peer_slot g !! p = Some i → ∃ s, slots g !! Z.to_nat i = Some s ∧
      is_Some (ExecutorSlot.find_worker p
        (ExecutorSlot.workers (ExecutorSlot.make (map c_id (slot_cpus s)) 0)) 0)).
Proof.
  intros Hne Hl Hb Hid Hn.
  destruct (make_complete hw id o cpus wg n Hne Hl Hb Hn) as (g & wg' & Hm & Hn1 & Hlen & [C1 C2 C3 C4] & Hw).
  exists g, wg'. split_and!; try done.
  - intros s Hs. destruct (C3 s Hs) as (? & ? & ?). by split.
  - intros q i Hq. destruct (C4 q i Hq) as (_ & s & Hs & x & Hx & <-). exists s. split; [done|].
    assert (0 <= c_id x < 2 ^ 31) as Hr by (apply Hid; by apply list_elem_of_lookup_2, C3 in Hs as (_ & _ & Hs); auto).
    rewrite swrap_small by lia.
    eapply (find_worker_some _ _ _ (ExecutorSlot.mkWorker (c_id x) [] false ExecutorSlot.AtWhile)); [|done].
    cbn. rewrite map_map. apply list_elem_of_fmap. eauto.
Qed.

Lemma workgroup_make_witness :
  ∃ g wg', make 4 0 (plain_option "main" 2) four_cpus [0; 0; 0; 0] = Some (g, wg') ∧
    1 <= 2 ∧ Z.of_nat (List.length (slots g)) = 2 ∧
    (∀ s, s ∈ slots g → List.length (slot_cpus s) = 2%nat ∧ slot_cpus s ⊆ four_cpus) ∧
    List.length wg' = 4%nat ∧ balanced wg' ∧ wf g ∧
    (∀ p i, cpus_peer_slot g !! p = Some i → ∃ s, slots g !! Z.to_nat i = Some s ∧
      is_Some (ExecutorSlot.find_worker p
        (ExecutorSlot.workers (ExecutorSlot.make (map c_id (slot_cpus s)) 0)) 0)).
Proof.
  apply (workgroup_make 4 0 (plain_option "main" 2) four_cpus [0; 0; 0; 0] 2).
  - discriminate.
  - reflexivity.
  - intros x y Hx Hy. repeat (apply elem_of_cons in Hx as [->|Hx] || apply not_elem_of_nil in Hx as []);
      repeat (apply elem_of_cons in Hy as [->|Hy] || apply not_elem_of_nil in Hy as []); lia.
  - intros c Hc. repeat (apply elem_of_cons in Hc as [->|Hc] || apply not_elem_of_nil in Hc as []); cbn; lia.
  - vm_compute. reflexivity.
Defined.

(** The processor of a task, if it has one, has no slot in the group. *)
Definition no_processor (x : task) (g : WorkGroup.t) : Prop :=
  es_processor (task_state x) = INVALID_OBJECT_ID ∨ cpus_peer_slot g !! i32 (es_processor (task_state x)) = None.

(** Then its slot is chosen by its entity. *)
Lemma post_no_processor c z h h' k z' : no_processor z h → WorkGroup.Post c z h = Some (h', ToSlot k z') →
  post_by_tag (set_execution_state_wg (g_id h) z) h = Some (h', ToSlot k z').
Proof.
  intros Hp. unfold WorkGroup.Post. destruct (_ <=? 0); [|done].
  cbn [set_execution_state_wg set_execution_state task_state es_processor].
  destruct Hp as [->|Hn]; [by rewrite Z.eqb_refl|]. rewrite Hn. by destruct (_ =? _).
Qed.

(** C28: an entity stays on its slot: once a task of an entity has gone to slot [i], every later task of
    the same entity that goes to a slot at all, its delay being over, goes to slot [i], whatever other tasks are posted and whichever other
    entities are deleted in between; the entity itself is not deleted in between, and neither task has a processor that has a slot
    in the group, which would decide its slot instead. *)
Theorem workgroup_entity_affinity (g g1 g2 g3 : WorkGroup.t) (c1 c2 : Z) (x y x' y' : task) (os : list WorkGroup.op) (i j : Z) :
  wf g → no_processor x g → no_processor y g2 →
  es_tag (task_state x) ≠ INVALID_OBJECT_ID → es_tag (task_state y) = es_tag (task_state x) →
  WorkGroup.Post c1 x g = Some (g1, ToSlot i x') →
  OpDelete (Unpack (es_tag (task_state x))).2 ∉ os → WorkGroup.run g1 os = Some g2 →
  WorkGroup.Post c2 y g2 = Some (g3, ToSlot j y') → j = i.
Proof.
  intros Hw Hpx Hpy Htx Hty H1 Hno H2 H3.
  apply post_no_processor in H1; [|done]. apply post_no_processor in H3; [|done].
  destruct (post_by_tag_ok (set_execution_state_wg (g_id g) x) g Hw) as (g' & i' & E1 & Hw1 & He1 & _); [done|].
  rewrite H1 in E1. injection E1 as <- <- _. cbn in He1.
  destruct (run_ok os g1 Hw1) as (g2' & E2 & Hw2 & _ & He2). rewrite H2 in E2. injection E2 as <-.
  apply He2 in He1; [|done].
  destruct (post_by_tag_ok (set_execution_state_wg (g_id g2) y) g2 Hw2) as (g3' & j' & E3 & _ & He3 & Hk3 & _).
  { cbn. by rewrite Hty. }
  rewrite H3 in E3. injection E3 as <- <- _. apply Hk3 in He1. cbn in He3. rewrite Hty in He3. congruence.
Qed.

Definition tagged (id : nat) (tag : Z) : task :=
  mkTask id (mkES tag INVALID_OBJECT_ID INVALID_OBJECT_ID None) 0 0.

(** Two slots and no entity. *)
Definition two_slots : WorkGroup.t := mk 0 "main" ∅ ∅ [mkSlot [mkCPU 0 0] 0; mkSlot [mkCPU 1 0] 0].

Lemma two_slots_wf : wf two_slots.
Proof.
  split; cbn; try done. intros [|[|k]] s [= <-]; cbn; unfold load_of; by rewrite map_filter_empty.
Qed.

(** A task of entity 5 for a processor without a slot. *)
Definition elsewhere : task := mkTask 4 (mkES 5 INVALID_OBJECT_ID 9 None) 0 0.

Lemma workgroup_entity_affinity_witness :
  ∃ g1 g2 g3 x' y' j, WorkGroup.Post 0 (tagged 1 5) two_slots = Some (g1, ToSlot 0 x') ∧
    WorkGroup.run g1 [OpPost 0 (tagged 2 6); OpPost 0 (tagged 3 7); OpDelete 6] = Some g2 ∧
    WorkGroup.Post 0 elsewhere g2 = Some (g3, ToSlot j y') ∧ j = 0.
Proof.
  do 6 eexists. split; [vm_compute; reflexivity|]. split; [vm_compute; reflexivity|].
  split; [vm_compute; reflexivity|].
  eapply (workgroup_entity_affinity two_slots _ _ _ 0 0 (tagged 1 5) elsewhere _ _
    [OpPost 0 (tagged 2 6); OpPost 0 (tagged 3 7); OpDelete 6]);
    [apply two_slots_wf|by left| |vm_compute; discriminate|reflexivity|vm_compute; reflexivity
    | |vm_compute; reflexivity|vm_compute; reflexivity].
  - right. vm_compute. reflexivity.
  - vm_compute. intros H. repeat (apply elem_of_cons in H as [[=]|H]). by apply not_elem_of_nil in H.
Defined.

(** the entity counters are exact and no call goes wrong: after any sequence of posts
    and deletions on a well-formed group, every call has returned, a slot's counter is the
    number of entities bound to it (so it is never negative), and a task of a new entity
    goes to a slot with the fewest. *)
Theorem workgroup_entity_counts (g : WorkGroup.t) (os : list WorkGroup.op) :
  wf g → ∃ g', WorkGroup.run g os = Some g' ∧
    (∀ (k : nat) s, slots g' !! k = Some s → entities_count s = load_of (entities_peer_slot g') k) ∧
    (∀ clock x, es_processor (task_state x) = INVALID_OBJECT_ID → es_tag (task_state x) ≠ INVALID_OBJECT_ID →
      get_delay clock x <= 0 → entities_peer_slot g' !! (Unpack (es_tag (task_state x))).2 = None →
      ∃ g'' i s, WorkGroup.Post clock x g' = Some (g'', ToSlot i (set_execution_state_wg (g_id g') x)) ∧
        slots g' !! Z.to_nat i = Some s ∧ ∀ s', s' ∈ slots g' → entities_count s <= entities_count s').
Proof.
  intros Hw. destruct (run_ok os g Hw) as (g' & Hr & Hw' & _). exists g'. split; [done|].
  split; [apply Hw'|]. intros clock x Hp Ht Hd He.
  destruct (post_by_tag_ok (set_execution_state_wg (g_id g') x) g' Hw') as (g'' & i & E & _ & _ & _ & _ & Hm); [done|].
  destruct (Hm He) as (s & Hs & Hmin). exists g'', i, s. split; [|done].
  unfold WorkGroup.Post. change (get_delay clock (set_execution_state_wg (g_id g') x)) with (get_delay clock x).
  rewrite (proj2 (Z.leb_le _ _) Hd). cbn [set_execution_state_wg set_execution_state task_state es_processor].
  by rewrite Hp, Z.eqb_refl.
Qed.

Lemma workgroup_entity_counts_witness :
  ∃ g', WorkGroup.run two_slots [OpPost 0 (tagged 1 5); OpPost 0 (tagged 2 6); OpDelete 5] = Some g' ∧
    (∀ (k : nat) s, slots g' !! k = Some s → entities_count s = load_of (entities_peer_slot g') k) ∧
    (∀ clock x, es_processor (task_state x) = INVALID_OBJECT_ID → es_tag (task_state x) ≠ INVALID_OBJECT_ID →
      get_delay clock x <= 0 → entities_peer_slot g' !! (Unpack (es_tag (task_state x))).2 = None →
      ∃ g'' i s, WorkGroup.Post clock x g' = Some (g'', ToSlot i (set_execution_state_wg (g_id g') x)) ∧
        slots g' !! Z.to_nat i = Some s ∧ ∀ s', s' ∈ slots g' → entities_count s <= entities_count s').
Proof.
  apply (workgroup_entity_counts two_slots [OpPost 0 (tagged 1 5); OpPost 0 (tagged 2 6); OpDelete 5]).
  apply two_slots_wf.
Defined.
