(* ===== verification/Executor.v ===== *)
(** * Executors (IExecutor and Executor in include/ar/executor.hpp and src/executor.cpp) *)
From S2P Require Import Prelude.
From S2P Require Import Task.
From S2P Require Import Numbers.
From S2P Require Import WorkGroup.

Inductive ExecutorType := kCPU_EXECUTOR | kIO_EXECUTOR | kUSER_EXECUTOR.

#[global] Instance executor_type_eq_dec : EqDecision ExecutorType.
Proof. solve_decision. Defined.

(** ** The base class *)
Module IExecutor.

Record t := mk { name : string; type : ExecutorType; entities_count : Z; index : Z }.

Definition make (n : string) (ty : ExecutorType) : t := mk n ty 0 0.

Definition MAX_ENTITIES : Z := 500.

Definition SetIndex (i : Z) (e : t) : t := mk (name e) (type e) (entities_count e) i.

Definition add_count (e : t) : t := mk (name e) (type e) (i32 (entities_count e + 1)) (index e).

(** [fetch_sub], then a store of 0 when the old value was not positive. *)
Definition sub_count (e : t) : t :=
  mk (name e) (type e) (if entities_count e <=? 0 then 0 else entities_count e - 1) (index e).

(** The base implementations. *)
Definition AddEntity (e : t) : t * Z := (add_count e, 0).

Definition DeleteEntity (id : Z) (e : t) : t := sub_count e.

Definition GetEntitiesCount (e : t) : Z := entities_count e.

Definition GetMaxEntitiesCount (e : t) : Z := MAX_ENTITIES.

End IExecutor.

(** ** The CPU executor *)
Module Executor.

Record t := mk {
  base : IExecutor.t;
  self : nat;                     (* its address *)
  entities_inc : Z;               (* std::atomic_uint16_t *)
  groups : list WorkGroup.t
}.

(** The constructor's loop over the options. *)
Fixpoint make_groups (hw i : Z) (os : list WorkGroupOption) (cpus : list CPU) (wg : list Z)
  : option (list WorkGroup.t) :=
  match os with
  | [] => Some []
  | o :: os' =>
      '(g, wg') ← WorkGroup.make hw i o cpus wg;
      gs ← make_groups hw (i + 1) os' cpus wg';
      Some (g :: gs)
  end.

(** [main_group = groups[0]]. *)
Definition make (hw : Z) (name : string) (self : nat) (cpus : list CPU) (os : list WorkGroupOption) : option t :=
  gs ← make_groups hw 0 os cpus (replicate (List.length cpus) 0);
  match gs with
  | [] => None
  | _ => Some (mk (IExecutor.make name kCPU_EXECUTOR) self 0 gs)
  end.

Definition set_base (b : IExecutor.t) (e : t) : t := mk b (self e) (entities_inc e) (groups e).

Definition AddEntity (e : t) : t * Z :=
  let b := IExecutor.add_count (base e) in
  let i := entities_inc e in
  if 65500 <=? i then (mk b (self e) 0 (groups e), 0)
  else (mk b (self e) (u16 (i + 1)) (groups e), i).

Fixpoint delete_in_groups (id : Z) (gs : list WorkGroup.t) : option (list WorkGroup.t) :=
  match gs with
  | [] => Some []
  | g :: gs' => g' ← WorkGroup.DeleteEntity id g; r ← delete_in_groups id gs'; Some (g' :: r)
  end.

Definition DeleteEntity (id : Z) (e : t) : option t :=
  gs ← delete_in_groups id (groups e);
  Some (mk (IExecutor.sub_count (base e)) (self e) (entities_inc e) gs).

(** The group a task goes to, and what the group does with it. *)
Definition Post (clock : Z) (x : task) (e : t) : option (t * nat * WorkGroup.target) :=
  let st := task_state x in
  let x := set_execution_state (mkES (es_tag st) (es_work_group st) (es_processor st) (Some (self e))) x in
  let k := if es_work_group st =? INVALID_OBJECT_ID then 0%nat else Z.to_nat (es_work_group st) in
  if es_work_group st <? 0 then None
  else g ← groups e !! k;
       '(g', tg) ← WorkGroup.Post clock x g;
       Some (mk (base e) (self e) (entities_inc e) (<[k := g']> (groups e)), k, tg).

(** A task that is posted is routed by its group. *)
Lemma Post_group clock x e e' k tg : Post clock x e = Some (e', k, tg) → ∃ g g' y,
  groups e !! k = Some g ∧ WorkGroup.Post clock y g = Some (g', tg) ∧ task_id y = task_id x ∧ created_at y = created_at x ∧
  e' = mk (base e) (self e) (entities_inc e) (<[k := g']> (groups e)).
Proof.
  unfold Post. destruct (_ <? 0); [done|]. set (k0 := if _ =? _ then _ else _). set (y := set_execution_state _ x).
  destruct (groups e !! k0) as [g|] eqn:Hg; [|done]. cbn [mbind option_bind].
  destruct (WorkGroup.Post clock y g) as [[g' tg']|] eqn:Ep; [|done]. cbn. intros [= <- <- <-]. by exists g, g', y.
Qed.

(** [n] calls of [AddEntity]: the executor and the identifiers, in order. *)
Fixpoint add_entities (n : nat) (e : t) : t * list Z :=
  match n with
  | O => (e, [])
  | S n' => let '(e', i) := AddEntity e in let '(e'', l) := add_entities n' e' in (e'', i :: l)
  end.

Lemma AddEntity_low e : 0 <= entities_inc e < 65500 →
  snd (AddEntity e) = entities_inc e ∧ entities_inc (fst (AddEntity e)) = entities_inc e + 1.
Proof.
  intros H. unfold AddEntity. destruct (Z.leb_spec 65500 (entities_inc e)); [lia|]. cbn.
  split; [done|]. apply uwrap_small. lia.
Qed.

Lemma add_entities_low (n : nat) : ∀ e,
  0 <= entities_inc e → entities_inc e + n <= 65500 →
  entities_inc (fst (add_entities n e)) = entities_inc e + n ∧
  snd (add_entities n e) = seqZ (entities_inc e) n.
Proof.
  induction n as [|n IH]; intros e H0 Hn; cbn [add_entities].
  - cbn. split; [lia|done].
  - destruct (AddEntity_low e) as [Hi He]; [lia|].
    destruct (AddEntity e) as [e' i]. cbn in Hi, He. subst i.
    destruct (IH e') as [H1 H2]; [lia|lia|].
    destruct (add_entities n e') as [e'' l]. cbn in H1, H2 |- *. split; [lia|].
    rewrite H2, He. rewrite (seqZ_cons (entities_inc e)) by lia. do 2 f_equal. lia.
Qed.

Lemma add_entities_app n m e :
  snd (add_entities (n + m) e) = snd (add_entities n e) ++ snd (add_entities m (fst (add_entities n e))).
Proof.
  revert e. induction n as [|n IH]; intros e; [done|]. cbn [add_entities Nat.add].
  destruct (AddEntity e) as [e' i]. specialize (IH e').
  destruct (add_entities (n + m) e') as [e1 l1]. destruct (add_entities n e') as [e2 l2]. cbn in *.
  by rewrite IH.
Qed.

Lemma make_groups_ok hw os cpus : ∀ i wg,
  cpus ≠ [] → List.length wg = List.length cpus → WorkGroup.balanced wg →
  (∀ c, c ∈ cpus → 0 <= c_id c < 2 ^ 31) →
  (∀ o, o ∈ os → is_Some (WorkGroup.slots_count hw (List.length cpus) o)) →
  ∃ gs, make_groups hw i os cpus wg = Some gs ∧ List.length gs = List.length os ∧
    ∀ g, g ∈ gs → WorkGroup.wf g.
Proof.
  induction os as [|o os IH]; intros i wg Hne Hl Hb Hid Ho; cbn [make_groups].
  { exists []. split_and!; [done..|]. set_solver. }
  destruct (Ho o) as [n Hn]; [set_solver|].
  destruct (WorkGroup.make_complete hw i o cpus wg n) as (g & wg' & -> & _ & _ & [Hl' Hb' _ _] & Hw); [done..|]. cbn.
  destruct (IH (i + 1) wg') as (gs & -> & Hlen & Hgs); [done..|set_solver|].
  exists (g :: gs). cbn. split_and!; [done|lia|]. intros g0 [->|?]%elem_of_cons; auto.
Qed.

Lemma make_groups_workers hw os cpus : ∀ i wg gs, make_groups hw i os cpus wg = Some gs →
  ∀ g x, g ∈ gs → x ∈ WorkGroup.slots g → ∃ o, o ∈ os ∧ List.length (WorkGroup.slot_cpus x) = Z.to_nat (WorkGroup.concurrency hw o).
Proof.
  induction os as [|o os IH]; intros i wg gs; cbn [make_groups]; [intros [= <-]; by intros g x ?%not_elem_of_nil|].
  destruct (WorkGroup.make _ _ _ _ _) as [[g wg']|] eqn:Eg; [|done]. cbn [mbind option_bind].
  destruct (make_groups _ _ _ _ _) as [gs'|] eqn:Es; [|done]. intros [= <-] g0 x [->|Hg]%elem_of_cons Hx.
  - exists o. split; [left|]. by eapply WorkGroup.make_workers.
  - destruct (IH _ _ _ Es g0 x Hg Hx) as (o' & ? & ?). exists o'. split; [by right|done].
Qed.

Lemma delete_in_groups_ok id gs : (∀ g, g ∈ gs → WorkGroup.wf g) →
  ∃ gs', delete_in_groups id gs = Some gs' ∧ List.length gs' = List.length gs ∧
    ∀ g, g ∈ gs' → WorkGroup.wf g ∧ WorkGroup.entities_peer_slot g !! id = None.
Proof.
  induction gs as [|g gs IH]; intros Hw; cbn [delete_in_groups]; [exists []; set_solver|].
  destruct (WorkGroup.DeleteEntity_ok id g) as (g' & -> & Hw' & He & _); [set_solver|]. cbn.
  destruct IH as (gs' & -> & Hl & Hgs); [set_solver|]. cbn. exists (g' :: gs'). cbn. split; [done|].
  split; [lia|]. intros g0 [->|?]%elem_of_cons; [|auto]. split; [done|]. rewrite He. apply lookup_delete_eq.
Qed.

Lemma delete_in_groups_length id gs : ∀ gs', delete_in_groups id gs = Some gs' → List.length gs' = List.length gs.
Proof.
  induction gs as [|g gs IH]; intros gs' E; cbn in E; [by injection E as <-|].
  destruct (WorkGroup.DeleteEntity id g); [|done]. cbn in E. destruct (delete_in_groups id gs) as [gs1|]; [|done].
  injection E as <-. cbn. by rewrite (IH gs1).
Qed.

End Executor.
Import Executor.

(** A CPU executor on four processors with the default group and one more. *)
Definition sample_executor : option Executor.t :=
  Executor.make 4 "CPUExecutor_0" 0 four_cpus [plain_option "main" 0; plain_option "io" 2].

(** an executor is complete and its calls return: built on a non-empty set of
    processors, it has a group per option; posting a task without a delay, to a group that
    exists or to none, always finds a slot of that group (the main group when none is
    named), and the task carries the executor and the group; deleting an entity returns
    and leaves it in no group. *)
Theorem executor_posts (hw : Z) (name : string) (self : nat) (cpus : list CPU) (os : list WorkGroupOption) :
  cpus ≠ [] → os ≠ [] → (∀ c, c ∈ cpus → 0 <= c_id c < 2 ^ 31) →
  (∀ o, o ∈ os → is_Some (WorkGroup.slots_count hw (List.length cpus) o)) →
  ∃ e, Executor.make hw name self cpus os = Some e ∧ List.length (groups e) = List.length os ∧
    (∀ clock x, get_delay clock x <= 0 →
      (es_work_group (task_state x) = INVALID_OBJECT_ID ∨ 0 <= es_work_group (task_state x) < List.length os) →
      ∃ e' k g i y, Executor.Post clock x e = Some (e', k, WorkGroup.ToSlot i y) ∧
        k = (if es_work_group (task_state x) =? INVALID_OBJECT_ID then 0%nat else Z.to_nat (es_work_group (task_state x))) ∧
        groups e !! k = Some g ∧
        es_executor (task_state y) = Some self ∧ es_work_group (task_state y) = WorkGroup.g_id g ∧ task_id y = task_id x) ∧
    (∀ id, ∃ e', Executor.DeleteEntity id e = Some e' ∧
      ∀ g, g ∈ groups e' → WorkGroup.entities_peer_slot g !! id = None).
Proof.
  intros Hne Hos Hid Ho.
  destruct (make_groups_ok hw os cpus 0 (replicate (List.length cpus) 0)) as (gs & Hm & Hl & Hw); try done.
  { by rewrite length_replicate. }
  { intros a b [-> _]%elem_of_replicate [-> _]%elem_of_replicate. lia. }
  exists (mk (IExecutor.make name kCPU_EXECUTOR) self 0 gs).
  assert (gs ≠ []) as Hgs by (intros ->; by destruct os).
  split; [unfold make; rewrite Hm; cbn; by destruct gs|]. split; [done|]. split.
  - intros clock x Hd Hwg. cbn [groups].
    set (k := if es_work_group (task_state x) =? INVALID_OBJECT_ID then 0%nat else Z.to_nat (es_work_group (task_state x))).
    destruct (lookup_lt_is_Some_2 gs k) as [g Hg].
    { unfold k. destruct (Z.eqb_spec (es_work_group (task_state x)) INVALID_OBJECT_ID);
        [rewrite Hl; by destruct os; [|cbn; lia]|lia]. }
    assert (WorkGroup.wf g) as Hwf by (apply Hw; by eapply list_elem_of_lookup_2).
    set (x1 := set_execution_state (mkES (es_tag (task_state x)) (es_work_group (task_state x))
      (es_processor (task_state x)) (Some self)) x).
    destruct (WorkGroup.post_due clock x1 g Hwf Hd) as (g' & i & Hp).
    eexists _, k, g, i, (set_execution_state_wg (WorkGroup.g_id g) x1). split; [|by split_and!].
    unfold Post. cbn [Executor.groups Executor.self]. fold k. fold x1.
    destruct (Z.ltb_spec (es_work_group (task_state x)) 0).
    { destruct Hwg as [E|?]; [rewrite E in *; unfold INVALID_OBJECT_ID in *; lia|lia]. }
    rewrite Hg. cbn. by rewrite Hp.
  - intros id. destruct (delete_in_groups_ok id gs Hw) as (gs' & E & _ & Hgs').
    unfold DeleteEntity. cbn [groups]. rewrite E. cbn. eexists. split; [done|]. intros g Hin. by apply Hgs'.
Qed.

Lemma executor_posts_witness :
  ∃ e, sample_executor = Some e ∧ List.length (groups e) = 2%nat ∧
    (∀ clock x, get_delay clock x <= 0 →
      (es_work_group (task_state x) = INVALID_OBJECT_ID ∨ 0 <= es_work_group (task_state x) < 2%nat) →
      ∃ e' k g i y, Executor.Post clock x e = Some (e', k, WorkGroup.ToSlot i y) ∧
        k = (if es_work_group (task_state x) =? INVALID_OBJECT_ID then 0%nat else Z.to_nat (es_work_group (task_state x))) ∧
        groups e !! k = Some g ∧
        es_executor (task_state y) = Some 0%nat ∧ es_work_group (task_state y) = WorkGroup.g_id g ∧ task_id y = task_id x) ∧
    (∀ id, ∃ e', Executor.DeleteEntity id e = Some e' ∧
      ∀ g, g ∈ groups e' → WorkGroup.entities_peer_slot g !! id = None).
Proof.
  apply (executor_posts 4 "CPUExecutor_0" 0 four_cpus [plain_option "main" 0; plain_option "io" 2]).
  - discriminate.
  - discriminate.
  - intros c Hc. repeat (apply elem_of_cons in Hc as [->|Hc] || apply not_elem_of_nil in Hc as []); cbn; lia.
  - intros o Ho. apply elem_of_cons in Ho as [->|Ho]; [vm_compute; eauto|].
    apply elem_of_cons in Ho as [->|Ho]; [vm_compute; eauto|]. by apply not_elem_of_nil in Ho.
Defined.

(** entity identifiers run from 0 to 65499 without repetition; the 65501st call
    starts over at 0, and so does the one after it, so that two entities in a row
    get the same identifier. *)
Theorem executor_entity_ids (e : Executor.t) :
  entities_inc e = 0 →
  snd (add_entities (Z.to_nat 65500) e) = seqZ 0 65500 ∧
  snd (add_entities (Z.to_nat 65500 + 2) e) = seqZ 0 65500 ++ [0; 0].
Proof.
  intros H0. destruct (add_entities_low (Z.to_nat 65500) e) as [H1 H2]; [lia|lia|].
  rewrite H0, Z2Nat.id in * by lia. split; [done|]. rewrite add_entities_app, H2. f_equal.
  set (e1 := fst (add_entities (Z.to_nat 65500) e)) in *. cbn [add_entities].
  unfold AddEntity at 1. destruct (Z.leb_spec 65500 (entities_inc e1)); [|lia]. done.
Qed.

Definition bare_executor : Executor.t := mk (IExecutor.make "CPUExecutor_0" kCPU_EXECUTOR) 0 0 [].

Lemma executor_entity_ids_witness :
  snd (add_entities (Z.to_nat 65500) bare_executor) = seqZ 0 65500 ∧
  snd (add_entities (Z.to_nat 65500 + 2) bare_executor) = seqZ 0 65500 ++ [0; 0].
Proof. apply (executor_entity_ids bare_executor). reflexivity. Defined.
