(* ===== verification/CpuHelper.v ===== *)
(** * Processors and memory nodes (src/cpu_helper.cpp)

    The number of hardware threads and the node of a processor come from the platform
    and are arguments.  [None] is an index out of [nodes], or a float that does not
    convert. *)
From Stdlib Require Import SpecFloat.
From S2P Require Import Prelude.
From S2P Require Import WorkGroup.

Record NumaNode := mkNode { n_id : Z; n_cpus : list CPU }.

(** [std::vector<NumaNode> nodes(count)]. *)
Definition empty_node : NumaNode := mkNode 0 [].

Definition GetCPUs (hw : nat) (node_of_cpu : Z → Z) : list CPU :=
  map (λ i, mkCPU i (node_of_cpu i)) (seqZ 0 hw).

(** [nodes[n].id = n; nodes[n].cpus.push_back(cpu)]. *)
Definition add_cpu (nodes : list NumaNode) (c : CPU) : option (list NumaNode) :=
  let n := numa_node_id c in
  if (0 <=? n) && (n <? List.length nodes) then
    Some (alter (λ d, mkNode n (n_cpus d ++ [c])) (Z.to_nat n) nodes)
  else None.

Fixpoint add_cpus (nodes : list NumaNode) (cs : list CPU) : option (list NumaNode) :=
  match cs with
  | [] => Some nodes
  | c :: cs' => ns ← add_cpu nodes c; add_cpus ns cs'
  end.

Definition GetNumaNodes (hw nodes_count : nat) (node_of_cpu : Z → Z) : option (list NumaNode) :=
  add_cpus (replicate nodes_count empty_node) (GetCPUs hw node_of_cpu).

(** Single precision. *)
Definition float_of_Z (z : Z) : spec_float := binary_normalize 24 128 z 0 false.

Definition fdiv (a b : spec_float) : spec_float := SFdiv 24 128 a b.

(** Towards minus infinity, for the values that are not negative here; it is also the
    conversion of a non-negative float to an integer. *)
Definition float_floor (f : spec_float) : option Z :=
  match f with
  | S754_zero _ => Some 0
  | S754_finite false m e => Some (if 0 <=? e then Zpos m * 2 ^ e else Zpos m `div` 2 ^ (- e))
  | _ => None
  end.

(** [static_cast<int>((float)hw) / (float)count], converted to [int]. *)
Definition node_cpus_count (hw count : Z) : option Z := float_floor (fdiv (float_of_Z hw) (float_of_Z count)).

Definition manual_node (per_node i : Z) : option Z := float_floor (fdiv (float_of_Z i) (float_of_Z per_node)).

Fixpoint manual_cpus (per_node : Z) (ids : list Z) : option (list CPU) :=
  match ids with
  | [] => Some []
  | i :: ids' => n ← manual_node per_node i; cs ← manual_cpus per_node ids'; Some (mkCPU i n :: cs)
  end.

Definition GetManualNumaNodes (hw count : nat) : option (list NumaNode) :=
  p ← node_cpus_count hw count;
  cs ← manual_cpus p (seqZ 0 hw);
  add_cpus (replicate count empty_node) cs.

(** Without NUMA support. *)
Definition GetNumaNodes_default (hw : nat) : option (list NumaNode) := GetNumaNodes hw 1 (λ _, 0).

Lemma add_cpus_single cs : ∀ d, (∀ c, c ∈ cs → numa_node_id c = 0) →
  ∃ d', add_cpus [d] cs = Some [d'] ∧ n_cpus d' = n_cpus d ++ cs.
Proof.
  induction cs as [|c cs IH]; intros d Hc; cbn [add_cpus].
  - exists d. by rewrite app_nil_r.
  - assert (add_cpu [d] c = Some [mkNode 0 (n_cpus d ++ [c])]) as ->
      by (unfold add_cpu; by rewrite (Hc c) by set_solver).
    cbn [mbind option_bind].
    destruct (IH (mkNode 0 (n_cpus d ++ [c]))) as (d' & -> & E); [set_solver|].
    exists d'. split; [done|]. rewrite E. cbn. by rewrite <- (assoc_L (++)).
Qed.

Lemma add_cpus_length cs : ∀ ns ns', add_cpus ns cs = Some ns' → List.length ns' = List.length ns.
Proof.
  induction cs as [|c cs IH]; intros ns ns'; cbn [add_cpus]; [by intros [= <-]|].
  unfold add_cpu. destruct (_ && _); [|done]. cbn [mbind option_bind]. intros H%IH.
  by rewrite H, length_alter.
Qed.

(** The whole machine, split by hand in [count] nodes: the numbers of processors. *)
Definition manual_shape (hw count : nat) : option (list nat) :=
  map (λ d, List.length (n_cpus d)) <$> GetManualNumaNodes hw count.

Definition manual_check (hw : nat) : bool :=
  forallb (λ count : nat,
    match manual_shape hw count with
    | Some l => (Nat.modulo hw count =? 0)%nat && bool_decide (l = replicate count (Nat.div hw count))
    | None => negb (Nat.modulo hw count =? 0)%nat
    end) (seq 1 hw).

(** by default every hardware thread is in the one node, in order. *)
Theorem default_node_has_all_cpus (hw : nat) :
  ∃ d, GetNumaNodes_default hw = Some [d] ∧ map c_id (n_cpus d) = seqZ 0 hw.
Proof.
  unfold GetNumaNodes_default, GetNumaNodes. cbn [replicate].
  destruct (add_cpus_single (GetCPUs hw (λ _, 0)) empty_node) as (d & E & Hd).
  { unfold GetCPUs. intros c (i & -> & _)%list_elem_of_fmap. done. }
  exists d. split; [done|]. rewrite Hd. cbn. unfold GetCPUs. rewrite map_map. by apply map_id.
Qed.

(** on every machine of at most 24 hardware threads, splitting it by hand in [count]
    nodes (1 to the number of threads) gives [count] equal nodes when [count] divides the
    number of threads, and indexes past the end of [nodes] otherwise. *)
Theorem manual_nodes_need_divisor (hw count : nat) :
  (1 <= hw <= 24)%nat → (1 <= count <= hw)%nat →
  manual_shape hw count =
    if (Nat.modulo hw count =? 0)%nat then Some (replicate count (Nat.div hw count)) else None.
Proof.
  intros Hh Hc.
  assert (forallb manual_check (seq 1 24) = true) as H by (vm_compute; reflexivity).
  rewrite forallb_forall in H. specialize (H hw (proj2 (in_seq 24 1 hw) ltac:(lia))).
  unfold manual_check in H. rewrite forallb_forall in H.
  specialize (H count (proj2 (in_seq hw 1 count) ltac:(lia))). cbv beta in H.
  destruct (manual_shape hw count) as [l|].
  - apply andb_true_iff in H as [-> H]. by apply bool_decide_eq_true in H as ->.
  - by apply negb_true_iff in H as ->.
Qed.

Lemma manual_nodes_need_divisor_witness : manual_shape 5 2 = None.
Proof. apply (manual_nodes_need_divisor 5 2); lia. Defined.
