(* ===== verification/Runtime.v ===== *)
(** * The runtime (include/ar/runtime.hpp, src/runtime.cpp)

    [Runtime] owns the executors, in a [std::map] that is iterated in key order: the CPU
    executors under 0, 1, ... and the others under the hash of their type.  An executor
    is named by a number given when it is created, its address. *)
From Stdlib Require Import Sorted.
From stdpp Require Import pretty.
From S2P Require Import Prelude.
From S2P Require Import Task.
From S2P Require Import Numbers.
From S2P Require Import WorkGroup.
From S2P Require Import Executor.
From S2P Require Import CpuHelper.

Module Runtime.

Definition MAX_GROUPS_COUNT : Z := 10.

Definition MAIN_WORK_GROUP : string := "main".

(** An entry of [executors]: a CPU executor, or one of another class. *)
Inductive any_executor := ACpu (e : Executor.t) | AOther (self : nat) (b : IExecutor.t).

Definition base_of (a : any_executor) : IExecutor.t :=
  match a with ACpu e => Executor.base e | AOther _ b => b end.

Definition self_of (a : any_executor) : nat :=
  match a with ACpu e => Executor.self e | AOther s _ => s end.

Definition GetType (a : any_executor) : ExecutorType := IExecutor.type (base_of a).

Definition GetIndex (a : any_executor) : Z := IExecutor.index (base_of a).

Definition GetEntitiesCount (a : any_executor) : Z := IExecutor.entities_count (base_of a).

Record t := mk {
  work_groups_option : list WorkGroupOption;
  executors : list (Z * any_executor);
  main_executor : option nat;
  io_executor : option nat;
  is_setup : bool;
  next_address : nat
}.

Definition make : t := mk [] [] None None false 0.

(** ** Work groups *)
(** The loop over the given options: the vector and whether it ended without throwing. *)
Fixpoint push_groups (os acc : list WorkGroupOption) : list WorkGroupOption * bool :=
  match os with
  | [] => (acc, true)
  | o :: os' =>
      if bool_decide (wo_name o = MAIN_WORK_GROUP) then (acc, false) else push_groups os' (acc ++ [o])
  end.

(** [{MAIN_WORK_GROUP, 1.0, 1.0, 0}]. *)
Definition main_group_option : WorkGroupOption :=
  mkOption MAIN_WORK_GROUP (double_of_Z 1) (double_of_Z 1) 0.

Definition SetupWorkGroups (os : list WorkGroupOption) (r : t) : t * bool :=
  let v := work_groups_option r ++ [main_group_option] in
  let '(v', ok) := if MAX_GROUPS_COUNT <? List.length v then (v, false) else push_groups os v in
  (mk v' (executors r) (main_executor r) (io_executor r) (is_setup r) (next_address r), ok).

Fixpoint group_index (name : string) (os : list WorkGroupOption) (i : Z) : Z :=
  match os with
  | [] => INVALID_OBJECT_ID
  | o :: os' => if bool_decide (wo_name o = name) then i else group_index name os' (i + 1)
  end.

Definition GetWorkGroup (name : string) (r : t) : Z := group_index name (work_groups_option r) 0.

(** ** Executors *)
(** [std::map::insert]: in key order, and nothing when the key is there. *)
Fixpoint map_insert (k : Z) (a : any_executor) (l : list (Z * any_executor)) : list (Z * any_executor) :=
  match l with
  | [] => [(k, a)]
  | (k', a') :: l' =>
      if k <? k' then (k, a) :: l else if k =? k' then l else (k', a') :: map_insert k a l'
  end.

Definition add_executor (k : Z) (a : any_executor) (r : t) : t :=
  mk (work_groups_option r) (map_insert k a (executors r)) (main_executor r) (io_executor r) (is_setup r)
    (S (next_address r)).

(** [CreateExecutor] for a class other than [Executor]; [hash] is its type's hash code. *)
Definition CreateExecutor (hash : Z) (name : string) (ty : ExecutorType) (r : t) : t * nat :=
  (add_executor hash (AOther (next_address r) (IExecutor.make name ty)) r, next_address r).

Definition set_main (m : option nat) (r : t) : t :=
  mk (work_groups_option r) (executors r) m (io_executor r) (is_setup r) (next_address r).

(** The loop of [CreateDefaultExecutors], from node [i] on. *)
Fixpoint create_cpu_executors (hw : Z) (i : Z) (nodes : list NumaNode) (r : t) : option t :=
  match nodes with
  | [] => Some r
  | n :: nodes' =>
      e ← Executor.make hw (String.app "CPUExecutor_" (pretty i)) (next_address r) (n_cpus n) (work_groups_option r);
      let e := Executor.set_base (IExecutor.SetIndex i (Executor.base e)) e in
      let m := match main_executor r with None => Some (Executor.self e) | Some x => Some x end in
      create_cpu_executors hw (i + 1) nodes' (add_executor i (ACpu e) (set_main m r))
  end.

(** [None] is an exception or undefined behaviour. *)
Definition CreateDefaultExecutors (hw : nat) (virtual_numa_nodes_count : nat) (r : t) : option t :=
  nodes ← (if (virtual_numa_nodes_count =? 0)%nat then GetNumaNodes_default hw
           else GetManualNumaNodes hw virtual_numa_nodes_count);
  r' ← create_cpu_executors hw 0 nodes r;
  match main_executor r' with None => None | Some _ => Some r' end.

Definition Setup (hw : nat) (io_hash : Z) (os : list WorkGroupOption) (virtual_nodes : nat) (r : t) : option t :=
  let '(r1, ok) := SetupWorkGroups os r in
  if ok then
    if is_setup r1 then Some r1
    else r2 ← CreateDefaultExecutors hw virtual_nodes r1;
         let '(r3, io) := CreateExecutor io_hash "io" kIO_EXECUTOR r2 in
         Some (mk (work_groups_option r3) (executors r3) (main_executor r3) (Some io) true (next_address r3))
  else None.

(** [Terminate]: the executors are deleted; the pointers to them are not reset. *)
Definition Terminate (r : t) : t :=
  if is_setup r then
    mk (work_groups_option r) [] (main_executor r) (io_executor r) false (next_address r)
  else r.

(** [CheckRuntime]'s assertions. *)
Definition CheckRuntime (r : t) : bool :=
  is_setup r && bool_decide (is_Some (io_executor r)) && bool_decide (is_Some (main_executor r)).

(** ** Choosing an executor *)
Definition INT_MAX : Z := 2 ^ 31 - 1.

(** The loop of [FetchFreeExecutor]. *)
Fixpoint fetch_free (ty : ExecutorType) (l : list (Z * any_executor)) (min : Z) (best : option (Z * any_executor))
  : option (Z * any_executor) :=
  match l with
  | [] => best
  | (k, a) :: l' =>
      if bool_decide (GetType a = ty) && (GetEntitiesCount a <? min)
      then fetch_free ty l' (GetEntitiesCount a) (Some (k, a))
      else fetch_free ty l' min best
  end.

Definition FetchFreeExecutor (ty : ExecutorType) (r : t) : option (Z * any_executor) :=
  fetch_free ty (executors r) INT_MAX None.

Definition FetchExecutor (ty : ExecutorType) (tag : Z) (r : t) : option (Z * any_executor) :=
  head (List.filter (λ ka, bool_decide (GetType ka.2 = ty) && (GetIndex ka.2 =? (Unpack tag).1)) (executors r)).

(** ** Entity tags *)
(** Writing an executor back under its key. *)
Definition put (k : Z) (a : any_executor) (r : t) : t :=
  mk (work_groups_option r) (map (λ ka, if ka.1 =? k then (k, a) else ka) (executors r))
    (main_executor r) (io_executor r) (is_setup r) (next_address r).

(** The virtual [AddEntity] and [DeleteEntity]. *)
Definition any_AddEntity (a : any_executor) : any_executor * Z :=
  match a with
  | ACpu e => let '(e', i) := Executor.AddEntity e in (ACpu e', i)
  | AOther s b => let '(b', i) := IExecutor.AddEntity b in (AOther s b', i)
  end.

Definition any_DeleteEntity (id : Z) (a : any_executor) : option any_executor :=
  match a with
  | ACpu e => ACpu <$> Executor.DeleteEntity id e
  | AOther s b => Some (AOther s (IExecutor.DeleteEntity id b))
  end.

Definition AddEntityTag (r : t) : t * Z :=
  match FetchFreeExecutor kCPU_EXECUTOR r with
  | Some (k, a) =>
      let '(a', entity) := any_AddEntity a in
      (put k a' r, Pack (i16 (GetIndex a')) (i16 entity))
  | None => (r, INVALID_OBJECT_ID)
  end.

Definition DeleteEntityTag (tag : Z) (r : t) : option t :=
  match FetchExecutor kCPU_EXECUTOR tag r with
  | Some (k, a) => a' ← any_DeleteEntity (Unpack tag).2 a; Some (put k a' r)
  | None => Some r
  end.

(** ** Posting *)
Inductive where_posted :=
| OnCpu (key : Z) (group : nat) (tg : WorkGroup.target)
| OnOther (key : Z) (x : task).

Definition any_Post (clock : Z) (x : task) (k : Z) (a : any_executor) (r : t) : option (t * where_posted) :=
  match a with
  | ACpu e => '(e', g, tg) ← Executor.Post clock x e; Some (put k (ACpu e') r, OnCpu k g tg)
  | AOther _ _ => Some (r, OnOther k x)
  end.

(** The executor at an address; [None] when it has been deleted. *)
Definition at_address (s : nat) (r : t) : option (Z * any_executor) :=
  head (List.filter (λ ka, (self_of ka.2 =? s)%nat) (executors r)).

Definition Post (clock : Z) (x : task) (r : t) : option (t * where_posted) :=
  match es_executor (task_state x) with
  | Some s => '(k, a) ← at_address s r; any_Post clock x k a r
  | None =>
      match (if es_tag (task_state x) =? INVALID_OBJECT_ID then FetchFreeExecutor kCPU_EXECUTOR r
             else FetchExecutor kCPU_EXECUTOR (es_tag (task_state x)) r) with
      | Some (k, a) => any_Post clock x k a r
      | None => m ← main_executor r; '(k, a) ← at_address m r; any_Post clock x k a r
      end
  end.

(** ** The map of executors *)
Definition keys (r : t) : list Z := map fst (executors r).

(** Keys strictly increase, and a CPU executor's index is its key. *)
Record wf (r : t) : Prop := {
  wf_sorted : StronglySorted Z.lt (keys r);
  wf_cpu : ∀ k a, (k, a) ∈ executors r → GetType a = kCPU_EXECUTOR →
    GetIndex a = k ∧ 0 <= k < 2 ^ 16 ∧ ∃ e, a = ACpu e ∧ 0 <= Executor.entities_inc e <= 65500
}.

Lemma map_insert_elem k a l x : x ∈ map_insert k a l → x = (k, a) ∨ x ∈ l.
Proof.
  induction l as [|[k' a'] l IH]; cbn; [set_solver|].
  destruct (k <? k'); [set_solver|]. destruct (k =? k'); [auto|]. set_solver.
Qed.

Lemma map_insert_keys k a l :
  StronglySorted Z.lt (map fst l) → StronglySorted Z.lt (map fst (map_insert k a l)).
Proof.
  induction l as [|[k' a'] l IH]; cbn; intros Hs; [by repeat constructor|].
  apply StronglySorted_inv in Hs as [Hs Hf].
  destruct (Z.ltb_spec k k'); cbn.
  - constructor; [by constructor|]. constructor; [done|]. eapply Forall_impl; [exact Hf|]. cbn. lia.
  - destruct (Z.eqb_spec k k'); cbn; [by constructor|]. constructor; [auto|].
    rewrite Forall_forall in *. intros y ([k0 a0] & -> & Hin)%list_elem_of_fmap. cbn.
    apply map_insert_elem in Hin as [[= -> ->]|Hin]; [lia|]. apply Hf. apply list_elem_of_fmap.
    by exists (k0, a0).
Qed.

Lemma keys_unique (l : list (Z * any_executor)) k a a' :
  StronglySorted Z.lt (map fst l) → (k, a) ∈ l → (k, a') ∈ l → a = a'.
Proof.
  induction l as [|[k0 a0] l IH]; cbn; intros Hs H1 H2; [set_solver|].
  apply StronglySorted_inv in Hs as [Hs Hf]. rewrite Forall_forall in Hf.
  assert (∀ b, (k0, b) ∉ l) as Hn.
  { intros b Hb. specialize (Hf k0). assert (k0 < k0); [|lia]. apply Hf, list_elem_of_fmap. by exists (k0, b). }
  apply elem_of_cons in H1 as [E1|H1]; apply elem_of_cons in H2 as [E2|H2]; simplify_eq.
  - done.
  - by apply Hn in H2.
  - by apply Hn in H1.
  - by apply IH.
Qed.

Lemma fetch_free_in ty l : ∀ min best k a,
  fetch_free ty l min best = Some (k, a) →
  best = Some (k, a) ∨ ((k, a) ∈ l ∧ GetType a = ty).
Proof.
  induction l as [|[k0 a0] l IH]; intros min best k a; cbn [fetch_free]; [auto|].
  destruct (bool_decide (GetType a0 = ty) && (GetEntitiesCount a0 <? min)) eqn:E; intros H.
  - apply IH in H as [[= -> ->]|[? ?]]; [|right; set_solver].
    apply andb_true_iff in E as [E%bool_decide_eq_true _]. right. split; [set_solver|done].
  - apply IH in H as [?|[? ?]]; [auto|right; set_solver].
Qed.

(** The result has the fewest entities. *)
Lemma fetch_free_min ty l : ∀ min best k a,
  (∀ k0 a0, best = Some (k0, a0) → GetEntitiesCount a0 = min) →
  fetch_free ty l min best = Some (k, a) →
  GetEntitiesCount a <= min ∧ ∀ k' a', (k', a') ∈ l → GetType a' = ty → GetEntitiesCount a <= GetEntitiesCount a'.
Proof.
  induction l as [|[k0 a0] l IH]; intros min best k a Hb H; cbn [fetch_free] in H.
  { split; [by rewrite (Hb k a H)|]. set_solver. }
  destruct (bool_decide (GetType a0 = ty) && (GetEntitiesCount a0 <? min)) eqn:E.
  - apply andb_true_iff in E as [_ E%Z.ltb_lt].
    apply IH in H as [H1 H2]; [|by intros ? ? [= _ ->]]. split; [lia|].
    intros k' a' [[= -> ->]|Hin]%elem_of_cons Ht; [lia|by eapply H2].
  - apply IH in H as [H1 H2]; [|done]. split; [done|].
    intros k' a' [[= -> ->]|Hin]%elem_of_cons Ht; [|by eapply H2].
    rewrite bool_decide_eq_true_2 in E by done. apply Z.ltb_ge in E. lia.
Qed.

Lemma FetchExecutor_unique ty tag r k a :
  wf r → ty = kCPU_EXECUTOR → (k, a) ∈ executors r → GetType a = ty → (Unpack tag).1 = k →
  FetchExecutor ty tag r = Some (k, a).
Proof.
  intros Hw -> Hin Ht Hk. unfold FetchExecutor.
  destruct (List.filter _ _) as [|[k' a'] l] eqn:E.
  - exfalso. apply list_elem_of_In in Hin. enough (In (k, a) []) by done.
    rewrite <- E. apply filter_In. split; [done|]. cbn.
    destruct (wf_cpu _ Hw k a ltac:(by apply list_elem_of_In) Ht) as [-> _].
    rewrite bool_decide_eq_true_2 by done. by apply Z.eqb_eq.
  - assert (In (k', a') ((k', a') :: l)) as Hin' by (by left). rewrite <- E in Hin'.
    apply filter_In in Hin' as [Hin' Hf]. cbn in Hf. apply andb_true_iff in Hf as [Ht'%bool_decide_eq_true Hi%Z.eqb_eq].
    apply list_elem_of_In in Hin'. destruct (wf_cpu _ Hw k' a' Hin' Ht') as [Hk' _].
    assert (k' = k) as -> by (rewrite <- Hk', <- Hk; exact Hi). cbn. do 2 f_equal. eapply keys_unique; [apply Hw|done|done].
Qed.

Lemma put_elem k a r x : x ∈ executors (put k a r) → x = (k, a) ∨ x ∈ executors r.
Proof.
  unfold put. cbn. intros (y & -> & Hy)%list_elem_of_fmap. destruct (y.1 =? k); auto.
Qed.

Lemma put_in k a a0 r : (k, a0) ∈ executors r → (k, a) ∈ executors (put k a r).
Proof.
  intros Hin. unfold put. cbn. apply list_elem_of_fmap. exists (k, a0). cbn. by rewrite Z.eqb_refl.
Qed.

Lemma put_keys k a r : keys (put k a r) = keys r.
Proof.
  unfold keys, put. cbn. rewrite map_map. apply map_ext. intros [k' a']. cbn.
  by destruct (Z.eqb_spec k' k) as [->|].
Qed.

Lemma AddEntity_base e :
  GetType (ACpu (Executor.AddEntity e).1) = GetType (ACpu e) ∧
  GetIndex (ACpu (Executor.AddEntity e).1) = GetIndex (ACpu e) ∧
  (0 <= Executor.entities_inc e <= 65500 →
    0 <= (Executor.AddEntity e).2 < 65500 ∧ 0 <= Executor.entities_inc (Executor.AddEntity e).1 <= 65500).
Proof.
  unfold Executor.AddEntity. destruct (Z.leb_spec 65500 (Executor.entities_inc e)); cbn; split_and!; try done; intros ?.
  split; [lia|]. rewrite uwrap_small; lia.
Qed.

Lemma put_wf k a a' r :
  wf r → (k, a) ∈ executors r → GetType a' = GetType a → GetIndex a' = GetIndex a →
  (∃ e, a' = ACpu e ∧ 0 <= Executor.entities_inc e <= 65500) → wf (put k a' r).
Proof.
  intros [Hs Hc] Hin Ht Hi He. split; [by rewrite put_keys|].
  intros k0 a0 [[= -> ->]|Hin0]%put_elem Ht0; [|by apply Hc].
  destruct (Hc k a Hin) as (Hk & Hr & _); [congruence|]. split_and!; [congruence|lia|lia|done].
Qed.

(** ... or with what [Post] leaves of it. *)
Lemma put_wf_base k e e' r : wf r → (k, ACpu e) ∈ executors r → Executor.base e' = Executor.base e →
  Executor.entities_inc e' = Executor.entities_inc e → wf (put k (ACpu e') r).
Proof.
  intros [Hs Hc] Hin Hb Hi. split; [by rewrite put_keys|].
  assert (GetType (ACpu e') = GetType (ACpu e)) as Ht by (unfold GetType; cbn; by rewrite Hb).
  assert (GetIndex (ACpu e') = GetIndex (ACpu e)) as Hx by (unfold GetIndex; cbn; by rewrite Hb).
  intros k0 a0 [[= -> ->]|Hin0]%put_elem Ht0; [|by apply Hc].
  destruct (Hc k (ACpu e) Hin) as (Hk & Hr & e0 & [= <-] & Hinc); [congruence|].
  split_and!; [congruence|lia|lia|]. exists e'. split; [done|]. by rewrite Hi.
Qed.

(** A task on a CPU executor was posted by that executor. *)
Lemma Post_cpu clock x r r' k i tg : Post clock x r = Some (r', OnCpu k i tg) → ∃ e e',
  (k, ACpu e) ∈ executors r ∧ Executor.Post clock x e = Some (e', i, tg) ∧ r' = put k (ACpu e') r.
Proof.
  assert (∀ k0 a, (k0, a) ∈ executors r → any_Post clock x k0 a r = Some (r', OnCpu k i tg) → ∃ e e',
    (k, ACpu e) ∈ executors r ∧ Executor.Post clock x e = Some (e', i, tg) ∧ r' = put k (ACpu e') r) as Hany.
  { intros k0 [e|s b] Hin; cbn; [|done]. destruct (Executor.Post clock x e) as [[[e' g] tg']|] eqn:Ep; [|done]. cbn.
    intros [= <- <- <- <-]. by exists e, e'. }
  assert (∀ s, ('(k0, a) ← at_address s r; any_Post clock x k0 a r) = Some (r', OnCpu k i tg) → ∃ e e',
    (k, ACpu e) ∈ executors r ∧ Executor.Post clock x e = Some (e', i, tg) ∧ r' = put k (ACpu e') r) as Hat.
  { intros s. unfold at_address. destruct (head _) as [[k0 a]|] eqn:E; [|done]. apply head_filter_elem in E as [Hin _].
    cbn [mbind option_bind]. by apply Hany. }
  unfold Post. destruct (es_executor (task_state x)) as [s|]; [apply Hat|].
  destruct (if _ =? _ then _ else _) as [[k0 a]|] eqn:E.
  - apply Hany. destruct (_ =? _); [by destruct (fetch_free_in _ _ _ _ _ _ E) as [?|[? _]]|].
    by apply head_filter_elem in E as [? _].
  - destruct (main_executor r) as [m|]; [|done]. cbn [mbind option_bind]. apply Hat.
Qed.

(** ** Set-up *)
Lemma create_cpu_executors_wf hw nodes : ∀ i r r',
  wf r → 0 <= i → i + List.length nodes <= 2 ^ 16 →
  create_cpu_executors hw i nodes r = Some r' →
  wf r' ∧ work_groups_option r' = work_groups_option r ∧
  (is_Some (main_executor r) ∨ nodes ≠ [] → is_Some (main_executor r')).
Proof.
  induction nodes as [|n nodes IH]; intros i r r' Hw Hi Hn; cbn [create_cpu_executors].
  { intros [= <-]. split_and!; [done..|]. by intros [?|?]. }
  destruct (Executor.make _ _ _ _ _) as [e|] eqn:Em; [|done]. cbn [mbind option_bind].
  intros H. apply IH in H as (Hw' & Ho & Hm); [|clear H|lia|cbn in Hn; lia].
  - split_and!; [done|done|]. intros _. apply Hm. left. cbn. by destruct (main_executor r).
  - unfold Executor.make in Em. destruct (Executor.make_groups _ _ _ _ _) as [gs|]; [|done].
    cbn in Em. destruct gs as [|g gs]; [done|]. injection Em as <-. destruct Hw as [Hs Hc]. split.
    + unfold keys. cbn [add_executor executors set_main]. by apply map_insert_keys.
    + cbn [add_executor executors set_main]. intros k a [[= -> ->]|Hin]%map_insert_elem Ht; [|by apply Hc].
      cbn. split; [done|]. cbn in Hn. split; [lia|]. eexists. split; [done|]. cbn. lia.
Qed.

Lemma push_groups_app os : ∀ acc,
  (∀ o, o ∈ os → wo_name o ≠ MAIN_WORK_GROUP) → push_groups os acc = (acc ++ os, true).
Proof.
  induction os as [|o os IH]; intros acc Ho; cbn [push_groups]; [by rewrite app_nil_r|].
  rewrite bool_decide_eq_false_2 by (apply Ho; set_solver). rewrite IH by set_solver.
  by rewrite <- (assoc_L (++)).
Qed.

Lemma group_index_app name os os' i :
  (∀ o, o ∈ os → wo_name o ≠ name) → group_index name (os ++ os') i = group_index name os' (i + List.length os).
Proof.
  revert i. induction os as [|o os IH]; intros i Ho; cbn [group_index app].
  - f_equal. cbn. lia.
  - rewrite bool_decide_eq_false_2 by (apply Ho; set_solver). rewrite IH by set_solver. f_equal. cbn. lia.
Qed.

End Runtime.
Import Runtime.

(** A machine of four hardware threads, no NUMA, one extra group. *)
Definition sample_runtime : option Runtime.t := Runtime.Setup 4 77 [plain_option "video" 2] 0 Runtime.make.

Lemma setup_wf (hw : nat) io_hash os (vn : nat) r :
  (vn < 2 ^ 16) → Runtime.Setup hw io_hash os vn Runtime.make = Some r → wf r ∧ CheckRuntime r = true.
Proof.
  intros Hvn. unfold Runtime.Setup. destruct (SetupWorkGroups os make) as [r1 ok] eqn:Es. destruct ok; [|done].
  unfold SetupWorkGroups in Es. destruct (if _ <? _ then _ else _) as [v ok']. injection Es as <- _.
  cbn [is_setup make]. destruct (CreateDefaultExecutors _ _ _) as [r2|] eqn:Ec; [|done]. cbn.
  intros [= <-]. unfold CreateDefaultExecutors in Ec.
  destruct (if (vn =? 0)%nat then _ else _) as [nodes|] eqn:En; [|done]. cbn [mbind option_bind] in Ec.
  destruct (create_cpu_executors _ _ _ _) as [r3|] eqn:Ecr; [|done]. cbn in Ec.
  destruct (main_executor r3) as [m|] eqn:Em; [|done]. injection Ec as <-.
  assert (0 + List.length nodes <= 2 ^ 16) as Hlen.
  { assert (List.length nodes = if (vn =? 0)%nat then 1%nat else vn) as ->; [|destruct (vn =? 0)%nat; lia].
    destruct (vn =? 0)%nat.
    - unfold GetNumaNodes_default, GetNumaNodes in En. by rewrite (add_cpus_length _ _ _ En).
    - unfold GetManualNumaNodes in En. destruct (node_cpus_count _ _); [|done]. cbn in En.
      destruct (manual_cpus _ _); [|done]. cbn in En. by rewrite (add_cpus_length _ _ _ En), length_replicate. }
  apply create_cpu_executors_wf in Ecr as (Hw & _ & _); [|split; cbn; [constructor|set_solver]|lia|done].
  split.
  - destruct Hw as [Hs Hc]. split; cbn.
    + unfold keys. cbn. by apply map_insert_keys.
    + intros k a [[= -> ->]|Hin]%map_insert_elem Ht; [done|by apply Hc].
  - unfold CheckRuntime. cbn. by rewrite Em.
Qed.

(** C36: an entity tag leads back to the executor that issued it: on a runtime set up with
    fewer than 2^16 nodes, [AddEntityTag] picks a CPU executor with the fewest entities,
    its tag is never the invalid identifier, unpacks to that executor's index and the new
    entity's number, and afterwards both [FetchExecutor] and [Post] of a task with that
    tag reach that executor. *)
Theorem runtime_tag_routing (r : Runtime.t) (k : Z) (a : any_executor) :
  wf r → FetchFreeExecutor kCPU_EXECUTOR r = Some (k, a) →
  ∃ e entity r' tag, a = ACpu e ∧ Executor.AddEntity e = (entity : Executor.t * Z) ∧
    AddEntityTag r = (r', tag) ∧ wf r' ∧ tag ≠ INVALID_OBJECT_ID ∧
    Unpack tag = (k, entity.2) ∧
    (∀ k' a', (k', a') ∈ executors r → GetType a' = kCPU_EXECUTOR → GetEntitiesCount a <= GetEntitiesCount a') ∧
    FetchExecutor kCPU_EXECUTOR tag r' = Some (k, ACpu entity.1) ∧
    (∀ clock x, es_executor (task_state x) = None → es_tag (task_state x) = tag →
      Runtime.Post clock x r' = any_Post clock x k (ACpu entity.1) r').
Proof.
  intros Hw Hf. unfold FetchFreeExecutor in Hf.
  destruct (fetch_free_in _ _ _ _ _ _ Hf) as [?|[Hin Ht]]; [done|].
  assert (∀ k0 a0, (None : option (Z * any_executor)) = Some (k0, a0) → GetEntitiesCount a0 = INT_MAX) as Hn by done.
  destruct (fetch_free_min _ _ _ _ _ _ Hn Hf) as [_ Hmin].
  destruct (wf_cpu _ Hw k a Hin Ht) as (Hk & Hr & e & -> & He).
  destruct (AddEntity_base e) as (Bt & Bi & Bn). specialize (Bn He) as [Bn Bn'].
  destruct (Executor.AddEntity e) as [e' i] eqn:Ea. cbn [fst snd] in *.
  assert (wf (put k (ACpu e') r)) as Hw' by (apply (put_wf k (ACpu e) (ACpu e') r Hw Hin Bt Bi); eauto).
  assert (Unpack (Pack (i16 (GetIndex (ACpu e'))) (i16 i)) = (k, i)) as Hu.
  { rewrite Unpack_Pack, !uwrap_swrap by lia. rewrite Bi, Hk, !uwrap_small by lia. done. }
  exists e, (e', i), (put k (ACpu e') r), (Pack (i16 (GetIndex (ACpu e'))) (i16 i)).
  assert (FetchExecutor kCPU_EXECUTOR (Pack (i16 (GetIndex (ACpu e'))) (i16 i)) (put k (ACpu e') r) = Some (k, ACpu e')) as Hfe.
  { apply FetchExecutor_unique; [done|done|by eapply put_in|congruence|by rewrite Hu]. }
  assert (Pack (i16 (GetIndex (ACpu e'))) (i16 i) ≠ INVALID_OBJECT_ID) as Hinv.
  { intros E. rewrite E in Hu. apply (f_equal snd) in Hu. vm_compute in Hu. lia. }
  split_and!; try done.
  - unfold AddEntityTag, FetchFreeExecutor. rewrite Hf. cbn [any_AddEntity]. by rewrite Ea.
  - intros clock x Hx Hxt. unfold Runtime.Post. rewrite Hx, Hxt. rewrite (proj2 (Z.eqb_neq _ _) Hinv).
    by rewrite Hfe.
Qed.

(** work groups are found by name: after [Setup] of a new runtime with options that
    do not name [main], group 0 is [main], every given option is found at its position
    plus one (the first of that name), and an unknown name gives the invalid identifier. *)
Theorem runtime_work_groups (os : list WorkGroupOption) :
  (∀ o, o ∈ os → wo_name o ≠ MAIN_WORK_GROUP) →
  ∃ r, SetupWorkGroups os Runtime.make = (r, true) ∧
    GetWorkGroup MAIN_WORK_GROUP r = 0 ∧
    (∀ before o after, os = before ++ o :: after → (∀ p, p ∈ before → wo_name p ≠ wo_name o) →
      GetWorkGroup (wo_name o) r = List.length before + 1) ∧
    (∀ name, name ≠ MAIN_WORK_GROUP → (∀ o, o ∈ os → wo_name o ≠ name) →
      GetWorkGroup name r = INVALID_OBJECT_ID).
Proof.
  intros Hos. unfold SetupWorkGroups. cbn [work_groups_option make app List.length MAX_GROUPS_COUNT].
  rewrite push_groups_app by done. eexists. split; [done|]. unfold GetWorkGroup. cbn [work_groups_option app].
  split_and!.
  - done.
  - intros before o after E Hb. cbn [group_index]. subst os.
    rewrite bool_decide_eq_false_2.
    + rewrite group_index_app by done. cbn [group_index]. rewrite bool_decide_eq_true_2 by done. lia.
    + intros Em. apply (Hos o); [set_solver|by rewrite <- Em].
  - intros name Hn Ho. cbn [group_index]. rewrite bool_decide_eq_false_2 by (intros ?; by apply Hn).
    rewrite <- (app_nil_r os). by rewrite group_index_app by done.
Qed.

Lemma runtime_work_groups_witness :
  ∃ r, SetupWorkGroups [plain_option "video" 2; plain_option "audio" 1] Runtime.make = (r, true) ∧
    GetWorkGroup MAIN_WORK_GROUP r = 0 ∧
    (∀ before o after, [plain_option "video" 2; plain_option "audio" 1] = before ++ o :: after →
      (∀ p, p ∈ before → wo_name p ≠ wo_name o) → GetWorkGroup (wo_name o) r = List.length before + 1) ∧
    (∀ name, name ≠ MAIN_WORK_GROUP →
      (∀ o, o ∈ [plain_option "video" 2; plain_option "audio" 1] → wo_name o ≠ name) →
      GetWorkGroup name r = INVALID_OBJECT_ID).
Proof.
  apply (runtime_work_groups [plain_option "video" 2; plain_option "audio" 1]).
  intros o Ho. apply elem_of_cons in Ho as [->|Ho]; [vm_compute; discriminate|].
  apply elem_of_cons in Ho as [->|Ho]; [vm_compute; discriminate|]. by apply not_elem_of_nil in Ho.
Defined.

(** the limit of ten work groups is not enforced: [SetupWorkGroups] tests the size
    before it adds the given options, so a new runtime accepts any number of them. *)
Theorem runtime_group_limit_not_enforced (n : nat) :
  ∃ r, SetupWorkGroups (replicate n (plain_option "video" 2)) Runtime.make = (r, true) ∧
    List.length (work_groups_option r) = S n.
Proof.
  unfold SetupWorkGroups. cbn [work_groups_option make app List.length MAX_GROUPS_COUNT].
  rewrite push_groups_app by (intros o [-> _]%elem_of_replicate; done).
  eexists. split; [done|]. cbn. by rewrite length_replicate.
Qed.

(** a runtime set up again after [Terminate] keeps a pointer to a deleted executor:
    [Terminate] does not reset [main_executor], and [CreateDefaultExecutors] only sets it
    when it is null. *)
Theorem runtime_main_executor_dangles :
  ∃ r r', sample_runtime = Some r ∧ Runtime.Setup 4 77 [plain_option "video" 2] 0 (Terminate r) = Some r' ∧
    CheckRuntime r' = true ∧ ∃ m, main_executor r' = Some m ∧ at_address m r' = None.
Proof.
  eexists _, _. split; [vm_compute; reflexivity|]. split; [vm_compute; reflexivity|].
  split; [vm_compute; reflexivity|]. eexists. split; [vm_compute; reflexivity|]. vm_compute. reflexivity.
Qed.

Definition runtime0 : Runtime.t := default Runtime.make sample_runtime.

Lemma runtime_tag_routing_witness :
  ∃ k a, FetchFreeExecutor kCPU_EXECUTOR runtime0 = Some (k, a) ∧
  ∃ e entity r' tag, a = ACpu e ∧ Executor.AddEntity e = (entity : Executor.t * Z) ∧
    AddEntityTag runtime0 = (r', tag) ∧ wf r' ∧ tag ≠ INVALID_OBJECT_ID ∧
    Unpack tag = (k, entity.2) ∧
    (∀ k' a', (k', a') ∈ executors runtime0 → GetType a' = kCPU_EXECUTOR → GetEntitiesCount a <= GetEntitiesCount a') ∧
    FetchExecutor kCPU_EXECUTOR tag r' = Some (k, ACpu entity.1) ∧
    (∀ clock x, es_executor (task_state x) = None → es_tag (task_state x) = tag →
      Runtime.Post clock x r' = any_Post clock x k (ACpu entity.1) r').
Proof.
  do 2 eexists. split; [vm_compute; reflexivity|].
  apply (runtime_tag_routing runtime0).
  - apply (setup_wf 4 77 [plain_option "video" 2] 0); [lia|vm_compute; reflexivity].
  - vm_compute. reflexivity.
Defined.
