(* ===== verification/Promise.v ===== *)
(** * Promises and futures

    [promise_t] and [future_t] are boost's.  What the code relies on is this interface: a
    promise has a shared state that is pending, ready or broken; a new promise has a state of
    its own; a value is set at most once, a second [set_value] throws; a promise that is
    destroyed or assigned over breaks a pending state.  A map from numbers implements it. *)
From S2P Require Import Prelude.

Inductive future_state (V : Type) := Pending | Ready (v : V) | Broken.
Arguments Pending {V}.
Arguments Ready {V} v.
Arguments Broken {V}.

#[global] Instance future_state_eq_dec {V} `{EqDecision V} : EqDecision (future_state V).
Proof. solve_decision. Defined.

(** What is left of a pending state when its promise goes. *)
Definition abandon {V} (f : future_state V) : future_state V :=
  match f with Pending => Broken | _ => f end.

Class Futures (S V : Type) := {
  fut_init : S;
  fut_make : S → nat * S;                     (* promise_t<V>() *)
  fut_set : nat → V → S → option S;           (* set_value; None: it throws *)
  fut_drop : nat → S → S;                     (* the promise is destroyed *)
  fut_state : nat → S → option (future_state V)
}.

Class FuturesLaws (S V : Type) `{Futures S V} := {
  fut_make_fresh s : fut_state (fut_make s).1 s = None;
  fut_make_pending s : fut_state (fut_make s).1 (fut_make s).2 = Some Pending;
  fut_make_other s p : p ≠ (fut_make s).1 → fut_state p (fut_make s).2 = fut_state p s;
  fut_set_pending s p v : fut_state p s = Some Pending → is_Some (fut_set p v s);
  fut_set_throws s p v : fut_state p s ≠ Some Pending → fut_set p v s = None;
  fut_set_ready s s' p v : fut_set p v s = Some s' → fut_state p s' = Some (Ready v);
  fut_set_other s s' p q v : fut_set p v s = Some s' → q ≠ p → fut_state q s' = fut_state q s;
  fut_drop_this s p : fut_state p (fut_drop p s) = abandon <$> fut_state p s;
  fut_drop_other s p q : q ≠ p → fut_state q (fut_drop p s) = fut_state q s
}.

Section derived.
Context {S V : Type} `{FuturesLaws S V}.

(** [promise = {}]: the new promise, the old one destroyed. *)
Definition fut_replace (p : nat) (s : S) : nat * S :=
  let '(q, s') := fut_make s in (q, fut_drop p s').

(** [make_resolved_future(v)]: a promise of its own, set at once. *)
Definition fut_resolved (v : V) (s : S) : nat * S :=
  let '(q, s') := fut_make s in
  (q, match fut_set q v s' with Some s'' => s'' | None => s' end).

Lemma fut_replace_fresh p s : fut_state (fut_replace p s).1 s = None.
Proof. unfold fut_replace. pose proof (fut_make_fresh s). by destruct (fut_make s). Qed.

Lemma fut_replace_pending p s : is_Some (fut_state p s) →
  fut_state (fut_replace p s).1 (fut_replace p s).2 = Some Pending.
Proof.
  intros [f Hf]. unfold fut_replace. pose proof (fut_make_fresh s) as Hn.
  pose proof (fut_make_pending s) as Hp. destruct (fut_make s) as [q s']. cbn in *.
  rewrite fut_drop_other; [done|]. intros ->. congruence.
Qed.

Lemma fut_replace_old p s : is_Some (fut_state p s) →
  fut_state p (fut_replace p s).2 = abandon <$> fut_state p s.
Proof.
  intros [f Hf]. unfold fut_replace. pose proof (fut_make_fresh s) as Hn.
  pose proof (fut_make_other s p) as Ho. destruct (fut_make s) as [q s']. cbn in *.
  rewrite fut_drop_this, Ho; [done|]. intros ->. congruence.
Qed.

Lemma fut_replace_other p s r : r ≠ p → is_Some (fut_state r s) →
  fut_state r (fut_replace p s).2 = fut_state r s.
Proof.
  intros Hr [f Hf]. unfold fut_replace. pose proof (fut_make_fresh s) as Hn.
  pose proof (fut_make_other s r) as Ho. destruct (fut_make s) as [q s']. cbn in *.
  rewrite fut_drop_other, Ho; [done| |done]. intros ->. congruence.
Qed.

Lemma fut_resolved_ready v s :
  fut_state (fut_resolved v s).1 (fut_resolved v s).2 = Some (Ready v).
Proof.
  unfold fut_resolved. pose proof (fut_make_pending s) as Hp. destruct (fut_make s) as [q s'].
  cbn in *. destruct (fut_set_pending s' q v Hp) as [s'' E]. rewrite E. by eapply fut_set_ready.
Qed.

Lemma fut_resolved_fresh v s : fut_state (fut_resolved v s).1 s = None.
Proof. unfold fut_resolved. pose proof (fut_make_fresh s). by destruct (fut_make s). Qed.

Lemma fut_resolved_other v s r : is_Some (fut_state r s) →
  fut_state r (fut_resolved v s).2 = fut_state r s.
Proof.
  intros [f Hf]. unfold fut_resolved. pose proof (fut_make_fresh s) as Hn.
  pose proof (fut_make_pending s) as Hp. pose proof (fut_make_other s r) as Ho.
  destruct (fut_make s) as [q s']. cbn in *.
  assert (r ≠ q) by (intros ->; congruence).
  destruct (fut_set_pending s' q v Hp) as [s'' E]. rewrite E, (fut_set_other _ _ _ _ _ E) by done. auto.
Qed.

(** No operation takes a future back to pending or away. *)
Lemma fut_set_is_Some s s' p v r : fut_set p v s = Some s' →
  is_Some (fut_state r s) → is_Some (fut_state r s').
Proof.
  intros E Hr. destruct (decide (r = p)) as [->|Hne].
  - rewrite (fut_set_ready _ _ _ _ E). eauto.
  - by rewrite (fut_set_other _ _ _ _ _ E).
Qed.

Lemma fut_drop_is_Some s p r : is_Some (fut_state r s) → is_Some (fut_state r (fut_drop p s)).
Proof.
  intros Hr. destruct (decide (r = p)) as [->|Hne].
  - rewrite fut_drop_this. by apply fmap_is_Some.
  - by rewrite fut_drop_other.
Qed.

Lemma fut_replace_is_Some p s r : is_Some (fut_state p s) →
  is_Some (fut_state r s) → is_Some (fut_state r (fut_replace p s).2).
Proof.
  intros Hp Hr. destruct (decide (r = p)) as [->|].
  - rewrite fut_replace_old by done. by apply fmap_is_Some.
  - by rewrite fut_replace_other.
Qed.
End derived.

(** ** An implementation *)
Module MapFutures.

Record t (V : Type) := mk { states : gmap nat (future_state V) }.
Arguments mk {V} _.
Arguments states {V} _.

#[global] Instance map_futures (V : Type) : Futures (t V) V := {|
  fut_init := mk ∅;
  fut_make s := let p := fresh (dom (states s)) in (p, mk (<[p := Pending]> (states s)));
  fut_set p v s :=
    match states s !! p with
    | Some Pending => Some (mk (<[p := Ready v]> (states s)))
    | _ => None
    end;
  fut_drop p s := mk (alter abandon p (states s));
  fut_state p s := states s !! p
|}.

#[global] Instance map_futures_laws (V : Type) : FuturesLaws (t V) V.
Proof.
  split; cbn.
  - intros s. apply not_elem_of_dom, is_fresh.
  - intros s. apply lookup_insert_eq.
  - intros s p Hp. by apply lookup_insert_ne.
  - intros s p v ->. eauto.
  - intros s p v Hp. by destruct (states s !! p) as [[| |]|].
  - intros s s' p v E. destruct (states s !! p) as [[| |]|]; simplify_eq. apply lookup_insert_eq.
  - intros s s' p q v E Hq. destruct (states s !! p) as [[| |]|]; simplify_eq.
    by apply lookup_insert_ne.
  - intros s p. apply lookup_alter_eq.
  - intros s p q Hq. by apply lookup_alter_ne.
Qed.

End MapFutures.
