(* ===== verification/Ledger.v ===== *)
(** * The promises of tasks (include/ar/task.hpp)

    [make_task] gives a task a promise; the worker that executes the task sets it, and deletes the
    task with it.  The book of these promises, over the futures of Promise.v, for the machines in which tasks
    wait somewhere and run somewhere: [ok] relates a book to the tasks that have run and those
    that wait, wherever they do. *)
From S2P Require Import Prelude.
From S2P Require Import Promise.
From S2P Require Import Task.

Module Ledger.
Section ledger.
Context {S V : Type} `{FuturesLaws S (V + unit)}.
(** What the function of a task does. *)
Context (fn : nat → outcome V).

Record t := mk {
  futs : S;
  promises : gmap nat nat;       (* the promise of a task *)
  terminated : bool              (* an exception has left a worker's thread *)
}.

Definition make : t := mk fut_init ∅ false.

(** [make_task]: a task object of its own, with a promise of its own. *)
Definition issue (id : nat) (b : t) : option t :=
  match promises b !! id with
  | Some _ => None
  | None => let '(p, fs) := fut_make (futs b) in Some (mk fs (<[id := p]> (promises b)) (terminated b))
  end.

(** A call on the promise; [None]: it throws. *)
Definition call_promise (p : nat) (k : promise_call V) (fs : S) : option S :=
  fut_set p (match k with SetValue v => inl v | SetException => inr tt end) fs.

Fixpoint call_promises (p : nat) (ks : list (promise_call V)) (fs : S) : option S :=
  match ks with [] => Some fs | k :: ks' => fs' ← call_promise p k fs; call_promises p ks' fs' end.

(** [t->execute(new_state)] and [delete t], the promise of the task being [p]. *)
Definition execute_task (x : task) (p : nat) (fs : S) : S * bool :=
  let '(_, ks, escapes) := base_task_execute (fn (task_id x)) (task_state x) x in
  match call_promises p ks fs with
  | Some fs' => if escapes then (fs', true) else (fut_drop p fs', false)
  | None => (fs, true)
  end.

(** A worker executes task [x]. *)
Definition settle (x : task) (b : t) : option t :=
  p ← promises b !! task_id x;
  let '(fs, dead) := execute_task x p (futs b) in Some (mk fs (promises b) dead).

Lemma issue_promises id b b' : issue id b = Some b' →
  promises b !! id = None ∧ ∃ p, promises b' = <[id := p]> (promises b).
Proof.
  unfold issue. destruct (promises b !! id); [done|]. destruct (fut_make (futs b)) as [p fs]. intros [= <-]. eauto.
Qed.

Lemma settle_promises x b b' : settle x b = Some b' → promises b' = promises b.
Proof.
  unfold settle. destruct (promises b !! _) as [p|]; [|done]. cbn. destruct (execute_task _ _ _). by intros [= <-].
Qed.

(** What the future of a task that has run shows. *)
Definition answer (o : outcome V) : future_state (V + unit) :=
  match o with Returns v => Ready (inl v) | ThrowsStd => Ready (inr tt) | ThrowsOther => Pending end.

(** The book of the tasks [ran], which have run, and [waiting], which have not. *)
Record ok (ran waiting : list nat) (b : t) : Prop := {
  ok_once : NoDup (ran ++ waiting);
  ok_known id : id ∈ ran ++ waiting ↔ is_Some (promises b !! id);
  ok_own id id' p : promises b !! id = Some p → promises b !! id' = Some p → id = id';
  ok_future id p : promises b !! id = Some p →
    fut_state p (futs b) = Some (if decide (id ∈ ran) then answer (fn id) else Pending);
  ok_dead : terminated b = false ↔ ∀ id, id ∈ ran → fn id ≠ ThrowsOther
}.

Lemma ok_make : ok [] [] make.
Proof.
  split; cbn; try done.
  - constructor.
  - intros id. rewrite lookup_empty. split; [by intros ?%not_elem_of_nil|by intros [? ?]].
  - split; [|done]. by intros _ id ?%not_elem_of_nil.
Qed.

(** Where the tasks are does not matter. *)
Lemma ok_perm ran ran' waiting waiting' b : ok ran waiting b → ran' ≡ₚ ran → waiting' ≡ₚ waiting →
  ok ran' waiting' b.
Proof.
  intros [H1 H2 H3 H4 H5] Hr Hw. split.
  - by rewrite Hr, Hw.
  - intros id. by rewrite Hr, Hw.
  - done.
  - intros id p Hp. rewrite (H4 id p Hp). f_equal. apply decide_ext. by rewrite Hr.
  - rewrite H5. by setoid_rewrite Hr.
Qed.

Lemma ok_issue ran waiting id b b' : ok ran waiting b → issue id b = Some b' → ok ran (id :: waiting) b'.
Proof.
  intros [Ho Hk Hown Hf Hd]. unfold issue. destruct (promises b !! id) eqn:Hx; [done|].
  pose proof (fut_make_fresh (futs b)) as Hfr. pose proof (fut_make_pending (futs b)) as Hpe.
  pose proof (fut_make_other (futs b)) as Hot. destruct (fut_make (futs b)) as [p fs]. cbn in Hfr, Hpe, Hot.
  intros [= <-].
  assert (∀ i q, promises b !! i = Some q → q ≠ p) as Hne.
  { intros i q Hq ->. rewrite (Hf i p Hq) in Hfr. by case_decide. }
  assert (id ∉ ran ++ waiting) as Hnew by (intros Hin; apply Hk in Hin; rewrite Hx in Hin; by destruct Hin).
  split; cbn.
  - rewrite <- Permutation_middle. by apply NoDup_cons.
  - intros i. rewrite <- Permutation_middle, elem_of_cons, Hk.
    destruct (decide (i = id)) as [->|Hid]; [rewrite lookup_insert_eq; naive_solver|].
    rewrite lookup_insert_ne by done. naive_solver.
  - intros i i' q [[<- <-]|[? Hi1]]%lookup_insert_Some [[<- E']|[? Hi2]]%lookup_insert_Some; try done.
    + by destruct (Hne i' p).
    + subst q. by destruct (Hne i p).
    + by eapply Hown.
  - intros i q [[<- <-]|[? Hq]]%lookup_insert_Some.
    + rewrite decide_False; [done|]. intros Hin. apply Hnew. apply elem_of_app. by left.
    + rewrite Hot by by eapply Hne. by apply Hf.
  - done.
Qed.

(** Executing a task whose promise is pending gives its answer and leaves the others. *)
Lemma execute_task_pending x p fs : fut_state p fs = Some Pending →
  let '(fs', dead) := execute_task x p fs in
  fut_state p fs' = Some (answer (fn (task_id x))) ∧ (∀ q, q ≠ p → fut_state q fs' = fut_state q fs) ∧
  (dead = false ↔ fn (task_id x) ≠ ThrowsOther).
Proof.
  intros Hp. unfold execute_task, base_task_execute.
  assert (∀ r, ∃ fs', fut_set p r fs = Some fs' ∧ fut_state p (fut_drop p fs') = Some (Ready r) ∧
    ∀ q, q ≠ p → fut_state q (fut_drop p fs') = fut_state q fs) as Hset.
  { intros r. destruct (fut_set_pending fs p r Hp) as [fs' E]. exists fs'. split; [done|]. split.
    - by rewrite fut_drop_this, (fut_set_ready _ _ _ _ E).
    - intros q Hq. by rewrite fut_drop_other, (fut_set_other _ _ _ _ _ E). }
  destruct (fn (task_id x)) as [v| |] eqn:Hfn; cbn.
  - destruct (Hset (inl v)) as (fs' & E & Hr & Ho). unfold call_promise. rewrite E. cbn. done.
  - destruct (Hset (inr tt)) as (fs' & E & Hr & Ho). unfold call_promise. rewrite E. cbn. done.
  - done.
Qed.

Lemma ok_settle ran waiting x b : ok ran (task_id x :: waiting) b → terminated b = false →
  ∃ b', settle x b = Some b' ∧ ok (task_id x :: ran) waiting b'.
Proof.
  intros [Ho Hk Hown Hf Hd] Ht. rewrite <- Permutation_middle in Ho.
  assert (is_Some (promises b !! task_id x)) as [p Hp] by (apply Hk; set_solver).
  assert (task_id x ∉ ran) as Hnr by (apply NoDup_cons in Ho as [Hn _]; set_solver).
  unfold settle. rewrite Hp. cbn [mbind option_bind].
  pose proof (Hf _ _ Hp) as Hpend. rewrite decide_False in Hpend by done.
  pose proof (execute_task_pending x p (futs b) Hpend) as Hexec. destruct (execute_task x p (futs b)) as [fs dead].
  destruct Hexec as (Hans & Hoth & Hdead). eexists. split; [done|]. split; cbn.
  - done.
  - intros id. rewrite <- Hk, <- Permutation_middle. done.
  - done.
  - intros id q Hq. destruct (decide (id = task_id x)) as [->|Hid].
    + rewrite Hp in Hq. injection Hq as <-. by rewrite decide_True by left.
    + rewrite Hoth by (intros ->; apply Hid; by eapply Hown). rewrite (Hf _ _ Hq).
      destruct (decide (id ∈ ran)); [rewrite decide_True by by right|rewrite decide_False by set_solver]; done.
  - rewrite Hdead. split.
    + intros Hfn id [->|Hr]%elem_of_cons; [done|]. by apply Hd.
    + intros Hall. apply Hall. left.
Qed.

(** The program has terminated exactly when a function has thrown what is not a [std::exception]. *)
Lemma ok_terminated ran waiting b : ok ran waiting b →
  terminated b = true ↔ ∃ id, id ∈ ran ∧ fn id = ThrowsOther.
Proof.
  intros [_ _ _ _ Hd]. destruct (terminated b); split; try done.
  - intros _. assert (¬ Forall (λ id, fn id ≠ ThrowsOther) ran) as Hnf
      by (intros Hall; rewrite Forall_forall in Hall; by apply Hd in Hall).
    apply not_Forall_Exists in Hnf; [|intros id; destruct (fn id); [left|left|right]; naive_solver].
    apply Exists_exists in Hnf as (id & Hin & Hid). exists id. split; [done|]. cbn in Hid.
    destruct (fn id); [exfalso; by apply Hid..|done].
  - intros (id & Hin & Hid). by destruct (proj1 Hd eq_refl id).
Qed.

(** A task that waits nowhere has its answer. *)
Lemma ok_answered ran waiting b id p : ok ran waiting b → terminated b = false →
  promises b !! id = Some p → id ∉ waiting → ∃ r, fut_state p (futs b) = Some (Ready r) ∧ answer (fn id) = Ready r.
Proof.
  intros [_ Hk _ Hf Hd] Ht Hp Hw. assert (id ∈ ran) as Hin.
  { assert (id ∈ ran ++ waiting) as [?|?]%elem_of_app by (apply Hk; by eexists); done. }
  rewrite (Hf id p Hp), decide_True by done. pose proof (proj1 Hd Ht id Hin) as Hfn.
  destruct (fn id) as [v| |]; [eauto..|done].
Qed.

Lemma ok_ran_once ran waiting b : ok ran waiting b → NoDup ran.
Proof. intros [Ho _ _ _ _]. by apply NoDup_app in Ho as (? & _). Qed.
End ledger.
Arguments t : clear implicits.
End Ledger.
