(* ===== verification/AsyncSlot.v ===== *)
(** * From a call to its future

    Threads make tasks with a promise ([make_task] of include/ar/task.hpp, as [Runtime::Async]
    does) and post them to a slot; its workers execute and delete them.  The slot is that of
    SlotWord.v, where every access to the word of the eventcount is a step of its own, and
    the promises are the book of Ledger.v. *)
From S2P Require Import Prelude.
From S2P Require Import Promise.
From S2P Require Import Task.
From S2P Require Import Ledger.
From S2P Require Import EventCount.
From S2P Require Import EventCountMachine.
From S2P Require Import ExecutorSlot.
From S2P Require Import SlotWord.

(** ** Where the tasks of a slot are *)
Module WordTasks.
Import SlotWord.

(** The task a step executes. *)
Definition runs (c : t) (l : label) : option (nat * task) :=
  match l with
  | LWorker k _ _ =>
      match S.workers (slot c) !! k with
      | Some w => match S.pc w with S.AtRun x => Some (k, S.invoke w x) | _ => None end
      | None => None
      end
  | _ => None
  end.

Definition posts (l : label) : list nat := match l with LPost _ x => [task_id x] | _ => [] end.

(** What a step other than the execution of a task does to the tasks. *)
Definition kept (s s' : S.t) : Prop := S.executed s' = S.executed s ∧ S.waiting s' ≡ₚ S.waiting s.

Lemma kept_refl s : kept s s.
Proof. done. Qed.

Lemma kept_goto s k w p : S.workers s !! k = Some w → S.in_hand p = S.in_hand (S.pc w) →
  kept s (S.set_worker k (S.set_pc w p) s).
Proof.
  intros Hk Hp. split; [done|]. apply (S.waiting_goto s k w); [done|]. unfold S.held. cbn. by rewrite Hp.
Qed.

Lemma wait_after c k weak call after c' : wait c k weak call after = Some c' → ∃ p, slot c' = after p.
Proof.
  unfold wait. destruct (E.wthreads (ec c) !! k) as [u|]; [|done]. cbn.
  destruct (E.step _ _) as [ec'|]; [|done]. cbn. destruct (E.wthreads ec' !! k) as [u'|]; [|done].
  cbn. intros [= <-]. eauto.
Qed.

Lemma kept_wait c k weak call after c' : wait c k weak call after = Some c' →
  (∀ p, kept (slot c) (after p)) → kept (slot c) (slot c').
Proof.
  intros E Ha. destruct (wait_after _ _ _ _ _ _ E) as [p ->]. apply Ha.
Qed.

(** A worker that is not executing a task moves tasks about. *)
Lemma kept_worker_step s k w fails s' : S.workers s !! k = Some w → (∀ x, S.pc w ≠ S.AtRun x) →
  S.worker_step k w fails s = Some s' → S.executed s' = S.executed s.
Proof.
  intros Hk Hn. unfold S.worker_step. destruct (S.pc w) eqn:Hpc; try by destruct (Hn x); try done.
  all: intros E; repeat case_match; simplify_eq; try done.
  by destruct (S.notify_one_frame (S.set_worker k (S.set_pc w S.AtWhile) s)) as (_ & _ & _ & _ & -> & _).
Qed.

Lemma kept_worker c k w fails weak c' : S.workers (slot c) !! k = Some w → (∀ x, S.pc w ≠ S.AtRun x) →
  worker_step c k w fails weak = Some c' →
  S.executed (slot c') = S.executed (slot c) ∧ map task_id (S.waiting (slot c')) ≡ₚ map task_id (S.waiting (slot c)).
Proof.
  intros Hk Hn E.
  assert (∀ p, S.in_hand p = [] → S.in_hand (S.pc w) = [] → kept (slot c) (S.set_worker k (S.set_pc w p) (slot c))) as Hgo
    by (intros p H1 H2; apply kept_goto; [done|congruence]).
  assert (kept (slot c) (slot c') → S.executed (slot c') = S.executed (slot c) ∧
    map task_id (S.waiting (slot c')) ≡ₚ map task_id (S.waiting (slot c))) as Hkept
    by (intros [He Hw]; split; [done|by rewrite Hw]).
  assert (∀ s', S.worker_step k w fails (slot c) = Some s' → c' = mk s' (ec c) →
    S.executed (slot c') = S.executed (slot c) ∧ map task_id (S.waiting (slot c')) ≡ₚ map task_id (S.waiting (slot c))) as Hs.
  { intros s' Es ->. cbn. pose proof (kept_worker_step _ _ _ _ _ Hk Hn Es) as He. split; [done|].
    pose proof (S.worker_step_conserves _ _ _ _ _ Hk Es) as Hc. unfold S.ran in Hc. rewrite He in Hc.
    by apply Permutation_app_inv_l in Hc. }
  unfold worker_step in E. destruct (S.pc w) as [| | |o| |i|i|i o| | |x| | |] eqn:Hpc;
    try (destruct (S.worker_step k w fails (slot c)) as [s'|] eqn:Es; [|done]; cbn in E; injection E as <-; by eapply Hs);
    try by destruct (Hn x).
  - destruct (E.step _ _) as [ec'|]; [|done]. cbn in E. injection E as <-. apply Hkept. by apply Hgo.
  - apply Hkept. eapply kept_wait; [done|]. intros []; try apply kept_refl; by apply Hgo.
  - done.
  - apply Hkept. eapply kept_wait; [done|]. intros []; try apply kept_refl; by apply Hgo.
  - apply Hkept. eapply kept_wait; [done|]. intros []; try apply kept_refl; by apply Hgo.
Qed.

Lemma kept_finish s j r all : call_of s j = Some all → kept s (finish s j r).
Proof.
  unfold call_of, finish. destruct (role_of s j) as [w|i p|] eqn:Hr.
  - destruct (S.pc w) eqn:Hpc; try done. intros _. apply kept_goto; [|by rewrite Hpc].
    unfold role_of in Hr. destruct (S.workers s !! j); [by injection Hr as ->|by destruct (S.posters s !! _)].
  - by destruct p.
  - done.
Qed.

Lemma word_step_tasks c l c' : step c l = Some c' →
  match runs c l with
  | Some e => S.executed (slot c') = e :: S.executed (slot c) ∧
              map task_id (S.waiting (slot c)) ≡ₚ task_id e.2 :: map task_id (S.waiting (slot c'))
  | None => S.executed (slot c') = S.executed (slot c) ∧
            map task_id (S.waiting (slot c')) ≡ₚ posts l ++ map task_id (S.waiting (slot c))
  end.
Proof.
  destruct l as [k fails weak|k|j weak|j x|j|]; cbn [step runs posts app].
  - destruct (S.workers (slot c) !! k) as [w|] eqn:Hk; [|done]. cbn.
    assert ((∃ x, S.pc w = S.AtRun x) ∨ ∀ x, S.pc w ≠ S.AtRun x) as [[x Hpc]|Hn'] by (destruct (S.pc w); eauto).
    + rewrite Hpc. unfold worker_step. rewrite Hpc. cbn.
      destruct (S.worker_step k w fails (slot c)) as [s'|] eqn:Es; [|done]. cbn. intros [= <-]. cbn.
      pose proof (S.worker_step_conserves _ _ _ _ _ Hk Es) as Hc. unfold S.worker_step in Es. rewrite Hpc in Es.
      injection Es as <-. split; [done|]. unfold S.ran in Hc. cbn in Hc.
      apply (Permutation_app_inv_l (map (λ e, task_id e.2) (S.executed (slot c)))). rewrite <- Hc. solve_Permutation.
    + intros E.
      replace (match S.pc w with S.AtRun x => Some (k, S.invoke w x) | _ => None end) with (@None (nat * task))
        by (destruct (S.pc w); try done; by destruct (Hn' x)).
      by eapply kept_worker.
  - destruct (E.step _ _); [|done]. cbn. by intros [= <-].
  - unfold notify. destruct (call_of (slot c) j) as [all|] eqn:Hc; [|done]. cbn [mbind option_bind].
    destruct (E.nthreads (ec c) !! j) as [n|]; [|done]. cbn [mbind option_bind]. intros E.
    assert (∀ r, kept (slot c) (finish (slot c) j r)) as Hf by (intros r; by eapply kept_finish).
    assert (kept (slot c) (slot c')) as [He Hw]; [|by rewrite He, Hw].
    destruct (E.np n); (destruct (E.step _ _) as [ec'|]; [|done]); cbn [mbind option_bind] in E; try by injection E as <-.
    all: destruct (E.nthreads ec' !! j) as [n'|]; [|done]; injection E as <-; cbn; destruct (E.np n'); try apply kept_refl; apply Hf.
  - destruct (S.step (slot c) (S.LPost j x)) as [s'|] eqn:Es; [|done]. cbn. intros [= <-]. cbn.
    pose proof (S.step_conserves _ _ _ Es) as Hc. cbn in Es, Hc.
    assert (S.executed s' = S.executed (slot c)) as He.
    { destruct (S.posters (slot c) !! j) as [[]|]; try done.
      destruct (S.post_cases x (slot c)) as [Ep|(k & w & Hk & Ep)]; rewrite Ep in Es; by injection Es as <-. }
    split; [done|]. unfold S.ran in Hc. rewrite He in Hc.
    apply (Permutation_app_inv_l (map (λ e, task_id e.2) (S.executed (slot c)))). rewrite Hc. solve_Permutation.
  - repeat case_match; try done. by intros [= <-].
  - intros E. assert (∃ s', S.step (slot c) S.LDestroy = Some s' ∧ slot c' = s') as (s' & Es & ->).
    { destruct (S.destructor (slot c)) eqn:Hd; try done; destruct (S.step (slot c) S.LDestroy) as [s'|] eqn:Es; try done;
        cbn in E; injection E as <-; by exists s'. }
    cbn in Es. destruct (S.destructor (slot c)); try done; repeat case_match; simplify_eq; done.
Qed.

(** ** A slot in use *)
Definition is_destroy (l : label) : bool := match l with LDestroy => true | _ => false end.

(** The destructor apart, no step ends the slot or changes its workers' number. *)
Definition framed (s s' : S.t) : Prop :=
  S.done s' = S.done s ∧ S.num_workers s' = S.num_workers s.

Lemma framed_worker_step s k w fails s' : S.worker_step k w fails s = Some s' → framed s s'.
Proof.
  unfold S.worker_step, framed, S.num_workers, S.notify_one.
  intros E. repeat case_match; simplify_eq; cbn; by rewrite ?length_insert.
Qed.

Lemma framed_finish s j r : framed s (finish s j r).
Proof. split; [|apply finish_frame]. unfold finish. by repeat case_match. Qed.

Lemma framed_goto s k w : framed s (S.set_worker k w s).
Proof. split; [done|apply num_workers_insert]. Qed.

Lemma framed_wait c k weak call after c' : wait c k weak call after = Some c' →
  (∀ p, framed (slot c) (after p)) → framed (slot c) (slot c').
Proof.
  intros E Ha. destruct (wait_after _ _ _ _ _ _ E) as [p ->]. apply Ha.
Qed.

Lemma word_step_framed c l c' : step c l = Some c' → is_destroy l = false → framed (slot c) (slot c').
Proof.
  destruct l as [k fails weak|k|j weak|j x|j|]; cbn [step is_destroy]; intros E Hl; [..|done].
  - destruct (S.workers (slot c) !! k) as [w|]; [|done]. cbn in E. unfold worker_step in E.
    destruct (S.pc w); try done; try (by eapply framed_wait; [exact E|]; intros []; try done; apply framed_goto);
      first [destruct (S.worker_step _ _ _ _) as [s'|] eqn:Es|destruct (E.step (ec c) _)]; try done;
      cbn in E; injection E as <-; first [by eapply framed_worker_step|apply framed_goto].
  - by destruct (E.step _ _); simplify_eq/=.
  - unfold notify in E. destruct (call_of (slot c) j); [|done]. cbn [mbind option_bind] in E.
    destruct (E.nthreads (ec c) !! j) as [n|]; [|done]. cbn [mbind option_bind] in E.
    destruct (E.np n); (destruct (E.step _ _) as [ec'|]; [|done]); cbn [mbind option_bind] in E; try by injection E as <-.
    all: destruct (E.nthreads ec' !! j) as [n'|]; [|done]; injection E as <-; cbn; destruct (E.np n'); try done; apply framed_finish.
  - cbn in E. destruct (S.posters (slot c) !! j) as [[]|]; try done. destruct (S.post x (slot c)) as [s' p] eqn:Ep.
    cbn in E. injection E as <-. cbn. destruct (post_frame x (slot c)) as (Hn & _). rewrite Ep in Hn. split; [|done].
    destruct (S.post_cases x (slot c)) as [Ec|(k & w & _ & Ec)]; rewrite Ep in Ec; by injection Ec as -> _.
  - repeat case_match; by simplify_eq.
Qed.

(** Every worker is blocked and no thread is inside [post]. *)
Record quiet (c : t) : Prop := {
  q_posters j p : S.posters (slot c) !! j = Some p → p = S.Idle;
  q_workers k u : E.wthreads (ec c) !! k = Some u → E.wp u = WorkNotifier.WBlocked
}.

Definition quietb (c : t) : bool :=
  forallb (λ p, match p with S.Idle => true | _ => false end) (S.posters (slot c)) &&
  forallb (λ u, match E.wp u with WorkNotifier.WBlocked => true | _ => false end) (E.wthreads (ec c)).

Lemma quietb_quiet c : quietb c = true → quiet c.
Proof.
  intros [Hp Hw]%andb_true_iff. rewrite forallb_forall in Hp, Hw. split.
  - intros j p Hj%list_elem_of_lookup_2%list_elem_of_In. specialize (Hp p Hj). by destruct p.
  - intros k u Hk%list_elem_of_lookup_2%list_elem_of_In. specialize (Hw u Hk). by destruct (E.wp u).
Qed.

(** When every worker is blocked no task is left anywhere in the slot. *)
Lemma blocked_no_task cpus n c : List.length cpus < 2 ^ 16 - 1 → reachable cpus n c → S.done (slot c) = false →
  S.num_workers (slot c) ≠ 0%nat → quiet c → S.waiting (slot c) = [].
Proof.
  intros Hn Hr Hd Hw0 [Hp Hb]. assert (S.workers (slot c) ≠ []) as Hne by (intros E; unfold S.num_workers in Hw0; by rewrite E in Hw0).
  destruct (reachable_simulated cpus n c Hn Hr) as (a & Hi & Ha).
  destruct (blocked_queues_empty cpus n c a Hi Ha Hd Hp Hne Hb) as [Hsh Hown].
  unfold S.waiting. rewrite Hsh. cbn. assert (∀ k w, S.workers (slot c) !! k = Some w → S.held w = []) as Hheld.
  { intros k w Hk. destruct (worker_thread c a k w Hi Hk) as (u & Hu & Hcp). rewrite (Hb k u Hu) in Hcp.
    unfold S.held. rewrite (Hown k w Hk). by destruct (S.pc w). }
  clear -Hheld. induction (S.workers (slot c)) as [|w ws IH]; [done|]. cbn. rewrite (Hheld 0%nat w eq_refl). cbn.
  apply IH. intros k v Hv. by apply (Hheld (Datatypes.S k)).
Qed.
End WordTasks.

(** ** Tasks with promises *)
Module AsyncSlot.
Import WordTasks.
Module W := SlotWord.

Section async.
Context {S V : Type} `{FuturesLaws S (V + unit)}.
(** What the function of a task does. *)
Context (fn : nat → outcome V).

Record t := mk { word : W.t; book : Ledger.t S }.

Definition make (cpus : list Z) (nposters : nat) : t := mk (W.make cpus nposters) Ledger.make.

(** [make_task] and [post], by posting thread [j]. *)
Definition Async (j : nat) (x : task) (s : t) : option t :=
  b ← Ledger.issue (task_id x) (book s);
  c ← W.step (word s) (W.LPost j x);
  Some (mk c b).

Definition is_post (l : W.label) : bool := match l with W.LPost _ _ => true | _ => false end.

(** What a step of the slot does to the promises. *)
Definition settle_step (c : W.t) (l : W.label) (b : Ledger.t S) : option (Ledger.t S) :=
  match runs c l with Some (_, x) => Ledger.settle fn x b | None => Some b end.

Lemma settle_step_promises c l b b' : settle_step c l b = Some b' → Ledger.promises b' = Ledger.promises b.
Proof. unfold settle_step. destruct (runs c l) as [[k x]|]; [apply Ledger.settle_promises|by intros [= <-]]. Qed.

Definition step (s : t) (l : W.label) : option t :=
  if Ledger.terminated (book s) then None
  else match l with
  | W.LPost j x => Async j x s
  | _ => c ← W.step (word s) l; b ← settle_step (word s) l (book s); Some (mk c b)
  end.

Inductive reachable (cpus : list Z) (n : nat) : t → Prop :=
| reach_make : reachable cpus n (make cpus n)
| reach_step s l s' :
    reachable cpus n s → step s l = Some s' → EventCountMachine.lap_ok (W.ec (word s')) → reachable cpus n s'.

Fixpoint run (s : t) (ls : list W.label) : option t :=
  match ls with
  | [] => Some s
  | l :: ls' =>
      match step s l with
      | Some s' => if EventCountMachine.lap_okb (W.ec (word s')) then run s' ls' else None
      | None => None
      end
  end.

Lemma async_run_reachable cpus n ls : ∀ s s', reachable cpus n s → run s ls = Some s' → reachable cpus n s'.
Proof.
  induction ls as [|l ls IH]; intros s s' Hr; cbn [run]; [by intros [= <-]|].
  destruct (step s l) as [s1|] eqn:E; [|done].
  destruct (EventCountMachine.lap_okb _) eqn:Hl; [|done].
  apply IH. eapply reach_step; [done..|]. by apply EventCountMachine.lap_okb_ok.
Qed.

(** The tasks that have run in a slot, and those in it. *)
Definition ran (c : W.t) : list nat := ExecutorSlot.ran (W.slot c).

Definition waiting (c : W.t) : list nat := map task_id (ExecutorSlot.waiting (W.slot c)).

Lemma make_no_task cpus n : ran (W.make cpus n) = [] ∧ waiting (W.make cpus n) = [].
Proof.
  change (ExecutorSlot.ran (ExecutorSlot.make cpus n) = [] ∧ map task_id (ExecutorSlot.waiting (ExecutorSlot.make cpus n)) = []).
  by destruct (ExecutorSlot.make_empty cpus n) as [-> ->].
Qed.

(** A post leaves its task waiting. *)
Lemma post_waiting j x c c' : W.step c (W.LPost j x) = Some c' → ran c' = ran c ∧ waiting c' ≡ₚ task_id x :: waiting c.
Proof.
  intros E. destruct (word_step_tasks _ _ _ E) as [He Hw]. split; [|exact Hw].
  unfold ran, ExecutorSlot.ran. by rewrite He.
Qed.

(** Any other step keeps the book of the slot's tasks, with the tasks of others beside them. *)
Lemma ok_settle_step r w l c c' b : is_post l = false → W.step c l = Some c' → Ledger.terminated b = false →
  Ledger.ok fn (ran c ++ r) (waiting c ++ w) b →
  ∃ b', settle_step c l b = Some b' ∧ Ledger.ok fn (ran c' ++ r) (waiting c' ++ w) b'.
Proof.
  intros Hl E Ht Hok. pose proof (word_step_tasks _ _ _ E) as Htask. unfold settle_step.
  destruct (runs c l) as [[k x]|].
  - destruct Htask as [He Hw]. cbn [snd] in Hw.
    assert (ran c' = task_id x :: ran c) as -> by (unfold ran, ExecutorSlot.ran; by rewrite He).
    apply (Ledger.ok_settle fn (ran c ++ r) (waiting c' ++ w) x); [|done].
    eapply Ledger.ok_perm; [exact Hok|done|]. unfold waiting. by rewrite Hw.
  - destruct Htask as [He Hw]. exists b. split; [done|].
    assert (posts l = []) as Hpl by (by destruct l). rewrite Hpl in Hw. cbn in Hw.
    eapply Ledger.ok_perm; [exact Hok| |].
    + unfold ran, ExecutorSlot.ran. by rewrite He.
    + unfold waiting. by rewrite Hw.
Qed.

Record inv (cpus : list Z) (n : nat) (s : t) : Prop := {
  a_word : W.reachable cpus n (word s);
  a_book : Ledger.ok fn (ran (word s)) (waiting (word s)) (book s)
}.

Lemma async_inv_step cpus n s l s' : inv cpus n s → step s l = Some s' →
  EventCountMachine.lap_ok (W.ec (word s')) → inv cpus n s'.
Proof.
  intros [Hw Hb]. unfold step. destruct (Ledger.terminated (book s)) eqn:Ht; [done|]. intros E Hlap.
  destruct (is_post l) eqn:Hl.
  - destruct l as [| | |j x| |]; try done. unfold Async in E.
    destruct (Ledger.issue _ _) as [b|] eqn:Eb; [|done]. cbn [mbind option_bind] in E.
    destruct (W.step _ _) as [c|] eqn:Ec; [|done]. injection E as <-. cbn in Hlap |- *.
    split; [by eapply W.reach_step|]. cbn. destruct (post_waiting _ _ _ _ Ec) as [-> Hwt].
    eapply Ledger.ok_perm; [by eapply Ledger.ok_issue|done|done].
  - assert ((c ← W.step (word s) l; b ← settle_step (word s) l (book s); Some (mk c b)) = Some s') as E'
      by (by destruct l). clear E.
    destruct (W.step (word s) l) as [c|] eqn:Ec; [|done]. cbn [mbind option_bind] in E'.
    rewrite <- (app_nil_r (ran _)), <- (app_nil_r (waiting _)) in Hb.
    destruct (ok_settle_step [] [] l _ _ _ Hl Ec Ht Hb) as (b' & Eb & Hb'). rewrite Eb in E'. injection E' as <-.
    rewrite !app_nil_r in Hb'. split; [by eapply W.reach_step|done].
Qed.

Lemma async_reachable_inv cpus n s : reachable cpus n s → inv cpus n s.
Proof.
  induction 1; [|by eapply async_inv_step]. split; [constructor|]. cbn [word book make].
  destruct (make_no_task cpus n) as [-> ->]. apply Ledger.ok_make.
Qed.
End async.
Arguments t : clear implicits.
End AsyncSlot.
Import Ledger AsyncSlot.

(** A call of [Async] is answered.  However posting threads, workers and the accesses to the
    word of the eventcount interleave, the promise of a task is set by the one execution of its
    function, to the value it returned or the exception it threw, and is pending before; a worker
    only takes the program down when a function throws what is not a [std::exception]; and when
    every worker is blocked, the destructor has not begun and no thread is inside [post], every
    future has its answer. *)
Theorem async_slot_answers {S V : Type} `{FuturesLaws S (V + unit)} (fn : nat → outcome V) (cpus : list Z) (n : nat)
    (s : AsyncSlot.t S) :
  List.length cpus < 2 ^ 16 - 1 → reachable fn cpus n s →
  (∀ id p, promises (book s) !! id = Some p →
     fut_state p (futs (book s)) = Some (if decide (id ∈ ran (word s)) then answer (fn id) else Pending)) ∧
  NoDup (ran (word s)) ∧
  (terminated (book s) = true ↔ ∃ id, id ∈ ran (word s) ∧ fn id = ThrowsOther) ∧
  (terminated (book s) = false → ExecutorSlot.done (W.slot (word s)) = false → ExecutorSlot.num_workers (W.slot (word s)) ≠ 0%nat →
   WordTasks.quiet (word s) →
   ∀ id p, promises (book s) !! id = Some p → ∃ r, fut_state p (futs (book s)) = Some (Ready r) ∧ answer (fn id) = Ready r).
Proof.
  intros Hn Hr. destruct (async_reachable_inv fn cpus n s Hr) as [Hw Hb]. split_and!.
  - apply Hb.
  - by eapply ok_ran_once.
  - by eapply ok_terminated.
  - intros Ht Hdone Hne Hq id p Hid. eapply ok_answered; [done..|].
    unfold waiting. rewrite (WordTasks.blocked_no_task cpus n (word s) Hn Hw Hdone Hne Hq). apply not_elem_of_nil.
Qed.

Module AsyncSlotExample.
Import SlotWord.

(** Task 7 returns 49, task 8 throws. *)
Definition square (id : nat) : outcome Z :=
  match id with 8%nat => ThrowsStd | _ => Returns (Z.of_nat id * Z.of_nat id) end.

(** Both are posted to one worker, which executes them and goes to sleep. *)
Definition two_calls : list label :=
  [LPost 0 (new_task 7 0); LNotify 1 false; LNotify 1 false; LNotify 1 false] ++
  [LPost 0 (new_task 8 0); LNotify 1 false; LNotify 1 false; LNotify 1 false] ++
  replicate 8 (LWorker 0 false false) ++ to_sleep.

Definition answered : AsyncSlot.t (MapFutures.t (Z + unit)) :=
  default (AsyncSlot.make [10] 1) (AsyncSlot.run square (AsyncSlot.make [10] 1) two_calls).
Lemma answered_reachable : AsyncSlot.reachable square [10] 1 answered.
Proof. apply (async_run_reachable square [10] 1 two_calls (AsyncSlot.make [10] 1)); [constructor|vm_compute; reflexivity]. Qed.

Lemma async_slot_answers_witness :
  (∃ r, fut_state 0 (futs (book answered)) = Some (Ready r) ∧ answer (square 7) = Ready r) ∧
  (∃ r, fut_state 1 (futs (book answered)) = Some (Ready r) ∧ answer (square 8) = Ready r).
Proof.
  destruct (async_slot_answers square [10] 1 answered) as (_ & _ & _ & Hall);
    [cbn; lia|apply answered_reachable|].
  split; (apply Hall; [vm_compute; reflexivity|vm_compute; reflexivity|vm_compute; discriminate
    |apply WordTasks.quietb_quiet; vm_compute; reflexivity|vm_compute; reflexivity]).
Defined.

(** A function that throws something else takes the worker's thread down. *)
Example other_exception_terminates :
  (terminated ∘ book) <$> AsyncSlot.run (S := MapFutures.t (Z + unit)) (λ _, ThrowsOther) (AsyncSlot.make [10] 1)
    (LPost 0 (new_task 7 0) :: replicate 4 (LWorker 0 false false)) = Some true.
Proof. vm_compute. reflexivity. Qed.
End AsyncSlotExample.
