(* ===== verification/GroupMachine.v ===== *)
(** * A work group at work (src/executor.cpp, src/executor_slot.cpp, src/scheduler.cpp)

    The parts of a work group in one machine: the routing of WorkGroup.v, one slot of SlotWord.v per
    slot of the group, the scheduler of Scheduler.v, whose callback is the group's [Post], and the
    promises of the tasks (Ledger.v).  Threads that call [Async], the workers of every slot, the scheduler thread
    and the deletion of entities are interleaved, down to every access to the words of the
    eventcounts.  A group in use is modelled; Shutdown.v has its destructor.

    A calling thread has the same number in every slot, and the scheduler thread the number after
    them.  The mutex of the group is held here while a task is routed and pushed; the code also holds
    it while the slot is notified, so that the machine has at least the interleavings of the code. *)
From S2P Require Import Prelude.
From S2P Require Import Promise.
From S2P Require Import Task.
From S2P Require Import Ledger.
From S2P Require Import EventCountMachine.
From S2P Require Import ExecutorSlot.
From S2P Require Import SlotWord.
From S2P Require Import AsyncSlot.
From S2P Require Import Scheduler.
From S2P Require Import WorkGroup.

Module GroupMachine.
Module W := SlotWord.
Module G := WorkGroup.
Module D := Scheduler.

Section group.
Context {S V Q : Type} `{FuturesLaws S (V + unit)} `{PriorityQueueLaws Q}.
(** What the function of a task does, and the number of calling threads. *)
Context (fn : nat → outcome V) (callers : nat).

Record t := mk {
  route : G.t;
  words : list W.t;              (* the slots *)
  sched : D.t (Q := Q);
  book : Ledger.t S;
  called : gmap nat task;        (* the tasks as they were when the call was made *)
  entered : list (Z * nat)       (* the tasks that came to a slot, with the clock of [Post] *)
}.

(** The group [g] as its constructor leaves it. *)
Definition make (g : G.t) : t :=
  mk g (map (λ s, W.make (map c_id (G.slot_cpus s)) (callers + 1)) (G.slots g)) D.make Ledger.make ∅ [].

(** Thread [j] is in no call of [post]. *)
Definition idle (j : nat) (c : W.t) : bool :=
  match ExecutorSlot.posters (W.slot c) !! j with Some ExecutorSlot.Idle => true | _ => false end.

Definition free (j : nat) (s : t) : bool := forallb (idle j) (words s).

(** [slots[i]->post(task)] by thread [j], up to the push. *)
Definition post_slot (j : nat) (i : Z) (x : task) (ws : list W.t) : option (list W.t) :=
  c ← ws !! Z.to_nat i; c' ← W.step c (W.LPost j x); Some (<[Z.to_nat i := c']> ws).

(** The end of [Post]: the group is [g] after the routing, the task [x] of the call goes to [tg]; the
    mutex of the scheduler is free when its thread is not in its callback. *)
Definition deliver (j : nat) (clock : Z) (x : task) (b : Ledger.t S) (g : G.t) (tg : G.target) (s : t) : option t :=
  let called' := <[task_id x := x]> (called s) in
  match tg with
  | G.ToSlot i y =>
      ws ← post_slot j i y (words s);
      Some (mk g ws (sched s) b called' ((clock, task_id y) :: entered s))
  | G.ToScheduler y =>
      if free callers s then
        d ← D.step (sched s) (D.LPost y); Some (mk g (words s) d b called' (entered s))
      else None
  end.

(** A thread that is not inside a call makes the task [x] and posts it. *)
Definition Call (j : nat) (clock : Z) (x : task) (s : t) : option t :=
  if (j <? callers)%nat && free j s then
    b ← Ledger.issue (task_id x) (book s);
    '(g, tg) ← G.Post clock x (route s);
    deliver j clock x b g tg s
  else None.

(** The task the scheduler thread is about to hand to its callback. *)
Definition due (c : Z) (d : D.t (Q := Q)) : option task :=
  match D.thread d with
  | D.AtLock => x ← pq_top (D.delayed_task d); if get_delay c x <=? 0 then Some x else None
  | _ => None
  end.

(** The scheduler thread, outside its callback. *)
Definition scheduler_thread (c c' : Z) (s : t) : option t :=
  if free callers s then
    d ← D.step (sched s) (D.LThread c c');
    match due c (sched s) with
    | Some x =>
        '(g, tg) ← G.Post c' x (route s);
        match tg with
        | G.ToSlot i y =>
            ws ← post_slot callers i y (words s);
            Some (mk g ws d (book s) (called s) ((c', task_id y) :: entered s))
        | G.ToScheduler _ => Some (mk g (words s) d (book s) (called s) (entered s))
        end
    | None => Some (mk (route s) (words s) d (book s) (called s) (entered s))
    end
  else None.

Inductive label :=
| LCall (j : nat) (clock : Z) (x : task)
| LSlot (i : nat) (l : W.label)        (* a worker of slot i, or a thread inside its notify *)
| LScheduler (c c' : Z)
| LTimeout                             (* the wait of the scheduler ends *)
| LDeleteEntity (e : Z).

Definition step (s : t) (l : label) : option t :=
  if Ledger.terminated (book s) then None
  else match l with
  | LCall j clock x => Call j clock x s
  | LSlot i l =>
      if AsyncSlot.is_post l || WordTasks.is_destroy l then None
      else
        c ← words s !! i; c' ← W.step c l; b ← AsyncSlot.settle_step fn c l (book s);
        Some (mk (route s) (<[i := c']> (words s)) (sched s) b (called s) (entered s))
  | LScheduler c c' => scheduler_thread c c' s
  | LTimeout =>
      d ← D.step (sched s) D.LTimeout; Some (mk (route s) (words s) d (book s) (called s) (entered s))
  | LDeleteEntity e =>
      g ← G.DeleteEntity e (route s); Some (mk g (words s) (sched s) (book s) (called s) (entered s))
  end.

(** The clock does not go back between two readings of the scheduler thread. *)
Definition clock_ok (l : label) : Prop := match l with LScheduler c c' => 0 <= c <= c' | _ => True end.

Definition laps (s : t) : Prop := Forall (λ c, EventCountMachine.lap_ok (W.ec c)) (words s).

Inductive reachable (g : G.t) : t → Prop :=
| reach_make : reachable g (make g)
| reach_step s l s' : reachable g s → clock_ok l → step s l = Some s' → laps s' → reachable g s'.

Definition clock_okb (l : label) : bool :=
  match l with LScheduler c c' => (0 <=? c) && (c <=? c') | _ => true end.

Lemma clock_okb_ok l : clock_okb l = true → clock_ok l.
Proof. destruct l; try done. cbn. by intros [?%Z.leb_le ?%Z.leb_le]%andb_true_iff. Qed.

Fixpoint run (s : t) (ls : list label) : option t :=
  match ls with
  | [] => Some s
  | l :: ls' =>
      match step s l with
      | Some s' =>
          if clock_okb l && forallb (λ c, EventCountMachine.lap_okb (W.ec c)) (words s') then run s' ls' else None
      | None => None
      end
  end.

Lemma group_run_reachable g ls : ∀ s s', reachable g s → run s ls = Some s' → reachable g s'.
Proof.
  induction ls as [|l ls IH]; intros s s' Hr; cbn [run]; [by intros [= <-]|].
  destruct (step s l) as [s1|] eqn:E; [|done]. destruct (_ && _) eqn:Hb; [|done].
  apply andb_true_iff in Hb as [Hc Hl]. apply IH. eapply reach_step; [done| |done|].
  - by apply clock_okb_ok.
  - unfold laps. rewrite Forall_forall. intros c Hc'. rewrite forallb_forall in Hl.
    apply EventCountMachine.lap_okb_ok, Hl. by apply list_elem_of_In.
Qed.

(** ** Where the tasks are *)
Definition ran (ws : list W.t) : list nat := concat (map AsyncSlot.ran ws).

Definition waiting (ws : list W.t) : list nat := concat (map AsyncSlot.waiting ws).

Definition delayed_ids (d : D.t (Q := Q)) : list nat := map task_id (pq_elems (D.delayed_task d)).

Lemma words_insert i (c c' : W.t) (ws : list W.t) : ws !! i = Some c →
  ran ws ≡ₚ AsyncSlot.ran c ++ ran (base.delete i ws) ∧ waiting ws ≡ₚ AsyncSlot.waiting c ++ waiting (base.delete i ws) ∧
  ran (<[i := c']> ws) ≡ₚ AsyncSlot.ran c' ++ ran (base.delete i ws) ∧
  waiting (<[i := c']> ws) ≡ₚ AsyncSlot.waiting c' ++ waiting (base.delete i ws).
Proof. intros Hi. split_and!; by (apply concat_map_lookup || eapply concat_map_insert). Qed.

(** A slot of the group: [c] is a state of the machine of SlotWord.v. *)
Definition sound (c : W.t) : Prop :=
  ∃ cpus, List.length cpus < 2 ^ 16 - 1 ∧ W.reachable cpus (callers + 1) c ∧
    ExecutorSlot.done (W.slot c) = false ∧ ExecutorSlot.num_workers (W.slot c) ≠ 0%nat.

Lemma sound_step c l c' : sound c → WordTasks.is_destroy l = false → W.step c l = Some c' →
  EventCountMachine.lap_ok (W.ec c') → sound c'.
Proof.
  intros (cpus & Hn & Hr & Hd & Hw) Hl E Hlap. destruct (WordTasks.word_step_framed _ _ _ E Hl) as [Hd' Hw'].
  exists cpus. rewrite Hd', Hw'. split_and!; try done. by eapply W.reach_step.
Qed.

(** The group as a part of a whole: [r], [w] and [f] are the tasks that have run, wait and have
    come to slots elsewhere, under the same book. *)
Record inv (r w f : list nat) (s : t) : Prop := {
  g_route : G.wf (route s);
  g_len : List.length (words s) = List.length (G.slots (route s));
  g_words : Forall sound (words s);
  g_sched : ∃ p, D.inv p (sched s);
  g_book : Ledger.ok fn (ran (words s) ++ r) ((waiting (words s) ++ delayed_ids (sched s)) ++ w) (book s);
  g_entered : map snd (entered s) ≡ₚ (ran (words s) ++ waiting (words s)) ++ f;
  g_called id : is_Some (called s !! id) → is_Some (Ledger.promises (book s) !! id);
  g_due c id : (c, id) ∈ entered s → ∃ y, called s !! id = Some y ∧ get_delay c y <= 0;
  g_delayed x : x ∈ pq_elems (D.delayed_task (sched s)) → ∃ y, called s !! task_id x = Some y ∧ created_at y = created_at x
}.

(** A group whose slots have processors. *)
Record startable (g : G.t) : Prop := {
  st_wf : G.wf g;
  st_cpus x : x ∈ G.slots g → 0 < List.length (G.slot_cpus x) < 2 ^ 16 - 1
}.

Lemma group_inv_make g : startable g → inv [] [] [] (make g).
Proof.
  intros [Hw Hc]. assert (∀ ss : list G.slot, ran (map (λ s, W.make (map c_id (G.slot_cpus s)) (callers + 1)) ss) = [] ∧
    waiting (map (λ s, W.make (map c_id (G.slot_cpus s)) (callers + 1)) ss) = []) as Hnone.
  { induction ss as [|x ss [IH1 IH2]]; [done|]. unfold ran, waiting in *. cbn [map concat]. rewrite IH1, IH2.
    by destruct (AsyncSlot.make_no_task (map c_id (G.slot_cpus x)) (callers + 1)) as [-> ->]. }
  destruct (Hnone (G.slots g)) as [Hr Hwt]. split; cbn [make route words sched book called entered].
  - done.
  - by rewrite length_map.
  - rewrite Forall_forall. intros c (x & -> & Hx)%list_elem_of_fmap. exists (map c_id (G.slot_cpus x)).
    specialize (Hc x Hx). rewrite length_map. split; [lia|]. split; [constructor|]. split; [done|].
    unfold ExecutorSlot.num_workers. cbn. rewrite !length_map. lia.
  - exists []. apply D.inv_make.
  - rewrite Hr, Hwt. unfold delayed_ids. cbn. rewrite pq_elems_empty. apply Ledger.ok_make.
  - by rewrite Hr, Hwt.
  - intros id. by rewrite lookup_empty.
  - by intros c id ?%not_elem_of_nil.
  - cbn. rewrite pq_elems_empty. by intros x ?%not_elem_of_nil.
Qed.

(** ** Preservation *)
Lemma post_slot_words j i x ws ws' : post_slot j i x ws = Some ws' → Forall sound ws →
  Forall (λ c, EventCountMachine.lap_ok (W.ec c)) ws' →
  Forall sound ws' ∧ List.length ws' = List.length ws ∧ ran ws' ≡ₚ ran ws ∧ waiting ws' ≡ₚ task_id x :: waiting ws.
Proof.
  unfold post_slot. destruct (ws !! Z.to_nat i) as [c|] eqn:Hi; [|done]. cbn [mbind option_bind].
  destruct (W.step c (W.LPost j x)) as [c'|] eqn:E; [|done]. intros [= <-] Hs Hlap. cbn in E.
  destruct (AsyncSlot.post_waiting _ _ _ _ E) as [Hr Hw]. destruct (words_insert _ _ c' _ Hi) as (Ra & Wa & Rb & Wb).
  split_and!.
  - apply Forall_insert; [done|]. apply (sound_step c (W.LPost j x)); [by eapply Forall_lookup_1|done|exact E|].
    eapply (Forall_lookup_1 _ _ (Z.to_nat i)) in Hlap; [done|]. apply list_lookup_insert_eq. by eapply lookup_lt_Some.
  - apply length_insert.
  - by rewrite Ra, Rb, Hr.
  - by rewrite Wa, Wb, Hw.
Qed.

(** What a turn of the scheduler thread takes from the queue. *)
Lemma scheduler_turn c c' (d d' : D.t (Q := Q)) : D.step d (D.LThread c c') = Some d' →
  match due c d with
  | Some x => get_delay c x <= 0 ∧ (get_delay c' x <= 0 → pq_elems (D.delayed_task d) ≡ₚ x :: pq_elems (D.delayed_task d'))
  | None => D.delayed_task d' = D.delayed_task d
  end.
Proof.
  unfold due. cbn. destruct (D.thread d); try done; try by intros [= <-].
  unfold D.loop_body. destruct (pq_top (D.delayed_task d)) as [x|] eqn:Hx; cbn; [|by intros [= <-]].
  destruct (Z.leb_spec (get_delay c x) 0) as [Hd|Hd]; [|by intros [= <-]].
  intros E. split; [done|]. intros Hd'. unfold D.callback_reenters in E. rewrite (proj2 (Z.leb_le _ _) Hd') in E.
  cbn in E. injection E as <-. cbn. by apply pq_top_Some.
Qed.

Lemma scheduler_post x (d d' : D.t (Q := Q)) : D.step d (D.LPost x) = Some d' →
  pq_elems (D.delayed_task d') ≡ₚ x :: pq_elems (D.delayed_task d).
Proof.
  cbn. destruct (D.thread d) eqn:Ht; try done; intros [= <-]; unfold D.Post, D.notify_one; cbn; rewrite Ht; apply pq_elems_push.
Qed.

(** A new call adds its task to those of the calls made so far. *)
Lemma called_insert (m : gmap nat task) x b b' : (∀ id, is_Some (m !! id) → is_Some (Ledger.promises b !! id)) →
  Ledger.issue (S := S) (task_id x) b = Some b' →
  m ⊆ <[task_id x := x]> m ∧ ∀ id, is_Some (<[task_id x := x]> m !! id) → is_Some (Ledger.promises b' !! id).
Proof.
  intros Hm Hb. destruct (Ledger.issue_promises _ _ _ Hb) as [Hn [p ->]]. split.
  - apply insert_subseteq. destruct (m !! task_id x) as [y|] eqn:E; [|done]. destruct (Hm (task_id x)) as [q Hq]; [eauto|congruence].
  - intros id. rewrite !lookup_insert_is_Some'. naive_solver.
Qed.

(** What the routing of a call of task [x] gives. *)
Definition routed (clock : Z) (x : task) (tg : G.target) : Prop :=
  match tg with
  | G.ToSlot i y => task_id y = task_id x ∧ get_delay clock x <= 0
  | G.ToScheduler y => task_id y = task_id x ∧ created_at y = created_at x ∧ 0 < get_delay clock x
  end.

Lemma inv_deliver r w f j clock x b g tg (s s' : t) : inv r w f s → Ledger.issue (task_id x) (book s) = Some b →
  G.wf g → List.length (G.slots g) = List.length (G.slots (route s)) → routed clock x tg →
  deliver j clock x b g tg s = Some s' → laps s' → inv r w f s'.
Proof.
  intros [Hroute Hl Hws [p Hp] Hbook Hent Hca Hdue Hdel] Eb Hwf Hlen Htg. destruct (called_insert _ _ _ _ Hca Eb) as [Hsub Hca'].
  pose proof (Ledger.ok_issue _ _ _ _ _ _ Hbook Eb) as Hok.
  assert (∀ c id, (c, id) ∈ entered s → ∃ y, <[task_id x := x]> (called s) !! id = Some y ∧ get_delay c y <= 0) as Hdue'.
  { intros c id Hc. destruct (Hdue c id Hc) as (y & Hy & ?). exists y. split; [by eapply lookup_weaken|done]. }
  assert (∀ u, u ∈ pq_elems (D.delayed_task (sched s)) → ∃ y, <[task_id x := x]> (called s) !! task_id u = Some y ∧ created_at y = created_at u) as Hdel'.
  { intros u Hu. destruct (Hdel u Hu) as (y & Hy & ?). exists y. split; [by eapply lookup_weaken|done]. }
  unfold deliver. destruct tg as [i y|y]; [destruct Htg as [Hid Hd]|destruct Htg as (Hid & Hd & _)].
  - destruct (post_slot _ _ _ _) as [ws|] eqn:Ews; [|done]. intros [= <-] Hlap.
    destruct (post_slot_words _ _ _ _ _ Ews Hws Hlap) as (Hs' & Hl' & Hr' & Hw'). rewrite Hid in Hw'.
    split; cbn [route words sched book called entered]; try done.
    + congruence.
    + by exists p.
    + eapply Ledger.ok_perm; [exact Hok|by rewrite Hr'|]. by rewrite Hw'.
    + cbn. rewrite Hent, Hr', Hw', Hid. by rewrite <- Permutation_middle.
    + intros c id [[= -> ->]|Hin]%elem_of_cons; [|by apply Hdue']. exists x. by rewrite Hid, lookup_insert_eq.
  - destruct (free callers s); [|done].
    destruct (D.step (sched s) _) as [d|] eqn:Ed; [|done]. intros [= <-] Hlap. pose proof (scheduler_post _ _ _ Ed) as Hel.
    split; cbn [route words sched book called entered]; try done.
    + congruence.
    + eexists. by apply (D.inv_step p (sched s) (D.LPost y) d Hp I).
    + eapply Ledger.ok_perm; [exact Hok|done|]. unfold delayed_ids. rewrite Hel. cbn. rewrite Hid. by rewrite <- Permutation_middle.
    + intros u. rewrite Hel, elem_of_cons. intros [->|Hu]; [|by apply Hdel']. exists x. by rewrite Hid, lookup_insert_eq.
Qed.

Lemma Post_routed clock x g g' tg : G.wf g → G.Post clock x g = Some (g', tg) →
  G.wf g' ∧ List.length (G.slots g') = List.length (G.slots g) ∧ routed clock x tg.
Proof.
  intros Hw E. destruct (G.Post_ok clock x g Hw) as (g1 & tg1 & E1 & Hw' & _). rewrite E in E1. injection E1 as <- <-.
  destruct (G.Post_target _ _ _ _ _ Hw E) as [Hl Ht]. split_and!; try done. destruct tg; cbn; [by destruct Ht as (-> & ? & _)|by destruct Ht as (-> & ?)].
Qed.

Lemma group_inv_call r w f j clock x (s s' : t) : inv r w f s → Call j clock x s = Some s' → laps s' → inv r w f s'.
Proof.
  intros Hi. unfold Call. destruct (_ && _); [|done]. destruct (Ledger.issue _ _) as [b|] eqn:Eb; [|done].
  cbn [mbind option_bind]. destruct (G.Post clock x (route s)) as [[g tg]|] eqn:Ep; [|done]. cbn [mbind option_bind].
  destruct (Post_routed _ _ _ _ _ (g_route _ _ _ _ Hi) Ep) as (? & ? & ?). by eapply inv_deliver.
Qed.

Lemma group_inv_scheduler r w f c c' (s s' : t) : inv r w f s → 0 <= c <= c' → scheduler_thread c c' s = Some s' → laps s' → inv r w f s'.
Proof.
  intros [Hroute Hl Hws [p Hp] Hbook Hent Hca Hdue Hdel] Hc. unfold scheduler_thread. destruct (free callers s); [|done].
  destruct (D.step (sched s) _) as [d|] eqn:Ed; [|done]. cbn [mbind option_bind].
  pose proof (scheduler_turn _ _ _ _ Ed) as Hturn. pose proof (D.inv_step p _ (D.LThread c c') d Hp Hc Ed) as Hp'. cbn in Hp'.
  destruct (due c (sched s)) as [x|].
  - destruct Hturn as [Hx Hel]. assert (get_delay c' x <= 0) as Hx'.
    { pose proof (Timestamp.NowMicro_mono c c' Hc). unfold get_delay in *. lia. }
    specialize (Hel Hx'). destruct (G.post_due c' x (route s) Hroute Hx') as (g & i & Ep).
    destruct (Post_routed _ _ _ _ _ Hroute Ep) as (Hwf & Hlen & _). rewrite Ep. cbn [mbind option_bind].
    destruct (post_slot _ _ _ _) as [ws|] eqn:Ews; [|done]. intros [= <-] Hlap.
    destruct (post_slot_words _ _ _ _ _ Ews Hws Hlap) as (Hs' & Hl' & Hr' & Hw'). cbn [task_id set_execution_state_wg set_execution_state] in Hw'.
    split; cbn [route words sched book called entered]; try done.
    + congruence.
    + by exists p.
    + eapply Ledger.ok_perm; [exact Hbook|by rewrite Hr'|]. unfold delayed_ids. rewrite Hw', Hel. cbn. by rewrite <- Permutation_middle.
    + cbn. rewrite Hent, Hr', Hw'. by rewrite <- Permutation_middle.
    + intros c0 id [[= -> ->]|Hin]%elem_of_cons; [|by apply Hdue]. destruct (Hdel x) as (y & Hy & Ht); [rewrite Hel; left|].
      exists y. split; [done|]. unfold get_delay in *. by rewrite Ht.
    + intros u Hu. apply Hdel. rewrite Hel. by right.
  - intros [= <-] _. split; cbn [route words sched book called entered]; try done.
    + by exists p.
    + unfold delayed_ids. by rewrite Hturn.
    + intros u. by rewrite Hturn; apply Hdel.
Qed.

Lemma group_inv_slot r w f i l (s s' : t) : inv r w f s → step s (LSlot i l) = Some s' → laps s' → inv r w f s'.
Proof.
  intros [Hroute Hl Hws Hp Hbook Hent Hca Hdue Hdel]. unfold step. destruct (Ledger.terminated (book s)) eqn:Ht; [done|].
  destruct (AsyncSlot.is_post l) eqn:Hpo; [done|]. destruct (WordTasks.is_destroy l) eqn:Hde; [done|]. cbn [orb].
  destruct (words s !! i) as [c|] eqn:Hi; [|done]. cbn [mbind option_bind].
  destruct (W.step c l) as [c'|] eqn:E; [|done]. cbn [mbind option_bind]. intros Es Hlap.
  destruct (words_insert _ _ c' _ Hi) as (Ra & Wa & Rb & Wb).
  destruct (AsyncSlot.ok_settle_step fn (ran (base.delete i (words s)) ++ r) ((waiting (base.delete i (words s)) ++ delayed_ids (sched s)) ++ w)
    l c c' (book s) Hpo E Ht) as (b & Eb & Hok).
  { eapply Ledger.ok_perm; [exact Hbook|by rewrite Ra, (assoc_L (++))|]. by rewrite Wa, !(assoc_L (++)). }
  rewrite Eb in Es. injection Es as <-. cbn in Hlap.
  assert (AsyncSlot.ran c' ++ AsyncSlot.waiting c' ≡ₚ AsyncSlot.ran c ++ AsyncSlot.waiting c) as Hall.
  { pose proof (WordTasks.word_step_tasks _ _ _ E) as Htask. unfold AsyncSlot.ran, AsyncSlot.waiting, ExecutorSlot.ran.
    assert (WordTasks.posts l = []) as Hnp by (by destruct l).
    destruct (WordTasks.runs c l) as [[k x]|]; destruct Htask as [-> Hw]; cbn in Hw; rewrite Hw; [by rewrite <- Permutation_middle|].
    by rewrite Hnp. }
  split; cbn [route words sched book called entered]; try done.
  - by rewrite length_insert.
  - apply Forall_insert; [done|]. apply (sound_step c l); [by eapply Forall_lookup_1|done|exact E|].
    eapply (Forall_lookup_1 _ _ i) in Hlap; [done|]. apply list_lookup_insert_eq. by eapply lookup_lt_Some.
  - eapply Ledger.ok_perm; [exact Hok|by rewrite Rb, (assoc_L (++))|]. by rewrite Wb, !(assoc_L (++)).
  - rewrite Hent, Ra, Wa, Rb, Wb, (app_mixed (AsyncSlot.ran c)), (app_mixed (AsyncSlot.ran c')), Hall. done.
  - intros id Hid. by rewrite (AsyncSlot.settle_step_promises _ _ _ _ _ Eb); apply Hca.
Qed.

Lemma group_inv_step r w f l (s s' : t) : inv r w f s → clock_ok l → step s l = Some s' → laps s' → inv r w f s'.
Proof.
  intros Hi Hc E Hlap. destruct l as [j clock x|i l|c c'| |e]; [|by eapply group_inv_slot|..];
    unfold step in E; destruct (Ledger.terminated (book s)); try done.
  - by eapply group_inv_call.
  - by eapply group_inv_scheduler.
  - destruct Hi as [Hroute Hl Hws [p Hp] Hbook Hent Hca Hdue Hdel].
    destruct (D.step (sched s) D.LTimeout) as [d|] eqn:Ed; [|done]. cbn in E. injection E as <-.
    assert (D.delayed_task d = D.delayed_task (sched s)) as Hq
      by (cbn in Ed; destruct (D.thread (sched s)); try done; by injection Ed as <-).
    split; cbn [route words sched book called entered]; try done.
    + exists p. by apply (D.inv_step p (sched s) D.LTimeout d Hp I).
    + unfold delayed_ids. by rewrite Hq.
    + by rewrite Hq.
  - destruct Hi as [Hroute Hl Hws Hp Hbook Hent Hca Hdue Hdel].
    destruct (G.DeleteEntity e (route s)) as [g|] eqn:Eg; [|done]. cbn in E. injection E as <-.
    destruct (G.DeleteEntity_ok e (route s) Hroute) as (g' & Eg' & Hwf & _). rewrite Eg in Eg'. injection Eg' as <-.
    split; cbn [route words sched book called entered]; try done. by rewrite Hl, (G.DeleteEntity_length _ _ _ Eg).
Qed.

(** ** What the steps of a group do *)
(** The task a step executes. *)
Definition executes (ws : list W.t) (l : label) : option task :=
  match l with LSlot i l => c ← ws !! i; snd <$> WordTasks.runs c l | _ => None end.

Definition executed_ids (o : option task) : list nat := match o with Some x => [task_id x] | None => [] end.

Lemma post_slot_ran j i x ws ws' : post_slot j i x ws = Some ws' → ran ws' ≡ₚ ran ws.
Proof.
  unfold post_slot. destruct (ws !! Z.to_nat i) as [c|] eqn:Hi; [|done]. cbn [mbind option_bind].
  destruct (W.step c (W.LPost j x)) as [c'|] eqn:E; [|done]. intros [= <-].
  destruct (AsyncSlot.post_waiting _ _ _ _ E) as [Hr _]. destruct (words_insert _ _ c' _ Hi) as (Ra & _ & Rb & _).
  by rewrite Ra, Rb, Hr.
Qed.

Lemma deliver_effect j clock x b g tg (s s' : t) : deliver j clock x b g tg s = Some s' →
  ran (words s') ≡ₚ ran (words s) ∧ (∃ es, entered s' = es ++ entered s) ∧
  ∀ i y, tg = G.ToSlot i y → (clock, task_id y) ∈ entered s'.
Proof.
  unfold deliver. destruct tg as [i y|y].
  - destruct (post_slot _ _ _ _) as [ws|] eqn:E; [|done]. intros [= <-]. split; [by eapply post_slot_ran|].
    split; [by exists [(clock, task_id y)]|]. intros i0 y0 [= <- <-]. left.
  - destruct (free callers s); [|done]. destruct (D.step _ _); [|done]. intros [= <-]. split; [done|]. split; [by exists []|done].
Qed.

Lemma scheduler_effect c c' (s s' : t) : scheduler_thread c c' s = Some s' →
  ran (words s') ≡ₚ ran (words s) ∧ ∃ es, entered s' = es ++ entered s.
Proof.
  unfold scheduler_thread. destruct (free callers s); [|done]. destruct (D.step _ _); [|done]. cbn [mbind option_bind].
  destruct (due c (sched s)); [|intros [= <-]; split; [done|by exists []]].
  destruct (G.Post _ _ _) as [[g [i y|y]]|]; [|intros [= <-]; split; [done|by exists []]|done].
  cbn [mbind option_bind]. destruct (post_slot _ _ _ _) as [ws|] eqn:E; [|done]. intros [= <-]. split; [by eapply post_slot_ran|].
  by exists [(c', task_id y)].
Qed.

Lemma slot_effect i l (s s' : t) : step s (LSlot i l) = Some s' →
  ran (words s') ≡ₚ executed_ids (executes (words s) (LSlot i l)) ++ ran (words s) ∧ entered s' = entered s.
Proof.
  unfold step. destruct (Ledger.terminated (book s)); [done|]. destruct (AsyncSlot.is_post l) eqn:Hpo; [done|].
  destruct (WordTasks.is_destroy l); [done|]. cbn [orb executes].
  destruct (words s !! i) as [c|] eqn:Hi; [|done]. cbn [mbind option_bind].
  destruct (W.step c l) as [c'|] eqn:E; [|done]. cbn [mbind option_bind].
  destruct (AsyncSlot.settle_step fn _ _ _); [|done]. intros [= <-]. split; [|done]. cbn.
  destruct (words_insert _ _ c' _ Hi) as (Ra & _ & Rb & _). rewrite Ra, Rb.
  pose proof (WordTasks.word_step_tasks _ _ _ E) as Htask. unfold AsyncSlot.ran, ExecutorSlot.ran.
  destruct (WordTasks.runs c l) as [[k x]|]; destruct Htask as [-> _]; done.
Qed.

Lemma timeout_effect (s s' : t) : step s LTimeout = Some s' → words s' = words s ∧ entered s' = entered s.
Proof. unfold step. destruct (Ledger.terminated (book s)); [done|]. destruct (D.step _ _); [|done]. by intros [= <-]. Qed.

(** What the steps of a group keep, whatever they do. *)
Lemma post_slot_length j i x ws ws' : post_slot j i x ws = Some ws' → List.length ws' = List.length ws.
Proof.
  unfold post_slot. destruct (ws !! _); [|done]. cbn [mbind option_bind]. destruct (W.step _ _); [|done]. cbn [mbind option_bind].
  intros [= <-]. apply length_insert.
Qed.

Lemma deliver_frame j clock x b g tg (s s' : t) : deliver j clock x b g tg s = Some s' →
  List.length (words s') = List.length (words s) ∧ called s' = <[task_id x := x]> (called s).
Proof.
  unfold deliver. destruct tg as [i y|y].
  - destruct (post_slot _ _ _ _) as [ws|] eqn:E; [|done]. intros [= <-]. split; [|done]. by eapply post_slot_length.
  - destruct (free callers s); [|done]. destruct (D.step _ _); [|done]. by intros [= <-].
Qed.

Lemma deliver_book j clock x b g tg (s s' : t) : deliver j clock x b g tg s = Some s' → book s' = b.
Proof.
  unfold deliver. destruct tg as [i y|y]; [by destruct (post_slot _ _ _ _); [intros [= <-]|]|].
  destruct (free callers s); [|done]. destruct (D.step _ _); [|done]. by intros [= <-].
Qed.

Lemma scheduler_thread_frame c c' (s s' : t) : scheduler_thread c c' s = Some s' →
  List.length (words s') = List.length (words s) ∧ called s' = called s.
Proof.
  unfold scheduler_thread. destruct (free callers s); [|done]. destruct (D.step _ _); [|done]. cbn [mbind option_bind].
  destruct (due c (sched s)); [|by intros [= <-]]. destruct (G.Post _ _ _) as [[g [i y|y]]|]; [|by intros [= <-]|done].
  cbn [mbind option_bind]. destruct (post_slot _ _ _ _) as [ws|] eqn:E; [|done]. intros [= <-]. split; [|done]. by eapply post_slot_length.
Qed.

Lemma slot_step_frame i l (s s' : t) : step s (LSlot i l) = Some s' →
  List.length (words s') = List.length (words s) ∧ called s' = called s.
Proof.
  unfold step. destruct (Ledger.terminated (book s)); [done|]. destruct (_ || _); [done|]. destruct (words s !! i); [|done]. cbn [mbind option_bind].
  destruct (W.step _ _); [|done]. cbn [mbind option_bind]. destruct (AsyncSlot.settle_step fn _ _ _); [|done]. intros [= <-].
  split; [apply length_insert|done].
Qed.

Lemma timeout_frame (s s' : t) : step s LTimeout = Some s' → words s' = words s ∧ called s' = called s.
Proof.
  unfold step. destruct (Ledger.terminated (book s)); [done|]. destruct (D.step _ _); [|done]. by intros [= <-].
Qed.

(** Only calls make promises. *)
Lemma thread_promises l (s s' : t) : step s l = Some s' →
  match l with LCall _ _ _ => True | _ => Ledger.promises (book s') = Ledger.promises (book s) end.
Proof.
  unfold step. destruct (Ledger.terminated (book s)); [done|]. destruct l as [|i l|c c'| |e]; intros E; [done|..].
  - destruct (_ || _); [done|]. destruct (words s !! i); [|done]. cbn [mbind option_bind] in E.
    destruct (W.step _ _); [|done]. cbn [mbind option_bind] in E. destruct (AsyncSlot.settle_step fn _ _ _) eqn:Es; [|done].
    injection E as <-. by eapply AsyncSlot.settle_step_promises.
  - unfold scheduler_thread in E. destruct (free callers s); [|done]. destruct (D.step _ _); [|done]. cbn [mbind option_bind] in E.
    destruct (due c (sched s)); [|by injection E as <-]. destruct (G.Post _ _ _) as [[g [i y|y]]|]; [|by injection E as <-|done].
    cbn [mbind option_bind] in E. destruct (post_slot _ _ _ _); [|done]. by injection E as <-.
  - destruct (D.step _ _); [|done]. by injection E as <-.
  - destruct (G.DeleteEntity _ _); [|done]. by injection E as <-.
Qed.

Lemma group_reachable_inv g (s : t) : startable g → reachable g s → inv [] [] [] s.
Proof. intros Hg. induction 1; [by apply group_inv_make|by eapply group_inv_step]. Qed.

(** ** At rest *)
(** In every slot the workers are blocked and no thread is inside [post]. *)
Definition resting (s : t) : Prop := Forall WordTasks.quiet (words s).

Lemma restingb_resting (s : t) : forallb WordTasks.quietb (words s) = true → resting s.
Proof.
  rewrite forallb_forall. intros Hq. apply Forall_forall. intros c Hc. by apply WordTasks.quietb_quiet, Hq, list_elem_of_In.
Qed.

Lemma quiet_words_empty (ws : list W.t) : Forall sound ws → Forall WordTasks.quiet ws → waiting ws = [].
Proof.
  induction ws as [|c ws IH]; [done|]. intros [(cpus & Hn & Hr & Hd & Hw) Hs]%Forall_cons [Hqc Hq]%Forall_cons.
  unfold waiting, AsyncSlot.waiting in *. cbn.
  by rewrite (WordTasks.blocked_no_task cpus _ c Hn Hr Hd Hw Hqc), (IH Hs Hq).
Qed.

Lemma resting_empty r w f (s : t) : inv r w f s → resting s → waiting (words s) = [].
Proof. intros Hi Hq. apply quiet_words_empty; [apply Hi|done]. Qed.

(** The future of a task shows what its function did. *)
Definition answered (s : t) (id p : nat) : Prop :=
  ∃ r, fut_state p (Ledger.futs (book s)) = Some (Ready r) ∧ Ledger.answer (fn id) = Ready r.

Lemma resting_answered (s : t) id p : inv [] [] [] s → resting s → Ledger.terminated (book s) = false →
  Ledger.promises (book s) !! id = Some p →
  answered s id p ∨ ∃ x, x ∈ pq_elems (D.delayed_task (sched s)) ∧ task_id x = id.
Proof.
  intros Hi Hq Ht Hp. pose proof (g_book _ _ _ _ Hi) as Hok. rewrite (resting_empty _ _ _ s Hi Hq), !app_nil_r in Hok. cbn in Hok.
  destruct (decide (id ∈ delayed_ids (sched s))) as [Hin|Hin]; [right|left; by eapply Ledger.ok_answered].
  apply list_elem_of_fmap in Hin as (x & -> & Hx). by exists x.
Qed.

Lemma entered_due r w f (s : t) id : inv r w f s → id ∈ ran (words s) →
  ∃ c y, (c, id) ∈ entered s ∧ called s !! id = Some y ∧ get_delay c y <= 0.
Proof.
  intros Hi Hr. assert (id ∈ map snd (entered s)) as Hin by (rewrite (g_entered _ _ _ _ Hi); set_solver).
  apply list_elem_of_fmap in Hin as ([c id'] & -> & Hin). destruct (g_due _ _ _ _ Hi _ _ Hin) as (y & ? & ?). by exists c, y.
Qed.

(** ** No call goes wrong *)
Lemma free_post r w f j i x (s : t) : inv r w f s → free j s = true → 0 <= i < List.length (G.slots (route s)) →
  is_Some (post_slot j i x (words s)).
Proof.
  intros Hi Hf Hr. rewrite <- (g_len _ _ _ _ Hi) in Hr. destruct (lookup_lt_is_Some_2 (words s) (Z.to_nat i)) as [c Hc]; [lia|].
  unfold post_slot. rewrite Hc. cbn [mbind option_bind]. unfold free in Hf. rewrite forallb_forall in Hf.
  specialize (Hf c ltac:(by eapply list_elem_of_In, list_elem_of_lookup_2)). unfold idle in Hf. cbn.
  destruct (ExecutorSlot.posters (W.slot c) !! j) as [[]|]; try done. destruct (ExecutorSlot.post x (W.slot c)). cbn. eauto.
Qed.

Lemma deliver_goes_on r w f j clock x b g tg (s : t) : inv r w f s → free j s = true →
  match tg with G.ToSlot i _ => 0 <= i < List.length (G.slots (route s)) | G.ToScheduler _ => free callers s = true end →
  is_Some (deliver j clock x b g tg s).
Proof.
  intros Hi Hf Htg. unfold deliver. destruct tg as [i y|y].
  - destruct (free_post _ _ _ j i y s Hi Hf Htg) as [ws ->]. cbn. eauto.
  - rewrite Htg. destruct (g_sched _ _ _ _ Hi) as [p [_ _ Hal _ _]]. cbn. destruct (D.thread (sched s)); cbn; eauto. done.
Qed.

Lemma call_goes_on r w f j clock x (s : t) : inv r w f s → (j < callers)%nat → free j s = true → free callers s = true →
  Ledger.promises (book s) !! task_id x = None → is_Some (Call j clock x s).
Proof.
  intros Hi Hj Hf Hf' Hn. unfold Call. rewrite (proj2 (Nat.ltb_lt _ _) Hj), Hf. cbn [andb].
  unfold Ledger.issue. rewrite Hn. destruct (fut_make _) as [q fs]. cbn [mbind option_bind].
  destruct (G.Post_ok clock x (route s) (g_route _ _ _ _ Hi)) as (g & tg & Ep & _). rewrite Ep. cbn [mbind option_bind].
  destruct (G.Post_target _ _ _ _ _ (g_route _ _ _ _ Hi) Ep) as [_ Htg].
  eapply deliver_goes_on; [done..|]. destruct tg; [by destruct Htg as (_ & _ & ?)|done].
Qed.

Lemma scheduler_goes_on r w f c c' (s : t) : inv r w f s → 0 <= c <= c' → free callers s = true →
  D.thread (sched s) = D.AtLoop ∨ D.thread (sched s) = D.AtLock → is_Some (scheduler_thread c c' s).
Proof.
  intros Hi Hc Hf Hpc. unfold scheduler_thread. rewrite Hf.
  assert (is_Some (D.step (sched s) (D.LThread c c'))) as [d Ed] by (cbn; destruct Hpc as [-> | ->]; eauto).
  rewrite Ed. cbn [mbind option_bind]. pose proof (scheduler_turn _ _ _ _ Ed) as Ht.
  destruct (due c (sched s)) as [x|]; [|eauto]. destruct Ht as [Hx _].
  assert (get_delay c' x <= 0) as Hx' by (pose proof (Timestamp.NowMicro_mono c c' Hc); unfold get_delay in *; lia).
  destruct (G.post_due c' x (route s) (g_route _ _ _ _ Hi) Hx') as (g & i & Ep). rewrite Ep. cbn [mbind option_bind].
  destruct (G.Post_target _ _ _ _ _ (g_route _ _ _ _ Hi) Ep) as (_ & _ & _ & Hr).
  destruct (free_post _ _ _ callers i (set_execution_state_wg (G.g_id (route s)) x) s Hi Hf Hr) as [ws ->]. cbn. eauto.
Qed.
End group.
Arguments t : clear implicits.
End GroupMachine.
Import Ledger GroupMachine.

(** A work group answers its calls.  However calling threads, the workers of all slots, the
    scheduler thread and deletions of entities interleave, a task runs at most once, and its future shows what its function
    did exactly from then on; a task that ran had come to its slot at a clock at which its delay was
    over; and when every slot is at rest and the scheduler thread waits, every future has its answer, except those
    of the delayed tasks it keeps, all of them early at the clock at which it fell asleep, and it sleeps exactly until
    the earliest of them is due. *)
Theorem group_answers {S V Q : Type} `{FuturesLaws S (V + unit)} `{PriorityQueueLaws Q} (fn : nat → outcome V)
    (callers : nat) (g : WorkGroup.t) (s : GroupMachine.t S Q) :
  startable g → reachable fn callers g s →
  NoDup (ran (words s)) ∧
  (∀ id p, promises (book s) !! id = Some p →
     fut_state p (futs (book s)) = Some (if decide (id ∈ ran (words s)) then answer (fn id) else Pending)) ∧
  (∀ id, id ∈ ran (words s) → ∃ c y, (c, id) ∈ entered s ∧ called s !! id = Some y ∧ get_delay c y <= 0) ∧
  (terminated (book s) = true ↔ ∃ id, id ∈ ran (words s) ∧ fn id = ThrowsOther) ∧
  (terminated (book s) = false → resting s →
    (Scheduler.thread (sched s) = Scheduler.InWait →
      ∀ id p, promises (book s) !! id = Some p → answered fn s id p) ∧
    (∀ c us, Scheduler.thread (sched s) = Scheduler.InWaitFor c us → 0 < us ∧
      (∃ id y, id ∈ delayed_ids (sched s) ∧ called s !! id = Some y ∧ get_delay c y = us) ∧
      ∀ id p, promises (book s) !! id = Some p →
        answered fn s id p ∨ (id ∈ delayed_ids (sched s) ∧ ∃ y, called s !! id = Some y ∧ us <= get_delay c y))).
Proof.
  intros Hg Hr. pose proof (group_reachable_inv fn callers g s Hg Hr) as Hi. pose proof (g_book _ _ _ _ _ _ Hi) as Hok. rewrite !app_nil_r in Hok.
  destruct (g_sched _ _ _ _ _ _ Hi) as [q [_ _ _ Hwait Hidle]].
  assert (∀ c x, x ∈ pq_elems (Scheduler.delayed_task (sched s)) →
    ∃ y, called s !! task_id x = Some y ∧ get_delay c y = get_delay c x) as Hcalled.
  { intros c x Hx. destruct (g_delayed _ _ _ _ _ _ Hi x Hx) as (y & Hy & E). exists y. unfold get_delay. by rewrite E. }
  split_and!.
  - by eapply ok_ran_once.
  - apply Hok.
  - intros id. by eapply entered_due.
  - by eapply ok_terminated.
  - intros Ht Hq. split.
    + intros Hw id p Hp. destruct (resting_answered fn callers s id p Hi Hq Ht Hp) as [?|(x & Hx & _)]; [done|].
      rewrite (Hidle Hw) in Hx. by apply not_elem_of_nil in Hx.
    + intros c us Hw. destruct (Hwait c us Hw) as [_ Hus (x & Hx & E) Hmin]. split; [done|]. split.
      * destruct (Hcalled c x Hx) as (y & Hy & Ey). exists (task_id x), y. split; [by apply list_elem_of_fmap_2|]. split; [done|congruence].
      * intros id p Hp. destruct (resting_answered fn callers s id p Hi Hq Ht Hp) as [?|(u & Hu & <-)]; [by left|right].
        split; [by apply list_elem_of_fmap_2|].
        destruct (Hcalled c u Hu) as (y & Hy & Ey). exists y. split; [done|]. rewrite Ey. by apply Hmin.
Qed.

Module GroupExample.
Import SlotWord.

(** Two slots of one worker; task 7 is due at once, task 8 after 50 microseconds. *)
Definition square (id : nat) : outcome Z := Returns (Z.of_nat id * Z.of_nat id).

Definition seven : task := tagged 7 5.

Definition eight : task := mkTask 8 (mkES 6 INVALID_OBJECT_ID INVALID_OBJECT_ID None) 50 50.

(** The notification of thread [j] in slot [i], whose worker then runs one task and goes to sleep. *)
Definition notified (i j : nat) : list GroupMachine.label := replicate 3 (LSlot i (LNotify j false)).

Definition works (i : nat) : list GroupMachine.label :=
  map (LSlot i) (replicate 4 (LWorker 0 false false) ++ to_sleep).

Definition early : list GroupMachine.label :=
  [LCall 0 0 seven] ++ notified 0 1 ++ [LCall 0 0 eight] ++ works 0 ++ map (LSlot 1) to_sleep ++
  [LScheduler 1000 1000; LScheduler 1000 1000].

(** Its delay over, task 8 comes to slot 1, whose worker is woken. *)
Definition late : list GroupMachine.label :=
  [LTimeout; LScheduler 60000 60000; LScheduler 60000 61000] ++ replicate 9 (LSlot 1 (LNotify 2 false)) ++
  [LSlot 1 (LWorker 0 false false)] ++ works 1 ++ [LScheduler 62000 62000; LScheduler 62000 62000].

Definition start : GroupMachine.t (MapFutures.t (Z + unit)) (list task) := GroupMachine.make 1 two_slots.

Definition asleep : GroupMachine.t (MapFutures.t (Z + unit)) (list task) :=
  default start (GroupMachine.run square 1 start early).

Definition finished : GroupMachine.t (MapFutures.t (Z + unit)) (list task) :=
  default start (GroupMachine.run square 1 start (early ++ late)).

Lemma two_slots_startable : startable two_slots.
Proof. split; [apply two_slots_wf|]. intros x Hx. cbn in Hx. repeat (apply elem_of_cons in Hx as [->|Hx]; [cbn; lia|]). by apply not_elem_of_nil in Hx. Qed.

Lemma asleep_reached : GroupMachine.reachable square 1 two_slots asleep.
Proof. apply (group_run_reachable square 1 two_slots early start); [constructor|vm_compute; reflexivity]. Qed.

Lemma finished_reached : GroupMachine.reachable square 1 two_slots finished.
Proof. apply (group_run_reachable square 1 two_slots (early ++ late) start); [constructor|vm_compute; reflexivity]. Qed.

(** The scheduler sleeps for the 49 microseconds left of task 8; at the end both tasks have their answers. *)
Lemma group_answers_witness :
  (0 < 49 ∧
    (∃ id y, id ∈ delayed_ids (sched asleep) ∧ called asleep !! id = Some y ∧ get_delay 1000 y = 49) ∧
    ∀ id p, promises (book asleep) !! id = Some p →
      answered square asleep id p ∨
      (id ∈ delayed_ids (sched asleep) ∧ ∃ y, called asleep !! id = Some y ∧ 49 <= get_delay 1000 y)) ∧
  answered square finished 7 0 ∧ answered square finished 8 1.
Proof.
  split.
  - destruct (group_answers square 1 two_slots asleep two_slots_startable asleep_reached) as (_ & _ & _ & _ & Hrest).
    destruct Hrest as [_ Hall]; [vm_compute; reflexivity|apply restingb_resting; vm_compute; reflexivity|].
    apply Hall. vm_compute. reflexivity.
  - destruct (group_answers square 1 two_slots finished two_slots_startable finished_reached) as (_ & _ & _ & _ & Hrest).
    destruct Hrest as [Hall _]; [vm_compute; reflexivity|apply restingb_resting; vm_compute; reflexivity|].
    split; (apply Hall; [vm_compute; reflexivity|vm_compute; reflexivity]).
Defined.
End GroupExample.

(** No call in a work group goes wrong.  In every state the machine reaches before a function has taken the
    program down, a thread outside [post] can make its next call, delayed or not, with whatever tag and processor: routing finds a
    slot of the group; and the scheduler thread, outside its callback and not waiting, takes its next turn, so that it
    never locks the mutex it holds. *)
Theorem group_never_stuck {S V Q : Type} `{FuturesLaws S (V + unit)} `{PriorityQueueLaws Q} (fn : nat → outcome V)
    (callers : nat) (g : WorkGroup.t) (s : GroupMachine.t S Q) :
  startable g → reachable fn callers g s → terminated (book s) = false →
  (∀ j clock x, (j < callers)%nat → free j s = true → free callers s = true → promises (book s) !! task_id x = None →
     is_Some (step fn callers s (LCall j clock x))) ∧
  Scheduler.thread (sched s) ≠ Scheduler.Deadlocked ∧
  (∀ c c', 0 <= c <= c' → free callers s = true →
     Scheduler.thread (sched s) = Scheduler.AtLoop ∨ Scheduler.thread (sched s) = Scheduler.AtLock →
     is_Some (step fn callers s (LScheduler c c'))) ∧
  (∀ e, is_Some (step fn callers s (LDeleteEntity e))).
Proof.
  intros Hg Hr Ht. pose proof (group_reachable_inv fn callers g s Hg Hr) as Hi. unfold step. rewrite Ht. split_and!.
  - intros j clock x. by eapply call_goes_on.
  - by destruct (g_sched _ _ _ _ _ _ Hi) as [q [_ _ ? _ _]].
  - intros c c'. by eapply scheduler_goes_on.
  - intros e. destruct (WorkGroup.DeleteEntity_ok e (route s) (g_route _ _ _ _ _ _ Hi)) as (g' & -> & _). cbn. eauto.
Qed.

Lemma group_never_stuck_witness :
  is_Some (step GroupExample.square 1 GroupExample.finished (LCall 0 70000 (tagged 9 77))).
Proof.
  destruct (group_never_stuck GroupExample.square 1 two_slots GroupExample.finished GroupExample.two_slots_startable
    GroupExample.finished_reached) as [Hcall _]; [vm_compute; reflexivity|].
  apply Hcall; [lia|vm_compute; reflexivity..].
Defined.
