(* ===== verification/Channel.v ===== *)
(** * Channels and their watchers (include/ar/channel.hpp)

    A channel keeps a map from the identifier of a watcher, its address, to a shared pointer;
    the users of the channel keep shared pointers too.  Every operation holds the mutex of the
    channel or of the watcher, so concurrent use is a sequence of operations. *)
From S2P Require Import Prelude.
From S2P Require Import Promise.

Module Channel.
Section channel.
Context {T S : Type} `{FuturesLaws S unit}.

Record Watcher := mkWatcher {
  queue : list T;
  promise : nat;
  resolved : bool
}.

(** The keys of the map [watchers], in its order; the watchers that are alive, with the number
    of shared pointers the users hold; and the promises. *)
Record t := mk {
  watchers : list Z;
  heap : gmap Z (Watcher * nat);
  futures : S
}.

Definition make : t := mk [] ∅ fut_init.

(** The outcome of an operation: [Throw] is an exception of the promise, [Undefined] a call
    through a pointer its caller does not hold. *)
Inductive result (A : Type) := Ok (a : A) | Throw | Undefined.
#[global] Arguments Ok {A} a.
#[global] Arguments Throw {A}.
#[global] Arguments Undefined {A}.

(** ** Watcher *)
Definition Watcher_Send (msg : T) (w : Watcher) (f : S) : option (Watcher * S) :=
  let q := queue w ++ [msg] in
  if resolved w then Some (mkWatcher q (promise w) true, f)
  else f' ← fut_set (promise w) tt f; Some (mkWatcher q (promise w) true, f').

Definition Watcher_TryReceive (w : Watcher) : option T * Watcher :=
  match queue w with
  | v :: q => (Some v, mkWatcher q (promise w) (resolved w))
  | [] => (None, w)
  end.

(** The future returned, the watcher and the promises. *)
Definition Watcher_AsyncWait (w : Watcher) (f : S) : nat * Watcher * S :=
  match queue w with
  | [] => let '(p, f') := fut_replace (promise w) f in (p, mkWatcher [] p false, f')
  | _ =>
      let '(p, f') := fut_replace (promise w) f in
      let '(r, f'') := fut_resolved tt f' in
      (r, mkWatcher (queue w) p false, f'')
  end.

(** ** Channel *)

(** [std::map::insert] on the keys. *)
Fixpoint insert_key (p : Z) (l : list Z) : list Z :=
  match l with
  | [] => [p]
  | q :: l' => if p <? q then p :: l else if p =? q then l else q :: insert_key p l'
  end.

(** [Watch]: [p] is the address of the new watcher. *)
Definition Watch (p : Z) (s : t) : t :=
  let '(f, fs) := fut_make (futures s) in
  mk (insert_key p (watchers s)) (<[p := (mkWatcher [] f false, 1%nat)]> (heap s)) fs.

Definition in_map (p : Z) (s : t) : bool := bool_decide (p ∈ watchers s).

(** [use_count()] of the pointers to the watcher at [p]. *)
Definition use_count (p : Z) (s : t) : nat :=
  ((if in_map p s then 1 else 0) + match heap s !! p with Some (_, n) => n | None => 0 end)%nat.

(** The last shared pointer frees the watcher, and its promise with it. *)
Definition collect (p : Z) (s : t) : t :=
  match heap s !! p with
  | Some (w, O) =>
      if in_map p s then s
      else mk (watchers s) (delete p (heap s)) (fut_drop (promise w) (futures s))
  | _ => s
  end.

Definition erase (p : Z) (s : t) : t :=
  collect p (mk (filter (λ q, q ≠ p) (watchers s)) (heap s) (futures s)).

(** [UnWatch]. *)
Definition UnWatch (p : Z) (s : t) : t := if in_map p s then erase p s else s.

(** A user destroys one of its shared pointers. *)
Definition Release (p : Z) (s : t) : t :=
  match heap s !! p with
  | Some (w, n) => collect p (mk (watchers s) (<[p := (w, Nat.pred n)]> (heap s)) (futures s))
  | None => s
  end.

(** One turn of the loop of [Send]. *)
Definition send_to (msg : T) (p : Z) (s : t) : option t :=
  if decide (1 < use_count p s)%nat then
    match heap s !! p with
    | Some (w, n) =>
        '(w', f') ← Watcher_Send msg w (futures s);
        Some (mk (watchers s) (<[p := (w', n)]> (heap s)) f')
    | None => Some s
    end
  else Some (erase p s).

Fixpoint send_all (msg : T) (ps : list Z) (s : t) : option t :=
  match ps with
  | [] => Some s
  | p :: ps' => s' ← send_to msg p s; send_all msg ps' s'
  end.

(** [Channel::Send]. *)
Definition Send (msg : T) (s : t) : option t := send_all msg (watchers s) s.

(** ** Sequences of operations *)
Inductive op :=
| OpWatch (p : Z)
| OpUnWatch (p : Z)
| OpRelease (p : Z)
| OpSend (msg : T)
| OpTryReceive (p : Z)
| OpAsyncWait (p : Z).

Inductive out :=
| ONone
| OReceived (p : Z) (v : option T)
| OFuture (p : Z) (f : nat).

(** The watcher at [p], when a user holds a pointer to it. *)
Definition held (p : Z) (s : t) : option (Watcher * nat) :=
  match heap s !! p with Some (w, Datatypes.S n) => Some (w, Datatypes.S n) | _ => None end.

Definition step (s : t) (o : op) : result (t * out) :=
  match o with
  | OpWatch p =>
      match heap s !! p with
      | Some _ => Undefined        (* a live object has that address *)
      | None => Ok (Watch p s, ONone)
      end
  | OpUnWatch p => match held p s with Some _ => Ok (UnWatch p s, ONone) | None => Undefined end
  | OpRelease p => match held p s with Some _ => Ok (Release p s, ONone) | None => Undefined end
  | OpSend msg => match Send msg s with Some s' => Ok (s', ONone) | None => Throw end
  | OpTryReceive p =>
      match held p s with
      | Some (w, n) =>
          let '(v, w') := Watcher_TryReceive w in
          Ok (mk (watchers s) (<[p := (w', n)]> (heap s)) (futures s), OReceived p v)
      | None => Undefined
      end
  | OpAsyncWait p =>
      match held p s with
      | Some (w, n) =>
          let '(f, w', fs) := Watcher_AsyncWait w (futures s) in
          Ok (mk (watchers s) (<[p := (w', n)]> (heap s)) fs, OFuture p f)
      | None => Undefined
      end
  end.

Fixpoint run (s : t) (os : list op) : result (t * list out) :=
  match os with
  | [] => Ok (s, [])
  | o :: os' =>
      match step s o with
      | Ok (s', x) =>
          match run s' os' with
          | Ok (s'', xs) => Ok (s'', x :: xs)
          | Throw => Throw
          | Undefined => Undefined
          end
      | Throw => Throw
      | Undefined => Undefined
      end
  end.

(** The messages sent, and those the watcher at [p] gave out. *)
Fixpoint sent (os : list op) : list T :=
  match os with
  | [] => []
  | OpSend m :: os' => m :: sent os'
  | _ :: os' => sent os'
  end.

Fixpoint received (p : Z) (xs : list out) : list T :=
  match xs with
  | [] => []
  | OReceived q (Some v) :: xs' => if decide (q = p) then v :: received p xs' else received p xs'
  | _ :: xs' => received p xs'
  end.

(** The operation leaves the watcher at [p] on the channel and its pointer with the user. *)
Definition keeps (p : Z) (o : op) : Prop :=
  match o with OpUnWatch q | OpRelease q => q ≠ p | _ => True end.

(** ** Invariant

    The keys are live and without repetition; a dead watcher is off the heap; a watcher's
    promise is pending exactly when [resolved] is not set, and belongs to it alone. *)
Record inv (s : t) : Prop := {
  inv_nodup : NoDup (watchers s);
  inv_live p : p ∈ watchers s → is_Some (heap s !! p);
  inv_held p w : heap s !! p = Some (w, O) → p ∈ watchers s;
  inv_promise p w n : heap s !! p = Some (w, n) →
    if resolved w then fut_state (promise w) (futures s) = Some (Ready tt)
    else fut_state (promise w) (futures s) = Some Pending;
  inv_own p q w n w' n' : heap s !! p = Some (w, n) → heap s !! q = Some (w', n') →
    promise w = promise w' → p = q
}.
(** *** The invariant is kept *)
Lemma in_map_spec p (s : t) : in_map p s = true ↔ p ∈ watchers s.
Proof. apply bool_decide_eq_true. Qed.

Lemma insert_key_elem p q l : q ∈ insert_key p l ↔ q = p ∨ q ∈ l.
Proof.
  induction l as [|r l IH]; cbn; [set_solver|].
  destruct (Z.ltb_spec p r); [set_solver|]. destruct (Z.eqb_spec p r); set_solver.
Qed.

Lemma insert_key_nodup p l : p ∉ l → NoDup l → NoDup (insert_key p l).
Proof.
  induction l as [|r l IH]; cbn; intros Hp Hl; [by apply NoDup_singleton|].
  apply NoDup_cons in Hl as [Hr Hl].
  destruct (Z.ltb_spec p r); [by repeat constructor|].
  destruct (Z.eqb_spec p r); [set_solver|].
  constructor; [|apply IH; set_solver]. rewrite insert_key_elem. set_solver.
Qed.

(** A heap update at [p] that keeps its promise, or takes one nobody else has. *)
Lemma inv_update (s : t) p w n w' f' :
  inv s → heap s !! p = Some (w, n) →
  (∀ q v m, q ≠ p → heap s !! q = Some (v, m) →
     promise v ≠ promise w' ∧ fut_state (promise v) f' = fut_state (promise v) (futures s)) →
  (if resolved w' then fut_state (promise w') f' = Some (Ready tt)
   else fut_state (promise w') f' = Some Pending) →
  inv (mk (watchers s) (<[p := (w', n)]> (heap s)) f').
Proof.
  intros Hi Hp Hfr Hst. split; cbn.
  - apply Hi.
  - intros q Hq. apply lookup_insert_is_Some'. right. by apply Hi.
  - intros q v. destruct (decide (q = p)) as [->|Hne].
    + rewrite lookup_insert_eq. intros [= <- ->]. by eapply (inv_held s).
    + rewrite lookup_insert_ne by done. apply Hi.
  - intros q v m. destruct (decide (q = p)) as [->|Hne].
    + rewrite lookup_insert_eq. by intros [= <- <-].
    + rewrite lookup_insert_ne by done. intros Hq. destruct (Hfr q v m Hne Hq) as [_ ->].
      by eapply (inv_promise s).
  - intros q r v m v' m'. destruct (decide (q = p)) as [->|Hq], (decide (r = p)) as [->|Hr];
      rewrite ?lookup_insert_eq, ?lookup_insert_ne by done; try done.
    + intros [= <- <-] Hv E. by destruct (Hfr r v' m' Hr Hv).
    + intros Hv [= <- <-] E. by destruct (Hfr q v m Hq Hv).
    + apply Hi.
Qed.

Lemma inv_own_ne (s : t) p q w n v m :
  inv s → heap s !! p = Some (w, n) → heap s !! q = Some (v, m) → q ≠ p → promise v ≠ promise w.
Proof. intros Hi Hp Hq Hne E. destruct Hne. by eapply (inv_own s). Qed.

(** Removing the last pointer of the channel. *)
Lemma inv_erase (s : t) p : inv s → inv (erase p s).
Proof.
  intros Hi. unfold erase, collect. cbn.
  set (l := filter (λ q, q ≠ p) (watchers s)).
  assert (Hl : NoDup l) by apply NoDup_filter, Hi.
  assert (Hin : ∀ q, q ∈ l → is_Some (heap s !! q)).
  { intros q [_ Hq]%list_elem_of_filter. by apply Hi. }
  assert (Hp : in_map p (mk l (heap s) (futures s)) = false).
  { apply bool_decide_eq_false. cbn. intros [? _]%list_elem_of_filter. done. }
  assert (Hq : ∀ q w, q ≠ p → heap s !! q = Some (w, O) → q ∈ l).
  { intros q w Hne Hw. apply list_elem_of_filter. split; [done|]. by eapply (inv_held s). }
  destruct (heap s !! p) as [[w [|n]]|] eqn:E; rewrite ?Hp.
  - split; cbn; [done| | | |].
    + intros q Hql. assert (q ≠ p) by (by apply list_elem_of_filter in Hql as [? _]).
      rewrite lookup_delete_ne by done. auto.
    + intros q v [Hne Hv]%lookup_delete_Some. eauto.
    + intros q v m [Hne Hv]%lookup_delete_Some.
      rewrite fut_drop_other by (eapply (inv_own_ne s p q); eauto). by eapply (inv_promise s).
    + intros q r v m v' m' [_ Hv]%lookup_delete_Some [_ Hv']%lookup_delete_Some. by apply (inv_own s Hi q r v m v' m').
  - split; cbn; [done|done| |by apply Hi|by apply Hi].
    intros q v Hv. apply (Hq q v); [|done]. intros ->. congruence.
  - split; cbn; [done|done| |by apply Hi|by apply Hi].
    intros q v Hv. apply (Hq q v); [|done]. intros ->. congruence.
Qed.

Lemma inv_release (s : t) p w n :
  inv s → heap s !! p = Some (w, Datatypes.S n) → inv (Release p s).
Proof.
  intros Hi Hp. unfold Release. rewrite Hp. cbn.
  assert (Hst : p ∈ watchers s ∨ n ≠ O → inv (mk (watchers s) (<[p := (w, n)]> (heap s)) (futures s))).
  { intros Hor. split; cbn.
    - apply Hi.
    - intros q Hq. apply lookup_insert_is_Some'. right. by apply Hi.
    - intros q v [[-> [= -> ->]]|[_ Hv]]%lookup_insert_Some; [by destruct Hor|]. by eapply (inv_held s).
    - intros q v m [[-> [= -> ->]]|[_ Hv]]%lookup_insert_Some; by eapply (inv_promise s).
    - intros q r v m v' m' Hv Hv'. rewrite !lookup_insert_Some in *.
      destruct Hv as [[-> [= -> ->]]|[_ Hv]], Hv' as [[-> [= -> ->]]|[_ Hv']]; try done;
        by eapply (inv_own s). }
  unfold collect. cbn. rewrite lookup_insert_eq. destruct n as [|n].
  - change (in_map p _) with (in_map p s). destruct (in_map p s) eqn:Em.
    + apply Hst. left. by apply in_map_spec.
    + rewrite delete_insert_eq.
      assert (Hnp : p ∉ watchers s) by (rewrite <- in_map_spec; congruence).
      split; cbn; [apply Hi| | | |].
      * intros q Hq. rewrite lookup_delete_ne by (by intros ->). by apply Hi.
      * intros q v [_ Hv]%lookup_delete_Some. by eapply (inv_held s).
      * intros q v m [Hne Hv]%lookup_delete_Some.
        rewrite fut_drop_other by (eapply (inv_own_ne s p q); eauto). by eapply (inv_promise s).
      * intros q r v m v' m' [_ Hv]%lookup_delete_Some [_ Hv']%lookup_delete_Some.
        by apply (inv_own s Hi q r v m v' m').
  - apply Hst. by right.
Qed.

Lemma inv_watch (s : t) p : inv s → heap s !! p = None → inv (Watch p s).
Proof.
  intros Hi Hp. unfold Watch.
  pose proof (fut_make_fresh (futures s)) as Hf. pose proof (fut_make_pending (futures s)) as Hpe.
  pose proof (fut_make_other (futures s)) as Ho. destruct (fut_make (futures s)) as [f fs]. cbn in *.
  assert (Hne : ∀ q v m, heap s !! q = Some (v, m) → promise v ≠ f).
  { intros q v m Hv <-. pose proof (inv_promise s Hi q v m Hv) as X. destruct (resolved v); congruence. }
  split; cbn.
  - apply insert_key_nodup; [|apply Hi]. intros Hin. destruct (inv_live s Hi p Hin). congruence.
  - intros q [->|Hq]%insert_key_elem; [rewrite lookup_insert_eq; eauto|].
    apply lookup_insert_is_Some'. right. by apply Hi.
  - intros q v [[_ [=]]|[_ Hv]]%lookup_insert_Some. apply insert_key_elem. right. by eapply (inv_held s).
  - intros q v m [[<- [= <- <-]]|[_ Hv]]%lookup_insert_Some; [done|].
    rewrite Ho by eauto. by eapply (inv_promise s).
  - intros q r v m v' m' Hv Hv'. rewrite !lookup_insert_Some in *.
    destruct Hv as [[<- [= <- <-]]|[_ Hv]], Hv' as [[<- [= <- <-]]|[_ Hv']]; cbn; try done.
    + intros E. by destruct (Hne _ _ _ Hv').
    + intros E. by destruct (Hne _ _ _ Hv).
    + intros E. by eapply (inv_own s).
Qed.

(** A watcher's [Send] succeeds, and touches its own promise only. *)
Lemma watcher_send_ok (s : t) p w n msg : inv s → heap s !! p = Some (w, n) →
  ∃ f', Watcher_Send msg w (futures s) = Some (mkWatcher (queue w ++ [msg]) (promise w) true, f') ∧
    fut_state (promise w) f' = Some (Ready tt) ∧
    ∀ r, r ≠ promise w → fut_state r f' = fut_state r (futures s).
Proof.
  intros Hi Hp. unfold Watcher_Send. pose proof (inv_promise s Hi p w n Hp) as Hst.
  destruct (resolved w); [by exists (futures s)|].
  destruct (fut_set_pending _ _ tt Hst) as [f' E]. rewrite E. cbn. exists f'. split; [done|].
  split; [by eapply fut_set_ready|]. intros r Hr. by eapply fut_set_other.
Qed.

Lemma send_to_ok (s : t) p msg : inv s → p ∈ watchers s →
  ∃ s', send_to msg p s = Some s' ∧ inv s' ∧
    (∀ q, q ≠ p → heap s' !! q = heap s !! q ∧ (q ∈ watchers s' ↔ q ∈ watchers s)) ∧
    (∀ w n, heap s !! p = Some (w, Datatypes.S n) →
      heap s' !! p = Some (mkWatcher (queue w ++ [msg]) (promise w) true, Datatypes.S n) ∧
      p ∈ watchers s') ∧
    (∀ r, fut_state r (futures s) = Some (Ready tt) → fut_state r (futures s') = Some (Ready tt)).
Proof.
  intros Hi Hp. unfold send_to, use_count. rewrite (proj2 (in_map_spec p s) Hp).
  destruct (inv_live s Hi p Hp) as [[w n] Hw]. rewrite Hw. destruct n as [|n].
  - rewrite decide_False by lia. eexists. split; [done|]. split; [by apply inv_erase|].
    split; [|split].
    + intros q Hne. unfold erase, collect. cbn. rewrite Hw.
      destruct (in_map _ _); cbn; rewrite ?lookup_delete_ne, list_elem_of_filter by done; naive_solver.
    + intros v m [=].
    + intros r Hr. unfold erase, collect. cbn. rewrite Hw. destruct (in_map _ _); cbn; [done|].
      destruct (decide (r = promise w)) as [->|]; [|by rewrite fut_drop_other].
      by rewrite fut_drop_this, Hr.
  - rewrite decide_True by lia. destruct (watcher_send_ok s p w _ msg Hi Hw) as (f' & -> & Hr & Ho).
    cbn. eexists. split; [done|]. split; [|split; [|split]]; cbn.
    + eapply inv_update; [done|done| |done]. cbn. intros q v m Hne Hv.
      assert (promise v ≠ promise w) by (eapply (inv_own_ne s p q); eauto). auto.
    + intros q Hne. by rewrite lookup_insert_ne.
    + intros v m [= <- <-]. by rewrite lookup_insert_eq.
    + intros r Hr'. destruct (decide (r = promise w)) as [->|]; [done|]. by rewrite Ho.
Qed.

Lemma send_all_ok msg ps : ∀ s : t, inv s → NoDup ps → (∀ p, p ∈ ps → p ∈ watchers s) →
  ∃ s', send_all msg ps s = Some s' ∧ inv s' ∧
    (∀ q, q ∉ ps → heap s' !! q = heap s !! q ∧ (q ∈ watchers s' ↔ q ∈ watchers s)) ∧
    (∀ p w n, p ∈ ps → heap s !! p = Some (w, Datatypes.S n) →
      heap s' !! p = Some (mkWatcher (queue w ++ [msg]) (promise w) true, Datatypes.S n) ∧
      p ∈ watchers s') ∧
    (∀ r, fut_state r (futures s) = Some (Ready tt) → fut_state r (futures s') = Some (Ready tt)).
Proof.
  induction ps as [|p ps IH]; intros s Hi Hnd Hin; cbn.
  { exists s. split; [done|]. split; [done|]. split; [done|]. split; [set_solver|done]. }
  apply NoDup_cons in Hnd as [Hp Hnd].
  destruct (send_to_ok s p msg Hi) as (s1 & E1 & Hi1 & Ho1 & Ht1 & Hr1); [set_solver|].
  rewrite E1. cbn.
  destruct (IH s1 Hi1 Hnd) as (s2 & E2 & Hi2 & Ho2 & Ht2 & Hr2).
  { intros q Hq. apply Ho1; [by intros ->|set_solver]. }
  exists s2. split; [done|]. split; [done|]. split; [|split; [|by eauto]].
  - intros q Hq. destruct (Ho2 q) as [-> ->]; [set_solver|]. apply Ho1. set_solver.
  - intros q w n [->|Hq]%elem_of_cons Hw.
    + destruct (Ho2 p) as [-> ->]; [done|]. by apply Ht1.
    + apply Ht2; [done|]. destruct (Ho1 q) as [-> _]; [by intros ->|done].
Qed.

Lemma send_ok (s : t) msg : inv s →
  ∃ s', Send msg s = Some s' ∧ inv s' ∧
    (∀ p w n, p ∈ watchers s → heap s !! p = Some (w, Datatypes.S n) →
      heap s' !! p = Some (mkWatcher (queue w ++ [msg]) (promise w) true, Datatypes.S n) ∧
      p ∈ watchers s') ∧
    (∀ r, fut_state r (futures s) = Some (Ready tt) → fut_state r (futures s') = Some (Ready tt)).
Proof.
  intros Hi. destruct (send_all_ok msg (watchers s) s Hi) as (s' & E & Hi' & _ & Ht & Hr);
    [apply Hi|done|]. by exists s'.
Qed.

(** *** [AsyncWait] *)
Lemma inv_promise_some (s : t) p w n : inv s → heap s !! p = Some (w, n) →
  is_Some (fut_state (promise w) (futures s)).
Proof.
  intros Hi Hp. pose proof (inv_promise s Hi p w n Hp). destruct (resolved w); eauto.
Qed.

(** The watcher gets a pending promise of its own; the future returned is that promise's when
    the queue is empty and a ready one otherwise. *)
Lemma async_wait_ok (s : t) p w n f w' fs : inv s → heap s !! p = Some (w, n) →
  Watcher_AsyncWait w (futures s) = (f, w', fs) →
  inv (mk (watchers s) (<[p := (w', n)]> (heap s)) fs) ∧ queue w' = queue w ∧ resolved w' = false ∧
  (queue w = [] → f = promise w') ∧
  (queue w ≠ [] → fut_state f fs = Some (Ready tt)) ∧
  (∀ r, fut_state r (futures s) = Some (Ready tt) → fut_state r fs = Some (Ready tt)).
Proof.
  intros Hi Hp E.
  pose proof (inv_promise_some s p w n Hi Hp) as Hpr. unfold Watcher_AsyncWait in E.
  pose proof (fut_replace_fresh (promise w) (futures s)) as Hfr.
  pose proof (fut_replace_pending _ _ Hpr) as Hpe. pose proof (fut_replace_old _ _ Hpr) as Hold.
  pose proof (fut_replace_other (promise w) (futures s)) as Ho.
  destruct (fut_replace (promise w) (futures s)) as [q f1]. cbn in *.
  assert (Hrd : ∀ r, fut_state r (futures s) = Some (Ready tt) → fut_state r f1 = Some (Ready tt)).
  { intros r Hr. destruct (decide (r = promise w)) as [->|]; [by rewrite Hold, Hr|]. rewrite Ho; eauto. }
  assert (Hoth : ∀ r v m, r ≠ p → heap s !! r = Some (v, m) →
     promise v ≠ q ∧ fut_state (promise v) f1 = fut_state (promise v) (futures s)).
  { intros r v m Hne Hv. pose proof (inv_promise_some s r v m Hi Hv) as [x Hx].
    split; [intros <-; congruence|]. apply Ho; [by eapply (inv_own_ne s p r)|eauto]. }
  destruct (queue w) as [|x l] eqn:Eq.
  - inversion E; subst. clear E. cbn. split; [eapply inv_update; eauto|]. by repeat split.
  - pose proof (fut_resolved_ready tt f1) as Hres. pose proof (fut_resolved_other tt f1) as Hro.
    destruct (fut_resolved tt f1) as [r f2]. cbn in *. inversion E; subst. clear E. cbn.
    split; [|repeat split; try done].
    + eapply inv_update; [done|done| |cbn; rewrite Hro; eauto]. cbn. intros z v m Hne Hv.
      destruct (Hoth z v m Hne Hv) as [Hq Hs]. split; [done|]. rewrite Hro; [done|].
      rewrite Hs. by eapply inv_promise_some.
    + intros z Hz. rewrite Hro; eauto.
Qed.

(** ** One operation, for the watcher at [p] *)
Lemma held_heap p (s : t) w n : held p s = Some (w, n) → heap s !! p = Some (w, n) ∧ n ≠ O.
Proof. unfold held. destruct (heap s !! p) as [[v [|m]]|]; naive_solver. Qed.

Lemma channel_step_inv (s s' : t) o x : inv s → step s o = Ok (s', x) → inv s'.
Proof.
  intros Hi E. destruct o as [p|p|p|msg|p|p]; cbn in E.
  - destruct (heap s !! p) eqn:Hp; simplify_eq. by apply inv_watch.
  - destruct (held p s) eqn:Hp; simplify_eq. unfold UnWatch. destruct (in_map p s); [|done]. by apply inv_erase.
  - destruct (held p s) as [[w n]|] eqn:Hp; simplify_eq. apply held_heap in Hp as [Hp Hn].
    destruct n as [|n]; [done|]. by eapply inv_release.
  - destruct (send_ok s msg Hi) as (s1 & E1 & Hi1 & _). rewrite E1 in E. by simplify_eq.
  - destruct (held p s) as [[w n]|] eqn:Hp; simplify_eq. apply held_heap in Hp as [Hp Hn].
    unfold Watcher_TryReceive in E. pose proof (inv_promise s Hi p w n Hp) as Hst.
    destruct (queue w) as [|v q]; simplify_eq; (eapply inv_update; [done|done| |done]); cbn;
      intros r u m Hne Hu; split; try done; by eapply (inv_own_ne s p r).
  - destruct (held p s) as [[w n]|] eqn:Hp; simplify_eq. apply held_heap in Hp as [Hp Hn].
    destruct (Watcher_AsyncWait w (futures s)) as [[f w'] fs] eqn:Ew. simplify_eq.
    by destruct (async_wait_ok s p w n f w' fs Hi Hp Ew).
Qed.

Lemma channel_step_no_throw (s : t) o : inv s → step s o ≠ Throw.
Proof.
  intros Hi. destruct o as [p|p|p|msg|p|p]; cbn; try (by destruct (heap s !! p)); try (by destruct (held p s)).
  - destruct (send_ok s msg Hi) as (s1 & -> & _). done.
  - destruct (held p s) as [[w n]|]; [|done]. by destruct (Watcher_TryReceive w).
  - destruct (held p s) as [[w n]|]; [|done]. by destruct (Watcher_AsyncWait w (futures s)) as [[??]?].
Qed.

(** A ready future stays ready. *)
Lemma channel_step_ready (s s' : t) o x r : inv s → step s o = Ok (s', x) →
  fut_state r (futures s) = Some (Ready tt) → fut_state r (futures s') = Some (Ready tt).
Proof.
  intros Hi E Hr.
  assert (Hc : ∀ p (u : t), fut_state r (futures u) = Some (Ready tt) →
    fut_state r (futures (collect p u)) = Some (Ready tt)).
  { intros p u Hu. unfold collect. destruct (heap u !! p) as [[w [|n]]|]; [|done|done].
    destruct (in_map p u); [done|]. cbn. destruct (decide (r = promise w)) as [->|].
    - by rewrite fut_drop_this, Hu.
    - by rewrite fut_drop_other. }
  destruct o as [p|p|p|msg|p|p]; cbn in E.
  - destruct (heap s !! p) eqn:Hp; simplify_eq. unfold Watch.
    pose proof (fut_make_fresh (futures s)). pose proof (fut_make_other (futures s) r) as Ho.
    destruct (fut_make (futures s)) as [f fs]. cbn in *. rewrite Ho; [done|]. intros ->. congruence.
  - destruct (held p s) eqn:Hp; simplify_eq. unfold UnWatch. destruct (in_map p s); [|done]. by apply Hc.
  - destruct (held p s) as [[w n]|] eqn:Hp; simplify_eq. apply held_heap in Hp as [Hp Hn].
    unfold Release. rewrite Hp. by apply Hc.
  - destruct (send_ok s msg Hi) as (s1 & E1 & _ & _ & Hs). rewrite E1 in E. simplify_eq. auto.
  - destruct (held p s) as [[w n]|] eqn:Hp; simplify_eq. destruct (Watcher_TryReceive w). by simplify_eq.
  - destruct (held p s) as [[w n]|] eqn:Hp; simplify_eq. apply held_heap in Hp as [Hp Hn].
    destruct (Watcher_AsyncWait w (futures s)) as [[f w'] fs] eqn:Ew. simplify_eq.
    destruct (async_wait_ok s p w n f w' fs Hi Hp Ew) as (_ & _ & _ & _ & _ & Ha). auto.
Qed.

(** The watcher at [p] is on the channel and held by a user. *)
Definition watching (p : Z) (w : Watcher) (s : t) : Prop :=
  p ∈ watchers s ∧ ∃ n, heap s !! p = Some (w, Datatypes.S n).

(** Operations that collect another watcher leave this one. *)
Lemma collect_watching p q w (s : t) : watching p w s → watching p w (collect q s).
Proof.
  intros [Hp [n Hw]]. unfold collect. destruct (decide (q = p)) as [->|Hne].
  - rewrite Hw. split; eauto.
  - destruct (heap s !! q) as [[v [|m]]|]; [|split; eauto|split; eauto].
    destruct (in_map q s); split; cbn; rewrite ?lookup_delete_ne; eauto.
Qed.

(** What one operation does for a watched watcher. *)
Lemma channel_step_watching p w (s s' : t) o x :
  inv s → watching p w s → keeps p o → step s o = Ok (s', x) →
  ∃ w', watching p w' s' ∧ received p [x] ++ queue w' = queue w ++ sent [o] ∧
    (o ≠ OpAsyncWait p → promise w' = promise w ∧
       resolved w' = match o with OpSend _ => true | _ => resolved w end).
Proof.
  intros Hi Hw Hk E. destruct Hw as [Hin [n Hp]].
  destruct o as [q|q|q|msg|q|q]; cbn in E, Hk.
  - destruct (heap s !! q) eqn:Hq; simplify_eq. exists w. cbn. rewrite app_nil_r.
    split; [|done]. unfold Watch. destruct (fut_make (futures s)) as [f fs]. split; cbn.
    + apply insert_key_elem. by right.
    + exists n. rewrite lookup_insert_ne; [done|]. intros ->. congruence.
  - destruct (held q s) eqn:Hq; simplify_eq. exists w. cbn. rewrite app_nil_r. split; [|done].
    unfold UnWatch. destruct (in_map q s); [|split; eauto]. apply collect_watching. split; cbn; [|eauto].
    by apply list_elem_of_filter.
  - destruct (held q s) as [[v m]|] eqn:Hq; simplify_eq. apply held_heap in Hq as [Hq Hm].
    exists w. cbn. rewrite app_nil_r. split; [|done]. unfold Release. rewrite Hq.
    apply collect_watching. split; cbn; [done|]. exists n. by rewrite lookup_insert_ne.
  - destruct (send_ok s msg Hi) as (s1 & E1 & _ & Ht & _). rewrite E1 in E. simplify_eq.
    destruct (Ht p w n Hin Hp) as [Hp' Hin']. eexists. split; [by split; eauto|]. done.
  - destruct (held q s) as [[v m]|] eqn:Hq; simplify_eq. apply held_heap in Hq as [Hq Hm].
    unfold Watcher_TryReceive in E. destruct (decide (q = p)) as [->|Hne].
    + rewrite Hp in Hq. injection Hq as <- <-. destruct (queue w) as [|y l] eqn:Eq; simplify_eq; cbn;
        rewrite ?decide_True by done; eexists; (split; [split; cbn; [done|];
        exists n; by rewrite lookup_insert_eq|]); cbn; rewrite ?Eq, ?app_nil_r; done.
    + exists w. destruct (queue v) as [|y l]; simplify_eq; cbn; rewrite ?decide_False, ?app_nil_r by done;
        (split; [split; cbn; [done|]; exists n; by rewrite lookup_insert_ne|]); done.
  - destruct (held q s) as [[v m]|] eqn:Hq; simplify_eq. apply held_heap in Hq as [Hq Hm].
    destruct (Watcher_AsyncWait v (futures s)) as [[f w'] fs] eqn:Ew. simplify_eq. cbn.
    destruct (async_wait_ok s q v m f w' fs Hi Hq Ew) as (_ & Hqe & _).
    destruct (decide (q = p)) as [->|Hne].
    + rewrite Hp in Hq. injection Hq as <- <-. exists w'. rewrite app_nil_r. split; [|done].
      split; cbn; [done|]. exists n. by rewrite lookup_insert_eq.
    + exists w. rewrite app_nil_r. split; [|done]. split; cbn; [done|]. exists n. by rewrite lookup_insert_ne.
Qed.

(** ** A sequence of operations *)
Lemma channel_run_inv os : ∀ (s s' : t) xs, inv s → run s os = Ok (s', xs) → inv s'.
Proof.
  induction os as [|o os IH]; intros s s' xs Hi E; cbn in E; [by simplify_eq|].
  destruct (step s o) as [[s1 x]| |] eqn:E1; simplify_eq.
  destruct (run s1 os) as [[s2 ys]| |] eqn:E2; simplify_eq. eapply IH; [|done]. by eapply channel_step_inv.
Qed.

Lemma channel_run_ready os r : ∀ (s s' : t) xs, inv s → run s os = Ok (s', xs) →
  fut_state r (futures s) = Some (Ready tt) → fut_state r (futures s') = Some (Ready tt).
Proof.
  induction os as [|o os IH]; intros s s' xs Hi E Hr; cbn in E; [by simplify_eq|].
  destruct (step s o) as [[s1 x]| |] eqn:E1; simplify_eq.
  destruct (run s1 os) as [[s2 ys]| |] eqn:E2; simplify_eq.
  eapply IH; [|done|]; [by eapply channel_step_inv|by eapply channel_step_ready].
Qed.

Lemma received_app p xs ys : received p (xs ++ ys) = received p xs ++ received p ys.
Proof.
  induction xs as [|[|q [v|]|q f] xs IH]; cbn; [done..| |done|done].
  destruct (decide (q = p)); cbn; by rewrite IH.
Qed.

Lemma sent_cons o os : sent (o :: os) = sent [o] ++ sent os.
Proof. by destruct o. Qed.

Lemma channel_run_watching p os : ∀ w (s s' : t) xs,
  inv s → watching p w s → Forall (keeps p) os → run s os = Ok (s', xs) →
  ∃ w', watching p w' s' ∧ received p xs ++ queue w' = queue w ++ sent os ∧
    (OpAsyncWait p ∉ os → promise w' = promise w ∧
       resolved w' = match sent os with [] => resolved w | _ => true end).
Proof.
  induction os as [|o os IH]; intros w s s' xs Hi Hw Hk E.
  { cbn in E. simplify_eq. exists w. by rewrite app_nil_r. }
  apply Forall_cons in Hk as [Hk Hks]. cbn [run] in E.
  destruct (step s o) as [[s1 x]| |] eqn:E1; simplify_eq.
  destruct (run s1 os) as [[s2 ys]| |] eqn:E2; simplify_eq.
  destruct (channel_step_watching p w s s1 o x Hi Hw Hk E1) as (w1 & Hw1 & Hq1 & Hp1).
  destruct (IH w1 s1 s' ys) as (w2 & Hw2 & Hq2 & Hp2); [by eapply channel_step_inv|done..|].
  exists w2. split; [done|]. split.
  - change (x :: ys) with ([x] ++ ys). rewrite received_app, <- app_assoc, Hq2, app_assoc, Hq1.
    by rewrite (sent_cons o os), app_assoc.
  - intros Hna. apply not_elem_of_cons in Hna as [Ho Hna].
    destruct (Hp1 (not_eq_sym Ho)) as [Ep Er]. destruct (Hp2 Hna) as [-> ->].
    split; [done|]. rewrite Er. destruct o; cbn; try done. by destruct (sent os).
Qed.

Lemma inv_make_channel : inv make.
Proof.
  split; cbn; [constructor|intros p ?%elem_of_nil; done|intros p w; by rewrite lookup_empty| |];
    intros *; by rewrite lookup_empty.
Qed.

Lemma watch_watching p (s : t) :
  ∃ f, watching p (mkWatcher [] f false) (Watch p s).
Proof.
  unfold Watch. destruct (fut_make (futures s)) as [f fs]. exists f. split; cbn.
  - apply insert_key_elem. by left.
  - exists O. apply lookup_insert_eq.
Qed.

(** C24: A watcher that its user keeps, and does not take off the channel, gets every message
    sent since [Watch], once and in the order of the [Send]s: what it has given out so far
    followed by what is in its queue is the list of messages sent, whatever other watchers
    come, go and receive in between. *)
Theorem channel_delivers os0 os (s s' : t) xs0 xs p :
  run make os0 = Ok (s, xs0) → heap s !! p = None →
  run (Watch p s) os = Ok (s', xs) → Forall (keeps p) os →
  ∃ w n, heap s' !! p = Some (w, Datatypes.S n) ∧ received p xs ++ queue w = sent os.
Proof.
  intros E0 Hp E Hk. assert (Hi : inv s) by (eapply channel_run_inv; [apply inv_make_channel|done]).
  destruct (watch_watching p s) as [f Hw].
  destruct (channel_run_watching p os _ _ s' xs (inv_watch s p Hi Hp) Hw Hk E) as (w & [_ [n Hw']] & Hq & _).
  by exists w, n.
Qed.

(** C25: Waiting on a watcher loses no message and no operation ever sets a promise twice.  Take a
    watcher of the channel on which [AsyncWait] is called, and any operations after it that neither drop the watcher
    ([UnWatch], [Release]) nor call [AsyncWait] on it again, a second call breaks the first future: the future [AsyncWait]
    returned is ready when the queue was not empty or a message has been sent since, and still pending, not broken,
    when neither happened; and no operation from then on throws. *)
Theorem channel_wait_wakes os0 os (s s1 s' : t) xs0 xs p w n f :
  run make os0 = Ok (s, xs0) → p ∈ watchers s → heap s !! p = Some (w, Datatypes.S n) →
  step s (OpAsyncWait p) = Ok (s1, OFuture p f) →
  run s1 os = Ok (s', xs) → Forall (keeps p) os → OpAsyncWait p ∉ os →
  fut_state f (futures s') =
    Some (match queue w, sent os with [], [] => Pending | _, _ => Ready tt end) ∧
  ∀ o, step s' o ≠ Throw.
Proof.
  intros E0 Hin Hp Ew E Hk Hna.
  assert (Hi : inv s) by (eapply channel_run_inv; [apply inv_make_channel|done]).
  assert (Hi1 : inv s1) by (by eapply channel_step_inv).
  assert (Hi' : inv s') by (by eapply channel_run_inv).
  split; [|intros o; by apply channel_step_no_throw].
  cbn in Ew. unfold held in Ew. rewrite Hp in Ew.
  destruct (Watcher_AsyncWait w (futures s)) as [[f1 w1] fs] eqn:Ea. simplify_eq.
  destruct (async_wait_ok s p w _ f w1 fs Hi Hp Ea) as (_ & Hq & Hr & He & Hne & _).
  assert (Hw1 : watching p w1 (mk (watchers s) (<[p := (w1, Datatypes.S n)]> (heap s)) fs)).
  { split; cbn; [done|]. exists n. apply lookup_insert_eq. }
  destruct (channel_run_watching p os w1 _ s' xs Hi1 Hw1 Hk E) as (w2 & [_ [m Hw2]] & _ & Hst).
  destruct (Hst Hna) as [Hpr Hrs]. destruct (queue w) as [|y l].
  - rewrite (He eq_refl), <- Hpr. pose proof (inv_promise s' Hi' p w2 _ Hw2) as Hf.
    rewrite Hrs, Hr in Hf. by destruct (sent os).
  - eapply (channel_run_ready os); [exact Hi1|done|]. by apply Hne.
Qed.
End channel.
#[global] Arguments Watcher : clear implicits.
#[global] Arguments t : clear implicits.
#[global] Arguments op : clear implicits.
#[global] Arguments out : clear implicits.
(** Two watchers, one of them unwatched on the way. *)
Definition demo_ops : list (op Z) :=
  [OpSend 10; OpWatch 7; OpSend 11; OpTryReceive 5; OpTryReceive 7; OpUnWatch 7; OpSend 12; OpTryReceive 5].

Lemma channel_delivers_witness :
  ∃ (s' : t Z (MapFutures.t unit)) xs w n,
    run (Watch 5 make) demo_ops = Ok (s', xs) ∧ heap s' !! 5 = Some (w, Datatypes.S n) ∧
    received 5 xs ++ queue w = [10; 11; 12] ∧ queue w = [12].
Proof.
  destruct (run (Watch 5 (make : t Z (MapFutures.t unit))) demo_ops) as [[s' xs]| |] eqn:E;
    [|vm_compute in E; discriminate E..].
  destruct (channel_delivers [] demo_ops make s' [] xs 5) as (w & n & Hw & Hq);
    [reflexivity|reflexivity|exact E|repeat constructor; discriminate|].
  exists s', xs, w, n. split; [reflexivity|]. split; [exact Hw|]. split; [exact Hq|].
  vm_compute in E. injection E as <- <-. vm_compute in Hw. injection Hw as <- _. reflexivity.
Defined.

Definition demo_watched : t Z (MapFutures.t unit) := Watch 5 make.

Lemma channel_wait_wakes_witness :
  ∃ (s1 s' : t Z (MapFutures.t unit)) f,
    step demo_watched (OpAsyncWait 5) = Ok (s1, OFuture 5 f) ∧
    run s1 [OpWatch 7; OpSend 11] = Ok (s', [ONone; ONone]) ∧
    fut_state f (futures s1) = Some Pending ∧ fut_state f (futures s') = Some (Ready tt).
Proof.
  eexists _, _, _. split; [vm_compute; reflexivity|]. split; [vm_compute; reflexivity|].
  split; [reflexivity|].
  refine (proj1 (channel_wait_wakes [OpWatch 5] [OpWatch 7; OpSend 11] demo_watched _ _ [ONone] [ONone; ONone]
    5 (mkWatcher [] 0%nat false) 0%nat _ _ _ _ _ _ _ _));
    [reflexivity|left|vm_compute; reflexivity|vm_compute; reflexivity|vm_compute; reflexivity
    |repeat constructor|].
  intros Hx. repeat (apply elem_of_cons in Hx as [Hx|Hx]; [discriminate Hx|]). by apply elem_of_nil in Hx.
Defined.

End Channel.
