(* ===== verification/DataflowNotifier.v ===== *)
(** * Events of a dataflow kernel

    include/ar/dataflow/kernel_events.hpp, include/ar/dataflow/notifier.hpp and
    src/dataflow/notifier.cpp.  Every operation of [Notifier] holds its mutex. *)
From S2P Require Import Prelude.
From S2P Require Import Promise.

(** ** KernelEvent *)
Definition kKERNEL_EVENT_ANY : Z := Z.shiftl 1 1.
Definition kKERNEL_EVENT_READ_SOURCE : Z := Z.shiftl 1 1.
Definition kKERNEL_EVENT_TERMINATE : Z := Z.shiftl 1 2.
Definition kKERNEL_EVENT_SINK_SUBSCRIPTION : Z := Z.shiftl 1 3.
Definition kKERNEL_EVENT_SINK_UNSUBSCRIPTION : Z := Z.shiftl 1 4.

(** The notifier of include/ar/dataflow, in its namespace. *)
Module DataflowNotifier.

(** [(states & state) == state], the test of [HasState], [Notify] and [CheckNotifications]. *)
Definition HasState (states state : Z) : bool := states .& state =? state.

Section notifier.
Context {S : Type} `{FuturesLaws S Z}.

Record t := mk {
  promise : nat;
  notified : bool;
  watch_any : bool;
  watch_state : Z;
  notify_state : Z
}.

(** [Notifier()]: its promise is a new one. *)
Definition make (f : S) : t * S :=
  let '(p, f') := fut_make f in (mk p false false 0 0, f').

(** [Notify]; [None] is an exception of the promise.  The states are [uint8_t]. *)
Definition Notify (state : Z) (n : t) (f : S) : option (t * S) :=
  let ns := u8 (notify_state n .| state) in
  if watch_any n || HasState (watch_state n) state then
    if negb (notified n) then
      f' ← fut_set (promise n) ns f;
      Some (mk (promise n) true (watch_any n) (watch_state n) ns, f')
    else Some (mk (promise n) (notified n) (watch_any n) (watch_state n) ns, f)
  else Some (mk (promise n) (notified n) (watch_any n) (watch_state n) ns, f).

(** [CheckNotifications]: the new value of [notifications]. *)
Definition CheckNotifications (n : t) (notifications state : Z) : Z :=
  if HasState (notify_state n) state then notifications .| state else notifications.

(** [watch_state |= args, ...]. *)
Definition or_states (args : list Z) : Z := fold_left (λ w a, u8 (w .| a)) args 0.

(** [AsyncWatch(args...)]: the future, the notifier and the promises. *)
Definition AsyncWatch (args : list Z) (n : t) (f : S) : nat * t * S :=
  let notifications := fold_left (CheckNotifications n) args 0 in
  let '(p, f') := fut_replace (promise n) f in
  let n' := mk p false false (or_states args) 0 in
  if notifications =? 0 then (p, n', f')
  else let '(r, f'') := fut_resolved notifications f' in (r, n', f'').

Definition AsyncWatchAny (n : t) (f : S) : nat * t * S :=
  let '(p, f') := fut_replace (promise n) f in
  let n' := mk p false true 0 0 in
  if notify_state n =? 0 then (p, n', f')
  else let '(r, f'') := fut_resolved (notify_state n) f' in (r, n', f'').

(** ** What a watch promises *)
Inductive watch := Any | States (args : list Z).

Definition do_watch (k : watch) (n : t) (f : S) : nat * t * S :=
  match k with Any => AsyncWatchAny n f | States args => AsyncWatch args n f end.

(** The events found pending at the call. *)
Definition pending_events (k : watch) (events : Z) : Z :=
  match k with
  | Any => events
  | States args => fold_left (λ r a, if HasState events a then r .| a else r) args 0
  end.

(** An event that ends the watch. *)
Definition matches (k : watch) (e : Z) : bool :=
  match k with Any => true | States args => HasState (or_states args) e end.

(** The value of the future, from the events of the [Notify]s that follow the watch: those up
    to the first match. *)
Fixpoint first_match (k : watch) (acc : Z) (es : list Z) : option Z :=
  match es with
  | [] => None
  | e :: es' =>
      let acc' := u8 (acc .| e) in
      if matches k e then Some acc' else first_match k acc' es'
  end.

Fixpoint notify_all (es : list Z) (n : t) (f : S) : option (t * S) :=
  match es with
  | [] => Some (n, f)
  | e :: es' => '(n', f') ← Notify e n f; notify_all es' n' f'
  end.

(** [notified] says whether the promise has its value. *)
Definition inv (n : t) (f : S) : Prop :=
  if notified n then ∃ v, fut_state (promise n) f = Some (Ready v)
  else fut_state (promise n) f = Some Pending.

Lemma inv_some n f : inv n f → is_Some (fut_state (promise n) f).
Proof. unfold inv. destruct (notified n); [intros [v ->]|intros ->]; eauto. Qed.

Lemma notifier_make_inv f : inv (make f).1 (make f).2.
Proof. unfold make, inv. pose proof (fut_make_pending f). by destruct (fut_make f). Qed.

(** [Notify] never throws; a future but the promise's is left alone. *)
Lemma notify_ok e n f : inv n f →
  ∃ n' f', Notify e n f = Some (n', f') ∧ inv n' f' ∧
    promise n' = promise n ∧ watch_any n' = watch_any n ∧ watch_state n' = watch_state n ∧
    notify_state n' = u8 (notify_state n .| e) ∧
    (∀ r, r ≠ promise n → fut_state r f' = fut_state r f) ∧
    if notified n then notified n' = true ∧ f' = f
    else if watch_any n || HasState (watch_state n) e
    then notified n' = true ∧ fut_state (promise n) f' = Some (Ready (notify_state n'))
    else notified n' = false ∧ f' = f.
Proof.
  intros Hi. unfold Notify. destruct (watch_any n || HasState (watch_state n) e).
  - unfold inv in Hi. destruct (notified n) eqn:En; cbn.
    + eexists _, f. split; [done|]. unfold inv. cbn. done.
    + destruct (fut_set_pending f (promise n) (u8 (notify_state n .| e)) Hi) as [f' E].
      rewrite E. cbn. eexists _, f'. split; [done|]. pose proof (fut_set_ready _ _ _ _ E).
      unfold inv. cbn. repeat split; eauto. intros r Hr. by eapply fut_set_other.
  - eexists _, f. split; [done|]. unfold inv in *. cbn. repeat split; try done. by destruct (notified n).
Qed.

(** Either watch: the future, and the notifier with a pending promise and no event. *)
Lemma do_watch_ok k n f r n' f' : inv n f → do_watch k n f = (r, n', f') →
  inv n' f' ∧ notified n' = false ∧ notify_state n' = 0 ∧
  (∀ e, watch_any n' || HasState (watch_state n') e = matches k e) ∧
  (if pending_events k (notify_state n) =? 0 then r = promise n'
   else r ≠ promise n' ∧ fut_state r f' = Some (Ready (pending_events k (notify_state n)))).
Proof.
  intros Hi E. pose proof (inv_some n f Hi) as Hs.
  assert (X : ∀ n0 v, (let '(p, f0) := fut_replace (promise n) f in
      if v =? 0 then (p, mk p false (watch_any n0) (watch_state n0) 0, f0)
      else let '(r, f1) := fut_resolved v f0 in (r, mk p false (watch_any n0) (watch_state n0) 0, f1))
      = (r, n', f') →
    inv n' f' ∧ notified n' = false ∧ notify_state n' = 0 ∧ watch_any n' = watch_any n0 ∧
    watch_state n' = watch_state n0 ∧
    (if v =? 0 then r = promise n' else r ≠ promise n' ∧ fut_state r f' = Some (Ready v))).
  { intros n0 v Ev. pose proof (fut_replace_pending _ _ Hs) as Hp.
    destruct (fut_replace (promise n) f) as [p f0]. cbn in Hp. destruct (v =? 0).
    - by simplify_eq.
    - pose proof (fut_resolved_ready v f0) as Hr. pose proof (fut_resolved_other v f0 p) as Ho.
      pose proof (fut_resolved_fresh v f0) as Hf.
      destruct (fut_resolved v f0) as [q f1]. cbn in *. simplify_eq. unfold inv. cbn.
      rewrite Ho by eauto. repeat split; try done. intros ->. congruence. }
  destruct k as [|args]; cbn [do_watch] in E.
  - apply (X (mk 0 false true 0 0)) in E as (Hi' & ? & ? & Ha & Hw & Hr).
    split; [done|]. split; [done|]. split; [done|]. split; [|done]. intros e. by rewrite Ha.
  - apply (X (mk 0 false false (or_states args) 0)) in E as (Hi' & ? & ? & Ha & Hw & Hr).
    split; [done|]. split; [done|]. split; [done|]. split; [|done]. intros e. by rewrite Ha, Hw.
Qed.

(** The [Notify]s after a watch: a future that is not the promise's does not change, the
    promise's gets its value at the first match, and the events accumulate. *)
Lemma notify_all_ok k es : ∀ n f, inv n f →
  (∀ e, watch_any n || HasState (watch_state n) e = matches k e) →
  ∃ n' f', notify_all es n f = Some (n', f') ∧ inv n' f' ∧ promise n' = promise n ∧
    notify_state n' = fold_left (λ a e, u8 (a .| e)) es (notify_state n) ∧
    (∀ r, r ≠ promise n → fut_state r f' = fut_state r f) ∧
    (if notified n then fut_state (promise n) f' = fut_state (promise n) f
     else fut_state (promise n) f' =
       Some (match first_match k (notify_state n) es with Some v => Ready v | None => Pending end)).
Proof.
  induction es as [|e es IH]; intros n f Hi Hm; cbn.
  { exists n, f. unfold inv in Hi. destruct (notified n) eqn:En; unfold inv; rewrite En; done. }
  destruct (notify_ok e n f Hi) as (n1 & f1 & E & Hi1 & Hp & Ha & Hw & Hs & Ho & Hn). rewrite E. cbn.
  destruct (IH n1 f1 Hi1) as (n2 & f2 & E2 & Hi2 & Hp2 & Hs2 & Ho2 & Hn2).
  { intros x. by rewrite Ha, Hw. }
  rewrite Hm in Hn. exists n2, f2. split; [done|]. split; [done|]. split; [congruence|].
  split; [by rewrite Hs2, Hs|]. split.
  { intros r Hr. rewrite Ho2 by congruence. auto. }
  rewrite Hp in Hn2. destruct (notified n).
  - destruct Hn as [Hn ->]. by rewrite Hn in Hn2.
  - destruct (matches k e); destruct Hn as [Hn Hf]; rewrite Hn in Hn2; rewrite Hn2.
    + by rewrite Hf, Hs.
    + by rewrite Hs.
Qed.

(** C26: A watch loses no event it watches, and its promise is set once.  [AsyncWatchAny] and
    [AsyncWatch] return a future that holds the watched events pending at the call if there
    is one, and otherwise gets, at the first notification that matches, every event notified
    since the call; until then it is pending.  All the events notified since the call, those
    the future has delivered included, are pending for the next watch, and no [Notify] throws. *)
Theorem notifier_watch_delivers k es n f r n' f' :
  inv n f → do_watch k n f = (r, n', f') →
  ∃ n'' f'', notify_all es n' f' = Some (n'', f'') ∧ inv n'' f'' ∧
    fut_state r f'' = Some (
      if pending_events k (notify_state n) =? 0
      then match first_match k 0 es with Some v => Ready v | None => Pending end
      else Ready (pending_events k (notify_state n))) ∧
    notify_state n'' = fold_left (λ a e, u8 (a .| e)) es 0.
Proof.
  intros Hi E. destruct (do_watch_ok k n f r n' f' Hi E) as (Hi' & Hn & Hs & Hm & Hr).
  destruct (notify_all_ok k es n' f' Hi' Hm) as (n2 & f2 & E2 & Hi2 & Hp2 & Hs2 & Ho2 & Hn2).
  exists n2, f2. split; [done|]. split; [done|]. rewrite Hs in Hs2. rewrite Hn, Hs in Hn2.
  split; [|done]. destruct (pending_events k (notify_state n) =? 0).
  - by subst r.
  - destruct Hr as [Hr Hf]. by rewrite Ho2.
Qed.
End notifier.

(** A notification is delivered by the watch it ends and again by the next one. *)
Example notifier_redelivers :
  let '(n0, f0) := make (fut_init : MapFutures.t Z) in
  let '(r1, n1, f1) := AsyncWatchAny n0 f0 in
  match Notify 2 n1 f1 with
  | Some (n2, f2) =>
      let '(r2, n3, f3) := AsyncWatchAny n2 f2 in
      fut_state r1 f3 = Some (Ready 2) ∧ fut_state r2 f3 = Some (Ready 2)
  | None => False
  end.
Proof. vm_compute. done. Qed.

(** A pending event that [AsyncWatch] does not watch is dropped. *)
Example notifier_watch_drops_others :
  let '(n0, f0) := make (fut_init : MapFutures.t Z) in
  match Notify 2 n0 f0 with
  | Some (n1, f1) =>
      let '(r1, n2, f2) := AsyncWatch [8; 4] n1 f1 in
      let '(r2, n3, f3) := AsyncWatchAny n2 f2 in
      fut_state r2 f3 = Some Pending
  | None => False
  end.
Proof. vm_compute. done. Qed.

(** The start of a watch for a subscription or the end, with a read pending. *)
Definition demo : t * MapFutures.t Z :=
  let '(n0, f0) := make fut_init in
  match Notify 2 n0 f0 with Some s => s | None => (n0, f0) end.

Lemma notifier_watch_delivers_witness :
  ∃ r n' f' n'' f'', do_watch (States [8; 4]) demo.1 demo.2 = (r, n', f') ∧
    notify_all [16; 4; 8] n' f' = Some (n'', f'') ∧
    fut_state r f'' = Some (Ready 20) ∧ notify_state n'' = 28.
Proof.
  destruct (do_watch (States [8; 4]) demo.1 demo.2) as [[r n'] f'] eqn:E.
  destruct (notifier_watch_delivers (States [8; 4]) [16; 4; 8] demo.1 demo.2 r n' f')
    as (n'' & f'' & E' & _ & Hf & Hs); [reflexivity|exact E|].
  exists r, n', f', n'', f''. split; [reflexivity|]. split; [exact E'|]. split; [exact Hf|exact Hs].
Defined.

End DataflowNotifier.
