(* ===== verification/Ports.v ===== *)
(** * Ports of the dataflow kernels

    include/ar/dataflow/port.hpp, consumer.hpp, source.hpp, sink.hpp, port_controller.hpp and
    the sources of the same names under src/dataflow.  A pointer to an object that is shared
    is a number; the calls an operation makes on a notifier are part of its result. *)
From S2P Require Import Prelude.
From S2P Require Import SharedBuffer.
From S2P Require Import DataflowNotifier.

(** A call [notifier->Notify(event)]. *)
Record notify_call := mkCall { callee : nat; event : Z }.

Definition call_if (n : option nat) (e : Z) : list notify_call :=
  match n with Some p => [mkCall p e] | None => [] end.

(** ** Port *)
Module Port.

Record t := mk {
  name : string;
  subscribers : gset Z;
  subscribers_count : Z;
  data_type : Z
}.

Definition make (nm : string) (ty : Z) : t := mk nm ∅ 0 ty.

Definition Subscribe (user : Z) (p : t) : t :=
  let s := {[user]} ∪ subscribers p in mk (name p) s (u64 (size s)) (data_type p).

Definition Unsubscribe (user : Z) (p : t) : t :=
  let s := subscribers p ∖ {[user]} in mk (name p) s (u64 (size s)) (data_type p).

Definition SubscribersEmpty (p : t) : bool := subscribers_count p =? 0.

Definition UnsubscribeAll (p : t) : t := mk (name p) ∅ 0 (data_type p).

(** The counter is the size of the set. *)
Definition inv (p : t) : Prop := subscribers_count p = size (subscribers p) ∧ size (subscribers p) < 2 ^ 64.

Lemma SubscribersEmpty_spec p : inv p → SubscribersEmpty p = true ↔ subscribers p = ∅.
Proof.
  intros [Hc _]. unfold SubscribersEmpty. rewrite Hc, Z.eqb_eq. split.
  - intros Hs. apply leibniz_equiv, size_empty_inv. lia.
  - intros ->. by rewrite size_empty.
Qed.

Lemma Subscribe_inv user p : inv p → size (subscribers p) + 1 < 2 ^ 64 → inv (Subscribe user p).
Proof.
  intros [_ _] Hb. unfold inv, Subscribe. cbn.
  assert (size ({[user]} ∪ subscribers p) ≤ S (size (subscribers p)))%nat.
  { rewrite size_union_alt, size_singleton.
    assert (size (subscribers p ∖ {[user]}) ≤ size (subscribers p))%nat by (apply subseteq_size; set_solver).
    lia. }
  split; [apply uwrap_small|]; lia.
Qed.

Lemma Unsubscribe_inv user p : inv p → inv (Unsubscribe user p).
Proof.
  intros [_ Hb]. unfold inv, Unsubscribe. cbn.
  assert (size (subscribers p ∖ {[user]}) ≤ size (subscribers p))%nat by (apply subseteq_size; set_solver).
  split; [apply uwrap_small|]; lia.
Qed.

Lemma UnsubscribeAll_inv p : inv (UnsubscribeAll p).
Proof. split; cbn; by rewrite size_empty. Qed.

Lemma make_inv_port nm ty : inv (make nm ty).
Proof. split; cbn; by rewrite size_empty. Qed.

End Port.

(** ** The queue of a source port

    [boost::lockfree::spsc_queue] with a fixed capacity. *)
Class SpscQueue (T Q : Type) := {
  spsc_make : Z → Q;
  spsc_push : T → Q → option Q;          (* None: push returned false *)
  spsc_pop : Q → option (T * Q);         (* None: pop returned false *)
  spsc_empty : Q → bool;
  spsc_elems : Q → list T;
  spsc_capacity : Q → Z
}.

Class SpscQueueLaws (T Q : Type) `{SpscQueue T Q} := {
  spsc_make_spec n : 0 <= n → spsc_elems (spsc_make n) = [] ∧ spsc_capacity (spsc_make n) = n;
  spsc_push_spec x q : match spsc_push x q with
    | Some q' => length (spsc_elems q) < spsc_capacity q ∧
        spsc_elems q' = spsc_elems q ++ [x] ∧ spsc_capacity q' = spsc_capacity q
    | None => spsc_capacity q <= length (spsc_elems q)
    end;
  spsc_pop_spec q : match spsc_pop q with
    | Some (x, q') => spsc_elems q = x :: spsc_elems q' ∧ spsc_capacity q' = spsc_capacity q
    | None => spsc_elems q = []
    end;
  spsc_empty_spec q : spsc_empty q = true ↔ spsc_elems q = []
}.

Module ListSpsc.

#[global] Instance list_spsc (T : Type) : SpscQueue T (Z * list T) := {|
  spsc_make n := (n, []);
  spsc_push x q := if length q.2 <? q.1 then Some (q.1, q.2 ++ [x]) else None;
  spsc_pop q := match q.2 with x :: l => Some (x, (q.1, l)) | [] => None end;
  spsc_empty q := match q.2 with [] => true | _ => false end;
  spsc_elems q := q.2;
  spsc_capacity q := q.1
|}.

#[global] Instance list_spsc_laws (T : Type) : SpscQueueLaws T (Z * list T).
Proof.
  split; cbn.
  - done.
  - intros x [c l]. cbn. destruct (Z.ltb_spec (length l) c); cbn; [done|lia].
  - intros [c [|x l]]; done.
  - intros [c [|x l]]; done.
Qed.

End ListSpsc.

(** ** Consumer

    The interface a sink port calls.  [Write_move] is [Write(T &&)]: it also gives what
    [msg] is after the call. *)
Class Consumer (T C : Type) := {
  IsActive : C → bool;
  Write : T → C → Z * C * list notify_call;
  Write_move : T → C → Z * C * list notify_call * T
}.

(** ** SourcePort *)
Module SourcePort.
Section source_port.
Context {T Q : Type} `{SpscQueueLaws T Q}.

Record t := mk {
  port : Port.t;
  active : bool;
  notifier : option nat;
  queue : Q;
  skip_counter : option Z
}.

(** The constructor; [capacity] is an [int] and 100 by default. *)
Definition make (n : option nat) (nm : string) (ty capacity : Z) : t :=
  mk (Port.make nm ty) true n (spsc_make (u64 capacity)) None.

Definition set_queue (q : Q) (p : t) : t := mk (port p) (active p) (notifier p) q (skip_counter p).

Definition SetSkipCounter (p : t) : t := mk (port p) (active p) (notifier p) (queue p) (Some 0).

Definition error_code (e : SharedBufferError) : Z :=
  match e with kNO_ERROR => 0 | kBUFFER_OVERFLOW => 1 | kBUFFER_NOT_FOUND => 2 end.

(** The first half of [Write]: the push. *)
Definition write_push (msg : T) (p : t) : SharedBufferError * t :=
  match spsc_push msg (queue p) with
  | Some q => (kNO_ERROR, set_queue q p)
  | None => (kBUFFER_OVERFLOW,
      mk (port p) (active p) (notifier p) (queue p) ((λ c, c + 1) <$> skip_counter p))
  end.

(** [Write(const T &)]. *)
Definition WriteCopy (msg : T) (p : t) : Z * t * list notify_call :=
  let '(e, p') := write_push msg p in
  (error_code e, p', call_if (notifier p) kKERNEL_EVENT_READ_SOURCE).

(** [Write(T &&)]: [moved] is what a move leaves of a value; a push that fails does not move. *)
Definition WriteMove (moved : T → T) (msg : T) (p : t) : Z * t * list notify_call * T :=
  let '(e, p') := write_push msg p in
  (error_code e, p', call_if (notifier p) kKERNEL_EVENT_READ_SOURCE,
   match e with kNO_ERROR => moved msg | _ => msg end).

Definition Read (p : t) : option T * t :=
  match spsc_pop (queue p) with
  | Some (msg, q) => (Some msg, set_queue q p)
  | None => (None, p)
  end.

(** [TryRead(res)]: the flag, and [res] when it was written. *)
Definition TryRead (p : t) : bool * option T * t :=
  match spsc_pop (queue p) with
  | Some (msg, q) => (true, Some msg, set_queue q p)
  | None => (false, None, p)
  end.

Definition Empty (p : t) : bool := spsc_empty (queue p).

(** The loop of [Flush]; [None] when the fuel runs out. *)
Fixpoint flush_loop (fuel : nat) (q : Q) : option Q :=
  match fuel with
  | O => None
  | S fuel' =>
      if spsc_empty q then Some q
      else match spsc_pop q with
           | Some (_, q') => flush_loop fuel' q'
           | None => Some q
           end
  end.

Definition Flush (p : t) : t :=
  match flush_loop (S (length (spsc_elems (queue p)))) (queue p) with
  | Some q => set_queue q p
  | None => p
  end.

Definition Activate (p : t) : t := mk (port p) true (notifier p) (queue p) (skip_counter p).

Definition Deactivate (p : t) : t := mk (port p) false (notifier p) (queue p) (skip_counter p).

#[global] Instance source_port_consumer (moved : T → T) : Consumer T t := {|
  IsActive := active;
  Write := WriteCopy;
  Write_move := WriteMove moved
|}.

(** The messages waiting in the port. *)
Definition messages (p : t) : list T := spsc_elems (queue p).

Lemma flush_loop_empties fuel : ∀ q, (length (spsc_elems q) < fuel)%nat →
  ∃ q', flush_loop fuel q = Some q' ∧ spsc_elems q' = [].
Proof.
  induction fuel as [|fuel IH]; intros q Hf; [lia|]. cbn.
  pose proof (spsc_empty_spec q) as He. pose proof (spsc_pop_spec q) as Hp.
  destruct (spsc_empty q); [exists q; by rewrite <- He|].
  destruct (spsc_pop q) as [[x q']|]; [|by exists q].
  destruct Hp as [Hp _]. rewrite Hp in Hf. cbn in Hf. apply IH. lia.
Qed.

(** [Flush] ends, with an empty queue. *)
Lemma Flush_messages p : messages (Flush p) = [].
Proof.
  unfold Flush. destruct (flush_loop_empties (S (length (spsc_elems (queue p)))) (queue p))
    as (q & -> & Hq); [lia|]. done.
Qed.

Lemma Flush_rest p : active (Flush p) = active p ∧ notifier (Flush p) = notifier p ∧ port (Flush p) = port p.
Proof. unfold Flush. by destruct (flush_loop _ _). Qed.

(** A write appends when there is room, and otherwise leaves the queue alone. *)
Lemma write_push_messages msg p :
  (length (messages p) < spsc_capacity (queue p) ∧
   (write_push msg p).1 = kNO_ERROR ∧ messages (write_push msg p).2 = messages p ++ [msg]) ∨
  (spsc_capacity (queue p) <= length (messages p) ∧
   (write_push msg p).1 = kBUFFER_OVERFLOW ∧ messages (write_push msg p).2 = messages p).
Proof.
  unfold write_push, messages. pose proof (spsc_push_spec msg (queue p)) as Hp.
  destruct (spsc_push msg (queue p)) as [q|]; cbn; [left|right]; naive_solver.
Qed.

End source_port.
#[global] Arguments t : clear implicits.
End SourcePort.

(** ** Objects behind shared pointers *)
Section heap.
Context {A : Type}.

(** [for (auto & p : ps) p->f()]. *)
Fixpoint alter_all (f : A → A) (ps : list Z) (h : gmap Z A) : gmap Z A :=
  match ps with
  | [] => h
  | p :: ps' => alter_all f ps' (alter f p h)
  end.

Lemma alter_all_other f ps p : ∀ h, p ∉ ps → alter_all f ps h !! p = h !! p.
Proof.
  induction ps as [|q ps IH]; intros h Hp; cbn; [done|].
  apply not_elem_of_cons in Hp as [Hq Hp]. rewrite IH by done. by apply lookup_alter_ne.
Qed.

Lemma alter_all_stable (P : A → Prop) f ps p : ∀ h, (∀ x, P x → P (f x)) →
  (∃ x, h !! p = Some x ∧ P x) → ∃ x, alter_all f ps h !! p = Some x ∧ P x.
Proof.
  induction ps as [|q ps IH]; intros h Hf Hx; cbn; [done|]. apply IH; [done|].
  destruct Hx as (x & Hx & HP). destruct (decide (q = p)) as [->|Hne].
  - exists (f x). rewrite lookup_alter_eq, Hx. auto.
  - exists x. by rewrite lookup_alter_ne.
Qed.

(** What [f] establishes, and keeps, holds of every object of the list. *)
Lemma alter_all_this (P : A → Prop) f ps p : ∀ h, (∀ x, P (f x)) →
  p ∈ ps → is_Some (h !! p) → ∃ x, alter_all f ps h !! p = Some x ∧ P x.
Proof.
  induction ps as [|q ps IH]; intros h Hf Hp [x Hx]; [by apply elem_of_nil in Hp|]. cbn.
  apply elem_of_cons in Hp as [->|Hp].
  - apply alter_all_stable; [auto|]. exists (f x). by rewrite lookup_alter_eq, Hx.
  - apply IH; [done..|]. apply lookup_alter_is_Some. eauto.
Qed.

Lemma alter_all_some f ps p : ∀ h, is_Some (alter_all f ps h !! p) ↔ is_Some (h !! p).
Proof.
  induction ps as [|q ps IH]; intros h; cbn; [done|]. rewrite IH. apply lookup_alter_is_Some.
Qed.
End heap.

(** [std::runtime_error], by its text. *)
Definition runtime_error := string.

(** ** Source *)
Module Source.
Section source.
Context {T Q : Type} `{SpscQueueLaws T Q}.

(** The ports are shared with the sinks they are connected to: the map has pointers. *)
Record t := mk { notifier : option nat; port_map : gmap string Z }.

Definition make (n : option nat) : t := mk n ∅.

(** [Add(name, buffer_type, args...)]; [p] is the address of the new port. *)
Definition Add (nm : string) (ty capacity : Z) (p : Z) (s : t) (h : gmap Z (SourcePort.t Q))
  : runtime_error + (t * gmap Z (SourcePort.t Q)) :=
  match port_map s !! nm with
  | Some _ => inl "Source port already exists"
  | None => inr (mk (notifier s) (<[nm := p]> (port_map s)),
                 <[p := SourcePort.make (notifier s) nm ty capacity]> h)
  end.

(** [Add(name, buffer_type)]. *)
Definition AddDefault (nm : string) (ty : Z) := Add nm ty 100.

(** [At] and [operator[]]: the cast to [SourcePort<T>] is not checked. *)
Definition At (nm : string) (s : t) : runtime_error + Z :=
  match port_map s !! nm with
  | Some p => inr p
  | None => inl "Source port not found"
  end.

Definition ports (s : t) : list Z := (map_to_list (port_map s)).*2.

Definition Flush (s : t) (h : gmap Z (SourcePort.t Q)) : gmap Z (SourcePort.t Q) := alter_all SourcePort.Flush (ports s) h.

Definition Activate (s : t) (h : gmap Z (SourcePort.t Q)) : gmap Z (SourcePort.t Q) := alter_all SourcePort.Activate (ports s) h.

(** [Source::Deactivate]: its body is empty. *)
Definition Deactivate (s : t) (h : gmap Z (SourcePort.t Q)) : gmap Z (SourcePort.t Q) := h.

Lemma ports_spec s p : p ∈ ports s ↔ ∃ nm, port_map s !! nm = Some p.
Proof.
  unfold ports. rewrite list_elem_of_fmap. split.
  - intros ([nm q] & -> & Hq). exists nm. by apply elem_of_map_to_list in Hq.
  - intros [nm Hp]. exists (nm, p). split; [done|]. by apply elem_of_map_to_list.
Qed.

(** After [Flush] no port of the source has a message. *)
Lemma Flush_empty s h p x : p ∈ ports s → Flush s h !! p = Some x → SourcePort.messages x = [].
Proof.
  unfold Flush. intros Hp Hx.
  assert (is_Some (h !! p)) as Hs by (apply (alter_all_some SourcePort.Flush (ports s)); rewrite Hx; eauto).
  destruct (alter_all_this (λ x, SourcePort.messages x = []) SourcePort.Flush (ports s) p h)
    as (y & Hy & Hm); [apply SourcePort.Flush_messages|done..|].
  congruence.
Qed.

(** [Activate] changes no queue. *)
Lemma Activate_messages s h p :
  (SourcePort.messages <$> Activate s h !! p) = (SourcePort.messages <$> h !! p).
Proof.
  unfold Activate. revert h. induction (ports s) as [|q ps IH]; intros h; cbn; [done|]. rewrite IH.
  destruct (decide (q = p)) as [->|Hne]; [|by rewrite lookup_alter_ne].
  rewrite lookup_alter_eq. by destruct (h !! p).
Qed.

End source.
End Source.
