(* ===== verification/Sink.v ===== *)
(** * Sinks: broadcasting messages and counting subscribers

    include/ar/dataflow/sink.hpp, src/dataflow/sink.cpp and the port controller of
    include/ar/dataflow/port_controller.hpp, src/dataflow/port_controller.cpp. *)
From S2P Require Import Prelude.
From S2P Require Import SharedBuffer.
From S2P Require Import DataflowNotifier.
From S2P Require Import Ports.

Module SinkPort.

(** The consumers are shared pointers, 0 the null one. *)
Record t := mk {
  port : Port.t;
  last_msg_ts : Z;
  notifier : option nat;
  consumers : list Z
}.

Definition make (nm : string) (ty : Z) (n : option nat) : t := mk (Port.make nm ty) 0 n [].

Definition set_consumers (cs : list Z) (p : t) : t := mk (port p) (last_msg_ts p) (notifier p) cs.

Definition set_port (q : Port.t) (p : t) : t := mk q (last_msg_ts p) (notifier p) (consumers p).

(** The test of the lambdas: both pointers are set and equal. *)
Definition same_consumer (c p : Z) : bool := negb (c =? 0) && negb (p =? 0) && (c =? p).

Definition Connect (c : Z) (p : t) : runtime_error + t :=
  if existsb (same_consumer c) (consumers p) then inl "Consumer already exist"
  else inr (set_consumers (consumers p ++ [c]) p).

Definition Disconnect (c : Z) (p : t) : t :=
  set_consumers (List.filter (λ q, negb (same_consumer c q)) (consumers p)) p.

Definition DisconnectAll (p : t) : t := set_consumers [] p.

Definition ConsumersCount (p : t) : Z := i32 (length (consumers p)).

(** [duration_cast<milliseconds>] of a clock in nanoseconds. *)
Definition stamp (now : Z) (p : t) : t := mk (port p) (now ÷ 1000000) (notifier p) (consumers p).

Section send.
Context {T C : Type} `{Consumer T C}.

(** The loop of [Send(const T &)]; [None] is a call through a pointer to no object. *)
Fixpoint send_loop (msg : T) (cs : list Z) (h : gmap Z C) : option (gmap Z C * list notify_call) :=
  match cs with
  | [] => Some (h, [])
  | c :: cs' =>
      x ← h !! c;
      if IsActive x then
        let '(_, x', calls) := Write msg x in
        '(h', calls') ← send_loop msg cs' (<[c := x']> h);
        Some (h', calls ++ calls')
      else send_loop msg cs' h
  end.

Definition Send (msg : T) (now : Z) (p : t) (h : gmap Z C) : option (t * gmap Z C * list notify_call) :=
  '(h', calls) ← send_loop msg (consumers p) h; Some (stamp now p, h', calls).

(** The loop of [Send(T &&)]: every turn moves the same [msg]. *)
Fixpoint send_move_loop (msg : T) (cs : list Z) (h : gmap Z C)
  : option (gmap Z C * list notify_call) :=
  match cs with
  | [] => Some (h, [])
  | c :: cs' =>
      x ← h !! c;
      if IsActive x then
        let '(_, x', calls, msg') := Write_move msg x in
        '(h', calls') ← send_move_loop msg' cs' (<[c := x']> h);
        Some (h', calls ++ calls')
      else send_move_loop msg cs' h
  end.

Definition SendMove (msg : T) (now : Z) (p : t) (h : gmap Z C)
  : option (t * gmap Z C * list notify_call) :=
  '(h', calls) ← send_move_loop msg (consumers p) h; Some (stamp now p, h', calls).

(** [Send(it, msg)] and [IsActive(it)] for the consumer at [c]. *)
Definition SendTo (msg : T) (c : Z) (h : gmap Z C) : option (bool * gmap Z C * list notify_call) :=
  x ← h !! c; let '(e, x', calls) := Write msg x in Some (e =? 0, <[c := x']> h, calls).

Definition SendToMove (msg : T) (c : Z) (h : gmap Z C) : option (bool * gmap Z C * list notify_call * T) :=
  x ← h !! c; let '(e, x', calls, msg') := Write_move msg x in Some (e =? 0, <[c := x']> h, calls, msg').

Definition IsActiveAt (c : Z) (h : gmap Z C) : option bool := x ← h !! c; Some (IsActive x).

(** What the broadcast makes of one consumer, and the calls it causes. *)
Definition after_write (msg : T) (x : C) : C := if IsActive x then (Write msg x).1.2 else x.

Definition write_calls (msg : T) (x : C) : list notify_call := if IsActive x then (Write msg x).2 else [].

Lemma send_loop_spec msg cs : ∀ h, NoDup cs → (∀ c, c ∈ cs → is_Some (h !! c)) →
  ∃ h' calls, send_loop msg cs h = Some (h', calls) ∧
    (∀ c, c ∉ cs → h' !! c = h !! c) ∧
    (∀ c, c ∈ cs → h' !! c = after_write msg <$> h !! c) ∧
    calls = concat ((λ c, match h !! c with Some x => write_calls msg x | None => [] end) <$> cs).
Proof.
  induction cs as [|c cs IH]; intros h Hnd Hin.
  { exists h, []. split; [done|]. split; [done|]. split; [by intros c ?%elem_of_nil|done]. }
  apply NoDup_cons in Hnd as [Hc Hnd]. destruct (Hin c) as [x Hx]; [left|].
  assert (X : ∃ h1 k1, (if IsActive x then h1 = <[c := (Write msg x).1.2]> h ∧ k1 = (Write msg x).2
      else h1 = h ∧ k1 = []) ∧ send_loop msg (c :: cs) h =
        ('(h', k) ← send_loop msg cs h1; Some (h', k1 ++ k))).
  { cbn. rewrite Hx. cbn. destruct (IsActive x).
    - destruct (Write msg x) as [[e x'] k1]. eexists _, _. split; [by split|done].
    - exists h, []. split; [done|]. by destruct (send_loop msg cs h) as [[]|]. }
  destruct X as (h1 & k1 & Hif & ->).
  assert (Hh1 : (∀ q, q ≠ c → h1 !! q = h !! q) ∧ h1 !! c = Some (after_write msg x) ∧ k1 = write_calls msg x).
  { unfold after_write, write_calls. destruct (IsActive x); destruct Hif as [-> ->]; [|done].
    split; [intros q Hq; by rewrite lookup_insert_ne|]. by rewrite lookup_insert_eq. }
  destruct Hh1 as (Hne & Hc1 & ->).
  destruct (IH h1 Hnd) as (h2 & k2 & E & Ho & Ht & ->).
  { intros q Hq. rewrite Hne by (by intros ->). apply Hin. by right. }
  rewrite E. cbn. eexists h2, _. split; [done|]. split; [|split].
  - intros q Hq. rewrite Ho by set_solver. apply Hne. set_solver.
  - intros q [->|Hq]%elem_of_cons.
    + rewrite Ho, Hc1, Hx by done. done.
    + rewrite Ht, Hne by (done || by intros ->). done.
  - rewrite Hx. f_equal. f_equal. apply list_fmap_ext. intros i q Hq%list_elem_of_lookup_2.
    rewrite Hne; [done|]. by intros ->.
Qed.

(** Connecting keeps the pointers distinct, the null one apart. *)
Lemma connect_nodup c p p' : c ≠ 0 → NoDup (consumers p) → Connect c p = inr p' → NoDup (consumers p').
Proof.
  unfold Connect. intros Hc Hnd E. destruct (existsb (same_consumer c) (consumers p)) eqn:Ex; simplify_eq.
  cbn. apply NoDup_app. split; [done|]. split; [|by apply NoDup_singleton].
  intros q Hq ->%list_elem_of_singleton. apply not_true_iff_false in Ex. apply Ex, existsb_exists.
  exists c. split; [by apply list_elem_of_In|]. unfold same_consumer. ztest; cbn; done || lia.
Qed.

(** C30: [Send(const T &)] broadcasts: when the connected consumers are distinct live objects,
    the call returns; every connected consumer that is active has had exactly one [Write] of
    the message, every other object is as before, and the notifier calls made are those of the
    writes, in the order of the connections. *)
Theorem sink_broadcasts msg now (p : t) (h : gmap Z C) :
  NoDup (consumers p) → (∀ c, c ∈ consumers p → is_Some (h !! c)) →
  ∃ h' calls, Send msg now p h = Some (stamp now p, h', calls) ∧
    (∀ c, h' !! c = if decide (c ∈ consumers p) then after_write msg <$> h !! c else h !! c) ∧
    calls = concat ((λ c, match h !! c with Some x => write_calls msg x | None => [] end) <$> consumers p).
Proof.
  intros Hnd Hin. destruct (send_loop_spec msg (consumers p) h Hnd Hin) as (h' & k & E & Ho & Ht & Hk).
  exists h', k. unfold Send. rewrite E. split; [done|]. split; [|done].
  intros c. case_decide; auto.
Qed.
End send.

Definition lift_port (f : Port.t → Port.t) (p : t) : t := set_port (f (port p)) p.

(** [SinkPort::Subscribe]. *)
Definition Subscribe (user : Z) (p : t) : t * list notify_call :=
  (lift_port (Port.Subscribe user) p, call_if (notifier p) kKERNEL_EVENT_SINK_SUBSCRIPTION).

(** [SinkPort::Unsubscribe]: it notifies when somebody was subscribed. *)
Definition Unsubscribe (user : Z) (p : t) : t * list notify_call :=
  let has_notify := negb (Port.SubscribersEmpty (port p)) in
  (lift_port (Port.Unsubscribe user) p,
   if has_notify then call_if (notifier p) kKERNEL_EVENT_SINK_UNSUBSCRIPTION else []).

Definition UnsubscribeAll (p : t) : t := lift_port Port.UnsubscribeAll p.

End SinkPort.

(** ** Source ports as consumers *)
Section source_consumers.
Context {T Q : Type} `{SpscQueueLaws T Q}.
Variable moved : T → T.
#[local] Instance source_ports : Consumer T (SourcePort.t Q) := SourcePort.source_port_consumer moved.

(** Active, with room for a message. *)
Definition accepts (x : SourcePort.t Q) : bool :=
  SourcePort.active x && (length (SourcePort.messages x) <? spsc_capacity (SourcePort.queue x)).

Lemma write_push_accepts msg (x : SourcePort.t Q) : SourcePort.active x = true →
  SourcePort.messages (SourcePort.write_push msg x).2 =
    SourcePort.messages x ++ (if accepts x then [msg] else []) ∧
  (SourcePort.write_push msg x).1 = (if accepts x then kNO_ERROR else kBUFFER_OVERFLOW).
Proof.
  intros Ha. unfold accepts. rewrite Ha. cbn.
  destruct (SourcePort.write_push_messages msg x) as [(Hl & -> & ->)|(Hl & -> & ->)]; ztest; try lia; rewrite ?app_nil_r; done.
Qed.

(** The messages of the object at [c], if there is one. *)
Definition messages_at (c : Z) (h : gmap Z (SourcePort.t Q)) : option (list T) := SourcePort.messages <$> h !! c.

(** How many of the objects at [cs] accept a message. *)
Fixpoint accepting (cs : list Z) (h : gmap Z (SourcePort.t Q)) : nat :=
  match cs with
  | [] => O
  | c :: cs' => ((if decide (accepts <$> h !! c = Some true) then 1 else 0) + accepting cs' h)%nat
  end.

Lemma accepting_ext cs h h' : (∀ c, c ∈ cs → h' !! c = h !! c) → accepting cs h' = accepting cs h.
Proof.
  induction cs as [|c cs IH]; intros He; cbn; [done|]. rewrite He by left. f_equal. apply IH. set_solver.
Qed.

(** One consumer of [Send(T &&)]. *)
Lemma send_move_cons msg c cs h x : h !! c = Some x →
  ∃ x' k, SinkPort.send_move_loop msg (c :: cs) h =
    ('(h', k') ← SinkPort.send_move_loop (if accepts x then moved msg else msg) cs (<[c := x']> h); Some (h', k ++ k')) ∧
    SourcePort.messages x' = SourcePort.messages x ++ (if accepts x then [msg] else []).
Proof.
  intros Hx. cbn [SinkPort.send_move_loop]. rewrite Hx. cbn.
  destruct (SourcePort.active x) eqn:Ea.
  - destruct (write_push_accepts msg x Ea) as [Hm He]. unfold SourcePort.WriteMove.
    destruct (SourcePort.write_push msg x) as [e x']. cbn in *. subst e.
    eexists x', _. split; [|done]. by destruct (accepts x).
  - exists x, []. rewrite insert_id by done. unfold accepts. rewrite Ea, app_nil_r. split; [|done]. cbn.
    by destruct (SinkPort.send_move_loop msg cs h) as [[]|].
Qed.

Lemma send_move_loop_spec cs : ∀ msg h, NoDup cs → (∀ c, c ∈ cs → is_Some (h !! c)) →
  ∃ h' calls, SinkPort.send_move_loop msg cs h = Some (h', calls) ∧
    (∀ c, c ∉ cs → h' !! c = h !! c) ∧
    ∀ l1 c l2 x, cs = l1 ++ c :: l2 → h !! c = Some x →
      messages_at c h' = Some (SourcePort.messages x ++
        (if accepts x then [Nat.iter (accepting l1 h) moved msg] else [])).
Proof.
  induction cs as [|c cs IH]; intros msg h Hnd Hin.
  { exists h, []. split; [done|]. split; [done|]. by intros []. }
  apply NoDup_cons in Hnd as [Hc Hnd]. destruct (Hin c) as [x Hx]; [left|].
  destruct (send_move_cons msg c cs h x Hx) as (x' & k & -> & Hx').
  destruct (IH (if accepts x then moved msg else msg) (<[c := x']> h) Hnd) as (h2 & k2 & E & Ho & Ht).
  { intros q Hq. apply lookup_insert_is_Some'. right. apply Hin. by right. }
  rewrite E. cbn. eexists h2, _. split; [done|]. split.
  - intros q Hq. rewrite Ho by set_solver. apply lookup_insert_ne. set_solver.
  - intros [|c' l1] d l2 y Hcs Hy; simplify_list_eq.
    + unfold messages_at. rewrite Ho, lookup_insert_eq by done.
      cbn. by rewrite Hx'.
    + rename c' into c. assert (d ≠ c) by (intros ->; set_solver).
      rewrite (Ht l1 d l2 y); [|done|by rewrite lookup_insert_ne].
      do 2 f_equal. destruct (accepts y); [|done]. f_equal.
      rewrite Hx. cbn. assert (Hl : ∀ q, q ∈ l1 → q ≠ c) by (intros q Hq ->; set_solver).
      rewrite (accepting_ext l1 h (<[c := x']> h)) by (intros q Hq; rewrite lookup_insert_ne; [done|by apply not_eq_sym, Hl]).
      destruct (accepts x); cbn; [|done]. by rewrite Nat.iter_swap.
Qed.

(** [Send(T &&)] moves its argument once per accepting consumer: the first connected
    source port that is active and has room gets the message, and every later one gets what the
    moves before it left of the message, [moved] applied as many times as ports accepted before. *)
Theorem sink_send_moves_message msg now (p : SinkPort.t) h :
  NoDup (SinkPort.consumers p) → (∀ c, c ∈ SinkPort.consumers p → is_Some (h !! c)) →
  ∃ h' calls, SinkPort.SendMove msg now p h = Some (SinkPort.stamp now p, h', calls) ∧
    ∀ l1 c l2 x, SinkPort.consumers p = l1 ++ c :: l2 → h !! c = Some x →
      messages_at c h' = Some (SourcePort.messages x ++
        (if accepts x then [Nat.iter (accepting l1 h) moved msg] else [])).
Proof.
  intros Hnd Hin. destruct (send_move_loop_spec (SinkPort.consumers p) msg h Hnd Hin) as (h' & k & E & _ & Ht).
  exists h', k. unfold SinkPort.SendMove. rewrite E. by split.
Qed.

(** A broadcast to source ports: the accepting ones have the message at the end. *)
Lemma sink_broadcast_messages msg now (p : SinkPort.t) (h h' : gmap Z (SourcePort.t Q)) q calls c x :
  NoDup (SinkPort.consumers p) → SinkPort.Send msg now p h = Some (q, h', calls) →
  (∀ c, c ∈ SinkPort.consumers p → is_Some (h !! c)) → c ∈ SinkPort.consumers p → h !! c = Some x →
  messages_at c h' = Some (SourcePort.messages x ++ (if accepts x then [msg] else [])).
Proof.
  intros Hnd E Hin Hc Hx.
  destruct (SinkPort.send_loop_spec msg (SinkPort.consumers p) h Hnd Hin) as (h2 & k & E2 & _ & Ht & _).
  unfold SinkPort.Send in E. rewrite E2 in E. cbn in E. simplify_eq.
  unfold messages_at. rewrite Ht, Hx by done. cbn. f_equal. unfold SinkPort.after_write. cbn.
  destruct (SourcePort.active x) eqn:Ea.
  - destruct (write_push_accepts msg x Ea) as [Hm He]. unfold SourcePort.WriteCopy.
    by destruct (SourcePort.write_push msg x) as [e x'].
  - unfold accepts. by rewrite Ea, app_nil_r.
Qed.
End source_consumers.

(** Two active ports and an inactive one behind a sink port. *)
Definition demo_port (active : bool) : SourcePort.t (Z * list Z) :=
  let p := SourcePort.make (Some O) "in" 0 2 in if active then p else SourcePort.Deactivate p.

Definition demo_heap : gmap Z (SourcePort.t (Z * list Z)) :=
  {[ 1 := demo_port true; 2 := demo_port false; 3 := demo_port true ]}.

Definition demo_sink : SinkPort.t := SinkPort.set_consumers [1; 2; 3] (SinkPort.make "out" 0 None).

Lemma demo_nodup : NoDup (SinkPort.consumers demo_sink).
Proof. apply (bool_decide_unpack _). vm_compute. done. Defined.

Lemma demo_live c : c ∈ SinkPort.consumers demo_sink → is_Some (demo_heap !! c).
Proof.
  intros Hc. repeat (apply elem_of_cons in Hc as [->|Hc]; [by eexists|]). by apply elem_of_nil in Hc.
Defined.

Lemma sink_broadcasts_witness :
  let C := SourcePort.source_port_consumer (λ _ : Z, 0) in
  ∃ h' calls, SinkPort.Send 7 5000000 demo_sink demo_heap = Some (SinkPort.stamp 5000000 demo_sink, h', calls) ∧
    messages_at 1 h' = Some [7] ∧ messages_at 2 h' = Some [] ∧ messages_at 3 h' = Some [7] ∧
    calls = [mkCall 0 2; mkCall 0 2].
Proof.
  intros C. destruct (SinkPort.sink_broadcasts 7 5000000 demo_sink demo_heap demo_nodup demo_live)
    as (h' & calls & E & Hh & Hc).
  exists h', calls. split; [exact E|]. unfold messages_at. rewrite !Hh, Hc. vm_compute. done.
Defined.

Lemma sink_send_moves_message_witness :
  let C := SourcePort.source_port_consumer (λ _ : Z, 0) in
  ∃ h' calls, SinkPort.SendMove 7 5000000 demo_sink demo_heap = Some (SinkPort.stamp 5000000 demo_sink, h', calls) ∧
    messages_at 1 h' = Some [7] ∧ messages_at 3 h' = Some [0].
Proof.
  intros C. destruct (sink_send_moves_message (λ _ : Z, 0) 7 5000000 demo_sink demo_heap demo_nodup demo_live)
    as (h' & calls & E & Hm).
  exists h', calls. split; [exact E|].
  rewrite (Hm [] 1 [2; 3] (demo_port true)) by reflexivity.
  rewrite (Hm [1; 2] 3 [] (demo_port true)) by reflexivity. vm_compute. done.
Defined.

(** ** Sink *)
Module Sink.

Record t := mk { notifier : option nat; port_map : gmap string Z }.

Definition make (n : option nat) : t := mk n ∅.

Abbreviation heap := (gmap Z SinkPort.t).

(** [Add]; [p] is the address of the new port. *)
Definition Add (nm : string) (ty p : Z) (s : t) (h : heap) : runtime_error + (t * heap) :=
  match port_map s !! nm with
  | Some _ => inl "Source port already exists"
  | None => inr (mk (notifier s) (<[nm := p]> (port_map s)), <[p := SinkPort.make nm ty (notifier s)]> h)
  end.

Definition At (nm : string) (s : t) : runtime_error + Z :=
  match port_map s !! nm with
  | Some p => inr p
  | None => inl "Source port not found"
  end.

(** A call on the port at [p]. *)
Definition on_port (p : Z) (f : SinkPort.t → SinkPort.t * list notify_call) (h : heap) : heap * list notify_call :=
  match h !! p with
  | Some x => let '(x', calls) := f x in (<[p := x']> h, calls)
  | None => (h, [])
  end.

Definition Subscribe (nm : string) (user : Z) (s : t) (h : heap) : runtime_error + (heap * list notify_call) :=
  match At nm s with
  | inl e => inl e
  | inr p => inr (on_port p (SinkPort.Subscribe user) h)
  end.

Definition Unsubscribe (nm : string) (user : Z) (s : t) (h : heap) : runtime_error + (heap * list notify_call) :=
  match At nm s with
  | inl e => inl e
  | inr p => inr (on_port p (SinkPort.Unsubscribe user) h)
  end.

Definition ports (s : t) : list Z := (map_to_list (port_map s)).*2.

Definition UnsubscribeAll (s : t) (h : heap) : heap := alter_all SinkPort.UnsubscribeAll (ports s) h.

(** [DisconnectAll]: the body of its loop is a comment. *)
Definition DisconnectAll (s : t) (h : heap) : heap := h.

Definition port_empty (h : heap) (p : Z) : bool :=
  match h !! p with Some x => Port.SubscribersEmpty (SinkPort.port x) | None => true end.

(** [SubscribersEmpty]: the first port with a subscriber ends the loop. *)
Fixpoint empty_loop (ps : list Z) (h : heap) : bool :=
  match ps with
  | [] => true
  | p :: ps' => if negb (port_empty h p) then false else empty_loop ps' h
  end.

Definition SubscribersEmpty (s : t) (h : heap) : bool := empty_loop (ports s) h.

(** *** What the subscriptions amount to *)

(** The subscribers of every port. *)
Definition view (h : heap) : gmap Z (gset Z) := (λ x, Port.subscribers (SinkPort.port x)) <$> h.

Inductive op := OpSubscribe (nm : string) (user : Z) | OpUnsubscribe (nm : string) (user : Z) | OpUnsubscribeAll.

Definition step (s : t) (h : heap) (o : op) : runtime_error + (heap * list notify_call) :=
  match o with
  | OpSubscribe nm u => Subscribe nm u s h
  | OpUnsubscribe nm u => Unsubscribe nm u s h
  | OpUnsubscribeAll => inr (UnsubscribeAll s h, [])
  end.

(** An operation that throws changes nothing. *)
Fixpoint run (s : t) (h : heap) (os : list op) : heap :=
  match os with
  | [] => h
  | o :: os' => run s (match step s h o with inr (h', _) => h' | inl _ => h end) os'
  end.

(** The same on sets. *)
Definition view_step (s : t) (v : gmap Z (gset Z)) (o : op) : gmap Z (gset Z) :=
  match o with
  | OpSubscribe nm u => match port_map s !! nm with Some p => alter (λ S, {[u]} ∪ S) p v | None => v end
  | OpUnsubscribe nm u => match port_map s !! nm with Some p => alter (λ S, S ∖ {[u]}) p v | None => v end
  | OpUnsubscribeAll => map_imap (λ p S, if decide (p ∈ ports s) then Some ∅ else Some S) v
  end.

(** Counters are right, with at most [k] subscribers. *)
Definition inv (k : nat) (h : heap) : Prop :=
  map_Forall (λ _ x, Port.inv (SinkPort.port x) ∧ (size (Port.subscribers (SinkPort.port x)) ≤ k)%nat) h.

Lemma ports_spec_sink s p : p ∈ ports s ↔ ∃ nm, port_map s !! nm = Some p.
Proof.
  unfold ports. rewrite list_elem_of_fmap. split.
  - intros ([nm q] & -> & Hq). exists nm. by apply elem_of_map_to_list in Hq.
  - intros [nm Hp]. exists (nm, p). split; [done|]. by apply elem_of_map_to_list.
Qed.

Lemma on_port_view p f g h : (∀ x, Port.subscribers (SinkPort.port (f x).1) = g (Port.subscribers (SinkPort.port x))) →
  view (on_port p f h).1 = alter g p (view h).
Proof.
  intros Hf. apply map_eq. intros q. unfold on_port, view. destruct (h !! p) as [x|] eqn:Hx.
  - destruct (f x) as [x' k] eqn:E. cbn. rewrite lookup_fmap. destruct (decide (q = p)) as [->|Hne].
    + rewrite lookup_insert_eq, lookup_alter_eq, lookup_fmap, Hx. cbn. by rewrite <- Hf, E.
    + by rewrite lookup_insert_ne, lookup_alter_ne, lookup_fmap by done.
  - cbn. destruct (decide (q = p)) as [->|Hne]; [|by rewrite lookup_alter_ne].
    by rewrite lookup_alter_eq, lookup_fmap, Hx.
Qed.

Lemma unsubscribe_all_view s h : view (UnsubscribeAll s h) = view_step s (view h) OpUnsubscribeAll.
Proof.
  apply map_eq. intros q. unfold view. rewrite lookup_fmap. cbn. rewrite map_lookup_imap, lookup_fmap.
  unfold UnsubscribeAll. case_decide as Hq.
  - destruct (h !! q) as [x|] eqn:Hx.
    + destruct (alter_all_this (λ x, Port.subscribers (SinkPort.port x) = ∅) SinkPort.UnsubscribeAll (ports s) q h)
        as (y & -> & Hy); [done|done|eauto|]. cbn. by rewrite Hy.
    + destruct (alter_all SinkPort.UnsubscribeAll (ports s) h !! q) eqn:E; [|done].
      destruct (proj1 (alter_all_some SinkPort.UnsubscribeAll (ports s) q h)); [eauto|congruence].
  - rewrite alter_all_other by done. by destruct (h !! q).
Qed.

Lemma step_view s h o :
  view (match step s h o with inr (h', _) => h' | inl _ => h end) = view_step s (view h) o.
Proof.
  destruct o as [nm u|nm u|]; [| |apply unsubscribe_all_view]; cbn; unfold Subscribe, Unsubscribe, At;
    destruct (port_map s !! nm) as [p|]; [|done| |done].
  - rewrite <- (on_port_view p (SinkPort.Subscribe u) _ h) by done. by destruct (on_port _ _ h).
  - rewrite <- (on_port_view p (SinkPort.Unsubscribe u) _ h) by done. by destruct (on_port _ _ h).
Qed.

Lemma inv_on_port (k k' : nat) p f h : (k ≤ k')%nat →
  (∀ x, Port.inv (SinkPort.port x) → (size (Port.subscribers (SinkPort.port x)) ≤ k)%nat →
     Port.inv (SinkPort.port (f x).1) ∧ (size (Port.subscribers (SinkPort.port (f x).1)) ≤ k')%nat) →
  inv k h → inv k' (on_port p f h).1.
Proof.
  intros Hk Hf Hi. assert (Hi' : inv k' h).
  { intros q x Hx. destruct (Hi q x Hx). split; [done|lia]. }
  unfold on_port. destruct (h !! p) as [x|] eqn:Hx; [|done]. destruct (f x) as [x' c] eqn:E. cbn.
  apply map_Forall_insert_2; [|done]. destruct (Hi p x Hx) as [H1 H2]. specialize (Hf x H1 H2). by rewrite E in Hf.
Qed.

Lemma inv_step_sink (k : nat) s h o : k + 1 < 2 ^ 64 → inv k h →
  inv (S k) (match step s h o with inr (h', _) => h' | inl _ => h end).
Proof.
  intros Hk Hi. assert (Hi' : inv (S k) h).
  { intros q x Hx. destruct (Hi q x Hx). split; [done|lia]. }
  destruct o as [nm u|nm u|]; cbn; unfold Subscribe, Unsubscribe, At.
  - destruct (port_map s !! nm) as [p|]; [|done].
    enough (inv (S k) (on_port p (SinkPort.Subscribe u) h).1) by (by destruct (on_port _ _ h)).
    apply (inv_on_port k); [lia| |done]. intros x Hx Hs. split; [apply Port.Subscribe_inv; [done|lia]|].
    cbn. assert (size (Port.subscribers (SinkPort.port x) ∖ {[u]}) ≤ size (Port.subscribers (SinkPort.port x)))%nat
      by (apply subseteq_size; set_solver). rewrite size_union_alt, size_singleton. lia.
  - destruct (port_map s !! nm) as [p|]; [|done].
    enough (inv (S k) (on_port p (SinkPort.Unsubscribe u) h).1) by (by destruct (on_port _ _ h)).
    apply (inv_on_port k); [lia| |done]. intros x Hx Hs. split; [by apply Port.Unsubscribe_inv|].
    cbn. assert (size (Port.subscribers (SinkPort.port x) ∖ {[u]}) ≤ size (Port.subscribers (SinkPort.port x)))%nat
      by (apply subseteq_size; set_solver). lia.
  - unfold UnsubscribeAll. intros q y Hy. assert (is_Some (h !! q)) as [x Hx].
    { apply (alter_all_some SinkPort.UnsubscribeAll (ports s)). rewrite Hy. eauto. }
    destruct (alter_all_stable (λ x, Port.inv (SinkPort.port x) ∧ (size (Port.subscribers (SinkPort.port x)) ≤ S k)%nat)
      SinkPort.UnsubscribeAll (ports s) q h) as (z & Hz & HP).
    + intros z _. split; [apply Port.UnsubscribeAll_inv|]. cbn. rewrite size_empty. lia.
    + exists x. split; [done|]. by apply (Hi' q).
    + congruence.
Qed.

Lemma run_view s os : ∀ h, view (run s h os) = fold_left (view_step s) os (view h).
Proof. induction os as [|o os IH]; intros h; cbn; [done|]. by rewrite IH, step_view. Qed.

Lemma run_inv_sink s os : ∀ (k : nat) h, k + length os < 2 ^ 64 → inv k h → inv (k + length os) (run s h os).
Proof.
  induction os as [|o os IH]; intros k h Hk Hi; cbn in *; [by rewrite Nat.add_0_r|].
  rewrite Nat.add_succ_r. apply (IH (S k)); [lia|]. apply inv_step_sink; [lia|done].
Qed.

Lemma empty_loop_spec ps h k : inv k h →
  empty_loop ps h = true ↔ ∀ p S, p ∈ ps → view h !! p = Some S → S = ∅.
Proof.
  intros Hi. induction ps as [|p ps IH]; cbn; [set_solver|].
  assert (Hp : port_empty h p = true ↔ ∀ S, view h !! p = Some S → S = ∅).
  { unfold port_empty, view. rewrite lookup_fmap. destruct (h !! p) as [x|] eqn:Hx; cbn; [|naive_solver].
    rewrite Port.SubscribersEmpty_spec by (by apply (Hi p)). naive_solver. }
  destruct (port_empty h p); cbn.
  - rewrite IH. split; [|set_solver]. intros H q S [->|Hq]%elem_of_cons; [by apply Hp|by apply H].
  - split; [done|]. intros H. apply Hp. intros S. apply H. left.
Qed.

(** C31: The subscriptions of a sink behave as sets.  Whatever sequence of subscribing and
    unsubscribing calls is made on the ports of a sink that started without subscribers, failed
    calls included: the subscribers of every port are those of the sequence taken on sets;
    [SubscribersEmpty] tells whether they are all gone, by the counters alone; a subscription
    always notifies the kernel, and an unsubscription does exactly when the port had a subscriber. *)
Theorem sink_subscriptions s h os nm p x u :
  map_Forall (λ _ x, SinkPort.port x = Port.make (Port.name (SinkPort.port x)) (Port.data_type (SinkPort.port x))) h →
  length os < 2 ^ 64 → port_map s !! nm = Some p → run s h os !! p = Some x →
  view (run s h os) = fold_left (view_step s) os (view h) ∧
  (SubscribersEmpty s (run s h os) = true ↔
     ∀ q S, q ∈ ports s → view (run s h os) !! q = Some S → S = ∅) ∧
  (∃ h', Subscribe nm u s (run s h os) =
     inr (h', call_if (SinkPort.notifier x) kKERNEL_EVENT_SINK_SUBSCRIPTION)) ∧
  (∃ h', Unsubscribe nm u s (run s h os) =
     inr (h', if decide (Port.subscribers (SinkPort.port x) = ∅) then []
              else call_if (SinkPort.notifier x) kKERNEL_EVENT_SINK_UNSUBSCRIPTION)).
Proof.
  intros Hh Hl Hp Hx. assert (Hi0 : inv 0 h).
  { intros q y Hy. rewrite (Hh q y Hy). split; [apply Port.make_inv_port|]. cbn. by rewrite size_empty. }
  pose proof (run_inv_sink s os 0 h ltac:(lia) Hi0) as Hi.
  split; [apply run_view|]. split; [by eapply empty_loop_spec|].
  unfold Subscribe, Unsubscribe, At, on_port. rewrite Hp, Hx. cbn. split; [by eexists|].
  eexists. do 2 f_equal. destruct (Hi p x Hx) as [Hpi _].
  pose proof (Port.SubscribersEmpty_spec _ Hpi) as He. case_decide as Hd.
  - by rewrite (proj2 He Hd).
  - destruct (Port.SubscribersEmpty (SinkPort.port x)); [|done]. destruct Hd. by apply He.
Qed.

(** A sink with two ports; a user of one leaves, and somebody else does twice. *)
Definition demo : t := mk (Some O) {[ "a" := 1; "b" := 2 ]}.

Definition demo_ports : heap := {[ 1 := SinkPort.make "a" 0 (Some O); 2 := SinkPort.make "b" 0 (Some O) ]}.

Definition demo_ops : list op :=
  [OpSubscribe "a" 10; OpSubscribe "a" 10; OpUnsubscribe "c" 10; OpSubscribe "b" 11; OpUnsubscribe "a" 10].

Lemma sink_subscriptions_witness :
  SubscribersEmpty demo (run demo demo_ports demo_ops) = false ∧
  ∃ x h', run demo demo_ports demo_ops !! 1 = Some x ∧
    Unsubscribe "a" 10 demo (run demo demo_ports demo_ops) = inr (h', []).
Proof.
  split; [vm_compute; reflexivity|].
  destruct (run demo demo_ports demo_ops !! 1) as [x|] eqn:Hx; [|vm_compute in Hx; discriminate Hx].
  destruct (sink_subscriptions demo demo_ports demo_ops "a" 1 x 10) as (_ & _ & _ & [h' Hu]);
    [|vm_compute; reflexivity|reflexivity|exact Hx|].
  - intros q y Hy. unfold demo_ports in Hy. apply lookup_insert_Some in Hy as [[_ <-]|[_ Hy]]; [reflexivity|].
    apply lookup_singleton_Some in Hy as [_ <-]. reflexivity.
  - exists x, h'. split; [reflexivity|]. rewrite Hu. vm_compute in Hx. injection Hx as <-. reflexivity.
Defined.

End Sink.

(** ** PortController *)
Module PortController.

(** The ports used, shared pointers in the order they were added. *)
Record t := mk { ports_used_ : list Z }.

Definition AddUsedPort (p : Z) (c : t) : t := mk (ports_used_ c ++ [p]).

Fixpoint call_ports (f : SinkPort.t → SinkPort.t * list notify_call) (ps : list Z) (h : Sink.heap)
  : Sink.heap * list notify_call :=
  match ps with
  | [] => (h, [])
  | p :: ps' =>
      let '(h1, k1) := Sink.on_port p f h in
      let '(h2, k2) := call_ports f ps' h1 in (h2, k1 ++ k2)
  end.

Definition Subscribe (user : Z) (c : t) (h : Sink.heap) := call_ports (SinkPort.Subscribe user) (ports_used_ c) h.

Definition Unsubscribe (user : Z) (c : t) (h : Sink.heap) := call_ports (SinkPort.Unsubscribe user) (ports_used_ c) h.

Lemma call_ports_view f g ps : ∀ h,
  (∀ x, Port.subscribers (SinkPort.port (f x).1) = g (Port.subscribers (SinkPort.port x))) →
  Sink.view (call_ports f ps h).1 = alter_all g ps (Sink.view h).
Proof.
  induction ps as [|p ps IH]; intros h Hf; [done|].
  pose proof (Sink.on_port_view p f g h Hf) as Hv. cbn [call_ports alter_all].
  destruct (Sink.on_port p f h) as [h1 k1]. cbn [fst] in Hv. rewrite <- Hv, <- (IH h1 Hf).
  by destruct (call_ports f ps h1).
Qed.

(** Subscribing and then unsubscribing through a controller takes the user off all its ports. *)
Lemma controller_unsubscribes user c h p S :
  p ∈ ports_used_ c → Sink.view (Unsubscribe user c (Subscribe user c h).1).1 !! p = Some S → user ∉ S.
Proof.
  intros Hp. unfold Unsubscribe. rewrite (call_ports_view _ (λ S, S ∖ {[user]})) by done. intros HS.
  set (v := Sink.view (Subscribe user c h).1) in *.
  assert (is_Some (v !! p)) as Hv by (apply (alter_all_some (λ S, S ∖ {[user]}) (ports_used_ c)); rewrite HS; eauto).
  destruct (alter_all_this (λ S, user ∉ S) (λ S, S ∖ {[user]}) (ports_used_ c) p v)
    as (S' & E & HS'); [set_solver|done..|]. congruence.
Qed.

End PortController.
