(* ===== verification/ResourcePool.v ===== *)
(** * Resource pools (include/ar/resource_pool.hpp, src/resource_pool.cpp)

    and the arithmetic of [Allocator] (include/ar/allocators.hpp) and [flat_buffer]
    (include/ar/flat_buffer.hpp), which allocate from a pool.  [boost::pool] is an interface: it
    hands out runs of chunks of a fixed size.  Every operation holds the mutex of the pool. *)
From Stdlib Require Import SpecFloat.
From S2P Require Import Prelude.
From S2P Require Import CpuHelper.

(** [ceil], for the floats that are not negative here. *)
Definition float_ceil (f : spec_float) : option Z :=
  match f with
  | S754_zero _ => Some 0
  | S754_finite false m e => Some (if 0 <=? e then Zpos m * 2 ^ e else - ((- Zpos m) `div` 2 ^ (- e)))
  | _ => None
  end.

(** [get_chunks_count]; [None] when the value does not fit [int]. *)
Definition get_chunks_count (size chunk_size : Z) : option Z :=
  z ← float_ceil (fdiv (float_of_Z size) (float_of_Z chunk_size));
  if z <? 2 ^ 31 then Some z else None.

(** The chunks of a run of [n] from [a]. *)
Definition chunks (a n c : Z) : gset Z := list_to_set ((λ i, a + i * c) <$> seqZ 0 n).

Lemma chunks_spec a n c x : x ∈ chunks a n c ↔ ∃ i, 0 <= i < n ∧ x = a + i * c.
Proof.
  unfold chunks. rewrite elem_of_list_to_set, list_elem_of_fmap. setoid_rewrite elem_of_seqZ.
  split; intros (i & Hi); exists i; naive_solver lia.
Qed.

(** [boost::pool] with a chunk size that is a positive multiple of the size of a pointer, for
    which its partitions are the chunks. *)
Class BoostPool (P : Type) := {
  pool_make : Z → P;
  ordered_malloc : Z → P → option (Z * P);     (* None: the null pointer *)
  ordered_free : Z → Z → P → P;
  pool_free : Z → P → P
}.

Class BoostPoolLaws (P : Type) `{BoostPool P} := {
  pool_ok : P → Prop;
  in_use : P → gset Z;                         (* the chunks handed out *)
  pool_chunk : P → Z;
  pool_make_spec c : 0 < c → pool_ok (pool_make c) ∧ in_use (pool_make c) = ∅ ∧ pool_chunk (pool_make c) = c;
  pool_grid p x y : pool_ok p → x ∈ in_use p → y ∈ in_use p → x ≠ y → pool_chunk p <= Z.abs (x - y);
  ordered_malloc_zero p : ordered_malloc 0 p = None;
  ordered_malloc_nonnull p n a p' : pool_ok p → ordered_malloc n p = Some (a, p') → a ≠ 0;
  ordered_malloc_spec p n a p' : pool_ok p → 0 < n → ordered_malloc n p = Some (a, p') →
    pool_ok p' ∧ pool_chunk p' = pool_chunk p ∧
    chunks a n (pool_chunk p) ## in_use p ∧ in_use p' = chunks a n (pool_chunk p) ∪ in_use p;
  ordered_free_spec p n a : pool_ok p → chunks a n (pool_chunk p) ⊆ in_use p →
    pool_ok (ordered_free a n p) ∧ pool_chunk (ordered_free a n p) = pool_chunk p ∧
    in_use (ordered_free a n p) = in_use p ∖ chunks a n (pool_chunk p);
  pool_free_spec p a : pool_ok p → a ∈ in_use p →
    pool_ok (pool_free a p) ∧ pool_chunk (pool_free a p) = pool_chunk p ∧ in_use (pool_free a p) = in_use p ∖ {[a]}
}.

Module ResourcePool.
Section pool.
Context {P : Type} `{BoostPoolLaws P}.

Record t := mk { chunk_size : Z; pool : P }.

Definition make (chunk_sz : Z) : t := mk chunk_sz (pool_make chunk_sz).

(** How a call ends: [BadAlloc] is thrown; [Undefined] is the overflow of [int]. *)
Inductive result (A : Type) := Ok (a : A) | BadAlloc | Undefined.
#[global] Arguments Ok {A} a.
#[global] Arguments BadAlloc {A}.
#[global] Arguments Undefined {A}.

Definition allocate (size : Z) (r : t) : result (Z * t) :=
  match get_chunks_count size (chunk_size r) with
  | Some n =>
      match ordered_malloc n (pool r) with
      | Some (ptr, p) => Ok (ptr, mk (chunk_size r) p)
      | None => BadAlloc
      end
  | None => Undefined
  end.

Definition deallocate (ptr size : Z) (r : t) : result t :=
  match get_chunks_count size (chunk_size r) with
  | Some n => Ok (mk (chunk_size r) (ordered_free ptr n (pool r)))
  | None => Undefined
  end.

(** [deallocate(ptr)] frees one chunk. *)
Definition deallocate_one (ptr : Z) (r : t) : t := mk (chunk_size r) (pool_free ptr (pool r)).

(** [Allocator<T>::allocate(n)] and [deallocate(p, n)], [sz] the size of [T]. *)
Definition Allocator_allocate (sz n : Z) (r : t) : result (Z * t) := allocate (u64 (n * sz)) r.

Definition Allocator_deallocate (sz p n : Z) (r : t) : result t := deallocate p (u64 (n * sz)) r.

Definition max_size (sz : Z) : Z := (2 ^ 64 - 1) `div` sz.

(** [flat_buffer(resource, size)]: the allocator multiplies by [sizeof(T)] once more. *)
Record flat_buffer := mkBuffer { begin_ : Z; size_ : Z }.

Definition flat_buffer_make (sz size : Z) (r : t) : result (flat_buffer * t) :=
  match Allocator_allocate sz (u64 (size * sz)) r with
  | Ok (b, r') => Ok (mkBuffer b size, r')
  | BadAlloc => BadAlloc
  | Undefined => Undefined
  end.

Definition flat_buffer_free (sz : Z) (b : flat_buffer) (r : t) : result (flat_buffer * t) :=
  if size_ b =? 0 then Ok (b, r)
  else match Allocator_deallocate sz (begin_ b) (u64 (size_ b * sz)) r with
       | Ok r' => Ok (mkBuffer (begin_ b) 0, r')
       | BadAlloc => BadAlloc
       | Undefined => Undefined
       end.

(** ** Clients of one pool *)
Inductive op := Allocate (size : Z) | Deallocate (i : nat).

(** The pool and the live allocations of its clients, address and size; a client gives back
    what it got. *)
Definition step (s : t * list (Z * Z)) (o : op) : result (t * list (Z * Z)) :=
  match o with
  | Allocate size =>
      match allocate size s.1 with
      | Ok (a, r) => Ok (r, s.2 ++ [(a, size)])
      | BadAlloc => BadAlloc
      | Undefined => Undefined
      end
  | Deallocate i =>
      match s.2 !! i with
      | Some (a, size) =>
          match deallocate a size s.1 with
          | Ok r => Ok (r, delete i s.2)
          | BadAlloc => BadAlloc
          | Undefined => Undefined
          end
      | None => Ok s
      end
  end.

Fixpoint run (s : t * list (Z * Z)) (os : list op) : result (t * list (Z * Z)) :=
  match os with
  | [] => Ok s
  | o :: os' =>
      match step s o with
      | Ok s' => run s' os'
      | BadAlloc => BadAlloc
      | Undefined => Undefined
      end
  end.

(** The default chunk size. *)
Definition default_chunk : Z := 128.

Definition count (size : Z) : Z := (size + 127) `div` 128.

(** The sizes the theorem is for: those whose number of chunks is not rounded by the float. *)
Definition served (size : Z) : Prop := 0 < size ∧ get_chunks_count size default_chunk = Some (count size).

Definition small (o : op) : Prop := match o with Allocate size => served size | Deallocate _ => True end.

(** Up to 4 KiB the float division is exact: the count is the quotient rounded up. *)
Lemma chunks_count_exact size : 0 < size <= 4096 →
  get_chunks_count size default_chunk = Some ((size + 127) `div` 128).
Proof.
  intros Hs.
  assert (X : forallb (λ z, bool_decide (get_chunks_count z default_chunk = Some ((z + 127) `div` 128))) (seqZ 0 4097) = true)
    by (vm_compute; reflexivity).
  apply (range_enum 4097 (λ z, bool_decide (get_chunks_count z default_chunk = Some ((z + 127) `div` 128)))) with (x := size) in X;
    [|lia]. by apply bool_decide_eq_true in X.
Qed.

Lemma served_small size : 0 < size <= 4096 → served size.
Proof. intros Hs. split; [lia|]. by apply chunks_count_exact. Qed.

Lemma count_fits size : 0 < size → 0 < count size ∧ size <= count size * default_chunk.
Proof.
  intros Hs. unfold count, default_chunk. pose proof (Z.div_mod (size + 127) 128).
  pose proof (Z.mod_pos_bound (size + 127) 128). lia.
Qed.

(** The chunks of the live allocations are apart, and are those in use. *)
Record inv (s : t * list (Z * Z)) : Prop := {
  inv_pool : pool_ok (pool s.1) ∧ pool_chunk (pool s.1) = default_chunk ∧ chunk_size s.1 = default_chunk;
  inv_sizes : Forall (λ b, served b.2) s.2;
  inv_use : ∀ x, x ∈ in_use (pool s.1) ↔ ∃ i b, s.2 !! i = Some b ∧ x ∈ chunks b.1 (count b.2) default_chunk;
  inv_apart : ∀ i j b c, s.2 !! i = Some b → s.2 !! j = Some c → i ≠ j →
    chunks b.1 (count b.2) default_chunk ## chunks c.1 (count c.2) default_chunk
}.

Lemma inv_make_pool : inv (make default_chunk, []).
Proof.
  destruct (pool_make_spec default_chunk) as (Ho & Hu & Hc); [done|].
  split; cbn; [done|constructor| |]; [|by intros i j b c]. intros x. rewrite Hu. split; [set_solver|by intros (i & b & ? & _)].
Qed.

Lemma inv_allocate r l size a r' : inv (r, l) → served size → allocate size r = Ok (a, r') → inv (r', l ++ [(a, size)]).
Proof.
  intros [(Hok & Hc & Hcs) Hsz Hu Hap] Hs E. cbn in *. unfold allocate in E.
  destruct (Hs) as [Hs0 Hcnt]. rewrite Hcs, Hcnt in E.
  destruct (ordered_malloc _ (pool r)) as [[a' p]|] eqn:Em; [|done]. injection E as <- <-.
  destruct (count_fits size) as [Hpos _]; [lia|].
  destruct (ordered_malloc_spec _ _ _ _ Hok Hpos Em) as (Hok' & Hc' & Hd & Hu'). rewrite Hc in Hd, Hu'.
  assert (Hnew : ∀ i b, l !! i = Some b → chunks b.1 (count b.2) default_chunk ## chunks a' (count size) default_chunk).
  { intros i b Hb x Hx1 Hx2. apply (Hd x Hx2), Hu. eauto. }
  split; cbn.
  - by rewrite Hc'.
  - apply Forall_app. split; [done|]. by apply Forall_singleton.
  - intros x. rewrite Hu', elem_of_union, Hu. split.
    + intros [Hx|(i & b & Hi & Hx)].
      * exists (length l), (a', size). split; [by apply list_lookup_middle|done].
      * exists i, b. split; [by apply lookup_app_l_Some|done].
    + intros (i & b & Hi & Hx). apply lookup_snoc_Some in Hi as [[_ Hi]|[_ <-]]; [right; eauto|by left].
  - intros i j b c Hi Hj Hne. apply lookup_snoc_Some in Hi as [[_ Hi]|[Ei <-]], Hj as [[_ Hj]|[Ej <-]]; cbn.
    + by eapply (Hap i j).
    + by eapply Hnew.
    + symmetry. by eapply Hnew.
    + congruence.
Qed.

Lemma inv_deallocate r l i a size r' : inv (r, l) → l !! i = Some (a, size) →
  deallocate a size r = Ok r' → inv (r', delete i l).
Proof.
  intros [(Hok & Hc & Hcs) Hsz Hu Hap] Hi E. cbn in *. pose proof (Forall_lookup_1 _ _ _ _ Hsz Hi) as Hs. cbn in Hs.
  unfold deallocate in E. rewrite Hcs, (proj2 Hs) in E. injection E as <-.
  destruct (ordered_free_spec (pool r) (count size) a Hok) as (Hok' & Hc' & Hu').
  { rewrite Hc. intros x Hx. apply Hu. exists i, (a, size). done. }
  rewrite Hc in Hu'.
  (* an index of the shorter list is another index of the longer one *)
  assert (Hdel : ∀ k b, delete i l !! k = Some b → ∃ k', k' ≠ i ∧ l !! k' = Some b ∧ k = (if decide (k' < i)%nat then k' else Nat.pred k')).
  { intros k b Hk. destruct (decide (k < i)%nat) as [Hlt|Hge].
    - rewrite list_lookup_delete_lt in Hk by done. exists k. rewrite decide_True by lia. split; [lia|done].
    - rewrite list_lookup_delete_ge in Hk by lia. exists (S k). rewrite decide_False by lia. split; [lia|done]. }
  assert (Hdel' : ∀ k b, k ≠ i → l !! k = Some b → ∃ k', delete i l !! k' = Some b).
  { intros k b Hne Hk. destruct (decide (k < i)%nat).
    - exists k. by rewrite list_lookup_delete_lt.
    - exists (Nat.pred k). rewrite list_lookup_delete_ge by lia. by replace (S (Nat.pred k)) with k by lia. }
  split; cbn.
  - by rewrite Hc'.
  - by apply Forall_delete.
  - intros x. rewrite Hu', elem_of_difference, Hu. split.
    + intros [(k & b & Hk & Hx) Hnx]. destruct (decide (k = i)) as [->|Hne]; [by simplify_eq|].
      destruct (Hdel' k b Hne Hk) as [k' Hk']. eauto.
    + intros (k & b & Hk & Hx). destruct (Hdel k b Hk) as (k' & Hne & Hk' & _). split; [eauto|].
      intros Hx'. by apply (Hap k' i b (a, size) Hk' Hi Hne x).
  - intros k1 k2 b c Hk1 Hk2 Hne. destruct (Hdel k1 b Hk1) as (k1' & Hn1 & Hl1 & E1), (Hdel k2 c Hk2) as (k2' & Hn2 & Hl2 & E2).
    apply (Hap k1' k2'); [done|done|]. intros ->. congruence.
Qed.

Lemma inv_run_pool os : ∀ s s', inv s → Forall small os → run s os = Ok s' → inv s'.
Proof.
  induction os as [|o os IH]; intros [r l] s' Hi Hs E; cbn [run] in E; [by injection E as <-|].
  apply Forall_cons in Hs as [Ho Hs].
  assert (Hst : ∀ s1, step (r, l) o = Ok s1 → inv s1).
  { destruct o as [size|i]; cbn; intros s1 E1.
    - destruct (allocate size r) as [[a r']| |] eqn:Ea; try done. injection E1 as <-. by eapply inv_allocate.
    - destruct (l !! i) as [[a size]|] eqn:Hl; [|by injection E1 as <-].
      destruct (deallocate a size r) as [r'| |] eqn:Ed; try done. injection E1 as <-. by eapply inv_deallocate. }
  destruct (step (r, l) o) as [s1| |] eqn:E1; try done. by eapply (IH s1); [apply Hst| |].
Qed.

(** The byte ranges of live allocations do not overlap. *)
Lemma inv_disjoint r l i j a b x : inv (r, l) → l !! i = Some a → l !! j = Some b → i ≠ j →
  ¬ (a.1 <= x < a.1 + a.2 ∧ b.1 <= x < b.1 + b.2).
Proof.
  intros [(Hok & Hc & _) Hsz Hu Hap] Hi Hj Hne [Hxa Hxb]. destruct a as [a sa], b as [b sb]. cbn in *.
  destruct (count_fits sa (proj1 (Forall_lookup_1 _ _ _ _ Hsz Hi))) as [_ Hfa].
  destruct (count_fits sb (proj1 (Forall_lookup_1 _ _ _ _ Hsz Hj))) as [_ Hfb].
  (* the chunk a byte is in *)
  assert (Hin : ∀ p s, p <= x < p + s → s <= count s * default_chunk →
    ∃ q, q ∈ chunks p (count s) default_chunk ∧ q <= x < q + default_chunk).
  { intros p s Hx Hf. exists (p + (x - p) `div` default_chunk * default_chunk).
    pose proof (Z.div_mod (x - p) default_chunk ltac:(done)).
    pose proof (Z.mod_pos_bound (x - p) default_chunk ltac:(done)).
    split; [|unfold default_chunk in *; lia]. apply chunks_spec. exists ((x - p) `div` default_chunk).
    split; [|done]. unfold default_chunk in *. lia. }
  destruct (Hin a sa Hxa Hfa) as (q1 & Hq1 & Hx1), (Hin b sb Hxb Hfb) as (q2 & Hq2 & Hx2).
  destruct (decide (q1 = q2)) as [->|Hq]; [by apply (Hap i j _ _ Hi Hj Hne q2)|].
  assert (default_chunk <= Z.abs (q1 - q2)); [|unfold default_chunk in *; lia].
  rewrite <- Hc. apply pool_grid; [done| | |done]; apply Hu; [exists i, (a, sa)|exists j, (b, sb)]; done.
Qed.

(** Without live allocations no chunk is in use. *)
Lemma inv_empty r : inv (r, []) → in_use (pool r) = ∅.
Proof.
  intros [_ _ Hu _]. apply leibniz_equiv. intros x. rewrite Hu. split; [by intros (i & b & ? & _)|set_solver].
Qed.

(** A pool with the default chunks of 128 bytes serves its clients.  After any sequence of
    allocations of served sizes (all from 1 to 4096 bytes are) and of deallocations that give back
    what was allocated, the byte ranges of the live allocations do not overlap, and when every
    allocation has been given back no chunk of the pool is in use. *)
Theorem resource_pool_disjoint os r l :
  Forall small os → run (make default_chunk, []) os = Ok (r, l) →
  (∀ i j a b x, l !! i = Some a → l !! j = Some b → i ≠ j →
     ¬ (a.1 <= x < a.1 + a.2 ∧ b.1 <= x < b.1 + b.2)) ∧
  (l = [] → in_use (pool r) = ∅).
Proof.
  intros Hs E. pose proof (inv_run_pool os _ _ inv_make_pool Hs E) as Hi. split.
  - intros i j a b x. by apply (inv_disjoint r).
  - intros ->. by apply inv_empty.
Qed.
End pool.
#[global] Arguments t : clear implicits.
End ResourcePool.

(** ** A pool that never reuses a chunk *)
Module BumpPool.

Record t := mk { chunk : Z; next : Z; used : gset Z }.

#[global] Instance bump_pool : BoostPool t := {|
  pool_make c := mk c c ∅;
  ordered_malloc n p :=
    if 0 <? n then Some (next p, mk (chunk p) (next p + n * chunk p) (chunks (next p) n (chunk p) ∪ used p)) else None;
  ordered_free a n p := mk (chunk p) (next p) (used p ∖ chunks a n (chunk p));
  pool_free a p := mk (chunk p) (next p) (used p ∖ {[a]})
|}.

(** The chunks are multiples of the chunk size, below the next one. *)
Definition ok (p : t) : Prop :=
  0 < chunk p ∧ (∃ k, 0 < k ∧ next p = k * chunk p) ∧ ∀ x, x ∈ used p → x < next p ∧ ∃ k, x = k * chunk p.

#[global] Instance bump_pool_laws : BoostPoolLaws t.
Proof.
  refine {| pool_ok := ok; in_use := used; pool_chunk := chunk |}.
  - intros c Hc. split; [|done]. split; [done|]. split; [exists 1; cbn; lia|]. set_solver.
  - intros p x y (Hc & _ & Hu) Hx Hy Hne. destruct (Hu x Hx) as (_ & k & ->), (Hu y Hy) as (_ & j & ->).
    assert (k ≠ j) by (by intros ->). nia.
  - done.
  - intros p n a p' (Hc & (k & Hk0 & Hk) & _). cbn. ztest; [|done]. intros [= <- _]. nia.
  - intros p n a p' (Hc & (k & Hk0 & Hk) & Hu) Hn. cbn. ztest; [|lia]. intros [= <- <-]. cbn. split; [|split; [done|]].
    + split; [done|]. split; [exists (k + n); cbn; rewrite Hk; split; lia|]. intros x [(i & Hi & ->)%chunks_spec|Hx]%elem_of_union.
      * cbn; split; [nia|]. exists (k + i). cbn; rewrite Hk; lia.
      * destruct (Hu x Hx). cbn; split; [nia|done].
    + split; [|done]. intros x (i & Hi & ->)%chunks_spec Hx. destruct (Hu _ Hx). nia.
  - intros p n a (Hc & Hk & Hu) Hs. split; [|done]. split; [done|]. split; [done|]. cbn. set_solver.
  - intros p a (Hc & Hk & Hu) Hs. split; [|done]. split; [done|]. split; [done|]. cbn. set_solver.
Defined.

End BumpPool.

Definition demo_pool_ops : list ResourcePool.op :=
  [ResourcePool.Allocate 100; ResourcePool.Allocate 4096; ResourcePool.Allocate 1; ResourcePool.Deallocate 1].

Lemma resource_pool_disjoint_witness :
  ∃ (r : ResourcePool.t BumpPool.t) l,
    ResourcePool.run (ResourcePool.make ResourcePool.default_chunk, []) demo_pool_ops = ResourcePool.Ok (r, l) ∧
    l = [(128, 100); (4352, 1)] ∧
    ∀ x, ¬ (128 <= x < 128 + 100 ∧ 4352 <= x < 4352 + 1).
Proof.
  destruct (ResourcePool.run (ResourcePool.make (P := BumpPool.t) ResourcePool.default_chunk, []) demo_pool_ops)
    as [[r l]| |] eqn:E; [|vm_compute in E; discriminate E..].
  assert (Hl : l = [(128, 100); (4352, 1)]) by (vm_compute in E; injection E as _ <-; reflexivity).
  exists r, l. split; [reflexivity|]. split; [exact Hl|]. intros x.
  destruct (ResourcePool.resource_pool_disjoint demo_pool_ops r l) as [Hd _].
  - repeat (constructor; [first [exact I|apply ResourcePool.served_small; lia]|]). constructor.
  - exact E.
  - subst l. apply (Hd 0%nat 1%nat (128, 100) (4352, 1) x); [reflexivity|reflexivity|discriminate].
Defined.

(** One byte above 16 MiB the float rounds down, and the run of chunks is one byte short. *)
Example get_chunks_count_too_few :
  get_chunks_count 16777217 128 = Some 131072 ∧ 131072 * 128 < 16777217.
Proof. split; vm_compute; reflexivity. Qed.

(** An allocation of no bytes asks for no chunk, and throws. *)
Lemma allocate_zero_throws {P} `{BoostPoolLaws P} (r : ResourcePool.t P) :
  ResourcePool.chunk_size r = 128 → ResourcePool.allocate 0 r = ResourcePool.BadAlloc.
Proof.
  intros Hc. unfold ResourcePool.allocate. rewrite Hc.
  assert (E : get_chunks_count 0 128 = Some 0) by (vm_compute; reflexivity). rewrite E.
  by rewrite (ordered_malloc_zero (ResourcePool.pool r)).
Qed.

(** ** resource_pools_manager *)
Module PoolsManager.

(** Pointers to the pools; [objects] are the pools that exist, [double_delete] is set when one
    is deleted that does not. *)
Record t := mk { pools : list Z; default_pool : Z; objects : gset Z; double_delete : bool }.

(** [new resource_pool] at [p] and its entry. *)
Definition create_resource (p : Z) (m : t) : t :=
  mk (pools m ++ [p]) (default_pool m) ({[p]} ∪ objects m) (double_delete m).

(** [create_default_resource], from the constructor. *)
Definition make (p : Z) : t := mk [p] p {[p]} false.

(** [delete p]. *)
Definition delete_object (p : Z) (m : t) : t :=
  mk (pools m) (default_pool m) (objects m ∖ {[p]}) (double_delete m || bool_decide (p ∉ objects m)).

(** [pools.erase(it)] for the first [p]. *)
Fixpoint erase_first (p : Z) (l : list Z) : list Z :=
  match l with
  | [] => []
  | q :: l' => if decide (q = p) then l' else q :: erase_first p l'
  end.

Definition delete_resource (p : Z) (m : t) : t :=
  if decide (p ∈ pools m) then
    let m' := delete_object p m in mk (erase_first p (pools m')) (default_pool m') (objects m') (double_delete m')
  else m.

(** The destructor deletes every pool of the list. *)
Fixpoint delete_all (ps : list Z) (m : t) : t :=
  match ps with [] => m | p :: ps' => delete_all ps' (delete_object p m) end.

Definition destroy (m : t) : t := delete_all (pools m) m.

Inductive op := Create (p : Z) | Delete (p : Z).

Definition step (m : t) (o : op) : option t :=
  match o with
  | Create p => if decide (p ∈ objects m) then None else Some (create_resource p m)   (* new gives a free address *)
  | Delete p => Some (delete_resource p m)
  end.

Fixpoint run (m : t) (os : list op) : option t :=
  match os with [] => Some m | o :: os' => m' ← step m o; run m' os' end.

Definition inv (m : t) : Prop := NoDup (pools m) ∧ (∀ p, p ∈ objects m ↔ p ∈ pools m) ∧ double_delete m = false.

Lemma erase_first_spec p l : NoDup l → NoDup (erase_first p l) ∧ ∀ q, q ∈ erase_first p l ↔ q ∈ l ∧ q ≠ p.
Proof.
  induction l as [|r l IH]; cbn; intros Hnd; [set_solver|].
  apply NoDup_cons in Hnd as [Hr Hnd]. destruct (IH Hnd) as [Hn Hq]. case_decide as Hd.
  - subst. split; [done|]. set_solver.
  - split; [apply NoDup_cons; split; [|done]; rewrite Hq; tauto|]. intros q. rewrite !elem_of_cons, Hq. naive_solver.
Qed.

Lemma manager_inv_step m o m' : inv m → step m o = Some m' → inv m'.
Proof.
  intros (Hnd & Ho & Hd) E. destruct o as [p|p]; cbn in E.
  - case_decide as Hp; simplify_eq. split; [|split; [|done]]; cbn.
    + apply NoDup_app. split; [done|]. split; [|by apply NoDup_singleton].
      intros q Hq ->%list_elem_of_singleton. by apply Hp, Ho.
    + intros q. rewrite elem_of_union, Ho, elem_of_app. set_solver.
  - simplify_eq. unfold delete_resource. case_decide as Hp; [|done]. destruct (erase_first_spec p (pools m) Hnd) as [Hn Hq].
    split; [done|]. cbn. split; [|by rewrite Hd, bool_decide_eq_false_2 by (by rewrite Ho; intros X)].
    intros q. rewrite Hq, elem_of_difference, Ho. set_solver.
Qed.

Lemma delete_all_spec ps : ∀ m, NoDup ps → (∀ p, p ∈ ps → p ∈ objects m) → double_delete m = false →
  double_delete (delete_all ps m) = false ∧ ∀ p, p ∈ objects (delete_all ps m) ↔ p ∈ objects m ∧ p ∉ ps.
Proof.
  induction ps as [|q ps IH]; intros m Hnd Hin Hd; cbn; [set_solver|].
  apply NoDup_cons in Hnd as [Hq Hnd]. destruct (IH (delete_object q m) Hnd) as [Hd' Ho'].
  - intros p Hp. cbn. apply elem_of_difference. split; [set_solver|]. intros ->%elem_of_singleton. done.
  - cbn. rewrite Hd, bool_decide_eq_false_2; [done|]. intros X. apply X, Hin. left.
  - split; [done|]. intros p. rewrite Ho'. cbn. set_solver.
Qed.

(** Every pool is deleted once: whatever pools are created and deleted, also when one is
    deleted again or was never created, and when the manager goes nothing is left. *)
Lemma manager_deletes_once p os m : run (make p) os = Some m →
  double_delete (destroy m) = false ∧ objects (destroy m) = ∅.
Proof.
  intros E. assert (Hi : inv m).
  { assert (Hi0 : inv (make p)) by (split; [apply NoDup_singleton|split; [cbn; set_solver|done]]).
    revert E Hi0. generalize (make p). induction os as [|o os IH]; intros m0 E Hi0; cbn in E; [by simplify_eq|].
    destruct (step m0 o) as [m1|] eqn:E1; cbn in E; [|done]. eapply IH; [done|]. by eapply manager_inv_step. }
  destruct Hi as (Hnd & Ho & Hd). destruct (delete_all_spec (pools m) m Hnd) as [Hd' Ho']; [intros q; apply Ho|done|].
  split; [done|]. apply leibniz_equiv. intros q. unfold destroy. rewrite Ho', Ho. set_solver.
Qed.

End PoolsManager.
