(* ===== verification/Process.v ===== *)
(** * The process: global runtimes and the pools they own

    [Runtime::g_runtime] and the free functions that go to it (include/ar/runtime.hpp,
    src/runtime.cpp, src/resource_pool.cpp), with the owner of a pool,
    [ResourcePoolPtr], whose deleter goes to the global runtime as well
    (include/ar/resource_pool.hpp).  A program and the libraries it loads each have a copy of
    [g_runtime]: [images].  [None] is undefined behaviour, or an exception of [Setup]. *)
From S2P Require Import Prelude.
From S2P Require Import WorkGroup.
From S2P Require Import Executor.
From S2P Require Import CpuHelper.
From S2P Require Import Runtime.
From S2P Require Import ResourcePool.

Module Process.

(** An object of class [Runtime]. *)
Record runtime := mkRuntime { core : Runtime.t; resources_manager : PoolsManager.t }.

(** A [ResourcePoolPtr]: the code that destroys it is in an image.  [h_runtime] is the runtime
    the pool is from; the code does not keep it. *)
Record holder := mkHolder { h_image : nat; h_pool : Z; h_runtime : nat }.

#[global] Instance holder_eq : EqDecision holder.
Proof. solve_decision. Defined.

Record t := mk {
  images : gmap nat nat;          (* g_runtime of an image; absent: the null pointer *)
  heap : gmap nat runtime;        (* the runtimes that exist *)
  next : nat;
  holders : list holder;
  double_delete : bool
}.

Definition start : t := mk ∅ ∅ 0 [] false.

(** [Runtime::g_runtime->...]. *)
Definition g_runtime (i : nat) (s : t) : option (nat * runtime) :=
  a ← images s !! i; r ← heap s !! a; Some (a, r).

(** A call that only reads the runtime, and one that changes it. *)
Definition ask {A : Type} (i : nat) (f : runtime → option A) (s : t) : option A := r ← g_runtime i s; f r.2.

Definition set_runtime (a : nat) (r : runtime) (s : t) : t :=
  mk (images s) (<[a := r]> (heap s)) (next s) (holders s) (double_delete s).

Definition tell (i : nat) (f : runtime → option runtime) (s : t) : option t :=
  '(a, r) ← g_runtime i s; r' ← f r; Some (set_runtime a r' s).

(** ** Pools *)
(** No pool that exists is at [p]. *)
Definition unused (p : Z) (s : t) : Prop := map_Forall (λ _ r, p ∉ PoolsManager.objects (resources_manager r)) (heap s).

#[global] Instance unused_dec p s : Decision (unused p s).
Proof. unfold unused. apply _. Defined.

(** [Runtime::CreateResource], [new] giving the address [p]; [Runtime::DeleteResource];
    [Runtime::GetDefaultResource]. *)
Definition CreateResource (p : Z) (r : runtime) : runtime :=
  mkRuntime (core r) (PoolsManager.create_resource p (resources_manager r)).

Definition DeleteResource (p : Z) (r : runtime) : runtime :=
  mkRuntime (core r) (PoolsManager.delete_resource p (resources_manager r)).

Definition GetDefaultResource (r : runtime) : Z := PoolsManager.default_pool (resources_manager r).

(** The free functions. *)
Definition global_CreateResource (i : nat) (p : Z) (s : t) : option t :=
  '(a, r) ← g_runtime i s;
  if decide (unused p s) then
    Some (mk (images s) (<[a := CreateResource p r]> (heap s)) (next s) (mkHolder i p a :: holders s) (double_delete s))
  else None.

Definition global_DeleteResource (i : nat) (p : Z) : t → option t := tell i (λ r, Some (DeleteResource p r)).

Definition global_GetDefaultResource (i : nat) : t → option Z := ask i (λ r, Some (GetDefaultResource r)).

(** [resource_pool_deleter]: the end of the [n]-th owner. *)
Definition drop (n : nat) (s : t) : option t :=
  h ← holders s !! n;
  global_DeleteResource (h_image h) (h_pool h)
    (mk (images s) (heap s) (next s) (delete n (holders s)) (double_delete s)).

(** ** Runtimes *)
Section setup.
Context (hw : nat) (io_hash : Z).

(** [SetupRuntime(options)]: a new runtime, whose default pool is at [p], replaces the pointer. *)
Definition SetupRuntime (i : nat) (os : list WorkGroupOption) (virtual_nodes : nat) (p : Z) (s : t) : option t :=
  if decide (unused p s) then
    r ← Runtime.Setup hw io_hash os virtual_nodes Runtime.make;
    Some (mk (<[i := next s]> (images s)) (<[next s := mkRuntime r (PoolsManager.make p)]> (heap s)) (S (next s))
            (holders s) (double_delete s))
  else None.

(** [SetupRuntime(other)] with the runtime of image [j]: a member of the runtime that is there is
    called, which assigns the pointer. *)
Definition SetupRuntimeOther (i j : nat) (s : t) : option t :=
  _ ← g_runtime i s;
  b ← images s !! j;
  Some (mk (<[i := b]> (images s)) (heap s) (next s) (holders s) (double_delete s)).

(** [~Runtime]: [Terminate], then the members, with the pools. *)
Definition destroy_runtime (r : runtime) : PoolsManager.t := PoolsManager.destroy (resources_manager r).

(** [Terminate()]. *)
Definition Terminate (i : nat) (s : t) : option t :=
  match images s !! i with
  | None => Some s
  | Some _ =>
      '(a, r) ← g_runtime i s;
      Some (mk (delete i (images s)) (delete a (heap s)) (next s) (holders s)
              (double_delete s || PoolsManager.double_delete (destroy_runtime r)))
  end.

Inductive op :=
| OSetup (i : nat) (os : list WorkGroupOption) (virtual_nodes : nat) (p : Z)
| OShare (i j : nat)
| OTerminate (i : nat)
| OCreate (i : nat) (p : Z)
| ODelete (i : nat) (p : Z)
| ODrop (n : nat).

Definition step (s : t) (o : op) : option t :=
  match o with
  | OSetup i os v p => SetupRuntime i os v p s
  | OShare i j => SetupRuntimeOther i j s
  | OTerminate i => Terminate i s
  | OCreate i p => global_CreateResource i p s
  | ODelete i p => global_DeleteResource i p s
  | ODrop n => drop n s
  end.

Fixpoint run (s : t) (os : list op) : option t :=
  match os with [] => Some s | o :: os' => s' ← step s o; run s' os' end.
End setup.

(** ** The other free functions of runtime.hpp *)
Definition on_core {A : Type} (i : nat) (f : Runtime.t → A) : t → option A := ask i (λ r, Some (f (core r))).

Definition in_core (i : nat) (f : Runtime.t → option Runtime.t) : t → option t :=
  tell i (λ r, c ← f (core r); Some (mkRuntime c (resources_manager r))).

Definition global_GetWorkGroup (i : nat) (name : string) : t → option Z := on_core i (Runtime.GetWorkGroup name).

Definition global_CreateExecutor (i : nat) (hash : Z) (name : string) (ty : ExecutorType) : t → option t :=
  in_core i (λ r, Some (Runtime.CreateExecutor hash name ty r).1).

Definition global_AddEntityTag (i : nat) (s : t) : option (t * Z) :=
  '(a, r) ← g_runtime i s;
  let '(c, tag) := Runtime.AddEntityTag (core r) in
  Some (set_runtime a (mkRuntime c (resources_manager r)) s, tag).

Definition global_DeleteEntityTag (i : nat) (tag : Z) : t → option t := in_core i (Runtime.DeleteEntityTag tag).

Definition GetMainExecutor (r : Runtime.t) : option nat := Runtime.main_executor r.

Definition GetIOExecutor (r : Runtime.t) : option nat := Runtime.io_executor r.

(** ** Invariants *)
(** No image takes the runtime of another one. *)
Definition unshared (o : op) : bool := match o with OShare _ _ => false | _ => true end.

(** Pools are only deleted by their owners, and while the runtime they are from is the one of
    the image. *)
Definition careful_op (s : t) (o : op) : bool :=
  match o with
  | OShare _ _ | ODelete _ _ => false
  | ODrop n => match holders s !! n with
               | Some h => bool_decide (images s !! h_image h = Some (h_runtime h))
               | None => true
               end
  | _ => true
  end.

Fixpoint careful (hw : nat) (io_hash : Z) (s : t) (os : list op) : bool :=
  match os with
  | [] => true
  | o :: os' => careful_op s o && match step hw io_hash s o with Some s' => careful hw io_hash s' os' | None => true end
  end.

Record inv (s : t) : Prop := {
  i_live i a : images s !! i = Some a → is_Some (heap s !! a);
  i_own i j a : images s !! i = Some a → images s !! j = Some a → i = j;
  i_next a r : heap s !! a = Some r → (a < next s)%nat;
  i_pools a r : heap s !! a = Some r → PoolsManager.inv (resources_manager r);
  i_apart a b r r' p : heap s !! a = Some r → heap s !! b = Some r' →
    p ∈ PoolsManager.objects (resources_manager r) → p ∈ PoolsManager.objects (resources_manager r') → a = b;
  i_double : double_delete s = false
}.

(** The pools of the owners of a runtime. *)
Definition owned (a : nat) (hs : list holder) : list Z := h_pool <$> filter (λ h, h_runtime h = a) hs.
#[global] Arguments owned : simpl never.

Record owners (s : t) : Prop := {
  w_owned a r : heap s !! a = Some r →
    PoolsManager.pools (resources_manager r) ≡ₚ GetDefaultResource r :: owned a (holders s);
  w_next h : h ∈ holders s → (h_runtime h < next s)%nat
}.

Lemma g_runtime_Some i s a r : g_runtime i s = Some (a, r) ↔ images s !! i = Some a ∧ heap s !! a = Some r.
Proof.
  unfold g_runtime. destruct (images s !! i) as [a0|] eqn:Ei; cbn; [|naive_solver].
  destruct (heap s !! a0) as [r0|] eqn:Eh; cbn; [naive_solver|]. split; [done|]. naive_solver.
Qed.

(** Changing one runtime keeps the invariant when its pools stay sound and take nothing that
    another one has. *)
Lemma inv_change s a r hs : inv s → is_Some (heap s !! a) → PoolsManager.inv (resources_manager r) →
  (∀ b r' p, b ≠ a → heap s !! b = Some r' → p ∈ PoolsManager.objects (resources_manager r) →
     p ∉ PoolsManager.objects (resources_manager r')) →
  inv (mk (images s) (<[a := r]> (heap s)) (next s) hs (double_delete s)).
Proof.
  intros [Hl Ho Hn Hp Ha Hd] [r0 Hr0] Hr Hap. split; cbn; [|done| | | |done].
  - intros i b Hb. destruct (decide (b = a)) as [->|?]; [by rewrite lookup_insert_eq|].
    rewrite lookup_insert_ne by done. by eapply Hl.
  - intros b r'. destruct (decide (b = a)) as [->|?]; [|rewrite lookup_insert_ne by done; by apply Hn].
    intros _. by eapply Hn.
  - intros b r' [[-> ->]|[? ?]]%lookup_insert_Some; [done|by eapply Hp].
  - intros b c rb rc p [[<- <-]|[? Hb]]%lookup_insert_Some [[<- <-]|[? Hc]]%lookup_insert_Some H1 H2; [done| | |by eapply Ha].
    + by destruct (Hap c rc p).
    + by destruct (Hap b rb p).
Qed.

Lemma inv_delete s i a p r hs : inv s → images s !! i = Some a → heap s !! a = Some r →
  inv (mk (images s) (<[a := DeleteResource p r]> (heap s)) (next s) hs (double_delete s)).
Proof.
  intros Hi Hia Ha. pose proof (i_pools _ Hi _ _ Ha) as Hp. apply inv_change; [done|by eexists| |].
  - by apply (PoolsManager.manager_inv_step _ (PoolsManager.Delete p) _ Hp).
  - intros b r' q Hb Hr' Hq Hq'. apply Hb. symmetry. eapply (i_apart _ Hi a b r r' q); try done.
    revert Hq. cbn. unfold PoolsManager.delete_resource. case_decide; [cbn; set_solver|done].
Qed.

Lemma inv_setup hw io i os v p s s' : inv s → SetupRuntime hw io i os v p s = Some s' → inv s'.
Proof.
  intros [Hl Ho Hn Hp Ha Hd]. unfold SetupRuntime. case_decide as Hf; [|done].
  destruct (Runtime.Setup hw io os v Runtime.make) as [c|]; [|done]. intros [= <-].
  assert (∀ b r, heap s !! b = Some r → b ≠ next s) as Hne by (intros b r Hb ->; apply Hn in Hb; lia).
  split; cbn; [| | | | |done].
  - intros j b [[<- <-]|[? Hb]]%lookup_insert_Some; [by rewrite lookup_insert_eq|].
    destruct (Hl _ _ Hb) as [r Hr]. rewrite lookup_insert_ne; [by eexists|]. symmetry. by eapply Hne.
  - intros j k b [[<- <-]|[? Hb]]%lookup_insert_Some [[<- E]|[? Hc]]%lookup_insert_Some; [done| | |by eapply Ho].
    + destruct (Hl _ _ Hc) as [r Hr]. by destruct (Hne _ _ Hr).
    + subst b. destruct (Hl _ _ Hb) as [r Hr]. by destruct (Hne _ _ Hr).
  - intros b r [[<- <-]|[? Hb]]%lookup_insert_Some; [lia|]. apply Hn in Hb. lia.
  - intros b r [[<- <-]|[? Hb]]%lookup_insert_Some; [|by eapply Hp]. cbn.
    split; [apply NoDup_singleton|split; [cbn; set_solver|done]].
  - intros b c' rb rc q [[<- <-]|[? Hb]]%lookup_insert_Some [[<- <-]|[? Hc]]%lookup_insert_Some; cbn; [done| | |by eapply Ha].
    + intros ->%elem_of_singleton Hq. by destruct (Hf _ _ Hc).
    + intros Hq ->%elem_of_singleton. by destruct (Hf _ _ Hb).
Qed.

Lemma inv_terminate i s s' : inv s → Terminate i s = Some s' → inv s'.
Proof.
  intros Hi. unfold Terminate. destruct (images s !! i) as [a|] eqn:Ei; [|by intros [= <-]].
  destruct (g_runtime i s) as [[a' r]|] eqn:Eg; [|done]. cbn. intros [= <-].
  apply g_runtime_Some in Eg as [Ei' Hr]. rewrite Ei in Ei'. injection Ei' as <-.
  destruct Hi as [Hl Ho Hn Hp Ha Hd]. split; cbn.
  - intros j b [Hj Hb]%lookup_delete_Some. destruct (Hl _ _ Hb) as [r' Hr']. rewrite lookup_delete_ne; [by eexists|].
    intros ->. apply Hj. by eapply Ho.
  - intros j k b [_ Hb]%lookup_delete_Some [_ Hc]%lookup_delete_Some. by eapply Ho.
  - intros b r' [_ Hb]%lookup_delete_Some. by eapply Hn.
  - intros b r' [_ Hb]%lookup_delete_Some. by eapply Hp.
  - intros b c rb rc q [_ Hb]%lookup_delete_Some [_ Hc]%lookup_delete_Some. by eapply Ha.
  - rewrite Hd. destruct (Hp _ _ Hr) as (Hnd & Hob & Hdd). unfold destroy_runtime, PoolsManager.destroy.
    destruct (PoolsManager.delete_all_spec _ (resources_manager r) Hnd) as [-> _]; [intros q; apply Hob|done|done].
Qed.

Lemma inv_create i p s s' : inv s → global_CreateResource i p s = Some s' → inv s'.
Proof.
  intros Hi. unfold global_CreateResource. destruct (g_runtime i s) as [[a r]|] eqn:Eg; [|done]. cbn.
  case_decide as Hf; [|done]. intros [= <-]. apply g_runtime_Some in Eg as [Ei Hr].
  apply inv_change; [done|by eexists| |].
  - apply (PoolsManager.manager_inv_step (resources_manager r) (PoolsManager.Create p)); [by eapply i_pools|].
    cbn. rewrite decide_False; [done|by eapply Hf].
  - intros b r' q Hb Hr'. cbn. intros [->%elem_of_singleton|Hq]%elem_of_union Hq'; [by eapply Hf|].
    apply Hb. symmetry. by eapply (i_apart _ Hi a b r r' q).
Qed.

Lemma drop_Some n s s' : drop n s = Some s' → ∃ h a r, holders s !! n = Some h ∧ images s !! h_image h = Some a ∧
  heap s !! a = Some r ∧
  s' = mk (images s) (<[a := DeleteResource (h_pool h) r]> (heap s)) (next s) (delete n (holders s)) (double_delete s).
Proof.
  unfold drop. destruct (holders s !! n) as [h|]; [|done]. cbn. unfold global_DeleteResource, tell.
  destruct (g_runtime _ _) as [[a r]|] eqn:Eg; [|done]. cbn. intros [= <-].
  apply g_runtime_Some in Eg as [Ei Hr]. naive_solver.
Qed.

Lemma process_inv_step hw io s o s' : inv s → unshared o = true → step hw io s o = Some s' → inv s'.
Proof.
  intros Hi Hu. destruct o as [i os v p| |i|i p|i p|n]; cbn; [|done| | | |].
  - by apply inv_setup.
  - by apply inv_terminate.
  - by apply inv_create.
  - unfold global_DeleteResource, tell. destruct (g_runtime i s) as [[a r]|] eqn:Eg; [|done]. cbn. intros [= <-].
    apply g_runtime_Some in Eg as [Ei Hr]. by eapply inv_delete.
  - intros (h & a & r & _ & Ei & Hr & ->)%drop_Some. by eapply inv_delete.
Qed.

Lemma erase_first_perm p l : p ∈ l → l ≡ₚ p :: PoolsManager.erase_first p l.
Proof.
  induction l as [|q l IH]; [by intros ?%not_elem_of_nil|]. cbn. case_decide as E; [by subst|].
  intros [->|Hp]%elem_of_cons; [done|]. rewrite (IH Hp) at 1. constructor.
Qed.

Lemma owned_cons a h hs : owned a (h :: hs) = (if decide (h_runtime h = a) then [h_pool h] else []) ++ owned a hs.
Proof. unfold owned. rewrite filter_cons. by case_decide. Qed.

Lemma owned_none a hs : (∀ h, h ∈ hs → h_runtime h ≠ a) → owned a hs = [].
Proof.
  induction hs as [|h hs IH]; intros Hne; [done|]. rewrite owned_cons, decide_False by (apply Hne; left).
  apply IH. intros h' Hh'. apply Hne. by right.
Qed.

Lemma owned_delete a n h hs : hs !! n = Some h →
  owned a hs ≡ₚ (if decide (h_runtime h = a) then [h_pool h] else []) ++ owned a (delete n hs).
Proof.
  intros Hn. rewrite <- owned_cons. unfold owned. by rewrite <- (delete_Permutation _ _ _ Hn).
Qed.

Lemma owners_step hw io s o s' : inv s → owners s → careful_op s o = true → step hw io s o = Some s' → owners s'.
Proof.
  intros Hi [Ho Hn] Hc. destruct o as [i os v p| |i|i p|i p|n]; cbn; [|done| | |done|].
  - unfold SetupRuntime. case_decide as Hf; [|done].
    destruct (Runtime.Setup hw io os v Runtime.make) as [c|]; [|done]. intros [= <-]. split; cbn.
    + intros a r [[<- <-]|[? Hr]]%lookup_insert_Some; [|by apply Ho]. cbn. constructor.
      rewrite owned_none; [done|]. intros h Hh E. apply Hn in Hh. lia.
    + intros h Hh. apply Hn in Hh. lia.
  - unfold Terminate. destruct (images s !! i) as [a|]; [|by intros [= <-]].
    destruct (g_runtime i s) as [[a' r]|]; [|done]. cbn. intros [= <-]. split; cbn; [|done].
    intros b r' [_ Hb]%lookup_delete_Some. by apply Ho.
  - unfold global_CreateResource. destruct (g_runtime i s) as [[a r]|] eqn:Eg; [|done]. cbn.
    case_decide as Hf; [|done]. intros [= <-]. apply g_runtime_Some in Eg as [Ei Hr]. split; cbn.
    + intros b r' [[<- <-]|[? Hb]]%lookup_insert_Some; rewrite owned_cons; cbn.
      * rewrite decide_True by done. rewrite (Ho _ _ Hr). cbn. solve_Permutation.
      * rewrite decide_False by done. by apply Ho.
    + intros h [->|Hh]%elem_of_cons; [by eapply i_next|by apply Hn].
  - intros (h & a & r & Hh & Ei & Hr & ->)%drop_Some. cbn in Hc. rewrite Hh in Hc. apply bool_decide_eq_true in Hc.
    rewrite Ei in Hc. injection Hc as ->. split; cbn.
    + intros b r' [[<- <-]|[? Hb]]%lookup_insert_Some.
      * pose proof (Ho _ _ Hr) as Hp. rewrite (owned_delete _ n h _ Hh), decide_True in Hp by done.
        unfold GetDefaultResource in *. cbn in *. unfold PoolsManager.delete_resource.
        assert (h_pool h ∈ PoolsManager.pools (resources_manager r)) as Hin by (rewrite Hp; set_solver).
        rewrite decide_True by done. cbn. apply (Permutation.Permutation_cons_inv (a := h_pool h)).
        rewrite <- erase_first_perm by done. rewrite Hp. constructor.
      * rewrite (Ho _ _ Hb), (owned_delete _ n h _ Hh), decide_False by done. done.
    + intros h' Hh'. apply Hn. by eapply list_elem_of_delete_inv.
Qed.

Lemma process_run_inv hw io os : ∀ s s', inv s → forallb unshared os = true → run hw io s os = Some s' → inv s'.
Proof.
  induction os as [|o os IH]; intros s s' Hi; cbn; [by intros _ [= <-]|]. intros [Hu Hus]%andb_true_iff.
  destruct (step hw io s o) as [s1|] eqn:E; [|done]. apply IH; [|done]. by eapply process_inv_step.
Qed.

Lemma process_run_owners hw io os : ∀ s s', inv s → owners s → careful hw io s os = true → run hw io s os = Some s' → owners s'.
Proof.
  induction os as [|o os IH]; intros s s' Hi Hw; cbn; [by intros _ [= <-]|]. intros [Hc Hcs]%andb_true_iff.
  destruct (step hw io s o) as [s1|] eqn:E; [|done]. apply IH; [| |done].
  - eapply process_inv_step; [done| |done]. by destruct o.
  - by eapply owners_step.
Qed.

Lemma inv_start : inv start.
Proof. split; intros *; cbn; rewrite ?lookup_empty; try done. Qed.

Lemma owners_start : owners start.
Proof. split; intros *; cbn; rewrite ?lookup_empty; [done|by intros ?%not_elem_of_nil]. Qed.
End Process.
Import Process.

(** C33: pools are deleted once and belong to one runtime.  In every run of a process in which
    no image takes the runtime of another, a global runtime exists while it is pointed to, no
    pool is deleted twice, the pools that exist are those listed and no two runtimes list the
    same; and when pools are deleted by their owners only, while their runtime is the global
    one, the pools of a runtime are its default pool and those of its owners, all different. *)
Theorem process_pools (hw : nat) (io_hash : Z) (os : list op) (s : Process.t) :
  run hw io_hash start os = Some s → forallb unshared os = true →
  double_delete s = false ∧
  (∀ i a, images s !! i = Some a → ∃ r, g_runtime i s = Some (a, r)) ∧
  (∀ a r, heap s !! a = Some r → PoolsManager.double_delete (resources_manager r) = false ∧
     ∀ p, p ∈ PoolsManager.objects (resources_manager r) ↔ p ∈ PoolsManager.pools (resources_manager r)) ∧
  (∀ a b r r' p, heap s !! a = Some r → heap s !! b = Some r' → p ∈ PoolsManager.pools (resources_manager r) →
     p ∈ PoolsManager.pools (resources_manager r') → a = b) ∧
  (careful hw io_hash start os = true → ∀ a r, heap s !! a = Some r →
     PoolsManager.pools (resources_manager r) ≡ₚ GetDefaultResource r :: owned a (holders s) ∧
     NoDup (GetDefaultResource r :: owned a (holders s))).
Proof.
  intros Hr Hu. pose proof (process_run_inv hw io_hash os _ _ inv_start Hu Hr) as Hi. split_and!.
  - apply Hi.
  - intros i a Ha. destruct (i_live _ Hi _ _ Ha) as [r Hh]. exists r. by apply g_runtime_Some.
  - intros a r Ha. by destruct (i_pools _ Hi _ _ Ha) as (_ & ? & ?).
  - intros a b r r' p Ha Hb Hp Hp'. eapply (i_apart _ Hi a b r r' p Ha Hb); by eapply (i_pools _ Hi).
  - intros Hc a r Ha. pose proof (process_run_owners hw io_hash os _ _ inv_start owners_start Hc Hr) as Hw.
    pose proof (w_owned _ Hw _ _ Ha) as Hp. split; [done|]. rewrite <- Hp. by eapply (i_pools _ Hi).
Qed.

Module ProcessExample.
Definition hash : Z := 77.

Definition life : list op := [OSetup 0 [] 1 10; OCreate 0 20; OCreate 0 30; ODrop 0; OSetup 1 [] 1 40; OTerminate 0].

Definition life_end : Process.t := default start (run 2 hash start life).

Lemma process_pools_witness :
  double_delete life_end = false ∧ images life_end !! 0%nat = None ∧
  ∃ r, g_runtime 1 life_end = Some (1%nat, r) ∧ PoolsManager.pools (resources_manager r) = [40].
Proof.
  destruct (process_pools 2 hash life life_end) as (Hd & _); [vm_compute; reflexivity|vm_compute; reflexivity|].
  split; [exact Hd|]. split; [vm_compute; reflexivity|]. eexists. split; vm_compute; reflexivity.
Defined.

(** An owner that ends when there is no runtime calls a member of the null pointer. *)
Example owner_outlives_runtime :
  run 2 hash start [OSetup 0 [] 1 10; OCreate 0 20; OTerminate 0; ODrop 0] = None ∧
  run 2 hash start [OSetup 0 [] 1 10; OCreate 0 20; OTerminate 0] ≠ None.
Proof. split; [vm_compute; reflexivity|by_evaluation]. Qed.

(** An owner from an earlier runtime deletes the pool a later one has at the same address, while
    the owner of that pool still holds it. *)
Example stale_owner_deletes_new_pool :
  ∃ s r, run 2 hash start [OSetup 0 [] 1 10; OCreate 0 20; OTerminate 0; OSetup 0 [] 1 10; OCreate 0 20; ODrop 1] = Some s ∧
    g_runtime 0 s = Some (1%nat, r) ∧ holders s = [mkHolder 0 20 1] ∧ PoolsManager.pools (resources_manager r) = [10].
Proof. eexists _, _. split; [vm_compute; reflexivity|]. split_and!; vm_compute; reflexivity. Qed.

(** [DeleteResource] of the default pool leaves the pointer to it in place. *)
Example default_pool_deleted :
  ∃ s r, run 2 hash start [OSetup 0 [] 1 10; ODelete 0 10] = Some s ∧ g_runtime 0 s = Some (0%nat, r) ∧
    GetDefaultResource r = 10 ∧ PoolsManager.pools (resources_manager r) = [].
Proof. eexists _, _. split; [vm_compute; reflexivity|]. split_and!; vm_compute; reflexivity. Qed.

(** A second [SetupRuntime] leaves the first runtime without a pointer to it. *)
Example second_setup_leaks_runtime :
  ∃ s, run 2 hash start [OSetup 0 [] 1 10; OSetup 0 [] 1 20; OTerminate 0] = Some s ∧
    images s = ∅ ∧ is_Some (heap s !! 0%nat).
Proof. eexists. split; [vm_compute; reflexivity|]. split; [vm_compute; reflexivity|by_evaluation]. Qed.

(** Two images that share a runtime cannot both terminate it. *)
Example shared_runtime_terminated_twice :
  run 2 hash start [OSetup 0 [] 1 10; OSetup 1 [] 1 20; OShare 1 0; OTerminate 1; OTerminate 0] = None ∧
  run 2 hash start [OSetup 0 [] 1 10; OSetup 1 [] 1 20; OShare 1 0; OTerminate 1] ≠ None.
Proof. split; [vm_compute; reflexivity|by_evaluation]. Qed.
End ProcessExample.
