(* ===== verification/Coroutine.v ===== *)
(** * Coroutines and awaiting

    include/ar/coroutine.hpp, and [Async] and [Await] on coroutines of
    include/ar/runtime.hpp.  The function of a coroutine is an argument: from a local state it
    runs to its next [yield], suspension or end.  The context switches of boost are the calls
    and returns of the model. *)
From S2P Require Import Prelude.
From S2P Require Import Promise.
From S2P Require Import Task.

Module Coroutine.

(** How a stretch of the function ends. *)
Inductive action (X V : Type) :=
| Return (v : V)
| Raise                       (* an exception *)
| Yield (v : V) (x : X)       (* yield(v) *)
| Suspend (x : X).            (* suspend(), suspend_with(...) *)
Arguments Return {X V} v.
Arguments Raise {X V}.
Arguments Yield {X V} v x.
Arguments Suspend {X V} x.

(** The exceptions put in the promise: that of the function, and [resume]'s. *)
Inductive exn := FromBody | CoroutineIsCompleted.

Section coroutine.
Context {X V S : Type} `{FuturesLaws S (V + exn)}.
Variable prog : X → action X V.

Record t := mk {
  local : X;
  valid : bool;               (* continuation is not empty *)
  end_ : bool;
  promise : nat;              (* y.promise *)
  state : execution_state;
  resource : option nat
}.

(** The constructor runs the function's context up to its first switch back. *)
Definition make (x : X) (r : option nat) (fs : S) : t * S :=
  let '(p, fs') := fut_make fs in (mk x true false p default_state r, fs').

Definition handler_set_execution_state (es : execution_state) (c : t) : t :=
  mk (local c) (valid c) (end_ c) (promise c) es (resource c).

Definition handler_set_execution_state_wg (wg : Z) (c : t) : t :=
  handler_set_execution_state (mkES (es_tag (state c)) wg INVALID_OBJECT_ID (es_executor (state c))) c.

Definition handler_set_execution_state_tag (tag : Z) (c : t) : t :=
  handler_set_execution_state (mkES tag (es_work_group (state c)) INVALID_OBJECT_ID (es_executor (state c))) c.

Definition is_completed (c : t) : bool := end_ c || negb (valid c).

Definition init_promise (c : t) (fs : S) : t * S :=
  let '(p, fs') := fut_replace (promise c) fs in
  (mk (local c) (valid c) (end_ c) p (state c) (resource c), fs').

(** How a call of [resume] ends: normally, with an exception for its caller, or in
    [std::terminate] because an exception left the function's context. *)
Inductive ending := Normal | Throws | Terminates.

(** The continuation and [end] after a switch back. *)
Definition at_point (x : X) (v e : bool) (c : t) : t := mk x v e (promise c) (state c) (resource c).

(** [coroutine::call] from the point where the function ended with [r]: the value, or in the
    handler of its exceptions the exception, goes to the promise. *)
Definition finish (r : V + exn) (c : t) (fs : S) : ending * t * S :=
  match fut_set (promise c) r fs with
  | Some fs' => (Normal, at_point (local c) false true c, fs')
  | None =>
      match r with
      | inl _ =>
          match fut_set (promise c) (inr FromBody) fs with
          | Some fs' => (Normal, at_point (local c) false true c, fs')
          | None => (Terminates, c, fs)
          end
      | inr _ => (Terminates, c, fs)
      end
  end.

(** [coroutine::resume]. *)
Definition resume (c : t) (fs : S) : ending * t * S :=
  if is_completed c then
    match fut_set (promise c) (inr CoroutineIsCompleted) fs with
    | Some fs' => (Normal, c, fs')
    | None => (Throws, c, fs)
    end
  else
    match prog (local c) with
    | Return v => finish (inl v) c fs
    | Raise => finish (inr FromBody) c fs
    | Yield v x =>
        match fut_set (promise c) (inl v) fs with
        | Some fs' => (Normal, at_point x true (end_ c) c, fs')
        | None => (Throws, at_point x false (end_ c) c, fs)     (* the continuation was moved from *)
        end
    | Suspend x => (Normal, at_point x true (end_ c) c, fs)
    end.

(** [coroutine_task::execute]: an exception of [resume] is printed. *)
Definition execute (es : execution_state) (c : t) (fs : S) : ending * t * S :=
  match resume (handler_set_execution_state es c) fs with
  | (Throws, c', fs') => (Normal, c', fs')
  | r => r
  end.

(** The constructor of [coroutine_task], and [resume_task], which sets the state once more. *)
Definition coroutine_task (id : nat) (clock : Z) (c : t) : task := set_execution_state (state c) (new_task id clock).

Definition resume_task (id : nat) (clock : Z) (c : t) : task := set_execution_state (state c) (coroutine_task id clock c).

(** [Runtime::Async(coroutine)]: a new promise and its future; the task is executed later. *)
Definition Async (c : t) (fs : S) : nat * t * S :=
  let '(c', fs') := init_promise c fs in (promise c', c', fs').

(** ** What a call of [Async] promises *)

(** The function after [n] stretches: still suspended, or settled with a value or an
    exception and, after a yield, the point it goes on from. *)
Inductive progress := Waiting (x : X) | Settled (r : V + exn) (next : option X).

Fixpoint stretches (x : X) (n : nat) : progress :=
  match n with
  | O => Waiting x
  | Datatypes.S n' =>
      match prog x with
      | Return v => Settled (inl v) None
      | Raise => Settled (inr FromBody) None
      | Yield v x' => Settled (inl v) (Some x')
      | Suspend x' => stretches x' n'
      end
  end.

(** The task of [Async] and those posted by what the function awaited. *)
Fixpoint execute_all (ess : list execution_state) (c : t) (fs : S) : ending * t * S :=
  match ess with
  | [] => (Normal, c, fs)
  | es :: ess' =>
      match execute es c fs with
      | (Normal, c', fs') => execute_all ess' c' fs'
      | r => r
      end
  end.

(** Started at [x], suspended, not completed, its promise pending. *)
Definition waiting_at (x : X) (c : t) (fs : S) : Prop :=
  local c = x ∧ valid c = true ∧ end_ c = false ∧ fut_state (promise c) fs = Some Pending.

Lemma execute_waiting es x c fs : waiting_at x c fs →
  ∃ c' fs', execute es c fs = (Normal, c', fs') ∧ promise c' = promise c ∧
    match stretches x 1 with
    | Waiting x' => waiting_at x' c' fs'
    | Settled r next => fut_state (promise c) fs' = Some (Ready r) ∧
        match next with
        | Some x' => local c' = x' ∧ valid c' = true ∧ end_ c' = false
        | None => is_completed c' = true
        end
    end.
Proof.
  intros (Hx & Hv & He & Hf). unfold execute, resume, is_completed. cbn. rewrite He, Hv, Hx. cbn.
  assert (Hset : ∀ r, ∃ fs', fut_set (promise c) r fs = Some fs' ∧ fut_state (promise c) fs' = Some (Ready r)).
  { intros r. destruct (fut_set_pending fs (promise c) r Hf) as [fs' E]. exists fs'. split; [done|].
    by eapply fut_set_ready. }
  destruct (prog x) as [v| |v x'|x']; cbn.
  - destruct (Hset (inl v)) as (fs' & E & Hr). unfold finish. cbn. rewrite E. eexists _, fs'. by repeat split.
  - destruct (Hset (inr FromBody)) as (fs' & E & Hr). unfold finish. cbn. rewrite E. eexists _, fs'. by repeat split.
  - destruct (Hset (inl v)) as (fs' & E & Hr). rewrite E. eexists _, fs'. by repeat split.
  - eexists _, fs. by repeat split.
Qed.

Lemma execute_all_waiting ess : ∀ x c fs, waiting_at x c fs →
  (∀ n, (n < length ess)%nat → ∃ y, stretches x n = Waiting y) →
  ∃ c' fs', execute_all ess c fs = (Normal, c', fs') ∧ promise c' = promise c ∧
    match stretches x (length ess) with
    | Waiting x' => waiting_at x' c' fs'
    | Settled r next => fut_state (promise c) fs' = Some (Ready r) ∧
        match next with
        | Some x' => local c' = x' ∧ valid c' = true ∧ end_ c' = false
        | None => is_completed c' = true
        end
    end.
Proof.
  induction ess as [|es ess IH]; intros x c fs Hw Hn; [by exists c, fs|].
  destruct (execute_waiting es x c fs Hw) as (c1 & fs1 & E & Hp & Hst). cbn [execute_all length]. rewrite E.
  cbn in Hst |- *. destruct (prog x) as [v| |v x'|x'] eqn:Ep.
  1-3: destruct ess as [|es' ess]; [by exists c1, fs1|]; destruct (Hn 1%nat) as [y Hy]; [cbn; lia|];
    cbn in Hy; by rewrite Ep in Hy.
  destruct (IH x' c1 fs1 Hst) as (c2 & fs2 & E2 & Hp2 & Hst2).
  { intros n Hlt. destruct (Hn (Datatypes.S n)) as [y Hy]; [cbn; lia|]. cbn in Hy. rewrite Ep in Hy. eauto. }
  exists c2, fs2. rewrite <- Hp. split; [done|]. split; [congruence|]. done.
Qed.

(** C18: A coroutine delivers through [Async].  Called on a coroutine that is not completed,
    whose function stands at [x], [Async] returns a future that is pending while the function is
    suspended and has, after the stretch that yields, returns or throws, that value or exception;
    the execution of the tasks never throws or terminates the program, the coroutine is completed
    exactly when the function has ended, and otherwise the next [Async] goes on from the point
    after the yield.  On a completed coroutine the future gets the error that says so. *)
Theorem coroutine_async_delivers ess x (c c0 : t) (fs fs0 : S) f es :
  is_Some (fut_state (promise c) fs) → Async c fs = (f, c0, fs0) →
  (is_completed c = false → local c = x →
   (∀ n, (n < length ess)%nat → ∃ y, stretches x n = Waiting y) →
   ∃ c' fs', execute_all ess c0 fs0 = (Normal, c', fs') ∧ promise c' = f ∧
     match stretches x (length ess) with
     | Waiting x' => local c' = x' ∧ is_completed c' = false ∧ fut_state f fs' = Some Pending
     | Settled r next => fut_state f fs' = Some (Ready r) ∧
         match next with
         | Some x' => local c' = x' ∧ is_completed c' = false
         | None => is_completed c' = true
         end
     end) ∧
  (is_completed c = true → ∃ fs', execute es c0 fs0 = (Normal, handler_set_execution_state es c0, fs') ∧
     fut_state f fs' = Some (Ready (inr CoroutineIsCompleted))).
Proof.
  intros Hs E. unfold Async, init_promise in E. pose proof (fut_replace_pending _ _ Hs) as Hp.
  destruct (fut_replace (promise c) fs) as [p fs1]. cbn in *. simplify_eq. unfold is_completed. split.
  - intros Hc <- Hn. apply orb_false_iff in Hc as [He Hv%negb_false_iff].
    destruct (execute_all_waiting ess (local c) (mk (local c) (valid c) (end_ c) f (state c) (resource c)) fs0)
      as (c2 & fs2 & E2 & Hp2 & Hst); [by repeat split|done|].
    exists c2, fs2. split; [done|]. split; [done|]. destruct (stretches (local c) (length ess)) as [x'|r [x'|]].
    + destruct Hst as (H1 & H2 & H3 & H4). rewrite H2, H3. cbn in Hp2. by rewrite Hp2 in H4.
    + destruct Hst as (Hr & H1 & H2 & H3). by rewrite H2, H3.
    + done.
  - intros Hc. unfold execute, resume, is_completed. cbn. rewrite Hc.
    destruct (fut_set_pending fs0 f (inr CoroutineIsCompleted) Hp) as [fs2 E2]. rewrite E2.
    exists fs2. split; [done|]. by eapply fut_set_ready.
Qed.
End coroutine.

(** A generator of three values that awaits something before the second. *)
Definition demo (x : nat) : action nat Z :=
  match x with
  | 0%nat => Yield 10 1%nat
  | 1%nat => Suspend 2%nat
  | 2%nat => Yield 20 3%nat
  | _ => Return 30
  end.

Definition demo_start : @t nat * MapFutures.t (Z + exn) := make 0%nat None fut_init.

Lemma coroutine_async_delivers_witness :
  ∃ f1 c1 fs1 c2 fs2, Async demo_start.1 demo_start.2 = (f1, c1, fs1) ∧
    execute_all demo [default_state] c1 fs1 = (Normal, c2, fs2) ∧
    fut_state f1 fs2 = Some (Ready (inl 10)) ∧ local c2 = 1%nat ∧ is_completed c2 = false.
Proof.
  destruct (Async demo_start.1 demo_start.2) as [[f c1] fs1] eqn:E.
  assert (Hs : is_Some (fut_state (promise demo_start.1) demo_start.2)) by (exists Pending; vm_compute; reflexivity).
  destruct (proj1 (coroutine_async_delivers demo [default_state] 0%nat demo_start.1 c1 demo_start.2 fs1 f default_state
    Hs E)) as (c2 & fs2 & E2 & Hp & Hf & Hl & Hc).
  - reflexivity.
  - reflexivity.
  - intros n Hn. cbn in Hn. assert (n = 0%nat) as -> by lia. eexists. reflexivity.
  - exists f, c1, fs1, c2, fs2. split; [reflexivity|]. split; [exact E2|]. split; [exact Hf|]. split; [exact Hl|exact Hc].
Defined.

End Coroutine.

(** ** Await in a coroutine

    [Runtime::Await(future, handler)], the thread that sets the future and the worker that
    executes the posted task.  [suspend_with] runs its callback on the side of [resume], whose
    mutex is held until the callback has returned. *)
Module Await.

Inductive waiter :=
| AtTest          (* before has_value() *)
| InCallback      (* suspended; the callback is about to call then() *)
| InThen          (* then() runs the continuation itself *)
| Attached        (* the callback has returned, resume() has not *)
| Suspended       (* resume() has returned: its mutex is free *)
| Resumed         (* before done_future.get() *)
| Got.            (* Await has returned *)

(** The continuation given to [then]. *)
Inductive continuation := Unborn | Registered | Firing | Posted | Finished.

Record t := mk {
  ready : bool;           (* the awaited future has its value *)
  at_ : waiter;
  cont : continuation;
  tasks : nat;            (* resume tasks posted and not executed *)
  resumes : nat           (* times the coroutine was resumed *)
}.

Definition make (r : bool) : t := mk r AtTest Unborn 0 0.

(** What Boost.Thread documents of [then(launch::sync, f)]: when the future is ready the thread that calls [then] runs [f], before
    [then] returns; otherwise [f] is kept and the thread that sets the future runs it. *)
Definition then_sync (is_ready : bool) : waiter * continuation :=
  if is_ready then (InThen, Firing) else (Attached, Registered).

Definition fire (k : continuation) : continuation := match k with Registered => Firing | k => k end.

Inductive label := LWaiter | LSetter | LContinuation | LWorker.

Definition step (s : t) (l : label) : option t :=
  match l with
  | LWaiter =>
      match at_ s with
      | AtTest => Some (mk (ready s) (if ready s then Got else InCallback) (cont s) (tasks s) (resumes s))
      | InCallback =>
          let '(a, k) := then_sync (ready s) in Some (mk (ready s) a k (tasks s) (resumes s))
      | InThen =>
          match cont s with
          | Finished => Some (mk (ready s) Attached (cont s) (tasks s) (resumes s))
          | _ => None
          end
      | Attached => Some (mk (ready s) Suspended (cont s) (tasks s) (resumes s))
      | Resumed =>
          match cont s with
          | Finished => Some (mk (ready s) Got (cont s) (tasks s) (resumes s))
          | _ => None
          end
      | _ => None
      end
  | LSetter =>
      if ready s then None
      else Some (mk true (at_ s) (fire (cont s)) (tasks s) (resumes s))
  | LContinuation =>
      match cont s with
      | Firing => Some (mk (ready s) (at_ s) Posted (S (tasks s)) (resumes s))
      | Posted => Some (mk (ready s) (at_ s) Finished (tasks s) (resumes s))
      | _ => None
      end
  | LWorker =>
      (* resume() waits for the mutex; the coroutine is resumed wherever it is suspended *)
      match tasks s, at_ s with
      | S n, (Suspended | Got | Resumed) =>
          Some (mk (ready s) (match at_ s with Suspended => Resumed | p => p end) (cont s) n (S (resumes s)))
      | _, _ => None
      end
  end.

Inductive reachable (s0 : t) : t → Prop :=
| reach_refl : reachable s0 s0
| reach_step s s' l : reachable s0 s → step s l = Some s' → reachable s0 s'.

(** Where everybody can be. *)
Definition inv (s : t) : Prop :=
  match at_ s, cont s with
  | AtTest, Unborn => tasks s = 0%nat ∧ resumes s = 0%nat
  | InCallback, Unborn => tasks s = 0%nat ∧ resumes s = 0%nat
  | InThen, Firing => ready s = true ∧ tasks s = 0%nat ∧ resumes s = 0%nat
  | InThen, (Posted | Finished) => ready s = true ∧ tasks s = 1%nat ∧ resumes s = 0%nat
  | (Attached | Suspended), Registered => ready s = false ∧ tasks s = 0%nat ∧ resumes s = 0%nat
  | (Attached | Suspended), Firing => ready s = true ∧ tasks s = 0%nat ∧ resumes s = 0%nat
  | (Attached | Suspended), (Posted | Finished) => ready s = true ∧ tasks s = 1%nat ∧ resumes s = 0%nat
  | Resumed, (Posted | Finished) => ready s = true ∧ tasks s = 0%nat ∧ resumes s = 1%nat
  | Got, Unborn => ready s = true ∧ tasks s = 0%nat ∧ resumes s = 0%nat
  | Got, Finished => ready s = true ∧ tasks s = 0%nat ∧ resumes s = 1%nat
  | _, _ => False
  end.

Lemma await_inv_step s l s' : inv s → step s l = Some s' → inv s'.
Proof.
  destruct s as [[] a k n m], a, k, l; cbn; intros Hi E; try done; simplify_eq; cbn; try done;
    destruct Hi as [? ?]; repeat case_match; simplify_eq; cbn; naive_solver.
Qed.

Lemma await_inv_reachable r s : reachable (make r) s → inv s.
Proof. induction 1; [by destruct r|by eapply await_inv_step]. Qed.

(** Every step brings the end of the wait nearer. *)
Definition rank (s : t) : nat :=
  ((if ready s then 0 else 1) +
   match at_ s with AtTest => 6 | InCallback => 5 | InThen => 4 | Attached => 3 | Suspended => 2 | Resumed => 1 | Got => 0 end +
   match cont s with Unborn => 4 | Registered => 3 | Firing => 2 | Posted => 1 | Finished => 0 end)%nat.

Lemma rank_step s l s' : inv s → step s l = Some s' → (rank s' < rank s)%nat.
Proof.
  destruct s as [[] a k n m], a, k, l; cbn; intros Hi E; try done; simplify_eq; unfold rank; cbn; try lia;
    repeat case_match; simplify_eq; cbn; naive_solver lia.
Qed.

(** A coroutine is resumed once, and [Await] returns, only when the future is set. *)
Lemma resumes_ready s : inv s → (resumes s ≤ 1)%nat ∧ (resumes s = 1%nat ∨ at_ s = Got → ready s = true).
Proof. destruct s as [[] a k n m], a, k; cbn; naive_solver lia. Qed.

(** The resume task has been posted. *)
Definition posted (s : t) : bool := match cont s with Posted | Finished => true | _ => false end.

(** When the future is set and neither the coroutine nor the continuation has a step, [Await] has
    returned or waits for the resume task. *)
Lemma await_stuck s : inv s → ready s = true → step s LWaiter = None → step s LContinuation = None →
  at_ s = Got ∨ (posted s = true ∧ resumes s = 0%nat).
Proof. destruct s as [[] a k n m], a, k; cbn; intros Hi Hr; try done; repeat case_match; try done; naive_solver. Qed.

(** C19: Awaiting a future in a coroutine loses no wake-up and resumes once.  Whatever the
    order of the test, of [then], of the switch, of the thread that sets the future and of the
    worker: every step brings the wait nearer to its end, at most eleven in all; the coroutine is
    resumed at most once and only when it is suspended; and once the future is set, [Await] has
    returned or a step is possible, so it returns. *)
Theorem await_no_lost_wakeup r s : reachable (make r) s →
  (rank s ≤ 11)%nat ∧ (∀ l s', step s l = Some s' → (rank s' < rank s)%nat) ∧ (tasks s + resumes s ≤ 1)%nat ∧
  (ready s = true → at_ s = Got ∨ ∃ l s', step s l = Some s').
Proof.
  intros Hr. pose proof (await_inv_reachable r s Hr) as Hi. split; [|split; [|split]].
  - induction Hr as [|s s' l Hr IH E]; [destruct r; cbn; lia|].
    pose proof (rank_step s l s' (await_inv_reachable r s Hr) E). specialize (IH (await_inv_reachable r s Hr)). lia.
  - intros l s'. by apply rank_step.
  - destruct s as [rr a k n m]; destruct a, k; cbn in *; naive_solver lia.
  - intros Hrd. destruct s as [rr a k n m]. cbn in Hrd. subst rr.
    destruct a, k; cbn in Hi; try done; try (by left); right;
      try (exists LWaiter; by eexists); try (exists LContinuation; by eexists);
      destruct Hi as (Hrd & -> & _); [done|]; exists LWorker; by eexists.
Qed.

(** The future is set between the test and [then]. *)
Lemma await_no_lost_wakeup_witness :
  ∃ s, reachable (make false) s ∧ at_ s = InThen ∧ ready s = true ∧ (∃ l s', step s l = Some s').
Proof.
  exists (mk true InThen Firing 0 0).
  assert (Hr : reachable (make false) (mk true InThen Firing 0 0)).
  { eapply (reach_step _ (mk true InCallback Unborn 0 0) _ LWaiter); [|reflexivity].
    eapply (reach_step _ (mk false InCallback Unborn 0 0) _ LSetter); [|reflexivity].
    eapply (reach_step _ (make false) _ LWaiter); [apply reach_refl|reflexivity]. }
  split; [exact Hr|]. split; [reflexivity|]. split; [reflexivity|].
  destruct (await_no_lost_wakeup false _ Hr) as (_ & _ & _ & Hw).
  destruct (Hw eq_refl) as [X|X]; [discriminate X|exact X].
Defined.

End Await.

(** ** Processor time

    With MEASURE_CPU_TIME, [execute] adds the time of the thread it took to [cpu_time], a
    [std::atomic_size_t], and [get_cpu_time] takes what there is. *)
Module CpuTime.

Definition add_cpu_time (time cpu_time : Z) : Z := u64 (cpu_time + time).

Definition get_cpu_time (cpu_time : Z) : Z * Z := (cpu_time, 0).

(** The end of [execute], with the readings of the thread's clock. *)
Definition measure (start stop cpu_time : Z) : Z := if start <? stop then add_cpu_time (stop - start) cpu_time else cpu_time.

Inductive op := Execute (start stop : Z) | Get.

(** The times that were read, and what is left. *)
Fixpoint run (cpu_time : Z) (os : list op) : list Z * Z :=
  match os with
  | [] => ([], cpu_time)
  | Execute start stop :: os' => run (measure start stop cpu_time) os'
  | Get :: os' => let '(r, c) := get_cpu_time cpu_time in let '(rs, c') := run c os' in (r :: rs, c')
  end.

Definition duration (o : op) : Z := match o with Execute start stop => Z.max 0 (stop - start) | Get => 0 end.

Fixpoint total (l : list Z) : Z := match l with [] => 0 | x :: l' => x + total l' end.

(** No time is lost or counted twice, up to 2^64 nanoseconds. *)
Lemma cpu_time_conserved os : ∀ c, total (map duration os) + c < 2 ^ 64 → 0 <= c →
  total (run c os).1 + (run c os).2 = total (map duration os) + c.
Proof.
  assert (Hpos : ∀ l, 0 <= total (map duration l)).
  { induction l as [|[start stop|] l IH]; cbn; [done|lia|lia]. }
  induction os as [|[start stop|] os IH]; intros c Hlt Hc; cbn in *; [done| |].
  - specialize (Hpos os). rewrite IH; unfold measure, add_cpu_time; ztest; try lia; rewrite ?uwrap_small; lia.
  - specialize (IH 0 ltac:(lia) ltac:(lia)). destruct (run 0 os) as [rs c']. cbn in *. lia.
Qed.

End CpuTime.
