(* ===== verification/Ticker.v ===== *)
(** * Tickers (include/ar/ticker.hpp, src/ticker.cpp)

    A ticker gives a future per tick; when the tick is not due yet a delayed task sets it. *)
From S2P Require Import Prelude.
From S2P Require Import Task.

Module Ticker.

Record t := mk { last_tick_ts : Z; delay : Z; is_continue : bool }.

(** The constructor, for a duration of [count] periods [p]. *)
Definition make (p : Timestamp.period) (count clock : Z) : t :=
  mk (Timestamp.NowMicro clock) (Timestamp.Cast p Timestamp.Micro count) true.

Definition Stop (k : t) : t := mk (last_tick_ts k) (delay k) false.

Definition set_last (ts : Z) (k : t) : t := mk ts (delay k) (is_continue k).

(** The future of a tick: resolved, or that of a task. *)
Inductive tick := Resolved (b : bool) | Scheduled (x : task).

(** [AsyncTick(execution_state)]; [c0], [c1] and [c2] are its readings of the clock, [id] names the task. *)
Definition AsyncTick (id : nat) (es : execution_state) (c0 c1 c2 : Z) (k : t) : tick * t :=
  if negb (is_continue k) then (Resolved false, set_last (Timestamp.NowMicro c0) k)
  else
    let curr_tick_delay := Timestamp.NowMicro c0 - last_tick_ts k in
    if curr_tick_delay <? delay k then
      (Scheduled (set_execution_state es
         (set_delay Timestamp.Micro (delay k - curr_tick_delay) c2 (new_task id c1))), k)
    else (Resolved true, set_last (Timestamp.NowMicro c1) k).

(** [AsyncTick()]. *)
Definition AsyncTickDefault (id : nat) := AsyncTick id default_state.

(** [ticker_task::execute]: it writes the ticker's time, and resolves with true. *)
Definition ticker_task_execute (es : execution_state) (clock : Z) (x : task) (k : t)
  : task * t * list (promise_call bool) :=
  (set_execution_state es x, set_last (Timestamp.NowMicro clock) k, [SetValue true]).

Lemma Cast_micro_micro z : Timestamp.Cast Timestamp.Micro Timestamp.Micro z = z.
Proof. change (z * 1 ÷ 1 = z). by rewrite Z.quot_1_r, Z.mul_1_r. Qed.

(** Ticks keep their period.  With a clock that does not go back, a tick that resolves with
    true at once comes at least [delay] after the last one; a tick that is scheduled, executed no
    earlier than the task is due, does too; and a stopped ticker resolves with false. *)
Theorem ticker_period id es es' c0 c1 c2 c3 c4 (k : t) :
  0 <= c0 → c0 <= c1 → c1 <= c2 → c2 <= c3 → c3 <= c4 →
  match AsyncTick id es c0 c1 c2 k with
  | (Resolved true, k') => last_tick_ts k + delay k <= last_tick_ts k'
  | (Resolved false, _) => is_continue k = false
  | (Scheduled x, k') =>
      task_state x = es ∧
      (get_delay c3 x <= 0 →
       last_tick_ts k + delay k <= last_tick_ts (ticker_task_execute es' c4 x k').1.2)
  end.
Proof.
  intros H0 H1 H2 H3 H4. unfold AsyncTick. destruct (is_continue k); cbn [negb]; [|done].
  pose proof (Timestamp.NowMicro_mono c0 c1 ltac:(lia)). pose proof (Timestamp.NowMicro_mono c1 c2 ltac:(lia)).
  pose proof (Timestamp.NowMicro_mono c3 c4 ltac:(lia)).
  destruct (Z.ltb_spec (Timestamp.NowMicro c0 - last_tick_ts k) (delay k)); [|cbn; lia].
  split; [done|]. unfold get_delay. cbn [set_execution_state set_delay created_at]. rewrite Cast_micro_micro. cbn. lia.
Qed.

Lemma ticker_period_witness :
  let k := make Timestamp.Milli 5 0 in
  match AsyncTick 1 default_state 1000000 1000000 1000000 k with
  | (Scheduled x, k') => get_delay 5000000 x = 0 ∧
      last_tick_ts k + delay k <= last_tick_ts (ticker_task_execute default_state 5000000 x k').1.2
  | _ => False
  end.
Proof.
  split; [vm_compute; reflexivity|].
  exact (proj2 (ticker_period 1 default_state default_state 1000000 1000000 1000000 5000000 5000000 (make Timestamp.Milli 5 0)
    ltac:(lia) ltac:(lia) ltac:(lia) ltac:(lia) ltac:(lia)) ltac:(vm_compute; discriminate)).
Defined.

End Ticker.
