(* ===== verification/Profiler.v ===== *)
(** * The profiler's state (include/ar/profiler.hpp, src/profiler.cpp)

    Threads put events in a work-stealing queue; [Update] takes them and brings the state up
    to date.  The queue is the list that WorkStealQueue.v proves it implements. *)
From S2P Require Import Prelude.
From S2P Require Import Task.

Module Profiler.

Inductive EventType := WORK_TIME_STEP | NEW_COROUTINE | DELETE_COROUTINE | NEW_THREAD | DELETE_THREAD | REG_ASYNC_FUNCTION.

Record Event := mkEvent { e_id : Z; e_type : EventType; e_thread : Z; e_begin_ts : Z; e_end_ts : Z }.

Record WorkStep := mkStep { w_thread : Z; w_begin : Z; w_end : Z }.

Record Work := mkWork { id : Z; name : string; work_time : list WorkStep; begin_at : Z; updated_at : Z }.

Record State := mkState {
  app_info : string;
  system_info : string;
  profiling_interval : Z;
  coroutines_count : Z;
  created_at : Z;
  work_ground : gmap Z Work;
  threads : list Z
}.

Record t := mk { state : State; events : list Event }.

(** The constructor; [cpu] is what [OS::GetCPUInfo] says. *)
Definition make (cpu : string) : t :=
  mk (mkState "" (String.append "CPU: " cpu) (Timestamp.CastMicro (Timestamp.mkPeriod 60 1) 5) 0 0 ∅ []) [].

Definition NO_TS : Z := -1.

(** [AddEvent] with and without times; [now] is the clock in microseconds, [th] the hash of the thread. *)
Definition AddEvent (i : Z) (ty : EventType) (th b e : Z) (p : t) : t :=
  mk (state p) (events p ++ [mkEvent i ty th b e]).

Definition AddEventNow (i : Z) (ty : EventType) (th now : Z) (p : t) : t := AddEvent i ty th now NO_TS p.

(** [~WorkTimeEstimator]. *)
Definition estimator_destroy (work_id begin_ts th now : Z) (p : t) : t :=
  if 0 <? work_id then AddEvent work_id WORK_TIME_STEP th begin_ts now p else p.

Definition set_work_ground (w : gmap Z Work) (s : State) : State :=
  mkState (app_info s) (system_info s) (profiling_interval s) (coroutines_count s) (created_at s) w (threads s).

Definition set_count (c : Z) (s : State) : State :=
  mkState (app_info s) (system_info s) (profiling_interval s) c (created_at s) (work_ground s) (threads s).

Definition set_threads (l : list Z) (s : State) : State :=
  mkState (app_info s) (system_info s) (profiling_interval s) (coroutines_count s) (created_at s) (work_ground s) l.

(** [RegAsyncFunction]: [insert] keeps an entry that is there. *)
Definition RegAsyncFunction (i : Z) (nm : string) (now : Z) (p : t) : t :=
  match work_ground (state p) !! i with
  | Some _ => p
  | None => mk (set_work_ground (<[i := mkWork i nm [] now (-1)]> (work_ground (state p))) (state p)) (events p)
  end.

Definition SetProfilingInterval (p : Timestamp.period) (count : Z) (x : t) : t :=
  let s := state x in
  mk (mkState (app_info s) (system_info s) (Timestamp.CastMicro p count) (coroutines_count s) (created_at s)
        (work_ground s) (threads s)) (events x).

(** [SetAppInfo]: the arguments with a space after each. *)
Definition SetAppInfo (argv : list string) (x : t) : t :=
  let s := state x in
  mk (mkState (fold_left (λ a v, String.append a (String.append v " ")) argv "") (system_info s) (profiling_interval s)
        (coroutines_count s) (created_at s) (work_ground s) (threads s)) (events x).

(** The loop that drops steps from the front while the window is too long. *)
Fixpoint trim (interval updated b : Z) (l : list WorkStep) : Z * list WorkStep :=
  match l with
  | [] => (b, [])
  | _ :: l' =>
      if interval <? updated - b then
        trim interval updated (match l' with x :: _ => w_begin x | [] => b end) l'
      else (b, l)
  end.

(** A [WORK_TIME_STEP] of a registered function at the time [now]. *)
Definition add_step (interval now : Z) (e : Event) (w : Work) : Work :=
  let l := work_time w ++ [mkStep (e_thread e) (e_begin_ts e) (e_end_ts e)] in
  let b := if begin_at w <=? -1 then e_begin_ts e else begin_at w in
  if (0 <? now) && (0 <? b) then
    let '(b', l') := trim interval now b l in mkWork (id w) (name w) l' b' now
  else mkWork (id w) (name w) l b now.

(** The body of the loop of [Update]. *)
Definition process (now : Z) (e : Event) (s : State) : State :=
  match e_type e with
  | WORK_TIME_STEP =>
      match work_ground s !! e_id e with
      | Some w => set_work_ground (<[e_id e := add_step (profiling_interval s) now e w]> (work_ground s)) s
      | None => s
      end
  | NEW_COROUTINE => set_count (coroutines_count s + 1) s
  | DELETE_COROUTINE =>
      let c := coroutines_count s - 1 in set_count (if c <? 0 then 0 else c) s
  | NEW_THREAD => set_threads (threads s ++ [e_thread e]) s
  | DELETE_THREAD => set_threads (List.filter (λ x, negb (x =? e_thread e)) (threads s)) s
  | REG_ASYNC_FUNCTION => s
  end.

(** The events in the order of the loop, [clock] the readings of the clock. *)
Fixpoint process_all (clock : nat → Z) (es : list Event) (s : State) : State :=
  match es with
  | [] => s
  | e :: es' => process_all (λ n, clock (S n)) es' (process (clock O) e s)
  end.

(** [Update]: as many steals as the queue has events, which come oldest first; then
    [std::reverse], and the loop. *)
Fixpoint steal_all (n : nat) (q : list Event) : list Event * list Event :=
  match n, q with
  | S n', e :: q' => let '(es, r) := steal_all n' q' in (e :: es, r)
  | _, _ => ([], q)
  end.

Definition Update (clock : nat → Z) (p : t) : t :=
  let '(new_events, rest) := steal_all (length (events p)) (events p) in
  mk (process_all clock (rev new_events) (state p)) rest.

Definition GetCurrentState (p : t) : State := state p.

Lemma steal_all_all q : steal_all (length q) q = (q, []).
Proof. induction q as [|e q IH]; cbn; [done|]. by rewrite IH. Qed.

(** *** The window of a function *)

(** The loop ends: what is left is an end of the list, empty or a window that is not too long. *)
Lemma trim_spec interval updated l : ∀ b,
  (∃ l1, l = l1 ++ (trim interval updated b l).2) ∧
  ((trim interval updated b l).2 = [] ∨ updated - (trim interval updated b l).1 <= interval).
Proof.
  induction l as [|y l IH]; intros b; cbn; [split; [by exists []|by left]|].
  destruct (Z.ltb_spec interval (updated - b)).
  - destruct (IH (match l with x :: _ => w_begin x | [] => b end)) as [[l1 E] Hw].
    split; [exists (y :: l1); cbn; by rewrite <- E|done].
  - split; [by exists []|right; cbn; lia].
Qed.

(** [Update] takes all the events and treats them from the last to the first. *)
Lemma Update_spec clock p : Update clock p = mk (process_all clock (rev (events p)) (state p)) [].
Proof. unfold Update. by rewrite steal_all_all. Qed.

(** The work recorded of a function is a window.  When [Update] treats a work step of a
    registered function, the steps kept are an end of those before with the new one last, the
    time is brought up to date, and the window is empty or not longer than the profiling
    interval; no other function, thread or count changes. *)
Theorem profiler_window now e s w :
  e_type e = WORK_TIME_STEP → work_ground s !! e_id e = Some w → 0 < now → 0 < begin_at w →
  ∃ w' l1, process now e s = set_work_ground (<[e_id e := w']> (work_ground s)) s ∧
    work_time w ++ [mkStep (e_thread e) (e_begin_ts e) (e_end_ts e)] = l1 ++ work_time w' ∧
    updated_at w' = now ∧ (work_time w' = [] ∨ now - begin_at w' <= profiling_interval s).
Proof.
  intros Ht Hw Hn Hb. unfold process. rewrite Ht, Hw.
  assert (E : add_step (profiling_interval s) now e w =
    let '(b', l') := trim (profiling_interval s) now (begin_at w)
      (work_time w ++ [mkStep (e_thread e) (e_begin_ts e) (e_end_ts e)]) in mkWork (id w) (name w) l' b' now).
  { unfold add_step. destruct (Z.leb_spec (begin_at w) (-1)); [lia|].
    by destruct (Z.ltb_spec 0 now), (Z.ltb_spec 0 (begin_at w)); try lia. }
  destruct (trim_spec (profiling_interval s) now
    (work_time w ++ [mkStep (e_thread e) (e_begin_ts e) (e_end_ts e)]) (begin_at w)) as [[l1 El] Hwin].
  destruct (trim _ _ _ _) as [b' l']. cbn in *. exists (mkWork (id w) (name w) l' b' now), l1.
  by rewrite E.
Qed.

(** A function registered long ago. *)
Definition demo_work : Work := mkWork 7 "f" [mkStep 1 100 150; mkStep 1 900 950] 100 150.

Definition demo_state : State := mkState "" "" 300 0 0 {[ 7 := demo_work ]} [].

Lemma profiler_window_witness :
  ∃ w' l1, process 1010 (mkEvent 7 WORK_TIME_STEP 1 1000 1005) demo_state =
      set_work_ground (<[7 := w']> (work_ground demo_state)) demo_state ∧
    work_time demo_work ++ [mkStep 1 1000 1005] = l1 ++ work_time w' ∧
    updated_at w' = 1010 ∧ (work_time w' = [] ∨ 1010 - begin_at w' <= 300).
Proof.
  exact (profiler_window 1010 (mkEvent 7 WORK_TIME_STEP 1 1000 1005) demo_state demo_work
    eq_refl eq_refl eq_refl eq_refl).
Defined.

(** Once the window is empty and its beginning is older than the interval, every later step is
    dropped as soon as it is added: nothing is recorded of the function any more. *)
Lemma profiler_window_stays_empty interval w es : ∀ nows,
  work_time w = [] → 0 < begin_at w → length nows = length es → 0 <= interval →
  Forall (λ now, interval < now - begin_at w) nows →
  work_time (fold_left (λ v ne, add_step interval ne.1 ne.2 v) (zip nows es) w) = [].
Proof.
  revert w. induction es as [|e es IH]; intros w [|now nows] Hw Hb Hl Hi Hn; cbn in *; try done.
  apply Forall_cons in Hn as [Hnow Hn].
  assert (E : add_step interval now e w = mkWork (id w) (name w) [] (begin_at w) now).
  { unfold add_step. rewrite Hw. cbn. destruct (Z.leb_spec (begin_at w) (-1)); [lia|].
    destruct (Z.ltb_spec 0 now), (Z.ltb_spec 0 (begin_at w)); try lia. cbn.
    by destruct (Z.ltb_spec interval (now - begin_at w)); [|lia]. }
  rewrite E. apply IH; cbn; [done|done|lia|done|done].
Qed.

(** Events are treated newest first: a coroutine that came and went between two updates is
    counted for ever, and a thread that came and went is listed. *)
Example profiler_update_reverses :
  let p := AddEventNow 2 DELETE_THREAD 9 4 (AddEventNow 2 NEW_THREAD 9 3
             (AddEventNow 1 DELETE_COROUTINE 1 2 (AddEventNow 1 NEW_COROUTINE 1 1 (make "cpu")))) in
  coroutines_count (state (Update (λ _, 10) p)) = 1 ∧ threads (state (Update (λ _, 10) p)) = [9].
Proof. vm_compute. done. Qed.

End Profiler.
