(* ===== verification/ProfilerService.v ===== *)
(** * The profiler as a service (src/profiler.cpp)

    [Start] and [Stop] of the profiler of Profiler.v, the coroutine that is to call [Update] at
    every tick, and the answer of the HTTP route.  The coroutine is one of Coroutine.v, the ticker
    that of Ticker.v; a worker executes the tasks of coroutines.  The HTTP server is not code of
    the repository: only its routes are kept. *)
From S2P Require Import Prelude.
From S2P Require Import Promise.
From S2P Require Import Task.
From S2P Require Import Ticker.
From S2P Require Import Coroutine.
From S2P Require Import Profiler.

(** ** The answer *)
Module ProfilerSchema.
Import Profiler.

Record WorkSchema := mkWorkSchema { s_id : Z; s_name : string; s_work_time : list WorkStep; s_begin_at : Z; s_updated_at : Z }.

Record StateSchema := mkStateSchema {
  s_app_info : string;
  s_system_info : string;
  s_profiling_interval : Z;
  s_created_at : Z;
  s_coroutines_count : Z;
  s_work_ground : list WorkSchema;
  s_threads : list Z
}.

(** The copy constructor of [State], and its assignment, which takes its argument by value. *)
Definition copy_state (other : State) : State :=
  mkState (app_info other) (system_info other) (profiling_interval other) (coroutines_count other) (created_at other)
    (work_ground other) (threads other).

Definition assign_state (this other : State) : State :=
  let other := copy_state other in
  mkState (app_info other) (system_info other) (profiling_interval other) (coroutines_count other) (created_at other)
    (work_ground other) (threads other).

Definition work_schema (kw : Z * Work) : WorkSchema :=
  mkWorkSchema kw.1 (name kw.2) (map (λ x, mkStep (w_thread x) (w_begin x) (w_end x)) (work_time kw.2))
    (begin_at kw.2) (updated_at kw.2).

(** [AsyncGetProfilerState], up to the encoding of the answer. *)
Definition AsyncGetProfilerState (p : Profiler.t) : StateSchema :=
  let s := copy_state (GetCurrentState p) in
  mkStateSchema (app_info s) (system_info s) (profiling_interval s) (created_at s) (coroutines_count s)
    (map work_schema (map_to_list (work_ground s))) (threads s).

(** The state a viewer reads from the answer. *)
Definition of_schema (x : StateSchema) : State :=
  mkState (s_app_info x) (s_system_info x) (s_profiling_interval x) (s_coroutines_count x) (s_created_at x)
    (list_to_map (map (λ w, (s_id w, mkWork (s_id w) (s_name w) (s_work_time w) (s_begin_at w) (s_updated_at w)))
       (s_work_ground x))) (s_threads x).

(** The key of a function is its number. *)
Definition keyed (s : State) : Prop := ∀ k w, work_ground s !! k = Some w → id w = k.

Lemma copy_state_same s : copy_state s = s.
Proof. by destruct s. Qed.

Lemma steps_same l : map (λ x, mkStep (w_thread x) (w_begin x) (w_end x)) l = l.
Proof. induction l as [|[] l IH]; cbn; congruence. Qed.

(** The answer says all of the state. *)
Theorem profiler_answer_complete p : keyed (state p) → of_schema (AsyncGetProfilerState p) = state p.
Proof.
  intros Hk. unfold AsyncGetProfilerState, GetCurrentState. rewrite copy_state_same. destruct p as [[a y i c cr g th] es].
  unfold of_schema. cbn in *. f_equal. rewrite map_map.
  rewrite <- (list_to_map_to_list g) at 2. f_equal.
  assert (∀ k w, (k, w) ∈ map_to_list g → id w = k) as Hin by (intros k w Hkw; apply Hk; by apply elem_of_map_to_list).
  revert Hin. induction (map_to_list g) as [|[k w] l IH]; intros Hin; cbn in *; [done|].
  rewrite IH by (intros; apply Hin; by right). rewrite steps_same. f_equal.
  specialize (Hin k w ltac:(left)). destruct w; cbn in *. by subst.
Qed.

Lemma keyed_step_kept now e s : keyed s → keyed (process now e s).
Proof.
  intros Hk. unfold process. destruct (e_type e); try done. destruct (work_ground s !! e_id e) as [w|] eqn:E; [|done].
  intros k w'. cbn. intros [[<- <-]|[_ ?]]%lookup_insert_Some; [|by apply Hk].
  unfold add_step. repeat case_match; cbn; by eapply Hk.
Qed.

Lemma keyed_Update clock p : keyed (state p) → keyed (state (Update clock p)).
Proof.
  rewrite Update_spec. cbn. generalize (rev (events p)), (state p). intros es. revert clock.
  induction es as [|e es IH]; intros clock s Hk; cbn; [done|]. apply IH. by apply keyed_step_kept.
Qed.

Lemma keyed_Reg i nm now p : keyed (state p) → keyed (state (RegAsyncFunction i nm now p)).
Proof.
  intros Hk. unfold RegAsyncFunction. destruct (work_ground (state p) !! i) eqn:E; [done|].
  intros k w. cbn. intros [[<- <-]|[_ ?]]%lookup_insert_Some; [done|by apply Hk].
Qed.
End ProfilerSchema.

(** ** Starting and stopping *)
Module ProfilerService.
Section service.
Context {S : Type} `{FuturesLaws S (unit + Coroutine.exn)}.

(** Where the function of the coroutine is: before its [yield], before a call of [AsyncTick], and
    in [Await] of a tick that is to come. *)
Inductive point := AtYield | AtTick | AtAwait.

Record t := mk {
  profiler : Profiler.t;
  server_host : string;
  server_port : Z;
  routes : list string;
  coroutine : option nat;                    (* the members coroutine and result *)
  result : option nat;
  ticker : Ticker.t;
  coroutines : list (Coroutine.t (X := point));
  tasks : list nat;                          (* posted tasks, by their coroutine *)
  futs : S
}.

Definition make (cpu : string) (clock : Z) : t :=
  mk (Profiler.make cpu) "127.0.0.1" 9002 [] None None (Ticker.make (Timestamp.mkPeriod 1 1) 5 clock) [] [] fut_init.

Definition set_profiler (p : Profiler.t) (s : t) : t :=
  mk p (server_host s) (server_port s) (routes s) (coroutine s) (result s) (ticker s) (coroutines s) (tasks s) (futs s).

Definition SetServerPort (port : Z) (s : t) : t :=
  mk (profiler s) (server_host s) port (routes s) (coroutine s) (result s) (ticker s) (coroutines s) (tasks s) (futs s).

Definition SetServerHost (host : string) (s : t) : t :=
  mk (profiler s) host (server_port s) (routes s) (coroutine s) (result s) (ticker s) (coroutines s) (tasks s) (futs s).

Definition set_created_at (now : Z) (p : Profiler.t) : Profiler.t :=
  let s := Profiler.state p in
  Profiler.mk (Profiler.mkState (Profiler.app_info s) (Profiler.system_info s) (Profiler.profiling_interval s)
    (Profiler.coroutines_count s) now (Profiler.work_ground s) (Profiler.threads s)) (Profiler.events p).

(** [Start]: the route, the coroutine and its first task. *)
Definition Start (now : Z) (s : t) : t :=
  let '(c, fs) := Coroutine.make AtYield None (futs s) in
  let '(r, c, fs) := Coroutine.Async c fs in
  let i := length (coroutines s) in
  mk (set_created_at now (profiler s)) (server_host s) (server_port s) (routes s ++ ["/profiler/state"]%string)
    (Some i) (Some r) (ticker s) (coroutines s ++ [c]) (tasks s ++ [i]) fs.

(** [Stop], and the destructor: [None] while [result->Wait()] blocks. *)
Definition Stop (s : t) : option t :=
  let stopped c := mk (profiler s) (server_host s) (server_port s) (routes s) c (result s) (Ticker.Stop (ticker s))
                     (coroutines s) (tasks s) (futs s) in
  match result s, coroutine s with
  | Some r, Some _ =>
      match fut_state r (futs s) with
      | Some Pending | None => None
      | Some _ => Some (stopped None)
      end
  | _, c => Some (stopped c)
  end.

(** A stretch of [AsyncProfilerLoop]: ticks that are due are answered with [Update] until one is
    scheduled.  [clock] gives the readings of the clock, and [fuel] bounds the ticks that are due. *)
Fixpoint ticks (fuel : nat) (clock : nat → Z) (k : Ticker.t) (p : Profiler.t) :
    option (Coroutine.action point unit * Ticker.t * Profiler.t) :=
  match fuel with
  | O => None
  | Datatypes.S fuel' =>
      match Ticker.AsyncTickDefault 0 (clock 0%nat) (clock 1%nat) (clock 2%nat) k with
      | (Ticker.Resolved true, k') => ticks fuel' (λ n, clock (3 + n)%nat) k' (Profiler.Update (λ n, clock (3 + n)%nat) p)
      | (Ticker.Resolved false, k') => Some (Coroutine.Return tt, k', p)
      | (Ticker.Scheduled _, k') => Some (Coroutine.Suspend AtAwait, k', p)
      end
  end.

Definition AsyncProfilerLoop (fuel : nat) (clock : nat → Z) (x : point) (k : Ticker.t) (p : Profiler.t) :
    option (Coroutine.action point unit * Ticker.t * Profiler.t) :=
  match x with
  | AtYield => Some (Coroutine.Yield tt AtTick, k, p)
  | AtTick => ticks fuel clock k p
  | AtAwait => ticks fuel clock k (Profiler.Update clock p)
  end.

(** A worker executes the first task. *)
Definition worker (fuel : nat) (clock : nat → Z) (s : t) : option t :=
  match tasks s with
  | [] => None
  | i :: ts =>
      c ← coroutines s !! i;
      '(act, k, p) ← AsyncProfilerLoop fuel clock (Coroutine.local c) (ticker s) (profiler s);
      let '(_, c', fs) := Coroutine.execute (λ _, act) default_state c (futs s) in
      Some (mk p (server_host s) (server_port s) (routes s) (coroutine s) (result s) k (<[i := c']> (coroutines s)) ts fs)
  end.

(** A tick that was scheduled: its task resolves the future, and the continuation of [Await]
    posts the coroutine. *)
Definition tick (i : nat) (clock : Z) (s : t) : option t :=
  c ← coroutines s !! i;
  match Coroutine.local c with
  | AtAwait =>
      Some (mk (profiler s) (server_host s) (server_port s) (routes s) (coroutine s) (result s)
              (Ticker.set_last (Timestamp.NowMicro clock) (ticker s)) (coroutines s) (tasks s ++ [i]) (futs s))
  | _ => None
  end.

Inductive op :=
| OStart (now : Z)
| OStop
| OWorker (fuel : nat) (clock : nat → Z)
| OTick (i : nat) (clock : Z)
| OEvent (e : Profiler.Event)
| OReg (i : Z) (nm : string) (now : Z)
| OPort (port : Z)
| OHost (host : string).

Definition add_event (e : Profiler.Event) : Profiler.t → Profiler.t :=
  Profiler.AddEvent (Profiler.e_id e) (Profiler.e_type e) (Profiler.e_thread e) (Profiler.e_begin_ts e) (Profiler.e_end_ts e).

(** [PROFILER_ADD_EVENT]. *)
Definition PROFILER_ADD_EVENT (i : Z) (ty : Profiler.EventType) (fn : string) (th now : Z) (p : Profiler.t) : Profiler.t :=
  if 0 <? i then
    match ty with
    | Profiler.REG_ASYNC_FUNCTION => Profiler.RegAsyncFunction i fn now p
    | _ => Profiler.AddEventNow i ty th now p
    end
  else p.

Definition step (s : t) (o : op) : option t :=
  match o with
  | OStart now => Some (Start now s)
  | OStop => Stop s
  | OWorker fuel clock => worker fuel clock s
  | OTick i clock => tick i clock s
  | OEvent e => Some (set_profiler (add_event e (profiler s)) s)
  | OReg i nm now => Some (set_profiler (Profiler.RegAsyncFunction i nm now (profiler s)) s)
  | OPort port => Some (SetServerPort port s)
  | OHost host => Some (SetServerHost host s)
  end.

Fixpoint run (s : t) (os : list op) : option t :=
  match os with [] => Some s | o :: os' => s' ← step s o; run s' os' end.

Definition added (o : op) : list Profiler.Event := match o with OEvent e => [e] | _ => [] end.

(** ** The loop ends at its first yield *)
Record inv (s : t) (es : list Profiler.Event) : Prop := {
  v_tasks : NoDup (tasks s);
  v_yield i : i ∈ tasks s → ∃ c, coroutines s !! i = Some c ∧ Coroutine.local c = AtYield;
  v_past i c : coroutines s !! i = Some c → Coroutine.local c = AtYield ∨ Coroutine.local c = AtTick;
  v_events : Profiler.events (profiler s) = es;
  v_count : Profiler.coroutines_count (Profiler.state (profiler s)) = 0;
  v_threads : Profiler.threads (Profiler.state (profiler s)) = [];
  v_work k w : Profiler.work_ground (Profiler.state (profiler s)) !! k = Some w → Profiler.work_time w = []
}.

Lemma inv_start_step now s es : inv s es → inv (Start now s) es.
Proof.
  intros [Ht Hy Hp He Hc Hth Hw]. unfold Start. destruct (Coroutine.make AtYield None (futs s)) as [c fs] eqn:Em.
  destruct (Coroutine.Async c fs) as [[r c'] fs'] eqn:Ea.
  assert (Coroutine.local c' = AtYield) as Hl.
  { unfold Coroutine.make in Em. destruct (fut_make (futs s)) as [q fs1]. injection Em as <- <-.
    unfold Coroutine.Async, Coroutine.init_promise in Ea. destruct (fut_replace _ _). by injection Ea as <- <- <-. }
  assert (∀ i, i ∈ tasks s → (i < length (coroutines s))%nat) as Hlt.
  { intros i (x & Hx & _)%Hy. by apply lookup_lt_Some in Hx. }
  split; cbn; try done.
  - apply NoDup_app. split; [done|]. split; [|apply NoDup_singleton].
    intros i Hi ->%list_elem_of_singleton. apply Hlt in Hi. lia.
  - intros i [Hi| ->%list_elem_of_singleton]%elem_of_app.
    + destruct (Hy i Hi) as (x & Hx & ?). exists x. split; [|done]. by apply lookup_app_l_Some.
    + exists c'. by rewrite lookup_app_r, Nat.sub_diag by lia.
  - intros i x [Hx|[_ Hx]]%lookup_app_Some; [by eapply Hp|]. left.
    destruct (i - _)%nat; cbn in Hx; [by injection Hx as <-|done].
Qed.

(** A task finds its coroutine at the yield, and leaves it after it. *)
Lemma worker_yields fuel clock s s' es : inv s es → worker fuel clock s = Some s' →
  ∃ i ts c c' fs, tasks s = i :: ts ∧ coroutines s !! i = Some c ∧ Coroutine.local c' ≠ AtAwait ∧
    (Coroutine.local c' = AtTick ∨ Coroutine.local c' = AtYield) ∧
    s' = mk (profiler s) (server_host s) (server_port s) (routes s) (coroutine s) (result s) (ticker s)
           (<[i := c']> (coroutines s)) ts fs.
Proof.
  intros Hi. unfold worker. destruct (tasks s) as [|i ts] eqn:Et; [done|].
  destruct (v_yield _ _ Hi i) as (c & Hc & Hl); [rewrite Et; left|]. rewrite Hc. cbn. rewrite Hl. cbn.
  destruct (Coroutine.execute _ _ _ _) as [[e c'] fs] eqn:Ee. intros [= <-].
  assert (Coroutine.local c' = AtTick ∨ Coroutine.local c' = AtYield) as Hc'.
  { revert Ee. unfold Coroutine.execute, Coroutine.resume. repeat case_match; intros; simplify_eq; cbn; auto. }
  exists i, ts, c, c', fs. split_and!; try done. by destruct Hc' as [-> | ->].
Qed.

Lemma inv_op s o s' es : inv s es → step s o = Some s' → inv s' (es ++ added o).
Proof.
  intros Hi. destruct o as [now| |fuel clock|i clock|e|i nm now|port|host]; cbn; rewrite ?app_nil_r.
  - intros [= <-]. by apply inv_start_step.
  - unfold Stop. destruct Hi. intros E. repeat case_match; simplify_eq; by split.
  - intros (i & ts & c & c' & fs & Et & Hc & _ & Hc' & ->)%(worker_yields _ _ _ _ _ Hi).
    destruct Hi as [Ht Hy Hp He Hcc Hth Hw]. rewrite Et in Ht, Hy. apply NoDup_cons in Ht as [Hni Ht].
    split; cbn; try done.
    + intros j Hj. destruct (Hy j) as (x & Hx & ?); [by right|]. exists x. split; [|done].
      rewrite list_lookup_insert_ne; [done|]. by intros ->.
    + intros j x [(-> & -> & _)|[_ Hx]]%list_lookup_insert_Some; [tauto|by eapply Hp].
  - unfold tick. destruct (coroutines s !! i) as [c|] eqn:E; [|done]. cbn.
    destruct (v_past _ _ Hi i c E) as [-> | ->]; done.
  - intros [= <-]. destruct Hi as [Ht Hy Hp He Hcc Hth Hw]. split; cbn; try done. rewrite He. by destruct e.
  - intros [= <-]. destruct Hi as [Ht Hy Hp He Hcc Hth Hw]. unfold Profiler.RegAsyncFunction.
    destruct (_ !! i) eqn:E; split; cbn; try done.
    intros k w [[<- <-]|[_ ?]]%lookup_insert_Some; [done|by eapply Hw].
  - intros [= <-]. by destruct Hi; split.
  - intros [= <-]. by destruct Hi; split.
Qed.

Lemma inv_ops os : ∀ s s' es, inv s es → run s os = Some s' → inv s' (es ++ (os ≫= added)).
Proof.
  induction os as [|o os IH]; intros s s' es Hi; cbn; [intros [= <-]; by rewrite app_nil_r|].
  destruct (step s o) as [s1|] eqn:E; [|done]. intros Hr. rewrite app_assoc. eapply IH; [|done]. by eapply inv_op.
Qed.

Lemma inv_make_service cpu clock : inv (make cpu clock) [].
Proof. split; cbn; try done; [constructor|by intros i ?%not_elem_of_nil]. Qed.
End service.
Arguments t : clear implicits.
End ProfilerService.
Import ProfilerService.

(** The loop of the profiler never gets to its first tick: the one task [Start] posts ends at
    the [yield], and nothing resumes the coroutine.  However often the profiler is started and
    stopped and whatever the workers do, no event is taken from the queue, no coroutine or thread is
    counted and no work step is recorded. *)
Theorem profiler_never_updates {S : Type} `{FuturesLaws S (unit + Coroutine.exn)} cpu clock (os : list op) (s : ProfilerService.t S) :
  run (make cpu clock) os = Some s →
  Profiler.events (profiler s) = os ≫= added ∧
  Profiler.coroutines_count (Profiler.state (profiler s)) = 0 ∧ Profiler.threads (Profiler.state (profiler s)) = [] ∧
  ∀ k w, Profiler.work_ground (Profiler.state (profiler s)) !! k = Some w → Profiler.work_time w = [].
Proof. intros Hr. destruct (inv_ops os _ _ _ (inv_make_service cpu clock) Hr). naive_solver. Qed.

Module ProfilerServiceExample.
Definition coroutine_born : Profiler.Event := Profiler.mkEvent 5 Profiler.NEW_COROUTINE 1 10 (-1).

Definition session : list op := [OStart 1; OEvent coroutine_born; OWorker 3 (λ _, 0); OStop].

Definition session_end : ProfilerService.t (MapFutures.t (unit + Coroutine.exn)) :=
  default (make "cpu" 0) (run (make "cpu" 0) session).

Lemma profiler_never_updates_witness :
  Profiler.events (profiler session_end) = [coroutine_born] ∧ coroutine session_end = None ∧
  Profiler.coroutines_count (Profiler.state (profiler session_end)) = 0.
Proof.
  destruct (profiler_never_updates "cpu" 0 session session_end) as (He & Hc & _); [vm_compute; reflexivity|].
  split; [exact He|]. split; [vm_compute; reflexivity|exact Hc].
Defined.

(** [Stop] right after [Start] blocks until a worker has run the task. *)
Example stop_waits :
  step (Start (S := MapFutures.t (unit + Coroutine.exn)) 1 (make "cpu" 0)) OStop = None.
Proof. vm_compute. reflexivity. Qed.
End ProfilerServiceExample.
