(* ===== verification/Kernel.v ===== *)
(** * Dataflow kernels (include/ar/dataflow/kernel.hpp)

    The coroutine [AsyncLoop], the thread that initialises, runs and terminates the kernel, and
    the threads that write to its source ports or subscribe to its sinks are interleaved: a
    step is one access to the state, to the notifier or to the ports.  [OnInit], [OnProcess] and
    [OnDispose], which a derived class defines, are arguments.  Between the call of [OnProcess] and its return
    the other threads go on, so that messages come while it runs; what it does to the ports is
    a function of what they hold when it returns and of its own state, which stands for everything it did before. *)
From S2P Require Import Prelude.
From S2P Require Import Promise.
From S2P Require Import SharedBuffer.
From S2P Require Import DataflowNotifier.
From S2P Require Import Ports.
From S2P Require Import Sink.

Inductive KernelProcessResult := kNEXT | kEND | kERROR.

Inductive KernelState := kREADY | kINITIALIZED | kRUNNING | kTERMINATED.

#[global] Instance KernelState_eq_dec : EqDecision KernelState.
Proof. solve_decision. Defined.

(** ** KernelContext *)
Module KernelContext.

Record t := mk {
  interrupt_callback : option (Z → Z);
  interrupt_callback_opaque : Z;
  error_code : Z;
  resource : Z
}.

Definition make : t := mk None 0 0 0.

Definition SetErrorCode (code : Z) (c : t) : t :=
  mk (interrupt_callback c) (interrupt_callback_opaque c) code (resource c).

Definition SetInterruptCallback (f : option (Z → Z)) (opaque : Z) (c : t) : t :=
  mk f opaque (error_code c) (resource c).

Definition SetResource (r : Z) (c : t) : t :=
  mk (interrupt_callback c) (interrupt_callback_opaque c) (error_code c) r.

Definition GetErrorCode (c : t) : Z := error_code c.

Definition GetResource (c : t) : Z := resource c.

Definition Interrupt (c : t) : Z :=
  match interrupt_callback c with Some f => f (interrupt_callback_opaque c) | None => 0 end.

End KernelContext.

Module Kernel.
Section kernel.
Context {T Q S U : Type} `{SpscQueueLaws T Q} `{FuturesLaws S Z}.

(** The methods of the derived class; [None] is an exception. *)
Record methods := mkMethods {
  OnInit : KernelContext.t * U → option (Z * (KernelContext.t * U));
  OnProcess : KernelContext.t * U → gmap Z (SourcePort.t Q) →
    option (KernelProcessResult * (KernelContext.t * U) * gmap Z (SourcePort.t Q));
  OnDispose : KernelContext.t * U → KernelContext.t * U
}.
Context (user : methods).

(** Who called [OnWaitSinkSubscription]. *)
Inductive caller := FromUpdate | FromUnsubscription.

(** Where the coroutine is. *)
Inductive pc :=
| NoCoroutine                          (* before AsyncInit *)
| AtInit                               (* posted, before OnInit *)
| AtYield                              (* suspended in yield(init_error) *)
| AtResume                             (* before the test of the state after the yield *)
| AtStoreRunning                       (* before state.store(kRUNNING) *)
| AtLoop                               (* before the test of the loop *)
| AtUpdate                             (* OnUpdate: before sink.SubscribersEmpty() *)
| AtWatchAny                           (* before process_notifier.AsyncWatchAny() *)
| InWatchAny (f : nat)                 (* Await on its future *)
| AtEvents (events : Z) (k : nat)      (* before the [k]-th test of the events, from 0 *)
| InProcess (events : Z)               (* OnProcess has been called *)
| AtUnsubscribed                       (* OnSinkUnsubscription *)
| AtWaitFlush (c : caller) (todo : list Z)  (* OnWaitSinkSubscription: Flush, at these ports, Deactivate *)
| AtWatch (c : caller)                 (* before process_notifier.AsyncWatch(...) *)
| InWatch (c : caller) (f : nat)       (* Await on its future *)
| AtActivate (c : caller)              (* OnSinkSubscription *)
| AtFlush (c : caller) (todo : list Z) (* the Flush after it *)
| AtTerminate (todo : list Z)          (* OnTerminate: after Deactivate, in Flush *)
| AtUnsubscribeAll                     (* its UnsubscribeAll *)
| AtEnd                                (* state.store(kTERMINATED), OnDispose *)
| Returned (code : Z).

(** Where the thread that controls the kernel is. *)
Inductive control :=
| Idle
| InRun                                (* Run has found kINITIALIZED *)
| InTerminateAgain                     (* the first load of AsyncTerminate has not found kRUNNING *)
| InTerminate (found : KernelState)    (* AsyncTerminate has loaded the state *)
| InTerminateNotify (found : KernelState).  (* ... and stored kTERMINATED *)

Record t := mk {
  source : Source.t;
  sink : Sink.t;
  ports : gmap Z (SourcePort.t Q);     (* the source ports *)
  sinks : Sink.heap;                   (* the sink ports *)
  process_notifier : DataflowNotifier.t;
  futures : S;
  state : KernelState;
  context : KernelContext.t * U;
  at_ : pc;
  resumed : bool;                      (* the coroutine was posted since its yield *)
  ctl : control;
  owed : list Z;                       (* Notify calls other threads are about to make *)
  terminate_notified : bool;           (* AsyncTerminate of this run has called Notify *)
  thrown : bool;                       (* a promise threw *)
  offered : gmap Z (SourcePort.t Q)    (* the source ports when OnProcess was last called *)
}.

Definition set_pc (p : pc) (s : t) : t :=
  mk (source s) (sink s) (ports s) (sinks s) (process_notifier s) (futures s) (state s) (context s) p
     (resumed s) (ctl s) (owed s) (terminate_notified s) (thrown s) (offered s).

Definition set_state (st : KernelState) (s : t) : t :=
  mk (source s) (sink s) (ports s) (sinks s) (process_notifier s) (futures s) st (context s) (at_ s)
     (resumed s) (ctl s) (owed s) (terminate_notified s) (thrown s) (offered s).

Definition set_ports (h : gmap Z (SourcePort.t Q)) (s : t) : t :=
  mk (source s) (sink s) h (sinks s) (process_notifier s) (futures s) (state s) (context s) (at_ s)
     (resumed s) (ctl s) (owed s) (terminate_notified s) (thrown s) (offered s).

Definition set_sinks (h : Sink.heap) (s : t) : t :=
  mk (source s) (sink s) (ports s) h (process_notifier s) (futures s) (state s) (context s) (at_ s)
     (resumed s) (ctl s) (owed s) (terminate_notified s) (thrown s) (offered s).

Definition set_notifier (n : DataflowNotifier.t) (f : S) (s : t) : t :=
  mk (source s) (sink s) (ports s) (sinks s) n f (state s) (context s) (at_ s)
     (resumed s) (ctl s) (owed s) (terminate_notified s) (thrown s) (offered s).

Definition set_context (c : KernelContext.t * U) (s : t) : t :=
  mk (source s) (sink s) (ports s) (sinks s) (process_notifier s) (futures s) (state s) c (at_ s)
     (resumed s) (ctl s) (owed s) (terminate_notified s) (thrown s) (offered s).

Definition set_resumed (b : bool) (s : t) : t :=
  mk (source s) (sink s) (ports s) (sinks s) (process_notifier s) (futures s) (state s) (context s) (at_ s)
     b (ctl s) (owed s) (terminate_notified s) (thrown s) (offered s).

Definition set_ctl (c : control) (s : t) : t :=
  mk (source s) (sink s) (ports s) (sinks s) (process_notifier s) (futures s) (state s) (context s) (at_ s)
     (resumed s) c (owed s) (terminate_notified s) (thrown s) (offered s).

Definition set_owed (l : list Z) (s : t) : t :=
  mk (source s) (sink s) (ports s) (sinks s) (process_notifier s) (futures s) (state s) (context s) (at_ s)
     (resumed s) (ctl s) l (terminate_notified s) (thrown s) (offered s).

Definition set_terminate_notified (b : bool) (s : t) : t :=
  mk (source s) (sink s) (ports s) (sinks s) (process_notifier s) (futures s) (state s) (context s) (at_ s)
     (resumed s) (ctl s) (owed s) b (thrown s) (offered s).

Definition set_thrown (s : t) : t :=
  mk (source s) (sink s) (ports s) (sinks s) (process_notifier s) (futures s) (state s) (context s) (at_ s)
     (resumed s) (ctl s) (owed s) (terminate_notified s) true (offered s).

Definition set_offered (h : gmap Z (SourcePort.t Q)) (s : t) : t :=
  mk (source s) (sink s) (ports s) (sinks s) (process_notifier s) (futures s) (state s) (context s) (at_ s)
     (resumed s) (ctl s) (owed s) (terminate_notified s) (thrown s) h.

(** [process_notifier.Notify(e)]. *)
Definition notify (e : Z) (s : t) : t :=
  match DataflowNotifier.Notify e (process_notifier s) (futures s) with
  | Some (n, f) => set_notifier n f s
  | None => set_thrown s
  end.

(** ** The coroutine *)

(** The [catch] of [AsyncLoop]. *)
Definition fail (s : t) : t :=
  set_pc (Returned (-1)) (set_context (OnDispose user (context s)) (set_state kTERMINATED s)).

(** After [OnInit]: the coroutine returns its error, or publishes the state and yields. *)
Definition init (u : U) (resource : Z) (s : t) : t :=
  let c := (KernelContext.SetResource resource KernelContext.make, u) in
  match OnInit user c with
  | Some (e, c') =>
      if e =? 0 then set_pc AtYield (set_context c' (set_state kINITIALIZED s))
      else set_pc (Returned e) (set_state kTERMINATED (set_context (OnDispose user c') s))
  | None => fail (set_context c s)
  end.

(** [OnWaitSinkSubscription] returns [kNEXT] to its caller. *)
Definition wait_done (c : caller) : pc := match c with FromUpdate => AtWatchAny | FromUnsubscription => AtLoop end.

(** [OnProcess] returns: any result but [kNEXT] ends the loop. *)
Definition process (events : Z) (s : t) : t :=
  match OnProcess user (context s) (ports s) with
  | Some (res, c, h) =>
      set_pc (match res with kNEXT => AtEvents events 1 | _ => AtEnd end) (set_context c (set_ports h s))
  | None => fail s
  end.

(** [OnTerminate] begins with [source.Deactivate()]. *)
Definition enter_terminate (s : t) : t :=
  set_pc (AtTerminate (Source.ports (source s))) (set_ports (Source.Deactivate (source s) (ports s)) s).

(** The tests of [OnUpdate] on the events, one at a time. *)
Definition test_event (events : Z) (k : nat) (s : t) : t :=
  match k with
  | 0%nat => if DataflowNotifier.HasState events kKERNEL_EVENT_READ_SOURCE
             then set_pc (InProcess events) (set_offered (ports s) s)
             else set_pc (AtEvents events 1) s
  | 1%nat => if DataflowNotifier.HasState events kKERNEL_EVENT_TERMINATE then enter_terminate s
             else set_pc (AtEvents events 2) s
  | 2%nat => if DataflowNotifier.HasState events kKERNEL_EVENT_SINK_SUBSCRIPTION
             then set_pc (AtEvents events 3) (set_ports (Source.Activate (source s) (ports s)) s)
             else set_pc (AtEvents events 3) s
  | _ => if DataflowNotifier.HasState events kKERNEL_EVENT_SINK_UNSUBSCRIPTION then set_pc AtUnsubscribed s
         else set_pc AtLoop s
  end.

(** [Await(future, handler)]: it goes on when the future has its value. *)
Definition await (f : nat) (s : t) (k : Z → t) : option t :=
  match fut_state f (futures s) with Some (Ready v) => Some (k v) | _ => None end.

(** What [OnWaitSinkSubscription] does with the events. *)
Definition wait_events (c : caller) (events : Z) (s : t) : t :=
  if DataflowNotifier.HasState events kKERNEL_EVENT_TERMINATE then enter_terminate s
  else if DataflowNotifier.HasState events kKERNEL_EVENT_SINK_SUBSCRIPTION then set_pc (AtActivate c) s
  else set_pc (wait_done c) s.

(** The turn of [Source::Flush] for the port at [p]. *)
Definition flush_port (p : Z) (s : t) : t := set_ports (alter SourcePort.Flush p (ports s)) s.

(** One step of [AsyncLoop] and of the methods it calls. *)
Definition kernel_step (u : U) (resource : Z) (s : t) : option t :=
  match at_ s with
  | NoCoroutine | Returned _ => None
  | AtInit => Some (init u resource s)
  | AtYield => if resumed s then Some (set_pc AtResume s) else None
  | AtResume => Some (set_pc (if decide (state s = kTERMINATED) then AtEnd else AtStoreRunning) s)
  | AtStoreRunning => Some (set_pc AtLoop (set_state kRUNNING s))
  | AtLoop => Some (set_pc (if decide (state s = kTERMINATED) then AtEnd else AtUpdate) s)
  | AtUpdate => Some (set_pc (if Sink.SubscribersEmpty (sink s) (sinks s) then AtWaitFlush FromUpdate (Source.ports (source s)) else AtWatchAny) s)
  | AtWatchAny =>
      let '(f, n, fs) := DataflowNotifier.AsyncWatchAny (process_notifier s) (futures s) in
      Some (set_pc (InWatchAny f) (set_notifier n fs s))
  | InWatchAny f => await f s (λ v, set_pc (AtEvents v 0) s)
  | AtEvents v k => Some (test_event v k s)
  | InProcess v => Some (process v s)
  | AtUnsubscribed =>
      Some (set_pc (if Sink.SubscribersEmpty (sink s) (sinks s) then AtWaitFlush FromUnsubscription (Source.ports (source s)) else AtLoop) s)
  | AtWaitFlush c (p :: todo) => Some (set_pc (AtWaitFlush c todo) (flush_port p s))
  | AtWaitFlush c [] => Some (set_pc (AtWatch c) (set_ports (Source.Deactivate (source s) (ports s)) s))
  | AtWatch c =>
      let '(f, n, fs) := DataflowNotifier.AsyncWatch
        [kKERNEL_EVENT_SINK_SUBSCRIPTION; kKERNEL_EVENT_TERMINATE] (process_notifier s) (futures s) in
      Some (set_pc (InWatch c f) (set_notifier n fs s))
  | InWatch c f => await f s (λ v, wait_events c v s)
  | AtActivate c =>
      Some (set_pc (AtFlush c (Source.ports (source s))) (set_ports (Source.Activate (source s) (ports s)) s))
  | AtFlush c (p :: todo) => Some (set_pc (AtFlush c todo) (flush_port p s))
  | AtFlush c [] => Some (set_pc (wait_done c) s)
  | AtTerminate (p :: todo) => Some (set_pc (AtTerminate todo) (flush_port p s))
  | AtTerminate [] => Some (set_pc AtUnsubscribeAll s)
  | AtUnsubscribeAll => Some (set_pc AtEnd (set_sinks (Sink.UnsubscribeAll (sink s) (sinks s)) s))
  | AtEnd =>
      let c := OnDispose user (context s) in
      Some (set_pc (Returned (KernelContext.GetErrorCode c.1)) (set_context c (set_state kTERMINATED s)))
  end.

(** ** The controlling thread *)

(** [AsyncInit]: a new coroutine, posted. *)
Definition AsyncInit (s : t) : t :=
  set_terminate_notified false (set_resumed false (set_state kREADY (set_pc AtInit s))).

(** The load and the store of [Run]. *)
Definition run_load (s : t) : t := if decide (state s = kINITIALIZED) then set_ctl InRun s else s.

(** [coroutine && !coroutine->is_completed()], then the store and the post. *)
Definition run_store (s : t) : t :=
  match at_ s with
  | NoCoroutine | Returned _ => set_ctl Idle s
  | _ => set_ctl Idle (set_resumed true (set_state kRUNNING s))
  end.

(** [AsyncTerminate]: the two loads of the state, the store, and [Notify] with what follows it. *)
Definition terminate_load (s : t) : t :=
  set_ctl (if decide (state s = kRUNNING) then InTerminate kRUNNING else InTerminateAgain) s.

Definition terminate_load_again (s : t) : t :=
  set_ctl (InTerminate (if decide (state s = kINITIALIZED) then kINITIALIZED else kTERMINATED)) s.

Definition terminate_store (found : KernelState) (s : t) : t :=
  match found with
  | kRUNNING | kINITIALIZED => set_ctl (InTerminateNotify found) (set_state kTERMINATED s)
  | _ => set_ctl Idle (set_state kTERMINATED s)
  end.

Definition terminate_notify (found : KernelState) (s : t) : t :=
  let s' := set_terminate_notified true (notify kKERNEL_EVENT_TERMINATE s) in
  set_ctl Idle (match found with kINITIALIZED => set_resumed true s' | _ => s' end).

(** ** All the threads *)
Inductive label :=
| LKernel
| LInit
| LRun
| LTerminate
| LControl                              (* the call in progress goes on *)
| LWrite (p : Z) (msg : T)              (* Write on a source port: its push *)
| LSubscribe (nm : string) (user : Z)
| LUnsubscribe (nm : string) (user : Z)
| LNotify (i : nat).                    (* the [i]-th of the Notify calls to come *)

Definition events_of (calls : list notify_call) : list Z := event <$> calls.

Definition step (u : U) (resource : Z) (s : t) (l : label) : option t :=
  match l with
  | LKernel => kernel_step u resource s
  | LInit =>
      match ctl s, at_ s with
      | Idle, (NoCoroutine | Returned _) => Some (AsyncInit s)
      | _, _ => None
      end
  | LRun => match ctl s with Idle => Some (run_load s) | _ => None end
  | LTerminate => match ctl s with Idle => Some (terminate_load s) | _ => None end
  | LControl =>
      match ctl s with
      | Idle => None
      | InRun => Some (run_store s)
      | InTerminateAgain => Some (terminate_load_again s)
      | InTerminate st => Some (terminate_store st s)
      | InTerminateNotify st => Some (terminate_notify st s)
      end
  | LWrite p msg =>
      match ports s !! p with
      | Some x =>
          let '(_, x') := SourcePort.write_push msg x in
          Some (set_owed (owed s ++ events_of (call_if (SourcePort.notifier x) kKERNEL_EVENT_READ_SOURCE))
                 (set_ports (<[p := x']> (ports s)) s))
      | None => None
      end
  | LSubscribe nm user =>
      match Sink.Subscribe nm user (sink s) (sinks s) with
      | inr (h, calls) => Some (set_owed (owed s ++ events_of calls) (set_sinks h s))
      | inl _ => Some s
      end
  | LUnsubscribe nm user =>
      match Sink.Unsubscribe nm user (sink s) (sinks s) with
      | inr (h, calls) => Some (set_owed (owed s ++ events_of calls) (set_sinks h s))
      | inl _ => Some s
      end
  | LNotify i =>
      match owed s !! i with
      | Some e => Some (notify e (set_owed (delete i (owed s)) s))
      | None => None
      end
  end.

Fixpoint run (u : U) (resource : Z) (s : t) (ls : list label) : option t :=
  match ls with
  | [] => Some s
  | l :: ls' => s' ← step u resource s l; run u resource s' ls'
  end.

(** A kernel whose constructor has run and that has its ports. *)
Definition make (src : Source.t) (snk : Sink.t) (ps : gmap Z (SourcePort.t Q)) (hs : Sink.heap) (u : U) : t :=
  let '(n, f) := DataflowNotifier.make fut_init in
  mk src snk ps hs n f kREADY (KernelContext.make, u) NoCoroutine false Idle [] false false ∅.

(** The destructor. *)
Definition destroy (s : t) : t :=
  set_sinks (Sink.DisconnectAll (sink s) (sinks s)) (set_ports (Source.Flush (source s) (ports s)) s).

Inductive reachable (u : U) (resource : Z) (s0 : t) : t → Prop :=
| reach_refl : reachable u resource s0 s0
| reach_step s s' l : reachable u resource s0 s → step u resource s l = Some s' → reachable u resource s0 s'.
End kernel.
End Kernel.
