(* ===== verification/KernelSafety.v ===== *)
(** * A dataflow kernel ends when told to and strands no message

    The invariants of the machine of Kernel.v and the theorems on it. *)
From S2P Require Import Prelude.
From S2P Require Import Promise.
From S2P Require Import SharedBuffer.
From S2P Require Import DataflowNotifier.
From S2P Require Import Ports.
From S2P Require Import Sink.
From S2P Require Import Kernel.

Module KernelSafety.
Import Kernel.

(** ** Events as bits *)
Abbreviation READ := kKERNEL_EVENT_READ_SOURCE.
Abbreviation TERM := kKERNEL_EVENT_TERMINATE.
Abbreviation SUB := kKERNEL_EVENT_SINK_SUBSCRIPTION.
Abbreviation UNSUB := kKERNEL_EVENT_SINK_UNSUBSCRIPTION.
Abbreviation has := DataflowNotifier.HasState.

(** The bit of an event. *)
Definition event_bit (e k : Z) : Prop := e = 2 ^ k ∧ 0 <= k < 8.

Lemma has_bit v e k : event_bit e k → has v e = Z.testbit v k.
Proof.
  intros [-> Hk]. unfold has. rewrite Z.land_comm.
  destruct (Z.testbit v k) eqn:Hb; [apply Z.eqb_eq|apply Z.eqb_neq].
  - apply Z.bits_inj'. intros n Hn. rewrite Z.land_spec, Z.pow2_bits_eqb by lia.
    destruct (Z.eqb_spec k n); [by subst|done].
  - intros E. assert (X : Z.testbit (Z.land (2 ^ k) v) k = Z.testbit (2 ^ k) k) by (by rewrite E).
    rewrite Z.land_spec, Z.pow2_bits_true, Hb in X by lia. done.
Qed.

(** Notifying an event adds its bits and removes none. *)
Lemma has_u8_lor a e x k : event_bit x k → has (u8 (a .| e)) x = has a x || has e x.
Proof.
  intros Hx. rewrite !(has_bit _ x k) by done. destruct Hx as [_ Hk]. unfold uwrap.
  rewrite Z.mod_pow2_bits_low, Z.lor_spec by lia. done.
Qed.

Lemma bit_TERM : event_bit TERM 2. Proof. done. Qed.
Lemma bit_SUB : event_bit SUB 3. Proof. done. Qed.

Section safety.
Context {T Q S U : Type} `{SpscQueueLaws T Q} `{FuturesLaws S Z}.
Context (user : @methods Q U) (u : U) (resource : Z).
Implicit Types s : @t Q S U.

Abbreviation N s := (process_notifier s).

(** The events other threads notify. *)
Definition external (e : Z) : Prop := e = READ ∨ e = SUB ∨ e = UNSUB.

(** A future the coroutine awaits is never broken; while it is pending nothing it waits for
    is left among the events of the notifier. *)
Definition wait_ok (n : DataflowNotifier.t) (fs : S) (p : pc) : Prop :=
  match p with
  | InWatchAny f =>
      match fut_state f fs with
      | Some Pending => DataflowNotifier.promise n = f ∧ DataflowNotifier.notified n = false ∧
          DataflowNotifier.watch_any n = true ∧ DataflowNotifier.notify_state n = 0
      | Some (Ready v) => True
      | _ => False
      end
  | InWatch c f =>
      match fut_state f fs with
      | Some Pending => DataflowNotifier.promise n = f ∧ DataflowNotifier.notified n = false ∧
          DataflowNotifier.watch_any n = false ∧ DataflowNotifier.watch_state n = SUB .| TERM ∧
          has (DataflowNotifier.notify_state n) TERM = false
      | Some (Ready v) => has v TERM || has v SUB = true
      | _ => False
      end
  | _ => True
  end.

(** The coroutine has been posted again after its [yield]. *)
Definition past_yield s : Prop :=
  match at_ s with NoCoroutine | AtInit => False | AtYield => resumed s = true | _ => True end.

Definition past_init s : Prop := match at_ s with NoCoroutine | AtInit => False | _ => True end.

(** What the states found by [Run] and [AsyncTerminate] say of the coroutine. *)
Definition ctl_ok s : Prop :=
  (state s = kRUNNING → past_yield s) ∧ (state s = kINITIALIZED → past_init s) ∧
  match ctl s with
  | Idle => True
  | InRun => past_init s
  | InTerminate kRUNNING | InTerminateNotify kRUNNING => past_yield s
  | InTerminate kINITIALIZED | InTerminateNotify kINITIALIZED => past_init s
  | _ => True
  end.

(** The end has been notified and has not been forgotten. *)
Definition term_pending n (fs : S) (p : pc) : Prop :=
  let ns := has (DataflowNotifier.notify_state n) TERM = true in
  match p with
  | InWatchAny f | InWatch _ f => ∃ v, fut_state f fs = Some (Ready v) ∧ (has v TERM = true ∨ ns)
  | AtEvents v k => ns ∨ ((k ≤ 1)%nat ∧ has v TERM = true)
  | InProcess v => ns ∨ has v TERM = true
  | AtTerminate _ | AtUnsubscribeAll | AtEnd | Returned _ => True
  | _ => ns
  end.

Record inv s : Prop := {
  inv_notifier : DataflowNotifier.inv (N s) (futures s);
  inv_thrown : thrown s = false;
  inv_owed : Forall external (owed s);
  inv_notify_found : match ctl s with InTerminateNotify (kREADY | kTERMINATED) => False | _ => True end;
  inv_wait : wait_ok (N s) (futures s) (at_ s);
  inv_ctl : ctl_ok s;
  inv_term : terminate_notified s = true → past_yield s ∧ term_pending (N s) (futures s) (at_ s)
}.

(** *** [Notify] *)

(** What a notification does to a future: nothing, or it sets the pending one watched. *)
Lemma notify_future e n fs : DataflowNotifier.inv n fs →
  ∃ n' fs', DataflowNotifier.Notify e n fs = Some (n', fs') ∧ DataflowNotifier.inv n' fs' ∧
    DataflowNotifier.notify_state n' = u8 (DataflowNotifier.notify_state n .| e) ∧
    ∀ r st, fut_state r fs = Some st →
      if decide (st = Pending ∧ r = DataflowNotifier.promise n ∧ DataflowNotifier.notified n = false ∧
                 DataflowNotifier.watch_any n || has (DataflowNotifier.watch_state n) e = true)
      then fut_state r fs' = Some (Ready (DataflowNotifier.notify_state n'))
      else fut_state r fs' = Some st ∧
        (st = Pending → r = DataflowNotifier.promise n → DataflowNotifier.promise n' = r ∧
           DataflowNotifier.notified n' = DataflowNotifier.notified n ∧
           DataflowNotifier.watch_any n' = DataflowNotifier.watch_any n ∧
           DataflowNotifier.watch_state n' = DataflowNotifier.watch_state n).
Proof.
  intros Hi. destruct (DataflowNotifier.notify_ok e n fs Hi) as (n' & fs' & E & Hi' & Hp & Ha & Hw & Hs & Ho & Hn).
  exists n', fs'. split; [done|]. split; [done|]. split; [done|]. intros r st Hr.
  case_decide as Hd.
  - destruct Hd as (-> & -> & Hnn & Hm). rewrite Hnn, Hm in Hn. by destruct Hn.
  - destruct (decide (r = DataflowNotifier.promise n)) as [->|Hne].
    + unfold DataflowNotifier.inv in Hi. destruct (DataflowNotifier.notified n) eqn:En.
      * destruct Hn as [Hn ->]. split; [done|]. intros ->. destruct Hi as [v Hv]. congruence.
      * destruct (DataflowNotifier.watch_any n || has (DataflowNotifier.watch_state n) e) eqn:Em.
        -- destruct Hd. rewrite Hi in Hr. by simplify_eq.
        -- destruct Hn as [Hn ->]. by split.
    + split; [by rewrite Ho|]. done.
Qed.

Lemma notify_wait_ok e n fs n' fs' p : external e ∨ e = TERM → DataflowNotifier.inv n fs →
  DataflowNotifier.Notify e n fs = Some (n', fs') → wait_ok n fs p → wait_ok n' fs' p.
Proof.
  intros He Hi E Hw. destruct (notify_future e n fs Hi) as (n1 & f1 & E1 & _ & Hs & Hf).
  rewrite E in E1. simplify_eq. destruct p as [| | | | | | | |f| | | | | |c f| | | | | |]; try done; cbn in *.
  - destruct (fut_state f fs) as [st|] eqn:Er; [|done]. specialize (Hf f st Er). case_decide as Hd.
    + by rewrite Hf.
    + destruct Hf as [-> Hf]. destruct st as [|v|]; [|done|done].
      destruct Hw as (<- & Hn & Ha & _). rewrite Ha in Hd. by destruct Hd.
  - destruct (fut_state f fs) as [st|] eqn:Er; [|done]. specialize (Hf f st Er). case_decide as Hd.
    + rewrite Hf. destruct Hd as (-> & -> & Hn & Hm). destruct Hw as (_ & _ & Ha & Hws & _).
      rewrite Hs. rewrite (has_u8_lor _ _ TERM 2), (has_u8_lor _ _ SUB 3) by (apply bit_TERM || apply bit_SUB).
      rewrite Ha, Hws in Hm. destruct He as [[->|[->| ->]]| ->]; try done; by rewrite !orb_true_r.
    + destruct Hf as [-> Hf]. destruct st as [|v|]; [|done|done].
      destruct Hw as (<- & Hn & Ha & Hws & Ht). destruct (Hf eq_refl eq_refl) as (-> & -> & -> & ->).
      repeat split; try done. rewrite Hs, (has_u8_lor _ _ TERM 2) by apply bit_TERM. rewrite Ht. cbn.
      destruct He as [[->|[->| ->]]| ->]; try done. destruct Hd. by rewrite Ha, Hws.
Qed.

Lemma notify_term e n fs n' fs' p : DataflowNotifier.inv n fs →
  DataflowNotifier.Notify e n fs = Some (n', fs') → term_pending n fs p → term_pending n' fs' p.
Proof.
  intros Hi E Ht. destruct (notify_future e n fs Hi) as (n1 & f1 & E1 & _ & Hs & Hf).
  rewrite E in E1. simplify_eq.
  assert (Hb : has (DataflowNotifier.notify_state n) TERM = true → has (DataflowNotifier.notify_state n1) TERM = true).
  { intros X. rewrite Hs, (has_u8_lor _ _ TERM 2) by apply bit_TERM. by rewrite X. }
  assert (Hr : ∀ f v, fut_state f fs = Some (Ready v) → fut_state f f1 = Some (Ready v)).
  { intros f v X. specialize (Hf f _ X). case_decide as Hd; [by destruct Hd|]. by destruct Hf. }
  destruct p; cbn in *; naive_solver.
Qed.

(** A notification of the end is pending wherever the coroutine is past its start. *)
Lemma notify_term_new n fs n' fs' p : DataflowNotifier.inv n fs → wait_ok n fs p →
  DataflowNotifier.Notify TERM n fs = Some (n', fs') → term_pending n' fs' p.
Proof.
  intros Hi Hw E. destruct (notify_future TERM n fs Hi) as (n1 & f1 & E1 & _ & Hs & Hf).
  rewrite E in E1. simplify_eq.
  assert (Hb : has (DataflowNotifier.notify_state n1) TERM = true).
  { rewrite Hs, (has_u8_lor _ _ TERM 2) by apply bit_TERM. apply orb_true_r. }
  destruct p as [| | | | | | | |f| | | | | |c f| | | | | |]; cbn in *; try done; try (by left).
  - destruct (fut_state f fs) as [st|] eqn:Er; [|done]. specialize (Hf f st Er). case_decide as Hd; [eauto|].
    destruct Hf as [-> _]. destruct st as [|v|]; [|by eauto|done].
    destruct Hw as (<- & Hn & Ha & _). destruct Hd. by rewrite Ha.
  - destruct (fut_state f fs) as [st|] eqn:Er; [|done]. specialize (Hf f st Er). case_decide as Hd; [eauto|].
    destruct Hf as [-> _]. destruct st as [|v|]; [|by eauto|done].
    destruct Hw as (<- & Hn & Ha & Hws & _). destruct Hd. by rewrite Ha, Hws.
Qed.
(** *** The watches *)
Lemma watch_any_ok n fs f n' fs' : DataflowNotifier.inv n fs →
  DataflowNotifier.AsyncWatchAny n fs = (f, n', fs') →
  DataflowNotifier.inv n' fs' ∧ wait_ok n' fs' (InWatchAny f) ∧ DataflowNotifier.notify_state n' = 0 ∧
  fut_state f fs' = Some (if DataflowNotifier.notify_state n =? 0 then Pending
                          else Ready (DataflowNotifier.notify_state n)).
Proof.
  intros Hi E.
  destruct (DataflowNotifier.do_watch_ok DataflowNotifier.Any n fs f n' fs' Hi E) as (Hi' & Hn & Hs & Hm & Hr).
  cbn in Hr. assert (Ha : DataflowNotifier.watch_any n' = true).
  { unfold DataflowNotifier.AsyncWatchAny in E. destruct (fut_replace _ _) as [p f0].
    destruct (_ =? 0); [|destruct (fut_resolved _ _)]; by injection E as _ <- _. }
  split; [done|]. assert (Hf : fut_state f fs' = Some (if DataflowNotifier.notify_state n =? 0 then Pending
                          else Ready (DataflowNotifier.notify_state n))).
  { destruct (DataflowNotifier.notify_state n =? 0); [|by destruct Hr]. subst f.
    unfold DataflowNotifier.inv in Hi'. by rewrite Hn in Hi'. }
  split; [|done]. cbn. rewrite Hf. destruct (DataflowNotifier.notify_state n =? 0); [|done]. by subst f.
Qed.

Lemma watch_ok c n fs f n' fs' : DataflowNotifier.inv n fs →
  DataflowNotifier.AsyncWatch [SUB; TERM] n fs = (f, n', fs') →
  DataflowNotifier.inv n' fs' ∧ wait_ok n' fs' (InWatch c f) ∧
  (has (DataflowNotifier.notify_state n) TERM = true →
     ∃ v, fut_state f fs' = Some (Ready v) ∧ has v TERM = true).
Proof.
  intros Hi E.
  destruct (DataflowNotifier.do_watch_ok (DataflowNotifier.States [SUB; TERM]) n fs f n' fs' Hi E)
    as (Hi' & Hn & Hs & Hm & Hr).
  assert (Ha : DataflowNotifier.watch_any n' = false ∧ DataflowNotifier.watch_state n' = SUB .| TERM).
  { unfold DataflowNotifier.AsyncWatch in E. destruct (fut_replace _ _) as [p f0].
    destruct (_ =? 0); [|destruct (fut_resolved _ _)]; by injection E as _ <- _. }
  split; [done|]. unfold DataflowNotifier.pending_events in Hr. cbn [fold_left] in Hr.
  assert (X : ∀ a b : bool, ((let r := if a then 0 .| SUB else 0 in if b then r .| TERM else r) =? 0) = negb (a || b))
    by (by intros [] []). cbn zeta in X. rewrite X in Hr. clear X.
  destruct (has (DataflowNotifier.notify_state n) SUB), (has (DataflowNotifier.notify_state n) TERM);
    cbn [negb orb] in Hr; unfold wait_ok; try (apply proj2 in Hr; rewrite Hr; split; [done|]; intros X; first [discriminate X|by eexists]).
  subst f. unfold DataflowNotifier.inv in Hi'. rewrite Hn in Hi'. rewrite Hi'.
  destruct Ha as [Ha Hw]. split; [|done]. by rewrite Hs.
Qed.

(** *** Steps of the coroutine *)
Definition past (p : pc) : Prop := match p with NoCoroutine | AtInit | AtYield => False | _ => True end.

(** A step to a place after the yield that leaves the notifier alone. *)
Lemma inv_move s s' : inv s → N s' = N s → futures s' = futures s → thrown s' = thrown s → owed s' = owed s →
  ctl s' = ctl s → terminate_notified s' = terminate_notified s → past (at_ s') →
  wait_ok (N s) (futures s) (at_ s') →
  (terminate_notified s = true → term_pending (N s) (futures s) (at_ s')) → inv s'.
Proof.
  intros [] En Ef Eth Eo Ec Et Hp Hw Ht. split; rewrite ?En, ?Ef, ?Eth, ?Eo, ?Ec, ?Et; try done.
  - unfold ctl_ok, past_yield, past_init. destruct (at_ s'); try done; rewrite Ec;
      destruct (ctl s) as [| | |[]|[]]; done.
  - intros X. split; [|by apply Ht]. unfold past_yield. by destruct (at_ s').
Qed.

Lemma inv_watched s p n fs : inv s → past p → DataflowNotifier.inv n fs → wait_ok n fs p →
  (terminate_notified s = true → term_pending n fs p) → inv (set_pc p (set_notifier n fs s)).
Proof.
  intros [] Hp Hi Hw Ht. split; cbn; try done.
  - unfold ctl_ok, past_yield, past_init. cbn. destruct p; try done; destruct (ctl s) as [| | |[]|[]]; done.
  - intros X. split; [|by apply Ht]. unfold past_yield. cbn. by destruct p.
Qed.

Lemma inv_init s : inv s → at_ s = AtInit → inv (init user u resource s).
Proof.
  intros Hi Ea. pose proof (inv_ctl s Hi) as Hc. pose proof (inv_term s Hi) as Ht.
  unfold ctl_ok, past_yield, past_init in Hc, Ht. rewrite Ea in Hc, Ht.
  assert (Hnt : terminate_notified s = true → False) by (intros X; by destruct (Ht X)).
  unfold init, fail. destruct (OnInit user _) as [[e c']|].
  - destruct (e =? 0).
    + destruct Hi. split; cbn; try done. destruct Hc as (Hc1 & Hc2 & Hc3). unfold ctl_ok, past_yield, past_init. cbn.
      destruct (ctl s) as [| | |[]|[]]; done.
    + eapply inv_move; [exact Hi|done..].
  - eapply inv_move; [exact Hi|done..].
Qed.

Lemma inv_kernel_step s s' : inv s → kernel_step user u resource s = Some s' → inv s'.
Proof.
  intros Hi E. pose proof (inv_wait s Hi) as Hw. pose proof (inv_term s Hi) as Ht. unfold kernel_step in E.
  destruct (at_ s) as [| | | | | | | |f|v k|v| |c todo|c|c f|c|c todo|todo| | |code] eqn:Ea; cbn in Ht, Hw.
  - done.
  - simplify_eq. by apply inv_init.
  - destruct (resumed s); simplify_eq. eapply inv_move; [exact Hi|done..|]. cbn. naive_solver.
  - simplify_eq. eapply inv_move; [exact Hi|done..| | |]; cbn; case_decide; done || naive_solver.
  - simplify_eq. eapply inv_move; [exact Hi|done..|]. cbn. naive_solver.
  - simplify_eq. eapply inv_move; [exact Hi|done..| | |]; cbn; case_decide; done || naive_solver.
  - simplify_eq. eapply inv_move; [exact Hi|done..| | |]; cbn; destruct (Sink.SubscribersEmpty _ _); done || naive_solver.
  - destruct (DataflowNotifier.AsyncWatchAny _ _) as [[f n] fs] eqn:Ew. simplify_eq.
    destruct (watch_any_ok _ _ _ _ _ (inv_notifier s Hi) Ew) as (Hi' & Hw' & Hs & Hf).
    apply inv_watched; [done..|]. intros X. destruct (Ht X) as [_ Hns]. cbn.
    destruct (Z.eqb_spec (DataflowNotifier.notify_state (N s)) 0) as [E0|]; [by rewrite E0 in Hns|]. eauto.
  - unfold await in E. destruct (fut_state f (futures s)) as [[|v|]|] eqn:Ef; simplify_eq.
    eapply inv_move; [exact Hi|done..|]. cbn. intros X. destruct (Ht X) as [_ (v' & Hv & Hor)]. simplify_eq.
    destruct Hor; [right; split; [lia|done]|by left].
  - simplify_eq. assert (Ht' : terminate_notified s = true → has (DataflowNotifier.notify_state (N s)) TERM = true ∨
      (k ≤ 1)%nat ∧ has v TERM = true) by (intros X; by destruct (Ht X)).
    unfold test_event, enter_terminate. destruct k as [|[|[|k]]].
    + destruct (has v READ); (eapply inv_move; [exact Hi|done..|]); cbn; naive_solver lia.
    + destruct (has v TERM) eqn:Ev; (eapply inv_move; [exact Hi|done..|]); cbn; [done|]. naive_solver.
    + destruct (has v SUB); (eapply inv_move; [exact Hi|done..|]); cbn; naive_solver lia.
    + destruct (has v UNSUB); (eapply inv_move; [exact Hi|done..|]); cbn; naive_solver lia.
  - simplify_eq. assert (Ht' : terminate_notified s = true → has (DataflowNotifier.notify_state (N s)) TERM = true ∨
      has v TERM = true) by (intros X; by destruct (Ht X)).
    unfold process, fail. destruct (OnProcess user _ _) as [[[[] c] h]|]; (eapply inv_move; [exact Hi|done..|]); cbn; naive_solver lia.
  - simplify_eq. eapply inv_move; [exact Hi|done..| | |]; cbn; destruct (Sink.SubscribersEmpty _ _); done || naive_solver.
  - destruct todo as [|p todo]; simplify_eq; (eapply inv_move; [exact Hi|done..|]); cbn; naive_solver.
  - destruct (DataflowNotifier.AsyncWatch _ _ _) as [[f n] fs] eqn:Ew. simplify_eq.
    destruct (watch_ok c _ _ _ _ _ (inv_notifier s Hi) Ew) as (Hi' & Hw' & Hf).
    apply inv_watched; [done..|]. intros X. destruct (Ht X) as [_ Hns]. cbn. naive_solver.
  - unfold await in E. destruct (fut_state f (futures s)) as [[|v|]|] eqn:Ef; simplify_eq. unfold wait_events, enter_terminate.
    destruct (has v TERM) eqn:Ev; [eapply inv_move; [exact Hi|done..]|]. cbn in Hw. rewrite Hw.
    eapply inv_move; [exact Hi|done..|]. cbn. intros X. destruct (Ht X) as [_ (v' & Hv & Hor)].
    simplify_eq. destruct Hor; [congruence|done].
  - simplify_eq. eapply inv_move; [exact Hi|done..|]. cbn. naive_solver.
  - destruct todo as [|p todo]; simplify_eq.
    + destruct c; (eapply inv_move; [exact Hi|done..|]); cbn; naive_solver.
    + eapply inv_move; [exact Hi|done..|]. cbn. naive_solver.
  - destruct todo as [|p todo]; simplify_eq; (eapply inv_move; [exact Hi|done..]).
  - simplify_eq. eapply inv_move; [exact Hi|done..].
  - simplify_eq. eapply inv_move; [exact Hi|done..].
  - done.
Qed.
(** *** Steps of the other threads *)
Lemma notify_eq e s : inv s →
  ∃ n fs, notify e s = set_notifier n fs s ∧ DataflowNotifier.Notify e (N s) (futures s) = Some (n, fs) ∧
    DataflowNotifier.inv n fs ∧ DataflowNotifier.notify_state n = u8 (DataflowNotifier.notify_state (N s) .| e).
Proof.
  intros Hi. destruct (notify_future e (N s) (futures s) (inv_notifier s Hi)) as (n & fs & E & Hn & Hs & _).
  exists n, fs. unfold notify. by rewrite E.
Qed.

Lemma inv_notify e s : external e ∨ e = TERM → inv s → inv (notify e s).
Proof.
  intros He Hi. destruct (notify_eq e s Hi) as (n & fs & -> & E & Hn & _).
  pose proof Hi as []. split; cbn; try done.
  - by eapply notify_wait_ok.
  - intros X. destruct (inv_term0 X) as [Hp Ht]. split; [done|]. by eapply notify_term.
Qed.

Lemma inv_control_step s s' : inv s → step user u resource s LControl = Some s' → inv s'.
Proof.
  intros Hi E. cbn in E. pose proof (inv_ctl s Hi) as (Hc1 & Hc2 & Hc3). pose proof (inv_notify_found s Hi) as Hnf.
  destruct (ctl s) as [| | |st|st] eqn:Ec; simplify_eq.
  - pose proof Hi as []. unfold run_store. unfold past_init in Hc3.
    destruct (at_ s) eqn:Ea; split; cbn; rewrite ?Ea; try done;
      unfold ctl_ok, past_yield, past_init in *; cbn in *; rewrite ?Ea in *; try done; naive_solver.
  - pose proof Hi as []. unfold terminate_load_again. split; cbn; try done.
    unfold ctl_ok, past_yield, past_init in *; cbn. split; [exact Hc1|]. split; [exact Hc2|]. case_decide; [by apply Hc2|done].
  - pose proof Hi as []. unfold terminate_store.
    destruct st; (split; cbn; [done..| |done]); unfold ctl_ok, past_yield, past_init in *; cbn; done.
  - unfold terminate_notify. assert (Hin : inv (notify TERM s)) by (apply inv_notify; [by right|done]).
    destruct (notify_eq TERM s Hi) as (n & fs & Eq & En & Hn & _).
    assert (Hpend : term_pending n fs (at_ s)).
    { eapply notify_term_new; [apply Hi|apply Hi|done]. }
    rewrite Eq in *. destruct Hin. unfold ctl_ok, past_yield, past_init in *.
    destruct st; [done| | |done]; split; cbn in *; try done; unfold ctl_ok, past_yield, past_init; cbn;
      destruct (at_ s); naive_solver.
Qed.

(** A change of the ports, the sinks and the calls to come. *)
Lemma inv_ports s s' : inv s → N s' = N s → futures s' = futures s → thrown s' = thrown s →
  state s' = state s → at_ s' = at_ s → resumed s' = resumed s → ctl s' = ctl s →
  terminate_notified s' = terminate_notified s → Forall external (owed s') → inv s'.
Proof.
  intros [] E1 E2 E3 E4 E5 E6 E7 E8 Ho.
  split; unfold ctl_ok, past_yield, past_init in *; rewrite ?E1, ?E2, ?E3, ?E4, ?E5, ?E6, ?E7, ?E8; done.
Qed.

Lemma events_external n e : external e → Forall external (events_of (call_if n e)).
Proof. intros He. destruct n; cbn; [by apply Forall_singleton|by apply Forall_nil]. Qed.

Lemma subscribe_external nm usr k h h' calls :
  (Sink.Subscribe nm usr k h = inr (h', calls) ∨ Sink.Unsubscribe nm usr k h = inr (h', calls)) →
  Forall external (events_of calls).
Proof.
  assert (Hs : external SUB) by (right; by left). assert (Hu : external UNSUB) by (right; by right).
  unfold Sink.Subscribe, Sink.Unsubscribe, Sink.on_port.
  intros [E|E]; destruct (Sink.At nm k) as [|p]; simplify_eq; destruct (h !! p) as [x|]; cbn in E;
    simplify_eq; try constructor.
  - by apply events_external.
  - destruct (negb _); [by apply events_external|constructor].
Qed.

Lemma inv_step_kernel s l s' : inv s → step user u resource s l = Some s' → inv s'.
Proof.
  intros Hi E. pose proof (inv_owed s Hi) as Ho. pose proof (inv_ctl s Hi) as (Hc1 & Hc2 & Hc3).
  destruct l as [| | | | |p msg|nm usr|nm usr|i].
  - by eapply inv_kernel_step.
  - cbn in E. destruct (ctl s) eqn:Ec; [|done..].
    destruct (at_ s); simplify_eq; destruct Hi; (split; cbn; rewrite ?Ec; try done); unfold ctl_ok; cbn; by rewrite Ec.
  - cbn in E. destruct (ctl s) eqn:Ec; simplify_eq. unfold run_load. case_decide as Hd; [|done]. destruct Hi; split; cbn; try done.
    unfold ctl_ok, past_yield, past_init in *; cbn. exact (conj Hc1 (conj Hc2 (Hc2 Hd))).
  - cbn in E. destruct (ctl s) eqn:Ec; simplify_eq. unfold terminate_load. destruct Hi; split; cbn; try done.
    + by case_decide.
    + unfold ctl_ok, past_yield, past_init in *; cbn. split; [exact Hc1|]. split; [exact Hc2|]. case_decide; [by apply Hc1|done].
  - by eapply inv_control_step.
  - cbn in E. destruct (ports s !! p) as [x|]; [|done]. destruct (SourcePort.write_push msg x) as [e x']. simplify_eq.
    eapply inv_ports; [exact Hi|done..|]. apply Forall_app. split; [done|]. apply events_external. by left.
  - cbn in E. destruct (Sink.Subscribe nm usr (sink s) (sinks s)) as [|[h calls]] eqn:Es; simplify_eq; [done|].
    eapply inv_ports; [exact Hi|done..|]. apply Forall_app. split; [done|]. eapply subscribe_external; eauto.
  - cbn in E. destruct (Sink.Unsubscribe nm usr (sink s) (sinks s)) as [|[h calls]] eqn:Es; simplify_eq; [done|].
    eapply inv_ports; [exact Hi|done..|]. apply Forall_app. split; [done|]. eapply subscribe_external; eauto.
  - cbn in E. destruct (owed s !! i) as [e|] eqn:Ee; [|done]. simplify_eq. apply inv_notify.
    + left. eapply Forall_lookup_1; eauto.
    + eapply inv_ports; [exact Hi|done..|]. by apply Forall_delete.
Qed.

Lemma inv_make_kernel src snk ps hs : inv (make src snk ps hs u).
Proof.
  unfold make. pose proof (DataflowNotifier.notifier_make_inv fut_init) as Hn.
  destruct (DataflowNotifier.make fut_init) as [n f]. by split; cbn.
Qed.

Lemma inv_reachable src snk ps hs s : reachable user u resource (make src snk ps hs u) s → inv s.
Proof. induction 1; [apply inv_make_kernel|by eapply inv_step_kernel]. Qed.
(** ** Termination *)

(** How far the coroutine is from its return, once the end is notified: the flushes are as
    long as there are source ports, and a value in hand without the end costs another turn. *)
Definition rank s : nat :=
  let m := length (Source.ports (source s)) in
  let x := (19 + 3 * m)%nat in
  let without f := match fut_state f (futures s) with Some (Ready v) => negb (has v TERM) | _ => true end in
  match at_ s with
  | Returned _ => 0
  | AtEnd => 1
  | AtUnsubscribeAll => 2
  | AtTerminate todo => 3 + length todo
  | InWatch FromUnsubscription f => if without f then x + 2 + m else 4 + m
  | AtWatch FromUnsubscription => 5 + m
  | AtWaitFlush FromUnsubscription todo => 6 + m + length todo
  | AtEvents v 0 => if has v TERM then 9 + m else x + 8 + m
  | InProcess v => if has v TERM then 8 + m else x + 7 + m
  | AtEvents v k => if decide (k = 1 ∧ has v TERM = true)%nat then 7 + m else x + 7 + m - Nat.min k 3
  | InWatchAny f => if without f then x + 9 + m else 10 + m
  | AtWatchAny => 11 + m
  | AtFlush FromUpdate todo => 12 + m + length todo
  | AtActivate FromUpdate => 13 + 2 * m
  | InWatch FromUpdate _ => 14 + 2 * m
  | AtWatch FromUpdate => 15 + 2 * m
  | AtWaitFlush FromUpdate todo => 16 + 2 * m + length todo
  | AtUpdate => 17 + 3 * m
  | AtLoop => 18 + 3 * m
  | AtStoreRunning => 19 + 3 * m
  | AtResume => 20 + 3 * m
  | AtYield | AtInit | NoCoroutine => 21 + 3 * m
  | AtFlush FromUnsubscription todo => x + length todo
  | AtActivate FromUnsubscription => x + 1 + m
  | AtUnsubscribed => x + 3 + m
  end%nat.

(** The flush under way is over ports of the source. *)
Definition todo_ok s : Prop :=
  match at_ s with
  | AtTerminate todo | AtWaitFlush _ todo | AtFlush _ todo => (length todo ≤ length (Source.ports (source s)))%nat
  | _ => True
  end.

Lemma todo_kernel_step s s' : todo_ok s → kernel_step user u resource s = Some s' → todo_ok s'.
Proof.
  unfold todo_ok, kernel_step, init, fail, test_event, process, wait_events, enter_terminate, await, flush_port, fail.
  intros Ht E. destruct (at_ s) as [| | | | | | | |f|v k|v| |c todo|c|c f|c|c todo|todo| | |code] eqn:Ea;
    repeat first [progress simplify_eq|progress case_decide|case_match]; cbn in *; simplify_eq; try done; try lia;
    match goal with X : context [wait_done ?c] |- _ => by destruct c end.
Qed.

Lemma rank_bound s : todo_ok s → (rank s ≤ 30 + 4 * length (Source.ports (source s)))%nat.
Proof.
  unfold todo_ok, rank. intros Ht. destruct (at_ s) as [| | | | | | | |f|v k|v| |c todo|c|c f|c|c todo|todo| | |code];
    try destruct c; repeat case_match; lia.
Qed.
Lemma rank_kernel_step s s' : inv s → todo_ok s → terminate_notified s = true →
  kernel_step user u resource s = Some s' → (rank s' < rank s)%nat.
Proof.
  intros Hi Htd Htn E. destruct (inv_term s Hi Htn) as [Hy Hp].
  pose proof (inv_notifier s Hi) as Hn. pose proof (inv_wait s Hi) as Hw.
  unfold kernel_step, todo_ok, past_yield in *. unfold rank at 2.
  destruct (at_ s) as [| | | | | | | |f|v k|v| |c todo|c|c f|c|c todo|todo| | |code] eqn:Ea; cbn in Hp, Hw; try done.
  - destruct (resumed s); simplify_eq. unfold rank. cbn. lia.
  - simplify_eq. unfold rank. cbn. case_decide; lia.
  - simplify_eq. unfold rank. cbn. lia.
  - simplify_eq. unfold rank. cbn. case_decide; lia.
  - simplify_eq. unfold rank. cbn. destruct (Sink.SubscribersEmpty _ _); lia.
  - destruct (DataflowNotifier.AsyncWatchAny _ _) as [[f n] fs] eqn:Ew. simplify_eq.
    destruct (watch_any_ok _ _ _ _ _ Hn Ew) as (_ & _ & _ & Hf). unfold rank. cbn. rewrite Hf.
    destruct (Z.eqb_spec (DataflowNotifier.notify_state (N s)) 0) as [E0|]; [by rewrite E0 in Hp|].
    rewrite Hp. cbn. lia.
  - unfold await in E. destruct (fut_state f (futures s)) as [[|v|]|] eqn:Ef; simplify_eq. unfold rank. cbn.
    destruct (has v TERM) eqn:Ev; cbn; lia.
  - simplify_eq. unfold test_event, enter_terminate. destruct k as [|[|[|k]]]; cbn.
    + destruct (has v READ); unfold rank; cbn; destruct (has v TERM); repeat case_decide; try lia; naive_solver lia.
    + destruct (has v TERM) eqn:Ev; unfold rank; cbn; repeat case_decide; try lia; naive_solver lia.
    + destruct (has v SUB); unfold rank; cbn; repeat case_decide; naive_solver lia.
    + destruct (has v UNSUB); unfold rank; cbn; repeat case_decide; naive_solver lia.
  - simplify_eq. unfold process, fail. destruct (OnProcess user _ _) as [[[[] c] h]|]; unfold rank; cbn;
      destruct (has v TERM); repeat case_decide; try lia; naive_solver lia.
  - simplify_eq. unfold rank. cbn. destruct (Sink.SubscribersEmpty _ _); lia.
  - destruct todo as [|p todo]; simplify_eq; unfold rank; cbn; destruct c; cbn in *; lia.
  - destruct (DataflowNotifier.AsyncWatch _ _ _) as [[f n] fs] eqn:Ew. simplify_eq.
    destruct (watch_ok c _ _ _ _ _ Hn Ew) as (_ & _ & Hf). destruct (Hf Hp) as (v & Hv & Ht).
    unfold rank. cbn. rewrite Hv, Ht. destruct c; cbn; lia.
  - unfold await in E. destruct (fut_state f (futures s)) as [[|v|]|] eqn:Ef; simplify_eq.
    unfold wait_events, enter_terminate. destruct (has v TERM) eqn:Ev; [unfold rank; cbn; destruct c; lia|].
    cbn in Hw. rewrite Hw. unfold rank. cbn. destruct c; cbn; lia.
  - simplify_eq. unfold rank. cbn. destruct c; lia.
  - destruct todo as [|p todo]; simplify_eq; unfold rank; cbn; destruct c; cbn in *; lia.
  - destruct todo as [|p todo]; simplify_eq; unfold rank; cbn; lia.
  - simplify_eq. unfold rank. cbn. lia.
  - simplify_eq. unfold rank. cbn. lia.
Qed.

(** Once the end is notified the coroutine is never blocked. *)
Lemma kernel_not_blocked s : inv s → terminate_notified s = true →
  (∃ code, at_ s = Returned code) ∨ is_Some (kernel_step user u resource s).
Proof.
  intros Hi Htn. destruct (inv_term s Hi Htn) as [Hy Hp]. unfold kernel_step, past_yield in *.
  destruct (at_ s) as [| | | | | | | |f|v k|v| |c todo|c|c f|c|c todo|todo| | |code] eqn:Ea; cbn in Hp; eauto;
    try done; right.
  - rewrite Hy. eauto.
  - destruct (DataflowNotifier.AsyncWatchAny _ _) as [[f n] fs]. eauto.
  - destruct Hp as (v & Hv & _). unfold await. rewrite Hv. eauto.
  - destruct todo; eauto.
  - destruct (DataflowNotifier.AsyncWatch _ _ _) as [[f n] fs]. eauto.
  - destruct Hp as (v & Hv & _). unfold await. rewrite Hv. eauto.
  - destruct todo; eauto.
  - destruct todo; eauto.
Qed.

(** The other threads do not move the coroutine. *)
Definition frame s s' : Prop :=
  at_ s' = at_ s ∧ source s' = source s ∧ terminate_notified s' = true ∧
  ∀ f v, fut_state f (futures s) = Some (Ready v) → fut_state f (futures s') = Some (Ready v).

Lemma notify_frame e s : inv s → terminate_notified s = true → frame s (notify e s).
Proof.
  intros Hi Htn. destruct (notify_eq e s Hi) as (n & fs & -> & E & _ & _). split; [done|]. split; [done|].
  split; [done|]. intros f v Hv. cbn.
  destruct (notify_future e (N s) (futures s) (inv_notifier s Hi)) as (n1 & f1 & E1 & _ & _ & Hf).
  rewrite E in E1. simplify_eq. specialize (Hf f _ Hv). case_decide as Hd; [by destruct Hd|]. by destruct Hf.
Qed.

Lemma step_frame s l s' : inv s → terminate_notified s = true → l ≠ LKernel → l ≠ LInit →
  step user u resource s l = Some s' → frame s s'.
Proof.
  intros Hi Htn Hk Hl E. destruct l as [| | | | |p msg|nm usr|nm usr|i]; try done; cbn in E.
  - destruct (ctl s); simplify_eq. unfold run_load. by case_decide.
  - destruct (ctl s); simplify_eq. done.
  - destruct (ctl s) as [| | |st|st]; simplify_eq.
    + unfold run_store. by destruct (at_ s) eqn:Ea; rewrite <- ?Ea.
    + done.
    + by destruct st.
    + destruct (notify_frame TERM s Hi Htn) as (H1' & H2' & H3' & H4').
      unfold terminate_notify. destruct st; by repeat split.
  - destruct (ports s !! p) as [x|]; [|done]. destruct (SourcePort.write_push msg x). by simplify_eq.
  - destruct (Sink.Subscribe nm usr (sink s) (sinks s)) as [|[h calls]]; by simplify_eq.
  - destruct (Sink.Unsubscribe nm usr (sink s) (sinks s)) as [|[h calls]]; by simplify_eq.
  - destruct (owed s !! i) as [e|]; [|done]. simplify_eq.
    assert (Hi' : inv (set_owed (delete i (owed s)) s)).
    { eapply inv_ports; [exact Hi|done..|]. apply Forall_delete, Hi. }
    destruct (notify_frame e _ Hi' Htn) as (H1' & H2' & H3' & H4'). by repeat split.
Qed.

Lemma rank_frame s s' : inv s → terminate_notified s = true → frame s s' → rank s' = rank s ∧ (todo_ok s → todo_ok s').
Proof.
  intros Hi Htn (Ha & Hs & _ & Hf). destruct (inv_term s Hi Htn) as [_ Hp].
  unfold rank, todo_ok. rewrite Ha, Hs. split; [|done].
  destruct (at_ s) as [| | | | | | | |f|v k|v| |c todo|c|c f|c|c todo|todo| | |code]; try done; cbn in Hp;
    destruct Hp as (v & Hv & _); by rewrite Hv, (Hf f v Hv).
Qed.
Lemma todo_step s l s' : todo_ok s → step user u resource s l = Some s' → todo_ok s'.
Proof.
  assert (Hn : ∀ e s, at_ (notify e s) = at_ s ∧ source (notify e s) = source s).
  { intros e s0. unfold notify. by destruct (DataflowNotifier.Notify _ _ _) as [[]|]. }
  assert (Hk : ∀ s s', at_ s' = at_ s → source s' = source s → todo_ok s → todo_ok s').
  { unfold todo_ok. by intros s0 s1 -> ->. }
  intros Ht E. destruct l as [| | | | |p msg|nm usr|nm usr|i]; cbn in E.
  - by eapply todo_kernel_step.
  - destruct (ctl s); [|done..]. destruct (at_ s); by simplify_eq.
  - destruct (ctl s); simplify_eq. unfold run_load. by case_decide.
  - destruct (ctl s); by simplify_eq.
  - destruct (ctl s) as [| | |st|st]; simplify_eq.
    + apply (Hk s); [| |done]; unfold run_store; by destruct (at_ s) eqn:Ea; rewrite <- ?Ea.
    + done.
    + by destruct st.
    + apply (Hk (notify TERM s)); [by destruct st|by destruct st|]. by apply (Hk s); [apply Hn|apply Hn|].
  - destruct (ports s !! p) as [x|]; [|done]. destruct (SourcePort.write_push msg x). by simplify_eq.
  - destruct (Sink.Subscribe nm usr (sink s) (sinks s)) as [|[h calls]]; by simplify_eq.
  - destruct (Sink.Unsubscribe nm usr (sink s) (sinks s)) as [|[h calls]]; by simplify_eq.
  - destruct (owed s !! i) as [e|]; [|done]. simplify_eq. destruct (Hn e (set_owed (delete i (owed s)) s)) as [Ha Hs].
    by apply (Hk s); [rewrite Ha|rewrite Hs|].
Qed.

Lemma todo_reachable src snk ps hs s : reachable user u resource (make src snk ps hs u) s → todo_ok s.
Proof.
  induction 1; [|by eapply todo_step]. unfold make. by destruct (DataflowNotifier.make fut_init).
Qed.

(** The steps of the coroutine among those of all threads. *)
Fixpoint kernel_steps (ls : list (@label T)) : nat :=
  match ls with
  | [] => 0
  | LKernel :: ls' => Datatypes.S (kernel_steps ls')
  | _ :: ls' => kernel_steps ls'
  end.

Lemma run_rank ls : ∀ s s', inv s → todo_ok s → terminate_notified s = true →
  run user u resource s ls = Some s' → Forall (λ l, l ≠ LInit) ls →
  inv s' ∧ terminate_notified s' = true ∧ (kernel_steps ls + rank s' ≤ rank s)%nat.
Proof.
  induction ls as [|l ls IH]; intros s s' Hi Htd Htn E Hl; cbn in E; [by simplify_eq|].
  apply Forall_cons in Hl as [Hl Hls].
  destruct (step user u resource s l) as [s1|] eqn:E1; cbn in E; [|done].
  assert (Hi1 : inv s1) by (by eapply inv_step_kernel). assert (Htd1 : todo_ok s1) by (by eapply todo_step).
  assert (X : terminate_notified s1 = true ∧ (kernel_steps [l] + rank s1 ≤ rank s)%nat).
  { assert (l = LKernel ∨ l ≠ LKernel) as [->|Hnk] by (destruct l; by (left + right)).
    - split; [|cbn; pose proof (rank_kernel_step s s1 Hi Htd Htn E1); lia].
      cbn in E1. unfold kernel_step, await, init, fail, test_event, process, wait_events, enter_terminate, fail in E1.
      repeat case_match; by simplify_eq.
    - pose proof (step_frame s l s1 Hi Htn Hnk Hl E1) as Hf. split; [apply Hf|].
      rewrite (proj1 (rank_frame s s1 Hi Htn Hf)). by destruct l. }
  destruct X as [Htn1 Hr]. destruct (IH s1 s' Hi1 Htd1 Htn1 E Hls) as (Hi' & Ht' & Hr').
  split; [done|]. split; [done|]. destruct l; cbn in *; lia.
Qed.

(** C14: [AsyncTerminate] ends a kernel.  From the moment it has notified the kernel, the
    coroutine makes at most 30 + 4m steps more, m the number of its source ports, whatever
    the other threads do; and until it has returned it is never blocked, neither in the yield
    nor on a future, so it returns.  This holds for every interleaving, the one where the
    coroutine overwrites the terminated state included. *)
Theorem kernel_terminates src snk ps hs s ls s' :
  reachable user u resource (make src snk ps hs u) s → terminate_notified s = true →
  run user u resource s ls = Some s' → Forall (λ l, l ≠ LInit) ls →
  (kernel_steps ls ≤ 30 + 4 * length (Source.ports (source s)))%nat ∧
  ((∃ code, at_ s' = Returned code) ∨ is_Some (kernel_step user u resource s')).
Proof.
  intros Hr Htn E Hl. pose proof (inv_reachable _ _ _ _ s Hr) as Hi. pose proof (todo_reachable _ _ _ _ s Hr) as Htd.
  destruct (run_rank ls s s' Hi Htd Htn E Hl) as (Hi' & Htn' & Hk). pose proof (rank_bound s Htd).
  split; [lia|]. by apply kernel_not_blocked.
Qed.
(** ** Messages *)



































Lemma run_reachable_kernel s0 ls : ∀ s s', reachable user u resource s0 s →
  run user u resource s ls = Some s' → reachable user u resource s0 s'.
Proof.
  induction ls as [|l ls IH]; intros s s' Hr E; cbn in E; [by simplify_eq|].
  destruct (step user u resource s l) as [s1|] eqn:E1; cbn in E; [|done].
  eapply IH; [|done]. by eapply reach_step.
Qed.
End safety.
(** ** A kernel with one source port and one sink port *)
(** A call of [OnProcess] reads one message. *)
Definition demo_methods : @methods (Z * list Z) unit :=
  mkMethods (λ c, Some (0, c)) (λ c h, Some (kNEXT, c, (λ x, (SourcePort.Read x).2) <$> h)) (λ c, c).

Definition demo_source : Source.t := Source.mk (Some O) {[ "in" := 1 ]}.

Definition demo_sink : Sink.t := Sink.mk (Some O) {[ "out" := 2 ]}.

Definition demo_ports : gmap Z (SourcePort.t (Z * list Z)) := {[ 1 := SourcePort.make (Some O) "in" 0 4 ]}.

Definition demo_sinks : Sink.heap := {[ 2 := SinkPort.make "out" 0 (Some O) ]}.

Definition demo_kernel : @t (Z * list Z) (MapFutures.t Z) unit :=
  make demo_source demo_sink demo_ports demo_sinks tt.

(** Started, subscribed to and written to, once while it waits and three times while it is inside [OnProcess], until it waits again. *)
Definition demo_start : list (@label Z) :=
  [LKernel; LRun; LControl; LKernel; LKernel; LKernel; LSubscribe "out" 9; LNotify 0] ++ replicate 8 LKernel ++
  [LKernel; LKernel; LKernel; LWrite 1 42; LNotify 0] ++ replicate 11 LKernel ++
  [LWrite 1 43; LWrite 1 44; LWrite 1 45; LNotify 0; LNotify 0; LNotify 0] ++ replicate 16 LKernel.

Definition demo_stop : list (@label Z) := [LTerminate; LControl; LControl].

Definition demo_run (ls : list (@label Z)) : option (@t (Z * list Z) (MapFutures.t Z) unit) :=
  run demo_methods tt 0 demo_kernel ls.

(** The state a run ends in. *)
Definition end_of (o : option (@t (Z * list Z) (MapFutures.t Z) unit)) : @t (Z * list Z) (MapFutures.t Z) unit :=
  match o with Some s => s | None => demo_kernel end.

Definition demo_notified := Eval vm_compute in end_of (demo_run (LInit :: demo_start ++ demo_stop)).

Definition demo_returned := Eval vm_compute in end_of (run demo_methods tt 0 demo_notified (replicate 7 LKernel)).


Lemma kernel_terminates_witness :
  run demo_methods tt 0 demo_kernel (LInit :: demo_start ++ demo_stop) = Some demo_notified ∧
  run demo_methods tt 0 demo_notified (replicate 7 LKernel) = Some demo_returned ∧
  at_ demo_returned = Returned 0 ∧
  (kernel_steps (replicate 7 (@LKernel Z)) ≤ 30 + 4 * length (Source.ports (source demo_notified)))%nat.
Proof.
  assert (E : run demo_methods tt 0 demo_kernel (LInit :: demo_start ++ demo_stop) = Some demo_notified)
    by (vm_compute; reflexivity).
  assert (E' : run demo_methods tt 0 demo_notified (replicate 7 LKernel) = Some demo_returned) by (vm_compute; reflexivity).
  split; [exact E|]. split; [exact E'|]. split; [reflexivity|].
  refine (proj1 (kernel_terminates demo_methods tt 0 demo_source demo_sink demo_ports demo_sinks demo_notified
    (replicate 7 LKernel) demo_returned _ eq_refl E' _)).
  - exact (run_reachable_kernel demo_methods tt 0 demo_kernel (LInit :: demo_start ++ demo_stop) demo_kernel
      demo_notified (reach_refl demo_methods tt 0 demo_kernel) E).
  - repeat constructor; discriminate.
Defined.



(** The end that stopped the first run is still pending for the second: initialised and run
    again, the kernel returns by itself before it has processed anything. *)
Example kernel_restart_ends_at_once :
  match demo_run (LInit :: demo_start ++ demo_stop ++ replicate 7 LKernel ++
                  [LInit; LKernel; LRun; LControl] ++ replicate 13 LKernel) with
  | Some s => at_ s = Returned 0 ∧ terminate_notified s = false ∧ state s = kTERMINATED
  | None => False
  end.
Proof. vm_compute. done. Qed.

(** [AsyncTerminate] between [AsyncInit] and the end of [OnInit] is overwritten: the kernel
    gets initialised and can be run. *)
Example kernel_early_terminate_is_lost :
  match demo_run [LInit; LTerminate; LControl; LControl; LKernel; LRun; LControl; LKernel; LKernel; LKernel; LKernel] with
  | Some s => at_ s = AtUpdate ∧ state s = kRUNNING
  | None => False
  end.
Proof. vm_compute. done. Qed.

End KernelSafety.
