(* ===== verification/CppString.v ===== *)
(** * Strings and character streams

    The operations of std::string and of the streams over a buffer that the input and output
    code uses.  A string is a list of characters, a position a [size_t]; [npos] is its largest
    value and the sums on positions wrap.  [None] is the exception [std::out_of_range]. *)
From Stdlib Require Import Ascii String.
From S2P Require Import Prelude.

Abbreviation cstring := (list ascii).

Definition str (s : string) : cstring := list_ascii_of_string s.

Definition LF : ascii := "010".
Definition CR : ascii := "013".

Definition npos : Z := 2 ^ 64 - 1.

Definition size (s : cstring) : Z := length s.

(** [s.substr(pos, n)]. *)
Definition substr (s : cstring) (pos n : Z) : option cstring :=
  if size s <? pos then None
  else Some (take (Z.to_nat (Z.min n (size s - pos))) (drop (Z.to_nat pos) s)).

(** [pat] is a prefix of [s]. *)
Fixpoint starts_with (pat s : cstring) : bool :=
  match pat, s with
  | [], _ => true
  | a :: pat', b :: s' => Ascii.eqb a b && starts_with pat' s'
  | _, _ => false
  end.

(** [s.find(pat)], from position [i] of a longer string. *)
Fixpoint find_from (i : Z) (pat s : cstring) : Z :=
  if starts_with pat s then i
  else match s with
       | [] => npos
       | _ :: s' => find_from (i + 1) pat s'
       end.

Definition find (pat s : cstring) : Z := find_from 0 pat s.

(** [std::getline(in, line, delim)] on the characters left in the stream: the line and what is
    left after it; [None] when there is no character to extract. *)
Fixpoint break_at (d : ascii) (s : cstring) : cstring * cstring :=
  match s with
  | [] => ([], [])
  | c :: s' =>
      if Ascii.eqb c d then ([], s') else let '(l, r) := break_at d s' in (c :: l, r)
  end.

Definition getline (d : ascii) (s : cstring) : option (cstring * cstring) :=
  match s with [] => None | _ => Some (break_at d s) end.

(** ** Lemmas *)
Lemma starts_with_spec pat s : starts_with pat s = true ↔ ∃ t, s = pat ++ t.
Proof.
  revert s. induction pat as [|a pat IH]; intros s; cbn.
  - split; [|done]. by exists s.
  - destruct s as [|b s]; cbn.
    + split; [done|]. intros [t Ht]. discriminate.
    + rewrite andb_true_iff, Ascii.eqb_eq, IH. split.
      * intros [-> [t ->]]. by exists t.
      * intros [t [= -> ->]]. split; [done|]. by exists t.
Qed.

Lemma starts_with_app pat t : starts_with pat (pat ++ t) = true.
Proof. apply starts_with_spec. by exists t. Qed.

(** [pat] occurs in [s]. *)
Definition occurs (pat s : cstring) : Prop := ∃ a b, s = a ++ pat ++ b.

Lemma find_from_range i pat s : 0 <= i → i + size s < npos →
  find_from i pat s = npos ∨ i <= find_from i pat s <= i + size s.
Proof.
  revert i. induction s as [|c s IH]; intros i Hi Hs; cbn [find_from]; destruct (starts_with pat _).
  - right. unfold size. cbn. lia.
  - by left.
  - right. unfold size. lia.
  - unfold size in *. cbn [length] in *. destruct (IH (i + 1)) as [?|?]; [lia|lia|by left|]. right. lia.
Qed.

Lemma find_from_npos i pat s : 0 <= i → i + size s < npos →
  find_from i pat s = npos ↔ ¬ occurs pat s.
Proof.
  revert i. induction s as [|c s IH]; intros i Hi Hs; cbn [find_from].
  - destruct (starts_with pat []) eqn:E.
    + split; [unfold size in Hs; cbn in Hs; lia|]. apply starts_with_spec in E as [t Ht].
      intros []. exists [], t. done.
    + split; [|done]. intros _ (a & b & Hab). destruct a; [|done]. cbn in Hab.
      apply not_true_iff_false in E. apply E, starts_with_spec. by exists b.
  - destruct (starts_with pat (c :: s)) eqn:E.
    + split; [unfold size in Hs; cbn [length] in Hs; lia|]. apply starts_with_spec in E as [t Ht].
      intros []. exists [], t. done.
    + rewrite IH; [|lia|unfold size in *; cbn [length] in Hs; lia]. split.
      * intros Hn (a & b & Hab). destruct a as [|x a].
        -- apply not_true_iff_false in E. apply E, starts_with_spec. by exists b.
        -- injection Hab as -> ->. apply Hn. by exists a, b.
      * intros Hn (a & b & ->). apply Hn. by exists (c :: a), b.
Qed.

(** [find] is [npos] exactly when there is no occurrence. *)
Lemma find_npos pat s : size s < npos → find pat s = npos ↔ ¬ occurs pat s.
Proof. intros. apply find_from_npos; lia. Qed.

Lemma find_range pat s : size s < npos → find pat s = npos ∨ 0 <= find pat s <= size s.
Proof. intros. apply find_from_range; lia. Qed.

Lemma find_from_first i pat a b :
  (∀ k, (k < length a)%nat → starts_with pat (drop k a ++ pat ++ b) = false) →
  find_from i pat (a ++ pat ++ b) = i + size a.
Proof.
  revert i. induction a as [|c a IH]; intros i Hk; cbn [app find_from].
  - unfold size. cbn [length]. destruct (pat ++ b) as [|x l] eqn:E; cbn [find_from];
      rewrite <- E, starts_with_app; lia.
  - pose proof (Hk 0%nat ltac:(cbn; lia)) as H0. cbn [drop app] in H0. rewrite H0.
    rewrite IH.
    + unfold size. cbn [length]. lia.
    + intros k Hk'. apply (Hk (S k)). cbn. lia.
Qed.

(** [find] gives the first occurrence. *)
Lemma find_first pat a b :
  (∀ k, (k < length a)%nat → starts_with pat (drop k a ++ pat ++ b) = false) →
  find pat (a ++ pat ++ b) = size a.
Proof. intros H. unfold find. rewrite find_from_first by done. lia. Qed.

(** A single character. *)
Lemma find_char_first c a b : c ∉ a → find [c] (a ++ c :: b) = size a.
Proof.
  intros Hc. apply (find_first [c]). intros k Hk.
  destruct (drop k a) as [|x l] eqn:E.
  { apply (f_equal length) in E. rewrite length_drop in E. cbn in E. lia. }
  cbn. rewrite andb_true_r. apply Ascii.eqb_neq. intros ->. apply Hc.
  rewrite <- (take_drop k a), E. set_solver.
Qed.

Lemma find_char_npos c s : size s < npos → find [c] s = npos ↔ c ∉ s.
Proof.
  intros Hs. rewrite find_npos by done. split.
  - intros Hn Hc. apply Hn. apply list_elem_of_split in Hc as (a & b & ->). by exists a, b.
  - intros Hc (a & b & ->). apply Hc. set_solver.
Qed.

Lemma substr_app a b c :
  substr (a ++ b ++ c) (size a) (size b) = Some b.
Proof.
  unfold substr, size. rewrite !length_app.
  rewrite (proj2 (Z.ltb_ge _ _)) by lia. f_equal.
  rewrite Nat2Z.id, drop_app_length, Z.min_l by lia. by rewrite Nat2Z.id, take_app_length.
Qed.

(** A length past the end is cut to the end. *)
Lemma substr_rest a b n : size b <= n → substr (a ++ b) (size a) n = Some b.
Proof.
  intros Hn. unfold substr, size in *. rewrite length_app.
  rewrite (proj2 (Z.ltb_ge _ _)) by lia. f_equal.
  rewrite Nat2Z.id, drop_app_length, Z.min_r by lia.
  replace (Z.to_nat (Z.of_nat (length a + length b) - Z.of_nat (length a))) with (length b) by lia.
  apply firstn_all.
Qed.

Lemma substr_throws s pos n : substr s pos n = None ↔ size s < pos.
Proof. unfold substr. destruct (Z.ltb_spec (size s) pos); split; try done; lia. Qed.

Lemma break_at_first d a b : d ∉ a → break_at d (a ++ d :: b) = (a, b).
Proof.
  induction a as [|c a IH]; intros Hd; cbn.
  - by rewrite Ascii.eqb_refl.
  - rewrite (proj2 (Ascii.eqb_neq c d)) by (intros ->; set_solver). rewrite IH by set_solver. done.
Qed.

Lemma break_at_none d a : d ∉ a → break_at d a = (a, []).
Proof.
  induction a as [|c a IH]; intros Hd; cbn; [done|].
  rewrite (proj2 (Ascii.eqb_neq c d)) by (intros ->; set_solver). rewrite IH by set_solver. done.
Qed.

(** What is left is shorter: the loops over the lines of a stream end. *)
Lemma break_at_length d s : (length (break_at d s).2 <= length s)%nat.
Proof.
  induction s as [|c s IH]; cbn; [lia|]. destruct (Ascii.eqb c d); cbn; [lia|].
  destruct (break_at d s). cbn in *. lia.
Qed.

Lemma getline_length d s l r : getline d s = Some (l, r) → (length r < length s)%nat.
Proof.
  unfold getline. destruct s as [|c s]; [done|]. intros [= E].
  cbn [break_at] in E. pose proof (break_at_length d s) as Hl.
  destruct (Ascii.eqb c d); [simplify_eq; cbn; lia|].
  destruct (break_at d s). simplify_eq. cbn in *. lia.
Qed.

Lemma getline_line d a b : d ∉ a → getline d (a ++ d :: b) = Some (a, b).
Proof.
  intros Hd. rewrite <- (break_at_first d a b Hd). unfold getline. by destruct a.
Qed.

Lemma getline_last d a : a ≠ [] → d ∉ a → getline d a = Some (a, []).
Proof. intros Ha Hd. rewrite <- (break_at_none d a Hd). unfold getline. by destruct a. Qed.

(** The line has no delimiter. *)
Lemma getline_clean d s l r : getline d s = Some (l, r) → d ∉ l.
Proof.
  assert (∀ s, d ∉ (break_at d s).1) as Hb.
  { clear. induction s as [|c s IH]; cbn; [set_solver|].
    destruct (Ascii.eqb_spec c d); cbn; [set_solver|].
    destruct (break_at d s). cbn in *. set_solver. }
  unfold getline. destruct s as [|c s]; [done|]. intros E. injection E as E.
  pose proof (Hb (c :: s)) as Hc. change (break_at d (c :: s) = (l, r)) in E. by rewrite E in Hc.
Qed.

Lemma break_at_inv d s l r : break_at d s = (l, r) → s = l ++ d :: r ∨ (s = l ∧ r = []).
Proof.
  revert l. induction s as [|c s IH]; intros l E; cbn in E; simplify_eq; [by right|].
  destruct (Ascii.eqb_spec c d) as [->|Hne]; simplify_eq; [by left|].
  destruct (break_at d s) as [l' r'] eqn:Es. simplify_eq. destruct (IH l' eq_refl) as [->|[-> ->]]; [by left|by right].
Qed.

(** A line ends with the delimiter or with the stream. *)
Lemma getline_inv d s l r : getline d s = Some (l, r) → s = l ++ d :: r ∨ (s = l ∧ r = []).
Proof. unfold getline. destruct s; [done|]. intros E. injection E as E. by apply break_at_inv. Qed.

Lemma occurs_app_l pat a b : occurs pat a → occurs pat (a ++ b).
Proof. intros (x & y & ->). exists x, (y ++ b). by rewrite <- !app_assoc. Qed.

Lemma occurs_app_r pat a b : occurs pat b → occurs pat (a ++ b).
Proof. intros (x & y & ->). exists (a ++ x), y. by rewrite <- !app_assoc. Qed.

(** A character that the pattern does not have separates its occurrences. *)
Lemma starts_with_barrier pat x d y : d ∉ pat → starts_with pat (x ++ d :: y) = starts_with pat x.
Proof.
  revert x. induction pat as [|a pat IH]; intros x Hd; [done|]. destruct x as [|b x]; cbn.
  - rewrite (proj2 (Ascii.eqb_neq a d)) by (intros ->; set_solver). done.
  - rewrite IH by set_solver. done.
Qed.

Lemma occurs_starts pat s : occurs pat s ↔ ∃ k, (k <= length s)%nat ∧ starts_with pat (drop k s) = true.
Proof.
  split.
  - intros (a & b & ->). exists (length a). split; [rewrite length_app; lia|].
    rewrite drop_app_length. apply starts_with_app.
  - intros (k & _ & Hs). apply starts_with_spec in Hs as [t Ht]. exists (take k s), t. by rewrite <- Ht, take_drop.
Qed.

Lemma occurs_barrier pat x d y : d ∉ pat → occurs pat (x ++ d :: y) → occurs pat x ∨ occurs pat y.
Proof.
  intros Hd Ho. apply occurs_starts in Ho as (k & Hk & Hs). destruct (decide (k <= length x)%nat) as [Hx|Hx].
  - left. apply occurs_starts. exists k. split; [done|].
    rewrite drop_app_le in Hs by done. by rewrite starts_with_barrier in Hs.
  - right. apply occurs_starts. exists (k - length x - 1)%nat. rewrite length_app in Hk. cbn in Hk. split; [lia|].
    rewrite drop_app_ge in Hs by lia. by replace (k - length x)%nat with (S (k - length x - 1)) in Hs by lia.
Qed.
