(* ===== verification/IoTask.v ===== *)
(** * The tasks of input and output operations

    src/io/io_task.h.  A task holds the promise of an asynchronous operation; Boost.Asio calls
    its handler when the operation is over and, for a session with a time-out, another one when
    the deadline of the session passes or moves.  First the methods as functions, then any number
    of calls on one task interleaved access by access. *)
From S2P Require Import Prelude.
From S2P Require Import Promise.

(** boost::system::error_code: success, the errors the code names, and the others. *)
Inductive error_code :=
  success | eof | timed_out | operation_aborted | other (n : positive).

#[global] Instance error_code_eq_dec : EqDecision error_code.
Proof. solve_decision. Defined.

(** [if (ec)]. *)
Definition failed (ec : error_code) : bool := match ec with success => false | _ => true end.

(** The values of the promises: an [error_code], or a [read_result]. *)
Inductive io_value := Code (ec : error_code) | Read (ec : error_code) (n : Z).

#[global] Instance io_value_eq_dec : EqDecision io_value.
Proof. solve_decision. Defined.

Module IoTask.

(** [read_task] and [write_task] have the same members; [deadline] is whether the pointer to
    the timer of the session is set. *)
Record guarded_task := mk {
  deadline : bool;
  resolved : bool;
  promise : nat
}.

Definition mark (t : guarded_task) : guarded_task := mk (deadline t) true (promise t).

(** The class of a task fixes the values its methods set. *)
Inductive class := ReadTask | WriteTask.

Definition timeout_value (k : class) : io_value :=
  match k with ReadTask => Read timed_out 0 | WriteTask => Code timed_out end.

Definition catch_value (k : class) : io_value :=
  match k with ReadTask => Read eof 0 | WriteTask => Code eof end.

Definition cancel_value (k : class) : io_value :=
  match k with ReadTask => Read timed_out 0 | WriteTask => Code eof end.

Section methods.
Context {S : Type} `{FuturesLaws S io_value}.

(** [io_task::handler]; [None]: [set_value] throws. *)
Definition io_handler (p : nat) (ec : error_code) (fs : S) : option S := fut_set p (Code ec) fs.

(** [if (!exchange(resolved, true)) promise.set_value(v)]; [false]: it throws. *)
Definition set_once (v : io_value) (t : guarded_task) (fs : S) : bool * guarded_task * S :=
  if resolved t then (true, mark t, fs)
  else match fut_set (promise t) v fs with
       | Some fs' => (true, mark t, fs')
       | None => (false, mark t, fs)
       end.

(** The same in a try block whose handler tries another value. *)
Definition try_set (v e : io_value) (t : guarded_task) (fs : S) : bool * guarded_task * S :=
  match set_once v t fs with
  | (false, t', fs') => set_once e t' fs'
  | r => r
  end.

Definition handler (k : class) (v : io_value) (t : guarded_task) (fs : S) : bool * guarded_task * S :=
  try_set v (catch_value k) t fs.

Definition handler_deadline (k : class) (expires_at now : Z) (t : guarded_task) (fs : S) : bool * guarded_task * S :=
  if deadline t && (expires_at <=? now) then try_set (timeout_value k) (catch_value k) t fs
  else (true, t, fs).

Definition cancel (k : class) (t : guarded_task) (fs : S) : bool * guarded_task * S :=
  set_once (cancel_value k) t fs.

(** What the session code relies on: the promise is pending until [resolved] is set, and the
    methods, which then never throw, keep that. *)
Definition wf (t : guarded_task) (fs : S) : Prop :=
  is_Some (fut_state (promise t) fs) ∧
  (fut_state (promise t) fs = Some Pending ↔ resolved t = false).

Lemma set_once_wf v t fs : wf t fs →
  ∃ fs', set_once v t fs = (true, mark t, fs') ∧ wf (mark t) fs' ∧
    (fut_state (promise t) fs' =
       if resolved t then fut_state (promise t) fs else Some (Ready v)) ∧
    ∀ q, q ≠ promise t → fut_state q fs' = fut_state q fs.
Proof.
  intros [Hs Hp]. unfold set_once. destruct (resolved t) eqn:E.
  - exists fs. split; [done|]. split; [|done]. split; [done|]. cbn. rewrite Hp. done.
  - destruct (fut_set_pending fs (promise t) v) as [fs' Hf]; [by apply Hp|]. rewrite Hf. exists fs'.
    pose proof (fut_set_ready _ _ _ _ Hf) as Hr. split; [done|]. split; [|split; [done|]].
    + split; cbn; rewrite Hr; [eauto|done].
    + intros q Hq. by eapply fut_set_other.
Qed.

Lemma try_set_once v e t fs : wf t fs → try_set v e t fs = set_once v t fs.
Proof. intros Hw. unfold try_set. by destruct (set_once_wf v t fs Hw) as (fs' & -> & _). Qed.

(** A task is well formed also after changes to other promises. *)
Lemma wf_other t fs fs' : fut_state (promise t) fs' = fut_state (promise t) fs → wf t fs → wf t fs'.
Proof. unfold wf. by intros ->. Qed.
End methods.

(** ** The calls on one task, access by access *)

Inductive call := Handler (v : io_value) | HandlerDeadline | Cancel.

Inductive pc :=
| Begin
| Exchange (v : io_value)      (* about to exchange [resolved] *)
| SetValue (v : io_value)      (* it was false: about to set the promise *)
| CatchExchange                (* [set_value] threw in the try block *)
| CatchSet
| Returned
| Escaped.                     (* an exception leaves the method *)

Section machine.
Context {S : Type} `{FuturesLaws S io_value}.
Variable k : class.

Record state := mkS { obj : guarded_task; calls : list (call * pc); futs : S }.

Definition start (c : call) (expires_at now : Z) (t : guarded_task) : pc :=
  match c with
  | Handler v => Exchange v
  | HandlerDeadline =>
      if deadline t && (expires_at <=? now) then Exchange (timeout_value k) else Returned
  | Cancel => Exchange (cancel_value k)
  end.

(** Where an exception of [set_value] goes. *)
Definition on_throw (c : call) : pc := match c with Cancel => Escaped | _ => CatchExchange end.

(** The next access of call [c]; the timer and the clock are read when the call begins. *)
Definition access (c : call) (p : pc) (expires_at now : Z) (t : guarded_task) (fs : S) : option (pc * guarded_task * S) :=
  match p with
  | Begin => Some (start c expires_at now t, t, fs)
  | Exchange v => Some (if resolved t then Returned else SetValue v, mark t, fs)
  | SetValue v =>
      match fut_set (promise t) v fs with
      | Some fs' => Some (Returned, t, fs')
      | None => Some (on_throw c, t, fs)
      end
  | CatchExchange => Some (if resolved t then Returned else CatchSet, mark t, fs)
  | CatchSet =>
      match fut_set (promise t) (catch_value k) fs with
      | Some fs' => Some (Returned, t, fs')
      | None => Some (Escaped, t, fs)
      end
  | Returned | Escaped => None
  end.

(** One access of call [i]. *)
Definition step (i : nat) (expires_at now : Z) (s : state) : option state :=
  match calls s !! i with
  | Some (c, p) =>
      match access c p expires_at now (obj s) (futs s) with
      | Some (p', t', fs') => Some (mkS t' (<[i := (c, p')]> (calls s)) fs')
      | None => None
      end
  | None => None
  end.

(** An interleaving: which call takes the next access, and the timer and clock at that time. *)
Fixpoint run (l : list (nat * Z * Z)) (s : state) : option state :=
  match l with
  | [] => Some s
  | (i, e, n) :: l' => match step i e n s with Some s' => run l' s' | None => None end
  end.

(** ** The invariant *)

(** The values that call [c] may set; [late] is whether the deadline had passed at some access. *)
Definition may_set (late : bool) (t : guarded_task) (c : call) (v : io_value) : Prop :=
  match c with
  | Handler u => v = u
  | HandlerDeadline => v = timeout_value k ∧ deadline t = true ∧ late = true
  | Cancel => v = cancel_value k
  end.

(** A call that has not won the exchange and has not thrown. *)
Definition passive (late : bool) (t : guarded_task) (x : call * pc) : Prop :=
  match x.2 with
  | Begin | Returned => True
  | Exchange v => may_set late t x.1 v
  | _ => False
  end.

(** A call that returned before the exchange was won found the deadline not passed. *)
Definition idle (x : call * pc) : Prop := x.2 = Returned → x.1 = HandlerDeadline.

Inductive phase (late : bool) (s : state) : Prop :=
| Open :
    resolved (obj s) = false → fut_state (promise (obj s)) (futs s) = Some Pending →
    (∀ x, x ∈ calls s → passive late (obj s) x ∧ idle x) → phase late s
| Won i c v :
    resolved (obj s) = true → fut_state (promise (obj s)) (futs s) = Some Pending →
    calls s !! i = Some (c, SetValue v) → may_set late (obj s) c v →
    (∀ j x, calls s !! j = Some x → j ≠ i → passive late (obj s) x) → phase late s
| Settled c v :
    resolved (obj s) = true → fut_state (promise (obj s)) (futs s) = Some (Ready v) →
    c ∈ (calls s).*1 → may_set late (obj s) c v →
    (∀ x, x ∈ calls s → passive late (obj s) x) → phase late s.

Lemma mark_resolved (t : guarded_task) : resolved t = true → mark t = t.
Proof. destruct t. cbn. by intros ->. Qed.

Lemma passive_mark late t x : passive late t x → passive late (mark t) x.
Proof. by destruct x as [[] []]. Qed.

Lemma may_set_late late late' t c v : (late = true → late' = true) →
  may_set late t c v → may_set late' t c v.
Proof. destruct c; cbn; naive_solver. Qed.

Lemma passive_late late late' t x : (late = true → late' = true) →
  passive late t x → passive late' t x.
Proof. intros Hl. unfold passive. destruct (x.2); [done|by apply may_set_late|done..]. Qed.

Lemma phase_late late late' s : (late = true → late' = true) → phase late s → phase late' s.
Proof.
  intros Hl [Hr Hp Hc|i c v Hr Hp Hi Hv Hc|c v Hr Hp Hi Hv Hc].
  - apply Open; [done..|]. intros x Hx. split; [eapply passive_late, Hc|apply Hc]; done.
  - eapply Won; [done..|by eapply may_set_late|]. intros j x Hj Hne. eapply passive_late, Hc; done.
  - eapply Settled; [done..|by eapply may_set_late|]. intros x Hx. eapply passive_late, Hc; done.
Qed.

(** A property of all calls after one of them has moved. *)
Lemma calls_update (P : call * pc → Prop) (l : list (call * pc)) i x y :
  (∀ z, z ∈ l → P z) → P y → l !! i = Some x → ∀ z, z ∈ <[i := y]> l → P z.
Proof.
  intros Hl Hy Hi z Hz. apply list_elem_of_lookup in Hz as [j Hj].
  destruct (decide (i = j)) as [<-|Hne].
  - rewrite list_lookup_insert_eq in Hj by (by eapply lookup_lt_Some). by simplify_eq.
  - rewrite list_lookup_insert_ne in Hj by done. apply Hl. by eapply list_elem_of_lookup_2.
Qed.

Lemma start_passive late c e n t : ((e <=? n) = true → late = true) → passive late t (c, start c e n t).
Proof.
  intros Hl. unfold passive, start. destruct c; cbn; [done| |done].
  destruct (deadline t) eqn:Ed; cbn; [|done]. destruct (e <=? n); cbn; auto.
Qed.

Lemma start_idle c e n t : idle (c, start c e n t).
Proof. unfold idle. destruct c; cbn; [done|done|done]. Qed.

Lemma calls_insert_fst (l : list (call * pc)) i c p p' :
  l !! i = Some (c, p) → (<[i := (c, p')]> l).*1 = l.*1.
Proof.
  intros Hi. rewrite list_fmap_insert. apply list_insert_id. by rewrite list_lookup_fmap, Hi.
Qed.

Lemma elem_fst (l : list (call * pc)) i c p : l !! i = Some (c, p) → c ∈ l.*1.
Proof. intros Hi. eapply list_elem_of_lookup_2. by rewrite list_lookup_fmap, Hi. Qed.

(** The access of a call that has not won. *)
Lemma access_passive late c p e n t fs p' t' fs' :
  ((e <=? n) = true → late = true) → passive late t (c, p) →
  access c p e n t fs = Some (p', t', fs') →
  fs' = fs ∧
  ((t' = t ∧ passive late t (c, p') ∧ idle (c, p')) ∨
   (t' = mark t ∧ resolved t = true ∧ passive late t (c, p')) ∨
   (t' = mark t ∧ resolved t = false ∧ ∃ v, p' = SetValue v ∧ may_set late t c v)).
Proof.
  intros Hl Hp E. unfold passive in Hp. cbn in Hp. destruct p; cbn in E; try done; simplify_eq.
  - split; [done|]. left. split; [done|]. split; [by apply start_passive|apply start_idle].
  - split; [done|]. right. destruct (resolved t); [by left|right]. eauto.
Qed.

Lemma access_resolved late c p e n t fs p' t' fs' :
  ((e <=? n) = true → late = true) → resolved t = true → passive late t (c, p) →
  access c p e n t fs = Some (p', t', fs') →
  fs' = fs ∧ t' = t ∧ passive late t (c, p').
Proof.
  intros Hl Hr Hp E.
  destruct (access_passive _ _ _ _ _ _ _ _ _ _ Hl Hp E) as [-> [(-> & ? & _)|[(-> & _ & ?)|(_ & ? & _)]]];
    [done| |congruence]. by rewrite mark_resolved.
Qed.

Lemma step_phase late i e n s s' :
  ((e <=? n) = true → late = true) → phase late s → step i e n s = Some s' →
  phase late s' ∧ promise (obj s') = promise (obj s) ∧
  deadline (obj s') = deadline (obj s) ∧ (calls s').*1 = (calls s).*1 ∧
  (∀ q, q ≠ promise (obj s) → fut_state q (futs s') = fut_state q (futs s)).
Proof.
  intros Hl Hph E. unfold step in E. destruct (calls s !! i) as [[c p]|] eqn:Ei; [|done].
  destruct (access c p e n (obj s) (futs s)) as [[[p' t'] fs']|] eqn:Ea; [|done]. simplify_eq. cbn.
  rewrite (calls_insert_fst _ _ _ _ _ Ei).
  assert (Hlt : (i < length (calls s))%nat) by (by eapply lookup_lt_Some).
  destruct Hph as [Hr Hp Hc|i0 c0 v Hr Hp Hi Hv Hc|c0 v Hr Hp Hi Hv Hc].
  - destruct (Hc (c, p)) as [Hpa Hid]; [by eapply list_elem_of_lookup_2|].
    destruct (access_passive _ _ _ _ _ _ _ _ _ _ Hl Hpa Ea) as [-> [(-> & H1 & H2)|[(_ & H1 & _)|(-> & H1 & v & -> & H2)]]].
    + split_and!; try done. apply Open; cbn; [done..|]. eapply calls_update; [done| |done]. done.
    + congruence.
    + split_and!; try done. apply (Won _ _ i c v); cbn; try done.
      * by apply list_lookup_insert_eq.
      * intros j x Hj Hne. rewrite list_lookup_insert_ne in Hj by done. apply passive_mark, Hc.
        by eapply list_elem_of_lookup_2.
  - destruct (decide (i = i0)) as [->|Hne].
    + assert (c = c0 ∧ p = SetValue v) as [-> ->] by (split; congruence).
      cbn in Ea. destruct (fut_set_pending (futs s) (promise (obj s)) v Hp) as [fs1 Hf].
      rewrite Hf in Ea. injection Ea as <- <- <-. split_and!; try done.
      * apply (Settled _ _ c0 v); cbn; try done.
        -- by eapply fut_set_ready.
        -- rewrite (calls_insert_fst _ _ _ _ _ Ei). by eapply elem_fst.
        -- intros z Hz. apply list_elem_of_lookup in Hz as [j Hj]. destruct (decide (i0 = j)) as [<-|Hne].
           ++ rewrite list_lookup_insert_eq in Hj by done. by simplify_eq.
           ++ rewrite list_lookup_insert_ne in Hj by done. by eapply Hc.
      * intros q Hq. by eapply fut_set_other.
    + pose proof (Hc _ _ Ei Hne) as Hpa.
      destruct (access_resolved _ _ _ _ _ _ _ _ _ _ Hl Hr Hpa Ea) as (-> & -> & Hpa').
      split_and!; try done. apply (Won _ _ i0 c0 v); cbn; try done.
      * by rewrite list_lookup_insert_ne.
      * intros j x Hj Hji. destruct (decide (i = j)) as [<-|Hij].
        -- rewrite list_lookup_insert_eq in Hj by done. by simplify_eq.
        -- rewrite list_lookup_insert_ne in Hj by done. by eapply Hc.
  - pose proof (Hc (c, p) ltac:(by eapply list_elem_of_lookup_2)) as Hpa.
    destruct (access_resolved _ _ _ _ _ _ _ _ _ _ Hl Hr Hpa Ea) as (-> & -> & Hpa').
    split_and!; try done. apply (Settled _ _ c0 v); cbn; try done.
    + by rewrite (calls_insert_fst _ _ _ _ _ Ei).
    + by eapply calls_update.
Qed.
(** An access at which the deadline had passed. *)
Definition late_in (l : list (nat * Z * Z)) : bool := existsb (λ '(_, e, n), e <=? n) l.

Lemma run_phase late l s s' :
  phase late s → run l s = Some s' →
  phase (late || late_in l) s' ∧ promise (obj s') = promise (obj s) ∧
  deadline (obj s') = deadline (obj s) ∧ (calls s').*1 = (calls s).*1 ∧
  (∀ q, q ≠ promise (obj s) → fut_state q (futs s') = fut_state q (futs s)).
Proof.
  revert late s. induction l as [|[[i e] n] l IH]; intros late s Hph E; cbn [run late_in existsb] in *.
  - simplify_eq. rewrite orb_false_r. by split_and!.
  - destruct (step i e n s) as [s1|] eqn:E1; [|done].
    destruct (step_phase (late || (e <=? n)) i e n s s1) as (H1 & H2 & Hd & H3 & H4); [|by eapply phase_late; [|done]; intros ->|done|].
    { intros ->. apply orb_true_r. }
    destruct (IH _ _ H1 E) as (H5 & H6 & Hd' & H7 & H8). rewrite orb_assoc.
    split_and!; [done|congruence..|]. intros q Hq. rewrite H8 by congruence. by apply H4.
Qed.

Lemma init_phase t cs fs :
  resolved t = false → fut_state (promise t) fs = Some Pending →
  phase false (mkS t ((λ c, (c, Begin)) <$> cs) fs).
Proof.
  intros Hr Hp. apply Open; [done..|]. intros x Hx. apply list_elem_of_fmap in Hx as (c & -> & _).
  by split.
Qed.

(** The number of accesses a call still takes. *)
Definition remaining (p : pc) : nat :=
  match p with
  | Begin => 5 | Exchange _ => 4 | SetValue _ => 3 | CatchExchange => 2 | CatchSet => 1
  | Returned | Escaped => 0
  end.

Lemma access_remaining c p e n t fs p' t' fs' :
  access c p e n t fs = Some (p', t', fs') → (remaining p' < remaining p)%nat.
Proof.
  destruct p; cbn; intros E; simplify_eq; cbn; try lia.
  - destruct c; cbn; try lia. destruct (deadline _ && _); cbn; lia.
  - destruct (resolved t); cbn; lia.
  - destruct (fut_set _ _ _); simplify_eq; cbn; [lia|]. destruct c; cbn; lia.
  - destruct (resolved t); cbn; lia.
  - destruct (fut_set _ _ _); simplify_eq; cbn; lia.
Qed.

Lemma step_remaining i e n s s' :
  step i e n s = Some s' → (sum_list ((λ x, remaining x.2) <$> calls s') < sum_list ((λ x, remaining x.2) <$> calls s))%nat.
Proof.
  unfold step. destruct (calls s !! i) as [[c p]|] eqn:Ei; [|done].
  destruct (access c p e n (obj s) (futs s)) as [[[p' t'] fs']|] eqn:Ea; [|done]. intros [= <-]. cbn.
  apply access_remaining in Ea. pose proof (sum_list_update (λ x, remaining x.2) _ _ _ (c, p') Ei).
  cbn in *. lia.
Qed.

(** Every call ends: [n] calls take at most [5 * n] accesses. *)
Lemma run_bounded l s s' : run l s = Some s' →
  (length l + sum_list ((λ x, remaining x.2) <$> calls s') <= sum_list ((λ x, remaining x.2) <$> calls s))%nat.
Proof.
  revert s. induction l as [|[[i e] n] l IH]; intros s E; cbn in *; [simplify_eq; lia|].
  destruct (step i e n s) as [s1|] eqn:E1; [|done]. apply IH in E. apply step_remaining in E1. lia.
Qed.
Lemma may_set_deadline late t t' c v : deadline t = deadline t' → may_set late t c v → may_set late t' c v.
Proof. destruct c; cbn; intuition congruence. Qed.

(** A value once set stays. *)
Lemma run_ready l s s' v :
  fut_state (promise (obj s)) (futs s) = Some (Ready v) → run l s = Some s' →
  fut_state (promise (obj s)) (futs s') = Some (Ready v).
Proof.
  revert s. induction l as [|[[i e] n] l IH]; intros s Hf E; cbn in *; [by simplify_eq|].
  destruct (step i e n s) as [s1|] eqn:E1; [|done].
  assert (promise (obj s1) = promise (obj s) ∧ fut_state (promise (obj s)) (futs s1) = Some (Ready v)) as [Hp1 Hf1].
  { unfold step in E1. destruct (calls s !! i) as [[c p]|]; [|done].
    assert (Hn : ∀ u, fut_set (promise (obj s)) u (futs s) = None) by (intros u; apply fut_set_throws; congruence).
    destruct p; cbn in E1; rewrite ?Hn in E1; simplify_eq; done. }
  rewrite <- Hp1 in Hf1. apply IH in Hf1; [|done]. by rewrite <- Hp1.
Qed.

Lemma init_remaining (cs : list call) :
  sum_list ((λ x, remaining x.2) <$> ((λ c, (c, Begin)) <$> cs)) = (5 * length cs)%nat.
Proof. induction cs as [|c cs IH]; [done|]. cbn in *. rewrite IH. lia. Qed.
End machine.

(** C9: A read or write task settles its promise exactly once.  Whatever calls of [handler],
    [handler_deadline] and [cancel] are made on a new task, from any threads and however their
    accesses interleave: no call throws or needs its handler of exceptions; the promise is pending
    or holds the value of one of the calls, where a deadline call sets its time-out only on a task
    that has a deadline and after the deadline passed, a [cancel] sets the value of its class (for a
    read that is a time-out too, whatever the clock says) and [handler] what it was given; a value once set stays; when all calls have returned and one
    of them was not a deadline call, a value is set; the calls take at most five accesses each;
    and no other promise changes. *)
Theorem io_task_settles_once {S : Type} `{FuturesLaws S io_value}
  (k : class) (t : guarded_task) (cs : list call) (fs : S) (l : list (nat * Z * Z)) (s : state)
  (Hr : resolved t = false) (Hp : fut_state (promise t) fs = Some Pending)
  (E : run k l (mkS t ((λ c, (c, Begin)) <$> cs) fs) = Some s) :
  (∀ c p, (c, p) ∈ calls s → p ≠ CatchExchange ∧ p ≠ CatchSet ∧ p ≠ Escaped) ∧
  (fut_state (promise t) (futs s) = Some Pending ∨
   ∃ c v, c ∈ cs ∧ may_set k (late_in l) t c v ∧ fut_state (promise t) (futs s) = Some (Ready v)) ∧
  (∀ l' s' v, run k l' s = Some s' → fut_state (promise t) (futs s) = Some (Ready v) →
    fut_state (promise t) (futs s') = Some (Ready v)) ∧
  ((∀ c p, (c, p) ∈ calls s → p = Returned) → (∃ c, c ∈ cs ∧ c ≠ HandlerDeadline) →
   ∃ v, fut_state (promise t) (futs s) = Some (Ready v)) ∧
  (length l <= 5 * length cs)%nat ∧
  (∀ q, q ≠ promise t → fut_state q (futs s) = fut_state q fs).
Proof.
  destruct (run_phase _ _ _ _ _ (init_phase k t cs fs Hr Hp) E) as (Hph & Hpr & Hd & Hcs & Ho).
  pose proof (run_bounded _ _ _ _ E) as Hb. cbn [obj calls futs] in *.
  assert (Hcs' : (calls s).*1 = cs) by (rewrite Hcs, <- list_fmap_compose; apply list_fmap_id).
  rewrite init_remaining in Hb. split_and!; [| | | |lia|done].
  - intros c p Hx. destruct Hph as [_ _ Hc|i c0 v _ _ Hi _ Hc|c0 v _ _ _ _ Hc].
    + apply Hc in Hx as [Hx _]. by destruct p.
    + apply list_elem_of_lookup in Hx as [j Hj]. destruct (decide (j = i)) as [->|Hne].
      * assert (p = SetValue v) as -> by congruence. done.
      * apply Hc in Hj; [|done]. by destruct p.
    + apply Hc in Hx. by destruct p.
  - rewrite <- Hpr. destruct Hph as [_ Hf _|i c v _ Hf _ _ _|c v _ Hf Hc Hv _]; [by left..|right].
    exists c, v. rewrite <- Hcs'. split; [done|]. split; [|done]. by eapply may_set_deadline.
  - rewrite <- Hpr. intros l' s' v E' Hf. by eapply run_ready.
  - rewrite <- Hpr. intros Hret (c & Hc & Hne). destruct Hph as [_ _ Hall|i c0 v _ _ Hi _ _|c0 v _ Hf _ _ _].
    + rewrite <- Hcs' in Hc. apply list_elem_of_fmap in Hc as ([c' p] & -> & Hx).
      destruct (Hall _ Hx) as [_ Hid]. destruct Hne. by apply Hid, (Hret c').
    + apply list_elem_of_lookup_2, Hret in Hi. done.
    + by exists v.
Qed.
End IoTask.

(** ** A read that completes while its deadline passes *)
Module IoTaskExample.
Import IoTask.

Definition futs0 : MapFutures.t io_value := (fut_make fut_init).2.

(** The completion starts, the deadline wins the exchange, the completion returns, then a cancel. *)
Definition schedule : list (nat * Z * Z) :=
  [(0%nat, 5, 5); (1%nat, 5, 6); (1%nat, 5, 6); (0%nat, 5, 6); (1%nat, 5, 7); (2%nat, 9, 7); (2%nat, 9, 7)].

Definition calls0 : list call := [Handler (Read success 10); HandlerDeadline; Cancel].

Definition final : option state :=
  Eval vm_compute in run ReadTask schedule (mkS (mk true false 0) ((λ c, (c, Begin)) <$> calls0) futs0).

Lemma io_task_settles_once_witness :
  ∃ s, run ReadTask schedule (mkS (mk true false 0) ((λ c, (c, Begin)) <$> calls0) futs0) = Some s ∧
    (∃ v, fut_state 0%nat (futs s) = Some (Ready v)) ∧
    fut_state 0%nat (futs s) = Some (Ready (Read timed_out 0)).
Proof.
  assert (E : run ReadTask schedule (mkS (mk true false 0) ((λ c, (c, Begin)) <$> calls0) futs0) = final)
    by (vm_compute; reflexivity).
  unfold final in E. eexists. split; [exact E|]. split.
  - refine (proj1 (proj2 (proj2 (proj2 (io_task_settles_once ReadTask (mk true false 0) calls0 futs0
      schedule _ eq_refl eq_refl E)))) _ _).
    + intros c p Hx. cbn in Hx. rewrite !elem_of_cons, elem_of_nil in Hx. naive_solver.
    + exists (Handler (Read success 10)). split; [apply list_elem_of_here|done].
  - vm_compute. reflexivity.
Defined.

End IoTaskExample.
