(* ===== verification/IoSession.v ===== *)
(** * TCP and UDP sessions

    include/ar/io/tcp.hpp, udp.hpp, src/io/tcp.cpp and udp.cpp over the tasks of IoTask.v.  A method of a
    session makes a task and calls Boost.Asio; the calls of several methods, the thread of the
    [IOExecutor] and the completion of operations interleave.

    What is relied on of Boost.Asio is its documented behaviour: a posted closure is run once by
    the thread of the service, in the order of posting; an operation that was started calls its
    handler once, when it is over, with an error or with the number of bytes; [async_read] commits to the
    stream buffer whatever each of its [read_some] brings, and is over when it has as much as it waits for; a wait on a timer calls its handler when the timer
    expires, or is cancelled, given a new expiry or destroyed. *)
From S2P Require Import Prelude.
From S2P Require Import Promise.
From S2P Require Import CppString.
From S2P Require Import IoTask.

Import IoTask.

(** The tasks alive: an [io_task], which has only its promise, or one with a guard. *)
Inductive entry := Plain | Guarded (k : class) (t : guarded_task).

(** Operations started on a socket, and the task whose handler they call. *)
Inductive op_kind :=
| OpConnect | OpSend
| OpRead (at_least : Z)        (* async_read into the stream buffer *)
| OpWrite (data : cstring)
| OpReceive.                   (* async_receive_from into a prepared area *)

(** [got]: what a read has brought so far. *)
Record op := mkOp { kind : op_kind; owner : nat; got : Z }.

Definition new_op (k : op_kind) (p : nat) : op := mkOp k p 0.

Definition is_read (o : op) : bool := match kind o with OpRead _ => true | _ => false end.

(** Closures posted to the executor. *)
Inductive closure := StartOp (o : op) | CloseSocket.

(** The calls of a method to the library. *)
Inductive micro :=
| MPost (c : closure)          (* executor->Post *)
| MStart (o : op)              (* an operation started by the calling thread *)
| MExpires (seconds : Z)       (* deadline.expires_from_now(seconds) *)
| MExpiresTimeout              (* deadline.expires_from_now(read_timeout) *)
| MWait (p : nat)              (* deadline.async_wait(handler_deadline of the task) *)
| MCancelTimer                 (* deadline.cancel *)
| MClose.                      (* socket.close *)

Section session.
Context {S : Type} `{FuturesLaws S io_value}.

(** [socket_open] is false once the socket has been closed.  [escaped]: an exception has left a handler
    and the thread of the service; [undefined]: a handler has read the timer of a destroyed session, or an operation has
    committed to its stream buffer; [shared]: a read was started, or the stream read, while a read was in flight on the stream
    buffer, so that what the buffer holds is not defined. *)
Record world := mkW {
  now : Z;                     (* microseconds *)
  alive : bool;
  expires_at : Z;
  read_timeout : Z;
  input_buffer : cstring;
  socket_open : bool;
  programs : list (list micro);
  posted : list closure;
  ops : list op;
  waits : list nat;            (* tasks waiting on the timer *)
  ready : list nat;            (* whose handler is to be called *)
  tasks : gmap nat entry;
  futs : S;
  escaped : bool;
  undefined : bool;
  shared : bool
}.

(** A session on a new service; [e] is what a timer holds that was given no expiry. *)
Definition make (e : Z) (clock : Z) (fs : S) : world :=
  mkW clock true e 0 [] true [] [] [] [] [] ∅ fs false false false.

(** ** Updates *)

Definition set_timer (e : Z) (ws rd : list nat) (w : world) : world :=
  mkW (now w) (alive w) e (read_timeout w) (input_buffer w) (socket_open w) (programs w) (posted w) (ops w)
    ws rd (tasks w) (futs w) (escaped w) (undefined w) (shared w).

Definition set_service (ps : list closure) (os : list op) (w : world) : world :=
  mkW (now w) (alive w) (expires_at w) (read_timeout w) (input_buffer w) (socket_open w) (programs w) ps os
    (waits w) (ready w) (tasks w) (futs w) (escaped w) (undefined w) (shared w).

Definition set_programs (pr : list (list micro)) (w : world) : world :=
  mkW (now w) (alive w) (expires_at w) (read_timeout w) (input_buffer w) (socket_open w) pr (posted w) (ops w)
    (waits w) (ready w) (tasks w) (futs w) (escaped w) (undefined w) (shared w).

Definition set_tasks (ts : gmap nat entry) (fs : S) (esc : bool) (w : world) : world :=
  mkW (now w) (alive w) (expires_at w) (read_timeout w) (input_buffer w) (socket_open w) (programs w) (posted w) (ops w)
    (waits w) (ready w) ts fs esc (undefined w) (shared w).

Definition set_buffer (b : cstring) (w : world) : world :=
  mkW (now w) (alive w) (expires_at w) (read_timeout w) b (socket_open w) (programs w) (posted w) (ops w)
    (waits w) (ready w) (tasks w) (futs w) (escaped w) (undefined w) (shared w).

Definition set_read_timeout_field (n : Z) (w : world) : world :=
  mkW (now w) (alive w) (expires_at w) n (input_buffer w) (socket_open w) (programs w) (posted w) (ops w)
    (waits w) (ready w) (tasks w) (futs w) (escaped w) (undefined w) (shared w).

Definition close_socket (w : world) : world :=
  mkW (now w) (alive w) (expires_at w) (read_timeout w) (input_buffer w) false (programs w) (posted w) (ops w)
    (waits w) (ready w) (tasks w) (futs w) (escaped w) (undefined w) (shared w).

Definition set_undefined (w : world) : world :=
  mkW (now w) (alive w) (expires_at w) (read_timeout w) (input_buffer w) (socket_open w) (programs w) (posted w) (ops w)
    (waits w) (ready w) (tasks w) (futs w) (escaped w) true (shared w).

(** Somebody else uses the stream buffer. *)
Definition share (b : bool) (w : world) : world :=
  mkW (now w) (alive w) (expires_at w) (read_timeout w) (input_buffer w) (socket_open w) (programs w) (posted w) (ops w)
    (waits w) (ready w) (tasks w) (futs w) (escaped w) (undefined w) (shared w || b).

(** A read is in flight. *)
Definition reading (w : world) : bool := existsb is_read (ops w).

Definition start_op (o : op) (w : world) : world :=
  set_service (posted w) (ops w ++ [o]) (share (is_read o && reading w) w).

Definition advance (d : Z) (w : world) : world :=
  mkW (now w + d) (alive w) (expires_at w) (read_timeout w) (input_buffer w) (socket_open w) (programs w) (posted w)
    (ops w) (waits w) (ready w) (tasks w) (futs w) (escaped w) (undefined w) (shared w).

(** ** The methods

    A method makes its task and its future at once; the calls it makes to the library are its program. *)

Definition add_program (pr : list micro) (w : world) : world := set_programs (programs w ++ [pr]) w.

(** [std::make_shared<...>], [get_future()]. *)
Definition make_task (e : nat → entry) (w : world) : nat * world :=
  let '(p, fs') := fut_make (futs w) in
  (p, set_tasks (<[p := e p]> (tasks w)) fs' (escaped w) w).

Definition guarded (k : class) (with_deadline : bool) (p : nat) : entry :=
  Guarded k (mk with_deadline false p).

Definition plain (p : nat) : entry := Plain.

(** A method that makes the task [e] and then makes the calls [pr] for it. *)
Definition call_task (e : nat → entry) (pr : nat → list micro) (w : world) : nat * world :=
  let '(p, w') := make_task e w in (p, add_program (pr p) w').

(** [set_read_timeout], of both classes. *)
Definition set_read_timeout (seconds : Z) (w : world) : world :=
  add_program [MExpires seconds] (set_read_timeout_field seconds w).

(** [read_input_stream], of both classes: the number of bytes and the bytes. *)
Definition read_input_stream (n : Z) (w : world) : Z * cstring * world :=
  let min_size := Z.min (size (input_buffer w)) n in
  let w' := share (reading w) w in
  if 0 <? min_size then
    (min_size, take (Z.to_nat min_size) (input_buffer w), set_buffer (drop (Z.to_nat min_size) (input_buffer w)) w')
  else (min_size, [], w').

Definition tcp_async_connect (w : world) : nat * world :=
  call_task plain (λ p, [MStart (new_op OpConnect p)]) w.

(** [async_read(size)]. *)
Definition tcp_async_read_size (n : Z) (w : world) : nat * world :=
  if 0 <? read_timeout w then
    call_task (guarded ReadTask true) (λ p, [MPost (StartOp (new_op (OpRead n) p)); MExpiresTimeout; MWait p]) w
  else
    call_task (guarded ReadTask false) (λ p, [MPost (StartOp (new_op (OpRead 1) p))]) w.

(** [async_read()]. *)
Definition tcp_async_read (w : world) : nat * world :=
  if 0 <? read_timeout w then
    call_task (guarded ReadTask true) (λ p, [MPost (StartOp (new_op (OpRead 1) p)); MExpiresTimeout; MWait p]) w
  else
    call_task (guarded ReadTask false) (λ p, [MPost (StartOp (new_op (OpRead 1) p))]) w.

(** [async_write(buffer, size)]: the task is made without the timer in both branches. *)
Definition tcp_async_write (data : cstring) (w : world) : nat * world :=
  if 0 <? read_timeout w then
    call_task (guarded WriteTask false) (λ p, [MPost (StartOp (new_op (OpWrite data) p)); MExpiresTimeout; MWait p]) w
  else
    call_task (guarded WriteTask false) (λ p, [MPost (StartOp (new_op (OpWrite data) p))]) w.

Definition tcp_close (w : world) : world := add_program [MPost CloseSocket; MCancelTimer] w.

(** [async_connect] of a UDP session resolves the address and returns a resolved future. *)
Definition udp_async_connect (w : world) : nat * world :=
  let '(p, fs') := fut_resolved (Code success) (futs w) in
  (p, set_tasks (tasks w) fs' (escaped w) w).

Definition udp_async_read (w : world) : nat * world :=
  if 0 <? read_timeout w then
    call_task (guarded ReadTask true) (λ p, [MStart (new_op OpReceive p); MExpiresTimeout; MWait p]) w
  else
    call_task (guarded ReadTask false) (λ p, [MStart (new_op OpReceive p)]) w.

Definition udp_async_write (w : world) : nat * world :=
  call_task plain (λ p, [MStart (new_op OpSend p)]) w.

Definition udp_close (w : world) : world := add_program [MClose; MCancelTimer] w.

(** The destructor; it runs when no call and no posted closure holds the session.  The waits
    on the timer end, and their handlers hold the tasks, which point to the timer.  The operations in flight hold
    the tasks and refer to the stream buffer. *)
Definition destroy (w : world) : world :=
  mkW (now w) false (expires_at w) (read_timeout w) (input_buffer w) false (programs w) (posted w) (ops w)
    [] (ready w ++ waits w) (tasks w) (futs w) (escaped w) (undefined w) (shared w).

(** ** The service *)

(** The next call of a method. *)
Definition micro_step (m : micro) (w : world) : world :=
  match m with
  | MPost c => set_service (posted w ++ [c]) (ops w) w
  | MStart o => start_op o w
  | MExpires s => set_timer (now w + s * 1000000) [] (ready w ++ waits w) w
  | MExpiresTimeout => set_timer (now w + read_timeout w * 1000000) [] (ready w ++ waits w) w
  | MWait p => set_timer (expires_at w) (waits w ++ [p]) (ready w) w
  | MCancelTimer => set_timer (expires_at w) [] (ready w ++ waits w) w
  | MClose => close_socket w
  end.

(** The state after a method of the guarded task [p]. *)
Definition settle (p : nat) (k : class) (r : bool * guarded_task * S) (w : world) : world :=
  let '(ok, t', fs') := r in
  set_tasks (<[p := Guarded k t']> (tasks w)) fs' (escaped w || negb ok) w.

Definition result (k : class) (ec : error_code) (n : Z) : io_value :=
  match k with ReadTask => Read ec n | WriteTask => Code ec end.

(** The completion handler of task [p]. *)
Definition call_handler (p : nat) (ec : error_code) (n : Z) (w : world) : world :=
  match tasks w !! p with
  | Some Plain =>
      match io_handler p ec (futs w) with
      | Some fs' => set_tasks (tasks w) fs' (escaped w) w
      | None => set_tasks (tasks w) (futs w) true w
      end
  | Some (Guarded k t) => settle p k (handler k (result k ec n) t (futs w)) w
  | None => w
  end.

(** The handler of a wait on the timer. *)
Definition call_deadline (p : nat) (w : world) : world :=
  match tasks w !! p with
  | Some (Guarded k t) =>
      if deadline t && negb (alive w) then set_undefined w
      else settle p k (handler_deadline k (expires_at w) (now w) t (futs w)) w
  | _ => w
  end.

(** A posted closure; [throws]: starting the operation throws, and the task is cancelled. *)
Definition run_closure (c : closure) (throws : bool) (w : world) : world :=
  match c with
  | CloseSocket => close_socket w
  | StartOp o =>
      if throws then
        match tasks w !! owner o with
        | Some (Guarded k t) => settle (owner o) k (cancel k t (futs w)) w
        | _ => w
        end
      else start_op o w
  end.

(** A [read_some] of operation [o] has brought [data]: [commit]; that of an operation whose session has been destroyed
    commits to a destroyed stream buffer. *)
Definition commit (o : op) (data : cstring) (w : world) : world :=
  if is_read o then if alive w then set_buffer (input_buffer w ++ data) w else set_undefined w else w.

(** A read goes on after what it has brought now. *)
Definition read_some (i : nat) (o : op) (data : cstring) (w : world) : world :=
  commit o data (set_service (posted w) (<[i := mkOp (kind o) (owner o) (got o + size data)]> (ops w)) w).

Definition may_read_some (o : op) (data : cstring) (w : world) : bool :=
  match kind o with OpRead n => (0 <? size data) && (got o + size data <? n) && alive w | _ => false end.

(** The end of an operation, with the last data of a read, or those a receive has put into the area that was prepared
    and is not committed. *)
Definition finish_op (o : op) (ec : error_code) (data : cstring) (w : world) : world :=
  call_handler (owner o) ec (got o + size data) (commit o data w).

(** A read succeeds when it has what it waits for and fails with nothing new, a receive fits the area; the operations of a
    destroyed socket fail and bring nothing. *)
Definition may_finish (o : op) (ec : error_code) (data : cstring) (w : world) : bool :=
  match kind o with
  | OpRead n => if failed ec then size data =? 0 else n <=? got o + size data
  | OpReceive => size data <=? 1024
  | _ => true
  end && (alive w || (failed ec && (size data =? 0))).

(** ** Steps *)
Inductive event :=
| SetReadTimeout (seconds : Z)
| ReadInputStream (n : Z)
| TcpConnect | TcpReadSize (n : Z) | TcpRead | TcpWrite (data : cstring) | TcpClose
| UdpConnect | UdpRead | UdpWrite | UdpClose
| Destroy
| User (i : nat)                                         (* the next call of method call [i] *)
| RunPosted (throws : bool)
| ReadSome (i : nat) (data : cstring)                    (* operation [i] has brought data and goes on *)
| Complete (i : nat) (ec : error_code) (data : cstring)  (* operation [i] is over *)
| TimerFires
| RunWait
| Garble (b : cstring)                                   (* what a shared stream buffer comes to hold *)
| Tick (d : Z).

(** A method is called on a session that is alive. *)
Definition when (b : bool) (w : world) : option world := if b then Some w else None.

Definition step (e : event) (w : world) : option world :=
  match e with
  | SetReadTimeout s => when (alive w) (set_read_timeout s w)
  | ReadInputStream n => when (alive w && (0 <=? n)) (read_input_stream n w).2
  | TcpConnect => when (alive w) (tcp_async_connect w).2
  | TcpReadSize n => when (alive w) (tcp_async_read_size n w).2
  | TcpRead => when (alive w) (tcp_async_read w).2
  | TcpWrite d => when (alive w) (tcp_async_write d w).2
  | TcpClose => when (alive w) (tcp_close w)
  | UdpConnect => when (alive w) (udp_async_connect w).2
  | UdpRead => when (alive w) (udp_async_read w).2
  | UdpWrite => when (alive w) (udp_async_write w).2
  | UdpClose => when (alive w) (udp_close w)
  | Destroy =>
      when (alive w && forallb (λ pr, match pr with [] => true | _ => false end) (programs w)
            && match posted w with [] => true | _ => false end) (destroy w)
  | User i =>
      match programs w !! i with
      | Some (m :: pr) => Some (micro_step m (set_programs (<[i := pr]> (programs w)) w))
      | _ => None
      end
  | RunPosted throws =>
      match posted w with
      | c :: ps => Some (run_closure c throws (set_service ps (ops w) w))
      | [] => None
      end
  | ReadSome i data =>
      match ops w !! i with
      | Some o => when (may_read_some o data w) (read_some i o data w)
      | None => None
      end
  | Complete i ec data =>
      match ops w !! i with
      | Some o => when (may_finish o ec data w) (finish_op o ec data (set_service (posted w) (delete i (ops w)) w))
      | None => None
      end
  | TimerFires => when (expires_at w <=? now w) (set_timer (expires_at w) [] (ready w ++ waits w) w)
  | RunWait =>
      match ready w with
      | p :: rd => Some (call_deadline p (set_timer (expires_at w) (waits w) rd w))
      | [] => None
      end
  | Garble b => when (shared w) (set_buffer b w)
  | Tick d => when (0 <=? d) (advance d w)
  end.

Fixpoint run (l : list event) (w : world) : option world :=
  match l with
  | [] => Some w
  | e :: l' => match step e w with Some w' => run l' w' | None => None end
  end.

(** ** The tasks and who will call their handlers *)

Definition closure_owner (c : closure) : list nat :=
  match c with StartOp o => [owner o] | CloseSocket => [] end.

Definition micro_owner (m : micro) : list nat :=
  match m with MPost c => closure_owner c | MStart o => [owner o] | _ => [] end.

Definition posted_by (m : micro) : list nat :=
  match m with MPost c => closure_owner c | _ => [] end.

(** The tasks whose completion handler is still to be called. *)
Definition owners (w : world) : list nat :=
  (programs w ≫= (λ pr, pr ≫= micro_owner)) ++ (posted w ≫= closure_owner) ++ (owner <$> ops w).

(** Those among them that a posted closure starts or will start. *)
Definition starting (w : world) : list nat :=
  (programs w ≫= (λ pr, pr ≫= posted_by)) ++ (posted w ≫= closure_owner).

(** [os] are the tasks to be completed, [ps] those to be started by a closure. *)
Record good (os ps : list nat) (ts : gmap nat entry) (fs : S) : Prop := {
  good_settled p e : ts !! p = Some e →
    fut_state p fs = Some Pending ∨ ∃ v, fut_state p fs = Some (Ready v);
  good_guarded p k t : ts !! p = Some (Guarded k t) → promise t = p ∧ wf t fs;
  good_nodup : NoDup os;
  good_owned p : p ∈ os → ∃ e, ts !! p = Some e ∧ (e = Plain → fut_state p fs = Some Pending);
  good_pending p e : ts !! p = Some e → fut_state p fs = Some Pending → p ∈ os;
  good_posted p : p ∈ ps → ∃ k t, ts !! p = Some (Guarded k t)
}.

Record inv (w : world) : Prop := {
  inv_good : good (owners w) (starting w) (tasks w) (futs w);
  inv_escaped : escaped w = false;
  inv_undefined : undefined w = true → alive w = false
}.

Lemma good_perm os os' ps ps' ts fs :
  os ≡ₚ os' → ps' ⊆ ps → good os ps ts fs → good os' ps' ts fs.
Proof.
  intros Hp Hs [H1 H2 H3 H4 H5 H6]. split; try done.
  - by rewrite <- Hp.
  - intros p. rewrite <- Hp. apply H4.
  - intros p e. rewrite <- Hp. apply H5.
  - intros p Hin. by apply H6, Hs.
Qed.

(** A new task. *)
Lemma good_new os ps ts fs e : good os ps ts fs →
  let p := (fut_make fs).1 in
  (e = Plain ∨ ∃ k d, e = Guarded k (mk d false p)) →
  good (p :: os) ps (<[p := e]> ts) (fut_make fs).2 ∧
  (e ≠ Plain → good (p :: os) (p :: ps) (<[p := e]> ts) (fut_make fs).2).
Proof.
  intros [H1 H2 H3 H4 H5 H6] p He. set (fs' := (fut_make fs).2).
  assert (Hnew : fut_state p fs' = Some Pending) by apply fut_make_pending.
  assert (Hold : ∀ q e, ts !! q = Some e → q ≠ p ∧ fut_state q fs' = fut_state q fs).
  { intros q e' Hq. assert (q ≠ p) as Hne.
    { intros ->. pose proof (fut_make_fresh fs) as Hf. fold p in Hf.
      destruct (H1 _ _ Hq) as [E|[v E]]; congruence. }
    split; [done|]. by apply fut_make_other. }
  assert (Hps : ∀ q, q ∈ ps → ∃ k t, <[p := e]> ts !! q = Some (Guarded k t)).
  { intros q Hq. destruct (H6 q Hq) as (k & t & E). exists k, t.
    rewrite lookup_insert_ne; [done|]. apply Hold in E. naive_solver. }
  assert (Hg : good (p :: os) ps (<[p := e]> ts) fs').
  { split; [| | | | |done].
    - intros q e' Hq. apply lookup_insert_Some in Hq as [[<- <-]|[Hne Hq]]; [by left|].
      destruct (Hold _ _ Hq) as [_ ->]. by eapply H1.
    - intros q k t Hq. apply lookup_insert_Some in Hq as [[<- Hq]|[Hne Hq]].
      + destruct He as [->|(k' & d & ->)]; [done|]. injection Hq as -> <-. split; [done|].
        split; cbn; rewrite Hnew; [eauto|done].
      + destruct (H2 _ _ _ Hq) as [<- Hw]. split; [done|]. eapply wf_other; [|done]. by eapply Hold.
    - constructor; [|done]. intros Hin. destruct (H4 _ Hin) as (e' & Hq & _). by apply Hold in Hq as [].
    - intros q Hq. apply elem_of_cons in Hq as [->|Hq].
      + exists e. by rewrite lookup_insert_eq.
      + destruct (H4 _ Hq) as (e' & Hl & Hp). destruct (Hold _ _ Hl) as [Hne Hf]. exists e'.
        by rewrite lookup_insert_ne, Hf.
    - intros q e' Hq Hf. apply lookup_insert_Some in Hq as [[<- _]|[Hne Hq]]; [apply list_elem_of_here|].
      apply list_elem_of_further. eapply H5; [done|]. destruct (Hold _ _ Hq) as [_ <-]. done. }
  split; [done|]. intros Hne. destruct Hg as [G1 G2 G3 G4 G5 G6]. split; try done.
  intros q Hq. apply elem_of_cons in Hq as [->|Hq]; [|by apply G6]. destruct He as [->|(k & d & ->)]; [done|].
  exists k, (mk d false p). apply lookup_insert_eq.
Qed.

(** The guarded assignment, after which [os'] are still to be completed. *)
Lemma good_set_once os os' ps ts fs p k t v :
  good os ps ts fs → ts !! p = Some (Guarded k t) →
  os' ⊆ os → NoDup os' → (∀ q, q ∈ os → q = p ∨ q ∈ os') →
  ∃ fs', set_once v t fs = (true, mark t, fs') ∧ good os' ps (<[p := Guarded k (mark t)]> ts) fs'.
Proof.
  intros [H1 H2 H3 H4 H5 H6] Hp Hsub Hnd Hos. destruct (H2 _ _ _ Hp) as [Hpr Hw].
  destruct (set_once_wf v t fs Hw) as (fs' & E & Hw' & Hst & Hot). rewrite Hpr in *.
  exists fs'. split; [done|].
  assert (Hnp : ∃ u, fut_state p fs' = Some (Ready u)).
  { rewrite Hst. destruct (resolved t) eqn:Er; [|eauto]. destruct (H1 _ _ Hp) as [Hc|?]; [|done].
    rewrite <- Hpr in Hc. apply Hw in Hc. congruence. }
  destruct Hnp as [u Hu]. split; [| |done| | |].
  - intros q e Hq. apply lookup_insert_Some in Hq as [[<- <-]|[Hne Hq]]; [eauto|].
    rewrite Hot by done. by eapply H1.
  - intros q k' t' Hq. apply lookup_insert_Some in Hq as [[<- Hq]|[Hne Hq]].
    + injection Hq as <- <-. by split.
    + destruct (H2 _ _ _ Hq) as [<- Hwq]. split; [done|]. eapply wf_other; [|done]. by apply Hot.
  - intros q Hq. destruct (H4 q (Hsub _ Hq)) as (e & Hl & He). destruct (decide (q = p)) as [->|Hne].
    + eexists. split; [apply lookup_insert_eq|done].
    + exists e. by rewrite lookup_insert_ne, Hot.
  - intros q e Hq Hf. apply lookup_insert_Some in Hq as [[<- _]|[Hne Hq]]; [congruence|].
    rewrite Hot in Hf by done. destruct (Hos q); [by eapply H5|done|done].
  - intros q Hq. destruct (H6 q Hq) as (k' & t' & Hl). destruct (decide (q = p)) as [->|Hne].
    + eexists _, _. apply lookup_insert_eq.
    + exists k', t'. by rewrite lookup_insert_ne.
Qed.

(** The unguarded one of an [io_task]. *)
Lemma good_io_handler os ps ts fs p ec :
  good (p :: os) ps ts fs → ts !! p = Some Plain →
  ∃ fs', io_handler p ec fs = Some fs' ∧ good os ps ts fs'.
Proof.
  intros [H1 H2 H3 H4 H5 H6] Hp.
  destruct (H4 p) as (e & Hl & He); [apply list_elem_of_here|]. rewrite Hp in Hl. injection Hl as <-.
  destruct (fut_set_pending fs p (Code ec) (He eq_refl)) as [fs' E]. exists fs'. split; [done|].
  pose proof (fut_set_ready _ _ _ _ E) as Hr.
  assert (Hot : ∀ q, q ≠ p → fut_state q fs' = fut_state q fs) by (intros; by eapply fut_set_other).
  apply NoDup_cons in H3 as [Hnin Hnd]. split; [| |done| | |done].
  - intros q e Hq. destruct (decide (q = p)) as [->|Hne]; [eauto|]. rewrite Hot by done. by eapply H1.
  - intros q k t Hq. destruct (H2 _ _ _ Hq) as [<- Hw]. split; [done|]. eapply wf_other; [|done].
    apply Hot. congruence.
  - intros q Hq. destruct (H4 q) as (e & Hl & Hpe); [set_solver|]. exists e. split; [done|].
    rewrite Hot; [done|]. by intros ->.
  - intros q e Hq Hf. destruct (decide (q = p)) as [->|Hne]; [congruence|]. rewrite Hot in Hf by done.
    specialize (H5 _ _ Hq Hf). set_solver.
Qed.

(** Promises made elsewhere change nothing. *)
Lemma good_agree os ps ts fs fs' :
  (∀ p, is_Some (fut_state p fs) → fut_state p fs' = fut_state p fs) → good os ps ts fs → good os ps ts fs'.
Proof.
  intros Ha [H1 H2 H3 H4 H5 H6].
  assert (Hs : ∀ p e, ts !! p = Some e → fut_state p fs' = fut_state p fs).
  { intros p e Hp. apply Ha. destruct (H1 _ _ Hp) as [->|[v ->]]; eauto. }
  split; [| |done| | |done].
  - intros p e Hp. rewrite (Hs _ _ Hp). exact (H1 _ _ Hp).
  - intros p k t Hp. destruct (H2 _ _ _ Hp) as [<- Hw]. split; [done|]. eapply wf_other; [|done]. exact (Hs _ _ Hp).
  - intros p Hp. destruct (H4 _ Hp) as (e & Hl & He). exists e. by rewrite (Hs _ _ Hl).
  - intros p e Hp. rewrite (Hs _ _ Hp). exact (H5 _ _ Hp).
Qed.

(** ** Every step keeps the invariant *)

(** A call moves from its program. *)
Lemma programs_perm {A} (g : micro → list A) (ps : list (list micro)) i m pr :
  ps !! i = Some (m :: pr) →
  (ps ≫= (λ pr, pr ≫= g)) ≡ₚ g m ++ (<[i := pr]> ps ≫= (λ pr, pr ≫= g)).
Proof.
  revert i. induction ps as [|q ps IH]; intros [|i] Hi; cbn in *; simplify_eq.
  - cbn. by rewrite <- app_assoc.
  - fold (mbind (M:=list) (λ pr : list micro, pr ≫= g)). rewrite (IH _ Hi).
    rewrite !app_assoc. apply Permutation_app_tail, Permutation_app_comm.
Qed.

Lemma inv_frame w w' :
  owners w ≡ₚ owners w' → starting w' ⊆ starting w → tasks w' = tasks w → futs w' = futs w →
  escaped w' = escaped w → (undefined w' = true → alive w' = false) → inv w → inv w'.
Proof.
  intros Ho Hs Ht Hf He Hu [Hg Hesc _]. split; [|congruence|done].
  rewrite Ht, Hf. by eapply good_perm.
Qed.

Lemma owners_add pr w : owners (add_program pr w) ≡ₚ (pr ≫= micro_owner) ++ owners w.
Proof.
  unfold owners. cbn. rewrite bind_app. cbn. rewrite app_nil_r.
  rewrite <- app_assoc, !(Permutation_app_comm (pr ≫= micro_owner)), <- !app_assoc. done.
Qed.

Lemma starting_add pr w : starting (add_program pr w) ⊆ (pr ≫= posted_by) ++ starting w.
Proof.
  unfold starting. cbn. rewrite bind_app. cbn. rewrite app_nil_r. set_solver.
Qed.

(** A method that makes no task. *)
Lemma inv_add pr w : pr ≫= micro_owner = [] → pr ≫= posted_by = [] → inv w → inv (add_program pr w).
Proof.
  intros Hm Hp Hi. apply (inv_frame w); try done; [| |apply Hi].
  - by rewrite owners_add, Hm.
  - etrans; [apply starting_add|]. by rewrite Hp.
Qed.

(** A method that makes a task and calls or posts its operation once. *)
Definition starts_task (e : nat → entry) (pr : nat → list micro) : Prop :=
  ∀ p, pr p ≫= micro_owner = [p] ∧
    ((e p = Plain ∧ pr p ≫= posted_by = []) ∨ ∃ k d, e p = Guarded k (mk d false p)).

Lemma inv_call e pr w : starts_task e pr → inv w →
  inv (call_task e pr w).2.
Proof.
  intros Hst Hi. unfold call_task, make_task. pose proof (good_new _ _ _ _ (e (fut_make (futs w)).1) (inv_good _ Hi)) as Hg.
  destruct (fut_make (futs w)) as [p fs']. cbn in Hg. destruct (Hst p) as [Hm He].
  destruct Hg as [Hg Hg']; [naive_solver|]. split; [|apply Hi|apply Hi].
  assert (Hp : owners (add_program (pr p) (set_tasks (<[p:=e p]> (tasks w)) fs' (escaped w) w)) ≡ₚ p :: owners w)
    by (rewrite owners_add, Hm; done).
  pose proof (starting_add (pr p) (set_tasks (<[p:=e p]> (tasks w)) fs' (escaped w) w)) as Hs.
  cbn [tasks futs add_program set_programs set_tasks]. destruct He as [[He Hpb]|(k & d & He)].
  - rewrite Hpb in Hs. eapply good_perm; [by symmetry| |exact Hg]. exact Hs.
  - eapply good_perm; [by symmetry| |apply Hg'; by rewrite He].
    etrans; [exact Hs|]. intros q Hq. apply elem_of_app in Hq as [Hq|Hq]; [|by apply list_elem_of_further].
    assert (q ∈ pr p ≫= micro_owner) as Hq'.
    { apply list_elem_of_bind in Hq as (m & Hq & Hin). apply list_elem_of_bind. exists m.
      destruct m; [by split|by apply not_elem_of_nil in Hq..]. }
    rewrite Hm in Hq'. set_solver.
Qed.

(** After a guarded assignment for [p]. *)
Lemma inv_settle w os p k t v :
  good os (starting w) (tasks w) (futs w) → tasks w !! p = Some (Guarded k t) →
  (os ≡ₚ owners w ∨ os ≡ₚ p :: owners w) →
  escaped w = false → (undefined w = true → alive w = false) →
  inv (settle p k (set_once v t (futs w)) w).
Proof.
  intros Hg Hp Hos He Hu.
  destruct (good_set_once os (owners w) _ _ _ p k t v Hg Hp) as (fs' & E & Hg').
  - destruct Hos as [->| ->]; set_solver.
  - pose proof (good_nodup _ _ _ _ Hg) as Hnd. destruct Hos as [Ho|Ho]; rewrite Ho in Hnd; [done|].
    by apply NoDup_cons in Hnd as [].
  - intros q. destruct Hos as [->| ->]; set_solver.
  - unfold settle. rewrite E. split; [done| |done]. cbn. by rewrite He.
Qed.

(** The completion of task [p], which is no longer among those to be completed. *)
Lemma inv_call_handler w p ec n :
  good (p :: owners w) (starting w) (tasks w) (futs w) →
  escaped w = false → (undefined w = true → alive w = false) → inv (call_handler p ec n w).
Proof.
  intros Hg He Hu. unfold call_handler.
  destruct (good_owned _ _ _ _ Hg p) as (e & Hl & _); [apply list_elem_of_here|]. rewrite Hl.
  destruct e as [|k t].
  - destruct (good_io_handler _ _ _ _ p ec Hg Hl) as (fs' & -> & Hg'). by split.
  - unfold handler. rewrite try_set_once by (by eapply good_guarded).
    by eapply inv_settle; [exact Hg|done|right| |].
Qed.

Lemma inv_call_deadline p w : inv w → inv (call_deadline p w).
Proof.
  intros Hi. pose proof (inv_good _ Hi) as Hg. unfold call_deadline.
  destruct (tasks w !! p) as [[|k t]|] eqn:Hl; [done| |done].
  destruct (deadline t && negb (alive w)) eqn:Ed.
  - split; [done|apply Hi|]. intros _. cbn. apply andb_true_iff in Ed as [_ Ed]. by apply negb_true_iff in Ed.
  - unfold handler_deadline. destruct (deadline t && (expires_at w <=? now w)).
    + rewrite try_set_once by (by eapply good_guarded).
      eapply inv_settle; [exact Hg|done|by left|apply Hi|apply Hi].
    + unfold settle. rewrite insert_id by done. destruct Hi as [_ He Hu]. split; cbn; [done| |done]. by rewrite He.
Qed.

Lemma inv_run_closure c ps throws w : inv w → posted w = c :: ps →
  inv (run_closure c throws (set_service ps (ops w) w)).
Proof.
  intros [Hg He Hu] Hps. destruct c as [o|]; cbn [run_closure].
  - assert (Hos : owners w ≡ₚ owner o :: owners (set_service ps (ops w) w)).
    { unfold owners. cbn. rewrite Hps. cbn. by rewrite <- Permutation_middle. }
    assert (Hst : starting (set_service ps (ops w) w) ⊆ starting w).
    { unfold starting. cbn. rewrite Hps. cbn. set_solver. }
    destruct throws.
    + destruct (good_posted _ _ _ _ Hg (owner o)) as (k & t & Hl).
      { unfold starting. rewrite Hps. cbn. set_solver. }
      cbn. rewrite Hl. unfold cancel.
      apply (inv_settle (set_service ps (ops w) w) (owners w)); [|done|by right|done|done].
      by eapply good_perm; [|exact Hst|exact Hg].
    + split; [|done|done]. eapply good_perm; [| |exact Hg].
      * rewrite Hos. unfold owners. cbn. rewrite fmap_app. cbn.
        rewrite !app_assoc, (Permutation_app_comm _ [owner o]). done.
      * done.
  - split; [|done|done]. eapply good_perm; [| |exact Hg]; unfold owners, starting; cbn; by rewrite Hps.
Qed.

Lemma ops_delete (l : list op) i o : l !! i = Some o → owner <$> l ≡ₚ owner o :: (owner <$> delete i l).
Proof.
  intros Hi. rewrite <- fmap_cons. apply fmap_Permutation. by apply delete_Permutation.
Qed.

(** A commit touches the stream buffer, or what is left of it. *)
Lemma commit_frame o data w : let w' := commit o data w in
  owners w' = owners w ∧ starting w' = starting w ∧ tasks w' = tasks w ∧ futs w' = futs w ∧ escaped w' = escaped w ∧
  ops w' = ops w ∧ alive w' = alive w ∧
  ((undefined w = true → alive w = false) → undefined w' = true → alive w' = false).
Proof.
  unfold commit. destruct (is_read o); [|done]. destruct (alive w) eqn:Ea; cbn; rewrite ?Ea; split_and!; done.
Qed.

Lemma inv_read_some i o data w : inv w → ops w !! i = Some o → inv (read_some i o data w).
Proof.
  intros Hi Ho. unfold read_some. set (w1 := set_service _ _ w).
  destruct (commit_frame o data w1) as (E1 & E2 & E3 & E4 & E5 & _ & _ & E8). apply (inv_frame w); try done.
  - rewrite E1. unfold owners. cbn. rewrite list_fmap_insert. cbn.
    rewrite list_insert_id; [done|]. by rewrite list_lookup_fmap, Ho.
  - by rewrite E2.
  - apply E8, Hi.
Qed.

Lemma inv_finish_op i o ec data w : inv w → ops w !! i = Some o →
  inv (finish_op o ec data (set_service (posted w) (delete i (ops w)) w)).
Proof.
  intros [Hg He Hu] Ho.
  assert (Hos : owners w ≡ₚ owner o :: owners (set_service (posted w) (delete i (ops w)) w)).
  { unfold owners. cbn. rewrite (ops_delete _ _ _ Ho). by rewrite <- !Permutation_middle. }
  assert (Hg' : good (owner o :: owners (set_service (posted w) (delete i (ops w)) w)) (starting w) (tasks w) (futs w))
    by (by eapply good_perm; [exact Hos| |exact Hg]).
  unfold finish_op. set (w1 := set_service _ _ w) in *.
  destruct (commit_frame o data w1) as (E1 & E2 & E3 & E4 & E5 & _ & _ & E8).
  apply inv_call_handler; [by rewrite E1, E2, E3, E4|by rewrite E5|by apply E8].
Qed.

Lemma inv_micro i m pr w : inv w → programs w !! i = Some (m :: pr) →
  inv (micro_step m (set_programs (<[i := pr]> (programs w)) w)).
Proof.
  intros Hi Hp.
  pose proof (programs_perm micro_owner _ _ _ _ Hp) as H1.
  pose proof (programs_perm posted_by _ _ _ _ Hp) as H2.
  assert (Hu : undefined w = true → alive w = false) by apply Hi.
  destruct m as [[o|]|o| | | | |]; apply (inv_frame w); try done;
    unfold owners, starting; cbn in *; rewrite ?H1, ?H2, ?bind_app, ?fmap_app; cbn; rewrite ?app_nil_r; try done.
  - rewrite <- app_assoc. cbn. by rewrite <- !Permutation_middle.
  - set_solver.
  - rewrite !app_assoc. symmetry. apply (Permutation_app_comm _ [owner o]).
Qed.

Lemma step_inv e w w' : inv w → step e w = Some w' → inv w'.
Proof.
  intros Hi E. destruct e; cbn in E; unfold when in E;
    repeat (match type of E with context [if ?b then Some _ else None] => destruct b end; [|done]);
    try (injection E as <-).
  - apply inv_add; [done..|]. by apply (inv_frame w); try apply Hi.
  - unfold read_input_stream. destruct (0 <? _); by apply (inv_frame w); try apply Hi.
  - apply inv_call; [|done]. intros p. split; [done|by left].
  - unfold tcp_async_read_size. destruct (0 <? _); apply inv_call; try done; intros p; (split; [done|right; by eexists _, _]).
  - unfold tcp_async_read. destruct (0 <? _); apply inv_call; try done; intros p; (split; [done|right; by eexists _, _]).
  - unfold tcp_async_write. destruct (0 <? _); apply inv_call; try done; intros p; (split; [done|right; by eexists _, _]).
  - by apply inv_add.
  - unfold udp_async_connect.
    pose proof (fut_resolved_other (Code success) (futs w)) as Ho.
    destruct (fut_resolved (Code success) (futs w)) as [p fs'].
    split; [|apply Hi..]. eapply good_agree; [exact Ho|apply Hi].
  - unfold udp_async_read. destruct (0 <? _); apply inv_call; try done; intros p; (split; [done|right; by eexists _, _]).
  - apply inv_call; [|done]. intros p. split; [done|by left].
  - by apply inv_add.
  - by apply (inv_frame w).
  - destruct (programs w !! i) as [[|m pr]|] eqn:Ep; [done| |done]. injection E as <-. by apply inv_micro.
  - destruct (posted w) as [|c ps] eqn:Ep; [done|]. injection E as <-. by apply inv_run_closure.
  - destruct (ops w !! i) as [o|] eqn:Eo; [|done]. destruct (may_read_some o data w); [|done]. injection E as <-.
    by apply inv_read_some.
  - destruct (ops w !! i) as [o|] eqn:Eo; [|done]. destruct (may_finish o ec data w); [|done]. injection E as <-.
    by apply inv_finish_op.
  - by apply (inv_frame w); try apply Hi.
  - destruct (ready w) as [|p rd] eqn:Er; [done|]. injection E as <-. apply inv_call_deadline.
    by apply (inv_frame w); try apply Hi.
  - by apply (inv_frame w); try apply Hi.
  - by apply (inv_frame w); try apply Hi.
Qed.

Lemma run_inv l w w' : inv w → run l w = Some w' → inv w'.
Proof.
  revert w. induction l as [|e l IH]; intros w Hi E; cbn in E; [by simplify_eq|].
  destruct (step e w) as [w1|] eqn:E1; [|done]. eapply IH; [|done]. by eapply step_inv.
Qed.

Lemma make_inv e clock fs : inv (make e clock fs).
Proof.
  split; [|done|done]. split; cbn.
  - intros p e' Hp. by rewrite lookup_empty in Hp.
  - intros p k t Hp. by rewrite lookup_empty in Hp.
  - constructor.
  - intros p Hp. by apply not_elem_of_nil in Hp.
  - intros p e' Hp. by rewrite lookup_empty in Hp.
  - intros p Hp. by apply not_elem_of_nil in Hp.
Qed.

(** ** The deadline *)

(** The event gives the timer a new expiry, cancels it or destroys it. *)
Definition moves_timer (e : event) (w : world) : bool :=
  match e with
  | User i =>
      match programs w !! i with
      | Some (MExpires _ :: _) | Some (MExpiresTimeout :: _) | Some (MCancelTimer :: _) => true
      | _ => false
      end
  | Destroy => true
  | _ => false
  end.

Fixpoint quiet (l : list event) (w : world) : bool :=
  match l with
  | [] => true
  | e :: l' => negb (moves_timer e w) && match step e w with Some w' => quiet l' w' | None => true end
  end.

Definition pending (p : nat) (w : world) : Prop := fut_state p (futs w) = Some Pending.

(** Task [p], which has the deadline [x], waits for it: it is still among the waiters, or its
    handler is about to be called and the deadline has passed. *)
Definition watched (p : nat) (x : Z) (w : world) : Prop :=
  alive w = true ∧ expires_at w = x ∧
  ((p ∈ waits w) ∨ (p ∈ ready w ∧ x <= now w)) ∧
  ∃ k t, tasks w !! p = Some (Guarded k t) ∧ deadline t = true.

(** What no step undoes: a value that was set, the kind and the deadline of a task. *)
Definition grows (ts ts' : gmap nat entry) (fs fs' : S) : Prop :=
  (∀ p v, fut_state p fs = Some (Ready v) → fut_state p fs' = Some (Ready v)) ∧
  (∀ p k t, ts !! p = Some (Guarded k t) → ∃ t', ts' !! p = Some (Guarded k t') ∧ deadline t' = deadline t).

Lemma grows_refl ts fs : grows ts ts fs fs.
Proof. split; eauto. Qed.

Lemma set_keeps_ready q u fs fs' p v :
  fut_set q u fs = Some fs' → fut_state p fs = Some (Ready v) → fut_state p fs' = Some (Ready v).
Proof.
  intros E Hp. destruct (decide (p = q)) as [->|Hne]; [|by rewrite (fut_set_other _ _ _ _ _ E)].
  rewrite (fut_set_throws fs q u) in E by congruence. done.
Qed.

Lemma grows_settle os ps p k t v w :
  good os ps (tasks w) (futs w) → tasks w !! p = Some (Guarded k t) →
  let w' := settle p k (set_once v t (futs w)) w in grows (tasks w) (tasks w') (futs w) (futs w').
Proof.
  intros Hi Hp. destruct (good_guarded _ _ _ _ Hi _ _ _ Hp) as [Hpr Hw].
  assert (Ht : ∀ q k' t', tasks w !! q = Some (Guarded k' t') →
    ∃ t'', <[p := Guarded k (mark t)]> (tasks w) !! q = Some (Guarded k' t'') ∧ deadline t'' = deadline t').
  { intros q k' t' Hq. destruct (decide (q = p)) as [->|Hne].
    - rewrite Hp in Hq. injection Hq as <- <-. exists (mark t). by rewrite lookup_insert_eq.
    - exists t'. by rewrite lookup_insert_ne. }
  unfold set_once. destruct (resolved t); [by split|].
  destruct (fut_set (promise t) v (futs w)) as [fs'|] eqn:E; [|by split].
  split; [|done]. intros q u. by eapply set_keeps_ready.
Qed.

Lemma grows_call os ps e pr w : good os ps (tasks w) (futs w) →
  grows (tasks w) (tasks (call_task e pr w).2) (futs w) (futs (call_task e pr w).2).
Proof.
  intros Hi. unfold call_task, make_task.
  pose proof (fut_make_fresh (futs w)) as Hf. pose proof (fut_make_other (futs w)) as Ho.
  destruct (fut_make (futs w)) as [q fs']. cbn in *. split.
  - intros p v Hp. rewrite Ho; [done|]. intros ->. congruence.
  - intros p k t Hp. exists t. rewrite lookup_insert_ne; [done|]. intros ->.
    destruct (good_settled _ _ _ _ Hi _ _ Hp) as [E|[v E]]; congruence.
Qed.

Lemma grows_handler os ps p ec n w : good os ps (tasks w) (futs w) →
  grows (tasks w) (tasks (call_handler p ec n w)) (futs w) (futs (call_handler p ec n w)).
Proof.
  intros Hi. unfold call_handler. destruct (tasks w !! p) as [[|k t]|] eqn:Hl; [| |apply grows_refl].
  - unfold io_handler. destruct (fut_set p (Code ec) (futs w)) as [fs'|] eqn:E; [|apply grows_refl].
    split; [|eauto]. intros q v. by eapply set_keeps_ready.
  - unfold handler. rewrite try_set_once by (by eapply good_guarded). by eapply grows_settle.
Qed.

Lemma grows_deadline os ps p w : good os ps (tasks w) (futs w) →
  grows (tasks w) (tasks (call_deadline p w)) (futs w) (futs (call_deadline p w)).
Proof.
  intros Hi. unfold call_deadline. destruct (tasks w !! p) as [[|k t]|] eqn:Hl; [apply grows_refl| |apply grows_refl].
  destruct (deadline t && negb (alive w)); [apply grows_refl|]. unfold handler_deadline.
  destruct (deadline t && _).
  - rewrite try_set_once by (by eapply good_guarded). by eapply grows_settle.
  - unfold settle. rewrite insert_id by done. apply grows_refl.
Qed.

Lemma grows_closure os ps c throws w : good os ps (tasks w) (futs w) →
  grows (tasks w) (tasks (run_closure c throws w)) (futs w) (futs (run_closure c throws w)).
Proof.
  intros Hi. destruct c as [o|]; [|apply grows_refl]. cbn. destruct throws; [|apply grows_refl].
  destruct (tasks w !! owner o) as [[|k t]|] eqn:Hl; [apply grows_refl| |apply grows_refl].
  by eapply grows_settle.
Qed.

Lemma step_grows e w w' : inv w → step e w = Some w' → grows (tasks w) (tasks w') (futs w) (futs w').
Proof.
  intros Hi E. pose proof (inv_good _ Hi) as Hg. destruct e; cbn in E; unfold when in E;
    repeat (match type of E with context [if ?b then Some _ else None] => destruct b end; [|done]);
    try (injection E as <-); try apply grows_refl; try (by eapply grows_call).
  - unfold read_input_stream. destruct (0 <? _); apply grows_refl.
  - unfold tcp_async_read_size. destruct (0 <? _); by eapply grows_call.
  - unfold tcp_async_read. destruct (0 <? _); by eapply grows_call.
  - unfold tcp_async_write. destruct (0 <? _); by eapply grows_call.
  - unfold udp_async_connect. pose proof (fut_resolved_other (Code success) (futs w)) as Ho.
    destruct (fut_resolved (Code success) (futs w)) as [p fs']. split; [|eauto]. cbn in *.
    intros q v Hq. rewrite Ho; [done|]. rewrite Hq. eauto.
  - unfold udp_async_read. destruct (0 <? _); by eapply grows_call.
  - destruct (programs w !! i) as [[|m pr]|]; [done| |done]. injection E as <-. destruct m; apply grows_refl.
  - destruct (posted w) as [|c ps]; [done|]. injection E as <-.
    by apply (grows_closure _ _ _ _ (set_service ps (ops w) w) Hg).
  - destruct (ops w !! i) as [o|]; [|done]. destruct (may_read_some o data w); [|done]. injection E as <-. unfold read_some.
    destruct (commit_frame o data (set_service (posted w) (<[i := mkOp (kind o) (owner o) (got o + size data)]> (ops w)) w))
      as (_ & _ & -> & -> & _). apply grows_refl.
  - destruct (ops w !! i) as [o|]; [|done]. destruct (may_finish o ec data w); [|done]. injection E as <-.
    unfold finish_op. set (w1 := set_service _ _ w). destruct (commit_frame o data w1) as (_ & _ & E3 & E4 & _).
    pose proof (grows_handler (owners w) (starting w) (owner o) ec (got o + size data) (commit o data w1)) as Hgr.
    rewrite E3, E4 in Hgr. by apply Hgr.
  - destruct (ready w) as [|p rd]; [done|]. injection E as <-.
    by apply (grows_deadline _ _ p (set_timer (expires_at w) (waits w) rd w) Hg).
Qed.

(** Handlers do not touch the timer. *)
Definition timer_of (w : world) := (alive w, expires_at w, now w, waits w, ready w).

Lemma timer_of_settle p k r w : timer_of (settle p k r w) = timer_of w.
Proof. unfold settle. by destruct r as [[ok t'] fs']. Qed.

Lemma timer_of_handler p ec n w : timer_of (call_handler p ec n w) = timer_of w.
Proof.
  unfold call_handler. destruct (tasks w !! p) as [[|k t]|]; [|apply timer_of_settle|done].
  by destruct (io_handler p ec (futs w)).
Qed.

Lemma timer_of_deadline p w : timer_of (call_deadline p w) = timer_of w.
Proof.
  unfold call_deadline. destruct (tasks w !! p) as [[|k t]|]; [done| |done].
  destruct (deadline t && negb (alive w)); [done|apply timer_of_settle].
Qed.

Lemma timer_of_closure c throws w : timer_of (run_closure c throws w) = timer_of w.
Proof.
  destruct c as [o|]; [|done]. cbn. destruct throws; [|done].
  destruct (tasks w !! owner o) as [[|k t]|]; [done|apply timer_of_settle|done].
Qed.

Lemma timer_of_call e pr w : timer_of (call_task e pr w).2 = timer_of w.
Proof. unfold call_task, make_task. by destruct (fut_make (futs w)). Qed.

Lemma timer_of_commit o data w : timer_of (commit o data w) = timer_of w.
Proof. unfold commit. by destruct (is_read o), (alive w) eqn:Ea; cbn; rewrite ?Ea. Qed.

Lemma timer_of_finish o ec data w : timer_of (finish_op o ec data w) = timer_of w.
Proof. unfold finish_op. by rewrite timer_of_handler, timer_of_commit. Qed.

(** The timer after a step that does not move it. *)
Lemma step_timer e w w' : step e w = Some w' → moves_timer e w = false →
  timer_of w' = timer_of w ∨
  (alive w' = alive w ∧ expires_at w' = expires_at w ∧ now w <= now w' ∧ ready w' = ready w ∧ waits w ⊆ waits w') ∨
  (alive w' = alive w ∧ expires_at w' = expires_at w ∧ now w' = now w ∧ expires_at w <= now w ∧
   ready w' = ready w ++ waits w) ∨
  (∃ p rd, ready w = p :: rd ∧ timer_of w' = (alive w, expires_at w, now w, waits w, rd) ∧
    w' = call_deadline p (set_timer (expires_at w) (waits w) rd w)).
Proof.
  intros E Hm. destruct e; cbn in E, Hm; unfold when in E;
    repeat (match type of E with context [if ?b then Some _ else None] => destruct b eqn:?Eb end; [|done]);
    try (injection E as <-); try (by left); try (left; by apply timer_of_call).
  - left. unfold read_input_stream. by destruct (0 <? _).
  - left. unfold tcp_async_read_size. destruct (0 <? _); apply timer_of_call.
  - left. unfold tcp_async_read. destruct (0 <? _); apply timer_of_call.
  - left. unfold tcp_async_write. destruct (0 <? _); apply timer_of_call.
  - left. unfold udp_async_connect. by destruct (fut_resolved (Code success) (futs w)).
  - left. unfold udp_async_read. destruct (0 <? _); apply timer_of_call.
  - destruct (programs w !! i) as [[|m pr]|]; [done| |done]. injection E as <-.
    destruct m; try done; try (by left). right. left. cbn. split_and!; try done. set_solver.
  - left. destruct (posted w) as [|c ps]; [done|]. injection E as <-. by rewrite timer_of_closure.
  - left. destruct (ops w !! i) as [o|]; [|done]. destruct (may_read_some o data w); [|done]. injection E as <-.
    unfold read_some. by rewrite timer_of_commit.
  - left. destruct (ops w !! i) as [o|]; [|done]. destruct (may_finish o ec data w); [|done]. injection E as <-.
    by rewrite timer_of_finish.
  - right. right. left. cbn. split_and!; try done. by apply Z.leb_le.
  - do 3 right. destruct (ready w) as [|p rd]; [done|]. injection E as <-. exists p, rd.
    split; [done|]. by rewrite timer_of_deadline.
  - right. left. cbn. apply Z.leb_le in Eb. split_and!; try done. lia.
Qed.

Definition settled (p : nat) (w : world) : Prop := ∃ v, fut_state p (futs w) = Some (Ready v).

(** The handler of a deadline that has passed settles its task. *)
Lemma deadline_settles os ps p k t w :
  good os ps (tasks w) (futs w) → tasks w !! p = Some (Guarded k t) → deadline t = true →
  alive w = true → expires_at w <= now w → settled p (call_deadline p w).
Proof.
  intros Hg Hl Hd Ha Hx. destruct (good_guarded _ _ _ _ Hg _ _ _ Hl) as [Hp Hw].
  unfold call_deadline. rewrite Hl, Hd, Ha. cbn [negb andb]. unfold handler_deadline.
  rewrite Hd, (proj2 (Z.leb_le _ _) Hx), try_set_once by done. cbn [andb].
  destruct (set_once_wf (timeout_value k) t (futs w) Hw) as (fs' & E & _ & Hst & _). rewrite E. cbn.
  unfold settled. cbn. rewrite Hp in *. rewrite Hst. destruct (resolved t) eqn:Er; [|eauto].
  destruct (good_settled _ _ _ _ Hg _ _ Hl) as [Hc|?]; [|done]. rewrite <- Hp in Hc. apply Hw in Hc. congruence.
Qed.

Lemma step_settled p e w w' : inv w → step e w = Some w' → settled p w → settled p w'.
Proof. intros Hi E [v Hv]. exists v. by eapply step_grows. Qed.

Lemma step_watched p x e w w' :
  inv w → step e w = Some w' → moves_timer e w = false → watched p x w → watched p x w' ∨ settled p w'.
Proof.
  intros Hi E Hm (Ha & Hx & Hin & k & t & Hl & Hd).
  destruct (proj2 (step_grows _ _ _ Hi E) _ _ _ Hl) as (t' & Hl' & Hd').
  assert (Ht : ∃ k t, tasks w' !! p = Some (Guarded k t) ∧ deadline t = true) by (exists k, t'; split; congruence).
  destruct (step_timer _ _ _ E Hm) as [Et|[(A & B & C & D & F)|[(A & B & C & D & F)|(q & rd & Er & Et & Ew)]]].
  - left. unfold timer_of in Et. injection Et as A B C D F. unfold watched. rewrite A, B, C, D, F. by split_and!.
  - left. split_and!; try congruence. rewrite D. destruct Hin as [Hin|[Hin Hn]]; [left; by apply F|right; split; [done|lia]].
  - left. split_and!; try congruence. right. rewrite F. set_solver by lia.
  - unfold timer_of in Et. injection Et as A B C D F. destruct (decide (p = q)) as [<-|Hne].
    + destruct Hin as [Hin|[_ Hn]]; [left; split_and!; try congruence; left; congruence|right].
      rewrite Ew. eapply deadline_settles; [apply Hi|done..|]. cbn. lia.
    + left. split_and!; try congruence. destruct Hin as [Hin|[Hin Hn]]; [left; congruence|right].
      split; [|lia]. rewrite F. rewrite Er in Hin. set_solver.
Qed.

Lemma run_watched p x l w w' :
  inv w → run l w = Some w' → quiet l w = true → watched p x w ∨ settled p w → watched p x w' ∨ settled p w'.
Proof.
  revert w. induction l as [|e l IH]; intros w Hi E Hq Hw; cbn in *; [by simplify_eq|].
  destruct (step e w) as [w1|] eqn:E1; [|done]. apply andb_true_iff in Hq as [Hm Hq]. apply negb_true_iff in Hm.
  eapply (IH w1); [by eapply step_inv|done|done|]. destruct Hw as [Hw|Hw].
  - by eapply step_watched.
  - right. by eapply step_settled.
Qed.

(** The thread of the service calls the handlers that are ready. *)
Lemma run_waits n w : length (ready w) = n → waits w = [] →
  ∃ w', run (replicate n RunWait) w = Some w' ∧ quiet (replicate n RunWait) w = true ∧
    ready w' = [] ∧ waits w' = [].
Proof.
  revert w. induction n as [|n IH]; intros w Hn Hw.
  - exists w. apply nil_length_inv in Hn. done.
  - cbn. destruct (ready w) as [|p rd] eqn:Er; [done|]. cbn in Hn.
    set (w1 := call_deadline p (set_timer (expires_at w) (waits w) rd w)).
    assert (Et : timer_of w1 = (alive w, expires_at w, now w, waits w, rd)) by (unfold w1; by rewrite timer_of_deadline).
    unfold timer_of in Et. injection Et as _ _ _ Hw1 Hr1. apply IH; congruence.
Qed.

Lemma run_app l l' w w' w'' : run l w = Some w' → run l' w' = Some w'' → run (l ++ l') w = Some w''.
Proof.
  revert w. induction l as [|e l IH]; intros w E E'; cbn in *; [by simplify_eq|].
  destruct (step e w); [|done]. eauto.
Qed.
Lemma run_keeps_value p v l w w' : inv w → run l w = Some w' →
  fut_state p (futs w) = Some (Ready v) → fut_state p (futs w') = Some (Ready v).
Proof.
  revert w. induction l as [|e l IH]; intros w Hi E Hv; cbn in E; [by simplify_eq|].
  destruct (step e w) as [w1|] eqn:E1; [|done]. eapply IH; [by eapply step_inv|done|]. by eapply step_grows.
Qed.

(** The timer fires and all its handlers are called. *)
Lemma drain w : expires_at w <= now w →
  let l := TimerFires :: replicate (length (ready w) + length (waits w)) RunWait in
  ∃ w', run l w = Some w' ∧ quiet l w = true ∧ ready w' = [] ∧ waits w' = [].
Proof.
  intros Hx l. unfold l. cbn. rewrite (proj2 (Z.leb_le _ _) Hx). cbn.
  apply run_waits; [|done]. cbn. by rewrite length_app.
Qed.

Lemma quiet_expiry l w w' : run l w = Some w' → quiet l w = true → expires_at w' = expires_at w.
Proof.
  revert w. induction l as [|e l IH]; intros w E Hq; cbn in *; [by simplify_eq|].
  destruct (step e w) as [w1|] eqn:E1; [|done]. apply andb_true_iff in Hq as [Hm Hq]. apply negb_true_iff in Hm.
  rewrite (IH w1) by done. destruct (step_timer _ _ _ E1 Hm) as [Et|[?|[?|(q & rd & _ & Et & _)]]];
    [unfold timer_of in Et; congruence|naive_solver..|unfold timer_of in Et; congruence].
Qed.
(** ** The bytes of the stream *)

(** The operation to which an event brings data. *)
Definition brought (e : event) (w : world) : option (op * cstring) :=
  match e with
  | ReadSome i data | Complete i _ data => o ← ops w !! i; Some (o, data)
  | _ => None
  end.

(** What the reads of a run bring, what [read_input_stream] takes out of the stream buffer, and how much the
    operation of task [p] brings. *)
Definition step_received (e : event) (w : world) : cstring :=
  match brought e w with Some (o, data) => if is_read o then data else [] | None => [] end.

Definition step_taken (e : event) (w : world) : cstring :=
  match e with ReadInputStream n => (read_input_stream n w).1.2 | _ => [] end.

Definition step_count (p : nat) (e : event) (w : world) : Z :=
  match brought e w with Some (o, data) => if bool_decide (owner o = p) then size data else 0 | None => 0 end.

Fixpoint gather (f : event → world → cstring) (l : list event) (w : world) : cstring :=
  match l with
  | [] => []
  | e :: l' => f e w ++ match step e w with Some w' => gather f l' w' | None => [] end
  end.

Fixpoint count (p : nat) (l : list event) (w : world) : Z :=
  match l with
  | [] => 0
  | e :: l' => step_count p e w + match step e w with Some w' => count p l' w' | None => 0 end
  end.

(** The stream buffer, and whether it is shared. *)
Definition stream_of (w : world) := (input_buffer w, shared w).

Lemma stream_of_settle p k r w : stream_of (settle p k r w) = stream_of w.
Proof. unfold settle. by destruct r as [[ok t'] fs']. Qed.

Lemma stream_of_handler p ec n w : stream_of (call_handler p ec n w) = stream_of w.
Proof.
  unfold call_handler. destruct (tasks w !! p) as [[|k t]|]; [|apply stream_of_settle|done].
  by destruct (io_handler p ec (futs w)).
Qed.

Lemma stream_of_call e pr w : stream_of (call_task e pr w).2 = stream_of w.
Proof. unfold call_task, make_task. by destruct (fut_make (futs w)). Qed.

Lemma stream_of_deadline p w : stream_of (call_deadline p w) = stream_of w.
Proof.
  unfold call_deadline. destruct (tasks w !! p) as [[|k t]|]; [done| |done].
  destruct (deadline t && negb (alive w)); [done|apply stream_of_settle].
Qed.

(** A commit adds its data; nothing comes to a session that was destroyed. *)
Lemma stream_of_commit o data w : (alive w = true ∨ data = []) →
  stream_of (commit o data w) = (input_buffer w ++ if is_read o then data else [], shared w).
Proof.
  intros Hd. unfold commit. destruct (is_read o); [|by rewrite app_nil_r]. destruct (alive w); [done|].
  destruct Hd as [?| ->]; [done|]. by rewrite app_nil_r.
Qed.

Lemma may_finish_data o ec data w : may_finish o ec data w = true → alive w = true ∨ data = [].
Proof.
  intros [_ Hf]%andb_true_iff. destruct (alive w); [by left|right]. apply andb_true_iff in Hf as [_ Hf].
  apply Z.eqb_eq in Hf. unfold size in Hf. by destruct data.
Qed.

(** A step that leaves the stream alone but for being shared. *)
Definition same_stream (w w' : world) : Prop := input_buffer w' = input_buffer w ∧ (shared w' = false → shared w = false).

Lemma same_stream_of w w' : stream_of w' = stream_of w → same_stream w w'.
Proof. unfold stream_of, same_stream. intros E. injection E as -> ->. done. Qed.

Lemma same_stream_share b w : same_stream w (share b w).
Proof. split; [done|]. cbn. by intros [? _]%orb_false_iff. Qed.

Lemma same_stream_received e w w' : same_stream w w' → step_received e w = [] → step_taken e w = [] →
  shared w' = false → shared w = false ∧ input_buffer w ++ step_received e w = step_taken e w ++ input_buffer w'.
Proof. intros [-> Hs] -> -> Hf. rewrite app_nil_r. split; [by apply Hs|done]. Qed.

Lemma step_stream e w w' : step e w = Some w' → shared w' = false →
  shared w = false ∧ input_buffer w ++ step_received e w = step_taken e w ++ input_buffer w'.
Proof.
  intros E. destruct e; cbn in E; unfold when in E;
    repeat (match type of E with context [if ?b then Some _ else None] => destruct b eqn:?Eb end; [|done]);
    try (injection E as <-); try (by apply same_stream_received);
    try (apply same_stream_received; [apply same_stream_of, stream_of_call|done|done]).
  - unfold read_input_stream, step_received, step_taken. cbn. unfold read_input_stream. destruct (0 <? _); cbn.
    + intros [-> _]%orb_false_iff. by rewrite app_nil_r, take_drop.
    + intros [-> _]%orb_false_iff. by rewrite app_nil_r.
  - unfold tcp_async_read_size. destruct (0 <? _); apply same_stream_received; try done; apply same_stream_of, stream_of_call.
  - unfold tcp_async_read. destruct (0 <? _); apply same_stream_received; try done; apply same_stream_of, stream_of_call.
  - unfold tcp_async_write. destruct (0 <? _); apply same_stream_received; try done; apply same_stream_of, stream_of_call.
  - unfold udp_async_connect. destruct (fut_resolved (Code success) (futs w)). by apply same_stream_received.
  - unfold udp_async_read. destruct (0 <? _); apply same_stream_received; try done; apply same_stream_of, stream_of_call.
  - destruct (programs w !! i) as [[|m pr]|]; [done| |done]. injection E as <-. apply same_stream_received; [|done|done].
    destruct m; try done. apply (same_stream_share _ (set_programs (<[i := pr]> (programs w)) w)).
  - destruct (posted w) as [|c ps]; [done|]. injection E as <-. apply same_stream_received; [|done|done].
    destruct c as [o|]; [|done]. cbn. destruct throws; [|apply (same_stream_share _ (set_service ps (ops w) w))].
    apply same_stream_of. destruct (tasks w !! owner o) as [[|k t]|]; [done|by rewrite stream_of_settle|done].
  - destruct (ops w !! i) as [o|] eqn:Eo; [|done]. destruct (may_read_some o data w) eqn:Em; [|done]. injection E as <-.
    assert (alive w = true) as Ha by (unfold may_read_some in Em; destruct (kind o); try done; by apply andb_true_iff in Em as [_ ?]).
    unfold read_some, step_received. cbn [brought]. rewrite Eo. cbn [mbind option_bind]. intros Hs.
    pose proof (stream_of_commit o data (set_service (posted w) (<[i := mkOp (kind o) (owner o) (got o + size data)]> (ops w)) w)
      (or_introl Ha)) as Hc. injection Hc as -> Hsh. rewrite Hsh in Hs. done.
  - destruct (ops w !! i) as [o|] eqn:Eo; [|done]. destruct (may_finish o ec data w) eqn:Em; [|done]. injection E as <-.
    unfold step_received. cbn [brought]. rewrite Eo. cbn [mbind option_bind]. unfold finish_op. intros Hs.
    pose proof (stream_of_commit o data (set_service (posted w) (delete i (ops w)) w) (may_finish_data _ _ _ _ Em)) as Hc.
    rewrite <- (stream_of_handler (owner o) ec (got o + size data)) in Hc. injection Hc as -> Hsh. rewrite Hsh in Hs. done.
  - destruct (ready w) as [|p rd]; [done|]. injection E as <-. apply same_stream_received; [|done|done].
    apply same_stream_of. by rewrite stream_of_deadline.
  - cbn. congruence.
Qed.

Lemma run_stream l w w' : run l w = Some w' → shared w' = false →
  shared w = false ∧ input_buffer w ++ gather step_received l w = gather step_taken l w ++ input_buffer w'.
Proof.
  revert w. induction l as [|e l IH]; intros w E Hs; cbn [run gather] in *; [by simplify_eq; rewrite app_nil_r|].
  destruct (step e w) as [w1|] eqn:E1; [|done]. destruct (IH _ E Hs) as [Hs1 Eq]. destruct (step_stream _ _ _ E1 Hs1) as [Hs0 Eq0].
  split; [done|]. by rewrite app_assoc, Eq0, <- !app_assoc, <- Eq.
Qed.

(** ** What a read reports *)
Definition closure_op (c : closure) : list op := match c with StartOp o => [o] | CloseSocket => [] end.

Definition micro_op (m : micro) : list op := match m with MPost c => closure_op c | MStart o => [o] | _ => [] end.

(** The operations, started or not. *)
Definition all_ops (w : world) : list op :=
  (programs w ≫= (λ pr, pr ≫= micro_op)) ++ (posted w ≫= closure_op) ++ ops w.

Lemma fmap_bind_owner {A} (f : A → list op) (l : list A) : owner <$> (l ≫= f) = l ≫= (λ x, owner <$> f x).
Proof. induction l as [|x l IH]; [done|]. cbn. by rewrite fmap_app, <- IH. Qed.

Lemma owners_all w : owners w = owner <$> all_ops w.
Proof.
  unfold owners, all_ops. rewrite !fmap_app, !fmap_bind_owner. f_equal; [|f_equal].
  - apply list_bind_ext; [|done]. intros pr. rewrite fmap_bind_owner. apply list_bind_ext; [|done]. intros [[]| | | | | |]; done.
  - apply list_bind_ext; [|done]. by intros [].
Qed.

(** [c p] bytes have come by the operation of task [p]: the operations know it, and a read that has a value was given up
    or reported it. *)
Record counted (c : nat → Z) (w : world) : Prop := {
  c_ops o : o ∈ all_ops w → got o = c (owner o);
  c_fresh p : tasks w !! p = None → c p = 0;
  c_value p t v : tasks w !! p = Some (Guarded ReadTask t) → fut_state p (futs w) = Some (Ready v) →
    v = Read timed_out 0 ∨ ∃ ec, v = Read ec (c p) ∧ p ∉ owners w
}.

Lemma counted_ext c c' w : (∀ p, c p = c' p) → counted c w → counted c' w.
Proof. intros Hc [H1 H2 H3]. split; intros; rewrite <- ?Hc; eauto. Qed.

Lemma counted_frame c w w' : counted c w → tasks w' = tasks w → futs w' = futs w →
  (∀ o, o ∈ all_ops w' → o ∈ all_ops w) → counted c w'.
Proof.
  intros [H1 H2 H3] Et Ef Ho. split; rewrite ?Et, ?Ef; [by eauto|done|]. intros p t v Hp Hv.
  destruct (H3 p t v Hp Hv) as [?|(ec & ? & Hn)]; [by left|right]. exists ec. split; [done|].
  rewrite owners_all in *. contradict Hn. apply list_elem_of_fmap in Hn as (o & -> & Hin). apply list_elem_of_fmap. eauto.
Qed.

(** A method that makes a task. *)
Lemma counted_call c e pr w : inv w → counted c w → (∀ p, ∃ kd, pr p ≫= micro_op = [new_op kd p]) →
  counted c (call_task e pr w).2.
Proof.
  intros Hi [H1 H2 H3] Hpr. unfold call_task, make_task.
  pose proof (fut_make_fresh (futs w)) as Hf. pose proof (fut_make_other (futs w)) as Hot. pose proof (fut_make_pending (futs w)) as Hpe.
  destruct (fut_make (futs w)) as [q fs']. cbn in Hf, Hot, Hpe.
  assert (tasks w !! q = None) as Hq.
  { destruct (tasks w !! q) as [e'|] eqn:E; [|done]. destruct (good_settled _ _ _ _ (inv_good _ Hi) _ _ E) as [?|[v ?]]; congruence. }
  set (w1 := add_program _ _).
  assert (∀ o, o ∈ all_ops w1 → o ∈ all_ops w ∨ (got o = 0 ∧ owner o = q)) as Ho.
  { intros o. unfold all_ops, w1. cbn. rewrite bind_app. destruct (Hpr q) as [kd Hkd]. cbn. rewrite Hkd. cbn. set_solver. }
  split.
  - intros o [Hin|[-> ->]]%Ho; [by apply H1|]. symmetry. by apply H2.
  - cbn. intros p [? ?]%lookup_insert_None. by apply H2.
  - intros p t v Hp Hv. cbn in Hp, Hv. destruct (decide (p = q)) as [->|Hne]; [congruence|]. rewrite lookup_insert_ne in Hp by done.
    rewrite Hot in Hv by done. destruct (H3 p t v Hp Hv) as [?|(ec & ? & Hn)]; [by left|right]. exists ec. split; [done|].
    rewrite owners_all in *. contradict Hn. apply list_elem_of_fmap in Hn as (o & -> & [Hin|[_ ?]]%Ho); [|done].
    apply list_elem_of_fmap. eauto.
Qed.

(** The guarded assignment of a value that a read may have, after which the operation of [p] may be gone. *)
Lemma counted_settle c w w1 p k t v : inv w → counted c w1 → tasks w1 = tasks w → futs w1 = futs w →
  tasks w !! p = Some (Guarded k t) →
  (k = ReadTask → v = Read timed_out 0 ∨ ∃ ec, v = Read ec (c p) ∧ p ∉ owners w1) →
  counted c (settle p k (set_once v t (futs w1)) w1).
Proof.
  intros Hi [H1 H2 H3] Et Ef Hp Hv. rewrite Et, Ef in *. destruct (good_guarded _ _ _ _ (inv_good _ Hi) _ _ _ Hp) as [Hpr Hw].
  destruct (set_once_wf v t (futs w) Hw) as (fs' & E & _ & Hst & Hot). rewrite Hpr in Hst, Hot. rewrite E. unfold settle. cbn.
  split.
  - done.
  - cbn. rewrite Et. intros q [? ?]%lookup_insert_None. by apply H2.
  - intros q t' v' Hq Hv'. cbn in Hq, Hv'. rewrite Et in Hq. apply lookup_insert_Some in Hq as [[<- Hq]|[Hne Hq]].
    + injection Hq as -> <-. rewrite Hst in Hv'. destruct (resolved t) eqn:Er; [by eapply H3|]. injection Hv' as <-. by apply Hv.
    + rewrite Hot in Hv' by done. by eapply H3.
Qed.

Lemma counted_handler c w w1 p ec n : inv w → counted c w1 → tasks w1 = tasks w → futs w1 = futs w →
  n = c p → p ∉ owners w1 → counted c (call_handler p ec n w1).
Proof.
  intros Hi Hc Et Ef En Hn. unfold call_handler. destruct (tasks w1 !! p) as [[|k t]|] eqn:Hp; [| |done].
  - unfold io_handler. destruct (fut_set p (Code ec) (futs w1)) as [fs'|] eqn:E; [|by eapply counted_frame].
    destruct Hc as [H1 H2 H3]. split; [done|done|]. intros q t v Hq Hv. cbn in Hq, Hv.
    rewrite (fut_set_other _ _ _ _ _ E) in Hv by (intros ->; congruence). by eapply H3.
  - rewrite Et in Hp. unfold handler. rewrite try_set_once by (rewrite Ef; eapply good_guarded; [apply Hi|done]).
    eapply (counted_settle c w); try done. intros ->. right. exists ec. by rewrite En.
Qed.

(** The operation of an event brings its data. *)
Definition bring (c : nat → Z) (o : op) (data : cstring) (p : nat) : Z :=
  c p + if bool_decide (owner o = p) then size data else 0.

Lemma counted_delete c i o w : inv w → counted c w → ops w !! i = Some o →
  counted c (set_service (posted w) (delete i (ops w)) w) ∧ (owner o ∉ owners (set_service (posted w) (delete i (ops w)) w)) ∧
  got o = c (owner o) ∧ ∀ q, tasks w !! q = None → owner o ≠ q.
Proof.
  intros Hi Hc Ho. assert (owners w ≡ₚ owner o :: owners (set_service (posted w) (delete i (ops w)) w)) as Hos.
  { unfold owners. cbn. rewrite (ops_delete _ _ _ Ho). by rewrite <- !Permutation_middle. }
  pose proof (good_nodup _ _ _ _ (inv_good _ Hi)) as Hnd. rewrite Hos in Hnd. apply NoDup_cons in Hnd as [Hnin _]. split_and!.
  - eapply counted_frame; [done..|]. intros o'. unfold all_ops. cbn. rewrite !elem_of_app.
    intros [?|[?|Hin]]; [by left|by right; left|right; right]. rewrite (delete_Permutation _ _ _ Ho). by right.
  - done.
  - apply (c_ops _ _ Hc). unfold all_ops. rewrite !elem_of_app. right. right. by eapply list_elem_of_lookup_2.
  - intros q Hq <-. destruct (good_owned _ _ _ _ (inv_good _ Hi) (owner o)) as (e & He & _); [rewrite Hos; left|congruence].
Qed.

(** Counting the data of an operation that is set aside. *)
Lemma counted_bring c o data w : counted c w → owner o ∉ owners w → (∀ q, tasks w !! q = None → owner o ≠ q) →
  (∀ t v, tasks w !! owner o = Some (Guarded ReadTask t) → fut_state (owner o) (futs w) = Some (Ready v) → v = Read timed_out 0) →
  counted (bring c o data) w.
Proof.
  intros [H1 H2 H3] Hn Hq Hv. unfold bring. split.
  - intros o' Hin. rewrite (H1 o' Hin). rewrite bool_decide_eq_false_2; [lia|]. intros E. apply Hn.
    rewrite owners_all, E. by apply list_elem_of_fmap_2.
  - intros q Hqn. rewrite (H2 q Hqn), bool_decide_eq_false_2; [done|by apply Hq].
  - intros q t v Hp Hr. case_bool_decide as E; [left; subst q; by eapply Hv|]. rewrite Z.add_0_r. by eapply H3.
Qed.

(** A read in flight that has a value was given up. *)
Lemma flying_value c w o t v : counted c w → o ∈ all_ops w → tasks w !! owner o = Some (Guarded ReadTask t) →
  fut_state (owner o) (futs w) = Some (Ready v) → v = Read timed_out 0.
Proof.
  intros Hc Hin Ht Hv. destruct (c_value _ _ Hc _ _ _ Ht Hv) as [?|(ec & _ & Hn)]; [done|]. destruct Hn.
  rewrite owners_all. by apply list_elem_of_fmap_2.
Qed.

Lemma op_elem i o w : ops w !! i = Some o → o ∈ all_ops w.
Proof. intros Ho. unfold all_ops. rewrite !elem_of_app. right. right. by eapply list_elem_of_lookup_2. Qed.

Lemma counted_finish c i o ec data w : inv w → counted c w → ops w !! i = Some o →
  counted (bring c o data) (finish_op o ec data (set_service (posted w) (delete i (ops w)) w)).
Proof.
  intros Hi Hc Ho. destruct (counted_delete c i o w Hi Hc Ho) as (Hc1 & Hn & Hg & Hq). set (w1 := set_service _ _ w) in *.
  destruct (commit_frame o data w1) as (E1 & E2 & E3 & E4 & _ & E6 & _). unfold finish_op.
  apply (counted_handler _ w); [done| |by rewrite E3|by rewrite E4| |by rewrite E1].
  - apply (counted_frame _ w1); [|done|done|].
    + apply counted_bring; [done..|]. intros t v. by eapply (flying_value c w o); [|by eapply op_elem].
    + unfold commit, all_ops. destruct (is_read o); [|done]. by destruct (alive w1).
  - unfold bring. rewrite bool_decide_eq_true_2 by done. lia.
Qed.

Lemma counted_read_some c i o data w : inv w → counted c w → ops w !! i = Some o →
  counted (bring c o data) (read_some i o data w).
Proof.
  intros Hi Hc Ho. destruct (counted_delete c i o w Hi Hc Ho) as (Hc1 & Hn & Hg & Hq).
  assert (counted (bring c o data) (set_service (posted w) (delete i (ops w)) w)) as Hb.
  { apply counted_bring; [done..|]. intros t v. by eapply (flying_value c w o); [|by eapply op_elem]. }
  unfold read_some. set (o' := mkOp _ _ _). set (w1 := set_service _ (<[i := o']> _) w).
  assert (counted (bring c o data) w1) as Hw1.
  { assert (∀ o0, o0 ∈ all_ops w1 → o0 = o' ∨ o0 ∈ all_ops (set_service (posted w) (delete i (ops w)) w)) as Hin.
    { intros o0. unfold all_ops. cbn. rewrite !elem_of_app. intros [?|[?|Hi0]]; [by right; left|by right; right; left|].
      rewrite (insert_Permutation _ i o o' Ho) in Hi0. apply elem_of_cons in Hi0 as [?|?]; [by left|by right; right; right]. }
    destruct Hb as [B1 B2 B3]. split.
    - intros o0 [->|Hin0]%Hin; [|by apply B1]. unfold bring. cbn. rewrite bool_decide_eq_true_2 by done. lia.
    - done.
    - intros p t v Hp Hv. destruct (B3 p t v Hp Hv) as [?|(ec & Ev & Hnp)]; [by left|]. destruct (decide (p = owner o)) as [->|Hne].
      + left. by eapply (flying_value c w o); [|by eapply op_elem|..].
      + right. exists ec. split; [done|]. rewrite owners_all in *. contradict Hnp.
        apply list_elem_of_fmap in Hnp as (o0 & -> & [->|Hin0]%Hin); [done|]. by apply list_elem_of_fmap_2. }
  destruct (commit_frame o data w1) as (_ & _ & E3 & E4 & _). apply (counted_frame _ w1); [done..|].
  unfold commit, all_ops. destruct (is_read o); [|done]. by destruct (alive w1).
Qed.

Lemma counted_deadline c p w : inv w → counted c w → counted c (call_deadline p w).
Proof.
  intros Hi Hc. unfold call_deadline. destruct (tasks w !! p) as [[|k t]|] eqn:Hl; [done| |done].
  destruct (deadline t && negb (alive w)); [by eapply counted_frame|]. unfold handler_deadline. destruct (deadline t && _).
  - rewrite try_set_once by (eapply good_guarded; [apply Hi|done]). apply (counted_settle _ w); try done. intros ->. by left.
  - unfold settle. rewrite insert_id by done. by eapply counted_frame.
Qed.

Lemma counted_closure c cl ps throws w : inv w → counted c w → posted w = cl :: ps →
  counted c (run_closure cl throws (set_service ps (ops w) w)).
Proof.
  intros Hi Hc Hps. assert (∀ o, o ∈ all_ops (set_service ps (ops w) w) → o ∈ all_ops w) as Hsub.
  { intros o. unfold all_ops. cbn. rewrite Hps. cbn. set_solver. }
  assert (counted c (set_service ps (ops w) w)) as Hc1 by (by eapply counted_frame).
  destruct cl as [o|]; cbn [run_closure]; [|by eapply counted_frame]. destruct throws.
  - cbn. destruct (tasks w !! owner o) as [[|k t]|] eqn:Hl; [done| |done]. unfold cancel.
    apply (counted_settle c w (set_service ps (ops w) w) (owner o) k t); try done. intros ->. by left.
  - eapply (counted_frame _ w); [done..|]. unfold start_op. intros o0. unfold all_ops. cbn. rewrite Hps. cbn. set_solver.
Qed.

Lemma counted_micro c i m pr w : counted c w → programs w !! i = Some (m :: pr) →
  counted c (micro_step m (set_programs (<[i := pr]> (programs w)) w)).
Proof.
  intros Hc Hp. pose proof (programs_perm micro_op _ _ _ _ Hp) as Hperm.
  destruct m as [[o|]|o| | | | |]; (eapply counted_frame; [done..|]); intros o0; unfold all_ops; cbn in *; rewrite Hperm, ?bind_app; cbn; set_solver.
Qed.

Lemma counted_none c e w w' : brought e w = None → counted c w' → counted (λ p, c p + step_count p e w) w'.
Proof. intros Hb. apply counted_ext. intros p. unfold step_count. rewrite Hb. lia. Qed.

Lemma step_counted c e w w' : inv w → counted c w → step e w = Some w' → counted (λ p, c p + step_count p e w) w'.
Proof.
  intros Hi Hc E. destruct e; cbn in E; unfold when in E;
    repeat (match type of E with context [if ?b then Some _ else None] => destruct b end; [|done]);
    try (injection E as <-); try (apply counted_none; [done|]); try (by eapply counted_frame);
    try (by apply counted_call; [done|done|intros p; eexists]).
  - unfold set_read_timeout. eapply counted_frame; [done..|]. intros o. unfold all_ops. cbn. rewrite bind_app. cbn. set_solver.
  - unfold read_input_stream. destruct (0 <? _); by eapply counted_frame.
  - unfold tcp_async_read_size. destruct (0 <? _); (apply counted_call; [done..|]); intros p; by eexists.
  - unfold tcp_async_read. destruct (0 <? _); (apply counted_call; [done..|]); intros p; by eexists.
  - unfold tcp_async_write. destruct (0 <? _); (apply counted_call; [done..|]); intros p; by eexists.
  - unfold tcp_close. eapply counted_frame; [done..|]. intros o. unfold all_ops. cbn. rewrite bind_app. cbn. set_solver.
  - unfold udp_async_connect. pose proof (fut_resolved_other (Code success) (futs w)) as Ho.
    destruct (fut_resolved (Code success) (futs w)) as [q fs']. destruct Hc as [H1 H2 H3]. split; [done|done|].
    intros p t v Hp Hv. cbn in Hp, Hv. rewrite Ho in Hv; [by eapply H3|].
    destruct (good_settled _ _ _ _ (inv_good _ Hi) _ _ Hp) as [->|[u ->]]; eauto.
  - unfold udp_async_read. destruct (0 <? _); (apply counted_call; [done..|]); intros p; by eexists.
  - unfold udp_close. eapply counted_frame; [done..|]. intros o. unfold all_ops. cbn. rewrite bind_app. cbn. set_solver.
  - destruct (programs w !! i) as [[|m pr]|] eqn:Ep; [done| |done]. injection E as <-. by apply counted_micro.
  - destruct (posted w) as [|cl ps] eqn:Ep; [done|]. injection E as <-. by apply counted_closure.
  - destruct (ops w !! i) as [o|] eqn:Eo; [|done]. destruct (may_read_some o data w); [|done]. injection E as <-.
    eapply counted_ext; [|by apply counted_read_some]. intros p. unfold bring, step_count. cbn. by rewrite Eo.
  - destruct (ops w !! i) as [o|] eqn:Eo; [|done]. destruct (may_finish o ec data w); [|done]. injection E as <-.
    eapply counted_ext; [|by apply counted_finish]. intros p. unfold bring, step_count. cbn. by rewrite Eo.
  - destruct (ready w) as [|p rd] eqn:Er; [done|]. injection E as <-.
    apply counted_deadline; [by apply (inv_frame w); try apply Hi|by eapply counted_frame].
Qed.

Lemma run_counted l : ∀ c w w', inv w → counted c w → run l w = Some w' → counted (λ p, c p + count p l w) w'.
Proof.
  induction l as [|e l IH]; intros c w w' Hi Hc E; cbn [run count] in *.
  - injection E as <-. by eapply counted_ext; [|exact Hc]; intros p; lia.
  - destruct (step e w) as [w1|] eqn:E1; [|done]. eapply counted_ext; [|eapply IH; [|by eapply step_counted|done]; by eapply step_inv].
    intros p. cbv beta. lia.
Qed.

Lemma make_counted e clock fs : counted (λ _, 0) (make e clock fs).
Proof. split; [by intros o ?%not_elem_of_nil|done|]. intros p t v Hp. cbn in Hp. by rewrite lookup_empty in Hp. Qed.
End session.

(** C10: The futures of TCP and UDP sessions.  Whatever methods are called, from however many
    threads, and however their calls to the library, the service's thread, completions, deadlines,
    exceptions and the destructor interleave: no exception leaves a handler; the future of every
    task is pending or has a value, which it then keeps for good; a pending one has exactly one handler call
    still to come, in a method's remaining calls, in a posted closure or in a started operation,
    so that none is forgotten; and no handler touches a destroyed timer while the session is alive. *)
Theorem io_session_futures {S : Type} `{FuturesLaws S io_value} (x clock : Z) (fs : S) (l : list event) (w : world)
  (E : run l (make x clock fs) = Some w) :
  escaped w = false ∧ (alive w = true → undefined w = false) ∧ NoDup (owners w) ∧
  ∀ p e, tasks w !! p = Some e →
    (fut_state p (futs w) = Some Pending ∧ p ∈ owners w) ∨
    (∃ v, fut_state p (futs w) = Some (Ready v) ∧
      ∀ l' w', run l' w = Some w' → fut_state p (futs w') = Some (Ready v)).
Proof.
  pose proof (run_inv _ _ _ (make_inv x clock fs) E) as Hi. pose proof Hi as [Hg He Hu].
  split_and!; [done| |apply Hg|].
  - intros Ha. destruct (undefined w); [|done]. rewrite Hu in Ha; done.
  - intros p e Hp. destruct (good_settled _ _ _ _ Hg _ _ Hp) as [Hs|[v Hv]].
    + left. split; [done|]. by eapply good_pending.
    + right. exists v. split; [done|]. intros l' w' E'. by eapply run_keeps_value.
Qed.

(** C21: A deadline settles its operation.  When an operation created with a deadline (a read; a TCP write waits on the timer too but has none) waits on
    the timer of its live session and no later call of the session moves, cancels or destroys the timer, then however everything else
    interleaves: as soon as the deadline has passed, the thread of the service settles the operation by running
    the handlers of the timer, whatever the operation itself does. *)
Theorem io_deadline_settles {S : Type} `{FuturesLaws S io_value} (x clock : Z) (fs : S) (l1 l2 : list event) (w w' : world)
  (p : nat) (k : class) (t : guarded_task)
  (E1 : run l1 (make x clock fs) = Some w)
  (Hw : p ∈ waits w) (Ha : alive w = true)
  (Hp : tasks w !! p = Some (Guarded k t)) (Hd : deadline t = true)
  (E2 : run l2 w = Some w') (Hq : quiet l2 w = true)
  (Hn : expires_at w <= now w') :
  ∃ w'' v, run (TimerFires :: replicate (length (ready w') + length (waits w')) RunWait) w' = Some w'' ∧
    fut_state p (futs w'') = Some (Ready v).
Proof.
  pose proof (run_inv _ _ _ (make_inv x clock fs) E1) as Hi.
  pose proof (run_inv _ _ _ Hi E2) as Hi'.
  assert (Hwt : watched p (expires_at w) w) by (split_and!; eauto).
  pose proof (run_watched _ _ _ _ _ Hi E2 Hq (or_introl Hwt)) as Hwt'.
  destruct (drain w') as (w'' & Er & Hqd & Hr & Hws); [by rewrite (quiet_expiry _ _ _ E2 Hq)|].
  exists w''. pose proof (run_watched _ _ _ _ _ Hi' Er Hqd Hwt') as Hf.
  destruct Hf as [(_ & _ & Hin & _)|[v Hv]]; [|by exists v]. rewrite Hr, Hws in Hin. set_solver.
Qed.

(** C27: The stream of a TCP session.  [async_read] commits what each of its [read_some] brings, and a read that timed out stays in
    flight.  Over any run from a new session in which no read was started and the stream not read while a read was in flight on the stream buffer:
    the bytes the reads brought, in order, partial reads and reads that fail or were given up included, are the bytes [read_input_stream] handed
    out, in order, and the buffer after them.  One call of it hands out the smaller of what it is asked for and what there is.  And whatever is
    in flight, a read that has a result was given up, by its deadline or because starting it threw, with a time-out and no bytes, or reports exactly the number
    of bytes its own operation brought. *)
Theorem tcp_stream_order {S : Type} `{FuturesLaws S io_value} (x clock : Z) (fs : S) (l : list event) (w : world)
  (E : run l (make x clock fs) = Some w) :
  (shared w = false →
    gather step_received l (make x clock fs) = gather step_taken l (make x clock fs) ++ input_buffer w) ∧
  (∀ n, 0 <= n → let '(m, bytes, w') := read_input_stream n w in
    m = Z.min (size (input_buffer w)) n ∧ size bytes = m ∧ input_buffer w = bytes ++ input_buffer w') ∧
  (∀ p t v, tasks w !! p = Some (Guarded ReadTask t) → fut_state p (futs w) = Some (Ready v) →
    v = Read timed_out 0 ∨ ∃ ec, v = Read ec (count p l (make x clock fs))).
Proof.
  split; [intros Hs; exact (proj2 (run_stream _ _ _ E Hs))|]. split.
  - intros n Hn. unfold read_input_stream, size.
    destruct (Z.ltb_spec 0 (Z.min (length (input_buffer w)) n)) as [Hm|Hm]; cbn.
    + rewrite length_take, take_drop. split_and!; [done|lia|done].
    + split_and!; [done|lia|done].
  - intros p t v Hp Hv. pose proof (run_counted _ _ _ _ (make_inv x clock fs) (make_counted x clock fs) E) as Hc.
    destruct (c_value _ _ Hc p t v Hp Hv) as [?|(ec & -> & _)]; [by left|right]. by exists ec.
Qed.

(** ** Runs *)
Module IoSessionExample.
Import String.

Abbreviation W := (@world (MapFutures.t io_value)).

Definition w0 : W := make 0 0 fut_init.

(** A time-out of 5 seconds and a read that waits on the timer. *)
Definition read_started : list event :=
  [SetReadTimeout 5; User 0; TcpRead; User 1; User 1; User 1; RunPosted false].

Definition w1 : option W := Eval vm_compute in run read_started w0.

(** Data comes and is taken in two pieces; then a read of eight bytes gets them in two pieces. *)
Definition stream_run : list event :=
  read_started ++ [Complete 0 success (str "hello"%string); ReadInputStream 2; TcpReadSize 8; User 2; RunPosted false;
                   ReadSome 0 (str ", wor"%string); Complete 0 success (str "ld!"%string); ReadInputStream 100].

Definition w2 : option W := Eval vm_compute in run stream_run w0.

Lemma io_session_futures_witness :
  ∃ w, run stream_run w0 = Some w ∧ escaped w = false ∧ NoDup (owners w) ∧
    fut_state 0%nat (futs w) = Some (Ready (Read success 5)).
Proof.
  assert (E : run stream_run w0 = w2) by (vm_compute; reflexivity).
  unfold w2 in E. eexists. split; [exact E|].
  destruct (io_session_futures 0 0 fut_init stream_run _ E) as (H1 & _ & H2 & _).
  split; [exact H1|]. split; [exact H2|]. vm_compute. reflexivity.
Defined.

Lemma tcp_stream_order_witness :
  ∃ w, run stream_run w0 = Some w ∧
    gather step_received stream_run w0 = gather step_taken stream_run w0 ++ input_buffer w ∧
    gather step_taken stream_run w0 = str "hello, world!"%string ∧
    (Read success 8 = Read timed_out 0 ∨ ∃ ec, Read success 8 = Read ec (count 1 stream_run w0)).
Proof.
  assert (E : run stream_run w0 = w2) by (vm_compute; reflexivity).
  unfold w2 in E. eexists. split; [exact E|].
  destruct (tcp_stream_order 0 0 fut_init stream_run _ E) as (Hs & _ & Hv). split; [apply Hs; reflexivity|]. split.
  - vm_compute. reflexivity.
  - apply (Hv 1%nat (mk true true 1)); vm_compute; reflexivity.
Defined.

Definition w3 : option W := Eval vm_compute in w1 ≫= run [Tick 6000000].

Lemma io_deadline_settles_witness :
  ∃ w w', run read_started w0 = Some w ∧ run [Tick 6000000] w = Some w' ∧
    ∃ w'' v, run (TimerFires :: replicate (length (ready w') + length (waits w')) RunWait) w' = Some w'' ∧
      fut_state 0%nat (futs w'') = Some (Ready v).
Proof.
  assert (E1 : run read_started w0 = w1) by (vm_compute; reflexivity). unfold w1 in E1.
  eexists _, _. split; [exact E1|]. split; [vm_compute; reflexivity|].
  refine (io_deadline_settles 0 0 fut_init read_started [Tick 6000000] _ _ 0%nat ReadTask (mk true false 0)
    E1 _ eq_refl _ eq_refl _ eq_refl _).
  - apply list_elem_of_here.
  - vm_compute. reflexivity.
  - vm_compute. reflexivity.
  - vm_compute. discriminate.
Defined.

(** A write of the same session moves the timer that the read waits on: the handler of the read
    runs early and finds the new deadline not passed.  The read, whose operation never ends, stays pending for good:
    nothing of the timer is left. *)
Example write_takes_the_deadline_of_a_read :
  ∃ w, run (read_started ++ [Tick 4000000; TcpWrite (str "x"%string); User 2; User 2; User 2; RunPosted false; RunWait;
                             Complete 1 success []; Tick 100000000; TimerFires; RunWait]) w0 = Some w ∧
    fut_state 0%nat (futs w) = Some Pending ∧ waits w = [] ∧ ready w = [] ∧ posted w = [] ∧ concat (programs w) = [].
Proof. eexists. split; [vm_compute; reflexivity|]. by split_and!. Qed.

(** A write has no deadline although its session has a time-out. *)
Example write_never_times_out :
  ∃ w, run [SetReadTimeout 5; User 0; TcpWrite (str "x"%string); User 1; User 1; User 1; RunPosted false;
            Tick 100000000; TimerFires; RunWait] w0 = Some w ∧
    fut_state 0%nat (futs w) = Some Pending ∧ waits w = [] ∧ ready w = [].
Proof. eexists. split; [vm_compute; reflexivity|]. by split_and!. Qed.

(** A session is destroyed after a read with a time-out has completed: the handler of the wait reads
    the timer of the destroyed session. *)
Example destroyed_timer_is_read :
  ∃ w, run (read_started ++ [Complete 0 success (str "x"%string); Destroy; RunWait]) w0 = Some w ∧ undefined w = true.
Proof. eexists. split; [vm_compute; reflexivity|]. done. Qed.

(** A read that timed out is still in flight when the next one is started: both use the stream buffer. *)
Example timed_out_read_overlaps_the_next :
  ∃ w, run (read_started ++ [Tick 6000000; TimerFires; RunWait; TcpRead; User 2; User 2; User 2; RunPosted false]) w0 = Some w ∧
    fut_state 0%nat (futs w) = Some (Ready (Read timed_out 0)) ∧ shared w = true.
Proof. eexists. split; [vm_compute; reflexivity|]. by split_and!. Qed.

(** What a read of eight bytes brought before it timed out is in the stream, and was not reported. *)
Example timed_out_read_leaves_bytes :
  ∃ w, run [SetReadTimeout 5; User 0; TcpReadSize 8; User 1; User 1; User 1; RunPosted false;
            ReadSome 0 (str "abc"%string); Tick 6000000; TimerFires; RunWait] w0 = Some w ∧
    fut_state 0%nat (futs w) = Some (Ready (Read timed_out 0)) ∧ (read_input_stream 100 w).1 = (3, str "abc"%string).
Proof. eexists. split; [vm_compute; reflexivity|]. by split_and!. Qed.

(** The read in flight on a session that is destroyed commits to its stream buffer. *)
Example destroyed_buffer_is_written :
  ∃ w, run (read_started ++ [Destroy; Complete 0 operation_aborted []]) w0 = Some w ∧ undefined w = true.
Proof. eexists. split; [vm_compute; reflexivity|]. done. Qed.

(** [async_read(size)] of a session without a time-out is over with less than [size] bytes. *)
Example read_size_without_timeout_is_short :
  ∃ w, run [TcpReadSize 100; User 0; RunPosted false; Complete 0 success (str "x"%string)] w0 = Some w ∧
    fut_state 0%nat (futs w) = Some (Ready (Read success 1)).
Proof. eexists. split; [vm_compute; reflexivity|]. done. Qed.

(** What a UDP session received is not in the stream buffer. *)
Example udp_data_is_not_read :
  ∃ w, run [UdpRead; User 0; Complete 0 success (str "datagram"%string)] w0 = Some w ∧
    fut_state 0%nat (futs w) = Some (Ready (Read success 8)) ∧ (read_input_stream 8 w).1 = (0, []).
Proof. eexists. split; [vm_compute; reflexivity|]. by split_and!. Qed.

End IoSessionExample.
