(* ===== verification/HttpSession.v ===== *)
(** * HTTP sessions

    include/ar/io/http.hpp, src/io/http.cpp and src/io/io_http_task.h: a request is resolved,
    connected, written and read by the handlers of a task, each started by the one before; a
    multipart response is read header first and then part by part.

    Boost.Beast's messages and parser are behind [prepare_payload] and the class [ResponseParser]; an
    operation calls its handler once, with an error or with what it read. *)
From Stdlib Require Import Ascii String.
From S2P Require Import Prelude.
From S2P Require Import Promise.
From S2P Require Import CppString.
From S2P Require Import IoTask.

Inductive http_method := get | post | put | del | options.

#[global] Instance http_method_eq_dec : EqDecision http_method.
Proof. solve_decision. Defined.

Record http_request := mkRequest {
  method : http_method;
  host : cstring;
  port : Z;
  body : cstring;
  target : cstring
}.

(** Verbs and fields of Boost.Beast, as far as they are named here. *)
Inductive verb := verb_get | verb_post | verb_put | verb_delete | verb_options.

Inductive field := field_host | field_user_agent | field_content_type | field_other (n : positive).

#[global] Instance field_eq_dec : EqDecision field.
Proof. solve_decision. Defined.

(** A message: a request has a verb and a target. *)
Record message := mkMessage {
  m_verb : verb;
  m_target : cstring;
  m_fields : list (field * cstring);
  m_body : cstring
}.

Definition empty_message : message := mkMessage verb_get [] [] [].

(** [set(name, value)] replaces the values of the field. *)
Definition set_field (f : field) (v : cstring) (m : message) : message :=
  mkMessage (m_verb m) (m_target m) (filter (λ x, x.1 ≠ f) (m_fields m) ++ [(f, v)]) (m_body m).

Definition get_field (f : field) (m : message) : option cstring :=
  match list_find (λ x, x.1 = f) (m_fields m) with Some (_, (_, v)) => Some v | None => None end.

Definition get_method (r : http_request) : verb :=
  match method r with
  | get => verb_get | post => verb_post | put => verb_put | del => verb_delete | options => verb_options
  end.

(** [expires] are the arguments of the calls of [stream.expires_after]; the last members are those
    of a multipart session. *)
Record session := mkSession {
  timeout : Z;
  req : message;
  res : message;
  expires : list Z;
  input_buffer : cstring;
  mime_boundary : cstring
}.

Definition make_session (t : Z) : session := mkSession t empty_message empty_message [] [] [].

Definition set_req (m : message) (s : session) : session :=
  mkSession (timeout s) m (res s) (expires s) (input_buffer s) (mime_boundary s).

Definition set_res (m : message) (s : session) : session :=
  mkSession (timeout s) (req s) m (expires s) (input_buffer s) (mime_boundary s).

Definition set_input (b : cstring) (s : session) : session :=
  mkSession (timeout s) (req s) (res s) (expires s) b (mime_boundary s).

Definition set_boundary (b : cstring) (s : session) : session :=
  mkSession (timeout s) (req s) (res s) (expires s) (input_buffer s) b.

(** [if (timeout > 0) stream.expires_after(timeout) else stream.expires_after(60)]. *)
Definition expires_after (s : session) : session :=
  mkSession (timeout s) (req s) (res s) (expires s ++ [if 0 <? timeout s then timeout s else 60])
    (input_buffer s) (mime_boundary s).

Definition set_request_field (f : field) (v : cstring) (s : session) : session :=
  set_req (set_field f v (req s)) s.

(** The request part of [async_request] and [async_request_multipart]. *)
Section request.
(** [BOOST_BEAST_VERSION_STRING], and what Boost.Beast makes of a message with a body. *)
Variable version_string : cstring.
Variable prepare_payload : message → message.

Definition fill_request (r : http_request) (s : session) : session :=
  let m := req s in
  let m := mkMessage (get_method r) (m_target m) (m_fields m) (m_body m) in
  let m := set_field field_host (host r) m in
  let m := set_field field_user_agent version_string m in
  let m := mkMessage (m_verb m) (target r) (m_fields m) (m_body m) in
  let m := if bool_decide (method r = post)
           then prepare_payload (mkMessage (m_verb m) (m_target m) (m_fields m) (body r)) else m in
  set_res empty_message (set_req m s).
End request.

(** ** The tasks of a request *)

(** The operation that is started next, or the value of the promise; [Throws]: an exception
    leaves the handler. *)
Inductive op := OpResolve | OpConnect | OpWrite | OpRead | OpReadSome.
Inductive outcome := Start (o : op) | Settle (ec : error_code) | Throws.

(** What a completion brings: an error, the data of a read, a whole response. *)
Record completion := mkC { c_ec : error_code; c_data : cstring; c_response : message }.

Definition handler_resolve (c : completion) (s : session) : session * outcome :=
  if failed (c_ec c) then (s, Settle (c_ec c)) else (expires_after s, Start OpConnect).

Definition handle_connect (c : completion) (s : session) : session * outcome :=
  if failed (c_ec c) then (s, Settle (c_ec c)) else (expires_after s, Start OpWrite).

(** [http_request_task::handle_write]. *)
Definition handle_write (c : completion) (s : session) : session * outcome :=
  if failed (c_ec c) then (s, Settle (c_ec c)) else (s, Start OpRead).

(** [http::async_read] has put the response into the session. *)
Definition handle_read (c : completion) (s : session) : session * outcome :=
  (set_res (c_response c) s, Settle (c_ec c)).

(** [http_multipart_request_task::handle_write]. *)
Definition handle_write_multipart (c : completion) (s : session) : session * outcome :=
  if failed (c_ec c) then (s, Settle (c_ec c)) else (s, Start OpReadSome).

(** *** The header of a multipart response *)

Definition boundary_type : cstring := str "boundary=".

(** The key and the value of a header line; [None]: [substr] throws. *)
Definition split_line (line : cstring) : option (cstring * cstring) :=
  let key_value_separator := find [":"%char] line in
  match substr line 0 key_value_separator with
  | Some key =>
      match substr line (u64 (key_value_separator + 2)) (u64 (size line - size key - 3)) with
      | Some value => Some (key, value)
      | None => None
      end
  | None => None
  end.

(** The loop over the parts of the content type; the fuel is their length. *)
Fixpoint find_boundary (fuel : nat) (content_type : cstring) : option cstring :=
  match fuel with
  | O => None
  | S f =>
      match getline ";" content_type with
      | Some (part, rest) =>
          let idx := find boundary_type part in
          if negb (idx =? npos) then substr part (idx + size boundary_type) npos
          else find_boundary f rest
      | None => None
      end
  end.

(** The loop over the lines of the header; the fuel is the length of the buffer. *)
Fixpoint scan_header (fuel : nat) (s : session) : option session :=
  match fuel with
  | O => Some s
  | S f =>
      match getline LF (input_buffer s) with
      | None => Some s
      | Some (line, rest) =>
          let s := set_input rest s in
          match split_line line with
          | None => None
          | Some (key, value) =>
              if negb (find (str "Content-Type") key =? npos) then
                let s := set_res (set_field field_content_type value (res s)) s in
                Some (match find_boundary (length value) value with
                      | Some b => set_boundary b s
                      | None => s
                      end)
              else scan_header f s
          end
      end
  end.

Definition handle_read_header (c : completion) (s : session) : session * outcome :=
  if failed (c_ec c) then (s, Settle (c_ec c))
  else
    let s' := set_input (input_buffer s ++ c_data c) s in
    match scan_header (length (input_buffer s')) s' with
    | Some s'' => (s'', Settle (c_ec c))
    | None => (s', Throws)
    end.

(** *** The parts *)

Class ResponseParser (P : Type) := {
  p_init : P;
  p_put : P → cstring → nat * P * error_code;    (* the bytes consumed, the parser, the error *)
  p_is_done : P → bool;
  p_get : P → message
}.

Section part.
Context {P : Type} `{ResponseParser P}.

Record part_task := mkPart { is_part_header_done : bool; parser : P }.

Definition make_part : part_task := mkPart false p_init.

(** The literal with its terminating zero: the buffer of a character array has all its characters. *)
Definition status_line : cstring := str "HTTP/1.1 200 OK" ++ [CR; LF; "000"%char].

(** The loop that looks for the boundary; after it the parser has the status line, and a line that
    begins with a carriage return is skipped. *)
Fixpoint scan_boundary (fuel : nat) (boundary : cstring) (t : part_task) (buf : cstring) : part_task * cstring :=
  match fuel with
  | O => (t, buf)
  | S f =>
      match getline LF buf with
      | None => (t, buf)
      | Some (line, rest) =>
          if negb (find (str "--" ++ boundary) line =? npos) then
            let '(_, p', _) := p_put (parser t) status_line in
            (mkPart true p',
             match rest with
             | c :: _ => if Ascii.eqb c CR then (break_at LF rest).2 else rest
             | [] => rest
             end)
          else scan_boundary f boundary t rest
      end
  end.

Definition handle_read_part (c : completion) (t : part_task) (s : session) : part_task * session * outcome :=
  if failed (c_ec c) then (t, s, Settle (c_ec c))
  else
    let buf := input_buffer s ++ c_data c in
    let '(t, buf) :=
      if is_part_header_done t then (t, buf) else scan_boundary (length buf) (mime_boundary s) t buf in
    if is_part_header_done t then
      let '(consumed, p', parser_ec) := p_put (parser t) buf in
      let t := mkPart true p' in
      let s := set_input (drop consumed buf) s in
      if failed parser_ec then (t, s, Settle parser_ec)
      else if p_is_done p' then (t, set_res (p_get p') s, Settle (c_ec c))
      else (t, s, Start OpReadSome)
    else (t, set_input buf s, Start OpReadSome).

(** The number of [errc::protocol_error] cast to an error of Boost.Beast. *)
Definition no_boundary_error : error_code := other 71.

(** [async_read_part]: an error at once when there is no boundary. *)
Definition async_read_part (s : session) : session * part_task * outcome :=
  match mime_boundary s with
  | [] => (s, make_part, Settle no_boundary_error)
  | _ => (expires_after s, make_part, Start OpReadSome)
  end.
End part.

(** ** A request from its start to its promise *)
Section task.
Context {S : Type} `{FuturesLaws S io_value}.
Variable version_string : cstring.
Variable prepare_payload : message → message.

(** [Terminated]: an exception has left a handler. *)
Inductive phase := Waiting (o : op) | Finished | Terminated.

Definition handlers (multipart : bool) (o : op) : completion → session → session * outcome :=
  match o with
  | OpResolve => handler_resolve
  | OpConnect => handle_connect
  | OpWrite => if multipart then handle_write_multipart else handle_write
  | OpRead => handle_read
  | OpReadSome => handle_read_header
  end.

(** [async_request] and, for a multipart session, [async_request_multipart]. *)
Definition async_request (r : http_request) (s : session) (fs : S) : nat * (phase * session * S) :=
  let '(p, fs') := fut_make fs in (p, (Waiting OpResolve, fill_request version_string prepare_payload r s, fs')).

Definition conclude (p : nat) (s : session) (out : outcome) (fs : S) : phase * session * S :=
  match out with
  | Start o => (Waiting o, s, fs)
  | Settle ec =>
      match fut_set p (Code ec) fs with
      | Some fs' => (Finished, s, fs')
      | None => (Terminated, s, fs)
      end
  | Throws => (Terminated, s, fs)
  end.

(** The operation that was started completes; [None]: there is none. *)
Definition complete (multipart : bool) (p : nat) (c : completion) (st : phase * session * S) :
  option (phase * session * S) :=
  let '(ph, s, fs) := st in
  match ph with
  | Waiting o => let '(s', out) := handlers multipart o c s in Some (conclude p s' out fs)
  | _ => None
  end.

Fixpoint completes (multipart : bool) (p : nat) (cs : list completion) (st : phase * session * S) :
  option (phase * session * S) :=
  match cs with
  | [] => Some st
  | c :: cs' => match complete multipart p c st with Some st' => completes multipart p cs' st' | None => None end
  end.

(** The operations of a request, in order. *)
Definition request_ops (multipart : bool) : list op :=
  [OpResolve; OpConnect; OpWrite; if multipart then OpReadSome else OpRead].

(** The request in progress after [n] operations: all of them have succeeded, the timer was set before the connection
    and before the write. *)
Definition in_progress (multipart : bool) (n : nat) (s s' : session) (ph : phase) : Prop :=
  ph = from_option Waiting Terminated (request_ops multipart !! n) ∧
  s' = mkSession (timeout s) (req s) (res s)
         (expires s ++ replicate (Nat.min n 2) (if 0 <? timeout s then timeout s else 60))
         (input_buffer s) (mime_boundary s).

Lemma scan_header_req fuel s s' : scan_header fuel s = Some s' → req s' = req s.
Proof.
  revert s. induction fuel as [|f IH]; intros s E; cbn [scan_header] in E; [by simplify_eq|].
  destruct (getline LF (input_buffer s)) as [[line rest]|]; [|by simplify_eq].
  destruct (split_line line) as [[key value]|]; [|done].
  destruct (negb _); [|by apply IH in E]. injection E as <-. by destruct (find_boundary _ _).
Qed.

Lemma read_header_outcome c s : ∃ s', req s' = req s ∧
  (handle_read_header c s = (s', Settle (c_ec c)) ∨ handle_read_header c s = (s', Throws)).
Proof.
  unfold handle_read_header. destruct (failed (c_ec c)); [exists s; by split; [|left]|].
  destruct (scan_header _ _) as [s'|] eqn:E.
  - exists s'. split; [by apply scan_header_req in E|by left].
  - eexists. split; [|by right]. done.
Qed.

Definition finished (p : nat) (c : completion) (s : session) (st : phase * session * S) : Prop :=
  ∃ s1 fs1, st = (Finished, s1, fs1) ∧ fut_state p fs1 = Some (Ready (Code (c_ec c))) ∧ req s1 = req s.

Lemma conclude_finished p c s s1 fs : fut_state p fs = Some Pending → req s1 = req s →
  finished p c s (conclude p s1 (Settle (c_ec c)) fs).
Proof.
  intros Hp Hr. cbn. destruct (fut_set_pending fs p (Code (c_ec c)) Hp) as [fs1 E]. rewrite E.
  exists s1, fs1. split_and!; [done|by eapply fut_set_ready|done].
Qed.

(** One completion. *)
Lemma complete_progress multipart p (n : nat) c s ph s' fs st :
  in_progress multipart n s s' ph → complete multipart p c (ph, s', fs) = Some st →
  fut_state p fs = Some Pending →
  (∃ ph1 s1, st = (ph1, s1, fs) ∧ failed (c_ec c) = false ∧ (n < 3)%nat ∧
     in_progress multipart (Datatypes.S n) s s1 ph1) ∨
  (finished p c s st ∧ (failed (c_ec c) = false → n = 3%nat)) ∨
  (∃ s1, st = (Terminated, s1, fs) ∧ multipart = true ∧ n = 3%nat ∧ (handle_read_header c s').2 = Throws).
Proof.
  intros [-> ->] E Hp.
  destruct n as [|[|[|[|n]]]]; [| | | |by destruct n]; cbn in E.
  - unfold handler_resolve in E. destruct (failed (c_ec c)) eqn:Ef; injection E as <-.
    + right. left. split; [by apply conclude_finished|done].
    + left. eexists _, _. split; [done|]. split; [done|]. split; [lia|]. split; [done|]. cbn. by rewrite app_nil_r.
  - unfold handle_connect in E. destruct (failed (c_ec c)) eqn:Ef; injection E as <-.
    + right. left. split; [by apply conclude_finished|done].
    + left. eexists _, _. split; [done|]. split; [done|]. split; [lia|]. split; [done|].
      unfold expires_after. cbn. by rewrite <- app_assoc.
  - destruct multipart; cbn in E; [unfold handle_write_multipart in E|unfold handle_write in E];
      (destruct (failed (c_ec c)) eqn:Ef; injection E as <-;
       [right; left; split; [by apply conclude_finished|done]|
        left; eexists _, _; split; [done|]; split; [done|]; split; [lia|done]]).
  - right. destruct multipart.
    + cbn in E. match type of E with context [handle_read_header c ?s0] =>
        destruct (read_header_outcome c s0) as (s1 & Hr & [Eh|Eh]); rewrite Eh in E end; injection E as <-.
      * left. split; [by apply conclude_finished|done].
      * right. exists s1. split_and!; [done..|]. cbn. by rewrite Eh.
    + injection E as <-. left. split; [by apply conclude_finished|done].
Qed.

Lemma completes_progress multipart p cs (n : nat) s ph s' fs st :
  in_progress multipart n s s' ph → (n <= 3)%nat → fut_state p fs = Some Pending →
  completes multipart p cs (ph, s', fs) = Some st →
  (∃ ph1 s1, st = (ph1, s1, fs) ∧ Forall (λ c, failed (c_ec c) = false) cs ∧ (n + length cs <= 3)%nat ∧
     in_progress multipart (n + length cs) s s1 ph1) ∨
  (∃ cs0 c, cs = cs0 ++ [c] ∧ Forall (λ c, failed (c_ec c) = false) cs0 ∧ finished p c s st ∧
     (failed (c_ec c) = false → n + length cs = 4)%nat ∧ (n + length cs <= 4)%nat) ∨
  (multipart = true ∧ (n + length cs = 4)%nat ∧ ∃ cs0 c s0, cs = cs0 ++ [c] ∧ (handle_read_header c s0).2 = Throws ∧
     st.1.1 = Terminated).
Proof.
  revert n ph s'. induction cs as [|c cs IH]; intros n ph s' Hin Hn Hp E; cbn [completes] in E.
  - injection E as <-. left. exists ph, s'. cbn. rewrite Nat.add_0_r. by split_and!.
  - destruct (complete multipart p c (ph, s', fs)) as [st1|] eqn:E1; [|done].
    destruct (complete_progress _ _ _ _ _ _ _ _ _ Hin E1 Hp) as
      [(ph1 & s1 & -> & Hf & Hlt & Hin1)|[[(s1 & fs1 & -> & Hfin & Hr) H3]|(s1 & -> & Hm & H3 & Ht)]].
    + cbn [length]. replace (n + Datatypes.S (length cs))%nat with (Datatypes.S n + length cs)%nat by lia.
      destruct (IH _ _ _ Hin1 ltac:(lia) Hp E) as
        [(ph2 & s2 & -> & Ha & Hb & Hc)|[(cs0 & c' & -> & Ha & Hb & Hc & Hd)|(Hm & Hl & cs0 & c' & s0 & -> & Ht)]].
      * left. exists ph2, s2. split_and!; try done. by constructor.
      * right. left. exists (c :: cs0), c'. split_and!; try done. by constructor.
      * right. right. split_and!; try done. by exists (c :: cs0), c', s0.
    + right. left. destruct cs as [|c' cs]; [|done]. injection E as <-. exists [], c. cbn.
      split_and!; [done|constructor| |intros Hf; rewrite (H3 Hf); lia|lia]. by exists s1, fs1.
    + right. right. destruct cs as [|c' cs]; [|done]. injection E as <-. cbn. split_and!; [done|lia|].
      by exists [], c, s'.
Qed.
End task.

(** C11: The life of an HTTP request.  Whatever the completions bring, after [async_request] or [async_request_multipart] the
    operations resolve, connect, write and read are started in that order, each after the one before has succeeded, with the timer set
    to the session's time-out (60 seconds if it has none) before connecting and before writing; the promise is pending as
    long as they do; it is set once, with the first error, or with the result of the read; the request is the one that was filled in.  Only the
    header of a multipart response can make a handler throw. *)
Theorem http_request_settles {S : Type} `{FuturesLaws S io_value} (version_string : cstring) (prepare_payload : message → message)
  (multipart : bool) (r : http_request) (s : session) (fs : S) (cs : list completion) (ph : phase) (s' : session) (fs' : S)
  (E : let st := async_request version_string prepare_payload r s fs in
       completes multipart st.1 cs st.2 = Some (ph, s', fs')) :
  let p := (fut_make fs).1 in
  let s0 := fill_request version_string prepare_payload r s in
  (in_progress multipart (length cs) s0 s' ph ∧ Forall (λ c, failed (c_ec c) = false) cs ∧ (length cs <= 3)%nat ∧
     fut_state p fs' = Some Pending) ∨
  (∃ cs0 c, cs = cs0 ++ [c] ∧ Forall (λ c, failed (c_ec c) = false) cs0 ∧ ph = Finished ∧
     fut_state p fs' = Some (Ready (Code (c_ec c))) ∧ req s' = req s0 ∧
     (failed (c_ec c) = false → length cs = 4)%nat ∧ (length cs <= 4)%nat) ∨
  (multipart = true ∧ ph = Terminated ∧ length cs = 4%nat ∧
     ∃ cs0 c s1, cs = cs0 ++ [c] ∧ (handle_read_header c s1).2 = Throws).
Proof.
  unfold async_request in E. pose proof (fut_make_pending fs) as Hp. destruct (fut_make fs) as [p fs0]. cbn in *.
  assert (Hin : in_progress multipart 0 (fill_request version_string prepare_payload r s) (fill_request version_string prepare_payload r s) (Waiting OpResolve)).
  { split; [done|]. cbn. by rewrite app_nil_r. }
  destruct (completes_progress _ _ _ _ _ _ _ _ _ Hin ltac:(lia) Hp E) as
    [(ph1 & s1 & [= <- <- <-] & Ha & Hb & Hc)|[(cs0 & c & -> & Ha & (s1 & fs1 & [= -> -> ->] & Hf & Hr) & Hc & Hd)|
     (Hm & Hl & cs0 & c & s0 & -> & Ht & Hph)]].
  - left. by split_and!.
  - right. left. exists cs0, c. by split_and!.
  - right. right. split_and!; try done. by exists cs0, c, s0.
Qed.

(** ** Header lines *)

Lemma size_nonneg (s : cstring) : 0 <= size s.
Proof. unfold size. lia. Qed.

Lemma size_app (a b : cstring) : size (a ++ b) = size a + size b.
Proof. unfold size. rewrite length_app. lia. Qed.

Lemma size_cons c (s : cstring) : size (c :: s) = 1 + size s.
Proof. unfold size. cbn [length]. lia. Qed.

Lemma substr_all s n : size s <= n → substr s 0 n = Some s.
Proof. intros Hn. exact (substr_rest [] s n Hn). Qed.

(** A line with a colon. *)
Lemma split_line_colon a b : size a + size b + 1 < 2 ^ 63 → ":"%char ∉ a →
  split_line (a ++ ":"%char :: b) =
  match b with [] => None | _ :: b' => Some (a, take (length b' - 1) b') end.
Proof.
  intros Hs Ha. pose proof (size_nonneg a). pose proof (size_nonneg b).
  unfold split_line. rewrite find_char_first by done.
  rewrite (substr_app [] a (":"%char :: b) : substr (a ++ ":"%char :: b) 0 (size a) = Some a).
  rewrite size_app, size_cons, (uwrap_small 64 (size a + 2)) by lia.
  destruct b as [|c b].
  - rewrite (proj2 (substr_throws _ _ _)); [done|]. rewrite size_app, size_cons. unfold size in *. cbn [length] in *. lia.
  - rewrite size_cons in *.
    replace (a ++ ":"%char :: c :: b) with ((a ++ [":"%char; c]) ++ b) by (by rewrite <- app_assoc).
    replace (size a + 2) with (size (a ++ [":"%char; c])) by (by rewrite size_app).
    replace (size a + (1 + (1 + size b)) - size a - 3) with (size b - 1) by lia.
    destruct b as [|d b].
    + rewrite substr_rest; [done|]. by vm_compute.
    + rewrite size_cons in *. rewrite uwrap_small by (pose proof (size_nonneg b); lia).
      rewrite <- (take_drop (length (d :: b) - 1) (d :: b)) at 1.
      set (v := take (length (d :: b) - 1) (d :: b)).
      replace (1 + size b - 1) with (size v).
      * by rewrite substr_app.
      * unfold v, size. rewrite length_take. cbn [length]. lia.
Qed.

(** A line without a colon is its own key. *)
Lemma split_line_plain line : size line < 2 ^ 63 → ":"%char ∉ line →
  split_line line = match line with [] => None | _ :: l => Some (line, l) end.
Proof.
  intros Hs Hc. unfold split_line. rewrite (proj2 (find_char_npos ":" line ltac:(unfold npos; lia)) Hc).
  rewrite substr_all by (unfold npos; lia). replace (u64 (npos + 2)) with 1 by (by vm_compute).
  replace (size line - size line - 3) with (-3) by lia. replace (u64 (-3)) with (2 ^ 64 - 3) by (by vm_compute).
  destruct line as [|c l]; [by vm_compute|]. rewrite size_cons in Hs.
  change (substr (c :: l) 1) with (substr ([c] ++ l) (size [c])). by rewrite substr_rest by lia.
Qed.

(** The usual form of a header line. *)
Lemma split_line_header key value : size key + size value + 3 < 2 ^ 63 → ":"%char ∉ key →
  split_line (key ++ str ": " ++ value ++ [CR]) = Some (key, value).
Proof.
  intros Hs Hk. change (str ": " ++ value ++ [CR]) with (":"%char :: " "%char :: value ++ [CR]).
  rewrite split_line_colon; [|rewrite size_cons, size_app; unfold size in *; cbn [length]; lia|done].
  rewrite length_app. cbn [length]. replace (length value + 1 - 1)%nat with (length value) by lia.
  by rewrite take_app_length.
Qed.

(** The lines on which [substr] throws: an empty one, and one whose only colon ends it. *)
Definition bad_line (line : cstring) : Prop :=
  line = [] ∨ ∃ a, line = a ++ [":"%char] ∧ ":"%char ∉ a.

Lemma split_line_throws line : size line < 2 ^ 63 → split_line line = None ↔ bad_line line.
Proof.
  intros Hs. destruct (decide (":"%char ∈ line)) as [Hc|Hc].
  - apply list_elem_of_split_l in Hc as (a & b & -> & Ha).
    rewrite size_app, size_cons in Hs. rewrite split_line_colon by (done || lia).
    unfold bad_line. destruct b as [|c b].
    + split; [|done]. intros _. right. by exists a.
    + split; [done|]. intros [E|(a' & E & Ha')]; [by destruct a|].
      exfalso. apply (f_equal (break_at ":"%char)) in E.
      rewrite break_at_first in E by done. rewrite (break_at_first _ a' []) in E by done. congruence.
  - rewrite split_line_plain by done. unfold bad_line. destruct line as [|c l].
    + split; [by left|done].
    + split; [done|]. intros [E|(a & E & _)]; [done|]. rewrite E in Hc. set_solver.
Qed.

(** ** The header of a multipart response *)

(** Header lines that are passed over. *)
Definition skipped (line : cstring) : Prop :=
  (LF ∉ line) ∧ ∃ key value, split_line line = Some (key, value) ∧ find (str "Content-Type") key = npos.

Definition with_lf (lines : list cstring) : cstring := lines ≫= (λ l, l ++ [LF]).

Lemma set_input_id s : set_input (input_buffer s) s = s.
Proof. by destruct s. Qed.

Lemma set_input_twice b b' s : set_input b (set_input b' s) = set_input b s.
Proof. done. Qed.

Lemma scan_skipped fuel lines s tail : Forall skipped lines →
  scan_header (length lines + fuel) (set_input (with_lf lines ++ tail) s) = scan_header fuel (set_input tail s).
Proof.
  intros Hl. induction Hl as [|l lines (Hlf & key & value & Hsp & Hf) _ IH]; [done|].
  cbn [length Nat.add scan_header]. unfold with_lf in *. cbn [mbind list_bind input_buffer set_input] in *.
  rewrite <- !app_assoc. cbn [app]. rewrite getline_line by done. rewrite Hsp, Hf, Z.eqb_refl. cbn [negb].
  rewrite set_input_twice. exact IH.
Qed.

(** More fuel than lines changes nothing. *)
Lemma with_lf_length lines : (length lines <= length (with_lf lines))%nat.
Proof.
  induction lines as [|l lines IH]; [done|]. unfold with_lf in *. cbn [mbind list_bind].
  rewrite !length_app. cbn. lia.
Qed.

Lemma find_boundary_last fuel B : (1 <= fuel)%nat → ";"%char ∉ B → size B < 2 ^ 32 →
  find_boundary fuel (str " boundary=" ++ B) = Some B.
Proof.
  intros Hf HB Hs. destruct fuel as [|f]; [lia|]. cbn [find_boundary].
  rewrite getline_last; [|done|]; [|rewrite elem_of_app; intros [Hc|Hc]; [|done]].
  - change (str " boundary=" ++ B) with ([" "%char] ++ boundary_type ++ B).
    rewrite find_first.
    + cbn [negb]. rewrite (proj2 (Z.eqb_neq _ _)) by (by vm_compute). cbn [negb].
      change (size [" "%char] + size boundary_type) with (size ([" "%char] ++ boundary_type)).
      rewrite app_assoc. apply substr_rest. unfold npos. lia.
    + intros k Hk. cbn in Hk. by replace k with 0%nat by lia.
  - apply list_elem_of_In in Hc. cbn in Hc. intuition discriminate.
Qed.

Lemma find_boundary_found fuel T B :
  (length T + 2 <= fuel)%nat → ¬ occurs boundary_type T → ";"%char ∉ B → size T < 2 ^ 32 → size B < 2 ^ 32 →
  find_boundary fuel (T ++ str "; boundary=" ++ B) = Some B.
Proof.
  revert T. induction fuel as [|f IH]; intros T Hf HT HB Hs HsB; [lia|]. cbn [find_boundary].
  destruct (decide (";"%char ∈ T)) as [Hc|Hc].
  - apply list_elem_of_split_l in Hc as (a & b & -> & Ha).
    rewrite <- app_assoc. cbn [app]. rewrite getline_line by done.
    rewrite size_app, size_cons in Hs. pose proof (size_nonneg a). pose proof (size_nonneg b).
    rewrite (proj2 (find_npos boundary_type a ltac:(unfold npos; lia)));
      [|intros Ho; apply HT; by apply occurs_app_l].
    rewrite Z.eqb_refl. cbn [negb]. apply IH; [|intros Ho; apply HT|done|lia|done].
    + rewrite length_app in Hf. cbn in Hf. lia.
    + apply occurs_app_r. by apply (occurs_app_r _ [";"%char]).
  - change (T ++ str "; boundary=" ++ B) with (T ++ ";"%char :: (str " boundary=" ++ B)).
    rewrite getline_line by done.
    rewrite (proj2 (find_npos boundary_type T ltac:(unfold npos; lia)) HT), Z.eqb_refl. cbn [negb].
    apply find_boundary_last; [lia|done..].
Qed.

Lemma get_set_field f v m : get_field f (set_field f v m) = Some v.
Proof.
  unfold get_field, set_field. cbn.
  assert (Hn : ∀ l : list (field * cstring),
    list_find (λ x, x.1 = f) (filter (λ x, x.1 ≠ f) l ++ [(f, v)]) = Some (length (filter (λ x, x.1 ≠ f) l), (f, v))).
  { intros l. rewrite list_find_app_r.
    - cbn. rewrite decide_True by done. done.
    - apply list_find_None, Forall_forall. intros x Hx. by apply list_elem_of_filter in Hx as []. }
  by rewrite Hn.
Qed.

Lemma scan_header_throws fuel s : (length (input_buffer s) <= fuel)%nat → size (input_buffer s) < 2 ^ 63 →
  scan_header fuel s = None ↔
  ∃ lines line tail rest, input_buffer s = with_lf lines ++ tail ∧
    Forall skipped lines ∧ getline LF tail = Some (line, rest) ∧ bad_line line.
Proof.
  revert s. induction fuel as [|f IH]; intros s Hf Hs; cbn [scan_header].
  { destruct (input_buffer s); [|cbn in Hf; lia]. split; [done|].
    intros (lines & line & tail & rest & E & _ & Hg & _). symmetry in E. apply app_nil in E as [_ ->]. done. }
  destruct (getline LF (input_buffer s)) as [[line rest]|] eqn:Eg.
  2:{ split; [done|]. intros (lines & line & tail & rest & E & _ & Hg & _).
      destruct (input_buffer s); [|done]. symmetry in E. apply app_nil in E as [_ ->]. done. }
  pose proof (getline_length _ _ _ _ Eg) as Hlen. pose proof (getline_clean _ _ _ _ Eg) as Hcl.
  assert (Hsl : size line < 2 ^ 63).
  { destruct (getline_inv _ _ _ _ Eg) as [E|[E _]]; rewrite E, ?size_app in Hs; [|done].
    pose proof (size_nonneg (LF :: rest)). lia. }
  destruct (split_line line) as [[key value]|] eqn:Esp.
  2:{ split; [|done]. intros _. exists [], line, (input_buffer s), rest. split_and!; [done|constructor|done|].
      by apply split_line_throws. }
  assert (Hnb : ¬ bad_line line) by (rewrite <- split_line_throws by done; congruence).
  destruct (Z.eqb_spec (find (str "Content-Type") key) npos) as [Hk|Hk]; cbn [negb].
  - rewrite IH; cbn [input_buffer set_input]; [|lia|unfold size in *; lia]. split.
    + intros (lines & l & tail & r & E & Hl & Hg & Hb). destruct (getline_inv _ _ _ _ Eg) as [E'|[_ ->]].
      * exists (line :: lines), l, tail, r. split_and!; [|constructor; [|done]|done|done].
        -- rewrite E', E. unfold with_lf. cbn. by rewrite <- !app_assoc.
        -- split; [done|]. by exists key, value.
      * symmetry in E. apply app_nil in E as [_ ->]. done.
    + intros (lines & l & tail & r & E & Hl & Hg & Hb). destruct Hl as [|l0 lines [Hl0 _] Hl].
      * cbn in E. rewrite <- E, Eg in Hg. naive_solver.
      * unfold with_lf in E. cbn in E. rewrite <- !app_assoc in E. cbn in E.
        rewrite E, getline_line in Eg by done. injection Eg as -> <-. by exists lines, l, tail, r.
  - split; [done|]. intros (lines & l & tail & r & E & Hl & Hg & Hb). exfalso. destruct Hl as [|l0 lines [Hl0 Hsk] Hl].
    + cbn in E. rewrite <- E, Eg in Hg. naive_solver.
    + unfold with_lf in E. cbn in E. rewrite <- !app_assoc in E. cbn in E.
      rewrite E, getline_line in Eg by done. injection Eg as -> <-. destruct Hsk as (k' & v' & Hsp & Hk'). congruence.
Qed.

(** The boundary of a multipart response is found.  When the buffer holds header lines without a content
    type, then the line [Content-Type: T; boundary=B], [handle_read_header] settles the promise with success, the
    content type of the response is [T; boundary=B], the boundary of the session is [B], and the input
    left is what follows the line. *)
Theorem multipart_boundary_found (lines : list cstring) (T B rest : cstring) (s : session) (c : completion)
  (Hok : c_ec c = success)
  (Hbuf : input_buffer s ++ c_data c =
    with_lf lines ++ (str "Content-Type" ++ str ": " ++ (T ++ str "; boundary=" ++ B) ++ [CR]) ++ LF :: rest)
  (Hl : Forall skipped lines) (HT : LF ∉ T) (HB : LF ∉ B)
  (HTo : ¬ occurs boundary_type T) (HBs : ";"%char ∉ B)
  (Hsz : size (input_buffer s ++ c_data c) < 2 ^ 32) :
  ∃ s', handle_read_header c s = (s', Settle success) ∧
    mime_boundary s' = B ∧ get_field field_content_type (res s') = Some (T ++ str "; boundary=" ++ B) ∧
    input_buffer s' = rest.
Proof.
  unfold handle_read_header. rewrite Hok. cbn [failed].
  set (V := T ++ str "; boundary=" ++ B) in *. set (L := str "Content-Type" ++ str ": " ++ V ++ [CR]) in *.
  assert (HVs : size V < 2 ^ 32 ∧ size T < 2 ^ 32 ∧ size B < 2 ^ 32).
  { rewrite Hbuf in Hsz. unfold L, V in *. rewrite !size_app in *. unfold size in *. lia. }
  assert (HV : LF ∉ V).
  { unfold V. rewrite !elem_of_app. intros [?|[Hc|?]]; [done| |done].
    apply list_elem_of_In in Hc. cbn in Hc. intuition discriminate. }
  assert (HL : LF ∉ L).
  { unfold L. rewrite !elem_of_app. intros [Hc|[Hc|[Hc|Hc]]]; [| |done|];
      apply list_elem_of_In in Hc; cbn in Hc; intuition discriminate. }
  assert (Hfb : find_boundary (length V) V = Some B).
  { unfold V. apply find_boundary_found; [rewrite !length_app; cbn; lia|done|done|lia..]. }
  cbn [input_buffer set_input]. rewrite Hbuf.
  replace (length (with_lf lines ++ L ++ LF :: rest)) with
    (length lines + S (length (with_lf lines ++ L ++ rest) - length lines))%nat
    by (pose proof (with_lf_length lines); rewrite !length_app; cbn [length]; lia).
  rewrite scan_skipped by done. cbn [scan_header input_buffer set_input].
  rewrite getline_line by done. unfold L. rewrite split_line_header.
  - rewrite (proj2 (Z.eqb_neq _ _)) by (by vm_compute). cbn [negb].
    rewrite Hfb. eexists. split; [done|]. cbn. split; [done|]. split; [|done].
    apply get_set_field.
  - change (size (str "Content-Type")) with 12. lia.
  - intros Hc. apply list_elem_of_In in Hc. cbn in Hc. intuition discriminate.
Qed.

(** When the header of a multipart response makes the handler throw.  [handle_read_header] throws, and with
    it the thread of the service, exactly when before any content type there is, after lines that are passed over,
    an empty line or a line whose only colon ends it. *)
Theorem multipart_header_throws (s : session) (c : completion)
  (Hok : c_ec c = success) (Hsz : size (input_buffer s ++ c_data c) < 2 ^ 63) :
  (handle_read_header c s).2 = Throws ↔
  ∃ lines line tail rest, input_buffer s ++ c_data c = with_lf lines ++ tail ∧
    Forall skipped lines ∧ getline LF tail = Some (line, rest) ∧ bad_line line.
Proof.
  unfold handle_read_header. rewrite Hok. cbn [failed input_buffer set_input].
  pose proof (scan_header_throws (length (input_buffer s ++ c_data c)) (set_input (input_buffer s ++ c_data c) s)) as Ht.
  cbn [input_buffer set_input] in Ht. specialize (Ht (Nat.le_refl _) Hsz).
  rewrite <- Ht. destruct (scan_header _ _); cbn; split; done.
Qed.

(** ** The bytes of a part *)
Section part_reads.
Context {P : Type} `{ResponseParser P}.

(** Reads complete as long as the task starts them. *)
Fixpoint part_reads (cs : list completion) (t : part_task) (s : session) (out : outcome) :
  option (part_task * session * outcome) :=
  match cs with
  | [] => Some (t, s, out)
  | c :: cs' =>
      match out with
      | Start OpReadSome => let '(t', s', out') := handle_read_part c t s in part_reads cs' t' s' out'
      | _ => None
      end
  end.

(** The buffer that a read presents to the parser, and what the parser consumes of it. *)
Definition presented (c : completion) (t : part_task) (s : session) : part_task * cstring :=
  let buf := input_buffer s ++ c_data c in
  if is_part_header_done t then (t, buf) else scan_boundary (length buf) (mime_boundary s) t buf.

Definition consumed (c : completion) (t : part_task) (s : session) : cstring :=
  let '(t', buf) := presented c t s in
  if is_part_header_done t' then let '(n, _, _) := p_put (parser t') buf in take n buf else [].

Fixpoint part_fed (cs : list completion) (t : part_task) (s : session) : cstring :=
  match cs with
  | [] => []
  | c :: cs' => consumed c t s ++ let '(t', s', _) := handle_read_part c t s in part_fed cs' t' s'
  end.

(** A read once the parser has been started: nothing is lost between the buffer and the parser. *)
Lemma read_part_presented c t s t0 buf t' s' out :
  failed (c_ec c) = false → presented c t s = (t0, buf) → is_part_header_done t0 = true →
  handle_read_part c t s = (t', s', out) →
  is_part_header_done t' = true ∧ consumed c t s ++ input_buffer s' = buf ∧ mime_boundary s' = mime_boundary s.
Proof.
  intros Hf Hpr Hd E. unfold consumed. rewrite Hpr, Hd. unfold handle_read_part in E. rewrite Hf in E.
  fold (presented c t s) in E. rewrite Hpr, Hd in E.
  destruct (p_put (parser t0) buf) as [[n p'] pec]. destruct (failed pec); [|destruct (p_is_done p')];
    simplify_eq; cbn; by rewrite take_drop.
Qed.

Lemma part_fed_done cs t s out t' s' out' :
  is_part_header_done t = true → Forall (λ c, failed (c_ec c) = false) cs →
  part_reads cs t s out = Some (t', s', out') →
  part_fed cs t s ++ input_buffer s' = input_buffer s ++ (cs ≫= c_data).
Proof.
  intros Hd Hok. revert t s out Hd. induction Hok as [|c cs Hf Hok IH]; intros t s out Hd E; cbn in E.
  - simplify_eq. cbn. by rewrite app_nil_r.
  - destruct out as [[]| |]; try done. cbn [part_fed mbind list_bind].
    destruct (handle_read_part c t s) as [[t1 s1] out1] eqn:E1.
    destruct (read_part_presented c t s t (input_buffer s ++ c_data c) t1 s1 out1) as (Hd1 & Hc & _);
      [done|unfold presented; by rewrite Hd|done|done|].
    rewrite <- app_assoc, (IH _ _ _ Hd1 E), app_assoc, Hc. by rewrite <- app_assoc.
Qed.

(** The lines before the boundary. *)
Definition before_boundary (boundary line : cstring) : Prop :=
  (LF ∉ line) ∧ find (str "--" ++ boundary) line = npos.

(** What the parser gets after the line with the boundary. *)
Definition after_boundary (rest : cstring) : cstring :=
  match rest with
  | c :: _ => if Ascii.eqb c CR then (break_at LF rest).2 else rest
  | [] => rest
  end.

Lemma scan_boundary_found lines line rest fuel boundary t : 
  Forall (before_boundary boundary) lines → LF ∉ line → find (str "--" ++ boundary) line ≠ npos →
  scan_boundary (length lines + Datatypes.S fuel) boundary t (with_lf lines ++ line ++ LF :: rest) =
  (mkPart true (p_put (parser t) status_line).1.2, after_boundary rest).
Proof.
  intros Hl Hlf Hb. induction Hl as [|l lines [Hl0 Hn] _ IH].
  - cbn [length Nat.add scan_boundary with_lf mbind list_bind app]. rewrite getline_line by done.
    rewrite (proj2 (Z.eqb_neq _ _) Hb). cbn [negb]. by destruct (p_put (parser t) status_line) as [[n p'] ec].
  - cbn [length Nat.add scan_boundary]. unfold with_lf in *. cbn [mbind list_bind] in *.
    rewrite <- !app_assoc. cbn [app]. rewrite getline_line by done. rewrite Hn, Z.eqb_refl. exact IH.
Qed.
End part_reads.

(** The bytes of a part reach the parser.  When a read brings lines without the boundary and then the line with it, the parser is given, after
    the status line, exactly what follows that line (less a line that begins with a carriage return) and
    then what the later reads bring, in order: the bytes it consumed and the input left over are those
    bytes, none lost, repeated or moved. *)
Theorem multipart_part_stream {P : Type} `{ResponseParser P}
  (c : completion) (cs : list completion) (s s' : session) (t' : part_task) (out : outcome)
  (lines : list cstring) (line rest : cstring)
  (Hbuf : input_buffer s ++ c_data c = with_lf lines ++ line ++ LF :: rest)
  (Hl : Forall (before_boundary (mime_boundary s)) lines) (Hlf : LF ∉ line)
  (Hb : find (str "--" ++ mime_boundary s) line ≠ npos)
  (Hok : Forall (λ c, failed (c_ec c) = false) (c :: cs))
  (E : part_reads (c :: cs) make_part s (Start OpReadSome) = Some (t', s', out)) :
  part_fed (c :: cs) make_part s ++ input_buffer s' = after_boundary rest ++ (cs ≫= c_data).
Proof.
  apply Forall_cons in Hok as [Hf Hok]. cbn [part_reads part_fed] in *.
  destruct (handle_read_part c make_part s) as [[t1 s1] out1] eqn:E1.
  assert (Hpr : presented c make_part s = (mkPart true (p_put p_init status_line).1.2, after_boundary rest)).
  { unfold presented. cbn [is_part_header_done make_part]. rewrite Hbuf.
    replace (length (with_lf lines ++ line ++ LF :: rest)) with
      (length lines + S (length (with_lf lines ++ line ++ rest) - length lines))%nat
      by (pose proof (with_lf_length lines); rewrite !length_app; cbn [length]; lia).
    by apply scan_boundary_found. }
  destruct (read_part_presented _ _ _ _ _ _ _ _ Hf Hpr eq_refl E1) as (Hd & Hc & _).
  by rewrite <- app_assoc, (part_fed_done _ _ _ _ _ _ _ Hd Hok E), app_assoc, Hc.
Qed.

(** ** Examples *)
Module HttpExample.

(** A parser that takes everything until it has seen the text [END]. *)
Definition collect_put (p b : cstring) : nat * cstring * error_code := (length b, p ++ b, success).

#[local] Instance collect_parser : ResponseParser cstring := {|
  p_init := [];
  p_put := collect_put;
  p_is_done p := negb (find (str "END") p =? npos);
  p_get p := mkMessage verb_get [] [] p
|}.

Definition crlf (x : string) : cstring := str x ++ [CR].

Definition data (x : cstring) : completion := mkC success x empty_message.

Lemma no_occurrence pat x : (size x <? npos) = true → (find pat x =? npos) = true → ¬ occurs pat x.
Proof. intros Hs Hf. apply Z.ltb_lt in Hs. apply Z.eqb_eq in Hf. by apply find_npos. Qed.

Definition header : list cstring := [crlf "HTTP/1.1 200 OK"; crlf "Server: camera"].

Ltac skip_lines :=
  repeat (apply List.Forall_cons;
    [split; [by_evaluation|eexists _, _; split; vm_compute; reflexivity]|]);
  apply List.Forall_nil.

Lemma header_skipped : Forall skipped header.
Proof. unfold header. skip_lines. Qed.

Definition response : cstring :=
  with_lf header ++ (str "Content-Type" ++ str ": " ++ (str "multipart/mixed" ++ str "; boundary=" ++ str "xyz") ++ [CR]) ++
  LF :: crlf "" ++ [LF].

Lemma multipart_boundary_found_witness :
  ∃ s', handle_read_header (data response) (make_session 0) = (s', Settle success) ∧ mime_boundary s' = str "xyz".
Proof.
  destruct (multipart_boundary_found header (str "multipart/mixed") (str "xyz") (crlf "" ++ [LF])
    (make_session 0) (data response)) as (s' & E & Hb & _).
  - reflexivity.
  - reflexivity.
  - exact header_skipped.
  - by_evaluation.
  - by_evaluation.
  - apply no_occurrence; vm_compute; reflexivity.
  - by_evaluation.
  - vm_compute. reflexivity.
  - exists s'. split; [exact E|exact Hb].
Defined.

(** A response without a content type whose body has an empty line. *)
Lemma multipart_header_throws_witness :
  (handle_read_header (data (with_lf [crlf "HTTP/1.1 200 OK"; crlf ""; str "body"] ++ [LF; LF])) (make_session 0)).2 = Throws.
Proof.
  apply (multipart_header_throws (make_session 0)
    (data (with_lf [crlf "HTTP/1.1 200 OK"; crlf ""; str "body"] ++ [LF; LF]))).
  - reflexivity.
  - vm_compute. reflexivity.
  - exists [crlf "HTTP/1.1 200 OK"; crlf ""; str "body"], [], [LF; LF], [LF]. split; [reflexivity|].
    split; [|split; [reflexivity|left; reflexivity]].
    skip_lines.
Defined.

Definition request : http_request := mkRequest get (str "host") 80 [] (str "/").

Definition ok : completion := data [].

Definition version : cstring := str "Boost.Beast/322".

Definition started := async_request version (λ m, m) request (make_session 7) (fut_init : MapFutures.t io_value).

Definition write_fails : list completion := [ok; ok; mkC eof [] empty_message].

Lemma http_request_settles_witness :
  ∃ ph s' fs', completes false started.1 write_fails started.2 = Some (ph, s', fs') ∧ ph = Finished.
Proof.
  destruct (completes false started.1 write_fails started.2) as [[[ph s'] fs']|] eqn:E;
    [|vm_compute in E; discriminate E].
  exists ph, s', fs'. split; [reflexivity|].
  destruct (http_request_settles version (λ m, m) false request (make_session 7) fut_init write_fails ph s' fs' E)
    as [[_ [Hc _]]|[(cs0 & c & _ & _ & Hph & _)|[Hc _]]].
  - apply List.Forall_inv_tail, List.Forall_inv_tail, List.Forall_inv in Hc. discriminate Hc.
  - exact Hph.
  - discriminate Hc.
Defined.

Definition part_session : session := set_boundary (str "xyz") (make_session 0).

Definition first_read : completion :=
  data (with_lf [crlf "preamble"] ++ crlf "--xyz" ++ LF :: (with_lf [crlf "Content-Type: text/plain"; crlf ""] ++ str "EN")).

Definition part_text : cstring := with_lf [crlf "Content-Type: text/plain"; crlf ""] ++ str "EN".

Definition later : list completion := [data (str "Dmore")].

Lemma multipart_part_stream_witness :
  ∃ t' s' out, part_reads (first_read :: later) make_part part_session (Start OpReadSome) = Some (t', s', out) ∧
    part_fed (first_read :: later) make_part part_session ++ input_buffer s' =
    after_boundary part_text ++ (later ≫= c_data).
Proof.
  destruct (part_reads (first_read :: later) make_part part_session (Start OpReadSome)) as [[[t' s'] out]|] eqn:E;
    [|vm_compute in E; discriminate E].
  exists t', s', out. split; [reflexivity|].
  apply (multipart_part_stream first_read later part_session s' t' out [crlf "preamble"] (crlf "--xyz") part_text).
  - reflexivity.
  - apply List.Forall_cons; [|apply List.Forall_nil].
    split; [by_evaluation|vm_compute; reflexivity].
  - by_evaluation.
  - vm_compute. discriminate.
  - repeat constructor.
  - exact E.
Defined.

(** A boundary that arrives in two reads is not seen: the task goes on reading. *)
Example split_boundary_is_lost :
  ∃ t' s', part_reads [data (str "--x"); data (crlf "yz" ++ LF :: str "END")] make_part part_session (Start OpReadSome) =
    Some (t', s', Start OpReadSome) ∧ is_part_header_done t' = false ∧ input_buffer s' = [].
Proof. eexists _, _. split; [vm_compute; reflexivity|]. by split. Qed.

(** Field names in lower case are not recognised: success without a boundary, and reading a part fails. *)
Example lower_case_content_type :
  let '(s', out) := handle_read_header (data (with_lf [crlf "content-type: multipart/mixed; boundary=xyz"])) (make_session 0) in
  out = Settle success ∧ mime_boundary s' = [] ∧ (async_read_part (P := cstring) s').2 = Settle no_boundary_error.
Proof. by vm_compute. Qed.

(** A get after a post on the same session sends the body of the post. *)
Example body_of_an_earlier_request :
  let s := fill_request version (λ m, m) (mkRequest post (str "h") 80 (str "secret") (str "/a")) (make_session 0) in
  m_body (req (fill_request version (λ m, m) (mkRequest get (str "h") 80 [] (str "/b")) s)) = str "secret".
Proof. by vm_compute. Qed.

End HttpExample.
