(* ===== verification/IoExecutor.v ===== *)
(** * The executor of input and output (src/io/io_executor.h, src/io/io_executor.cpp, src/io/io.cpp)

    A pool of threads runs the handlers of a [boost::asio::io_service], which is an
    interface with its documented laws; a list served from the front implements it.  The
    threads of the pool, any callers of [Post] and the destructor are interleaved.  The sessions
    it makes are those of IoSession.v and HttpSession.v; the free functions reach it through the
    global runtime of Process.v. *)
From S2P Require Import Prelude.
From S2P Require Import Runtime.
From S2P Require Import Process.
From S2P Require Import Promise.
From S2P Require Import IoTask.
From S2P Require Import IoSession.
From S2P Require Import HttpSession.

(** ** The service the executor needs *)
Class IoService (H Q : Type) := {
  io_new : Q;
  io_post : H → Q → Q;
  io_poll : Q → option (H * Q);   (* the handler a thread in run() invokes next *)
  io_stop : Q → Q;
  io_stopped : Q → bool
}.

(** A handler is invoked once; [stop] makes [run] return and is not undone; handlers that
    are left stay in the service. *)
Class IoServiceLaws (H Q : Type) `{IoService H Q} := {
  io_pending : Q → list H;
  io_pending_new : io_pending io_new = [] ∧ io_stopped io_new = false;
  io_pending_post h q : io_pending (io_post h q) ≡ₚ h :: io_pending q ∧ io_stopped (io_post h q) = io_stopped q;
  io_pending_stop q : io_pending (io_stop q) = io_pending q ∧ io_stopped (io_stop q) = true;
  io_poll_Some q h q' : io_poll q = Some (h, q') → io_pending q ≡ₚ h :: io_pending q' ∧ io_stopped q' = io_stopped q;
  io_poll_None q : io_poll q = None → io_pending q = []
}.

Module ListService.
Record t (H : Type) := mk { queue : list H; stopped : bool }.
Arguments mk {H}. Arguments queue {H}. Arguments stopped {H}.

#[global] Instance list_service H : IoService H (t H) := {|
  io_new := mk [] false;
  io_post h q := mk (queue q ++ [h]) (stopped q);
  io_poll q := match queue q with [] => None | h :: l => Some (h, mk l (stopped q)) end;
  io_stop q := mk (queue q) true;
  io_stopped := stopped
|}.

#[global] Instance list_service_laws H : IoServiceLaws H (t H).
Proof.
  refine {| io_pending := queue |}; try done.
  - intros h q. split; [|done]. cbn. by rewrite (comm (++)).
  - intros [[|x l] b] h q'; [done|]. cbn. by intros [= -> <-].
  - by intros [[|x l] b].
Defined.
End ListService.

Module IoExecutor.
Section executor.
Context {H Q : Type} `{IoServiceLaws H Q}.
(** What a handler posts, and whether an exception leaves it. *)
Context (body : H → list H * bool).

Inductive thread :=
| InRun              (* inside io_service.run(), between handlers *)
| Busy (h : H)       (* inside a handler *)
| Returned.

Inductive dtor := Alive | Joining (k : nat) | Destroyed.

Record t := mk {
  io_service : Q;
  thread_pool : list thread;
  destructor : dtor;
  posted : list H;
  ran : list H;
  terminated : bool      (* an exception has left run() and its thread *)
}.

(** The constructor; [work] keeps [run] from returning when the queue is empty. *)
Definition make (max_threads : Z) : t :=
  mk io_new (replicate (Z.to_nat max_threads) InRun) Alive [] [] false.

(** [Post(handler)]. *)
Definition Post (h : H) (s : t) : t :=
  mk (io_post h (io_service s)) (thread_pool s) (destructor s) (h :: posted s) (ran s) (terminated s).

(** [Post(task)] throws. *)
Definition Post_task (s : t) : string + t := inl "task not supported in IOExecutor use io_task".

Definition set_thread (i : nat) (p : thread) (s : t) : t :=
  mk (io_service s) (<[i := p]> (thread_pool s)) (destructor s) (posted s) (ran s) (terminated s).

Definition thread_step (i : nat) (p : thread) (s : t) : option t :=
  match p with
  | InRun =>
      if io_stopped (io_service s) then Some (set_thread i Returned s)
      else match io_poll (io_service s) with
           | Some (h, q) =>
               Some (mk q (<[i := Busy h]> (thread_pool s)) (destructor s) (posted s) (ran s) (terminated s))
           | None => None
           end
  | Busy h =>
      let '(hs, throws) := body h in
      let s' := foldr Post (set_thread i InRun s) hs in
      Some (mk (io_service s') (thread_pool s') (destructor s') (posted s') (h :: ran s') (throws || terminated s))
  | Returned => None
  end.

(** [~IOExecutor]: [stop], then the joins in order. *)
Definition destroy_step (s : t) : option t :=
  match destructor s with
  | Alive => Some (mk (io_stop (io_service s)) (thread_pool s) (Joining 0) (posted s) (ran s) (terminated s))
  | Joining k =>
      match thread_pool s !! k with
      | Some Returned => Some (mk (io_service s) (thread_pool s) (Joining (S k)) (posted s) (ran s) (terminated s))
      | Some _ => None
      | None => Some (mk (io_service s) (thread_pool s) Destroyed (posted s) (ran s) (terminated s))
      end
  | Destroyed => None
  end.

Inductive label := LPost (h : H) | LThread (i : nat) | LDestroy.

Definition step (s : t) (l : label) : option t :=
  if terminated s then None
  else match l with
  | LPost h => match destructor s with Destroyed => None | _ => Some (Post h s) end
  | LThread i => p ← thread_pool s !! i; thread_step i p s
  | LDestroy => destroy_step s
  end.

Fixpoint run (s : t) (ls : list label) : option t :=
  match ls with
  | [] => Some s
  | l :: ls' => s' ← step s l; run s' ls'
  end.

(** [Resolve(host, port)]: the first endpoint found, or the exception of [resolve]. *)
Definition Resolve {E : Type} (resolve : string → string → string + list E) (to_string : Z → string)
    (host : string) (port : Z) : option (string + E) :=
  match resolve host (to_string port) with
  | inl e => Some (inl e)
  | inr (x :: _) => Some (inr x)
  | inr [] => None
  end.

(** ** Every handler once *)
Definition in_hand (p : thread) : list H := match p with Busy h => [h] | _ => [] end.

Definition busy (s : t) : list H := thread_pool s ≫= in_hand.

Record inv (n : nat) (s : t) : Prop := {
  iv_once : posted s ≡ₚ ran s ++ busy s ++ io_pending (io_service s);
  iv_len : length (thread_pool s) = n;
  iv_stop : io_stopped (io_service s) = true ↔ destructor s ≠ Alive;
  iv_joined : ∀ k i, destructor s = Joining k → (i < k)%nat → thread_pool s !! i = Some Returned;
  iv_done : destructor s = Destroyed → ∀ i p, thread_pool s !! i = Some p → p = Returned;
  iv_alive : destructor s = Alive → ∀ i, thread_pool s !! i ≠ Some Returned
}.

Lemma busy_insert (ps : list thread) i p p' : ps !! i = Some p →
  in_hand p ++ (<[i := p']> ps ≫= in_hand) ≡ₚ in_hand p' ++ (ps ≫= in_hand).
Proof.
  revert i. induction ps as [|q ps IH]; intros [|i] Hi; try done; cbn in *.
  - injection Hi as ->. rewrite !(assoc_L (++)), (comm (++) (in_hand p)). done.
  - rewrite !(assoc_L (++)), (comm (++) _ (in_hand q)), (comm (++) _ (in_hand q)), <- !(assoc_L (++)).
    by rewrite (IH i Hi).
Qed.

Lemma posts_frame hs s : let s' := foldr Post s hs in
  io_pending (io_service s') ≡ₚ hs ++ io_pending (io_service s) ∧ posted s' = hs ++ posted s ∧
  thread_pool s' = thread_pool s ∧ destructor s' = destructor s ∧ ran s' = ran s ∧
  io_stopped (io_service s') = io_stopped (io_service s).
Proof.
  induction hs as [|h hs IH]; cbn; [done|]. destruct IH as (Hp & Hq & Ht & Hd & Hr & Hs).
  destruct (io_pending_post h (io_service (foldr Post s hs))) as [Hp' Hs'].
  rewrite Hp', Hp, Hq, Hs'. done.
Qed.

Lemma inv_thread n i p s s' : inv n s → thread_pool s !! i = Some p → thread_step i p s = Some s' → inv n s'.
Proof.
  intros [Ho Hl Hst Hj Hd Ha] Hi Hstep.
  assert (∀ k, destructor s = Joining k → p ≠ Returned → (k <= i)%nat) as Hk.
  { intros k E Hp. destruct (decide (i < k)%nat) as [Hlt|?]; [|lia]. rewrite (Hj k i E Hlt) in Hi. congruence. }
  assert (p ≠ Returned → destructor s ≠ Destroyed) as Hnd by (intros Hp E; by apply Hp, (Hd E i)).
  assert (p ≠ Returned → ∀ p' k o, destructor s = Joining k → (o < k)%nat →
    <[i := p']> (thread_pool s) !! o = Some Returned) as Hjoin.
  { intros Hp p' k o E Hlt. rewrite list_lookup_insert_ne; [by eapply Hj|]. specialize (Hk k E Hp). lia. }
  assert (∀ p', p' ≠ Returned → destructor s = Alive → ∀ o, <[i := p']> (thread_pool s) !! o ≠ Some Returned) as Halive.
  { intros p' Hp' E o Ho'. apply list_lookup_insert_Some in Ho' as [(_ & ? & _)|[_ Ho']]; [done|by apply (Ha E o)]. }
  destruct p as [|h|]; cbn in Hstep; [|clear Hk|done].
  - destruct (io_stopped (io_service s)) eqn:Hstopped.
    + injection Hstep as <-. split; cbn; rewrite ?length_insert, ?Hstopped; try done.
      * pose proof (busy_insert _ i InRun Returned Hi) as Hb. cbn in Hb. unfold busy in *. cbn. by rewrite Hb.
      * by apply Hjoin.
      * intros E. by destruct Hnd.
      * intros E. by destruct Hst as [Hst _]; destruct (Hst eq_refl).
    + destruct (io_poll (io_service s)) as [[h q]|] eqn:Hpoll; [|done]. injection Hstep as <-.
      destruct (io_poll_Some _ _ _ Hpoll) as [Hp Hs'].
      split; cbn; rewrite ?length_insert, ?Hs', ?Hstopped; try done.
      * pose proof (busy_insert _ i InRun (Busy h) Hi) as Hb. cbn in Hb. unfold busy in *. cbn.
        rewrite Hb, Ho, Hp. cbn. solve_Permutation.
      * by apply Hjoin.
      * intros E. by destruct Hnd.
      * by apply Halive.
  - destruct (body h) as [hs throws]. injection Hstep as <-.
    pose proof (posts_frame hs (set_thread i InRun s)) as Hf. cbn zeta in Hf.
    generalize dependent (foldr Post (set_thread i InRun s) hs). intros s1 (Hp & Hq & Ht & Hdd & Hr & Hss).
    split; cbn; rewrite ?Hq, ?Ht, ?Hdd, ?Hr, ?Hss; cbn; rewrite ?length_insert; try done.
    + pose proof (busy_insert _ i (Busy h) InRun Hi) as Hb. cbn in Hb. unfold busy in *. cbn.
      rewrite Hp, Ho, <- Hb. cbn. solve_Permutation.
    + by apply Hjoin.
    + intros E. by destruct Hnd.
    + by apply Halive.
Qed.

Lemma inv_step_io n s l s' : inv n s → step s l = Some s' → inv n s'.
Proof.
  intros Hi. unfold step. destruct (terminated s); [done|]. destruct l as [h|i|].
  - assert (∀ d, destructor s = d → inv n (Post h s)) as HP.
    { intros d _. destruct Hi as [Ho Hl Hst Hj Hd Ha]. destruct (io_pending_post h (io_service s)) as [Hp Hs].
      split; cbn; rewrite ?Hs; try done. unfold busy in *. cbn. rewrite Hp, Ho. solve_Permutation. }
    destruct (destructor s) eqn:E; try done; intros [= <-]; by eapply HP.
  - destruct (thread_pool s !! i) as [p|] eqn:Hp; [|done]. by apply inv_thread.
  - destruct Hi as [Ho Hl Hst Hj Hd Ha]. unfold destroy_step. destruct (destructor s) as [|k|] eqn:E; [| |done].
    + intros [= <-]. destruct (io_pending_stop (io_service s)) as [Hp Hs].
      split; cbn; rewrite ?Hs, ?Hp; try done. intros k i [= <-] Hlt. lia.
    + destruct (thread_pool s !! k) as [[| |]|] eqn:Hk; try done; intros [= <-]; split; cbn; try done.
      * rewrite Hst. split; by intros _.
      * intros k' i [= <-] Hlt. destruct (decide (i = k)) as [->|?]; [done|]. apply (Hj k i eq_refl). lia.
      * rewrite Hst. split; by intros _.
      * intros _ i p Hip. apply lookup_ge_None in Hk. pose proof (lookup_lt_Some _ _ _ Hip).
        rewrite (Hj k i eq_refl) in Hip by lia. by injection Hip.
Qed.

Lemma inv_run_io n ls : ∀ s s', inv n s → run s ls = Some s' → inv n s'.
Proof.
  induction ls as [|l ls IH]; intros s s' Hi; cbn; [by intros [= <-]|].
  destruct (step s l) as [s1|] eqn:E; [|done]. apply IH. by eapply inv_step_io.
Qed.

Lemma inv_make_io m : inv (Z.to_nat m) (make m).
Proof.
  destruct io_pending_new as [Hp Hs]. split; cbn; rewrite ?length_replicate, ?Hs; try done.
  - unfold busy. cbn. rewrite Hp, app_nil_r. by induction (Z.to_nat m).
  - intros _ i [E _]%lookup_replicate. done.
Qed.

Lemma busy_length s : (length (busy s) <= length (thread_pool s))%nat.
Proof.
  unfold busy. induction (thread_pool s) as [|[|h|] ps IH]; cbn; lia.
Qed.

(** ** Leaving *)
Definition to_do (p : thread) : nat := match p with InRun => 1 | Busy _ => 2 | Returned => 0 end.

(** After [stop] a thread of the pool is never blocked and each of its steps brings it
    closer to its end. *)
Lemma stopped_thread n s i p : inv n s → destructor s ≠ Alive → thread_pool s !! i = Some p → p ≠ Returned →
  ∃ s' p', thread_step i p s = Some s' ∧ thread_pool s' !! i = Some p' ∧ (to_do p' < to_do p)%nat.
Proof.
  intros [_ _ Hst _ _ _] Hd Hi Hp. apply Hst in Hd. pose proof (lookup_lt_Some _ _ _ Hi) as Hlt.
  destruct p as [|h|]; [| |done]; cbn.
  - rewrite Hd. eexists _, Returned. split; [done|]. cbn.
    rewrite list_lookup_insert_eq by done. split; [done|lia].
  - destruct (body h) as [hs throws]. eexists _, InRun. split; [done|]. cbn.
    destruct (posts_frame hs (set_thread i InRun s)) as (_ & _ & -> & _). cbn.
    rewrite list_lookup_insert_eq by done. split; [done|lia].
Qed.

(** A handler that waits is taken: some thread of the pool can move. *)
Lemma pending_progress n s : inv n s → (0 < n)%nat → destructor s = Alive → terminated s = false →
  io_pending (io_service s) ≠ [] → ∃ i s', step s (LThread i) = Some s'.
Proof.
  intros [_ Hl Hst _ _ Ha] Hn Hd Ht Hp. unfold step. rewrite Ht.
  assert (io_stopped (io_service s) = false) as Hs.
  { destruct (io_stopped (io_service s)); [|done]. by destruct Hst as [Hst _]; destruct (Hst eq_refl). }
  destruct (thread_pool s) as [|p ps] eqn:Hps; [cbn in Hl; lia|].
  exists 0%nat. cbn. destruct p as [|h|]; cbn.
  - rewrite Hs. destruct (io_poll (io_service s)) as [[h q]|] eqn:Hq; [eauto|]. by apply io_poll_None in Hq.
  - destruct (body h). eauto.
  - by destruct (Ha Hd 0%nat).
Qed.
End executor.

(** ** Sessions *)
Definition MakeTCPSession {S : Type} (e clock : Z) (fs : S) : world := IoSession.make e clock fs.

Definition MakeUDPSession {S : Type} (e clock : Z) (fs : S) : world := IoSession.make e clock fs.

Definition MakeHTTPSession (timeout : Z) : HttpSession.session := HttpSession.make_session timeout.

Definition MakeHTTPMultipartSession (timeout : Z) : HttpSession.session := HttpSession.make_session timeout.

Arguments t : clear implicits.
Arguments thread : clear implicits.
Arguments label : clear implicits.
End IoExecutor.

(** ** The free functions of src/io/io.cpp *)
Module IoApi.
(** [static_cast<IOExecutor *>(g_runtime->GetIOExecutor())], when there is such an executor. *)
Definition io_executor (i : nat) (s : Process.t) : option nat :=
  '(_, r) ← Process.g_runtime i s;
  a ← Process.GetIOExecutor (Process.core r);
  if existsb (λ ka, (Runtime.self_of ka.2 =? a)%nat) (Runtime.executors (Process.core r)) then Some a else None.

Section api.
Context (i : nat) (s : Process.t).

Definition MakeTCPSession {S : Type} (e clock : Z) (fs : S) : option world :=
  _ ← io_executor i s; Some (IoExecutor.MakeTCPSession e clock fs).

Definition MakeUDPSession {S : Type} (e clock : Z) (fs : S) : option world :=
  _ ← io_executor i s; Some (IoExecutor.MakeUDPSession e clock fs).

Definition MakeHTTPSession (timeout : Z) : option HttpSession.session :=
  _ ← io_executor i s; Some (IoExecutor.MakeHTTPSession timeout).

Definition MakeHTTPMultipartSession (timeout : Z) : option HttpSession.session :=
  _ ← io_executor i s; Some (IoExecutor.MakeHTTPMultipartSession timeout).

Definition Resolve {E : Type} (resolve : string → string → string + list E) (to_string : Z → string)
    (host : string) (port : Z) : option (string + E) :=
  _ ← io_executor i s; IoExecutor.Resolve resolve to_string host port.
End api.

(** [http_session::close] posts a handler that catches what closing throws. *)
Definition http_close {H Q : Type} `{IoService H Q} (close_handler : H) (x : IoExecutor.t H Q) : IoExecutor.t H Q :=
  IoExecutor.Post close_handler x.

(** The runtime that is set up has the executor; without a runtime there is none to ask. *)
Example io_executor_of_setup :
  (s ← Process.SetupRuntime 2 77 0 [] 1 10 Process.start; io_executor 0 s) = Some 1%nat ∧ io_executor 0 Process.start = None.
Proof. split; vm_compute; reflexivity. Qed.
End IoApi.
Import IoExecutor.

(** C20: the executor of input and output runs each handler at most once and loses none:
    in every interleaving of posts, threads of the pool and the destructor, the handlers
    posted are those that ran, those being run, at most one per thread, and those still in
    the service; while the executor lives and a handler waits, a pool that is not empty can
    move; once the destructor has returned no thread is left to run one. *)
Theorem io_executor_once {H Q : Type} `{IoServiceLaws H Q} (body : H → list H * bool)
    (max_threads : Z) (ls : list (label H)) (s : IoExecutor.t H Q) :
  run body (make max_threads) ls = Some s →
  posted s ≡ₚ ran s ++ busy s ++ io_pending (io_service s) ∧
  length (busy s) <= Z.max 0 max_threads ∧
  (0 < max_threads → destructor s = Alive → terminated s = false → io_pending (io_service s) ≠ [] →
    ∃ i s', step body s (LThread i) = Some s') ∧
  (destructor s = Destroyed → ∀ i p, thread_pool s !! i = Some p → p = Returned).
Proof.
  intros Hr. pose proof (inv_run_io body _ ls _ _ (inv_make_io max_threads) Hr) as Hi. split_and!.
  - apply Hi.
  - pose proof (busy_length s). pose proof (iv_len _ _ Hi). lia.
  - intros Hm. eapply pending_progress; [done|lia].
  - apply Hi.
Qed.

(** One thread, a handler that posts another one; the destructor comes before the second
    has run, and it is dropped. *)
Definition chain (h : nat) : list nat * bool := (if (h =? 1)%nat then [2%nat] else [], false).

Definition chain_run : list (label nat) :=
  [LPost 1%nat; LThread 0; LThread 0; LDestroy; LThread 0; LDestroy; LDestroy].

Definition chain_end : IoExecutor.t nat (ListService.t nat) :=
  default (make 1) (run chain (make 1) chain_run).

Lemma io_executor_once_witness :
  posted chain_end ≡ₚ ran chain_end ++ busy chain_end ++ io_pending (io_service chain_end) ∧
  ran chain_end = [1%nat] ∧ io_pending (io_service chain_end) = [2%nat] ∧ destructor chain_end = Destroyed.
Proof.
  split; [|vm_compute; auto].
  destruct (io_executor_once chain 1 chain_run chain_end) as (Hp & _); [vm_compute; reflexivity|exact Hp].
Defined.
