(* ===== verification/HttpDigest.v ===== *)
(** * HTTP digest authentication

    include/ar/io/http_digest_authenticator.hpp and src/io/http_digest_authenticator.cpp.  The digest
    of boost (md5) and its printing in hexadecimal are arguments.  The one regular expression of the code,
    [key=([^,]+)], is a search for the first place where the key, an equals sign and at least
    one character other than a comma stand; the group is the longest run of such characters. *)
From Stdlib Require Import Ascii String.
From S2P Require Import Prelude.
From S2P Require Import CppString.

Definition comma : ascii := ",".
Definition quote : ascii := "034".

(** The longest prefix without a comma. *)
Fixpoint until_comma (s : cstring) : cstring :=
  match s with
  | [] => []
  | c :: s' => if Ascii.eqb c comma then [] else c :: until_comma s'
  end.

(** The group of a match at the start of [s]. *)
Definition match_here (key s : cstring) : option cstring :=
  if starts_with (key ++ ["="%char]) s then
    match until_comma (drop (S (length key)) s) with
    | [] => None
    | g => Some g
    end
  else None.

(** [boost::regex_search]. *)
Fixpoint regex_search (key s : cstring) : option cstring :=
  match match_here key s with
  | Some g => Some g
  | None => match s with [] => None | _ :: s' => regex_search key s' end
  end.

(** The value of the group without its quotes; [None]: the size wraps, and the construction of
    the string throws. *)
Definition unquote (g : cstring) : option cstring :=
  let first_quoted := match g with c :: _ => Ascii.eqb c quote | [] => false end in
  let last_quoted := match last g with Some c => Ascii.eqb c quote | None => false end in
  let start := if first_quoted then 1%nat else 0%nat in
  let sz := size g - (if first_quoted then 1 else 0) - (if last_quoted then 1 else 0) in
  if sz <? 0 then None else Some (take (Z.to_nat sz) (drop start g)).

(** [find_section]: not found, found, or an exception. *)
Inductive section := NotFound | Found (value : cstring) | SectionThrows.

Definition find_section (key authenticate : cstring) : section :=
  match regex_search key authenticate with
  | None => NotFound
  | Some g => match unquote g with Some v => Found v | None => SectionThrows end
  end.

Section digest.
Context {D : Type}.
Variable md5 : cstring → D.              (* process_bytes, get_digest *)
Variable hex : D → cstring.              (* boost::algorithm::hex of the words of the digest *)

Definition tolower (c : ascii) : ascii :=
  let n := N_of_ascii c in
  if (N.leb 65 n && N.leb n 90)%bool then ascii_of_N (n + 32) else c.

Definition to_string (d : D) : cstring := tolower <$> hex d.

Definition calculateHA1 (username realm password : cstring) : cstring :=
  to_string (md5 (username ++ str ":" ++ realm ++ str ":" ++ password)).

Definition calculateHA2 (method uri : cstring) : cstring :=
  to_string (md5 (method ++ str ":" ++ uri)).

Record authenticator := mk {
  m_authenticate : cstring; m_username : cstring; m_password : cstring; m_uri : cstring; m_method : cstring;
  m_realm : cstring; m_nonce : cstring; m_cnonce : cstring; m_nonceCount : cstring;
  m_ha1 : cstring; m_ha2 : cstring; m_response : cstring; m_authorization : cstring
}.

Definition make (www_authenticate username password uri method : cstring) : authenticator :=
  mk www_authenticate username password uri method [] [] [] [] [] [] [] [].

Definition set_nonce (v : cstring) (a : authenticator) : authenticator :=
  mk (m_authenticate a) (m_username a) (m_password a) (m_uri a) (m_method a) (m_realm a) v (m_cnonce a) (m_nonceCount a)
    (m_ha1 a) (m_ha2 a) (m_response a) (m_authorization a).

Definition set_realm (v : cstring) (a : authenticator) : authenticator :=
  mk (m_authenticate a) (m_username a) (m_password a) (m_uri a) (m_method a) v (m_nonce a) (m_cnonce a) (m_nonceCount a)
    (m_ha1 a) (m_ha2 a) (m_response a) (m_authorization a).

(** [find_nonce] and [find_realm] assign the section they find; [None]: an exception. *)
Definition find_nonce (a : authenticator) : option (bool * authenticator) :=
  match find_section (str "nonce") (m_authenticate a) with
  | Found v => Some (true, set_nonce v a)
  | NotFound => Some (false, a)
  | SectionThrows => None
  end.

Definition find_realm (a : authenticator) : option (bool * authenticator) :=
  match find_section (str "realm") (m_authenticate a) with
  | Found v => Some (true, set_realm v a)
  | NotFound => Some (false, a)
  | SectionThrows => None
  end.

Definition calculate_response (ha1 nonce nonceCount cnonce ha2 : cstring) : cstring :=
  to_string (md5 (ha1 ++ str ":" ++ nonce ++ str ":" ++ nonceCount ++ str ":" ++ cnonce ++ str ":auth:" ++ ha2)).

(** A string that is assigned a [bool] has one character. *)
Definition string_of_bool (b : bool) : cstring := [if b then "001"%char else "000"%char].

Definition q : cstring := [quote].

Definition authorization_text (username realm nonce uri nonceCount cnonce response : cstring) : cstring :=
  str "Digest username=" ++ q ++ username ++ q ++ str ", realm=" ++ q ++ realm ++ q ++ str ", nonce=" ++ q ++ nonce ++
  q ++ str ", uri=" ++ q ++ uri ++ q ++ str ", qop=auth, nc=" ++ nonceCount ++ str ", cnonce=" ++ q ++ cnonce ++
  q ++ str ", response=" ++ q ++ response ++ q.

Definition generate_authorization (a : authenticator) : option (bool * authenticator) :=
  match find_nonce a with
  | None => None
  | Some (false, a) => Some (false, a)
  | Some (true, a) =>
      match find_realm a with
      | None => None
      | Some (false, a) => Some (false, a)
      | Some (true, a) =>
          match find_nonce a with
          | None => None
          | Some (b, a) =>
              let cnonce := string_of_bool b in
              let nonceCount := str "1" in
              let ha1 := calculateHA1 (m_username a) (m_realm a) (m_password a) in
              let ha2 := calculateHA2 (m_method a) (m_uri a) in
              let response := calculate_response ha1 (m_nonce a) nonceCount cnonce ha2 in
              Some (true, mk (m_authenticate a) (m_username a) (m_password a) (m_uri a) (m_method a) (m_realm a) (m_nonce a)
                cnonce nonceCount ha1 ha2 response
                (authorization_text (m_username a) (m_realm a) (m_nonce a) (m_uri a) nonceCount cnonce response))
          end
      end
  end.

(** ** Sections of the header *)

Lemma until_comma_app v rest : comma ∉ v → (rest = [] ∨ ∃ r, rest = comma :: r) → until_comma (v ++ rest) = v.
Proof.
  intros Hv Hr. induction v as [|c v IH]; cbn [app until_comma].
  - destruct Hr as [->|[r ->]]; [done|]. cbn [until_comma]. by rewrite Ascii.eqb_refl.
  - rewrite (proj2 (Ascii.eqb_neq c comma)) by (intros ->; set_solver). f_equal. apply IH. set_solver.
Qed.

Lemma match_here_found key g rest : comma ∉ g → g ≠ [] → (rest = [] ∨ ∃ r, rest = comma :: r) →
  match_here key (key ++ str "=" ++ g ++ rest) = Some g.
Proof.
  intros Hg Hne Hr. unfold match_here.
  replace (key ++ str "=" ++ g ++ rest) with ((key ++ ["="%char]) ++ g ++ rest) by (by rewrite <- app_assoc).
  rewrite starts_with_app.
  replace (S (length key)) with (length (key ++ ["="%char])) by (rewrite length_app; cbn; lia).
  rewrite drop_app_length, until_comma_app by done. by destruct g.
Qed.

(** The first place with the key gives the section. *)
Lemma regex_search_found key pre g rest :
  (∀ k, (k < length pre)%nat → starts_with (key ++ ["="%char]) (drop k pre ++ key ++ str "=" ++ g ++ rest) = false) →
  comma ∉ g → g ≠ [] → (rest = [] ∨ ∃ r, rest = comma :: r) →
  regex_search key (pre ++ key ++ str "=" ++ g ++ rest) = Some g.
Proof.
  intros Hk Hg Hne Hr. induction pre as [|c pre IH].
  - cbn [app]. pose proof (match_here_found key g rest Hg Hne Hr) as Hm.
    destruct (key ++ str "=" ++ g ++ rest); cbn [regex_search]; by rewrite Hm.
  - cbn [app regex_search]. unfold match_here.
    pose proof (Hk 0%nat ltac:(cbn; lia)) as H0. cbn [drop app] in H0. rewrite H0.
    apply IH. intros k Hlt. apply (Hk (S k)). cbn. lia.
Qed.

Lemma unquote_quoted v : unquote (q ++ v ++ q) = Some v.
Proof.
  unfold unquote, q. change ([quote] ++ v ++ [quote]) with ((quote :: v) ++ [quote]).
  rewrite last_snoc. cbn [app]. rewrite Ascii.eqb_refl. change (quote :: v ++ [quote]) with ((quote :: v) ++ [quote]).
  assert (Hs : size ((quote :: v) ++ [quote]) - 1 - 1 = size v) by (unfold size; rewrite length_app; cbn [length]; lia).
  rewrite Hs. rewrite (proj2 (Z.ltb_ge _ _)) by (unfold size; lia).
  unfold size. rewrite Nat2Z.id. change (drop 1%nat ((quote :: v) ++ [quote])) with (v ++ [quote]).
  by rewrite take_app_length.
Qed.

(** A section in quotes, with the key nowhere before it. *)
Lemma find_section_quoted key pre v rest :
  (∀ k, (k < length pre)%nat → starts_with (key ++ ["="%char]) (drop k pre ++ key ++ str "=" ++ (q ++ v ++ q) ++ rest) = false) →
  comma ∉ v → (rest = [] ∨ ∃ r, rest = comma :: r) →
  find_section key (pre ++ key ++ str "=" ++ (q ++ v ++ q) ++ rest) = Found v.
Proof.
  intros Hk Hv Hr. unfold find_section. rewrite regex_search_found; [by rewrite unquote_quoted|done| |done|done].
  rewrite !elem_of_app. unfold q. rewrite !list_elem_of_singleton. intros [Hc|[Hc|Hc]]; [done|done|done].
Qed.

(** A prefix that ends with a character foreign to the key. *)
Lemma no_match_before pat a d tail : d ∉ pat → ¬ occurs pat a →
  ∀ k, (k < length (a ++ [d]))%nat → starts_with pat (drop k (a ++ [d]) ++ tail) = false.
Proof.
  intros Hd Hn k Hk. rewrite length_app in Hk. cbn in Hk. rewrite drop_app_le by lia.
  rewrite <- app_assoc. cbn. rewrite starts_with_barrier by done. apply not_true_iff_false. intros Hs.
  apply Hn, occurs_starts. exists k. split; [lia|done].
Qed.

(** The search fails exactly when no place matches. *)
Lemma regex_search_none key s :
  regex_search key s = None ↔ ¬ ∃ pre c rest, c ≠ comma ∧ s = pre ++ key ++ str "=" ++ c :: rest.
Proof.
  assert (Hm : ∀ s, match_here key s = None ↔ ¬ ∃ c rest, c ≠ comma ∧ s = key ++ str "=" ++ c :: rest).
  { intros t. unfold match_here. destruct (starts_with (key ++ ["="%char]) t) eqn:E.
    - apply starts_with_spec in E as [u ->].
      replace (S (length key)) with (length (key ++ ["="%char])) by (rewrite length_app; cbn; lia).
      rewrite drop_app_length. rewrite <- app_assoc. destruct u as [|c u]; cbn [until_comma].
      + split; [|done]. intros _ (c & rest & _ & Hc). by apply app_inv_head in Hc.
      + destruct (Ascii.eqb_spec c comma) as [->|Hne].
        * split; [|done]. intros _ (c & rest & Hc & Hr). apply app_inv_head in Hr. cbn in Hr. congruence.
        * split; [done|]. intros []. by exists c, u.
    - split; [|done]. intros _ (c & rest & _ & ->). apply not_true_iff_false in E. apply E, starts_with_spec.
      exists (c :: rest). by rewrite <- app_assoc. }
  induction s as [|c s IH]; cbn [regex_search].
  - destruct (match_here key []) eqn:E.
    + split; [done|]. intros Hn. exfalso. assert (match_here key [] = None) as E'; [|congruence].
      apply Hm. intros (c & rest & Hc & Hr). apply Hn. by exists [], c, rest.
    + split; [|done]. intros _ (pre & c & rest & Hc & Hr). destruct pre; [|done].
      apply (proj1 (Hm []) E). by exists c, rest.
  - destruct (match_here key (c :: s)) eqn:E.
    + split; [done|]. intros Hn. exfalso. assert (match_here key (c :: s) = None) as E'; [|congruence].
      apply Hm. intros (c' & rest & Hc & Hr). apply Hn. by exists [], c', rest.
    + rewrite IH. split.
      * intros Hn (pre & c' & rest & Hc & Hr). destruct pre as [|x pre].
        -- apply (proj1 (Hm _) E). by exists c', rest.
        -- injection Hr as -> ->. apply Hn. by exists pre, c', rest.
      * intros Hn (pre & c' & rest & Hc & ->). apply Hn. by exists (c :: pre), c', rest.
Qed.

(** The two sections of a usual challenge. *)
Definition challenge (realm nonce rest : cstring) : cstring :=
  str "Digest realm=" ++ q ++ realm ++ q ++ str ", nonce=" ++ q ++ nonce ++ q ++ rest.

Lemma challenge_realm R N rest : comma ∉ R → find_section (str "realm") (challenge R N rest) = Found R.
Proof.
  intros HR. unfold challenge.
  replace (str "Digest realm=" ++ q ++ R ++ q ++ str ", nonce=" ++ q ++ N ++ q ++ rest) with
    ((str "Digest" ++ [" "%char]) ++ str "realm" ++ str "=" ++ (q ++ R ++ q) ++ (str ", nonce=" ++ q ++ N ++ q ++ rest))
    by (cbn; rewrite <- ?app_assoc; cbn; by rewrite <- ?app_assoc).
  apply find_section_quoted; [|done|right; by eexists].
  apply (no_match_before (str "realm" ++ ["="%char]) (str "Digest") " "%char); [by_evaluation|].
  apply find_npos; by vm_compute.
Qed.

Lemma challenge_nonce R N rest : comma ∉ N → ¬ occurs (str "nonce=") R → (rest = [] ∨ ∃ r, rest = comma :: r) →
  find_section (str "nonce") (challenge R N rest) = Found N.
Proof.
  intros HN HR Hr. unfold challenge.
  replace (str "Digest realm=" ++ q ++ R ++ q ++ str ", nonce=" ++ q ++ N ++ q ++ rest) with
    (((str "Digest realm=" ++ quote :: R ++ quote :: str ",") ++ [" "%char]) ++ str "nonce" ++ str "=" ++ (q ++ N ++ q) ++ rest)
    by (cbn; rewrite <- ?app_assoc; cbn; by rewrite <- ?app_assoc).
  apply find_section_quoted; [|done|done].
  apply no_match_before; [by_evaluation|]. intros Ho.
  apply occurs_barrier in Ho as [Ho|Ho]; [| |by_evaluation].
  - revert Ho. apply find_npos; by vm_compute.
  - apply occurs_barrier in Ho as [Ho|Ho]; [done| |by_evaluation]. revert Ho. apply find_npos; by vm_compute.
Qed.
End digest.

(** The answer to a digest challenge.  For a challenge [Digest realm=R, nonce=N] in quotes, with further sections after
    it or none, whose realm and nonce have no comma and whose realm does not contain [nonce=], the authorization is generated, and its response is the digest
    of the two digests of user, realm and password and of method and address, the nonce, the count 1, the client nonce and
    [auth]; the text carries these values.  The client nonce is the one character of code 1 in every answer. *)
Theorem digest_authorization {D : Type} (md5 : cstring → D) (hex : D → cstring)
  (R N rest username password uri method : cstring)
  (HR : comma ∉ R) (HN : comma ∉ N) (HRn : ¬ occurs (str "nonce=") R) (Hr : rest = [] ∨ ∃ r, rest = comma :: r) :
  let H x := to_string hex (md5 x) in
  let colon := str ":" in
  let cnonce := ["001"%char] in
  let response := H (H (username ++ colon ++ R ++ colon ++ password) ++ colon ++ N ++ colon ++ str "1" ++ colon ++
                     cnonce ++ str ":auth:" ++ H (method ++ colon ++ uri)) in
  ∃ a, generate_authorization md5 hex (make (challenge R N rest) username password uri method) = Some (true, a) ∧
    m_response a = response ∧ m_nonce a = N ∧ m_realm a = R ∧
    m_authorization a = authorization_text username R N uri (str "1") cnonce response.
Proof.
  cbv zeta. unfold generate_authorization, find_nonce, find_realm, make, calculate_response, calculateHA1, calculateHA2, string_of_bool.
  cbn [m_authenticate].
  rewrite challenge_nonce by done. unfold set_nonce. cbn [m_authenticate]. rewrite challenge_realm by done.
  unfold set_realm. cbn [m_authenticate]. rewrite challenge_nonce by done.
  cbn [m_authenticate m_username m_realm m_password m_uri m_method m_nonce]. eexists. split; [reflexivity|]. repeat (split; [reflexivity|]). reflexivity.
Qed.

(** When no authorization is generated.  [generate_authorization] returns false exactly when the challenge has no nonce with a
    value, or, its nonce having been read, no realm with a value; the authorization and the response are then
    unchanged. *)
Theorem digest_refused {D : Type} (md5 : cstring → D) (hex : D → cstring) (a a' : authenticator)
  (E : generate_authorization md5 hex a = Some (false, a')) :
  ((¬ ∃ pre c rest, c ≠ comma ∧ m_authenticate a = pre ++ str "nonce" ++ str "=" ++ c :: rest) ∨
   (¬ ∃ pre c rest, c ≠ comma ∧ m_authenticate a = pre ++ str "realm" ++ str "=" ++ c :: rest)) ∧
  m_authorization a' = m_authorization a ∧ m_response a' = m_response a.
Proof.
  assert (Hs : ∀ key, find_section key (m_authenticate a) = NotFound → regex_search key (m_authenticate a) = None).
  { intros key. unfold find_section. destruct (regex_search key _) as [g|]; [|done]. by destruct (unquote g). }
  unfold generate_authorization, find_nonce, find_realm in E.
  destruct (find_section (str "nonce") (m_authenticate a)) as [|v|] eqn:En; [|cbn [m_authenticate set_nonce] in E|done].
  - injection E as <-. split; [|done]. left. apply regex_search_none, Hs, En.
  - destruct (find_section (str "realm") (m_authenticate a)) as [|u|] eqn:Er; [| |done].
    + injection E as <-. split; [|done]. right. apply regex_search_none, Hs, Er.
    + cbn [m_authenticate set_realm set_nonce] in E. by rewrite En in E.
Qed.

(** ** Examples *)
Module DigestExample.

(** A digest that is the text itself. *)
Definition id_md5 (x : cstring) : cstring := x.

Lemma digest_authorization_witness :
  ∃ a, generate_authorization id_md5 id_md5 (make (challenge (str "home") (str "abc") []) (str "u") (str "p") (str "/") (str "GET")) =
    Some (true, a) ∧ m_nonce a = str "abc".
Proof.
  destruct (digest_authorization id_md5 id_md5 (str "home") (str "abc") [] (str "u") (str "p") (str "/") (str "GET"))
    as (a & E & _ & Hn & _).
  - by_evaluation.
  - by_evaluation.
  - apply find_npos; vm_compute; reflexivity.
  - left. reflexivity.
  - exists a. split; [exact E|exact Hn].
Defined.

Lemma digest_refused_witness :
  ∃ a', generate_authorization id_md5 id_md5 (make (str "Digest realm=x, nonce=") (str "u") (str "p") (str "/") (str "GET")) = Some (false, a') ∧
    m_authorization a' = [].
Proof.
  eexists. split; [vm_compute; reflexivity|].
  exact (proj1 (proj2 (digest_refused id_md5 id_md5
    (make (str "Digest realm=x, nonce=") (str "u") (str "p") (str "/") (str "GET")) _ ltac:(vm_compute; reflexivity)))).
Defined.

(** A comma inside the quotes cuts the value. *)
Example comma_cuts_a_section :
  find_section (str "realm") (challenge (str "a,b") (str "n") []) = Found (str "a").
Proof. by vm_compute. Qed.

(** A value of one quotation mark makes the size wrap. *)
Example lone_quote_throws : find_section (str "nonce") (str "nonce=" ++ q) = SectionThrows.
Proof. by vm_compute. Qed.

End DigestExample.
