(* ===== verification/Logger.v ===== *)
(** * The logger

    include/ar/logger.hpp and src/logger.cpp.  A callback is known by a number, zero is the
    null pointer; what a call writes is the text its callback is given.  The time and the identifier of the thread are arguments of the calls. *)
From Stdlib Require Import Ascii String.
From S2P Require Import Prelude.
From S2P Require Import CppString.

Module Logger.

(** The enumerations, which can hold other values of their underlying type. *)
Definition Silent : Z := 0.
Definition Error : Z := 1.
Definition Warning : Z := 2.
Definition Info : Z := 3.
Definition Verbose : Z := 4.
Definition Debug : Z := 5.

Definition Production : Z := 0.
Definition E2E : Z := 1.

Record t := mk {
  callback : nat;
  user_data : nat;
  mode : Z;
  level : Z;
  domain : cstring;
  enable_thread_id : bool;
  enable_timestamp : bool;
  enable_prefix : bool
}.

(** The constructor leaves [_mode] as it finds it. *)
Definition make (mode0 : Z) : t := mk 0 0 mode0 Verbose [] false true true.

(** The callback is that of the global logger, [GetCallback]. *)
Definition DuplicateLogger (s_logger other self : t) : t :=
  mk (callback s_logger) (user_data other) (mode self) (level other) (domain other)
    (enable_thread_id other) (enable_timestamp other) (enable_prefix other).

(** A setter that throws leaves the logger as it was at that point; the flag says it threw. *)
Definition SetLogLevel (l : Z) (g : t) : bool * t :=
  if Debug <? l then (true, g)
  else (false, mk (callback g) (user_data g) (mode g) l (domain g) (enable_thread_id g) (enable_timestamp g) (enable_prefix g)).

Definition SetModeLevel (m : Z) (g : t) : bool * t :=
  if E2E <? m then (true, g)
  else (false, mk (callback g) (user_data g) m (level g) (domain g) (enable_thread_id g) (enable_timestamp g) (enable_prefix g)).

Definition SetDomain (d : cstring) (g : t) : t :=
  mk (callback g) (user_data g) (mode g) (level g) d (enable_thread_id g) (enable_timestamp g) (enable_prefix g).

Definition Set_ (cb ud : nat) (g : t) : t :=
  mk cb ud (mode g) (level g) (domain g) (enable_thread_id g) (enable_timestamp g) (enable_prefix g).

Definition SetWithLevel (cb ud : nat) (l : Z) (g : t) : bool * t := SetLogLevel l (Set_ cb ud g).

Definition SetEnableThreadId (b : bool) (g : t) : t :=
  mk (callback g) (user_data g) (mode g) (level g) (domain g) b (enable_timestamp g) (enable_prefix g).

Definition SetEnableTimestamp (b : bool) (g : t) : t :=
  mk (callback g) (user_data g) (mode g) (level g) (domain g) (enable_thread_id g) b (enable_prefix g).

Definition SetEnablePrefix (b : bool) (g : t) : t :=
  mk (callback g) (user_data g) (mode g) (level g) (domain g) (enable_thread_id g) (enable_timestamp g) b.

(** [StdWrite], which prints its argument, is the callback of this number. *)
Definition StdWrite : nat := 1.

Definition SetStd (g : t) : t :=
  mk StdWrite (user_data g) (mode g) (level g) (domain g) (enable_thread_id g) (enable_timestamp g) (enable_prefix g).

(** ** Writing *)

Definition RemoveEscapeSymbols (s : cstring) : cstring :=
  foldl (λ s symbol, filter (λ c, c ≠ symbol) s) s [LF; CR].

(** [None]: the assertion fails. *)
Definition GetLogPrefix (l : Z) : option cstring :=
  if l =? Error then Some (str "E")
  else if l =? Warning then Some (str "W")
  else if l =? Info then Some (str "I")
  else if l =? Verbose then Some (str "V")
  else if l =? Debug then Some (str "D")
  else if l =? Silent then Some (str "S")
  else None.

Definition GetModePrefix : cstring := if 1 =? E2E then str "E2E" else str "  ".

Definition bracketed (s : cstring) : cstring := str "[" ++ s ++ str "] ".

(** The time, as printed, if the local time is known; and the thread. *)
Record context := mkCtx { timestamp : option cstring; thread_id : cstring }.

Definition text (tag dom message : cstring) (x : context) (g : t) : cstring :=
  (if enable_prefix g then bracketed tag else []) ++
  (match dom with [] => [] | _ => bracketed dom end) ++
  (if enable_timestamp g then match timestamp x with Some s => bracketed s | None => [] end else []) ++
  (if enable_thread_id g then bracketed (thread_id x) else []) ++
  RemoveEscapeSymbols message ++ [LF].

(** The call of the callback, if there is one: its number, its data and the text. *)
Definition Write (tag dom message : cstring) (x : context) (g : t) : option (nat * nat * cstring) :=
  if Nat.eqb (callback g) 0 then None
  else Some (callback g, user_data g, text tag dom message x g).

Definition domain_of (dom : cstring) (g : t) : cstring := match dom with [] => domain g | _ => dom end.

Definition WriteMode (m : Z) (dom message : cstring) (x : context) (g : t) : option (nat * nat * cstring) :=
  if negb (mode g =? E2E) || negb (m =? E2E) then None
  else Write GetModePrefix (domain_of dom g) message x g.

(** The outcome of [WriteLog]: what is written, or the failed assertion. *)
Inductive written := Wrote (o : option (nat * nat * cstring)) | AssertFails.

Definition WriteLog (l : Z) (dom message : cstring) (x : context) (g : t) : written :=
  if level g <? l then Wrote None
  else match GetLogPrefix l with
       | Some tag => Wrote (Write tag (domain_of dom g) message x g)
       | None => AssertFails
       end.

(** A [FunScope] writes when it is made and when it goes. *)
Definition FunScope_begin (ctx : cstring) (x : context) (s_logger : t) : written :=
  WriteLog Verbose [] (ctx ++ str " started...") x s_logger.

Definition FunScope_end (ctx : cstring) (x : context) (s_logger : t) : written :=
  WriteLog Verbose [] (ctx ++ str " finished.") x s_logger.

(** ** The macros *)
(** [AR_LOG] and [AR_LOG_SS] with two and with three arguments; the second pair formats the
    message first. *)
Definition AR_LOG2 (l : Z) (msg : cstring) (x : context) (s_logger : t) : written := WriteLog l [] msg x s_logger.

Definition AR_LOG3 (l : Z) (dom msg : cstring) (x : context) (s_logger : t) : written := WriteLog l dom msg x s_logger.

(** [AR_CONTEXT] and [AR_LOG_CONTEXT]. *)
Definition AR_CONTEXT (file line function : cstring) : cstring :=
  file ++ str "(" ++ line ++ str ") : '" ++ function ++ str "': ".

Definition AR_LOG_CONTEXT (l : Z) (file line function msg : cstring) (x : context) (s_logger : t) : written :=
  AR_LOG2 l (AR_CONTEXT file line function ++ msg) x s_logger.

(** [AR_LOG_E2E_SS4] and [AR_LOG_E2E_SS5]; [s_attrs] is what [ConvertAttrs] gives. *)
Definition e2e_message (ctx status s_attrs msg : cstring) : cstring :=
  ctx ++ str " " ++ status ++ (match s_attrs with [] => [] | _ => str " " end) ++ s_attrs ++ str " " ++ msg.

Definition AR_LOG_E2E_SS5 (ctx status s_attrs dom msg : cstring) (x : context) (s_logger : t) :=
  WriteMode E2E dom (e2e_message ctx status s_attrs msg) x s_logger.

Definition AR_LOG_E2E_SS4 (ctx status s_attrs msg : cstring) (x : context) (s_logger : t) :=
  AR_LOG_E2E_SS5 ctx status s_attrs [] msg x s_logger.

(** A macro with the level [Silent] writes, whatever the level of the logger is; that the levels
    are ordered from [Silent] up makes it the most important one. *)
Lemma silent_is_written msg x g : 0 <= level g → callback g ≠ 0%nat →
  ∃ s, AR_LOG2 Silent msg x g = Wrote (Some (callback g, user_data g, s)).
Proof.
  intros Hl Hc. unfold AR_LOG2, WriteLog, Silent. destruct (Z.ltb_spec (level g) 0); [lia|]. cbn. unfold Write.
  destruct (Nat.eqb_spec (callback g) 0); [done|]. by eexists.
Qed.

(** ** The setters *)
Inductive setter :=
| OpSetLogLevel (l : Z) | OpSetModeLevel (m : Z) | OpSetDomain (d : cstring) | OpSet (cb ud : nat)
| OpSetWithLevel (cb ud : nat) (l : Z) | OpThreadId (b : bool) | OpTimestamp (b : bool) | OpPrefix (b : bool)
| OpSetStd | OpDuplicate (s_logger other : t).

Definition apply_setter (o : setter) (g : t) : bool * t :=
  match o with
  | OpSetLogLevel l => SetLogLevel l g
  | OpSetModeLevel m => SetModeLevel m g
  | OpSetDomain d => (false, SetDomain d g)
  | OpSet cb ud => (false, Set_ cb ud g)
  | OpSetWithLevel cb ud l => SetWithLevel cb ud l g
  | OpThreadId b => (false, SetEnableThreadId b g)
  | OpTimestamp b => (false, SetEnableTimestamp b g)
  | OpPrefix b => (false, SetEnablePrefix b g)
  | OpSetStd => (false, SetStd g)
  | OpDuplicate s other => (false, DuplicateLogger s other g)
  end.

(** The level is one of the enumeration. *)
Definition valid (g : t) : Prop := Silent <= level g <= Debug.

(** The arguments are values of the enumerations' types, which are unsigned, and loggers that are valid. *)
Definition argument_ok (o : setter) : Prop :=
  match o with
  | OpSetLogLevel l => 0 <= l
  | OpSetModeLevel m => 0 <= m
  | OpSetWithLevel _ _ l => 0 <= l
  | OpDuplicate _ other => valid other
  | _ => True
  end.

Lemma apply_setter_valid o g : argument_ok o → valid g → valid (apply_setter o g).2.
Proof.
  unfold valid, Silent, Debug. destruct o; cbn; intros Ho Hg; try lia.
  - unfold SetLogLevel, Debug. ztest; cbn; lia.
  - unfold SetModeLevel. ztest; cbn; lia.
  - unfold SetWithLevel, SetLogLevel, Debug. ztest; cbn; lia.
  - exact Ho.
Qed.

Lemma apply_setters_valid os g : Forall argument_ok os → valid g →
  valid (foldl (λ g o, (apply_setter o g).2) g os).
Proof. intros Hos. revert g. induction Hos; intros g Hg; cbn; [done|]. apply IHHos. by apply apply_setter_valid. Qed.

(** A level that is written has a prefix. *)
Lemma prefix_valid l : 0 <= l <= Debug → is_Some (GetLogPrefix l).
Proof.
  unfold Debug. intros Hl.
  assert (l = 0 ∨ l = 1 ∨ l = 2 ∨ l = 3 ∨ l = 4 ∨ l = 5) as Hc by lia.
  destruct Hc as [->|[->|[->|[->|[->| ->]]]]]; by eexists.
Qed.

(** ** The text *)

(** Neither a line feed nor a carriage return. *)
Definition clean (s : cstring) : Prop := (LF ∉ s) ∧ (CR ∉ s).

Lemma clean_app a b : clean a → clean b → clean (a ++ b).
Proof. unfold clean. set_solver. Qed.

Lemma clean_bracketed s : clean s → clean (bracketed s).
Proof.
  intros Hs. unfold bracketed. apply clean_app; [split; by_evaluation|]. apply clean_app; [done|split; by_evaluation].
Qed.

Lemma RemoveEscapeSymbols_spec s : RemoveEscapeSymbols s = filter (λ c, c ≠ LF ∧ c ≠ CR) s.
Proof.
  unfold RemoveEscapeSymbols. cbn. rewrite list_filter_filter. apply list_filter_iff. tauto.
Qed.

Lemma RemoveEscapeSymbols_clean s : clean (RemoveEscapeSymbols s).
Proof.
  rewrite RemoveEscapeSymbols_spec. split; intros Hc; apply list_elem_of_filter in Hc as [[H1 H2] _]; done.
Qed.

Lemma prefix_clean l tag : GetLogPrefix l = Some tag → clean tag.
Proof.
  unfold GetLogPrefix. intros E.
  repeat match type of E with (if ?b then _ else _) = _ => destruct b end; simplify_eq; split; by_evaluation.
Qed.

(** The context of a call has no line ends. *)
Definition context_clean (x : context) : Prop :=
  clean (thread_id x) ∧ match timestamp x with Some s => clean s | None => True end.

Lemma text_one_line tag dom message x g : clean tag → clean dom → context_clean x →
  ∃ body, text tag dom message x g = body ++ RemoveEscapeSymbols message ++ [LF] ∧
    clean (body ++ RemoveEscapeSymbols message).
Proof.
  intros Ht Hd [Hi Hs]. unfold text.
  assert (Hn : clean []) by (split; apply not_elem_of_nil).
  eexists. split; [rewrite !app_assoc; reflexivity|]. repeat apply clean_app; [| | | |apply RemoveEscapeSymbols_clean].
  - destruct (enable_prefix g); [by apply clean_bracketed|done].
  - destruct dom; [done|by apply clean_bracketed].
  - destruct (enable_timestamp g); [|done]. destruct (timestamp x); [by apply clean_bracketed|done].
  - destruct (enable_thread_id g); [by apply clean_bracketed|done].
Qed.

(** The level of a logger stays one of the enumeration.  After any sequence of calls of the setters, those
    that throw included, on any arguments of their types, the level is between silent and debug, so that every level that is not filtered
    out has a prefix and [WriteLog] never fails its assertion; a setter that is given a value outside throws and
    leaves level and mode as they were. *)
Theorem logger_level_valid (mode0 : Z) (os : list setter) (Hos : Forall argument_ok os) :
  let g := foldl (λ g o, (apply_setter o g).2) (make mode0) os in
  valid g ∧
  (∀ l dom message x, 0 <= l → WriteLog l dom message x g ≠ AssertFails) ∧
  (∀ l, SetLogLevel l g = (true, g) ↔ Debug < l) ∧ (∀ m, SetModeLevel m g = (true, g) ↔ E2E < m) ∧
  (∀ cb ud l, (SetWithLevel cb ud l g).1 = true → level (SetWithLevel cb ud l g).2 = level g).
Proof.
  intros g. assert (Hv : valid g) by (apply apply_setters_valid; [done|by vm_compute]).
  split_and!; [done| | | |].
  - intros l dom message x Hl. unfold WriteLog. destruct (Z.ltb_spec (level g) l) as [?|Hle]; [done|].
    destruct (prefix_valid l) as [tag ->]; [|done]. unfold valid in Hv. lia.
  - intros l. unfold SetLogLevel. destruct (Z.ltb_spec Debug l); split; try done; lia.
  - intros m. unfold SetModeLevel. destruct (Z.ltb_spec E2E m); split; try done; lia.
  - intros cb ud l. unfold SetWithLevel, SetLogLevel. by destruct (Debug <? l).
Qed.

(** A message is one line.  [WriteLog] calls the callback exactly when there is one and the level is not above that of the
    logger, and then once, with a text that has no line feed but its last character and no carriage return, whatever the message contains, and that
    ends with the message without its line ends, as long as the domain, the time and the thread have none. *)
Theorem logger_one_line (l : Z) (dom message : cstring) (x : context) (g : t)
  (Hg : valid g) (Hl : 0 <= l) (Hd : clean (domain_of dom g)) (Hx : context_clean x) :
  WriteLog l dom message x g =
    Wrote (if (level g <? l) || Nat.eqb (callback g) 0 then None
           else Some (callback g, user_data g, text (from_option id [] (GetLogPrefix l)) (domain_of dom g) message x g)) ∧
  ∃ body, text (from_option id [] (GetLogPrefix l)) (domain_of dom g) message x g =
      body ++ filter (λ c, c ≠ LF ∧ c ≠ CR) message ++ [LF] ∧
    clean (body ++ filter (λ c, c ≠ LF ∧ c ≠ CR) message).
Proof.
  unfold WriteLog, Write. rewrite <- RemoveEscapeSymbols_spec. split.
  - destruct (Z.ltb_spec (level g) l) as [?|Hle]; [done|]. destruct (prefix_valid l) as [tag ->]; [unfold valid in Hg; lia|].
    by destruct (Nat.eqb (callback g) 0).
  - apply text_one_line; [|done..]. destruct (GetLogPrefix l) as [tag|] eqn:E; [by eapply prefix_clean|].
    split; apply not_elem_of_nil.
Qed.

Lemma logger_level_valid_witness :
  valid (foldl (λ g o, (apply_setter o g).2) (make 0) [OpSetLogLevel 9; OpSetStd; OpSetWithLevel 3 4 Info]).
Proof.
  apply (logger_level_valid 0 [OpSetLogLevel 9; OpSetStd; OpSetWithLevel 3 4 Info]).
  apply List.Forall_cons; [vm_compute; discriminate|]. apply List.Forall_cons; [exact I|].
  apply List.Forall_cons; [vm_compute; discriminate|apply List.Forall_nil].
Defined.

Lemma logger_one_line_witness :
  WriteLog Info [] (str "a" ++ [LF] ++ str "b") (mkCtx (Some (str "Jan 01 00:00:00")) (str "7")) (SetStd (make 0)) =
    Wrote (Some (1%nat, 0%nat, str "[I] [Jan 01 00:00:00] ab" ++ [LF])).
Proof.
  rewrite (proj1 (logger_one_line Info [] (str "a" ++ [LF] ++ str "b") (mkCtx (Some (str "Jan 01 00:00:00")) (str "7")) (SetStd (make 0))
    ltac:(vm_compute; split; discriminate) ltac:(vm_compute; discriminate) ltac:(split; by_evaluation)
    ltac:(split; split; by_evaluation))).
  vm_compute. reflexivity.
Defined.

(** [DuplicateLogger] takes the callback of the global logger, not that of the logger it copies. *)
Example duplicate_takes_the_global_callback :
  callback (DuplicateLogger (make 0) (Set_ 5 6 (make 0)) (make 0)) = 0%nat.
Proof. done. Qed.

(** A call with a bad level has changed the callback when it throws. *)
Example set_with_bad_level_changes_the_callback : SetWithLevel 5 6 9 (make 0) = (true, Set_ 5 6 (make 0)).
Proof. done. Qed.

End Logger.
