(* ===== verification/Platform.v ===== *)
(** * The platform

    include/ar/os.hpp, src/os.cpp (the environment, the text about the processors),
    include/ar/thread_executor.hpp, src/thread_executor.cpp (a thread and its executor) and
    [SetAffinity] of src/cpu_helper.cpp. *)
From Stdlib Require Import Ascii String.
From stdpp Require Import pretty.
From S2P Require Import Prelude.
From S2P Require Import CppString.
From S2P Require Import WorkGroup.

Module OS.
(** The environment of the process; [_MSC_VER] selects the other branch. *)
Abbreviation environment := (gmap string cstring).

Definition NUL : ascii := "000".

(** [_dupenv_s] gives the value with its final zero, and the size with it. *)
Definition dupenv_s (e : environment) (s : string) : option (cstring * Z) :=
  v ← e !! s; Some (v ++ [NUL], size v + 1).

Definition get_env (msc_ver : bool) (s : string) (e : environment) : cstring :=
  if msc_ver then
    match dupenv_s e s with Some (ptr, len) => take (Z.to_nat len) ptr | None => [] end
  else
    match e !! s with Some ptr => ptr | None => [] end.

Definition has_env (msc_ver : bool) (s : string) (e : environment) : bool :=
  if msc_ver then
    match dupenv_s e s with Some _ => true | None => false end
  else
    match e !! s with Some _ => true | None => false end.

Definition GetCPUInfo (hardware_concurrency : N) : string := String.app " cores " (pretty hardware_concurrency).

(** Both branches agree on what is set, and on its value up to one character: that of MSVC has the
    zero at its end. *)
Lemma get_env_branches s e :
  has_env true s e = has_env false s e ∧
  get_env true s e = get_env false s e ++ (if has_env true s e then [NUL] else []).
Proof.
  unfold has_env, get_env, dupenv_s. destruct (e !! s) as [v|]; cbn; [|done]. split; [done|].
  apply take_ge. rewrite length_app. unfold size. cbn. lia.
Qed.
End OS.

Module ThreadExecutor.
(** [std::thread]: without a thread, or with one that runs or has ended. *)
Inductive thread := NotAThread | Running | Ended.

Definition joinable (t : thread) : bool := match t with NotAThread => false | _ => true end.

(** How a call ends: normally; it blocks; or it ends the program. *)
Inductive outcome := Done (t : thread) | Blocks | Terminates.

(** [Submit]: the assignment to a thread that is joinable calls [std::terminate]. *)
Definition Submit (t : thread) : outcome := if joinable t then Terminates else Done Running.

Definition Join (t : thread) : outcome :=
  if joinable t then match t with Ended => Done NotAThread | _ => Blocks end else Done t.

Definition destroy (t : thread) : outcome := Join t.

(** [AsyncRuntime::SetAffinity], and the method: the result of the call of the system, or 1
    without NUMA. *)
Definition SetAffinity (pthread_setaffinity_np : option (CPU → Z)) (affinity_cpu : CPU) : Z :=
  match pthread_setaffinity_np with Some f => f affinity_cpu | None => 1 end.

Inductive call := CSubmit | CJoin | CEnd.       (* the function of the thread returns *)

Definition step (t : thread) (c : call) : outcome :=
  match c with
  | CSubmit => Submit t
  | CJoin => Join t
  | CEnd => match t with Running => Done Ended | _ => Blocks end
  end.

Fixpoint run (t : thread) (cs : list call) : outcome :=
  match cs with
  | [] => Done t
  | c :: cs' => match step t c with Done t' => run t' cs' | o => o end
  end.

(** Every call of [Submit] is followed by a [Join] before the next one. *)
Fixpoint joined_between (busy : bool) (cs : list call) : bool :=
  match cs with
  | [] => true
  | CSubmit :: cs' => negb busy && joined_between true cs'
  | CJoin :: cs' => joined_between false cs'
  | CEnd :: cs' => joined_between busy cs'
  end.

(** When each thread is joined before the next one is submitted the program does not end
    there, and what the destructor leaves is no thread. *)
Lemma thread_executor_safe cs : ∀ t, joined_between (joinable t) cs = true →
  run t cs ≠ Terminates ∧ ∀ t' t'', run t cs = Done t' → destroy t' = Done t'' → t'' = NotAThread.
Proof.
  induction cs as [|c cs IH]; intros t Hj; cbn.
  - split; [done|]. intros t' t'' [= <-]. by destruct t; intros [= <-].
  - destruct c, t; cbn in *; try done; by apply IH.
Qed.

Example second_submit_terminates : run NotAThread [CSubmit; CEnd; CSubmit] = Terminates.
Proof. reflexivity. Qed.
End ThreadExecutor.
