(* ===== verification/Trace.v ===== *)
(** * The tracer (src/trace.h, src/trace.cpp)

    [WorkTracer] keeps every piece of work it is told of and, when [store_interval] has passed,
    writes a page with all of them.  The serialisation, the encoding of its bytes and the
    replacement in the template are not code of the repository: they are arguments with laws.
    [AddWork] holds the mutex, so that calls of several threads are a sequence. *)
From Stdlib Require Import Sorted.
From S2P Require Import Prelude.
From S2P Require Import Base64.

Abbreviation bytes := (list Z).

Module WorkTracer.

Record Work := mkWork { processor_id : Z; actor_id : Z; start_work_ts : Z; end_work_ts : Z }.

(** What [CreateTraceModel] is given. *)
Record TraceModel := mkModel { m_start : Z; m_now : Z; m_processors : list Z; m_works : list Work }.

(** [processors] is a [std::set], kept as its ascending list of elements; [files] is what was
    written, [lost] the sizes of the blocks whose pointer is gone. *)
Record t := mk {
  file_name : string;
  works : list Work;
  processors : list Z;
  store_interval : Z;
  last_store_ts : Z;
  start_ts : Z;
  files : gmap string bytes;
  lost : list Z
}.

Definition DEFAULT_FILE_NAME : string := "trace".

Definition HTML_GENERATED_TRACE_FILE_NAME : string := "trace.html".

Definition TEMPLATE_DATA_FIELD : bytes := codes "{{ trace_data }}".

Definition make (interval now_ms now_ns : Z) : t := mk "" [] [] interval now_ms now_ns ∅ [].

Definition SetStoreFile (n : string) (x : t) : t :=
  mk n (works x) (processors x) (store_interval x) (last_store_ts x) (start_ts x) (files x) (lost x).

(** [std::set::insert]. *)
Fixpoint set_insert (k : Z) (l : list Z) : list Z :=
  match l with
  | [] => [k]
  | x :: l' => if k <? x then k :: l else if k =? x then l else x :: set_insert k l'
  end.

(** [processors_vec] has elements of 32 bits. *)
Definition processors_vec (x : t) : list Z := map (uwrap 32) (processors x).

Definition write (n : string) (b : bytes) (x : t) : t :=
  mk (file_name x) (works x) (processors x) (store_interval x) (last_store_ts x) (start_ts x) (<[n := b]> (files x)) (lost x).

Definition lose (k : Z) (x : t) : t :=
  mk (file_name x) (works x) (processors x) (store_interval x) (last_store_ts x) (start_ts x) (files x) (k :: lost x).

Definition stored (now_ms : Z) (x : t) : t :=
  mk (file_name x) (works x) (processors x) (store_interval x) now_ms (start_ts x) (files x) (lost x).

(** The two insertions of [AddWork]. *)
Definition push_work (w : Work) (x : t) : t :=
  mk (file_name x) (works x ++ [w]) (set_insert (processor_id w) (processors x)) (store_interval x)
    (last_store_ts x) (start_ts x) (files x) (lost x).

Section tracer.
Context (serialise : TraceModel → bytes).
Context (Base64Encode : bytes → bytes).
Context (replace_all_copy : bytes → bytes → bytes → bytes).
Context (html_template : bytes).        (* the file data/templates/trace.html *)

Definition PrepareStoreData (now_ns : Z) (x : t) : bytes :=
  serialise (mkModel (start_ts x) now_ns (processors_vec x) (works x)).

Definition Store (now_ns : Z) (x : t) : t :=
  let x := if bool_decide (file_name x = "") then SetStoreFile DEFAULT_FILE_NAME x else x in
  write (file_name x) (PrepareStoreData now_ns x) x.

Definition AsyncStore (now_ns : Z) (x : t) : t := Store now_ns x.

(** The block of [PrepareStoreData] is not freed. *)
Definition GenerateTraceSummery (now_ns : Z) (x : t) : t :=
  let data := PrepareStoreData now_ns x in
  lose (length data)
    (write HTML_GENERATED_TRACE_FILE_NAME (replace_all_copy html_template TEMPLATE_DATA_FIELD (Base64Encode data)) x).

(** [c1], [c2]: the readings of the clock in milliseconds; [now_ns]: that in nanoseconds. *)
Definition AddWork (w : Work) (c1 now_ns c2 : Z) (x : t) : t :=
  let x := push_work w x in
  if store_interval x <=? c1 - last_store_ts x then stored c2 (GenerateTraceSummery now_ns x) else x.

(** [TRACE_WORK] and [TraceWork], on the static tracer. *)
Definition TraceWork := AddWork.

Record call := mkCall { c_work : Work; c_ms : Z; c_ns : Z; c_ms_after : Z }.

Definition run (cs : list call) (x : t) : t :=
  foldl (λ x c, AddWork (c_work c) (c_ms c) (c_ns c) (c_ms_after c) x) x cs.

(** ** The set of processors *)
Lemma elem_of_set_insert k l x : x ∈ set_insert k l ↔ x = k ∨ x ∈ l.
Proof.
  induction l as [|y l IH]; cbn; [set_solver|]. repeat case_match; [set_solver| |set_solver].
  apply Z.eqb_eq in H0. set_solver.
Qed.

Lemma set_insert_sorted k l : StronglySorted Z.lt l → StronglySorted Z.lt (set_insert k l).
Proof.
  induction 1 as [|y l Hl IH Hy]; cbn; [repeat constructor|].
  destruct (k <? y) eqn:E1; [|destruct (k =? y) eqn:E2].
  - apply Z.ltb_lt in E1. constructor; [by constructor|]. constructor; [done|]. eapply Forall_impl; [done|]. intros; cbn in *; lia.
  - by constructor.
  - apply Z.ltb_ge in E1. apply Z.eqb_neq in E2. constructor; [done|]. apply Forall_forall.
    intros z [->|Hz]%elem_of_set_insert; [lia|]. by eapply Forall_forall in Hy.
Qed.

Record inv (x0 x : t) (cs : list call) : Prop := {
  v_works : works x = c_work <$> cs;
  v_sorted : StronglySorted Z.lt (processors x);
  v_elem p : p ∈ processors x ↔ p ∈ processor_id ∘ c_work <$> cs;
  v_start : start_ts x = start_ts x0;
  v_interval : store_interval x = store_interval x0
}.

Lemma trace_inv_run cs : ∀ x0 done x, inv x0 x done → inv x0 (run cs x) (done ++ cs).
Proof.
  induction cs as [|c cs IH]; intros x0 done_ x Hi; [by rewrite app_nil_r|].
  cbn. rewrite cons_middle, app_assoc. apply IH. destruct Hi as [Hw Hs He Hst Hiv].
  assert (inv x0 (push_work (c_work c) x) (done_ ++ [c])) as Hi.
  { split; cbn; [by rewrite Hw, fmap_app|by apply set_insert_sorted| |done|done].
    intros p. rewrite elem_of_set_insert, He, fmap_app. set_solver. }
  unfold AddWork. case_match; [|done]. destruct Hi. by split.
Qed.

(** ** The page *)
Context (parse : bytes → option TraceModel) (Base64Decode : bytes → option bytes).
Hypothesis parse_serialise : ∀ m, parse (serialise m) = Some m.
Context (encodable : bytes → Prop).
Hypothesis decode_encode : ∀ b, encodable b → Base64Decode (Base64Encode b) = Some b.
Context (before after : bytes).
Hypothesis template_page : ∀ b,
  replace_all_copy html_template TEMPLATE_DATA_FIELD b = before ++ b ++ after.

(** What a reader of the page finds between the two parts of the template. *)
Definition read_page (page : bytes) : option TraceModel :=
  b ← Base64Decode (take (length page - length before - length after) (drop (length before) page)); parse b.

Lemma read_page_summary b : encodable b → read_page (before ++ Base64Encode b ++ after) = parse b.
Proof.
  intros Hb. unfold read_page. rewrite drop_app_length, !length_app.
  replace (length before + (length (Base64Encode b) + length after) - length before - length after)%nat
    with (length (Base64Encode b)) by lia.
  by rewrite take_app_length, (decode_encode b Hb).
Qed.

(** What the page written after the calls [cs] has to tell. *)
Definition model_of (start now_ns : Z) (cs : list call) (m : TraceModel) : Prop :=
  m_start m = start ∧ m_now m = now_ns ∧ m_works m = c_work <$> cs ∧
  ∃ ps, m_processors m = map (uwrap 32) ps ∧ StronglySorted Z.lt ps ∧ ∀ p, p ∈ ps ↔ p ∈ processor_id ∘ c_work <$> cs.

Lemma AddWork_page x0 x cs c : let x' := AddWork (c_work c) (c_ms c) (c_ns c) (c_ms_after c) x in
  inv x0 x' (cs ++ [c]) → encodable (PrepareStoreData (c_ns c) (push_work (c_work c) x)) →
  (store_interval x <= c_ms c - last_store_ts x →
     last_store_ts x' = c_ms_after c ∧
     ∃ page m, files x' !! HTML_GENERATED_TRACE_FILE_NAME = Some page ∧ read_page page = Some m ∧
       model_of (start_ts x0) (c_ns c) (cs ++ [c]) m) ∧
  (c_ms c - last_store_ts x < store_interval x → files x' = files x ∧ last_store_ts x' = last_store_ts x).
Proof.
  cbn zeta. unfold AddWork. cbn [store_interval last_store_ts push_work]. intros [Hw Hs He Hst _] Henc. split; intros Ht.
  - apply Z.leb_le in Ht. rewrite Ht in Hw, Hs, He, Hst |- *. cbn in *. split; [done|].
    rewrite lookup_insert_eq. eexists _, (mkModel _ _ _ _). split; [done|]. unfold PrepareStoreData. cbn.
    rewrite template_page, read_page_summary, parse_serialise.
    + split; [done|]. unfold model_of; cbn. split_and!; [done..|]. eexists. split; [done|]. split; [exact Hs|exact He].
    + exact Henc.
  - apply Z.leb_gt in Ht. by rewrite Ht.
Qed.
End tracer.
End WorkTracer.
Import WorkTracer.

(** The page shows everything: when the interval has passed since the last page, [AddWork] writes
    one from which a reader gets the start, the time, all pieces of work since the start in the
    order of the calls and the processors that did them in ascending order, cut to 32 bits;
    before that it writes nothing. *)
Theorem trace_page serialise Base64Encode replace_all_copy html_template parse Base64Decode
    (encodable : bytes → Prop) (before after : bytes) (interval ms ns : Z) (cs : list call) (c : call) :
  (∀ m, parse (serialise m) = Some m) →
  (∀ b, encodable b → Base64Decode (Base64Encode b) = Some b) →
  (∀ b, replace_all_copy html_template TEMPLATE_DATA_FIELD b = before ++ b ++ after) →
  let go := run serialise Base64Encode replace_all_copy html_template in
  let x := go cs (make interval ms ns) in
  encodable (PrepareStoreData serialise (c_ns c) (push_work (c_work c) x)) →
  let x' := go (cs ++ [c]) (make interval ms ns) in
  (interval <= c_ms c - last_store_ts x →
     last_store_ts x' = c_ms_after c ∧
     ∃ page m, files x' !! HTML_GENERATED_TRACE_FILE_NAME = Some page ∧
       read_page parse Base64Decode before after page = Some m ∧ model_of ns (c_ns c) (cs ++ [c]) m) ∧
  (c_ms c - last_store_ts x < interval → files x' = files x ∧ last_store_ts x' = last_store_ts x).
Proof.
  intros Hp Hb Ht go x He x'.
  assert (inv (make interval ms ns) (make interval ms ns) []) as H0 by (split; cbn; [done|constructor|set_solver|done|done]).
  pose proof (trace_inv_run serialise Base64Encode replace_all_copy html_template cs _ _ _ H0) as Hx.
  pose proof (trace_inv_run serialise Base64Encode replace_all_copy html_template (cs ++ [c]) _ _ _ H0) as Hx'.
  cbn [app] in Hx, Hx'. pose proof (v_interval _ _ _ Hx) as Hiv. cbn [store_interval make] in Hiv.
  assert (x' = AddWork serialise Base64Encode replace_all_copy html_template (c_work c) (c_ms c) (c_ns c) (c_ms_after c) x) as E
    by (unfold x', x, go, run; by rewrite foldl_app).
  change (run serialise Base64Encode replace_all_copy html_template (cs ++ [c]) (make interval ms ns)) with x' in Hx'.
  rewrite E in Hx' |- *.
  pose proof (AddWork_page serialise Base64Encode replace_all_copy html_template parse Base64Decode Hp encodable Hb
    before after Ht _ x cs c Hx' He) as Hpage.
  change (store_interval x = interval) in Hiv. by rewrite Hiv in Hpage.
Qed.

Module TraceExample.
(** A serialisation in characters 0 and 1: the number that codes the model, in binary. *)
Definition tuple_of (m : TraceModel) : Z * Z * list Z * list (Z * Z * Z * Z) :=
  (m_start m, m_now m, m_processors m,
   map (λ w, (processor_id w, actor_id w, start_work_ts w, end_work_ts w)) (m_works m)).

Definition of_tuple (x : Z * Z * list Z * list (Z * Z * Z * Z)) : TraceModel :=
  let '(s, n, ps, ws) := x in mkModel s n ps (map (λ w, let '(a, b, c, d) := w in mkWork a b c d) ws).

Fixpoint bits (p : positive) : bytes :=
  match p with xH => [] | xO q => 0 :: bits q | xI q => 1 :: bits q end.

Fixpoint of_bits (b : bytes) : positive :=
  match b with [] => xH | 0 :: b' => xO (of_bits b') | _ :: b' => xI (of_bits b') end.

Lemma of_bits_bits p : of_bits (bits p) = p.
Proof. induction p as [p IH|p IH|]; cbn; congruence. Qed.

Lemma bits_bytes p : Forall is_byte (bits p).
Proof. induction p; cbn; constructor; unfold is_byte; try lia; done. Qed.

Definition serialise (m : TraceModel) : bytes := bits (encode (tuple_of m)).

Definition parse (b : bytes) : option TraceModel := of_tuple <$> decode (of_bits b).

Lemma parse_serialise m : parse (serialise m) = Some m.
Proof.
  unfold parse, serialise. rewrite of_bits_bits, decode_encode. cbn. f_equal. destruct m as [s n ps ws]. cbn. f_equal.
  rewrite map_map. rewrite <- (map_id ws) at 2. apply map_ext. by intros [].
Qed.

Definition encodable (b : bytes) : Prop := Forall is_byte b ∧ length b < 2 ^ 32 - 3.

Definition encode64 (b : bytes) : bytes := default [] (base64_encode b false).

Definition decode64 (s : bytes) : option bytes :=
  match base64_decode s false with Some (Ok b) => Some b | _ => None end.

Lemma decode64_encode64 b : encodable b → decode64 (encode64 b) = Some b.
Proof.
  intros [Hb Hl]. destruct (base64_decode_encode b false false Hb Hl) as [He Hd].
  unfold decode64, encode64. by rewrite He; cbn; rewrite Hd.
Qed.

(** The template is [<b>{{ trace_data }}</b>]. *)
Definition tag_open : bytes := codes "<b>".

Definition tag_close : bytes := codes "</b>".

Definition fill (tmpl field b : bytes) : bytes := tag_open ++ b ++ tag_close.

Definition two_works : list call := [mkCall (mkWork 9 1 10 20) 100 5 100; mkCall (mkWork 4 2 12 25) 200 6 200].

Definition last_work : call := mkCall (mkWork 9 3 30 40) 5000 7 5001.

Definition traced : WorkTracer.t := run serialise encode64 fill [] (two_works ++ [last_work]) (make 5000 0 0).

Lemma trace_page_witness :
  last_store_ts traced = 5001 ∧
  ∃ page m, files traced !! HTML_GENERATED_TRACE_FILE_NAME = Some page ∧
    read_page parse decode64 tag_open tag_close page = Some m ∧ model_of 0 7 (two_works ++ [last_work]) m.
Proof.
  apply (trace_page serialise encode64 fill [] parse decode64 encodable tag_open tag_close 5000 0 0 two_works last_work).
  - exact parse_serialise.
  - exact decode64_encode64.
  - done.
  - split; [apply bits_bytes|by_evaluation].
  - by_evaluation.
Defined.

(** Every page loses the block of its data, and the work is kept for ever. *)
Example every_page_leaks :
  length (lost (run serialise encode64 fill [] [last_work; mkCall (mkWork 4 4 50 60) 12000 8 12001] (make 5000 0 0))) = 2%nat ∧
  length (works (run serialise encode64 fill [] [last_work; mkCall (mkWork 4 4 50 60) 12000 8 12001] (make 5000 0 0))) = 2%nat.
Proof. split; vm_compute; reflexivity. Qed.

(** Two processors that differ above bit 32 are one in the page. *)
Example processors_cut :
  processors_vec (push_work (mkWork (2 ^ 32 + 7) 0 0 0) (push_work (mkWork 7 0 0 0) (make 0 0 0))) = [7; 7].
Proof. vm_compute. reflexivity. Qed.
End TraceExample.
