(* ===== verification/AsyncCalls.v ===== *)
(** * The calls of the runtime

    The templates and the free functions of include/ar/runtime.hpp over Runtime.v: [Async], [AsyncDelayed],
    [AsyncSleep], [AsyncTask], [Await] of a thread, and the global runtime they go to; and how a
    task travels through runtime, executor, work group and scheduler to a slot.  Tasks are known by
    a number, their address.  A call posts its task and then asks it for its future, when a worker may have executed and
    deleted it: whether one has is an argument of the calls here, and RuntimeMachine.v has the two as steps of their own. *)
From S2P Require Import Prelude.
From S2P Require Import Promise.
From S2P Require Import Task.
From S2P Require Import Scheduler.
From S2P Require Import WorkGroup.
From S2P Require Import Executor.
From S2P Require Import CpuHelper.
From S2P Require Import Runtime.
From S2P Require Import Process.

Module AsyncCalls.
Import Runtime.

(** What [task->get_future()] reads after [Post]: the task, or the memory of a deleted one. *)
Inductive taken := Future | Dangling.

Definition get_future (deleted : bool) : taken := if deleted then Dangling else Future.

(** How a call ends: the task is posted and asked for its future; an assertion fails; [executors.at] or the executor throws; or the behaviour is
    undefined. *)
Inductive result :=
| Posted (r : Runtime.t) (w : where_posted) (f : taken)
| AssertionFails
| OutOfRange
| NotSupported          (* IOExecutor::Post(task * ) *)
| UndefinedBehaviour.

Definition posted_or (deleted : bool) (o : option (Runtime.t * where_posted)) : result :=
  match o with Some (r, w) => Posted r w (get_future deleted) | None => UndefinedBehaviour end.

(** [c1], [c2], [c3]: the readings of the clock when the task is made, when its delay is set and when it is posted;
    [deleted]: a worker has deleted the task by the time [Post] has returned. *)
Definition Async (c1 c3 : Z) (id : nat) (deleted : bool) (r : Runtime.t) : result :=
  if CheckRuntime r then posted_or deleted (Runtime.Post c3 (new_task id c1) r) else AssertionFails.

Definition AsyncDelayed (c1 c2 c3 : Z) (id : nat) (delay_ms : Z) (deleted : bool) (r : Runtime.t) : result :=
  if CheckRuntime r
  then posted_or deleted (Runtime.Post c3 (set_delay Timestamp.Milli delay_ms c2 (new_task id c1)) r)
  else AssertionFails.

(** [AsyncSleep]: a dummy task with a delay in the unit of the duration. *)
Definition AsyncSleep (p : Timestamp.period) (c1 c2 c3 : Z) (id : nat) (count : Z) (deleted : bool) (r : Runtime.t) : result :=
  if CheckRuntime r then posted_or deleted (Runtime.Post c3 (set_delay p count c2 (new_task id c1)) r) else AssertionFails.

(** [executors.at(hash)]. *)
Definition executor_at (hash : Z) (r : Runtime.t) : option any_executor :=
  snd <$> head (List.filter (λ ka, ka.1 =? hash) (executors r)).

(** [AsyncTask<ExecutorType, TaskType>], for the executor class with that hash code. *)
Definition AsyncTask (hash c1 c3 : Z) (id : nat) (deleted : bool) (r : Runtime.t) : result :=
  if CheckRuntime r then
    match executor_at hash r with
    | None => OutOfRange
    | Some a =>
        match GetType a with
        | kIO_EXECUTOR => NotSupported
        | _ => posted_or deleted (any_Post c3 (new_task id c1) hash a r)
        end
    end
  else AssertionFails.

(** [Await] of a future on a thread, shared or not: it blocks while the future is pending, and
    [get] returns its value or throws. *)
Inductive awaited (V : Type) := Blocks | Value (v : V) | Throws | AwaitAssertionFails | AwaitUndefined.
Arguments Blocks {V}.
Arguments Value {V} v.
Arguments Throws {V}.
Arguments AwaitAssertionFails {V}.
Arguments AwaitUndefined {V}.

Definition Await {V : Type} (f : future_state V) (r : Runtime.t) : awaited V :=
  if CheckRuntime r then
    match f with
    | Pending => Blocks
    | Ready v => Value v
    | Broken => Throws
    end
  else AwaitAssertionFails.

(** ** The global runtime *)

(** A free function goes to the runtime of its image, which it changes; without a runtime the
    behaviour is undefined. *)
Definition on_global (i : nat) (f : Runtime.t → result) (s : Process.t) : result * Process.t :=
  match Process.g_runtime i s with
  | Some (a, r) =>
      match f (Process.core r) with
      | Posted c w f => (Posted c w f, Process.set_runtime a (Process.mkRuntime c (Process.resources_manager r)) s)
      | x => (x, s)
      end
  | None => (UndefinedBehaviour, s)
  end.

Definition global_Async (i : nat) (c1 c3 : Z) (id : nat) (deleted : bool) := on_global i (Async c1 c3 id deleted).

Definition global_AsyncSleep (i : nat) (p : Timestamp.period) (c1 c2 c3 : Z) (id : nat) (count : Z) (deleted : bool) :=
  on_global i (AsyncSleep p c1 c2 c3 id count deleted).

Definition global_Await {V : Type} (i : nat) (f : future_state V) (s : Process.t) : awaited V :=
  match Process.on_core i (Await f) s with Some x => x | None => AwaitUndefined end.

(** ** A runtime that is ready *)

Definition cpu_ready (e : Executor.t) : Prop :=
  Executor.groups e ≠ [] ∧ ∀ g, g ∈ Executor.groups e → WorkGroup.wf g.

Record ready (r : Runtime.t) : Prop := {
  ready_wf : Runtime.wf r;
  ready_check : CheckRuntime r = true;
  ready_groups : ∀ k e, (k, ACpu e) ∈ executors r → cpu_ready e;
  ready_cpu : ∃ k a, (k, a) ∈ executors r ∧ GetType a = kCPU_EXECUTOR ∧ GetEntitiesCount a < INT_MAX
}.

(** A task for no group goes to the first one, and the executor stays ready. *)
Lemma executor_post_main clock x e : cpu_ready e → es_work_group (task_state x) = INVALID_OBJECT_ID →
  ∃ e' g g' tg, Executor.Post clock x e = Some (e', 0%nat, tg) ∧ cpu_ready e' ∧ Executor.base e' = Executor.base e ∧
    Executor.entities_inc e' = Executor.entities_inc e ∧ Executor.groups e !! 0%nat = Some g ∧
    WorkGroup.Post clock (set_execution_state (mkES (es_tag (task_state x)) (es_work_group (task_state x))
      (es_processor (task_state x)) (Some (Executor.self e))) x) g = Some (g', tg) ∧ WorkGroup.wf g ∧
    Executor.groups e' !! 0%nat = Some g'.
Proof.
  intros [Hne Hw] Hwg. destruct (Executor.groups e) as [|g gs] eqn:Eg; [done|].
  unfold Executor.Post. rewrite Hwg. cbn [Z.eqb Z.ltb].
  set (x1 := set_execution_state _ x).
  destruct (WorkGroup.Post_ok clock x1 g) as (g' & tg & E & Hw' & _); [apply Hw, list_elem_of_here|].
  replace (INVALID_OBJECT_ID <? 0) with false by done. rewrite Z.eqb_refl, Eg. cbn. rewrite E. cbn.
  eexists _, g, g', tg. split; [done|]. cbn. split; [split; [done|]|split_and!; try done].
  - cbn. intros h Hh. apply elem_of_cons in Hh as [->|Hh]; [done|]. apply Hw. by apply list_elem_of_further.
  - apply Hw, list_elem_of_here.
Qed.

Lemma fetch_free_some ty l : ∀ min best,
  is_Some best ∨ (∃ k a, (k, a) ∈ l ∧ GetType a = ty ∧ GetEntitiesCount a < min) →
  is_Some (fetch_free ty l min best).
Proof.
  induction l as [|[k0 a0] l IH]; intros min best H; cbn [fetch_free].
  - destruct H as [H|(k & a & Hin & _)]; [done|by apply not_elem_of_nil in Hin].
  - destruct (bool_decide (GetType a0 = ty) && (GetEntitiesCount a0 <? min)) eqn:E; apply IH; [left; eauto|].
    destruct H as [H|(k & a & Hin & Ht & Hc)]; [by left|]. apply elem_of_cons in Hin as [[= -> ->]|Hin]; [|right; eauto].
    rewrite bool_decide_eq_true_2 in E by done. apply Z.ltb_ge in E. lia.
Qed.

(** A ready runtime has a CPU executor for a task without a tag, one with the fewest entities. *)
Lemma ready_fetch r : ready r → ∃ k e, FetchFreeExecutor kCPU_EXECUTOR r = Some (k, ACpu e) ∧ (k, ACpu e) ∈ executors r ∧
  cpu_ready e ∧ GetType (ACpu e) = kCPU_EXECUTOR ∧ GetEntitiesCount (ACpu e) < INT_MAX ∧
  ∀ k' a', (k', a') ∈ executors r → GetType a' = kCPU_EXECUTOR → GetEntitiesCount (ACpu e) <= GetEntitiesCount a'.
Proof.
  intros Hr. destruct (ready_cpu _ Hr) as (k0 & a0 & Hin0 & Ht0 & Hc0).
  destruct (fetch_free_some kCPU_EXECUTOR (executors r) INT_MAX None) as [[k a] E]; [right; by exists k0, a0|].
  destruct (fetch_free_in _ _ _ _ _ _ E) as [?|[Hin Ht]]; [done|].
  destruct (fetch_free_min kCPU_EXECUTOR (executors r) INT_MAX None k a) as [_ Hmin]; [done|done|].
  destruct (wf_cpu _ (ready_wf _ Hr) k a Hin Ht) as (_ & _ & e & -> & _).
  exists k, e. split; [exact E|]. split; [done|]. split; [by eapply ready_groups|]. split; [done|]. split; [|done].
  pose proof (Hmin _ _ Hin0 Ht0). lia.
Qed.

(** Posting keeps a runtime ready. *)
Lemma put_ready k e e' r : ready r → (k, ACpu e) ∈ executors r → cpu_ready e' →
  Executor.base e' = Executor.base e → Executor.entities_inc e' = Executor.entities_inc e → ready (put k (ACpu e') r).
Proof.
  intros Hr Hin He' Hb Hi.
  assert (Hty : GetType (ACpu e') = GetType (ACpu e)) by (unfold GetType; cbn; by rewrite Hb).
  assert (Hct : GetEntitiesCount (ACpu e') = GetEntitiesCount (ACpu e)) by (unfold GetEntitiesCount; cbn; by rewrite Hb).
  split.
  - eapply put_wf_base; [apply Hr|done..].
  - apply Hr.
  - intros k0 e0 [[= -> ->]|Hin0]%put_elem; [done|by eapply ready_groups].
  - destruct (ready_cpu _ Hr) as (k0 & a0 & Hin0 & Ht0 & Hc0). destruct (decide (k0 = k)) as [->|Hne].
    + exists k, (ACpu e'). assert (a0 = ACpu e) as -> by (eapply keys_unique; [apply Hr|done|done]).
      split; [by eapply put_in|]. split; congruence.
    + exists k0, a0. split; [|done]. unfold put. cbn. apply list_elem_of_fmap. exists (k0, a0). cbn.
      by rewrite (proj2 (Z.eqb_neq _ _) Hne).
Qed.

(** ** Set-up gives a ready runtime *)

Lemma GetNumaNodes_default_ok (hw : nat) :
  ∃ d, GetNumaNodes_default hw = Some [d] ∧ n_cpus d = GetCPUs hw (λ _, 0).
Proof.
  unfold GetNumaNodes_default, GetNumaNodes. cbn [replicate].
  destruct (add_cpus_single (GetCPUs hw (λ _, 0)) empty_node) as (d & E & Hd).
  - intros c Hc. unfold GetCPUs in Hc. apply list_elem_of_fmap in Hc as (i & -> & _). done.
  - by exists d.
Qed.

Lemma make_executor_ready (hw : Z) name self cpus os :
  cpus ≠ [] → os ≠ [] → (∀ c, c ∈ cpus → 0 <= c_id c < 2 ^ 31) →
  (∀ o, o ∈ os → is_Some (WorkGroup.slots_count hw (List.length cpus) o)) →
  ∃ e, Executor.make hw name self cpus os = Some e ∧ cpu_ready e ∧
    Executor.base e = IExecutor.make name kCPU_EXECUTOR ∧ Executor.self e = self ∧ Executor.entities_inc e = 0 ∧
    Executor.make_groups hw 0 os cpus (replicate (List.length cpus) 0) = Some (Executor.groups e).
Proof.
  intros Hne Hos Hid Ho.
  destruct (Executor.make_groups_ok hw os cpus 0 (replicate (List.length cpus) 0)) as (gs & Hm & Hl & Hw); try done.
  { by rewrite length_replicate. }
  { intros a b [-> _]%elem_of_replicate [-> _]%elem_of_replicate. lia. }
  assert (gs ≠ []) as Hgs by (intros ->; by destruct os).
  eexists. split; [unfold Executor.make; rewrite Hm; cbn; by destruct gs|]. split; [by split|done].
Qed.

(** [Setup] of a new runtime without NUMA support: it succeeds, the runtime is ready, and its groups are those of the options. *)
Lemma setup_ready (hw : nat) (io_hash : Z) (os : list WorkGroupOption) :
  (1 <= hw < 2 ^ 31) → (∀ o, o ∈ os → wo_name o ≠ MAIN_WORK_GROUP) →
  (∀ o, o ∈ main_group_option :: os → is_Some (WorkGroup.slots_count hw hw o)) →
  ∃ r, Runtime.Setup hw io_hash os 0 Runtime.make = Some r ∧ ready r ∧
    (∃ m k e, main_executor r = Some m ∧ at_address m r = Some (k, ACpu e)) ∧
    ∀ k e, (k, ACpu e) ∈ executors r → ∃ cpus wg, Executor.make_groups hw 0 (main_group_option :: os) cpus wg = Some (Executor.groups e).
Proof.
  intros Hhw Hos Hsl.
  destruct (GetNumaNodes_default_ok hw) as (d & En & Hd).
  assert (Hlen : List.length (GetCPUs hw (λ _, 0)) = hw) by (unfold GetCPUs; rewrite length_map, length_seqZ; lia).
  destruct (make_executor_ready hw (String.app "CPUExecutor_" (pretty.pretty 0)) 0%nat (n_cpus d) (main_group_option :: os))
    as (e & Em & Hr & Hb & Hs & Hi & Hgs).
  { rewrite Hd. intros E. rewrite E in Hlen. cbn in Hlen. lia. }
  { done. }
  { intros c Hc. rewrite Hd in Hc. unfold GetCPUs in Hc. apply list_elem_of_fmap in Hc as (i & -> & Hi).
    apply elem_of_seqZ in Hi. cbn. lia. }
  { rewrite Hd, Hlen. done. }
  eassert (Hset : Runtime.Setup hw io_hash os 0 Runtime.make = Some _).
  { unfold Runtime.Setup, SetupWorkGroups. cbn [work_groups_option make app List.length].
    replace (MAX_GROUPS_COUNT <? 1%nat) with false by done. rewrite push_groups_app by done.
    cbn [app is_setup make executors main_executor io_executor next_address].
    unfold CreateDefaultExecutors. cbn [Nat.eqb]. rewrite En.
    cbn [mbind option_bind create_cpu_executors work_groups_option next_address].
    rewrite Em. cbn. rewrite Hs. reflexivity. }
  eexists. split; [exact Hset|].
  pose proof (setup_wf hw io_hash os 0 _ ltac:(lia) Hset) as [Hwf Hck].
  match goal with |- ready ?r ∧ _ =>
    assert (∀ k e0, (k, ACpu e0) ∈ executors r → e0 = Executor.set_base (IExecutor.SetIndex 0 (Executor.base e)) e) as He0 end.
  { intros k e0 Hin. cbn in Hin. destruct (io_hash <? 0); [|destruct (io_hash =? 0)]; rewrite !elem_of_cons, elem_of_nil in Hin; naive_solver. }
  split; [|split; [|intros k e0 Hin; rewrite (He0 k e0 Hin); eauto]].
  2: { exists 0%nat, 0. eexists. split; [done|]. unfold at_address. cbn.
       destruct (io_hash <? 0); [|destruct (io_hash =? 0)]; cbn; rewrite Hs; done. }
  split; [done|done| |].
  - intros k e0 Hin. by rewrite (He0 k e0 Hin).
  - exists 0, (ACpu (Executor.set_base (IExecutor.SetIndex 0 (Executor.base e)) e)).
    split; [|unfold GetType, GetEntitiesCount; cbn; rewrite Hb; by vm_compute].
    cbn. destruct (io_hash <? 0); [apply list_elem_of_further, list_elem_of_here|].
    destruct (io_hash =? 0); apply list_elem_of_here.
Qed.

(** ** The way of a task *)

(** A task for nobody in particular goes to the executor with the fewest entities. *)
Lemma ready_post clock x r : ready r → es_executor (task_state x) = None →
  es_tag (task_state x) = INVALID_OBJECT_ID → es_work_group (task_state x) = INVALID_OBJECT_ID →
  ∃ r' k e g g' tg, Runtime.Post clock x r = Some (r', OnCpu k 0 tg) ∧ ready r' ∧
    (k, ACpu e) ∈ executors r ∧
    (∀ k' a', (k', a') ∈ executors r → GetType a' = kCPU_EXECUTOR → GetEntitiesCount (ACpu e) <= GetEntitiesCount a') ∧
    WorkGroup.wf g ∧
    WorkGroup.Post clock (set_execution_state (mkES (es_tag (task_state x)) (es_work_group (task_state x))
      (es_processor (task_state x)) (Some (Executor.self e))) x) g = Some (g', tg).
Proof.
  intros Hr Hex Htag Hwg. destruct (ready_fetch r Hr) as (k & e & Hf & Hin & He & _ & _ & Hmin).
  destruct (executor_post_main clock x e He Hwg) as (e' & g & g' & tg & E & He' & Hb & Hi & Hg & Hp & Hw & _).
  exists (put k (ACpu e') r), k, e, g, g', tg. split_and!; try done.
  - unfold Runtime.Post. rewrite Hex, Htag, Z.eqb_refl, Hf. cbn. by rewrite E.
  - by eapply put_ready.
Qed.
End AsyncCalls.
Import Runtime.
Import AsyncCalls.

(** C35: A call of [Async] reaches a worker's slot.  On a ready runtime (as [Setup] leaves it, and as every such call keeps it) the
    task of [Async] is posted, whatever has been posted before: to the main group of the CPU executor with the fewest
    entities, to a slot at once, under the address it was made with, carrying its executor and its group, when the clock has
    not gone back between the making and the posting of the task; and the call then returns the future of the task, or reads
    a deleted task when a worker has been faster. *)
Theorem async_reaches_slot (c1 c3 : Z) (id : nat) (deleted : bool) (r : Runtime.t)
  (Hr : ready r) (Hc : Timestamp.NowMicro c1 <= Timestamp.NowMicro c3) :
  ∃ r' k e i y, Async c1 c3 id deleted r = Posted r' (OnCpu k 0 (WorkGroup.ToSlot i y)) (if deleted then Dangling else Future) ∧ ready r' ∧
    task_id y = id ∧ (k, ACpu e) ∈ executors r ∧ es_executor (task_state y) = Some (Executor.self e) ∧
    ∀ k' a', (k', a') ∈ executors r → GetType a' = kCPU_EXECUTOR → GetEntitiesCount (ACpu e) <= GetEntitiesCount a'.
Proof.
  destruct (ready_post c3 (new_task id c1) r Hr) as (r' & k & e & g & g' & tg & E & Hr' & Hin & Hmin & Hw & Hp); [done..|].
  unfold Async. rewrite (ready_check _ Hr), E. cbn [posted_or].
  destruct (WorkGroup.post_due c3 (set_execution_state (mkES INVALID_OBJECT_ID INVALID_OBJECT_ID INVALID_OBJECT_ID
    (Some (Executor.self e))) (new_task id c1)) g Hw) as (g1 & i & Hp1); [unfold get_delay; cbn; lia|].
  cbn in Hp. rewrite Hp1 in Hp. injection Hp as <- <-.
  eexists r', k, e, i, _. by split_and!.
Qed.

(** A delayed call is not early and not lost on its way.  On a ready runtime the task of [AsyncDelayed] with a delay that has not
    passed yet goes to the scheduler of the main group of an executor; in every run of that scheduler that hands the task out, at whatever reading of the clock, its
    delay has passed, and posting it then, which is what the scheduler's callback does, puts it into a slot of the
    group. *)
Theorem async_delayed_not_early (Q : Type) `{PriorityQueueLaws Q} (c1 c2 c3 : Z) (id : nat) (ms : Z) (deleted : bool) (r : Runtime.t)
  (Hr : ready r) (Hc : Timestamp.NowMicro c3 < Timestamp.NowMicro c2 + ms * 1000) :
  ∃ r' k y g, AsyncDelayed c1 c2 c3 id ms deleted r = Posted r' (OnCpu k 0 (WorkGroup.ToScheduler y)) (get_future deleted) ∧ ready r' ∧
    task_id y = id ∧ WorkGroup.wf g ∧
    ∀ ls (s : Scheduler.t (Q := Q)) c, Forall Scheduler.monotone ls → Scheduler.run Scheduler.make ls = Some s →
      (c, y) ∈ Scheduler.dispatched s →
      Timestamp.NowMicro c2 + ms * 1000 <= Timestamp.NowMicro c ∧
      ∃ g' i, WorkGroup.Post c y g = Some (g', WorkGroup.ToSlot i (set_execution_state_wg (WorkGroup.g_id g) y)).
Proof.
  set (x := set_delay Timestamp.Milli ms c2 (new_task id c1)).
  destruct (ready_post c3 x r Hr) as (r' & k & e & g & g' & tg & E & Hr' & _ & _ & Hw & Hp); [done..|].
  assert (Hx : ∀ c es, get_delay c (set_execution_state es x) = ms * 1000 - (Timestamp.NowMicro c - Timestamp.NowMicro c2))
    by (intros; apply get_delay_set_delay).
  unfold AsyncDelayed. fold x. rewrite (ready_check _ Hr), E. cbn [posted_or].
  unfold WorkGroup.Post in Hp. set (y := set_execution_state_wg (WorkGroup.g_id g) _) in Hp.
  assert (Hy : ∀ c, get_delay c y = ms * 1000 - (Timestamp.NowMicro c - Timestamp.NowMicro c2)) by (intros; apply Hx).
  rewrite (proj2 (Z.leb_gt _ _)) in Hp by (rewrite Hy; lia). injection Hp as <- <-.
  exists r', k, y, g. split_and!; try done; try apply Hw.
  intros ls s c Hm Hrun Hd.
  destruct (Scheduler.inv_run ls [] Scheduler.make s Scheduler.inv_make Hm Hrun) as [_ Hdue _ _ _].
  specialize (Hdue _ _ Hd). split; [rewrite Hy in Hdue; lia|]. by apply WorkGroup.post_due.
Qed.

(** ** The future of a call *)
Module TaskLifetime.

(** What the calling thread does in [Async(f)], and in [Async(coroutine)]. *)
Inductive action := PostTask | GetFuture.

Definition function_call : list action := [PostTask; GetFuture].

Definition coroutine_call : list action := [GetFuture; PostTask].

(** A worker executes a posted task and deletes it. *)
Record state := mk {
  caller : list action;
  is_posted : bool;
  executed : bool;
  deleted : bool;
  has_future : bool;
  use_after_free : bool
}.

Definition start (l : list action) : state := mk l false false false false false.

Inductive thread := Caller | Worker.

Definition step (t : thread) (s : state) : option state :=
  match t with
  | Caller =>
      match caller s with
      | PostTask :: l => Some (mk l true (executed s) (deleted s) (has_future s) (use_after_free s))
      | GetFuture :: l =>
          Some (mk l (is_posted s) (executed s) (deleted s) (negb (deleted s)) (use_after_free s || deleted s))
      | [] => None
      end
  | Worker =>
      if is_posted s then
        if executed s then
          if deleted s then None else Some (mk (caller s) true true true (has_future s) (use_after_free s))
        else Some (mk (caller s) true true (deleted s) (has_future s) (use_after_free s))
      else None
  end.

Fixpoint run (ts : list thread) (s : state) : option state :=
  match ts with
  | [] => Some s
  | t :: ts' => match step t s with Some s' => run ts' s' | None => None end
  end.

Definition holds_future (s : state) : Prop :=
  use_after_free s = false ∧
  ((caller s = coroutine_call ∧ is_posted s = false ∧ deleted s = false) ∨
   (has_future s = true ∧ (caller s = [PostTask] ∨ caller s = []))).

Lemma step_holds_future t s s' : holds_future s → step t s = Some s' → holds_future s'.
Proof.
  destruct s as [l p x d f u]. intros [Hu [(Hl & Hp & Hd)|(Hf & Hl)]] E; cbn in *; subst.
  - destruct t; cbn in E; simplify_eq. split; [done|]. right. by split; [|left].
  - destruct t; cbn in E.
    + destruct Hl as [->| ->]; simplify_eq. split; [done|]. right. by split; [|right].
    + destruct p, x, d; simplify_eq; (split; [done|]; by right).
Qed.

(** A call for a coroutine has its future before the task can be deleted. *)
Lemma coroutine_call_safe ts s : run ts (start coroutine_call) = Some s →
  use_after_free s = false ∧ (is_posted s = true → has_future s = true).
Proof.
  assert (Hrun : ∀ s0, holds_future s0 → run ts s0 = Some s → holds_future s).
  { induction ts as [|t ts IH]; intros s0 H0 E; cbn in E; [by simplify_eq|].
    destruct (step t s0) as [s1|] eqn:E1; [|done]. eapply IH; [|done]. by eapply step_holds_future. }
  intros E. destruct (Hrun (start coroutine_call)) as [Hu [(_ & Hp & _)|(Hf & _)]]; [split; [done|by left]|done| |].
  - split; [done|congruence].
  - done.
Qed.

(** A call for a function can ask a deleted task for its future. *)
Example function_call_uses_deleted_task :
  ∃ s, run [Caller; Worker; Worker; Caller] (start function_call) = Some s ∧ use_after_free s = true.
Proof. eexists. split; [reflexivity|done]. Qed.

End TaskLifetime.

(** ** Witnesses *)
Definition ready_options : list WorkGroupOption := [plain_option "video" 2].

Lemma ready_runtime : ∃ r, sample_runtime = Some r ∧ ready r.
Proof.
  destruct (setup_ready 4 77 ready_options) as (r & Hset & Hr & _);
    [lia| | |exists r; split; [exact Hset|exact Hr]].
  - intros o Ho. apply list_elem_of_singleton in Ho as ->. vm_compute. discriminate.
  - intros o Ho. apply elem_of_cons in Ho as [->|Ho]; [vm_compute; eauto|].
    apply list_elem_of_singleton in Ho as ->. vm_compute. eauto.
Qed.

Lemma async_reaches_slot_witness :
  ∃ r r' k i y, sample_runtime = Some r ∧ Async 1000 2000 7 false r = Posted r' (OnCpu k 0 (WorkGroup.ToSlot i y)) Future ∧
    task_id y = 7%nat.
Proof.
  destruct ready_runtime as (r & E & Hr).
  destruct (async_reaches_slot 1000 2000 7 false r Hr ltac:(vm_compute; discriminate)) as (r' & k & e & i & y & Ea & _ & Hid & _).
  exists r, r', k, i, y. split; [exact E|]. split; [exact Ea|exact Hid].
Defined.

Lemma async_delayed_not_early_witness :
  ∃ r r' k y, sample_runtime = Some r ∧ AsyncDelayed 0 0 5000 7 50 false r = Posted r' (OnCpu k 0 (WorkGroup.ToScheduler y)) Future ∧
    task_id y = 7%nat.
Proof.
  destruct ready_runtime as (r & E & Hr).
  destruct (async_delayed_not_early (list task) 0 0 5000 7 50 false r Hr ltac:(vm_compute; reflexivity))
    as (r' & k & y & g & Ea & _ & Hid & _).
  exists r, r', k, y. split; [exact E|]. split; [exact Ea|exact Hid].
Defined.

(** [AsyncTask] for the executor of input and output throws. *)
Example async_task_on_io : ∃ r, sample_runtime = Some r ∧ AsyncTask 77 0 0 1 false r = NotSupported.
Proof. eexists. split; vm_compute; reflexivity. Qed.
