(* ===== verification/RuntimeMachine.v ===== *)
(** * The runtime at work (src/runtime.cpp, src/executor.cpp, src/executor_slot.cpp, src/scheduler.cpp)

    Every part of the runtime in one machine: the routing of Runtime.v, and for every group of every
    CPU executor its slots and its scheduler, as in GroupMachine.v, with one book of promises.  Calling threads,
    the workers of all slots, the scheduler threads of all groups and the adding and deleting of entities are
    interleaved.  A call posts its task and, when [Post] has returned, asks it for its future: a worker that is faster has
    deleted the task by then, and the machine stops at that use of a deleted object.  Choosing an executor is one step with the
    routing; the IO executor takes no tasks, and its handlers are in IoExecutor.v.  A runtime in use is modelled; Shutdown.v has its end. *)
From Stdlib Require Import Sorted.
From S2P Require Import Prelude.
From S2P Require Import Promise.
From S2P Require Import Task.
From S2P Require Import Ledger.
From S2P Require Import EventCountMachine.
From S2P Require Import ExecutorSlot.
From S2P Require Import SlotWord.
From S2P Require Import AsyncSlot.
From S2P Require Import Scheduler.
From S2P Require Import WorkGroup.
From S2P Require Import GroupMachine.
From S2P Require Import Executor.
From S2P Require Import Runtime.
From S2P Require Import AsyncCalls.

Module RuntimeMachine.
Module W := SlotWord.
Module G := WorkGroup.
Module D := Scheduler.
Module R := Runtime.
Module GM := GroupMachine.

Section runtime.
Context {S V Q : Type} `{FuturesLaws S (V + unit)} `{PriorityQueueLaws Q}.
(** What the function of a task does, and the number of calling threads. *)
Context (fn : nat → outcome V) (callers : nat).

(** The threads of a group. *)
Record part := mkPart { words : list W.t; sched : D.t (Q := Q) }.

(** The calls in progress and their futures. *)
Record hands := mkHands {
  taking : gmap nat nat;         (* the task whose future a thread has still to ask for *)
  held : gmap nat nat;           (* the future that the call of a task has returned *)
  fault : option nat             (* a task that was asked for its future when it had been deleted *)
}.

Record t := mk {
  rt : R.t;
  parts : gmap (Z * nat) part;   (* by the key of the executor and the number of the group *)
  book : Ledger.t S;
  called : gmap nat task;        (* the tasks as they were when the call was made *)
  entered : list (Z * nat);      (* the tasks that came to a slot, with the clock of [Post] *)
  hand : hands
}.

Definition start_part (g : G.t) : part :=
  mkPart (map (λ s, W.make (map c_id (G.slot_cpus s)) (callers + 1)) (G.slots g)) D.make.

Definition executor_parts (ka : Z * R.any_executor) : list (Z * nat * part) :=
  match ka.2 with
  | R.ACpu e => imap (λ i g, ((ka.1, i), start_part g)) (Executor.groups e)
  | R.AOther _ _ => []
  end.

(** The runtime [r] as [Setup] leaves it. *)
Definition make (r : R.t) : t :=
  mk r (list_to_map (concat (map executor_parts (R.executors r)))) Ledger.make ∅ [] (mkHands ∅ ∅ None).

(** ** The group of an executor *)
Definition find_cpu (k : Z) (r : R.t) : option Executor.t :=
  match head (List.filter (λ ka, ka.1 =? k) (R.executors r)) with Some (_, R.ACpu e) => Some e | _ => None end.

Definition set_group (i : nat) (g : G.t) (e : Executor.t) : Executor.t :=
  Executor.mk (Executor.base e) (Executor.self e) (Executor.entities_inc e) (<[i := g]> (Executor.groups e)).

(** The group with its threads, and the runtime with the group in its place. *)
Definition view (g : G.t) (p : part) (s : t) : GM.t S Q :=
  GM.mk g (words p) (sched p) (book s) (called s) (entered s).

Definition absorb (k : Z) (i : nat) (r : R.t) (v : GM.t S Q) (s : t) : t :=
  mk r (<[(k, i) := mkPart (GM.words v) (GM.sched v)]> (parts s)) (GM.book v) (GM.called v) (GM.entered v) (hand s).

Definition set_hand (h : hands) (s : t) : t := mk (rt s) (parts s) (book s) (called s) (entered s) h.

(** ** Where the tasks are *)
(** What the parts of the runtime hold together. *)
Definition all {A} (f : part → list A) (m : gmap (Z * nat) part) : list A := concat (map (f ∘ snd) (map_to_list m)).

Definition ran (p : part) : list nat := GM.ran (words p).

Definition waiting (p : part) : list nat := GM.waiting (words p) ++ GM.delayed_ids (sched p).

(** The tasks that came to a slot. *)
Definition arrived (p : part) : list nat := GM.ran (words p) ++ GM.waiting (words p).

(** ** Steps *)
(** Thread [j] is in no call of [post], in no slot of any group. *)
Definition free (j : nat) (s : t) : bool :=
  forallb (λ kp, forallb (GM.idle j) (words kp.2)) (map_to_list (parts s)).

(** Thread [j] is in no call of the runtime. *)
Definition outside (j : nat) (s : t) : bool := free j s && bool_decide (taking (hand s) !! j = None).

(** The task is made, and [Runtime::Post] takes it to a group. *)
Definition post (j : nat) (clock : Z) (x : task) (s : t) : option t :=
  if (j <? callers)%nat && outside j s then
    b ← Ledger.issue (task_id x) (book s);
    '(r, w) ← R.Post clock x (rt s);
    match w with
    | R.OnCpu k i tg =>
        e ← find_cpu k r; g ← Executor.groups e !! i; p ← parts s !! (k, i);
        v ← GM.deliver callers j clock x b g tg (view g p s); Some (absorb k i r v s)
    | R.OnOther _ _ => None
    end
  else None.

(** [Async(f)], [AsyncDelayed] and [AsyncSleep]: after [Post] there is [task->get_future()] still to come. *)
Definition Call (j : nat) (clock : Z) (x : task) (s : t) : option t :=
  s' ← post j clock x s;
  Some (set_hand (mkHands (<[j := task_id x]> (taking (hand s))) (held (hand s)) (fault (hand s))) s').

(** [Async(coroutine)], which asks for the future first, and [Post] of a resume task, whose future nobody wants. *)
Definition Post (j : nat) (clock : Z) (x : task) (s : t) : option t :=
  s' ← post j clock x s;
  p ← Ledger.promises (book s') !! task_id x;
  Some (set_hand (mkHands (taking (hand s)) (<[task_id x := p]> (held (hand s))) (fault (hand s))) s').

(** [return task->get_future()], when [Post] has returned; a worker deletes a task when it has executed it. *)
Definition get_future (j : nat) (s : t) : option t :=
  id ← taking (hand s) !! j;
  if free j s then
    if bool_decide (id ∈ all ran (parts s)) then
      Some (set_hand (mkHands (base.delete j (taking (hand s))) (held (hand s)) (Some id)) s)
    else
      p ← Ledger.promises (book s) !! id;
      Some (set_hand (mkHands (base.delete j (taking (hand s))) (<[id := p]> (held (hand s))) (fault (hand s))) s)
  else None.

Inductive label :=
| LCall (j : nat) (clock : Z) (x : task)
| LPost (j : nat) (clock : Z) (x : task)
| LFuture (j : nat)                         (* the call of thread j returns its future *)
| LGroup (k : Z) (i : nat) (l : GM.label)   (* the threads of group i of executor k *)
| LAddEntity
| LDeleteEntity (tag : Z).

(** The steps of the threads of a group. *)
Definition own (l : GM.label) : bool := match l with GM.LSlot _ _ | GM.LScheduler _ _ | GM.LTimeout => true | _ => false end.

Definition group_step (k : Z) (i : nat) (l : GM.label) (s : t) : option t :=
  if own l then
    e ← find_cpu k (rt s); g ← Executor.groups e !! i; p ← parts s !! (k, i);
    v ← GM.step fn callers (view g p s) l;
    Some (absorb k i (R.put k (R.ACpu (set_group i (GM.route v) e)) (rt s)) v s)
  else None.

Definition set_rt (r : R.t) (s : t) : t := mk r (parts s) (book s) (called s) (entered s) (hand s).

(** The program has been terminated, or has used a deleted task. *)
Definition down (s : t) : bool := Ledger.terminated (book s) || bool_decide (is_Some (fault (hand s))).

Definition step (s : t) (l : label) : option t :=
  if down s then None
  else match l with
  | LCall j clock x => Call j clock x s
  | LPost j clock x => Post j clock x s
  | LFuture j => get_future j s
  | LGroup k i l => group_step k i l s
  | LAddEntity => Some (set_rt (R.AddEntityTag (rt s)).1 s)
  | LDeleteEntity tag => r ← R.DeleteEntityTag tag (rt s); Some (set_rt r s)
  end.

Definition clock_ok (l : label) : Prop := match l with LGroup _ _ l => GM.clock_ok l | _ => True end.

Definition laps (s : t) : Prop :=
  map_Forall (λ _ p, Forall (λ c, EventCountMachine.lap_ok (W.ec c)) (words p)) (parts s).

Inductive reachable (r : R.t) : t → Prop :=
| reach_make : reachable r (make r)
| reach_step s l s' : reachable r s → clock_ok l → step s l = Some s' → laps s' → reachable r s'.

Definition clock_okb (l : label) : bool := match l with LGroup _ _ l => GM.clock_okb l | _ => true end.

Definition lapsb (s : t) : bool :=
  forallb (λ kp, forallb (λ c, EventCountMachine.lap_okb (W.ec c)) (words kp.2)) (map_to_list (parts s)).

Fixpoint run (s : t) (ls : list label) : option t :=
  match ls with
  | [] => Some s
  | l :: ls' =>
      match step s l with
      | Some s' => if clock_okb l && lapsb s' then run s' ls' else None
      | None => None
      end
  end.

Lemma lapsb_laps s : lapsb s = true → laps s.
Proof.
  unfold lapsb. rewrite forallb_forall. intros Hl kg p Hp. specialize (Hl (kg, p)).
  rewrite forallb_forall in Hl. apply Forall_forall. intros c Hc. apply EventCountMachine.lap_okb_ok, Hl; [|by apply list_elem_of_In].
  by apply list_elem_of_In, elem_of_map_to_list.
Qed.

Lemma runtime_run_reachable r ls : ∀ s s', reachable r s → run s ls = Some s' → reachable r s'.
Proof.
  induction ls as [|l ls IH]; intros s s' Hr; cbn [run]; [by intros [= <-]|].
  destruct (step s l) as [s1|] eqn:E; [|done]. destruct (_ && _) eqn:Hb; [|done].
  apply andb_true_iff in Hb as [Hc Hl%lapsb_laps]. apply IH. eapply reach_step; [done| |done|done].
  destruct l as [| | |k i l| |]; try done. by apply GM.clock_okb_ok.
Qed.

Lemma all_lookup {A} (f : part → list A) m k p : m !! k = Some p → all f m ≡ₚ f p ++ all f (base.delete k m).
Proof.
  intros Hk. unfold all. rewrite <- (insert_delete_id m k p Hk) at 1.
  rewrite (concat_map_Permutation (f ∘ snd) _ _ (map_to_list_insert _ _ _ (lookup_delete_eq m k))). done.
Qed.

Lemma all_insert {A} (f : part → list A) m k p : all f (<[k := p]> m) ≡ₚ f p ++ all f (base.delete k m).
Proof. rewrite (all_lookup f _ k p) by apply lookup_insert_eq. by rewrite delete_insert_eq. Qed.

Lemma all_nil {A} (f : part → list A) m : map_Forall (λ _ p, f p = []) m → all f m = [].
Proof. intros Hm. apply concat_map_nil. intros [k p] Hp%elem_of_map_to_list. by apply (Hm k p). Qed.

Lemma all_elem {A} (f : part → list A) m x : x ∈ all f m ↔ ∃ k p, m !! k = Some p ∧ x ∈ f p.
Proof.
  unfold all. rewrite list_elem_of_In, in_concat. split.
  - intros (l & Hl & Hx). apply in_map_iff in Hl as ([k p] & <- & Hp%list_elem_of_In%elem_of_map_to_list).
    exists k, p. by rewrite list_elem_of_In.
  - intros (k & p & Hp & Hx%list_elem_of_In). exists (f p). split; [|done]. apply in_map_iff. exists (k, p). split; [done|].
    by apply list_elem_of_In, elem_of_map_to_list.
Qed.

(** ** Invariant *)
(** Every group has its threads. *)
Definition fits (r : R.t) (m : gmap (Z * nat) part) : Prop :=
  ∀ k e i g, (k, R.ACpu e) ∈ R.executors r → Executor.groups e !! i = Some g →
    G.wf g ∧ ∃ p, m !! (k, i) = Some p ∧ List.length (words p) = List.length (G.slots g).

Record part_ok (c : gmap nat task) (p : part) : Prop := {
  p_words : Forall (GM.sound callers) (words p);
  p_sched : ∃ q, D.inv q (sched p);
  p_delayed x : x ∈ pq_elems (D.delayed_task (sched p)) → ∃ y, c !! task_id x = Some y ∧ created_at y = created_at x
}.

Record inv (s : t) : Prop := {
  r_keys : StronglySorted Z.lt (R.keys (rt s));
  r_fits : fits (rt s) (parts s);
  r_parts : map_Forall (λ _, part_ok (called s)) (parts s);
  r_book : Ledger.ok fn (all ran (parts s)) (all waiting (parts s)) (book s);
  r_entered : map snd (entered s) ≡ₚ all arrived (parts s);
  r_called id : is_Some (called s !! id) → is_Some (Ledger.promises (book s) !! id);
  r_due c id : (c, id) ∈ entered s → ∃ y, called s !! id = Some y ∧ get_delay c y <= 0
}.

Lemma part_ok_sub c c' p : part_ok c p → c ⊆ c' → part_ok c' p.
Proof.
  intros [Hw Hs Hd] Hc. split; [done|done|]. intros x Hx. destruct (Hd x Hx) as (y & Hy & ?). exists y.
  split; [by eapply lookup_weaken|done].
Qed.

(** A group of the runtime is a state of the machine of GroupMachine.v, with the other groups beside it. *)
Lemma view_inv (s : t) kg g p : inv s → parts s !! kg = Some p → G.wf g → List.length (words p) = List.length (G.slots g) →
  GM.inv fn callers (all ran (base.delete kg (parts s))) (all waiting (base.delete kg (parts s)))
    (all arrived (base.delete kg (parts s))) (view g p s).
Proof.
  intros [_ _ Hp Hb He Hca Hd] Hkg Hg Hl. destruct (Hp kg p Hkg) as [Hw Hs Hdel].
  split; cbn [view GM.route GM.words GM.sched GM.book GM.called GM.entered]; try done.
  - eapply Ledger.ok_perm; [exact Hb|by rewrite (all_lookup ran _ _ _ Hkg)|by rewrite (all_lookup waiting _ _ _ Hkg)].
  - by rewrite He, (all_lookup arrived _ _ _ Hkg).
Qed.

Lemma absorb_inv (s : t) k i p v r : inv s → parts s !! (k, i) = Some p →
  GM.inv fn callers (all ran (base.delete (k, i) (parts s))) (all waiting (base.delete (k, i) (parts s)))
    (all arrived (base.delete (k, i) (parts s))) v →
  StronglySorted Z.lt (R.keys r) → fits r (parts s) → List.length (GM.words v) = List.length (words p) →
  called s ⊆ GM.called v → inv (absorb k i r v s).
Proof.
  intros [_ _ Hp _ _ _ _] Hki [_ _ Hw Hs Hb He Hca Hd Hdel] Hk Hf Hl Hc.
  split; cbn [absorb rt parts book called entered]; try done.
  - intros k0 e0 i0 g0 Hin Hg0. destruct (Hf k0 e0 i0 g0 Hin Hg0) as (Hwf & p0 & Hp0 & Hl0). split; [done|].
    destruct (decide ((k0, i0) = (k, i))) as [E|Hne].
    + rewrite E in *. eexists. rewrite lookup_insert_eq. split; [done|]. cbn. rewrite Hl. congruence.
    + exists p0. by rewrite lookup_insert_ne.
  - apply map_Forall_insert_2; [by split|]. intros kg q Hq. eapply part_ok_sub; [by eapply Hp|done].
  - eapply Ledger.ok_perm; [exact Hb|by rewrite all_insert|by rewrite all_insert].
  - by rewrite He, all_insert.
Qed.

(** ** Preservation *)
Lemma find_cpu_elem k r e : find_cpu k r = Some e → (k, R.ACpu e) ∈ R.executors r.
Proof.
  unfold find_cpu. destruct (head _) as [[k0 [e0|]]|] eqn:E; try done. intros [= ->].
  apply head_filter_elem in E as [Hin Hk]. cbn in Hk. by apply Z.eqb_eq in Hk as ->.
Qed.

Lemma find_cpu_unique k r e : StronglySorted Z.lt (R.keys r) → (k, R.ACpu e) ∈ R.executors r → find_cpu k r = Some e.
Proof.
  intros Hs Hin. unfold find_cpu. destruct (head _) as [[k0 a]|] eqn:E.
  - apply head_filter_elem in E as [Hin0 Hk]. cbn in Hk. apply Z.eqb_eq in Hk as ->. by rewrite (R.keys_unique _ _ _ _ Hs Hin0 Hin).
  - exfalso. assert (In (k, R.ACpu e) (List.filter (λ ka, ka.1 =? k) (R.executors r))) as Hf
      by (apply filter_In; split; [by apply list_elem_of_In|apply Z.eqb_refl]).
    by destruct (List.filter _ _).
Qed.

(** An executor is replaced by one whose groups have as many slots. *)
Lemma fits_put r m k e e' : fits r m → (k, R.ACpu e) ∈ R.executors r →
  (∀ i g', Executor.groups e' !! i = Some g' →
    ∃ g, Executor.groups e !! i = Some g ∧ G.wf g' ∧ List.length (G.slots g') = List.length (G.slots g)) →
  fits (R.put k (R.ACpu e') r) m.
Proof.
  intros Hf Hin He k0 e0 i g Hin0 Hg. apply R.put_elem in Hin0 as [[= -> ->]|Hin0]; [|by eapply Hf].
  destruct (He i g Hg) as (g0 & Hg0 & Hwf & Hl). destruct (Hf k e i g0 Hin Hg0) as (_ & p & Hp & Hlp).
  split; [done|]. exists p. split; [done|]. by rewrite Hlp.
Qed.

Lemma fits_set_group r m k e i g g' : fits r m → (k, R.ACpu e) ∈ R.executors r → Executor.groups e !! i = Some g →
  G.wf g' → List.length (G.slots g') = List.length (G.slots g) → fits (R.put k (R.ACpu (set_group i g' e)) r) m.
Proof.
  intros Hf Hin Hg Hwf Hl. eapply fits_put; [done..|]. cbn. intros j h [(-> & <- & _)|[_ Hh]]%list_lookup_insert_Some; [eauto|].
  exists h. split; [done|]. split; [by eapply Hf|done].
Qed.

Lemma routed_same clock x y tg : GM.routed clock y tg → task_id y = task_id x → created_at y = created_at x → GM.routed clock x tg.
Proof.
  intros Hr Hid Hcr. unfold GM.routed, get_delay in *. rewrite <- Hcr, <- Hid. done.
Qed.

(** What a post goes through. *)
Lemma runtime_post_cases j clock x (s s' : t) : post j clock x s = Some s' →
  ∃ b r k i tg e g p v, Ledger.issue (task_id x) (book s) = Some b ∧ R.Post clock x (rt s) = Some (r, R.OnCpu k i tg) ∧
    find_cpu k r = Some e ∧ Executor.groups e !! i = Some g ∧ parts s !! (k, i) = Some p ∧
    GM.deliver callers j clock x b g tg (view g p s) = Some v ∧ s' = absorb k i r v s.
Proof.
  unfold post. destruct (_ && _); [|done]. destruct (Ledger.issue _ _) as [b|] eqn:Eb; [|done].
  cbn [mbind option_bind]. destruct (R.Post clock x (rt s)) as [[r [k i tg|]]|] eqn:Ep; try done. cbn [mbind option_bind].
  destruct (find_cpu k r) as [e|] eqn:Ef; [|done]. cbn [mbind option_bind].
  destruct (Executor.groups e !! i) as [g|] eqn:Eg; [|done]. cbn [mbind option_bind].
  destruct (parts s !! (k, i)) as [p|] eqn:Hp; [|done]. cbn [mbind option_bind].
  destruct (GM.deliver _ _ _ _ _ _ _ _) as [v|] eqn:Ev; [|done]. intros [= <-]. eauto 20.
Qed.

(** What a step of the threads of a group goes through. *)
Lemma group_cases k i l (s s' : t) : group_step k i l s = Some s' →
  ∃ e g p v, own l = true ∧ find_cpu k (rt s) = Some e ∧ Executor.groups e !! i = Some g ∧ parts s !! (k, i) = Some p ∧
    GM.step fn callers (view g p s) l = Some v ∧
    s' = absorb k i (R.put k (R.ACpu (set_group i (GM.route v) e)) (rt s)) v s.
Proof.
  unfold group_step. destruct (own l) eqn:Ho; [|done].
  destruct (find_cpu k (rt s)) as [e|] eqn:Ef; [|done]. cbn [mbind option_bind].
  destruct (Executor.groups e !! i) as [g|] eqn:Eg; [|done]. cbn [mbind option_bind].
  destruct (parts s !! (k, i)) as [p|] eqn:Hp; [|done]. cbn [mbind option_bind].
  destruct (GM.step _ _ _ _) as [v|] eqn:Ev; [|done]. intros [= <-]. eauto 20.
Qed.

(** What the steps do that are not those of a group or of entities. *)
Lemma step_cases l (s s' : t) : step s l = Some s' → down s = false ∧
  match l with
  | LCall j clock x => ∃ s1, post j clock x s = Some s1 ∧
      s' = set_hand (mkHands (<[j := task_id x]> (taking (hand s))) (held (hand s)) (fault (hand s))) s1
  | LPost j clock x => ∃ s1 p, post j clock x s = Some s1 ∧ Ledger.promises (book s1) !! task_id x = Some p ∧
      s' = set_hand (mkHands (taking (hand s)) (<[task_id x := p]> (held (hand s))) (fault (hand s))) s1
  | LFuture j => get_future j s = Some s'
  | LGroup k i l => group_step k i l s = Some s'
  | LAddEntity => s' = set_rt (R.AddEntityTag (rt s)).1 s
  | LDeleteEntity tag => ∃ r, R.DeleteEntityTag tag (rt s) = Some r ∧ s' = set_rt r s
  end.
Proof.
  unfold step. destruct (down s); [done|]. intros E. split; [done|]. destruct l as [j clock x|j clock x|j|k i l| |tag].
  - unfold Call in E. destruct (post j clock x s) as [s1|]; [|done]. injection E as <-. eauto.
  - unfold Post in E. destruct (post j clock x s) as [s1|]; [|done]. cbn [mbind option_bind] in E.
    destruct (Ledger.promises (book s1) !! _) as [p|] eqn:Ep; [|done]. injection E as <-. eauto.
  - done.
  - done.
  - by injection E as <-.
  - destruct (R.DeleteEntityTag tag (rt s)) as [r|]; [|done]. injection E as <-. eauto.
Qed.

(** A call that takes its future changes nothing else. *)
Lemma get_future_cases j (s s' : t) : get_future j s = Some s' → ∃ id, taking (hand s) !! j = Some id ∧ free j s = true ∧
  ((id ∈ all ran (parts s) ∧ s' = set_hand (mkHands (base.delete j (taking (hand s))) (held (hand s)) (Some id)) s) ∨
   ((id ∉ all ran (parts s)) ∧ ∃ p, Ledger.promises (book s) !! id = Some p ∧
    s' = set_hand (mkHands (base.delete j (taking (hand s))) (<[id := p]> (held (hand s))) (fault (hand s))) s)).
Proof.
  unfold get_future. destruct (taking (hand s) !! j) as [id|]; [|done]. cbn [mbind option_bind]. destruct (free j s); [|done].
  intros E. exists id. split; [done|]. split; [done|]. case_bool_decide as Hin; [left; by injection E as <-|right].
  destruct (Ledger.promises (book s) !! id) as [p|]; [|done]. injection E as <-. eauto.
Qed.

Lemma set_hand_inv h (s : t) : inv s → inv (set_hand h s).
Proof. intros [? ? ? ? ? ? ?]. by split. Qed.

Lemma down_false (s : t) : down s = false → Ledger.terminated (book s) = false ∧ fault (hand s) = None.
Proof.
  unfold down. intros [Ht Hf]%orb_false_iff. split; [done|]. apply bool_decide_eq_false in Hf.
  by destruct (fault (hand s)); [destruct Hf; eauto|].
Qed.

Lemma runtime_inv_post j clock x (s s' : t) : inv s → post j clock x s = Some s' → laps s' → inv s'.
Proof.
  intros Hi (b & r & k & i & tg & e1 & g & p & v & Eb & Ep & Ef & Eg & Hp & Ev & ->)%runtime_post_cases Hlap.
  destruct (R.Post_cpu _ _ _ _ _ _ _ Ep) as (e & e' & Hin & Epe & ->).
  destruct (Executor.Post_group _ _ _ _ _ _ Epe) as (g0 & g1 & y & Hg0 & Epg & Hid & Hcr & ->).
  assert (e1 = set_group i g1 e) as ->.
  { apply find_cpu_elem in Ef. assert (R.ACpu e1 = R.ACpu (set_group i g1 e)) as [= ->]; [|done].
    pose proof (r_keys _ Hi) as Hk. rewrite <- (R.put_keys k (R.ACpu (set_group i g1 e))) in Hk.
    eapply R.keys_unique; [exact Hk|exact Ef|by eapply R.put_in]. }
  cbn in Eg. rewrite list_lookup_insert_eq in Eg by (by eapply lookup_lt_Some). injection Eg as <-.
  destruct (r_fits _ Hi k e i g0 Hin Hg0) as (Hwf0 & p0 & Hp0 & Hl0). rewrite Hp in Hp0. injection Hp0 as <-.
  destruct (GM.Post_routed _ _ _ _ _ Hwf0 Epg) as (Hwf & Hlen & Hrt).
  destruct (GM.deliver_frame _ _ _ _ _ _ _ _ _ Ev) as [Hwl Hca].
  destruct (GM.called_insert fn _ _ _ _ (r_called _ Hi) Eb) as [Hsub _].
  apply (absorb_inv s k i p v); try done.
  - eapply (GM.inv_deliver fn callers _ _ _ j clock x b g1 tg (view g1 p s)); try done.
    + apply view_inv; [done..|]. congruence.
    + by eapply routed_same.
    + by apply (Hlap (k, i) (mkPart (GM.words v) (GM.sched v))), lookup_insert_eq.
  - rewrite R.put_keys. apply Hi.
  - eapply fits_set_group; [apply Hi|done..].
  - by rewrite Hca.
Qed.

Lemma own_step_frame l (v v' : GM.t S Q) : own l = true → GM.step fn callers v l = Some v' →
  List.length (GM.words v') = List.length (GM.words v) ∧ GM.called v' = GM.called v.
Proof.
  destruct l as [|i l|c c'| |]; try done; intros _ E.
  - by eapply GM.slot_step_frame.
  - unfold GM.step in E. destruct (Ledger.terminated (GM.book v)); [done|]. by eapply GM.scheduler_thread_frame.
  - by destruct (GM.timeout_frame _ _ _ _ E) as [-> ->].
Qed.

Lemma runtime_inv_group k i l (s s' : t) : inv s → GM.clock_ok l → group_step k i l s = Some s' → laps s' → inv s'.
Proof.
  intros Hi Hc (e & g & p & v & Ho & Ef & Eg & Hp & Ev & ->)%group_cases Hlap. apply find_cpu_elem in Ef.
  destruct (r_fits _ Hi k e i g Ef Eg) as (Hwf & p0 & Hp0 & Hl). rewrite Hp in Hp0. injection Hp0 as <-.
  destruct (own_step_frame _ _ _ Ho Ev) as [Hwl Hca]. cbn in Hwl, Hca.
  assert (GM.inv fn callers (all ran (base.delete (k, i) (parts s))) (all waiting (base.delete (k, i) (parts s)))
    (all arrived (base.delete (k, i) (parts s))) v) as Hv.
  { eapply GM.group_inv_step; [by apply (view_inv s (k, i) g p)|exact Hc|exact Ev|].
    by apply (Hlap (k, i) (mkPart (GM.words v) (GM.sched v))), lookup_insert_eq. }
  apply (absorb_inv s k i p v); try done.
  - rewrite R.put_keys. apply Hi.
  - eapply fits_set_group; [apply Hi|done|done|apply Hv|]. rewrite <- (GM.g_len _ _ _ _ _ _ Hv). congruence.
  - by rewrite Hca.
Qed.

Lemma set_rt_inv r (s : t) : inv s → StronglySorted Z.lt (R.keys r) → fits r (parts s) → inv (set_rt r s).
Proof. intros [_ _ ? ? ? ? ?] ? ?. by split. Qed.

Lemma add_entity_inv (s : t) : inv s → inv (set_rt (R.AddEntityTag (rt s)).1 s).
Proof.
  intros Hi. unfold R.AddEntityTag. destruct (R.FetchFreeExecutor _ _) as [[k a]|] eqn:E.
  2: { apply set_rt_inv; [done|apply Hi..]. }
  destruct (R.fetch_free_in _ _ _ _ _ _ E) as [?|[Hin _]]; [done|]. destruct a as [e|n b]; cbn.
  - destruct (Executor.AddEntity e) as [e' j] eqn:Ea. cbn. apply set_rt_inv; [done|rewrite R.put_keys; apply Hi|].
    eapply fits_put; [apply Hi|done|]. assert (Executor.groups e' = Executor.groups e) as ->
      by (unfold Executor.AddEntity in Ea; destruct (65500 <=? _); by injection Ea as <- _).
    intros i g Hg. exists g. split; [done|]. split; [by eapply (r_fits _ Hi)|done].
  - apply set_rt_inv; [done|rewrite R.put_keys; apply Hi|]. intros k0 e0 i g [[=]|Hin0]%R.put_elem. by eapply (r_fits _ Hi).
Qed.

Lemma delete_in_groups_slots id gs gs' : Executor.delete_in_groups id gs = Some gs' → (∀ g, g ∈ gs → G.wf g) →
  ∀ i g', gs' !! i = Some g' → ∃ g, gs !! i = Some g ∧ G.wf g' ∧ List.length (G.slots g') = List.length (G.slots g).
Proof.
  revert gs'. induction gs as [|g gs IH]; intros gs' E Hw; cbn in E; [by injection E as <-|].
  destruct (G.DeleteEntity_ok id g) as (g1 & Eg & Hw1 & _); [apply Hw; left|]. rewrite Eg in E. cbn [mbind option_bind] in E.
  destruct (Executor.delete_in_groups id gs) as [gs1|]; [|done]. injection E as <-.
  intros [|i] g' Hg'; [injection Hg' as <-; exists g; split_and!; try done; by eapply G.DeleteEntity_length|].
  eapply IH; [done| |done]. intros h Hh. apply Hw. by right.
Qed.

Lemma delete_entity_total tag r m : fits r m → is_Some (R.DeleteEntityTag tag r).
Proof.
  intros Hf. unfold R.DeleteEntityTag. destruct (R.FetchExecutor _ _ _) as [[k a]|] eqn:E; [|eauto].
  apply head_filter_elem in E as [Hin _]. destruct a as [e|n b]; cbn [R.any_DeleteEntity]; [|cbn; eauto]. unfold Executor.DeleteEntity.
  destruct (Executor.delete_in_groups_ok (Numbers.Unpack tag).2 (Executor.groups e)) as (gs & -> & _); [|cbn; eauto].
  intros g [i Hg]%list_elem_of_lookup_1. by eapply Hf.
Qed.

Lemma delete_entity_inv tag r (s : t) : inv s → R.DeleteEntityTag tag (rt s) = Some r → inv (set_rt r s).
Proof.
  intros Hi. unfold R.DeleteEntityTag. destruct (R.FetchExecutor _ _ _) as [[k a]|] eqn:E.
  2: { intros [= <-]. apply set_rt_inv; [done|apply Hi..]. }
  apply head_filter_elem in E as [Hin _]. destruct a as [e|n b]; cbn [R.any_DeleteEntity].
  - unfold Executor.DeleteEntity. destruct (Executor.delete_in_groups _ _) as [gs|] eqn:Ed; [|done]. cbn. intros [= <-].
    apply set_rt_inv; [done|rewrite R.put_keys; apply Hi|]. eapply fits_put; [apply Hi|done|]. cbn.
    eapply delete_in_groups_slots; [done|]. intros g [i Hg]%list_elem_of_lookup_1. by eapply (r_fits _ Hi).
  - cbn. intros [= <-]. apply set_rt_inv; [done|rewrite R.put_keys; apply Hi|].
    intros k0 e0 i g [[=]|Hin0]%R.put_elem. by eapply (r_fits _ Hi).
Qed.

Lemma runtime_inv_step l (s s' : t) : inv s → clock_ok l → step s l = Some s' → laps s' → inv s'.
Proof.
  intros Hi Hc [_ E]%step_cases Hlap. destruct l as [j clock x|j clock x|j|k i l| |tag].
  - destruct E as (s1 & E & ->). by eapply set_hand_inv, runtime_inv_post.
  - destruct E as (s1 & p & E & _ & ->). by eapply set_hand_inv, runtime_inv_post.
  - apply get_future_cases in E as (id & _ & _ & [[_ ->]|(_ & p & _ & ->)]); by apply set_hand_inv.
  - by eapply runtime_inv_group.
  - subst s'. by apply add_entity_inv.
  - destruct E as (r & Er & ->). by eapply delete_entity_inv.
Qed.

(** ** The start *)
(** The executors are under their keys, and their groups can start. *)
Record startable (r : R.t) : Prop := {
  st_keys : StronglySorted Z.lt (R.keys r);
  st_groups k e i g : (k, R.ACpu e) ∈ R.executors r → Executor.groups e !! i = Some g → GM.startable g
}.

Lemma executor_parts_elem k a kg p : (kg, p) ∈ executor_parts (k, a) ↔
  ∃ e i g, a = R.ACpu e ∧ Executor.groups e !! i = Some g ∧ kg = (k, i) ∧ p = start_part g.
Proof.
  unfold executor_parts. cbn. destruct a as [e|n b]; [rewrite elem_of_lookup_imap; naive_solver|].
  split; [by intros ?%not_elem_of_nil|naive_solver].
Qed.

Lemma executor_parts_NoDup ka : NoDup (executor_parts ka).*1.
Proof.
  destruct ka as [k [e|n b]]; cbn; [|constructor]. rewrite fmap_imap. cbn.
  erewrite imap_ext; [|intros; reflexivity]. rewrite (imap_seq_0 _ (λ i, (k, i))). apply NoDup_fmap_2; [by intros ? ? [=]|apply NoDup_seq].
Qed.

Lemma all_parts_NoDup l : StronglySorted Z.lt (map fst l) → NoDup (concat (map executor_parts l)).*1.
Proof.
  induction l as [|[k a] l IH]; cbn; intros Hs; [constructor|]. apply StronglySorted_inv in Hs as [Hs Hf].
  rewrite fmap_app. apply NoDup_app. split; [apply executor_parts_NoDup|]. split; [|by apply IH].
  intros kg ([kg' p] & -> & Hp)%list_elem_of_fmap ([kg2 q] & E & Hq)%list_elem_of_fmap. cbn in E. subst kg2.
  apply executor_parts_elem in Hp as (_ & i & _ & _ & _ & -> & _).
  rewrite list_elem_of_In, in_concat in Hq. destruct Hq as (ps & Hps & Hq). apply in_map_iff in Hps as ([k2 a2] & <- & Hin).
  apply list_elem_of_In, executor_parts_elem in Hq as (_ & j & _ & _ & _ & [= -> ->] & _).
  rewrite Forall_forall in Hf. specialize (Hf k2). assert (k2 < k2); [|lia]. apply Hf, list_elem_of_fmap.
  exists (k2, a2). by rewrite list_elem_of_In.
Qed.

Lemma make_parts_lookup r kg p : startable r → parts (make r) !! kg = Some p ↔
  ∃ k e i g, (k, R.ACpu e) ∈ R.executors r ∧ Executor.groups e !! i = Some g ∧ kg = (k, i) ∧ p = start_part g.
Proof.
  intros [Hk _]. cbn. rewrite <- elem_of_list_to_map by (by apply all_parts_NoDup). rewrite list_elem_of_In, in_concat. split.
  - intros (ps & Hps & Hp). apply in_map_iff in Hps as ([k a] & <- & Hin).
    apply list_elem_of_In, executor_parts_elem in Hp as (e & i & g & -> & Hg & -> & ->). exists k, e, i, g. by rewrite list_elem_of_In.
  - intros (k & e & i & g & Hin & Hg & -> & ->). exists (executor_parts (k, R.ACpu e)). split.
    + apply in_map. by apply list_elem_of_In.
    + apply list_elem_of_In, executor_parts_elem. eauto 10.
Qed.

(** The part of a group that can start is the start of its machine. *)
Lemma start_part_ok g : GM.startable g → ∀ c, part_ok c (start_part g) ∧ G.wf g ∧
  List.length (words (start_part g)) = List.length (G.slots g) ∧
  ran (start_part g) = [] ∧ waiting (start_part g) = [] ∧ arrived (start_part g) = [].
Proof.
  intros Hg c. destruct (GM.group_inv_make fn callers g Hg) as [Hwf Hl Hw Hs Hb He _ _ Hd]. cbn in Hl, Hw, Hs, Hd.
  rewrite app_nil_r in He. symmetry in He. apply Permutation_nil_r in He.
  change (ran (start_part g) ++ GM.waiting (words (start_part g)) = []) in He.
  pose proof (app_eq_nil _ _ He) as [Hrn Hwt].
  split; [split; [done|done|cbn; rewrite pq_elems_empty; by intros x ?%not_elem_of_nil]|]. split_and!; try done.
  unfold waiting. rewrite Hwt. unfold GM.delayed_ids. cbn. by rewrite pq_elems_empty.
Qed.

Lemma runtime_inv_make r : startable r → inv (make r).
Proof.
  intros Hr. assert (∀ kg p, parts (make r) !! kg = Some p → ∃ g, GM.startable g ∧ p = start_part g) as Hp.
  { intros kg p (k & e & i & g & Hin & Hg & _ & ->)%make_parts_lookup; [|done]. exists g. split; [|done]. by eapply st_groups. }
  assert (∀ f : part → list nat, (∀ g, GM.startable g → f (start_part g) = []) → all f (parts (make r)) = []) as Hall.
  { intros f Hf. apply all_nil. intros kg p Hkg. destruct (Hp kg p Hkg) as (g & Hg & ->). by apply Hf. }
  split.
  - apply Hr.
  - intros k e i g Hin Hg. assert (GM.startable g) as Hst by (by eapply st_groups).
    destruct (start_part_ok g Hst ∅) as (_ & Hwf & Hl & _). split; [done|]. exists (start_part g). split; [|done].
    apply make_parts_lookup; [done|]. eauto 10.
  - intros kg p Hkg. destruct (Hp kg p Hkg) as (g & Hg & ->). by apply start_part_ok.
  - rewrite !Hall; [apply Ledger.ok_make| |]; intros g Hg; by destruct (start_part_ok g Hg ∅) as (_ & _ & _ & ? & ? & ?).
  - rewrite Hall; [done|]. intros g Hg. by destruct (start_part_ok g Hg ∅) as (_ & _ & _ & ? & ? & ?).
  - intros id. cbn. by rewrite lookup_empty.
  - by intros c id ?%not_elem_of_nil.
Qed.

Lemma runtime_reachable_inv r (s : t) : startable r → reachable r s → inv s.
Proof. intros Hr. induction 1; [by apply runtime_inv_make|by eapply runtime_inv_step]. Qed.

(** ** At rest *)
(** The scheduler thread waits. *)
Definition at_wait (p : D.pc) : bool := match p with D.InWait | D.InWaitFor _ _ => true | _ => false end.

(** In every slot of every group the workers are blocked and no thread is inside [post]; every scheduler thread waits. *)
Definition resting (s : t) : Prop :=
  map_Forall (λ _ p, Forall WordTasks.quiet (words p) ∧ at_wait (D.thread (sched p)) = true) (parts s).

Definition restingb (s : t) : bool :=
  forallb (λ kp, forallb WordTasks.quietb (words kp.2) && at_wait (D.thread (sched kp.2))) (map_to_list (parts s)).

Lemma runtime_restingb (s : t) : restingb s = true → resting s.
Proof.
  unfold restingb. rewrite forallb_forall. intros Hr kg p Hp.
  assert (In (kg, p) (map_to_list (parts s))) as Hin by (by apply list_elem_of_In, elem_of_map_to_list).
  apply Hr, andb_true_iff in Hin as [Hq Ht]. cbn in Hq, Ht. split; [|done].
  rewrite forallb_forall in Hq. apply Forall_forall. intros c Hc. by apply WordTasks.quietb_quiet, Hq, list_elem_of_In.
Qed.

Definition answered (s : t) (id p : nat) : Prop :=
  ∃ r, fut_state p (Ledger.futs (book s)) = Some (Ready r) ∧ Ledger.answer (fn id) = Ready r.

(** Task [id], called as [y], is kept by the scheduler of a group, which fell asleep at clock [c], when the task
    was early, and sleeps exactly until the earliest of the tasks it keeps is due. *)
Record early_in (s : t) (id : nat) (kg : Z * nat) (q : part) (c us : Z) (y : task) : Prop := {
  ea_part : parts s !! kg = Some q;
  ea_kept : id ∈ GM.delayed_ids (sched q);
  ea_sleeps : D.sleeps c us (sched q);
  ea_called : called s !! id = Some y;
  ea_delay : us <= get_delay c y
}.

Definition early (s : t) (id : nat) : Prop := ∃ kg q c us y, early_in s id kg q c us y.

(** No task is early that no scheduler keeps. *)
Lemma not_early (s : t) id :
  forallb (λ kp, negb (bool_decide (id ∈ GM.delayed_ids (sched kp.2)))) (map_to_list (parts s)) = true → ¬ early s id.
Proof.
  rewrite forallb_forall. intros Hf (kg & q & c & us & y & [Hq Hk _ _ _]).
  assert (In (kg, q) (map_to_list (parts s))) as Hin by (by apply list_elem_of_In, elem_of_map_to_list).
  specialize (Hf _ Hin). by apply negb_true_iff, bool_decide_eq_false in Hf.
Qed.

Lemma waiting_early (s : t) id : inv s → resting s → id ∈ all waiting (parts s) → early s id.
Proof.
  intros Hi Hq (kg & p & Hp & Hin)%all_elem. destruct (Hq kg p Hp) as [Hquiet Hth].
  destruct (r_parts _ Hi kg p Hp) as [Hw [q [_ _ _ Hwait Hidle]] Hdel]. unfold waiting in Hin.
  rewrite (GM.quiet_words_empty callers (words p) Hw Hquiet) in Hin. cbn in Hin. pose proof Hin as Hkept.
  apply list_elem_of_fmap in Hin as (x & -> & Hx). destruct (D.thread (sched p)) as [| | |c us| |] eqn:Eth; try done.
  - rewrite (Hidle eq_refl) in Hx. by apply not_elem_of_nil in Hx.
  - pose proof (Hwait c us eq_refl) as Hs. destruct (Hdel x Hx) as (y & Hy & Ey).
    exists kg, p, c, us, y. split; try done. unfold get_delay. rewrite Ey. by apply (D.sl_least _ _ _ Hs).
Qed.

Lemma arrived_due (s : t) id : inv s → id ∈ all ran (parts s) →
  ∃ c y, (c, id) ∈ entered s ∧ called s !! id = Some y ∧ get_delay c y <= 0.
Proof.
  intros Hi (kg & p & Hp & Hin)%all_elem. assert (id ∈ map snd (entered s)) as Hent.
  { rewrite (r_entered _ Hi). apply all_elem. exists kg, p. split; [done|]. apply elem_of_app. by left. }
  apply list_elem_of_fmap in Hent as ([c id'] & -> & Hent). destruct (r_due _ Hi _ _ Hent) as (y & ? & ?). by exists c, y.
Qed.

(** ** What a step does to the tasks *)
(** The tasks a step executes. *)
Definition executes (s : t) (l : label) : list nat :=
  match l with
  | LGroup k i l => match parts s !! (k, i) with Some p => GM.executed_ids (GM.executes (words p) l) | None => [] end
  | _ => []
  end.

Lemma own_step_effect l (v v' : GM.t S Q) : own l = true → GM.step fn callers v l = Some v' →
  GM.ran (GM.words v') ≡ₚ GM.executed_ids (GM.executes (GM.words v) l) ++ GM.ran (GM.words v) ∧
  ∃ es, GM.entered v' = es ++ GM.entered v.
Proof.
  destruct l as [|i l|c c'| |]; try done; intros _ E.
  - destruct (GM.slot_effect _ _ _ _ _ _ E) as [? ->]. split; [done|]. by exists [].
  - unfold GM.step in E. destruct (Ledger.terminated (GM.book v)); [done|]. by eapply GM.scheduler_effect.
  - destruct (GM.timeout_effect _ _ _ _ E) as [-> ->]. split; [done|]. by exists [].
Qed.

Lemma absorb_ran k i r v (s : t) p l : parts s !! (k, i) = Some p → GM.ran (GM.words v) ≡ₚ l ++ ran p →
  all ran (parts (absorb k i r v s)) ≡ₚ l ++ all ran (parts s).
Proof. intros Hp Hr. cbn. rewrite all_insert, (all_lookup ran _ _ _ Hp). unfold ran at 1. cbn. by rewrite Hr, (assoc_L (++)). Qed.

(** The task a step posts. *)
Definition posts (l : label) : option task := match l with LCall _ _ x | LPost _ _ x => Some x | _ => None end.

Lemma post_effect j clock x (s s' : t) : post j clock x s = Some s' →
  all ran (parts s') ≡ₚ all ran (parts s) ∧ (∃ es, entered s' = es ++ entered s) ∧
  called s' = <[task_id x := x]> (called s) ∧ hand s' = hand s ∧ Ledger.issue (task_id x) (book s) = Some (book s').
Proof.
  intros (b & r & k & i & tg & e & g & p & v & Eb & _ & _ & _ & Hp & Ev & ->)%runtime_post_cases.
  destruct (GM.deliver_effect _ _ _ _ _ _ _ _ _ Ev) as (Hr & He & _). destruct (GM.deliver_frame _ _ _ _ _ _ _ _ _ Ev) as [_ Hc].
  split; [by eapply (absorb_ran _ _ _ _ _ _ [])|]. split; [done|]. split; [done|]. split; [done|].
  cbn. by rewrite (GM.deliver_book _ _ _ _ _ _ _ _ _ Ev).
Qed.

Lemma step_effect l (s s' : t) : step s l = Some s' →
  all ran (parts s') ≡ₚ executes s l ++ all ran (parts s) ∧ (∃ es, entered s' = es ++ entered s) ∧
  called s' = match posts l with Some x => <[task_id x := x]> (called s) | None => called s end.
Proof.
  intros [_ E]%step_cases. destruct l as [j clock x|j clock x|j|k i l| |tag]; cbn [executes posts].
  - destruct E as (s1 & (? & ? & ? & _)%post_effect & ->). done.
  - destruct E as (s1 & p & (? & ? & ? & _)%post_effect & _ & ->). done.
  - apply get_future_cases in E as (id & _ & _ & [[_ ->]|(_ & p & _ & ->)]); (split; [done|]; split; [by exists []|done]).
  - apply group_cases in E as (e & g & p & v & Ho & _ & _ & Hp & Ev & ->). rewrite Hp.
    destruct (own_step_effect _ _ _ Ho Ev) as [Hr He]. destruct (own_step_frame _ _ _ Ho Ev) as [_ Hc].
    split; [by eapply absorb_ran|done].
  - subst s'. split; [done|]. split; [by exists []|done].
  - destruct E as (r & _ & ->). split; [done|]. split; [by exists []|done].
Qed.

(** A task without a delay comes to a slot at once. *)
Lemma post_enters j clock x (s s' : t) : inv s → post j clock x s = Some s' → get_delay clock x <= 0 →
  (clock, task_id x) ∈ entered s'.
Proof.
  intros Hi (b & r & k & i & tg & e1 & g & p & v & _ & Ep & _ & _ & _ & Ev & ->)%runtime_post_cases Hd. cbn.
  destruct (R.Post_cpu _ _ _ _ _ _ _ Ep) as (e & e' & Hin & Epe & _).
  destruct (Executor.Post_group _ _ _ _ _ _ Epe) as (g0 & g1 & y & Hg0 & Epg & Hid & Hcr & _).
  destruct (r_fits _ Hi k e i g0 Hin Hg0) as (Hwf0 & _). destruct (GM.Post_routed _ _ _ _ _ Hwf0 Epg) as (_ & _ & Hrt).
  apply (routed_same _ x) in Hrt; [|done..]. destruct (GM.deliver_effect _ _ _ _ _ _ _ _ _ Ev) as (_ & _ & He).
  destruct tg as [n z|z]; cbn in Hrt; [|lia]. destruct Hrt as [<- _]. by eapply He.
Qed.

(** At rest a task that came to a slot has run. *)
Lemma resting_ran (s : t) c id : inv s → resting s → (c, id) ∈ entered s → id ∈ all ran (parts s).
Proof.
  intros Hi Hq Hin. assert (id ∈ all arrived (parts s)) as (kg & p & Hp & Ha)%all_elem.
  { rewrite <- (r_entered _ Hi). apply list_elem_of_fmap. by exists (c, id). }
  apply all_elem. exists kg, p. split; [done|]. unfold arrived in Ha.
  rewrite (GM.quiet_words_empty callers (words p)), app_nil_r in Ha; [done|by apply (r_parts _ Hi kg p)|by apply (Hq kg p)].
Qed.

(** ** The futures of the calls *)
Record hands_ok (s : t) : Prop := {
  h_taking j id : taking (hand s) !! j = Some id → is_Some (Ledger.promises (book s) !! id);
  h_held id p : held (hand s) !! id = Some p → Ledger.promises (book s) !! id = Some p;
  h_fault id : fault (hand s) = Some id → id ∈ all ran (parts s);
  h_all id : is_Some (Ledger.promises (book s) !! id) →
    is_Some (held (hand s) !! id) ∨ (∃ j, taking (hand s) !! j = Some id) ∨ fault (hand s) = Some id
}.

(** A step that posts nothing and takes no future. *)
Lemma hands_frame (s s' : t) : hands_ok s → fault (hand s) = None → hand s' = hand s →
  Ledger.promises (book s') = Ledger.promises (book s) → hands_ok s'.
Proof. intros [Ht Hh _ Ha] Hf Eh Ep. split; rewrite ?Eh, ?Ep; try done. by rewrite Hf. Qed.

(** A post makes a promise for its task and leaves the others. *)
Lemma post_promises j clock x (s s' : t) : post j clock x s = Some s' → ∃ p,
  Ledger.promises (book s) !! task_id x = None ∧ Ledger.promises (book s') = <[task_id x := p]> (Ledger.promises (book s)).
Proof. intros (_ & _ & _ & _ & [Hn [p Hp]]%Ledger.issue_promises)%post_effect. eauto. Qed.

Lemma hands_call j clock x (s s1 : t) : hands_ok s → fault (hand s) = None → outside j s = true → post j clock x s = Some s1 →
  hands_ok (set_hand (mkHands (<[j := task_id x]> (taking (hand s))) (held (hand s)) (fault (hand s))) s1).
Proof.
  intros [Ht Hh _ Ha] Hf [_ Hj%bool_decide_eq_true]%andb_true_iff (p & Hn & Ep)%post_promises. split; cbn; rewrite ?Ep.
  - intros i id [[-> <-]|[Hi Hid]]%lookup_insert_Some; [rewrite lookup_insert_eq; eauto|].
    rewrite lookup_insert_is_Some'. right. by eapply Ht.
  - intros id q Hid. pose proof (Hh id q Hid) as Hp. rewrite lookup_insert_ne; [done|]. congruence.
  - by rewrite Hf.
  - intros id [<-|Hid]%lookup_insert_is_Some'; [right; left; exists j; apply lookup_insert_eq|].
    destruct (Ha id Hid) as [?|[[i Hi]|?]]; [by left| |congruence]. right. left. exists i. rewrite lookup_insert_ne; [done|congruence].
Qed.

Lemma hands_post j clock x (s s1 : t) p : hands_ok s → fault (hand s) = None → post j clock x s = Some s1 →
  Ledger.promises (book s1) !! task_id x = Some p →
  hands_ok (set_hand (mkHands (taking (hand s)) (<[task_id x := p]> (held (hand s))) (fault (hand s))) s1).
Proof.
  intros [Ht Hh _ Ha] Hf (q & Hn & Ep)%post_promises Hp. rewrite Ep, lookup_insert_eq in Hp. injection Hp as ->. split; cbn; rewrite ?Ep.
  - intros i id Hid. rewrite lookup_insert_is_Some'. right. by eapply Ht.
  - intros id r [[<- <-]|[Hne Hid]]%lookup_insert_Some; [apply lookup_insert_eq|]. rewrite lookup_insert_ne by done. by apply Hh.
  - by rewrite Hf.
  - intros id [<-|Hid]%lookup_insert_is_Some'; [left; rewrite lookup_insert_eq; eauto|].
    destruct (Ha id Hid) as [?|[?|?]]; [left; rewrite lookup_insert_is_Some'; by right|by right; left|congruence].
Qed.

Lemma hands_future j (s s' : t) : hands_ok s → fault (hand s) = None → get_future j s = Some s' → hands_ok s'.
Proof.
  intros [Ht Hh _ Ha] Hf (id & Hj & _ & Hc)%get_future_cases.
  assert (∀ i id0, taking (hand s) !! i = Some id0 → id0 = id ∨ base.delete j (taking (hand s)) !! i = Some id0) as Hrest.
  { intros i id0 Hi. destruct (decide (i = j)) as [->|Hne]; [left; congruence|right; by rewrite lookup_delete_ne]. }
  destruct Hc as [[Hr ->]|(_ & p & Hp & ->)]; split; cbn.
  - intros i id0 [_ Hi]%lookup_delete_Some. by eapply Ht.
  - done.
  - by intros id0 [= <-].
  - intros id0 Hid. destruct (Ha id0 Hid) as [?|[[i Hi]|?]]; [by left| |congruence].
    destruct (Hrest i id0 Hi) as [->|?]; [by right; right|right; left; eauto].
  - intros i id0 [_ Hi]%lookup_delete_Some. by eapply Ht.
  - intros id0 q [[<- <-]|[_ Hq]]%lookup_insert_Some; [done|by apply Hh].
  - by rewrite Hf.
  - intros id0 Hid. rewrite lookup_insert_is_Some'. destruct (Ha id0 Hid) as [?|[[i Hi]|?]]; [by left; right| |congruence].
    destruct (Hrest i id0 Hi) as [->|?]; [by left; left|right; left; eauto].
Qed.

Lemma hands_step l (s s' : t) : hands_ok s → step s l = Some s' → hands_ok s'.
Proof.
  intros Hh [[_ Hf]%down_false E]%step_cases. destruct l as [j clock x|j clock x|j|k i l| |tag].
  - destruct E as (s1 & E & ->). eapply hands_call; [done..| |done]. unfold post in E. destruct (outside j s); [done|].
    by rewrite andb_false_r in E.
  - destruct E as (s1 & p & E & Hp & ->). by eapply hands_post.
  - by eapply hands_future.
  - apply group_cases in E as (e & g & p & v & Ho & _ & _ & _ & Ev & ->). eapply hands_frame; [done..|].
    pose proof (GM.thread_promises _ _ _ _ _ Ev) as Hp. by destruct l.
  - subst s'. by eapply hands_frame.
  - destruct E as (r & _ & ->). by eapply hands_frame.
Qed.

Lemma hands_reachable r (s : t) : reachable r s → hands_ok s.
Proof.
  induction 1 as [|s l s' _ IH _ E _]; [|by eapply hands_step]. split; cbn; intros *; rewrite ?lookup_empty; try done.
Qed.

(** ** No call goes wrong *)
(** The main executor is one of the executors, and every CPU executor has its main group. *)
Record live (r : R.t) : Prop := {
  l_wf : R.wf r;
  l_main : ∃ m k e, R.main_executor r = Some m ∧ R.at_address m r = Some (k, R.ACpu e);
  l_groups k e : (k, R.ACpu e) ∈ R.executors r → Executor.groups e ≠ []
}.

(** Writing an executor back at its address. *)
Lemma at_address_put r k a m : (∀ a0, (k, a0) ∈ R.executors r → R.self_of a0 = R.self_of a) →
  R.at_address m (R.put k a r) = (λ ka, if ka.1 =? k then (k, a) else ka) <$> R.at_address m r.
Proof.
  unfold R.at_address, R.put. cbn. induction (R.executors r) as [|[k0 a0] l IH]; intros Hs; [done|]. cbn.
  specialize (IH ltac:(intros a1 Ha1; apply Hs; by right)). destruct (Z.eqb_spec k0 k) as [->|Hne]; cbn.
  - rewrite <- (Hs a0) by left. destruct (_ =? _)%nat; [|done]. cbn. by rewrite Z.eqb_refl.
  - destruct (_ =? _)%nat; [|done]. cbn. by rewrite (proj2 (Z.eqb_neq _ _) Hne).
Qed.

Lemma live_put r k e e' : live r → (k, R.ACpu e) ∈ R.executors r → R.wf (R.put k (R.ACpu e') r) →
  Executor.self e' = Executor.self e → List.length (Executor.groups e') = List.length (Executor.groups e) →
  live (R.put k (R.ACpu e') r).
Proof.
  intros [Hw (m & k0 & e0 & Hm & Ha) Hg] Hin Hw' Hs Hl. split; [done| |].
  - exists m. cbn. rewrite at_address_put.
    + rewrite Ha. cbn. destruct (k0 =? k); eauto.
    + intros a0 Ha0. assert (a0 = R.ACpu e) as -> by (eapply R.keys_unique; [apply Hw|done|done]). done.
  - intros k1 e1 [[= -> ->]|Hin1]%R.put_elem; [|by eapply Hg]. specialize (Hg k e Hin). intros E. rewrite E in Hl.
    by destruct (Executor.groups e).
Qed.

Lemma live_set_group r k e i g : live r → (k, R.ACpu e) ∈ R.executors r → live (R.put k (R.ACpu (set_group i g e)) r).
Proof.
  intros Hl Hin. eapply live_put; [done..| |done|cbn; by rewrite length_insert]. by apply (R.put_wf_base k e _ r (l_wf _ Hl) Hin).
Qed.

Lemma live_add_entity r : live r → live (R.AddEntityTag r).1.
Proof.
  intros Hl. unfold R.AddEntityTag. destruct (R.FetchFreeExecutor _ _) as [[k a]|] eqn:E; [|done].
  destruct (R.fetch_free_in _ _ _ _ _ _ E) as [?|[Hin Ht]]; [done|].
  destruct (R.wf_cpu _ (l_wf _ Hl) k a Hin Ht) as (_ & _ & e & -> & He). destruct (R.AddEntity_base e) as (Bt & Bi & Bn). cbn.
  destruct (Executor.AddEntity e) as [e' j] eqn:Ea. cbn in *.
  assert (Executor.self e' = Executor.self e ∧ Executor.groups e' = Executor.groups e) as [Hs Hg]
    by (unfold Executor.AddEntity in Ea; destruct (65500 <=? _); by injection Ea as <- _).
  eapply live_put; [done..| |done|by rewrite Hg]. eapply (R.put_wf k (R.ACpu e)); [apply Hl|done..|]. exists e'. split; [done|]. by apply Bn.
Qed.

Lemma live_delete_entity tag r r' : live r → R.DeleteEntityTag tag r = Some r' → live r'.
Proof.
  intros Hl. unfold R.DeleteEntityTag. destruct (R.FetchExecutor _ _ _) as [[k a]|] eqn:E; [|by intros [= <-]].
  apply head_filter_elem in E as [Hin Ht]. apply andb_true_iff in Ht as [Ht%bool_decide_eq_true _].
  destruct (R.wf_cpu _ (l_wf _ Hl) k a Hin Ht) as (_ & _ & e & -> & He). cbn [R.any_DeleteEntity].
  unfold Executor.DeleteEntity. destruct (Executor.delete_in_groups _ _) as [gs|] eqn:Ed; [|done]. cbn. intros [= <-].
  eapply live_put; [done..| |done|cbn; by eapply Executor.delete_in_groups_length].
  eapply (R.put_wf k (R.ACpu e)); [apply Hl|done..|]. by eexists.
Qed.

Lemma live_post j clock x (s s' : t) : live (rt s) → post j clock x s = Some s' → live (rt s').
Proof.
  intros Hl (b & r & k & i & tg & e1 & g & p & v & _ & Ep & _ & _ & _ & _ & ->)%runtime_post_cases. cbn.
  destruct (R.Post_cpu _ _ _ _ _ _ _ Ep) as (e & e' & Hin & Epe & ->).
  destruct (Executor.Post_group _ _ _ _ _ _ Epe) as (g0 & g1 & y & _ & _ & _ & _ & ->). by apply (live_set_group _ k e i g1).
Qed.

Lemma live_step l (s s' : t) : live (rt s) → step s l = Some s' → live (rt s').
Proof.
  intros Hl [_ E]%step_cases. destruct l as [j clock x|j clock x|j|k i l| |tag].
  - destruct E as (s1 & E & ->). exact (live_post _ _ _ _ _ Hl E).
  - destruct E as (s1 & p & E & _ & ->). exact (live_post _ _ _ _ _ Hl E).
  - by apply get_future_cases in E as (id & _ & _ & [[_ ->]|(_ & p & _ & ->)]).
  - apply group_cases in E as (e & g & p & v & _ & Ef & _ & _ & _ & ->). cbn. apply live_set_group; [done|]. by apply find_cpu_elem.
  - subst s'. by apply live_add_entity.
  - destruct E as (r & Er & ->). by eapply live_delete_entity.
Qed.

Lemma live_reachable r (s : t) : live r → reachable r s → live (rt s).
Proof. intros Hl. induction 1; [done|by eapply live_step]. Qed.

(** The executor that [Runtime::Post] takes a task of no particular executor to. *)
Lemma live_choice r x : live r → es_executor (task_state x) = None → ∃ k e, (k, R.ACpu e) ∈ R.executors r ∧
  ∀ clock, R.Post clock x r = R.any_Post clock x k (R.ACpu e) r.
Proof.
  intros Hl Hx. unfold R.Post. rewrite Hx. destruct (if _ =? _ then _ else _) as [[k a]|] eqn:E.
  - assert ((k, a) ∈ R.executors r ∧ R.GetType a = kCPU_EXECUTOR) as [Hin Ht].
    { destruct (_ =? _); [by destruct (R.fetch_free_in _ _ _ _ _ _ E) as [?|?]|].
      apply head_filter_elem in E as [Hin Ht]. by apply andb_true_iff in Ht as [Ht%bool_decide_eq_true _]. }
    destruct (R.wf_cpu _ (l_wf _ Hl) k a Hin Ht) as (_ & _ & e & -> & _). by exists k, e.
  - destruct (l_main _ Hl) as (m & k & e & -> & Ha). exists k, e. cbn. rewrite Ha. split; [|done].
    by apply head_filter_elem in Ha as [? _].
Qed.

Lemma free_view j (s : t) g kg p : free j s = true → parts s !! kg = Some p → GM.free j (view g p s) = true.
Proof.
  unfold free. rewrite forallb_forall. intros Hf Hp.
  exact (Hf (kg, p) ltac:(by apply list_elem_of_In, elem_of_map_to_list)).
Qed.

Lemma runtime_post_goes_on j clock x (s : t) : inv s → live (rt s) → (j < callers)%nat → outside j s = true →
  get_delay clock x <= 0 ∨ free callers s = true →
  Ledger.promises (book s) !! task_id x = None → es_executor (task_state x) = None →
  es_work_group (task_state x) = INVALID_OBJECT_ID → is_Some (post j clock x s).
Proof.
  intros Hi Hl Hj Ho Hf' Hn Hx Hwg. unfold post. rewrite (proj2 (Nat.ltb_lt _ _) Hj), Ho. cbn [andb].
  apply andb_true_iff in Ho as [Hf _].
  unfold Ledger.issue. rewrite Hn. destruct (fut_make _) as [q fs]. cbn [mbind option_bind].
  destruct (live_choice _ x Hl Hx) as (k & e & Hin & ->). cbn [R.any_Post].
  destruct (AsyncCalls.executor_post_main clock x e) as (e' & g & g' & tg & Ep & _ & _ & _ & Hg & Epg & Hwf & Hg'); [|done|].
  { split; [by eapply (l_groups _ Hl)|]. intros h [i Hh]%list_elem_of_lookup_1. by eapply (r_fits _ Hi). }
  rewrite Ep. cbn [mbind option_bind]. destruct (r_fits _ Hi k e 0%nat g Hin Hg) as (_ & p & Hp & Hlen).
  assert (find_cpu k (R.put k (R.ACpu e') (rt s)) = Some e') as ->.
  { apply find_cpu_unique; [rewrite R.put_keys; apply Hi|by eapply R.put_in]. }
  cbn [mbind option_bind]. rewrite Hg', Hp. cbn [mbind option_bind].
  destruct (GM.Post_routed _ _ _ _ _ Hwf Epg) as (Hwf' & Hl' & Hrt). destruct (G.Post_target _ _ _ _ _ Hwf Epg) as [_ Htg].
  destruct (GM.deliver_goes_on fn callers (all ran (base.delete (k, 0%nat) (parts s))) (all waiting (base.delete (k, 0%nat) (parts s)))
    (all arrived (base.delete (k, 0%nat) (parts s))) j clock x
    {| Ledger.futs := fs; Ledger.promises := <[task_id x := q]> (Ledger.promises (book s)); Ledger.terminated := Ledger.terminated (book s) |}
    g' tg (view g' p s)) as [v ->]; [| | |cbn; eauto].
  - apply view_inv; [done..|]. change (List.length (words p) = List.length (G.slots g')). congruence.
  - by eapply free_view.
  - destruct tg as [i y|y].
    + destruct Htg as (_ & _ & ?). change (0 <= i < List.length (G.slots g')). rewrite Hl'. done.
    + destruct Hrt as (_ & _ & Hpos). change (0 < get_delay clock x) in Hpos. destruct Hf' as [?|?]; [lia|by eapply free_view].
Qed.

(** A call whose [Post] has returned asks for its future. *)
Lemma runtime_future_goes_on j id (s : t) : hands_ok s → taking (hand s) !! j = Some id → free j s = true →
  is_Some (get_future j s).
Proof.
  intros Hh Hj Hf. unfold get_future. rewrite Hj, Hf. cbn [mbind option_bind]. case_bool_decide; [eauto|].
  destruct (h_taking _ Hh j id Hj) as [p ->]. cbn. eauto.
Qed.

Lemma runtime_scheduler_goes_on k e i g p c c' (s : t) : inv s → (k, R.ACpu e) ∈ R.executors (rt s) → Executor.groups e !! i = Some g →
  parts s !! (k, i) = Some p → 0 <= c <= c' → forallb (GM.idle callers) (words p) = true → Ledger.terminated (book s) = false →
  D.thread (sched p) = D.AtLoop ∨ D.thread (sched p) = D.AtLock → is_Some (group_step k i (GM.LScheduler c c') s).
Proof.
  intros Hi Hin Hg Hp Hc Hf Ht Hth. unfold group_step. cbn [own].
  rewrite (find_cpu_unique k (rt s) e) by (done || apply Hi). cbn [mbind option_bind]. rewrite Hg, Hp. cbn [mbind option_bind].
  destruct (r_fits _ Hi k e i g Hin Hg) as (Hwf & p0 & Hp0 & Hl). rewrite Hp in Hp0. injection Hp0 as <-.
  unfold GM.step. cbn [view GM.book]. rewrite Ht.
  destruct (GM.scheduler_goes_on fn callers _ _ _ c c' (view g p s) (view_inv s (k, i) g p Hi Hp Hwf Hl) Hc) as [v Hv];
    [done..|]. rewrite Hv. cbn. eauto.
Qed.

Lemma runtime_timeout_goes_on k e i g p (s : t) : inv s → (k, R.ACpu e) ∈ R.executors (rt s) → Executor.groups e !! i = Some g →
  parts s !! (k, i) = Some p → Ledger.terminated (book s) = false → at_wait (D.thread (sched p)) = true →
  is_Some (group_step k i GM.LTimeout s).
Proof.
  intros Hi Hin Hg Hp Ht Hth. unfold group_step. cbn [own].
  rewrite (find_cpu_unique k (rt s) e) by (done || apply Hi). cbn [mbind option_bind]. rewrite Hg, Hp. cbn [mbind option_bind].
  unfold GM.step. cbn [view GM.book GM.sched D.step]. rewrite Ht. destruct (D.thread (sched p)); try done; cbn; eauto.
Qed.
End runtime.
Arguments t : clear implicits.
End RuntimeMachine.
Import Ledger RuntimeMachine.

(** C1: the runtime answers its calls.  On a runtime with any number of executors, groups, slots and workers, however calling threads,
    workers, scheduler threads and the adding and deleting of entities interleave, down to every access to the words of the
    eventcounts, with a clock that does not go back within one turn of a scheduler thread: a task runs at most once; the future of its promise shows what its function did exactly from then on; a task that ran
    had come to a slot at a clock at which its delay was over; the program goes down only by a function
    that throws what is not a [std::exception].  A call returns the future of its own task's promise, unless a worker has executed and
    deleted the task before the call asks for it, when the call has used a deleted object.  And when every slot is at rest and every
    scheduler thread waits, every future has its answer, except those of the delayed tasks that a scheduler keeps: it fell asleep at a clock at which
    none of the tasks it keeps was due, and sleeps exactly until the earliest of them is. *)
Theorem runtime_answers {S V Q : Type} `{FuturesLaws S (V + unit)} `{PriorityQueueLaws Q} (fn : nat → outcome V)
    (callers : nat) (r : Runtime.t) (s : RuntimeMachine.t S Q) :
  startable r → reachable fn callers r s →
  NoDup (all ran (parts s)) ∧
  (∀ id p, promises (book s) !! id = Some p →
     fut_state p (futs (book s)) = Some (if decide (id ∈ all ran (parts s)) then answer (fn id) else Pending)) ∧
  (∀ id, id ∈ all ran (parts s) → ∃ c y, (c, id) ∈ entered s ∧ called s !! id = Some y ∧ get_delay c y <= 0) ∧
  (terminated (book s) = true ↔ ∃ id, id ∈ all ran (parts s) ∧ fn id = ThrowsOther) ∧
  (∀ id p, held (hand s) !! id = Some p → promises (book s) !! id = Some p) ∧
  (∀ id, fault (hand s) = Some id → id ∈ all ran (parts s)) ∧
  (∀ id, is_Some (promises (book s) !! id) →
     is_Some (held (hand s) !! id) ∨ (∃ j, taking (hand s) !! j = Some id) ∨ fault (hand s) = Some id) ∧
  (terminated (book s) = false → resting s →
    ∀ id p, promises (book s) !! id = Some p → answered fn s id p ∨ early s id).
Proof.
  intros Hr Hs. pose proof (runtime_reachable_inv fn callers r s Hr Hs) as Hi. pose proof (r_book _ _ _ Hi) as Hok.
  pose proof (hands_reachable fn callers r s Hs) as Hh. split_and!.
  - by eapply ok_ran_once.
  - apply Hok.
  - intros id. by eapply arrived_due.
  - by eapply ok_terminated.
  - apply Hh.
  - apply Hh.
  - apply Hh.
  - intros Ht Hq id p Hp. destruct (decide (id ∈ all waiting (parts s))) as [Hin|Hin].
    + right. by eapply waiting_early.
    + left. by eapply ok_answered.
Qed.

(** C5: no call of the runtime goes wrong.  In every state the machine reaches before a function has taken the program
    down or a deleted task has been used: a thread outside a call can make its next one, with a task for no executor and no
    group in particular, for an entity or not, known to the runtime or not, and routing finds it an executor, a group and a slot; when
    the task is delayed this is shown for a moment at which no scheduler thread is inside its callback, since it
    holds its mutex there.  A call whose [Post] has returned goes on to take its future.  Every scheduler thread that is outside its callback and
    not waiting takes its next turn, if the clock does not go back within the turn, one that waits can wake up, and none ever locks the mutex it
    holds.  Entities can be added and deleted. *)
Theorem runtime_never_stuck {S V Q : Type} `{FuturesLaws S (V + unit)} `{PriorityQueueLaws Q} (fn : nat → outcome V)
    (callers : nat) (r : Runtime.t) (s : RuntimeMachine.t S Q) :
  startable r → live r → reachable fn callers r s → terminated (book s) = false → fault (hand s) = None →
  (∀ j clock x, (j < callers)%nat → outside j s = true → get_delay clock x <= 0 ∨ free callers s = true →
     promises (book s) !! task_id x = None →
     es_executor (task_state x) = None → es_work_group (task_state x) = INVALID_OBJECT_ID →
     is_Some (step fn callers s (LCall j clock x))) ∧
  (∀ j id, taking (hand s) !! j = Some id → free j s = true → is_Some (step fn callers s (LFuture j))) ∧
  (∀ k e i g, (k, Runtime.ACpu e) ∈ Runtime.executors (rt s) → Executor.groups e !! i = Some g →
     ∃ p, parts s !! (k, i) = Some p ∧ Scheduler.thread (sched p) ≠ Scheduler.Deadlocked ∧
     (∀ c c', 0 <= c <= c' → forallb (GroupMachine.idle callers) (words p) = true →
       Scheduler.thread (sched p) = Scheduler.AtLoop ∨ Scheduler.thread (sched p) = Scheduler.AtLock →
       is_Some (step fn callers s (LGroup k i (GroupMachine.LScheduler c c')))) ∧
     (at_wait (Scheduler.thread (sched p)) = true → is_Some (step fn callers s (LGroup k i GroupMachine.LTimeout)))) ∧
  (∀ tag, is_Some (step fn callers s (LDeleteEntity tag))) ∧
  is_Some (step fn callers s LAddEntity).
Proof.
  intros Hr Hl Hs Ht Hfa. pose proof (runtime_reachable_inv fn callers r s Hr Hs) as Hi.
  pose proof (live_reachable fn callers r s Hl Hs) as Hlive. pose proof (hands_reachable fn callers r s Hs) as Hh.
  unfold step. assert (down s = false) as -> by (unfold down; by rewrite Ht, Hfa). split_and!; [| | | |eauto].
  - intros j clock x Hj Ho Hf Hn Hx Hw. destruct (runtime_post_goes_on fn callers j clock x s) as [s1 E]; [done..|].
    unfold Call. rewrite E. cbn. eauto.
  - intros j id. by apply runtime_future_goes_on.
  - intros k e i g Hin Hg. destruct (r_fits _ _ _ Hi k e i g Hin Hg) as (_ & p & Hp & _). exists p. split; [done|].
    destruct (r_parts _ _ _ Hi (k, i) p Hp) as [_ [q [_ _ Hal _ _]] _]. split; [done|]. split.
    + intros c c' Hc Hf Hth. by eapply runtime_scheduler_goes_on.
    + by eapply runtime_timeout_goes_on.
  - intros tag. destruct (delete_entity_total tag (rt s) (parts s) (r_fits _ _ _ Hi)) as [r' ->]. cbn. eauto.
Qed.

(** [Setup] of a new runtime gives one that can start: with less than 2^16 - 1 hardware threads and slots of less than
    2^16 - 1 workers, the eventcount of every slot has room for them. *)
Lemma setup_startable (hw : nat) (io_hash : Z) (os : list WorkGroupOption) :
  1 <= hw < 2 ^ 16 - 1 → (∀ o, o ∈ os → wo_name o ≠ R.MAIN_WORK_GROUP) →
  (∀ o, o ∈ R.main_group_option :: os → is_Some (G.slots_count hw hw o)) →
  (∀ o, o ∈ os → slot_concurrency o < 2 ^ 16 - 1) →
  ∃ r, R.Setup hw io_hash os 0 R.make = Some r ∧ startable r ∧ live r.
Proof.
  intros Hhw Hos Hsl Hcc. destruct (AsyncCalls.setup_ready hw io_hash os) as (r & Hset & Hr & Hm & Hgs); [lia|done|done|].
  exists r. split; [done|]. split; [|split; [apply Hr|done|intros k e Hin; by apply (AsyncCalls.ready_groups _ Hr k e Hin)]].
  split; [apply (AsyncCalls.ready_wf _ Hr)|]. intros k e i g Hin Hg%list_elem_of_lookup_2.
  split; [by apply (AsyncCalls.ready_groups _ Hr k e Hin)|]. intros x Hx. destruct (Hgs k e Hin) as (cpus & wg & Em).
  destruct (Executor.make_groups_workers _ _ _ _ _ _ Em g x Hg Hx) as (o & Ho & ->). unfold G.concurrency.
  destruct (Z.ltb_spec 0 (slot_concurrency o)) as [Hpos|_]; [|lia].
  apply elem_of_cons in Ho as [->|Ho]; [cbn in Hpos; lia|]. specialize (Hcc o Ho). lia.
Qed.

Module RuntimeExample.
Import SlotWord.

(** One processor, the main group and a group for video, each with a slot of one worker. *)
Definition options : list WorkGroupOption := [plain_option "video" 1].

Definition one_cpu : Runtime.t := default Runtime.make (Runtime.Setup 1 77 options 0 Runtime.make).

Lemma one_cpu_startable : RuntimeMachine.startable one_cpu ∧ live one_cpu.
Proof.
  destruct (setup_startable 1 77 options) as (r & E & Hr); [lia|..].
  - intros o ->%list_elem_of_singleton. vm_compute. discriminate.
  - intros o [->|Ho]%elem_of_cons; [vm_compute; eauto|]. apply list_elem_of_singleton in Ho as ->. vm_compute. eauto.
  - intros o ->%list_elem_of_singleton. vm_compute. reflexivity.
  - unfold one_cpu. by rewrite E.
Qed.

Definition square (id : nat) : outcome Z := Returns (Z.of_nat id * Z.of_nat id).

(** Task 7 is for nobody in particular, task 8 for the group for video, after 50 microseconds. *)
Definition seven : task := new_task 7 0.

Definition eight : task := mkTask 8 (mkES INVALID_OBJECT_ID 1 INVALID_OBJECT_ID None) 50 50.

Definition on (i : nat) (ls : list GroupMachine.label) : list RuntimeMachine.label := map (LGroup 0 i) ls.

Definition before : list RuntimeMachine.label :=
  [LAddEntity; RuntimeMachine.LCall 0 0 seven] ++ on 0 (GroupExample.notified 0 1) ++ [LFuture 0; RuntimeMachine.LCall 0 0 eight; LFuture 0] ++
  on 0 (GroupExample.works 0) ++ on 1 (map (GroupMachine.LSlot 0) to_sleep) ++
  on 0 (replicate 2 (GroupMachine.LScheduler 1000 1000)) ++ on 1 (replicate 2 (GroupMachine.LScheduler 1000 1000)).

Definition after : list RuntimeMachine.label :=
  on 1 ([GroupMachine.LTimeout; GroupMachine.LScheduler 60000 60000; GroupMachine.LScheduler 60000 61000] ++
    replicate 9 (GroupMachine.LSlot 0 (LNotify 2 false)) ++ [GroupMachine.LSlot 0 (LWorker 0 false false)] ++
    GroupExample.works 0 ++ replicate 2 (GroupMachine.LScheduler 62000 62000)).

Definition start : RuntimeMachine.t (MapFutures.t (Z + unit)) (list task) := RuntimeMachine.make 1 one_cpu.

Definition asleep : RuntimeMachine.t (MapFutures.t (Z + unit)) (list task) :=
  default start (RuntimeMachine.run square 1 start before).

Definition finished : RuntimeMachine.t (MapFutures.t (Z + unit)) (list task) :=
  default start (RuntimeMachine.run square 1 start (before ++ after)).

Lemma asleep_reached_rt : RuntimeMachine.reachable square 1 one_cpu asleep.
Proof. apply (runtime_run_reachable square 1 one_cpu before start); [constructor|vm_compute; reflexivity]. Qed.

Lemma finished_reached_rt : RuntimeMachine.reachable square 1 one_cpu finished.
Proof. apply (runtime_run_reachable square 1 one_cpu (before ++ after) start); [constructor|vm_compute; reflexivity]. Qed.

(** While task 8 waits for its time it is early; at the end both tasks have their answers. *)
Lemma runtime_answers_witness :
  early asleep 8 ∧ RuntimeMachine.answered square finished 7 0 ∧ RuntimeMachine.answered square finished 8 1.
Proof.
  split.
  - destruct (runtime_answers square 1 one_cpu asleep (proj1 one_cpu_startable) asleep_reached_rt) as (_ & _ & _ & _ & _ & _ & _ & Hall).
    destruct (Hall ltac:(vm_compute; reflexivity) ltac:(apply runtime_restingb; vm_compute; reflexivity) 8%nat 1%nat
      ltac:(vm_compute; reflexivity)) as [(v & Hv & _)|He]; [vm_compute in Hv; discriminate Hv|exact He].
  - destruct (runtime_answers square 1 one_cpu finished (proj1 one_cpu_startable) finished_reached_rt) as (_ & _ & _ & _ & _ & _ & _ & Hall).
    split.
    + destruct (Hall ltac:(vm_compute; reflexivity) ltac:(apply runtime_restingb; vm_compute; reflexivity) 7%nat 0%nat
        ltac:(vm_compute; reflexivity)) as [Ha|He]; [exact Ha|exfalso; revert He; apply not_early; vm_compute; reflexivity].
    + destruct (Hall ltac:(vm_compute; reflexivity) ltac:(apply runtime_restingb; vm_compute; reflexivity) 8%nat 1%nat
        ltac:(vm_compute; reflexivity)) as [Ha|He]; [exact Ha|exfalso; revert He; apply not_early; vm_compute; reflexivity].
Defined.

(** A worker executes task 7 before its caller asks for the future. *)
Example future_of_deleted_task :
  (λ s, fault (hand s)) <$> RuntimeMachine.run (S := MapFutures.t (Z + unit)) (Q := list task) square 1 start
    ([RuntimeMachine.LCall 0 0 seven] ++ on 0 (GroupExample.notified 0 1) ++
     on 0 (map (GroupMachine.LSlot 0) (replicate 4 (LWorker 0 false false))) ++ [LFuture 0]) = Some (Some 7%nat).
Proof. vm_compute. reflexivity. Qed.

(** A task of an entity the runtime does not know, after everything. *)
Lemma runtime_never_stuck_witness :
  is_Some (RuntimeMachine.step square 1 finished (RuntimeMachine.LCall 0 70000 (tagged 9 77))) ∧
  is_Some (RuntimeMachine.step square 1 finished (LDeleteEntity 5)).
Proof.
  destruct (runtime_never_stuck square 1 one_cpu finished (proj1 one_cpu_startable) (proj2 one_cpu_startable) finished_reached_rt)
    as (Hcall & _ & _ & Hdel & _); [vm_compute; reflexivity..|].
  split; [|apply Hdel]. apply Hcall; [lia|vm_compute; reflexivity|left; vm_compute; discriminate|vm_compute; reflexivity..].
Defined.
End RuntimeExample.
