(* ===== verification/AwaitRuntime.v ===== *)
(** * Coroutines that await the tasks of a runtime (include/ar/runtime.hpp, include/ar/coroutine.hpp)

    The runtime of RuntimeMachine.v with coroutines inside [Await] of the future of one of its tasks, each as in Coroutine.v: the
    worker that executes the awaited task sets its future, which fires the continuation; the continuation posts the
    resume task to the runtime, and the worker that executes that task resumes the coroutine.  A coroutine can only await a
    future that a call has returned.  The promise that
    the book of the runtime keeps for a resume task only records that the task has run. *)
From S2P Require Import Prelude.
From S2P Require Import Promise.
From S2P Require Import Task.
From S2P Require Import Ledger.
From S2P Require Import SlotWord.
From S2P Require Import AsyncSlot.
From S2P Require Import Scheduler.
From S2P Require Import WorkGroup.
From S2P Require Import GroupMachine.
From S2P Require Import Runtime.
From S2P Require Import RuntimeMachine.
From S2P Require Import Coroutine.

Module AwaitRuntime.
Module RM := RuntimeMachine.

(** A call of [Await]: the task whose future it awaits, and the resume task. *)
Record wait := mkWait { target : nat; resume : nat; await : Await.t }.

Section machine.
Context {S V Q : Type} `{FuturesLaws S (V + unit)} `{PriorityQueueLaws Q}.
Context (fn : nat → outcome V) (callers : nat).

Record t := mk { base : RM.t S Q; waits : list wait }.


Definition set_await (w : wait) (a : Await.t) : wait := mkWait (target w) (resume w) a.

(** What the execution of task [id] does to a call of [Await]; a worker that resumes a coroutine before [resume] has
    returned to it waits for its mutex. *)
Definition executed (id : nat) (w : wait) : option wait :=
  if decide (id = target w) then set_await w <$> Await.step (await w) Await.LSetter
  else if decide (id = resume w) then set_await w <$> Await.step (await w) Await.LWorker
  else Some w.

Inductive label :=
| LRun (l : RM.label)                              (* the runtime; nobody else posts a resume task *)
| LWaiter (k : nat)                                (* a coroutine in Await *)
| LContinuation (k j : nat) (clock : Z) (x : task). (* the continuation, by thread j; x is the resume task *)

Definition allowed (s : t) (l : RM.label) : bool :=
  match RM.posts l with Some x => forallb (λ w, negb (bool_decide (task_id x = resume w))) (waits s) | None => true end.

Definition run_step (l : RM.label) (s : t) : option t :=
  if allowed s l then
    b ← RM.step fn callers (base s) l;
    match RM.executes (base s) l with
    | id :: _ => if Ledger.terminated (RM.book b) then Some (mk b (waits s)) else ws ← mapM (executed id) (waits s); Some (mk b ws)
    | [] => Some (mk b (waits s))
    end
  else None.

(** The continuation: [handler->resume_task()], [Post], and then its return. *)
Definition continuation_step (k j : nat) (clock : Z) (x : task) (s : t) : option t :=
  w ← waits s !! k;
  a ← Await.step (await w) Await.LContinuation;
  if Await.posted (await w) then Some (mk (base s) (<[k := set_await w a]> (waits s)))
  else if bool_decide (task_id x = resume w) && (get_delay clock x <=? 0) then
    b ← RM.step fn callers (base s) (RM.LPost j clock x); Some (mk b (<[k := set_await w a]> (waits s)))
  else None.

(** The coroutine: it has the future of the task. *)
Definition waiter_step (k : nat) (w : wait) (s : t) : option t :=
  if bool_decide (is_Some (RM.held (RM.hand (base s)) !! target w)) then
    a ← Await.step (await w) Await.LWaiter; Some (mk (base s) (<[k := set_await w a]> (waits s)))
  else None.

Definition step (s : t) (l : label) : option t :=
  match l with
  | LRun l => run_step l s
  | LWaiter k => w ← waits s !! k; waiter_step k w s
  | LContinuation k j clock x => continuation_step k j clock x s
  end.







(** ** Invariant *)
(** A call of [Await] and the tasks that have run, come to a slot and been called. *)
Record agrees (b : RM.t S Q) (w : wait) : Prop := {
  ag_await : Await.inv (await w);
  ag_ready : Ledger.terminated (RM.book b) = false → (Await.ready (await w) = true ↔ target w ∈ RM.all RM.ran (RM.parts b));
  ag_called : Await.posted (await w) = false → RM.called b !! resume w = None;
  ag_posted : Await.posted (await w) = true → ∃ c, (c, resume w) ∈ RM.entered b;
  ag_resumed : Ledger.terminated (RM.book b) = false → resume w ∈ RM.all RM.ran (RM.parts b) → Await.resumes (await w) = 1%nat
}.

Record inv (ws : list (nat * nat)) (s : t) : Prop := {
  w_base : RM.inv fn callers (base s);
  w_ids : map (λ w, (target w, resume w)) (waits s) = ws;
  w_waits k w : waits s !! k = Some w → agrees (base s) w
}.

















End machine.
Arguments t : clear implicits.
End AwaitRuntime.
Import AwaitRuntime.


Module AwaitExample.
Import SlotWord GroupMachine RuntimeMachine RuntimeExample.




(** Task 8 runs; the continuation posts task 20 to the main group, whose worker is woken and resumes the coroutine. *)
Definition resumes : list AwaitRuntime.label :=
  map LRun after ++ [LContinuation 0 0 70000 (new_task 20 70000); LContinuation 0 0 70000 (new_task 20 70000)] ++
  map LRun (on 0 (replicate 9 (GroupMachine.LSlot 0 (LNotify 1 false)) ++ [GroupMachine.LSlot 0 (LWorker 0 false false)] ++
    GroupExample.works 0)) ++ [AwaitRuntime.LWaiter 0].








End AwaitExample.
