(* ===== verification/Metrics.v ===== *)
(** * Metrics (include/ar/metricer.hpp and the counters of the runtime)

    [Mon::Metricer], [MakeMetrics] of executors and work groups (src/executor.cpp), the entity
    counter of a slot (src/executor_slot.cpp), [CreateMetrics] and [MakeMetricsCounter] of the
    runtime (src/runtime.cpp) and the counting of coroutines (src/coroutine.cpp).  The class of
    the counters is the user's: here a counter is its name, its labels and the calls it got.
    Every counter has one owner, so that it is kept where its [shared_ptr] is. *)
From stdpp Require Import pretty.
From S2P Require Import Prelude.
From S2P Require Import Task.
From S2P Require Import Numbers.
From S2P Require Import ExecutorSlot.
From S2P Require Import WorkGroup.

Module Metrics.

(** ** Counters *)
(** The virtual functions of [Counter].  The amounts the runtime gives are sizes of containers,
    which a double holds exactly. *)
Inductive call := Increment | IncrementBy (v : Z) | Decrement | DecrementBy (v : Z).

Abbreviation labels := (gmap string string).

Record counter := mkCounter { c_name : string; c_labels : labels; c_calls : list call }.

Definition effect (c : call) : Z :=
  match c with Increment => 1 | IncrementBy v => v | Decrement => -1 | DecrementBy v => - v end.

(** What a counter that adds and subtracts shows. *)
Definition reading (c : counter) : Z := foldr (λ x z, effect x + z) 0 (c_calls c).

(** A call through the pointer. *)
Definition tell (x : call) (c : counter) : counter := mkCounter (c_name c) (c_labels c) (x :: c_calls c).

(** The loop of [MakeCounter]: [insert] leaves a key that is there. *)
Definition insert_label (l : labels) (kv : string * string) : labels :=
  match l !! kv.1 with Some _ => l | None => <[kv.1 := kv.2]> l end.

Definition MakeCounter (const_labels : labels) (name : string) (ls : list (string * string)) : counter :=
  mkCounter name (foldl insert_label const_labels ls) [].

(** ** Work groups with their counters *)
Record group := mkGroup {
  wg : WorkGroup.t;
  g_metricer : option labels;             (* the constant labels of the metricer *)
  workers_count : option counter;
  slots_count : option counter;
  m_entities : list (option counter)      (* m_entities_count of each slot *)
}.

(** A group as its constructor leaves it. *)
Definition plain_group (w : WorkGroup.t) : group :=
  mkGroup w None None None (replicate (List.length (WorkGroup.slots w)) None).

(** The counter of slot [i]. *)
Definition slot_counter (m : labels) (executor_name name : string) (i : nat) : counter :=
  MakeCounter m "ar_entities_count" [("executor", executor_name); ("group", name); ("slot", pretty (Z.of_nat i))].

Definition group_MakeMetrics (executor_name : string) (m : option labels) (g : group) : group :=
  match m with
  | None => mkGroup (wg g) None (workers_count g) (slots_count g) (m_entities g)
  | Some ls =>
      let who := [("executor", executor_name); ("group", WorkGroup.name (wg g))] in
      let w := MakeCounter ls "ar_workers_count" who in
      let s := MakeCounter ls "ar_slots_count" who in
      mkGroup (wg g) m
        (Some (tell (IncrementBy (size (WorkGroup.cpus_peer_slot (wg g)))) w))
        (Some (tell (IncrementBy (List.length (WorkGroup.slots (wg g)))) s))
        (map (λ i, Some (slot_counter ls executor_name (WorkGroup.name (wg g)) i))
          (seq 0 (List.length (WorkGroup.slots (wg g)))))
  end.

Definition set_wg (w : WorkGroup.t) (g : group) : group :=
  mkGroup w (g_metricer g) (workers_count g) (slots_count g) (m_entities g).

Definition tell_slot (x : call) (k : nat) (g : group) : group :=
  mkGroup (wg g) (g_metricer g) (workers_count g) (slots_count g) (alter (fmap (tell x)) k (m_entities g)).

(** [ExecutorSlot::add_entity] and [delete_entity] of slot [k]. *)
Definition slot_add_entity (k : nat) (g : group) : group :=
  let g := tell_slot Increment k g in set_wg (WorkGroup.add_entity_at k (wg g)) g.

Definition slot_delete_entity (k : nat) (g : group) : group :=
  let g := tell_slot Decrement k g in set_wg (WorkGroup.delete_entity_at k (wg g)) g.

(** [Post] and [DeleteEntity] of the group, with these calls. *)
Definition group_post_by_tag (x : task) (g : group) : option (group * WorkGroup.target) :=
  let w := wg g in
  let tag := es_tag (task_state x) in
  if tag =? INVALID_OBJECT_ID then
    if decide (WorkGroup.slots w = []) then None else Some (g, WorkGroup.ToSlot 0 x)
  else
    let entity := snd (Unpack tag) in
    match WorkGroup.entities_peer_slot w !! entity with
    | Some i => if (0 <=? i) && (i <? List.length (WorkGroup.slots w)) then Some (g, WorkGroup.ToSlot i x) else None
    | None =>
        k ← WorkGroup.min_index (map (λ s, ExecutorSlot.get_util (WorkGroup.entities_count s)) (WorkGroup.slots w));
        let g' := slot_add_entity k g in
        Some (set_wg (WorkGroup.set_entities (<[entity := Z.of_nat k]> (WorkGroup.entities_peer_slot (wg g'))) (wg g')) g',
              WorkGroup.ToSlot k x)
    end.

Definition group_Post (clock : Z) (x : task) (g : group) : option (group * WorkGroup.target) :=
  let x := set_execution_state_wg (WorkGroup.g_id (wg g)) x in
  if get_delay clock x <=? 0 then
    let p := es_processor (task_state x) in
    if p =? INVALID_OBJECT_ID then group_post_by_tag x g
    else match WorkGroup.cpus_peer_slot (wg g) !! i32 p with
         | Some i =>
             if (0 <=? i) && (i <? List.length (WorkGroup.slots (wg g))) then Some (g, WorkGroup.ToSlot i x) else None
         | None => group_post_by_tag x g
         end
  else Some (g, WorkGroup.ToScheduler x).

Definition group_DeleteEntity (id : Z) (g : group) : option group :=
  match WorkGroup.entities_peer_slot (wg g) !! id with
  | Some i =>
      if (0 <=? i) && (i <? List.length (WorkGroup.slots (wg g))) then
        let g' := slot_delete_entity (Z.to_nat i) g in
        Some (set_wg (WorkGroup.set_entities (base.delete id (WorkGroup.entities_peer_slot (wg g'))) (wg g')) g')
      else None
  | None => Some g
  end.

(** ** Executors and the runtime *)
(** An executor that is not a CPU executor has no groups. *)
Record executor := mkExecutor { e_name : string; e_metricer : option labels; e_groups : list group }.

(** [IExecutor::MakeMetrics] and [Executor::MakeMetrics]. *)
Definition executor_MakeMetrics (m : option labels) (e : executor) : executor :=
  mkExecutor (e_name e) m
    (match m with Some _ => map (group_MakeMetrics (e_name e) m) (e_groups e) | None => e_groups e end).

Fixpoint on_groups (f : group → option group) (gs : list group) : option (list group) :=
  match gs with [] => Some [] | g :: gs' => g' ← f g; r ← on_groups f gs'; Some (g' :: r) end.

(** The loop over the groups of [Executor::DeleteEntity]. *)
Definition executor_DeleteEntity (id : Z) (e : executor) : option executor :=
  gs ← on_groups (group_DeleteEntity id) (e_groups e); Some (mkExecutor (e_name e) (e_metricer e) gs).

Definition executor_Post (k : nat) (clock : Z) (x : task) (e : executor) : option executor :=
  g ← e_groups e !! k; '(g', _) ← group_Post clock x g;
  Some (mkExecutor (e_name e) (e_metricer e) (<[k := g']> (e_groups e))).

Record t := mk {
  executors : list executor;
  metricer : option labels;
  coroutine_counter : option counter;
  coroutines : Z                          (* the coroutine objects there are *)
}.

Definition MakeMetricsCounter (name : string) (ls : list (string * string)) (r : t) : option counter :=
  match metricer r with Some m => Some (MakeCounter m name ls) | None => None end.

Definition CreateMetrics (r : t) : t :=
  let r := mk (map (executor_MakeMetrics (metricer r)) (executors r)) (metricer r) (coroutine_counter r) (coroutines r) in
  mk (executors r) (metricer r) (MakeMetricsCounter "ar_coroutines_count" [] r) (coroutines r).

Definition CreateMetricer (ls : labels) (r : t) : t :=
  CreateMetrics (mk (executors r) (Some ls) (coroutine_counter r) (coroutines r)).

(** [coroutine_handler::create] and [destroy] while there is a runtime. *)
Definition create (r : t) : t :=
  mk (executors r) (metricer r) (tell Increment <$> coroutine_counter r) (coroutines r + 1).

Definition destroy (r : t) : t :=
  mk (executors r) (metricer r) (tell Decrement <$> coroutine_counter r) (coroutines r - 1).

(** What the program does. *)
Inductive op :=
| OpPost (e k : nat) (clock : Z) (x : task)
| OpDeleteEntity (e : nat) (id : Z)
| OpCreate
| OpDestroy.

Definition set_executors (es : list executor) (r : t) : t :=
  mk es (metricer r) (coroutine_counter r) (coroutines r).

Definition step (r : t) (o : op) : option t :=
  match o with
  | OpPost e k clock x => a ← executors r !! e; a' ← executor_Post k clock x a; Some (set_executors (<[e := a']> (executors r)) r)
  | OpDeleteEntity e id => a ← executors r !! e; a' ← executor_DeleteEntity id a; Some (set_executors (<[e := a']> (executors r)) r)
  | OpCreate => Some (create r)
  | OpDestroy => if 0 <? coroutines r then Some (destroy r) else None
  end.

Fixpoint run (r : t) (os : list op) : option t :=
  match os with [] => Some r | o :: os' => r' ← step r o; run r' os' end.

(** ** Labels *)
Lemma insert_label_union l kv : insert_label l kv = l ∪ {[kv.1 := kv.2]}.
Proof.
  unfold insert_label. apply map_eq. intros k. destruct kv as [k' v]. cbn [fst snd].
  destruct (l !! k') as [u|] eqn:E; rewrite lookup_union;
    (destruct (decide (k = k')) as [->|Hne];
     [rewrite ?E, lookup_singleton_eq, ?lookup_insert_eq; done
     |rewrite lookup_singleton_ne, ?lookup_insert_ne by done; by destruct (l !! k)]).
Qed.

(** The constant labels win, and of the others the first of each key. *)
Lemma insert_labels_union ls : ∀ l, foldl insert_label l ls = l ∪ list_to_map ls.
Proof.
  induction ls as [|[k v] ls IH]; intros l; cbn [foldl list_to_map foldr fst snd];
    [by rewrite (right_id_L ∅ (∪))|].
  rewrite IH, insert_label_union, <- (assoc_L (∪)). cbn [fst snd]. by rewrite <- insert_union_singleton_l.
Qed.

(** ** The counters of a group follow its slots *)
(** By how much a slot's counter is off its number of entities. *)
Definition offsets (g : group) : list (option Z) :=
  zip_with (λ s oc, (λ c, reading c - WorkGroup.entities_count s) <$> oc) (WorkGroup.slots (wg g)) (m_entities g).

Definition titles (g : group) : list (option (string * labels)) :=
  map (fmap (λ c, (c_name c, c_labels c))) (m_entities g).

Record ok (g : group) : Prop := {
  ok_wf : WorkGroup.wf (wg g);
  ok_counters : List.length (m_entities g) = List.length (WorkGroup.slots (wg g))
}.

(** What the calls of the program leave as it is. *)
Record steady (g g' : group) : Prop := {
  st_offsets : offsets g' = offsets g;
  st_titles : titles g' = titles g;
  st_workers : workers_count g' = workers_count g;
  st_slots : slots_count g' = slots_count g;
  st_cpus : WorkGroup.cpus_peer_slot (wg g') = WorkGroup.cpus_peer_slot (wg g);
  st_length : List.length (WorkGroup.slots (wg g')) = List.length (WorkGroup.slots (wg g))
}.

#[global] Instance steady_preorder : PreOrder steady.
Proof. split; [by intros g; split|]. intros g1 g2 g3 [] []. split; congruence. Qed.

Lemma zip_with_alter {A B C} (f : A → B → C) (h1 : A → A) (h2 : B → B) k l1 : ∀ l2,
  (∀ a b, l1 !! k = Some a → l2 !! k = Some b → f (h1 a) (h2 b) = f a b) →
  zip_with f (alter h1 k l1) (alter h2 k l2) = zip_with f l1 l2.
Proof.
  revert k. induction l1 as [|a l1 IH]; intros [|k] [|b l2] Hf; cbn; try done.
  - f_equal. by apply Hf.
  - f_equal. by apply IH.
Qed.

Lemma titles_tell x k g : titles (tell_slot x k g) = titles g.
Proof.
  unfold titles, tell_slot. cbn. apply list_eq. intros i. rewrite !list_lookup_fmap.
  destruct (decide (i = k)) as [->|Hne]; [|by rewrite list_lookup_alter_ne].
  rewrite list_lookup_alter_eq. by destruct (m_entities g !! k) as [[c|]|].
Qed.

(** The call and the change of the slot's number agree. *)
Lemma steady_entity x k (f : Z → Z) g m :
  (∀ s, WorkGroup.slots (wg g) !! k = Some s → f (WorkGroup.entities_count s) = WorkGroup.entities_count s + effect x) →
  steady g (set_wg (WorkGroup.set_entities m (WorkGroup.set_slots
    (alter (λ s, WorkGroup.mkSlot (WorkGroup.slot_cpus s) (f (WorkGroup.entities_count s))) k (WorkGroup.slots (wg g))) (wg g)))
    (tell_slot x k g)).
Proof.
  intros Hf. split; [|apply titles_tell|done..|cbn; by rewrite length_alter].
  unfold offsets. cbn. apply zip_with_alter. intros s [c|] Hs Hc; [|done]. cbn. f_equal.
  rewrite (Hf s Hs). unfold reading. cbn. lia.
Qed.

(** Without its counters a group does what [WorkGroup] does. *)
Lemma group_Post_erases clock x g :
  (λ r, (wg r.1, r.2)) <$> group_Post clock x g = WorkGroup.Post clock x (wg g).
Proof.
  assert (Htag : ∀ y, (λ r, (wg r.1, r.2)) <$> group_post_by_tag y g = WorkGroup.post_by_tag y (wg g)).
  { intros y. unfold group_post_by_tag, WorkGroup.post_by_tag. repeat (case_match; try done).
    by destruct (WorkGroup.min_index _). }
  unfold group_Post, WorkGroup.Post. repeat (case_match; try done).
Qed.

Lemma group_DeleteEntity_erases id g : wg <$> group_DeleteEntity id g = WorkGroup.DeleteEntity id (wg g).
Proof. unfold group_DeleteEntity, WorkGroup.DeleteEntity. by repeat (case_match; try done). Qed.

(** A slot's number of entities is far from the end of [int]. *)
Lemma entities_bound w k s : WorkGroup.wf w → WorkGroup.slots w !! k = Some s → 0 <= WorkGroup.entities_count s <= 2 ^ 16.
Proof.
  intros Hw Hs. rewrite (WorkGroup.wf_count _ Hw k s Hs). split; [lia|]. apply WorkGroup.load_of_bound.
  intros e i He. by apply (WorkGroup.wf_keys _ Hw e i).
Qed.

Lemma group_post_by_tag_steady x g g' tg : ok g → group_post_by_tag x g = Some (g', tg) → steady g g'.
Proof.
  intros [Hw _] E. unfold group_post_by_tag in E. repeat (case_match; simplify_eq; try done).
  destruct (WorkGroup.min_index _) as [k|]; cbn in E; simplify_eq.
  apply (steady_entity Increment k ExecutorSlot.add_entity). intros s Hs.
  pose proof (entities_bound _ _ _ Hw Hs). unfold ExecutorSlot.add_entity. cbn. apply swrap_small; lia.
Qed.

Lemma steady_ok g g' : ok g → WorkGroup.wf (wg g') → steady g g' → ok g'.
Proof.
  intros [_ Hl] Hw [_ Ht _ _ _ Hs]. split; [done|]. rewrite Hs, <- Hl.
  apply (f_equal List.length) in Ht. unfold titles in Ht. by rewrite !length_map in Ht.
Qed.

Lemma group_Post_ok clock x g : ok g → ∃ g' tg, group_Post clock x g = Some (g', tg) ∧ ok g' ∧ steady g g'.
Proof.
  intros Hok. destruct (WorkGroup.Post_ok clock x (wg g) (ok_wf _ Hok)) as (w & tg & E & Hw & _).
  rewrite <- group_Post_erases in E. apply fmap_Some in E as ([g' tg'] & E & [= -> ->]). exists g', tg'.
  split; [done|]. cbn in Hw. enough (steady g g') by (split; [by eapply steady_ok|done]).
  unfold group_Post in E. repeat (case_match; simplify_eq; try done); by eapply group_post_by_tag_steady.
Qed.

Lemma group_DeleteEntity_ok id g : ok g → ∃ g', group_DeleteEntity id g = Some g' ∧ ok g' ∧ steady g g'.
Proof.
  intros Hok. destruct (WorkGroup.DeleteEntity_ok id (wg g) (ok_wf _ Hok)) as (w & E & Hw & _).
  rewrite <- group_DeleteEntity_erases in E. apply fmap_Some in E as (g' & E & ->). exists g'.
  split; [done|]. enough (steady g g') by (split; [by eapply steady_ok|done]).
  unfold group_DeleteEntity in E. destruct (WorkGroup.entities_peer_slot (wg g) !! id) as [i|] eqn:He; [|by simplify_eq].
  destruct (WorkGroup.wf_keys _ (ok_wf _ Hok) id i He) as [_ Hi].
  case_match; [|done]. simplify_eq. apply (steady_entity Decrement (Z.to_nat i) ExecutorSlot.delete_entity).
  intros s Hs. pose proof (WorkGroup.wf_count _ (ok_wf _ Hok) _ s Hs) as Hc.
  rewrite (WorkGroup.load_of_delete _ id i), decide_True in Hc by (done || lia).
  unfold ExecutorSlot.delete_entity. cbn. ztest; lia.
Qed.

(** ** The counters of the runtime *)
Definition group_at (es : list executor) (e k : nat) : option group := a ← es !! e; e_groups a !! k.

Definition ok_all (es : list executor) : Prop := ∀ e k g, group_at es e k = Some g → ok g.

Record follows (r r' : t) : Prop := {
  fo_length : List.length (executors r') = List.length (executors r);
  fo_groups : ∀ e k g, group_at (executors r) e k = Some g →
    ∃ g', group_at (executors r') e k = Some g' ∧ ok g' ∧ steady g g';
  fo_new : ∀ e k g', group_at (executors r') e k = Some g' → is_Some (group_at (executors r) e k);
  fo_coroutines : (λ c, reading c - coroutines r') <$> coroutine_counter r' = (λ c, reading c - coroutines r) <$> coroutine_counter r;
  fo_name : c_name <$> coroutine_counter r' = c_name <$> coroutine_counter r
}.

(** The coroutine objects there are, and the groups the calls name. *)
Fixpoint allowed (es : list executor) (n : Z) (os : list op) : bool :=
  match os with
  | [] => true
  | OpPost e k _ _ :: os' => bool_decide (is_Some (group_at es e k)) && allowed es n os'
  | OpDeleteEntity e _ :: os' => bool_decide (is_Some (es !! e)) && allowed es n os'
  | OpCreate :: os' => allowed es (n + 1) os'
  | OpDestroy :: os' => (0 <? n) && allowed es (n - 1) os'
  end.

Definition live_after (n : Z) (o : op) : Z :=
  match o with OpCreate => n + 1 | OpDestroy => n - 1 | _ => n end.

Lemma follows_refl r : ok_all (executors r) → follows r r.
Proof. intros H. split; [done| |eauto|done|done]. intros e k g Hg. exists g. split; [done|]. split; [by eapply H|done]. Qed.

Lemma follows_trans r1 r2 r3 : follows r1 r2 → follows r2 r3 → follows r1 r3.
Proof.
  intros [L1 G1 N1 C1 T1] [L2 G2 N2 C2 T2]. split; [congruence| | |congruence|congruence].
  - intros e k g Hg. destruct (G1 e k g Hg) as (g1 & H1 & _ & S1). destruct (G2 e k g1 H1) as (g2 & H2 & O2 & S2).
    exists g2. split; [done|]. split; [done|]. by etrans.
  - intros e k g Hg. destruct (N2 e k g Hg) as [g1 Hg1]. by apply (N1 e k g1).
Qed.

Lemma follows_insert r e a a' : ok_all (executors r) → executors r !! e = Some a →
  List.length (e_groups a') = List.length (e_groups a) →
  (∀ k g, e_groups a !! k = Some g → ∃ g', e_groups a' !! k = Some g' ∧ ok g' ∧ steady g g') →
  follows r (set_executors (<[e := a']> (executors r)) r).
Proof.
  intros Hok Ha Hl Hg. pose proof (lookup_lt_Some _ _ _ Ha) as Hlt.
  split; cbn; [by rewrite length_insert| | |done|done]; unfold group_at; intros e' k g Hk;
    (destruct (decide (e' = e)) as [->|Hne];
     [rewrite ?list_lookup_insert_eq, ?Ha in * by done; cbn in *
     |rewrite ?list_lookup_insert_ne in * by done]).
  - by apply Hg.
  - exists g. split; [done|]. split; [by apply (Hok e' k)|done].
  - apply lookup_lt_is_Some. rewrite <- Hl. by eapply lookup_lt_Some.
  - by exists g.
Qed.

Lemma on_groups_ok f : (∀ g, ok g → ∃ g', f g = Some g' ∧ ok g' ∧ steady g g') →
  ∀ gs, (∀ k g, gs !! k = Some g → ok g) → ∃ gs', on_groups f gs = Some gs' ∧ List.length gs' = List.length gs ∧
    ∀ k g, gs !! k = Some g → ∃ g', gs' !! k = Some g' ∧ ok g' ∧ steady g g'.
Proof.
  intros Hf gs. induction gs as [|g gs IH]; intros Hok; [by exists []|].
  destruct (Hf g) as (g' & E & Hg'); [by apply (Hok 0%nat)|]. destruct IH as (gs' & E' & Hl & Hgs).
  { intros k. apply (Hok (S k)). }
  exists (g' :: gs'). cbn [on_groups]. rewrite E, E'. cbn. split; [done|].
  split; [by rewrite Hl|]. intros [|k] g0 H0; cbn in H0; simplify_eq; [eauto|by apply Hgs].
Qed.

Lemma step_follows r o os : ok_all (executors r) → allowed (executors r) (coroutines r) (o :: os) = true →
  ∃ r', step r o = Some r' ∧ follows r r' ∧ coroutines r' = live_after (coroutines r) o.
Proof.
  intros Hok Ha. pose proof (follows_refl r Hok) as [R1 R2 R3 _ _]. destruct o as [e k clock x|e id| |]; cbn in Ha |- *.
  - apply andb_true_iff in Ha as [[g Hg]%bool_decide_eq_true _]. pose proof (Hok e k g Hg) as Hgok. unfold group_at in Hg.
    destruct (executors r !! e) as [a|] eqn:Ea; [|done]. cbn in Hg |- *.
    destruct (group_Post_ok clock x g Hgok) as (g' & tg & E & Hg' & Hst).
    unfold executor_Post. rewrite Hg. cbn. rewrite E. cbn. eexists. split; [done|]. split; [|done].
    apply (follows_insert r e a); [done|done|cbn; by rewrite length_insert|]. cbn. intros k' g0 H0.
    destruct (decide (k' = k)) as [->|Hne].
    + simplify_eq. exists g'. rewrite list_lookup_insert_eq by (by eapply lookup_lt_Some). done.
    + exists g0. rewrite list_lookup_insert_ne by done. split; [done|]. split; [|done].
      apply (Hok e k'). unfold group_at. by rewrite Ea.
  - apply andb_true_iff in Ha as [[a Ea]%bool_decide_eq_true _]. rewrite Ea. cbn. unfold executor_DeleteEntity.
    destruct (on_groups_ok (group_DeleteEntity id) (group_DeleteEntity_ok id) (e_groups a)) as (gs & E & Hl & Hgs).
    { intros k g Hg. apply (Hok e k). unfold group_at. by rewrite Ea. }
    rewrite E. cbn. eexists. split; [done|]. split; [|done]. by apply (follows_insert r e a).
  - eexists. split; [done|]. split; [|done].
    split; [done..| |]; cbn; destruct (coroutine_counter r); cbn; [f_equal; unfold reading; cbn; lia|done..].
  - apply andb_true_iff in Ha as [Hn _]. rewrite Hn. eexists. split; [done|]. split; [|done].
    split; [done..| |]; cbn; destruct (coroutine_counter r); cbn; [f_equal; unfold reading; cbn; lia|done..].
Qed.

Lemma allowed_follows r r' os : follows r r' → ∀ n, allowed (executors r') n os = allowed (executors r) n os.
Proof.
  intros [Hl Hg Hn _ _]. induction os as [|[e k clock x|e id| |] os IH]; intros n; cbn; rewrite ?IH; try done.
  - f_equal. apply bool_decide_ext. split; intros [g H]; [by apply (Hn e k g)|].
    destruct (Hg e k g H) as (g' & H' & _). eauto.
  - f_equal. apply bool_decide_ext. rewrite !lookup_lt_is_Some. lia.
Qed.

Lemma follows_ok r r' : follows r r' → ok_all (executors r').
Proof.
  intros [_ Hg Hn _ _] e k g H. destruct (Hn e k g H) as [g0 H0]. destruct (Hg e k g0 H0) as (g' & H' & Hok & _).
  by simplify_eq.
Qed.

Lemma run_follows os : ∀ r, ok_all (executors r) → allowed (executors r) (coroutines r) os = true →
  ∃ r', run r os = Some r' ∧ follows r r'.
Proof.
  induction os as [|o os IH]; intros r Hok Ha; [exists r; split; [done|by apply follows_refl]|].
  destruct (step_follows r o os Hok Ha) as (r1 & E1 & F1 & C1). cbn [run]. rewrite E1. cbn.
  destruct (IH r1) as (r2 & E2 & F2).
  - by eapply follows_ok.
  - rewrite (allowed_follows r r1), C1 by done. destruct o; cbn in Ha |- *; by (apply andb_true_iff in Ha as [_ ?] || idtac).
  - exists r2. split; [done|]. by eapply follows_trans.
Qed.

Lemma group_at_CreateMetricer ls r e k a g : executors r !! e = Some a → e_groups a !! k = Some g →
  group_at (executors (CreateMetricer ls r)) e k = Some (group_MakeMetrics (e_name a) (Some ls) g).
Proof.
  intros Ha Hg. unfold group_at. cbn. rewrite list_lookup_fmap, Ha. cbn. by rewrite list_lookup_fmap, Hg.
Qed.

Lemma ok_MakeMetrics n ls g : ok g → ok (group_MakeMetrics n (Some ls) g).
Proof. intros [Hw _]. split; [done|]. cbn. by rewrite length_map, length_seq. Qed.

Lemma ok_CreateMetricer ls r : ok_all (executors r) → ok_all (executors (CreateMetricer ls r)).
Proof.
  intros Hok e k g. unfold group_at. cbn. rewrite list_lookup_fmap. destruct (executors r !! e) as [a|] eqn:Ea; [|done].
  cbn. rewrite list_lookup_fmap. destruct (e_groups a !! k) as [g0|] eqn:Eg; [|done]. cbn. intros [= <-].
  apply ok_MakeMetrics, (Hok e k). unfold group_at. by rewrite Ea.
Qed.

Lemma allowed_CreateMetricer ls r os : ∀ n, allowed (executors (CreateMetricer ls r)) n os = allowed (executors r) n os.
Proof.
  induction os as [|[e k clock x|e id| |] os IH]; intros n; cbn [allowed]; rewrite ?IH; try done; f_equal; apply bool_decide_ext.
  - unfold group_at. cbn. rewrite list_lookup_fmap. destruct (executors r !! e) as [a|]; [|done]. cbn.
    by rewrite list_lookup_fmap, fmap_is_Some.
  - cbn. by rewrite list_lookup_fmap, fmap_is_Some.
Qed.

(** The counter of slot [i] after steps from a new one. *)
Lemma slot_counter_follows n ls g g' i s : ok g → steady (group_MakeMetrics n (Some ls) g) g' →
  WorkGroup.slots (wg g) !! i = Some s →
  ∃ s' c, WorkGroup.slots (wg g') !! i = Some s' ∧ m_entities g' !! i = Some (Some c) ∧
    reading c = WorkGroup.entities_count s' - WorkGroup.entities_count s ∧
    c_name c = "ar_entities_count"%string ∧ c_labels c = c_labels (slot_counter ls n (WorkGroup.name (wg g)) i).
Proof.
  intros Hok [Ho Ht _ _ _ Hl] Hs. pose proof (lookup_lt_Some _ _ _ Hs) as Hlt.
  assert (Hm : m_entities (group_MakeMetrics n (Some ls) g) !! i = Some (Some (slot_counter ls n (WorkGroup.name (wg g)) i))).
  { cbn. rewrite list_lookup_fmap, lookup_seq_lt by done. done. }
  assert (Hti : titles g' !! i = Some (Some ("ar_entities_count"%string, c_labels (slot_counter ls n (WorkGroup.name (wg g)) i)))).
  { rewrite Ht. unfold titles. rewrite list_lookup_fmap, Hm. done. }
  unfold titles in Hti. rewrite list_lookup_fmap in Hti. destruct (m_entities g' !! i) as [[c|]|] eqn:Ec; [|done..].
  cbn in Hti. injection Hti as Hn Hlab. cbn in Hl.
  destruct (lookup_lt_is_Some_2 (WorkGroup.slots (wg g')) i) as [s' Hs']; [lia|].
  exists s', c. split; [done|]. split; [done|]. split; [|by rewrite Hn, Hlab].
  apply (f_equal (lookup i)) in Ho. unfold offsets in Ho.
  rewrite !lookup_zip_with, Hs', Ec, Hm in Ho. cbn [wg group_MakeMetrics] in Ho. rewrite Hs in Ho. cbn in Ho.
  change (reading (slot_counter ls n (WorkGroup.name (wg g)) i)) with 0 in Ho. injection Ho as Ho. lia.
Qed.

(** A pointer to a counter of this name with this reading. *)
Definition shows (name : string) (v : Z) (c : option counter) : Prop :=
  ∃ c', c = Some c' ∧ c_name c' = name ∧ reading c' = v.

(** C32: The counters follow the runtime.  After [CreateMetricer], whatever tasks are posted to the
    groups, entities deleted and coroutines created and destroyed, every call returns, the group
    of each executor reports its slots and the processors it has workers on, and the counter of a
    slot, labelled with its executor, group and number unless a constant label has that key,
    shows how the number of entities of the slot has changed since the metricer was created, where
    that number is still the number of entities the group sends to the slot; the counter of
    coroutines shows how their number has changed. *)
Theorem metrics_follow (ls : labels) (r0 : t) (os : list op) :
  ok_all (executors r0) → allowed (executors r0) (coroutines r0) os = true →
  ∃ r, run (CreateMetricer ls r0) os = Some r ∧
    (∀ e k a0 g0, executors r0 !! e = Some a0 → e_groups a0 !! k = Some g0 →
      ∃ g, group_at (executors r) e k = Some g ∧
        shows "ar_workers_count" (size (WorkGroup.cpus_peer_slot (wg g))) (workers_count g) ∧
        shows "ar_slots_count" (List.length (WorkGroup.slots (wg g))) (slots_count g) ∧
        ∀ (i : nat) s0, WorkGroup.slots (wg g0) !! i = Some s0 →
          ∃ s c, WorkGroup.slots (wg g) !! i = Some s ∧ m_entities g !! i = Some (Some c) ∧
            reading c = WorkGroup.entities_count s - WorkGroup.entities_count s0 ∧
            WorkGroup.entities_count s = WorkGroup.load_of (WorkGroup.entities_peer_slot (wg g)) i ∧
            c_name c = "ar_entities_count"%string ∧
            c_labels c = ls ∪ list_to_map [("executor", e_name a0); ("group", WorkGroup.name (wg g0));
                                           ("slot", pretty (Z.of_nat i))]%string) ∧
    shows "ar_coroutines_count" (coroutines r - coroutines r0) (coroutine_counter r).
Proof.
  intros Hok Ha. destruct (run_follows os (CreateMetricer ls r0)) as (r & E & [_ Hg _ Hc Hn]).
  { by apply ok_CreateMetricer. }
  { by rewrite allowed_CreateMetricer. }
  exists r. split; [done|]. split.
  - intros e k a0 g0 He Hk. assert (Hok0 : ok g0) by (apply (Hok e k); unfold group_at; by rewrite He).
    destruct (Hg e k _ (group_at_CreateMetricer ls r0 e k a0 g0 He Hk)) as (g & Hgat & Hgok & Hst).
    exists g. split; [done|]. destruct (Hst) as [_ _ Hw Hs Hcpu Hlen]. cbn in Hw, Hs, Hcpu, Hlen.
    split; [rewrite Hw, Hcpu; eexists; split; [done|]; split; [done|unfold reading; cbn; lia]|].
    split; [rewrite Hs, Hlen; eexists; split; [done|]; split; [done|unfold reading; cbn; lia]|].
    intros i s0 Hs0. destruct (slot_counter_follows _ ls g0 g i s0 Hok0 Hst Hs0) as (s & c & H1 & H2 & H3 & H4 & H5).
    exists s, c. split; [done|]. split; [done|]. split; [done|]. split; [by apply (WorkGroup.wf_count _ (ok_wf _ Hgok))|].
    split; [done|]. rewrite H5. apply insert_labels_union.
  - cbn in Hc, Hn. destruct (coroutine_counter r) as [c|]; [|done]. cbn in Hc, Hn. injection Hc as Hc. injection Hn as Hn.
    exists c. split; [done|]. split; [done|].
    change (reading c - coroutines r = 0 - coroutines r0) in Hc. lia.
Qed.

End Metrics.
Import Metrics.

(** ** A runtime with one executor *)
Module MetricsExample.

(** Two slots of two workers on four processors. *)
Definition two_slots : WorkGroup.t :=
  match WorkGroup.make 4 0 (plain_option "main" 2) four_cpus [0; 0; 0; 0] with
  | Some (g, _) => g
  | None => WorkGroup.mk 0 "" ∅ ∅ []
  end.

Definition start : Metrics.t := mk [mkExecutor "CPUExecutor_0" None [plain_group two_slots]] None None 0.

Lemma start_ok : ok_all (executors start).
Proof.
  intros [|e] k g; [|done]. unfold group_at. cbn. intros Hg.
  destruct k as [|k]; [|done]. cbn in Hg. injection Hg as <-.
  split; [|cbn; by rewrite length_replicate].
  destruct (WorkGroup.make_complete 4 0 (plain_option "main" 2) four_cpus [0; 0; 0; 0] 2) as (g & wg' & E & _ & _ & _ & Hw);
    [done|done| |vm_compute; reflexivity|].
  { intros x y [-> _]%(elem_of_replicate 4) [-> _]%(elem_of_replicate 4). lia. }
  change (WorkGroup.wf two_slots). unfold two_slots. by rewrite E.
Qed.

(** A task of entity [e]. *)
Definition tagged (e : Z) : task :=
  set_execution_state (mkES (Pack 0 e) INVALID_OBJECT_ID INVALID_OBJECT_ID None) (new_task 0 0).

Definition day : list op :=
  [OpPost 0 0 0 (tagged 1); OpPost 0 0 0 (tagged 2); OpPost 0 0 0 (tagged 3); OpCreate; OpCreate; OpDestroy;
   OpDeleteEntity 0 2].

(** The processors, the slots and the entities of slot 0 of the group, and the coroutines. *)
Definition look (r : Metrics.t) : option (nat * nat * Z * Z) :=
  g ← group_at (executors r) 0 0; s ← WorkGroup.slots (wg g) !! 0%nat;
  Some (size (WorkGroup.cpus_peer_slot (wg g)), List.length (WorkGroup.slots (wg g)), WorkGroup.entities_count s, coroutines r).

Lemma metrics_follow_witness :
  ∃ r g s c, run (CreateMetricer {["job" := "server"]} start) day = Some r ∧ group_at (executors r) 0 0 = Some g ∧
    shows "ar_workers_count" 4 (workers_count g) ∧ shows "ar_slots_count" 2 (slots_count g) ∧
    m_entities g !! 0%nat = Some (Some c) ∧ WorkGroup.slots (wg g) !! 0%nat = Some s ∧
    reading c = 2 ∧ c_labels c !! "slot"%string = Some "0"%string ∧
    shows "ar_coroutines_count" 1 (coroutine_counter r).
Proof.
  destruct (metrics_follow {["job" := "server"]} start day start_ok ltac:(vm_compute; reflexivity))
    as (r & E & Hg & Hc).
  destruct (Hg 0%nat 0%nat _ _ eq_refl eq_refl) as (g & Hgat & Hw & Hs & Hi).
  destruct (Hi 0%nat (WorkGroup.mkSlot [mkCPU 0 0; mkCPU 1 0] 0)) as (s & c & H1 & H2 & H3 & H4 & H5 & H6);
    [vm_compute; reflexivity|].
  assert (F : (run (CreateMetricer {["job" := "server"]} start) day ≫= look) = Some (4%nat, 2%nat, 2, 1))
    by (vm_compute; reflexivity).
  rewrite E in F. cbn [mbind option_bind] in F. unfold look in F. rewrite Hgat in F. cbn [mbind option_bind] in F.
  rewrite H1 in F. cbn [mbind option_bind] in F. injection F as F1 F2 F3 F4. rewrite F1 in Hw. rewrite F2 in Hs.
  rewrite F4 in Hc. rewrite F3 in H3. exists r, g, s, c.
  split; [exact E|]. split; [exact Hgat|]. split; [exact Hw|]. split; [exact Hs|]. split; [exact H2|].
  split; [exact H1|]. split; [exact H3|]. split; [rewrite H6; vm_compute; reflexivity|exact Hc].
Defined.

(** Entities from before the metricer are not in the counters, which fall below zero. *)
Example late_metricer_below_zero :
  ∃ r0 r c, run start [OpPost 0 0 0 (tagged 1); OpCreate] = Some r0 ∧
    run (CreateMetricer ∅ r0) [OpDeleteEntity 0 1; OpDestroy] = Some r ∧
    coroutine_counter r = Some c ∧ reading c = -1.
Proof.
  eexists _, _, _. split; [vm_compute; reflexivity|]. split; [vm_compute; reflexivity|]. split; vm_compute; reflexivity.
Qed.

(** One slot with four workers on one processor counts one worker. *)
Example workers_counted_by_processor :
  ∃ w l c, WorkGroup.make 4 0 (plain_option "main" 4) [mkCPU 0 0] [0] = Some (w, l) ∧
    List.length (WorkGroup.slots w ≫= WorkGroup.slot_cpus) = 4%nat ∧
    workers_count (group_MakeMetrics "CPUExecutor_0" (Some ∅) (plain_group w)) = Some c ∧ reading c = 1.
Proof.
  eexists _, _, _. split; [vm_compute; reflexivity|]. split; [vm_compute; reflexivity|]. split; vm_compute; reflexivity.
Qed.

(** A constant label hides the one that tells the slots apart. *)
Example constant_label_hides_slot :
  slot_counter {["slot" := "all"]} "CPUExecutor_0" "main" 0 = slot_counter {["slot" := "all"]} "CPUExecutor_0" "main" 1.
Proof. vm_compute. reflexivity. Qed.

End MetricsExample.
