(* ===== verification/Memory.v ===== *)
(** * The memory of coroutines

    The stacks of include/ar/stack.hpp and include/ar/pooled_stack.hpp, [Allocator] and
    [make_unique_ptr] of include/ar/allocators.hpp, and the life of a coroutine object
    (include/ar/coroutine.hpp, src/coroutine.cpp): its block, its stack and its count.  A
    coroutine with a resource takes block and stack from the pool, one without from the heap of
    the C library; both memories are instances of one interface, and the coroutines are proved
    against it. *)
From S2P Require Import Prelude.
From S2P Require Import Task.
From S2P Require Import Promise.
From S2P Require Import ResourcePool.
From S2P Require Import Coroutine.
From S2P Require Import Metrics.
Import ResourcePool.

(** [boost::context::stack_context]. *)
Record stack_context := mkStack { s_size : Z; sp : Z }.

(** The bytes of a stack, below its pointer. *)
Definition stack_bytes (c : stack_context) : Z * Z := (sp c - s_size c, s_size c).

(** Address and size of two blocks without a common byte. *)
Definition apart (b c : Z * Z) : Prop := ∀ x, ¬ (b.1 <= x < b.1 + b.2 ∧ c.1 <= x < c.1 + c.2).

(** ** The resource of an allocator *)
(** The constructors of [Allocator]: the default resource, that of the coroutine if it has one, or
    the one given; a copy has the resource of the other. *)
Inductive allocator_source {X : Type} :=
| FromNothing
| FromHandler (c : @Coroutine.t X)
| FromResource (res : nat)
| FromOther (res : nat).
Arguments allocator_source : clear implicits.

Definition Allocator_of_handler {X} (GetDefaultResource : nat) (c : @Coroutine.t X) : nat :=
  match Coroutine.resource c with Some res => res | None => GetDefaultResource end.

Definition Allocator_resource {X} (GetDefaultResource : nat) (a : allocator_source X) : nat :=
  match a with
  | FromNothing => GetDefaultResource
  | FromHandler c => Allocator_of_handler GetDefaultResource c
  | FromResource res => res
  | FromOther res => res
  end.

(** [operator ==]: what one allocates the other may free. *)
Definition Allocator_eq {X Y} (d : nat) (a : allocator_source X) (b : allocator_source Y) : bool :=
  (Allocator_resource d a =? Allocator_resource d b)%nat.

(** ** What a memory gives to coroutines *)
Class CoroutineHeap (M : Type) := {
  block_take : Z → M → result (Z * M);
  block_give : Z → Z → M → result M;
  stack_take : Z → M → result (stack_context * M);
  stack_give : Z → stack_context → M → result M       (* the size is that of the allocator object *)
}.

Class CoroutineHeapLaws (M : Type) `{CoroutineHeap M} := {
  holds : M → list (Z * Z) → Prop;                    (* the blocks handed out *)
  fits : Z → Prop;                                    (* the sizes the laws are for *)
  holds_perm m l l' : l ≡ₚ l' → holds m l → holds m l';
  holds_apart m b c l : holds m (b :: c :: l) → apart b c;
  block_take_holds m l n : holds m l → fits n →
    match block_take n m with Ok (a, m') => holds m' ((a, n) :: l) | BadAlloc => True | Undefined => False end;
  block_give_holds m l a n : holds m ((a, n) :: l) → fits n → ∃ m', block_give a n m = Ok m' ∧ holds m' l;
  stack_take_holds m l n : holds m l → fits n →
    match stack_take n m with
    | Ok (c, m') => s_size c = n ∧ holds m' (stack_bytes c :: l)
    | BadAlloc => True
    | Undefined => False
    end;
  stack_give_holds m l c : holds m (stack_bytes c :: l) → fits (s_size c) →
    ∃ m', stack_give (s_size c) c m = Ok m' ∧ holds m' l
}.

(** ** Stacks and blocks from a pool *)
Section pooled.
Context {P : Type} `{BoostPoolLaws P}.

(** [pooled_fixedsize_stack]. *)
Definition pooled_stack_allocate (size_ : Z) (r : t P) : result (stack_context * t P) :=
  match allocate size_ r with
  | Ok (vp, r') => if vp =? 0 then BadAlloc else Ok (mkStack size_ (vp + size_), r')
  | BadAlloc => BadAlloc
  | Undefined => Undefined
  end.

Definition pooled_stack_deallocate (size_ : Z) (sctx : stack_context) (r : t P) : result (t P) :=
  deallocate (sp sctx - s_size sctx) size_ r.

(** [Allocator<T>] for an object of [sz] bytes: [construct_at], whose constructor may throw, and
    [destroy_at].  [make_unique_ptr] and its deleter make the same calls. *)
Inductive construction := Constructed (p : Z) | ConstructorThrew.

Definition construct_at (sz : Z) (throws : bool) (r : t P) : result (construction * t P) :=
  match Allocator_allocate sz 1 r with
  | Ok (p, r') => Ok (if throws then ConstructorThrew else Constructed p, r')
  | BadAlloc => BadAlloc
  | Undefined => Undefined
  end.

Definition destroy_at (sz p : Z) (r : t P) : result (t P) := Allocator_deallocate sz p 1 r.

Definition make_unique_ptr (sz : Z) (throws : bool) (r : t P) : result (construction * t P) := construct_at sz throws r.

Definition deleter (sz p : Z) (r : t P) : result (t P) := Allocator_deallocate sz p 1 r.

(** [std::allocate_shared]: one block for the object and its counts, which take [extra] bytes;
    the library gives it back when the constructor throws, and after the last owner. *)
Definition allocate_shared (sz extra : Z) (throws : bool) (r : t P) : result (construction * t P) :=
  match Allocator_allocate (sz + extra) 1 r with
  | Ok (p, r') =>
      if throws then
        match Allocator_deallocate (sz + extra) p 1 r' with
        | Ok r'' => Ok (ConstructorThrew, r'')
        | BadAlloc => BadAlloc
        | Undefined => Undefined
        end
      else Ok (Constructed p, r')
  | BadAlloc => BadAlloc
  | Undefined => Undefined
  end.

Definition release_shared (sz extra p : Z) (r : t P) : result (t P) := Allocator_deallocate (sz + extra) p 1 r.

(** A call on the resource an allocator has got, among the pools of the program. *)
Definition on_resource {X A} (d : nat) (a : allocator_source X) (f : t P → result (A * t P)) (ps : gmap nat (t P)) :
    result (A * gmap nat (t P)) :=
  match ps !! Allocator_resource d a with
  | Some r =>
      match f r with
      | Ok (x, r') => Ok (x, <[Allocator_resource d a := r']> ps)
      | BadAlloc => BadAlloc
      | Undefined => Undefined
      end
  | None => Undefined
  end.

(** The forms of [make_shared_ptr] and [make_unique_ptr] that take a handler, a resource or neither. *)
Definition make_shared_ptr {X} (d : nat) (a : allocator_source X) (sz extra : Z) (throws : bool) :=
  on_resource d a (allocate_shared sz extra throws).

Definition make_unique_ptr_from {X} (d : nat) (a : allocator_source X) (sz : Z) (throws : bool) :=
  on_resource d a (make_unique_ptr sz throws).

#[export] Instance pool_heap : CoroutineHeap (t P) := {|
  block_take n r := Allocator_allocate n 1 r;
  block_give a n r := Allocator_deallocate n a 1 r;
  stack_take := pooled_stack_allocate;
  stack_give := pooled_stack_deallocate
|}.

Definition pool_holds (r : t P) (l : list (Z * Z)) : Prop := ∃ l0, inv (r, l0) ∧ l0 ≡ₚ l.

Definition pool_fits (n : Z) : Prop := served n ∧ n < 2 ^ 64.

Lemma pool_allocate_holds r l n : pool_holds r l → served n →
  match allocate n r with Ok (a, r') => a ≠ 0 ∧ pool_holds r' ((a, n) :: l) | BadAlloc => True | Undefined => False end.
Proof.
  intros (l0 & Hi & Hp) Hs. destruct (allocate n r) as [[a r']| |] eqn:E; [|done|].
  - split; [|exists (l0 ++ [(a, n)]); split; [by eapply inv_allocate|]].
    2: { rewrite <- Hp. symmetry. apply Permutation_cons_append. }
    unfold allocate in E. repeat (case_match; simplify_eq).
    eapply ordered_malloc_nonnull; [|done]. apply (inv_pool _ Hi).
  - unfold allocate in E. destruct (inv_pool _ Hi) as (_ & _ & Hc). cbn in Hc. rewrite Hc, (proj2 Hs) in E. by repeat case_match.
Qed.

Lemma pool_deallocate_holds r l a n : pool_holds r ((a, n) :: l) → served n →
  ∃ r', deallocate a n r = Ok r' ∧ pool_holds r' l.
Proof.
  intros (l0 & Hi & Hp) Hs. assert (Hin : (a, n) ∈ l0) by (rewrite Hp; left).
  apply list_elem_of_lookup_1 in Hin as [i Hl].
  destruct (deallocate a n r) as [r'| |] eqn:E.
  - exists r'. split; [done|]. exists (delete i l0). split; [by eapply inv_deallocate|].
    apply (Permutation_cons_inv (a := (a, n))). rewrite <- Hp. symmetry. by apply delete_Permutation.
  - unfold deallocate in E. by repeat case_match.
  - unfold deallocate in E. destruct (inv_pool _ Hi) as (_ & _ & Hc). cbn in Hc. by rewrite Hc, (proj2 Hs) in E.
Qed.

(** One object of [n] bytes. *)
Lemma one_object n : pool_fits n → u64 (1 * n) = n.
Proof. intros [[Hpos _] Hn]. rewrite Z.mul_1_l. apply uwrap_small. lia. Qed.

#[export] Instance pool_heap_laws : CoroutineHeapLaws (t P).
Proof.
  refine {| holds := pool_holds; fits := pool_fits |}.
  - intros m l l' Hp (l0 & Hi & Hl). exists l0. split; [done|]. by rewrite Hl.
  - intros m b c l (l0 & Hi & Hp) x. destruct (Permutation_cons_inv_r _ _ _ Hp) as (k1 & k2 & -> & Hp2).
    destruct (list_elem_of_lookup_1 (k1 ++ k2) c) as [j Hj]; [rewrite <- Hp2; left|].
    destruct (lookup_app_Some k1 k2 j c) as [[Hj1|[Hlen Hj2]] _]; [done| |].
    + apply (inv_disjoint m _ (List.length k1) j b c x Hi); [by apply list_lookup_middle|by apply lookup_app_l_Some|].
      apply lookup_lt_Some in Hj1. lia.
    + apply (inv_disjoint m _ (List.length k1) (S j) b c x Hi); [by apply list_lookup_middle| |lia].
      rewrite lookup_app_r by lia. by replace (S j - List.length k1)%nat with (S (j - List.length k1)) by lia.
  - intros m l n Hh Hf. cbn. unfold Allocator_allocate. rewrite one_object by done.
    pose proof (pool_allocate_holds m l n Hh (proj1 Hf)) as X. destruct (allocate n m) as [[a m']| |]; [|done..]. by destruct X.
  - intros m l a n Hh Hf. cbn. unfold Allocator_deallocate. rewrite one_object by done.
    by apply pool_deallocate_holds, Hf.
  - intros m l n Hh Hf. cbn. unfold pooled_stack_allocate.
    pose proof (pool_allocate_holds m l n Hh (proj1 Hf)) as X. destruct (allocate n m) as [[a m']| |]; [|done..].
    destruct X as [Ha X]. ztest; [done|]. split; [done|]. unfold stack_bytes. cbn. by replace (a + n - n) with a by lia.
  - intros m l c Hh Hf. cbn. unfold pooled_stack_deallocate. by apply pool_deallocate_holds, Hf.
Defined.

(** What [construct_at] takes [destroy_at] gives back. *)
Lemma construct_destroy sz r l : pool_holds r l → pool_fits sz →
  match construct_at sz false r with
  | Ok (Constructed p, r') => ∃ r'', destroy_at sz p r' = Ok r'' ∧ pool_holds r'' l
  | Ok (ConstructorThrew, _) | Undefined => False
  | BadAlloc => True
  end.
Proof.
  intros Hh Hf. unfold construct_at, destroy_at, Allocator_allocate, Allocator_deallocate. rewrite one_object by done.
  pose proof (pool_allocate_holds r l sz Hh (proj1 Hf)) as X. destruct (allocate sz r) as [[a r']| |]; [|done..].
  destruct X as [_ X]. by apply pool_deallocate_holds, Hf.
Qed.

(** A shared object takes one block and gives it back, also when its constructor throws; through
    an allocator that compares equal the same pool is used, and no other pool changes. *)
Lemma make_shared_ptr_balanced {X Y} d (a : allocator_source X) (b : allocator_source Y) sz extra throws ps r l :
  ps !! Allocator_resource d a = Some r → pool_holds r l → pool_fits (sz + extra) → Allocator_eq d a b = true →
  match make_shared_ptr d a sz extra throws ps with
  | Ok (c, ps') =>
      (∀ k, k ≠ Allocator_resource d a → ps' !! k = ps !! k) ∧
      ∃ r', ps' !! Allocator_resource d b = Some r' ∧
        match c with
        | Constructed p => throws = false ∧ pool_holds r' ((p, sz + extra) :: l) ∧
            ∃ r'', release_shared sz extra p r' = Ok r'' ∧ pool_holds r'' l
        | ConstructorThrew => throws = true ∧ pool_holds r' l
        end
  | BadAlloc => True
  | Undefined => False
  end.
Proof.
  intros Hr Hh Hf Heq. apply Nat.eqb_eq in Heq. unfold make_shared_ptr, on_resource, allocate_shared, release_shared.
  rewrite Hr. unfold Allocator_allocate, Allocator_deallocate. rewrite one_object by done.
  pose proof (pool_allocate_holds r l _ Hh (proj1 Hf)) as Ha. destruct (allocate _ r) as [[p r']| |]; [|done..].
  destruct Ha as [_ Ha]. destruct (pool_deallocate_holds r' l p _ Ha (proj1 Hf)) as (r2 & Hd & Hh2).
  rewrite <- Heq. destruct throws; [rewrite Hd|]; (split; [intros k Hk; by rewrite lookup_insert_ne by done|]).
  - exists r2. by rewrite lookup_insert_eq.
  - exists r'. rewrite lookup_insert_eq. split_and!; [done..|]. by exists r2.
Qed.

Lemma pool_holds_start : pool_holds (make default_chunk) [].
Proof. exists []. split; [apply inv_make_pool|done]. Qed.
End pooled.

(** ** Stacks and blocks from the heap *)
Class Malloc (H : Type) := {
  malloc : Z → H → option (Z * H);                    (* None: the null pointer *)
  free : Z → H → H
}.

Class MallocLaws (H : Type) `{Malloc H} := {
  allocated : H → gset (Z * Z);
  malloc_spec h n a h' : 0 < n → malloc n h = Some (a, h') →
    (∀ b, b ∈ allocated h → apart (a, n) b) ∧ allocated h' = {[(a, n)]} ∪ allocated h;
  free_spec h a n : (a, n) ∈ allocated h → allocated (free a h) = allocated h ∖ {[(a, n)]}
}.

Section heap.
Context {H : Type} `{MallocLaws H}.

(** [basic_fixedsize_stack] without [mmap]. *)
Definition basic_stack_allocate (size_ : Z) (h : H) : result (stack_context * H) :=
  match malloc size_ h with
  | Some (vp, h') => Ok (mkStack size_ (vp + size_), h')
  | None => BadAlloc
  end.

Definition basic_stack_deallocate (sctx : stack_context) (h : H) : H := free (sp sctx - s_size sctx) h.

#[export] Instance c_heap : CoroutineHeap H := {|
  block_take n h := match malloc n h with Some r => Ok r | None => BadAlloc end;
  block_give a n h := Ok (free a h);
  stack_take := basic_stack_allocate;
  stack_give size_ c h := Ok (basic_stack_deallocate c h)
|}.

Definition heap_holds (h : H) (l : list (Z * Z)) : Prop :=
  NoDup l ∧ (∀ b, b ∈ allocated h ↔ b ∈ l) ∧ (∀ b, b ∈ l → 0 < b.2) ∧ (∀ b c, b ∈ l → c ∈ l → b ≠ c → apart b c).

Lemma apart_sym b c : apart b c → apart c b.
Proof. intros Ha x [? ?]. by apply (Ha x). Qed.

Lemma malloc_holds h l n a h' : heap_holds h l → 0 < n → malloc n h = Some (a, h') → heap_holds h' ((a, n) :: l).
Proof.
  intros (Hnd & Hb & Hpos & Hap) Hn E. destruct (malloc_spec h n a h' Hn E) as [Hnew Hal].
  assert (Hnot : (a, n) ∉ l).
  { intros Hin%Hb. by apply (Hnew _ Hin a); cbn; lia. }
  split; [by apply NoDup_cons|]. split; [intros b; rewrite Hal; set_solver|]. split.
  - intros b [->|Hin]%elem_of_cons; [done|by apply Hpos].
  - intros b c [->|Hin]%elem_of_cons [->|Hin']%elem_of_cons Hne; [done|by apply Hnew, Hb| |by apply Hap].
    apply apart_sym, Hnew. by apply Hb.
Qed.

Lemma free_holds h l a n : heap_holds h ((a, n) :: l) → heap_holds (free a h) l.
Proof.
  intros ([Hx Hnd]%NoDup_cons & Hb & Hpos & Hap). split; [done|].
  split; [intros b; rewrite (free_spec h a n) by (apply Hb; left); rewrite elem_of_difference, Hb; set_solver|].
  split; [intros b Hin; apply Hpos; by right|]. intros b c Hin Hin' Hne. apply Hap; [by right|by right|done].
Qed.

#[export] Instance c_heap_laws : CoroutineHeapLaws H.
Proof.
  refine {| holds := heap_holds; fits n := 0 < n |}.
  - intros m l l' Hp (Hnd & Hb & Hpos & Hap). split; [by rewrite <- Hp|].
    split; [intros b; by rewrite <- Hp|]. split; intros *; rewrite <- ?Hp; eauto.
  - intros m b c l (Hnd & _ & _ & Hap). apply Hap; [left|right; left|]. intros ->. apply NoDup_cons in Hnd as [Hn _]. set_solver.
  - intros m l n Hh Hf. cbn. destruct (malloc n m) as [[a m']|] eqn:E; [|done]. by eapply malloc_holds.
  - intros m l a n Hh Hf. eexists. split; [done|]. by eapply free_holds.
  - intros m l n Hh Hf. cbn. unfold basic_stack_allocate. destruct (malloc n m) as [[a m']|] eqn:E; [|done].
    split; [done|]. unfold stack_bytes. cbn. replace (a + n - n) with a by lia. by eapply malloc_holds.
  - intros m l c Hh Hf. eexists. split; [done|]. by eapply free_holds.
Defined.
End heap.

(** ** The life of coroutines *)
Module CoroutineLife.
Section life.
Context {M : Type} `{CoroutineHeapLaws M}.
(** The size of the block of [allocate_shared] and [default_size()] of the stack traits. *)
Variables csz ssz : Z.

(** A coroutine object: the address of its block, and its stack until the function has ended. *)
Record coroutine := mkCo { block : Z; stack : option stack_context }.

Record t := mk {
  mem : M;
  live : list coroutine;
  counter : option Metrics.counter          (* coroutine_counter of the runtime *)
}.

(** [coroutine_handler::create] and [destroy]. *)
Definition create (c : option Metrics.counter) : option Metrics.counter := Metrics.tell Metrics.Increment <$> c.

Definition destroy (c : option Metrics.counter) : option Metrics.counter := Metrics.tell Metrics.Decrement <$> c.

(** [make_coroutine]: the block, the base class, then the constructor, which takes the stack.
    [false]: [bad_alloc]; when the constructor throws, the base class is destroyed and the block
    given back.  [None] is undefined behaviour. *)
Definition make_coroutine (s : t) : option (bool * t) :=
  match block_take csz (mem s) with
  | Ok (a, m1) =>
      let c1 := create (counter s) in
      match stack_take ssz m1 with
      | Ok (sc, m2) => Some (true, mk m2 (live s ++ [mkCo a (Some sc)]) c1)
      | BadAlloc =>
          match block_give a csz m1 with
          | Ok m2 => Some (false, mk m2 (live s) (destroy c1))
          | _ => None
          end
      | Undefined => None
      end
  | BadAlloc => Some (false, s)
  | Undefined => None
  end.

(** The stack goes back when the function returns, or when the continuation is destroyed. *)
Definition drop_stack (co : coroutine) (m : M) : option M :=
  match stack co with
  | Some sc => match stack_give ssz sc m with Ok m' => Some m' | _ => None end
  | None => Some m
  end.

(** The function of coroutine [k] returns. *)
Definition finish (k : nat) (s : t) : option t :=
  match live s !! k with
  | Some co => m ← drop_stack co (mem s); Some (mk m (<[k := mkCo (block co) None]> (live s)) (counter s))
  | None => Some s
  end.

(** The last [shared_ptr] to coroutine [k] goes. *)
Definition release (k : nat) (s : t) : option t :=
  match live s !! k with
  | Some co =>
      m1 ← drop_stack co (mem s);
      match block_give (block co) csz m1 with
      | Ok m2 => Some (mk m2 (base.delete k (live s)) (destroy (counter s)))
      | _ => None
      end
  | None => Some s
  end.

Inductive op := Make | Finish (k : nat) | Release (k : nat).

Definition step (s : t) (o : op) : option t :=
  match o with Make => snd <$> make_coroutine s | Finish k => finish k s | Release k => release k s end.

Fixpoint run (s : t) (os : list op) : option t :=
  match os with [] => Some s | o :: os' => s' ← step s o; run s' os' end.

Definition blocks (co : coroutine) : list (Z * Z) :=
  (block co, csz) :: match stack co with Some sc => [stack_bytes sc] | None => [] end.

Definition count (s : t) : option Z := (λ c, Metrics.reading c - List.length (live s)) <$> counter s.

Record inv (s : t) : Prop := {
  inv_holds : holds (mem s) (live s ≫= blocks);
  inv_stacks : ∀ co sc, co ∈ live s → stack co = Some sc → s_size sc = ssz
}.

Context (Hcsz : fits csz) (Hssz : fits ssz).

Lemma holds_apart_at m l i j b c : holds m l → l !! i = Some b → l !! j = Some c → i ≠ j → apart b c.
Proof.
  intros Hh Hi Hj Hne. destruct (list_elem_of_lookup_1 (base.delete i l) c) as [k Hk].
  { apply list_elem_of_lookup. destruct (decide (j < i)%nat).
    - exists j. by rewrite list_lookup_delete_lt.
    - exists (Nat.pred j). rewrite list_lookup_delete_ge by lia. by replace (S (Nat.pred j)) with j by lia. }
  apply (holds_apart m b c (base.delete k (base.delete i l))). eapply holds_perm; [|exact Hh].
  etrans; [by apply (delete_Permutation l i b)|]. constructor. by apply delete_Permutation.
Qed.

(** The blocks of coroutine [k] first. *)
Lemma blocks_at (l : list coroutine) k co : l !! k = Some co → l ≫= blocks ≡ₚ blocks co ++ (base.delete k l ≫= blocks).
Proof. intros Hk. change (l ≫= blocks ≡ₚ (co :: base.delete k l) ≫= blocks). by apply bind_Permutation, delete_Permutation. Qed.

Lemma delete_insert_at {A} (l : list A) k x : base.delete k (<[k := x]> l) = base.delete k l.
Proof. revert k. induction l as [|y l IH]; intros [|k]; cbn; f_equal; [done..|apply IH]. Qed.

Lemma drop_stack_holds co m l : holds m (blocks co ++ l) → (∀ sc, stack co = Some sc → s_size sc = ssz) →
  ∃ m', drop_stack co m = Some m' ∧ holds m' ((block co, csz) :: l).
Proof.
  unfold blocks, drop_stack. intros Hh Hs. destruct (stack co) as [sc|]; [|by exists m].
  destruct (stack_give_holds m ((block co, csz) :: l) sc) as (m' & E & Hh').
  - eapply holds_perm; [|exact Hh]. by constructor.
  - by rewrite (Hs sc).
  - rewrite (Hs sc) in E by done. rewrite E. eauto.
Qed.

Lemma make_coroutine_ok s : inv s →
  ∃ b s', make_coroutine s = Some (b, s') ∧ inv s' ∧ count s' = count s ∧ (b = false → live s' = live s).
Proof.
  intros [Hh Hs]. unfold make_coroutine. pose proof (block_take_holds (mem s) _ csz Hh Hcsz) as X.
  destruct (block_take csz (mem s)) as [[a m1]| |]; [|by exists false, s|done].
  pose proof (stack_take_holds m1 _ ssz X Hssz) as Y. destruct (stack_take ssz m1) as [[sc m2]| |]; [| |done].
  - destruct Y as [Hsz Y]. eexists true, _. split; [done|]. split; [split|split; [|done]].
    + eapply holds_perm; [|exact Y]. cbn [live]. rewrite bind_app, bind_singleton. unfold blocks. cbn.
      rewrite (Permutation_app_comm (live s ≫= blocks)). cbn. constructor.
    + cbn. intros co c [Hin| ->%list_elem_of_singleton]%elem_of_app Hc; [by eapply Hs|]. cbn in Hc. by simplify_eq.
    + unfold count. cbn. rewrite length_app. destruct (counter s); [|done]. cbn. f_equal. unfold Metrics.reading. cbn. lia.
  - destruct (block_give_holds m1 _ a csz X Hcsz) as (m2 & E & Hh2). rewrite E. eexists false, _.
    split; [done|]. split; [by split|]. split; [|done].
    unfold count. cbn. destruct (counter s); [|done]. cbn. f_equal. unfold Metrics.reading. cbn. lia.
Qed.

Lemma step_ok_life s o : inv s → ∃ s', step s o = Some s' ∧ inv s' ∧ count s' = count s.
Proof.
  intros Hi. pose proof Hi as [Hh Hs]. destruct o as [|k|k]; cbn.
  - destruct (make_coroutine_ok s Hi) as (b & s' & -> & Hi' & Hc & _). by exists s'.
  - unfold finish. destruct (live s !! k) as [co|] eqn:Hk; [|by exists s].
    pose proof (list_elem_of_lookup_2 _ _ _ Hk) as Hin. pose proof (lookup_lt_Some _ _ _ Hk) as Hlt.
    destruct (drop_stack_holds co (mem s) (base.delete k (live s) ≫= blocks)) as (m & -> & Hm); [|by intros sc; apply Hs|].
    { eapply holds_perm; [|exact Hh]. by apply blocks_at. }
    cbn. eexists. split; [done|]. split; [split|].
    + cbn. eapply holds_perm; [|exact Hm]. erewrite (blocks_at (<[k := _]> (live s))); [|by apply list_lookup_insert_eq].
      by rewrite delete_insert_at.
    + cbn. intros c' sc [j Hj]%list_elem_of_lookup_1 Hc. apply list_lookup_insert_Some in Hj as [(-> & <- & _)|[_ Hj]]; [done|].
      apply (Hs c'); [|done]. by eapply list_elem_of_lookup_2.
    + unfold count. cbn. by rewrite length_insert.
  - unfold release. destruct (live s !! k) as [co|] eqn:Hk; [|by exists s].
    pose proof (list_elem_of_lookup_2 _ _ _ Hk) as Hin. pose proof (lookup_lt_Some _ _ _ Hk) as Hlt.
    destruct (drop_stack_holds co (mem s) (base.delete k (live s) ≫= blocks)) as (m & -> & Hm); [|by intros sc; apply Hs|].
    { eapply holds_perm; [|exact Hh]. by apply blocks_at. }
    cbn. destruct (block_give_holds m _ (block co) csz Hm Hcsz) as (m2 & -> & Hm2). eexists. split; [done|]. split; [split|].
    + done.
    + cbn. intros c' sc Hc'. apply Hs. rewrite (delete_Permutation _ _ _ Hk). by right.
    + unfold count. cbn. rewrite length_delete by (by exists co). destruct (counter s); [|done]. cbn. f_equal.
      unfold Metrics.reading. cbn. lia.
Qed.

Lemma run_ok_life os : ∀ s, inv s → ∃ s', run s os = Some s' ∧ inv s' ∧ count s' = count s.
Proof.
  induction os as [|o os IH]; intros s Hi; [by exists s|]. destruct (step_ok_life s o Hi) as (s1 & E1 & Hi1 & Hc1).
  cbn. rewrite E1. cbn. destruct (IH s1 Hi1) as (s2 & E2 & Hi2 & Hc2). exists s2. split; [done|]. split; [done|congruence].
Qed.

(** C39: The memory of coroutines is sound.  Starting from a memory with nothing handed out,
    whatever coroutines are made, return and are released, and whenever an allocation fails, no
    call is undefined; what is handed out is then the block of each live coroutine and the stack of
    each whose function has not returned, of the size of the traits, and no two of these share a
    byte; so that nothing is handed out once no coroutine is left.  A [make_coroutine] that
    throws leaves the coroutines and what is handed out as they were, and the counter of the
    runtime shows how many coroutines there are more than at the start. *)
Theorem coroutine_memory (m0 : M) (c0 : option Metrics.counter) (os : list op) : holds m0 [] →
  ∃ s, run (mk m0 [] c0) os = Some s ∧ holds (mem s) (live s ≫= blocks) ∧
    (∀ i j b c, (live s ≫= blocks) !! i = Some b → (live s ≫= blocks) !! j = Some c → i ≠ j → apart b c) ∧
    (∀ co sc, co ∈ live s → stack co = Some sc → s_size sc = ssz) ∧
    (Metrics.reading <$> counter s) = (λ c, Metrics.reading c + List.length (live s)) <$> c0 ∧
    (∀ s', make_coroutine s = Some (false, s') →
       live s' = live s ∧ holds (mem s') (live s ≫= blocks) ∧ (Metrics.reading <$> counter s') = (Metrics.reading <$> counter s)).
Proof.
  intros Hh. destruct (run_ok_life os (mk m0 [] c0)) as (s & E & Hi & Hc); [split; [done|]; set_solver|].
  exists s. split; [done|]. pose proof Hi as [Hs1 Hs2]. split; [done|].
  split; [intros i j b c; by apply (holds_apart_at (mem s))|]. split; [done|]. split.
  - unfold count in Hc. cbn in Hc. destruct (counter s), c0; cbn in *; simplify_eq; [|done]. f_equal. lia.
  - intros s' E'. destruct (make_coroutine_ok s Hi) as (b & s2 & E2 & [Hh2 _] & Hc2 & Hl2). rewrite E' in E2. simplify_eq.
    rewrite (Hl2 eq_refl) in Hh2. split; [by apply Hl2|]. split; [done|]. unfold count in Hc2. rewrite (Hl2 eq_refl) in Hc2.
    destruct (counter s2), (counter s); cbn in *; simplify_eq; [|done]. f_equal. lia.
Qed.
End life.
#[global] Arguments t : clear implicits.
End CoroutineLife.

(** ** A heap of a given size that never reuses a byte *)
Module BumpHeap.

Record t := mk { next : Z; limit : Z; used : gset (Z * Z) }.

(** Blocks end below the next address; the addresses of a heap made by [malloc] and [free]. *)
Record ok (h : t) : Prop := {
  ok_below : ∀ b, b ∈ used h → 0 < b.2 ∧ b.1 + b.2 <= next h;
  ok_address : ∀ b c, b ∈ used h → c ∈ used h → b.1 = c.1 → b = c
}.

Definition heap : Type := { h : t | ok h }.

(** The same functions on heaps that are well formed, for sizes that are positive. *)
Lemma ok_malloc h n : ok h → 0 < n → ok (mk (next h + n) (limit h) ({[(next h, n)]} ∪ used h)).
Proof.
  intros [Hb Ha] Hn. split; cbn.
  - intros b [->%elem_of_singleton|Hin]%elem_of_union; [cbn; lia|]. destruct (Hb b Hin). lia.
  - intros b c [->%elem_of_singleton|Hin]%elem_of_union [->%elem_of_singleton|Hin']%elem_of_union; cbn; intros E; [done| | |by apply Ha].
    + destruct (Hb c Hin'). lia.
    + destruct (Hb b Hin). lia.
Qed.

Lemma ok_free h a : ok h → ok (mk (next h) (limit h) (filter (λ b, b.1 ≠ a) (used h))).
Proof.
  intros [Hb Ha]. split; cbn.
  - intros b [_ Hin]%elem_of_filter. by apply Hb.
  - intros b c [_ Hin]%elem_of_filter [_ Hin']%elem_of_filter. by apply Ha.
Qed.

#[global] Instance bump_heap : Malloc heap := {|
  malloc n h :=
    match decide (0 < n) with
    | left Hn => if next (`h) + n <=? limit (`h) then Some (next (`h), exist ok _ (ok_malloc (`h) n (proj2_sig h) Hn)) else None
    | right _ => None
    end;
  free a h := exist ok _ (ok_free (`h) a (proj2_sig h))
|}.

#[global] Instance bump_heap_laws : MallocLaws heap.
Proof.
  refine {| allocated h := used (`h) |}.
  - intros [h Hok] n a h' Hn E. cbn in E. destruct (decide (0 < n)); [|done]. revert E. ztest; intros E; [|done].
    injection E as <- <-. cbn. split; [|done]. intros b Hin x [Hx1 Hx2]. destruct (ok_below _ Hok b Hin). cbn in *. lia.
  - intros [h Hok] a n Hin. cbn in *. apply leibniz_equiv. intros b. rewrite elem_of_filter, elem_of_difference, elem_of_singleton.
    split; [intros [Hne Hb]; split; [done|]; by intros ->|]. intros [Hb Hne]. split; [|done]. intros E.
    by apply Hne, (ok_address _ Hok b (a, n)).
Defined.

Lemma ok_start l : ok (mk 4096 l ∅).
Proof. split; set_solver. Qed.

Definition start (l : Z) : heap := exist ok (mk 4096 l ∅) (ok_start l).

Lemma start_holds l : heap_holds (start l) [].
Proof. split; [constructor|]. split; [set_solver|]. split; set_solver. Qed.

End BumpHeap.

(** ** Coroutines on both memories *)
Module MemoryExample.
Import CoroutineLife.

(** Blocks of 500 bytes and stacks of 128 KiB. *)
Definition script : list op := [Make; Make; Finish 0; Make; Release 1; Finish 7].

Definition no_calls : Metrics.counter := Metrics.mkCounter "ar_coroutines_count" ∅ [].

Lemma fits_500 : pool_fits 500.
Proof. split; [apply served_small; lia|lia]. Qed.

Lemma fits_stack : pool_fits 131072.
Proof. split; [split; [lia|vm_compute; reflexivity]|lia]. Qed.

Lemma coroutine_memory_witness :
  (∃ s, run 500 131072 (mk (make (P := BumpPool.t) default_chunk) [] (Some no_calls)) script = Some s ∧
     (Metrics.reading <$> counter s) = Some 2 ∧ List.length (live s ≫= blocks 500) = 3%nat ∧
     holds (mem s) (live s ≫= blocks 500)) ∧
  (* a heap with room for one coroutine *)
  (∃ s, run 500 131072 (mk (BumpHeap.start 140000) [] (Some no_calls)) script = Some s ∧
     (Metrics.reading <$> counter s) = Some 1 ∧ live s = [mkCo 4096 None]).
Proof.
  split.
  - destruct (coroutine_memory (M := ResourcePool.t BumpPool.t) 500 131072 ltac:(exact fits_500) ltac:(exact fits_stack) (make (P := BumpPool.t) default_chunk) (Some no_calls) script
      pool_holds_start) as (s & E & Hh & _ & _ & Hc & _).
    exists s. split; [exact E|].
    assert (F : ((λ s, (List.length (live s), List.length (live s ≫= blocks 500))) <$>
      run 500 131072 (mk (make (P := BumpPool.t) default_chunk) [] (Some no_calls)) script) = Some (2%nat, 3%nat))
      by (vm_compute; reflexivity).
    rewrite E in F. cbn [fmap option_fmap option_map] in F. injection F as F1 F2. rewrite F1 in Hc.
    split; [exact Hc|]. split; [exact F2|exact Hh].
  - destruct (coroutine_memory (M := BumpHeap.heap) 500 131072 ltac:(exact eq_refl) ltac:(exact eq_refl) (BumpHeap.start 140000) (Some no_calls) script
      (BumpHeap.start_holds _)) as (s & E & Hh & _ & _ & Hc & _).
    exists s. split; [exact E|].
    assert (F : (live <$> run 500 131072 (mk (BumpHeap.start 140000) [] (Some no_calls)) script) = Some [mkCo 4096 None])
      by (vm_compute; reflexivity).
    rewrite E in F. cbn [fmap option_fmap option_map] in F. injection F as F1. rewrite F1 in Hc.
    split; [exact Hc|exact F1].
Defined.

(** A constructor that throws leaves its memory allocated. *)
Example construct_at_leaks :
  ∃ r, construct_at (P := BumpPool.t) 8 true (make default_chunk) = Ok (ConstructorThrew, r) ∧ in_use (pool r) = {[128]}.
Proof. eexists. split; vm_compute; reflexivity. Qed.

(** A [flat_buffer] that is copied is freed twice: after the destructor of one the chunk that the
    other gives back is not in use. *)
Example flat_buffer_copy_freed_twice :
  ∃ b r1 b' r2, flat_buffer_make (P := BumpPool.t) 4 10 (make default_chunk) = Ok (b, r1) ∧
    flat_buffer_free 4 b r1 = Ok (b', r2) ∧ size_ b = 10 ∧ begin_ b ∈ in_use (pool r1) ∧ begin_ b ∉ in_use (pool r2).
Proof.
  eexists _, _, _, _. split; [vm_compute; reflexivity|]. split; [vm_compute; reflexivity|]. split; [reflexivity|].
  split; by_evaluation.
Qed.

End MemoryExample.
