(* ===== verification/Shutdown.v ===== *)
(** * The end of the runtime

    [Runtime::Terminate] (src/runtime.cpp) deletes the executors, [~Executor] its groups and
    [~ExecutorWorkGroup] its slots (src/executor.cpp); the scheduler of a group is a member, which is
    destroyed after the body of that destructor.  Until then its thread posts the tasks that become
    due to the slots of the group. *)
From S2P Require Import Prelude.

Module Shutdown.

(** A slot is known by executor, group and number. *)
Inductive action := DeleteSlot (e g s : nat) | JoinScheduler (e g : nat).

(** The number of slots of each group of an executor, and the executors in the order of their keys. *)
Definition group_destructor (e g n : nat) : list action := map (DeleteSlot e g) (seq 0 n) ++ [JoinScheduler e g].

Definition executor_destructor (e : nat) (groups : list nat) : list action := concat (imap (group_destructor e) groups).

Definition terminate (is_setup : bool) (executors : list (list nat)) : list action :=
  if is_setup then concat (imap executor_destructor executors) else [].

Record t := mk {
  todo : list action;
  deleted : list (nat * nat * nat);
  joined : list (nat * nat);
  due : list (nat * nat * nat);       (* tasks of the schedulers and the slots they go to *)
  used_after_free : bool
}.

Inductive label := LTerminate | LScheduler (i : nat).

Definition step (s : t) (l : label) : option t :=
  match l with
  | LTerminate =>
      match todo s with
      | DeleteSlot e g n :: r =>
          Some (mk r ((e, g, n) :: deleted s) (joined s) (due s) (used_after_free s || bool_decide ((e, g, n) ∈ deleted s)))
      | JoinScheduler e g :: r => Some (mk r (deleted s) ((e, g) :: joined s) (due s) (used_after_free s))
      | [] => None
      end
  | LScheduler i =>
      d ← due s !! i;
      if decide (d.1 ∈ joined s) then None
      else Some (mk (todo s) (deleted s) (joined s) (base.delete i (due s)) (used_after_free s || bool_decide (d ∈ deleted s)))
  end.

Fixpoint run (s : t) (ls : list label) : option t :=
  match ls with [] => Some s | l :: ls' => s' ← step s l; run s' ls' end.

Definition start (executors : list (list nat)) (d : list (nat * nat * nat)) : t := mk (terminate true executors) [] [] d false.

(** ** Every slot once *)
Definition executor_of (a : action) : nat := match a with DeleteSlot e _ _ => e | JoinScheduler e _ => e end.

Definition group_of (a : action) : nat := match a with DeleteSlot _ g _ => g | JoinScheduler _ g => g end.

Lemma group_destructor_elem e g n a : a ∈ group_destructor e g n ↔ (∃ s, (s < n)%nat ∧ a = DeleteSlot e g s) ∨ a = JoinScheduler e g.
Proof.
  unfold group_destructor. rewrite elem_of_app, list_elem_of_fmap, list_elem_of_singleton.
  split; [intros [(s & -> & Hs%elem_of_seq)| ->]|intros [(s & Hs & ->)| ->]]; [left; exists s; split; [lia|done]|by right| |by right].
  left. exists s. split; [done|]. apply elem_of_seq. lia.
Qed.

Lemma terminate_elem executors a : a ∈ terminate true executors ↔
  ∃ e groups g n, executors !! e = Some groups ∧ groups !! g = Some n ∧ a ∈ group_destructor e g n.
Proof.
  cbn. unfold executor_destructor. rewrite list_elem_of_In, in_concat. split.
  - intros (l & Hl & Ha). apply list_elem_of_In, elem_of_lookup_imap in Hl as (e & groups & -> & He).
    apply in_concat in Ha as (l' & Hl' & Ha). apply list_elem_of_In, elem_of_lookup_imap in Hl' as (g & n & -> & Hg).
    exists e, groups, g, n. by rewrite list_elem_of_In.
  - intros (e & groups & g & n & He & Hg & Ha). exists (concat (imap (group_destructor e) groups)). split.
    + apply list_elem_of_In, elem_of_lookup_imap. eauto.
    + apply in_concat. exists (group_destructor e g n). split; [|by apply list_elem_of_In].
      apply list_elem_of_In, elem_of_lookup_imap. eauto.
Qed.

Lemma terminate_NoDup executors : NoDup (terminate true executors).
Proof.
  apply (NoDup_concat_imap executor_of _ _ 0).
  - intros e groups _. apply (NoDup_concat_imap group_of _ _ 0).
    + intros g n _. apply NoDup_app. split; [apply NoDup_fmap_2; [by intros ? ? [=]|apply NoDup_seq]|].
      split; [|apply NoDup_singleton]. intros a (s & -> & _)%list_elem_of_fmap. set_solver.
    + intros g n a [(s & _ & ->)| ->]%group_destructor_elem; done.
  - intros e groups a Ha. unfold executor_destructor in Ha. rewrite list_elem_of_In, in_concat in Ha. destruct Ha as (l & Hl & Ha).
    apply list_elem_of_In, elem_of_lookup_imap in Hl as (g & n & -> & _). apply list_elem_of_In in Ha.
    by apply group_destructor_elem in Ha as [(s & _ & ->)| ->].
Qed.

(** What is done and what is to do is what there was. *)
Record inv (all : list action) (s : t) : Prop := {
  inv_nodup : NoDup (todo s);
  inv_slots : ∀ e g n, DeleteSlot e g n ∈ all ↔ DeleteSlot e g n ∈ todo s ∨ (e, g, n) ∈ deleted s;
  inv_joins : ∀ e g, JoinScheduler e g ∈ all ↔ JoinScheduler e g ∈ todo s ∨ (e, g) ∈ joined s;
  inv_apart : ∀ e g n, DeleteSlot e g n ∈ todo s → (e, g, n) ∉ deleted s;
  inv_idle : due s = [] ∧ used_after_free s = false
}.

Lemma inv_step_shutdown all s l s' : inv all s → step s l = Some s' → inv all s'.
Proof.
  intros [Hn Hs Hj Ha [Hd Hu]] E. destruct l as [|i]; cbn in E; [|by rewrite Hd in E].
  destruct (todo s) as [|[e g n|e g] r] eqn:Et; simplify_eq; apply NoDup_cons in Hn as [Hx Hn].
  - split; cbn; [done| | |intros e' g' n' Hin; rewrite not_elem_of_cons|split; [done|]].
    + intros e' g' n'. rewrite Hs, !elem_of_cons. naive_solver.
    + intros e' g'. rewrite Hj, elem_of_cons. naive_solver.
    + split; [intros [= -> -> ->]; done|]. apply Ha. by right.
    + rewrite Hu, bool_decide_eq_false_2; [done|]. apply Ha. left.
  - split; cbn; [done| | |intros e' g' n' Hin; apply Ha; by right|done].
    + intros e' g' n'. rewrite Hs, elem_of_cons. naive_solver.
    + intros e' g'. rewrite Hj, !elem_of_cons. naive_solver.
Qed.

(** The destructor of a runtime without delayed tasks: whenever it has come to its end, every slot
    of every group has been deleted, each once, and every scheduler joined. *)
Theorem terminate_deletes_all executors ls s : run (start executors []) ls = Some s →
  used_after_free s = false ∧
  (todo s = [] → ∀ e groups g n, executors !! e = Some groups → groups !! g = Some n →
     (e, g) ∈ joined s ∧ ∀ k, (e, g, k) ∈ deleted s ↔ (k < n)%nat).
Proof.
  assert (Hrun : ∀ s0, inv (terminate true executors) s0 → run s0 ls = Some s → inv (terminate true executors) s).
  { induction ls as [|l ls IH]; intros s0 H0 E; cbn in E; [by simplify_eq|].
    destruct (step s0 l) as [s1|] eqn:E1; [|done]. eapply IH; [|done]. by eapply inv_step_shutdown. }
  intros E. destruct (Hrun (start executors [])) as [_ Hs Hj _ [_ Hu]]; [|done|].
  { split; cbn; [apply (terminate_NoDup executors)|set_solver..|done]. }
  split; [done|]. intros Ht e groups g n He Hg. rewrite Ht in Hs, Hj. split.
  - assert (Hin : JoinScheduler e g ∈ terminate true executors).
    { apply terminate_elem. exists e, groups, g, n. rewrite group_destructor_elem. auto. }
    apply Hj in Hin as [Hin|Hin]; [by apply not_elem_of_nil in Hin|done].
  - intros k. transitivity (DeleteSlot e g k ∈ terminate true executors); [rewrite Hs; set_solver|]. rewrite terminate_elem. split.
    + intros (e' & groups' & g' & n' & He' & Hg' & [(k' & Hk & [= -> -> ->])|[=]]%group_destructor_elem). by simplify_eq.
    + intros Hk. exists e, groups, g, n. rewrite group_destructor_elem. split; [done|]. split; [done|]. left. by exists k.
Qed.

(** A task becomes due after the slot is deleted and before the scheduler is joined. *)
Example scheduler_posts_to_deleted_slot :
  ∃ s, run (start [[1]]%nat [(0, 0, 0)]%nat) [LTerminate; LScheduler 0] = Some s ∧ used_after_free s = true.
Proof. eexists. split; vm_compute; reflexivity. Qed.

End Shutdown.
