(* ===== verification/Traits.v ===== *)
(** * Compile-time helpers (include/ar/traits.hpp)

    The templates of the header are functions the compiler evaluates: on lists of types
    ([get_index], [unique_variant], [all_same]), on types ([unwrap_reference],
    [stateful_index]) and on numbers ([Unroll], which the queues of tasks use for their
    loops over the priorities).  They are written here as functions, [None] being a
    program the compiler refuses.  Types are an [eqType], [std::is_same] being [==]. *)
From Stdlib Require Import ZArith Lia.
From HB Require Import structures.
From mathcomp Require Import ssreflect ssrfun ssrbool eqtype ssrnat seq.
Set Implicit Arguments.
Unset Strict Implicit.
Unset Printing Implicit Defensive.

Module Traits.

(** ** Lists of types *)
Section type_lists.
Variable T : eqType.
Implicit Types (t u : T) (ts us : seq T).

(** [get_index_impl<I, T, Ts...>]: without a matching specialisation there is no [value]. *)
Fixpoint get_index_impl (i : nat) t ts : option nat :=
  if ts is u :: ts' then (if t == u then Some i else get_index_impl i.+1 t ts') else None.

(** [get_index<T, std::variant<Ts...>>]. *)
Definition get_index t ts : option nat := get_index_impl 0 t ts.

(** [filter_duplicates<C<Ts...>, Us...>]. *)
Fixpoint filter_duplicates ts us : seq T :=
  if us is u :: us' then
    (if has (pred1 u) ts then filter_duplicates ts us' else filter_duplicates (rcons ts u) us')
  else ts.

(** [unique_variant<std::variant<Ts...>>]. *)
Definition unique_variant ts : seq T := filter_duplicates [::] ts.

(** [all_true<bs...>]: the pack shifted by one is the pack. *)
Definition all_true (bs : seq bool) : bool := rcons bs true == true :: bs.

(** [all_same<T, Ts...>]. *)
Definition all_same t ts : bool := all_true [seq t == u | u <- ts].

(** The index is that of the first occurrence. *)
Lemma get_index_implE i t ts :
  get_index_impl i t ts = if t \in ts then Some (i + index t ts) else None.
Proof.
elim: ts i => [//|u ts IH] i /=; rewrite in_cons.
case: (altP (t =P u)) => [->|ne] /=; first by rewrite eqxx addn0.
by rewrite IH addSnnS eq_sym (negbTE ne).
Qed.

Lemma get_indexE t ts : get_index t ts = if t \in ts then Some (index t ts) else None.
Proof. exact: get_index_implE. Qed.

(** What was kept and the rest of the list without it. *)
Lemma filter_duplicatesE ts us :
  filter_duplicates ts us = ts ++ [seq u <- rev (undup (rev us)) | u \notin ts].
Proof.
elim: us ts => [|u us IH] ts /=; first by rewrite cats0.
rewrite rev_cons undup_rcons rev_rcons -filter_rev.
have notin_filter (vs : seq T) : u \in vs ->
    [seq x <- rev (undup (rev us)) | x \notin vs] =
    [seq x <- [seq y <- rev (undup (rev us)) | y != u] | x \notin vs].
  move=> uvs; rewrite -filter_predI; apply: eq_filter => x /=.
  by case: (altP (x =P u)) => [->|_]; rewrite ?uvs ?andbF ?andbT.
rewrite has_pred1; case: ifP => uts; rewrite IH.
  by rewrite /= uts /= (notin_filter _ uts).
rewrite /= uts /= -cats1 -catA /= (notin_filter (ts ++ [:: u])); first by rewrite mem_cat mem_head orbT.
congr (_ ++ _ :: _); rewrite -!filter_predI; apply: eq_filter => x /=.
by rewrite mem_cat mem_seq1 negb_or; case: (x == u); rewrite ?andbF ?andbT.
Qed.

(** [unique_variant] keeps the first occurrence of each type, in order. *)
Lemma unique_variantE ts : unique_variant ts = rev (undup (rev ts)).
Proof. by rewrite /unique_variant filter_duplicatesE /= filter_predT. Qed.

Lemma unique_variant_uniq ts : uniq (unique_variant ts).
Proof. by rewrite unique_variantE rev_uniq undup_uniq. Qed.

Lemma mem_unique_variant ts : unique_variant ts =i ts.
Proof. by move=> x; rewrite unique_variantE mem_rev mem_undup mem_rev. Qed.

Lemma unique_variant_id ts : uniq ts -> unique_variant ts = ts.
Proof. by move=> uts; rewrite unique_variantE undup_id ?revK // rev_uniq. Qed.

Lemma unique_variant_idem ts : unique_variant (unique_variant ts) = unique_variant ts.
Proof. exact/unique_variant_id/unique_variant_uniq. Qed.

Lemma unique_variant_subseq ts : subseq (unique_variant ts) ts.
Proof. by rewrite unique_variantE -[X in subseq _ X]revK subseq_rev undup_subseq. Qed.

(** The shifted pack is the pack exactly when every flag is [true]. *)
Lemma all_trueE bs : all_true bs = all id bs.
Proof.
rewrite /all_true; elim: bs => [//|b bs IH] /=; rewrite eqseq_cons.
by case: b => //=; rewrite -IH.
Qed.

Lemma all_sameE t ts : all_same t ts = all (pred1 t) ts.
Proof. by rewrite /all_same all_trueE all_map; apply: eq_all => u /=; rewrite eq_sym. Qed.
End type_lists.

(** ** Visiting a tuple *)
Section visit.
Variables (A S : Type) (func : A -> S -> S).

(** [visit_tuple<Func, Tuple, N>(func, tup, idx)]: [tup] is what is left from element
    [n] on; an empty tuple has no [std::get<0>]. *)
Fixpoint visit_from (n : nat) (tup : seq A) (idx : nat) (s : S) : S :=
  if tup is x :: tup' then
    if n == idx then func x s else visit_from n.+1 tup' idx s
  else s.

Definition visit_tuple (tup : seq A) (idx : nat) (s : S) : option S :=
  if tup is [::] then None else Some (visit_from 0 tup idx s).

Lemma visit_fromE n tup idx s :
  visit_from n tup (n + idx) s = if drop idx tup is x :: _ then func x s else s.
Proof.
elim: tup n idx => [|x tup IH] n [|idx] //=; first by rewrite addn0 eqxx.
by rewrite -[X in X == _]addn0 eqn_add2l /= -addSnnS IH.
Qed.

(** The functor is called once, on element [idx], or not at all. *)
Lemma visit_tupleE x0 (tup : seq A) idx s : 0 < size tup -> visit_tuple tup idx s =
  Some (if idx < size tup then func (nth x0 tup idx) s else s).
Proof.
case: tup => // x tup _; rewrite /visit_tuple -[idx]add0n visit_fromE add0n.
case: ltnP => [lt|ge]; last by rewrite drop_oversize.
by rewrite (drop_nth x0 lt).
Qed.
End visit.

(** ** Unrolled loops *)
Section unroll.
Local Open Scope Z_scope.
(** The range of the type of the arguments, and the template arguments. *)
Variables (lo hi fin step : Z).

Definition in_type (z : Z) : bool := (lo <=? z) && (z <=? hi).

(** [Unroll<beg, end, step>::eval(f)]: the calls of [f].  The compiler refuses an
    overflow in a template argument and an instantiation nested deeper than [d]. *)
Fixpoint Unroll (d : nat) (beg : Z) : option (seq Z) :=
  if d is d'.+1 then
    if beg <? fin then
      if in_type (beg + step) then omap (cons beg) (Unroll d' (beg + step)) else None
    else Some [::]
  else None.

(** The number of calls. *)
Definition unroll_calls (beg : Z) : nat := Z.to_nat ((fin - beg + step - 1) / step).

Lemma unroll_calls0 beg : 0 < step -> fin <= beg -> unroll_calls beg = 0%N.
Proof.
move=> Hs Hb; rewrite /unroll_calls.
have : (fin - beg + step - 1) / step < 1 by apply: Z.div_lt_upper_bound; lia.
by move: (_ / _) => q Hq; lia.
Qed.

Lemma unroll_callsS beg : 0 < step -> beg < fin -> unroll_calls beg = (unroll_calls (beg + step)).+1.
Proof.
move=> Hs Hb; rewrite /unroll_calls.
have -> : fin - beg + step - 1 = (fin - (beg + step) + step - 1) + 1 * step by lia.
rewrite Z.div_add; first lia.
have Hd : 0 <= (fin - (beg + step) + step - 1) / step by apply: Z.div_pos; lia.
by rewrite Z2Nat.inj_add // -[RHS]addn1.
Qed.

Lemma UnrollE d beg :
  0 < step -> (unroll_calls beg < d)%N -> lo <= beg -> fin + step - 1 <= hi ->
  Unroll d beg = Some [seq beg + Z.of_nat k * step | k <- iota 0 (unroll_calls beg)].
Proof.
move=> Hs; elim: d beg => [//|d IH] beg Hd Hlo Hhi /=.
case: Z.ltb_spec => [Hlt|Hge]; last by rewrite unroll_calls0.
rewrite unroll_callsS // in Hd *.
have -> : in_type (beg + step) by rewrite /in_type; apply/andP; split; apply/Z.leb_le; lia.
have Hlo' : lo <= beg + step by lia.
rewrite IH //=; congr Some; congr cons; first lia.
rewrite -[in RHS](addn0 1%N) iotaDl -map_comp; apply: eq_map => k.
rewrite /comp add1n Nat2Z.inj_succ; lia.
Qed.

(** A loop that does not move is never instantiated, whatever the depth. *)
Lemma Unroll_stuck d beg : step <= 0 -> beg < fin -> Unroll d beg = None.
Proof.
move=> Hs; elim: d beg => [//|d IH] beg Hlt /=.
by rewrite (proj2 (Z.ltb_lt _ _) Hlt) IH ?if_same //; lia.
Qed.
End unroll.

(** The loop over the priorities of a task queue visits each once, in order. *)
Lemma unroll_priorities (n d : nat) :
  (n < d)%N -> (Z.of_nat n <= 2 ^ 31 - 1)%Z ->
  Unroll (- 2 ^ 31) (2 ^ 31 - 1) (Z.of_nat n) 1 d 0 = Some [seq Z.of_nat k | k <- iota 0 n].
Proof.
move=> Hd Hn; have Hc : unroll_calls (Z.of_nat n) 1 0 = n by rewrite /unroll_calls; apply/Nat2Z.inj; rewrite Z.div_1_r; lia.
by rewrite UnrollE ?Hc //; try lia; congr Some; apply: eq_map => k; lia.
Qed.

(** ** Types *)
(** The types the traits look into; functions and volatile types are left out. *)
Inductive ctype :=
| Integral (n : nat)         (* an integral type *)
| Other (n : nat)            (* any type the traits do not look into *)
| Const (t : ctype)
| LRef (t : ctype)
| RRef (t : ctype)
| Ptr (t : ctype)
| Array (t : ctype) (n : nat)
| reference_wrapper (t : ctype)
| less (t : ctype)
| greater (t : ctype).

Definition ctype_eq_dec (t u : ctype) : {t = u} + {t <> u}.
Proof. decide equality; apply: PeanoNat.Nat.eq_dec. Defined.

HB.instance Definition _ := hasDecEq.Build ctype (compareP ctype_eq_dec).

(** [std::decay_t]. *)
Definition remove_reference (t : ctype) : ctype :=
  match t with LRef u | RRef u => u | _ => t end.

Fixpoint remove_const (t : ctype) : ctype := if t is Const u then remove_const u else t.

Definition decay (t : ctype) : ctype :=
  match remove_reference t with Array u _ => Ptr u | u => remove_const u end.

Definition is_integral (t : ctype) : bool := if t is Integral _ then true else false.

Definition unwrap_reference (t : ctype) : ctype :=
  if t is reference_wrapper u then LRef u else t.

Definition unwrap_ref_decay (t : ctype) : ctype := unwrap_reference (decay t).

(** [TB], [TE] and [TS] of the two structures. *)
Definition state_type (t : ctype) : ctype := decay (unwrap_ref_decay t).

Definition stateful_iterator (b e : ctype) : option ctype :=
  if state_type b == state_type e then Some (state_type b) else None.

Definition stateful_index (b e s : ctype) : option ctype :=
  if [&& is_integral (state_type b), is_integral (state_type e), is_integral (state_type s),
         state_type b == state_type e & state_type e == state_type s]
  then Some (state_type b) else None.

Definition is_pod (is_trivial is_standard_layout : bool) : bool := is_trivial && is_standard_layout.

Definition is_std_compare (t : ctype) : bool :=
  match t with less _ | greater _ => true | _ => false end.

Lemma stateful_indexP b e s t :
  reflect (is_integral t /\ {in [:: b; e; s], forall u, state_type u = t}) (stateful_index b e s == Some t).
Proof.
rewrite /stateful_index; case: ifP => [/and5P[ib _ _ /eqP Hbe /eqP Hes]|H].
- apply: (iffP eqP) => [[<-]|[_ Hin]]; last by rewrite Hin ?mem_head.
  by split=> // u; rewrite !inE => /or3P[] /eqP ->; rewrite -?Hes -?Hbe.
- apply: (iffP eqP) => [//|[it Hin]]; move/negP: H; case.
  by rewrite !Hin ?inE ?eqxx ?orbT // it.
Qed.

(** An index given by reference has the type of the index. *)
Lemma state_type_ref n : {in [:: Integral n; Const (Integral n); LRef (Integral n); RRef (Integral n);
    reference_wrapper (Integral n); LRef (Const (Integral n)); LRef (reference_wrapper (Integral n))],
  forall u, state_type u = Integral n}.
Proof. by move=> u; rewrite !inE => /or4P[/eqP->|/eqP->|/eqP->|/or4P[] /eqP->]. Qed.

(** ** Wrappers *)
Section wrappers.
Variable T : eqType.
(** The move constructor: what it builds, and what is left in its argument. *)
Variables (move : T -> T * T) (husk : T).
Hypothesis moveE : forall x, move x = (x, husk).

(** [NoInit<T>]: the constructor without a value leaves any value [v]. *)
Definition NoInit_default (v : T) : T := v.
Definition NoInit_value (v : T) : T := v.
Definition NoInit_get (o : T) : T := o.

(** [MoC<T>]: its object is mutable, so that the copy constructor moves from a constant. *)
Definition MoC_make (rhs : T) : T * T := move rhs.
Definition MoC_copy (other : T) : T * T := move other.
Definition MoC_get (o : T) : T := o.

(** [make_moc(m)]: for an lvalue [T] is a reference, and a mutable reference is refused. *)
Definition make_moc (lvalue : bool) (m : T) : option (T * T) :=
  if lvalue then None else Some (MoC_make m).

(** Copies among the wrappers [os] of a program: wrapper [i] is copied to the end. *)
Definition copy_at (os : seq T) (i : nat) : seq T :=
  let: (o, rest) := MoC_copy (nth husk os i) in
  rcons (if i < size os then set_nth husk os i rest else os) o.

Definition values (os : seq T) : seq T := [seq x <- os | x != husk].

Lemma values_copy os i : perm_eq (values (copy_at os i)) (values os).
Proof.
rewrite /copy_at /MoC_copy moveE /values filter_rcons.
case: ltnP => [lt|ge]; last by rewrite nth_default // eqxx.
rewrite -[in X in perm_eq _ X](cat_take_drop i os) set_nthE lt !filter_cat (drop_nth husk lt) /= eqxx /=.
case: ifP => _ //; by rewrite -cats1 -catA perm_cat2l -cat1s perm_catC.
Qed.

(** A wrapper passes its object on: however it is copied, no value is ever duplicated
    or lost. *)
Lemma values_copies os js : perm_eq (values (foldl copy_at os js)) (values os).
Proof.
elim: js os => [//|i js IH] os /=; exact: perm_trans (IH _) (values_copy os i).
Qed.
End wrappers.

End Traits.
